(* ===== verification/_CoqProject ===== *)
-Q . S2P
Prelude.v
Threads.v
GoStrings.v
GoTime.v
GoNet.v
GoPath.v
GoCrypto.v
GoFloat.v
Json.v
GoRunes.v
GoIP.v
JsonObject.v
JsonTree.v
Protocol.v
TcpServer.v
Shutdown.v
Routing.v
Connection.v
Discovery.v
Finder.v
Version.v
Identity.v
Storage.v
Opening.v
Backoff.v
Addr.v
Bootstrap.v
Node.v
Dht.v
Config.v
Cli.v
Output.v
Broadcast.v
Client.v
Relay.v
Groups.v
Persistence.v
Chat.v
Concurrent.v
Service.v
Conversation.v
Terminal.v
Panels.v
Styles.v
App.v
Daemon.v
Main.v
