(* ===== verification/Prelude.v ===== *)
(** * Skall: a verification library for the peer-to-peer terminal messenger

    Skall is a messenger in Go.  Peers have an identity (an Ed25519 key pair
    whose public key hashes to the peer ID), find each other by multicast DNS,
    keep connections, and exchange messages of a small protocol, directly or in
    groups.  There are two transports: a plain TCP server with its client, and
    libp2p hosts that reach each other through bootstrap peers and a
    Kademlia-style DHT.  Groups live in memory, groups and messages in an SQLite
    store, and a chat service ties these together for the user interface.  The
    command line loads a configuration and the identity and starts the rest.

    ** Layout

    Each file models one part; its definitions carry the names of the Go code
    and are executable.  Definitions come in a [Module] of the component where
    names would clash ([Storage.DeleteGroup], [Chat.DeleteGroup_sv]).

    - [Prelude]: results of fallible functions, machine integers, transition
      systems with reachability and inductive invariants, shared tactics.
      [Threads]: calls as programs of atomic actions, locks and waits, pools of calls
      that run concurrently, a proof rule for one call that composes to all of them,
      and a discipline of locks under which no call blocks another.
    - The parts of the Go language and library the program relies on:
      [GoStrings] ([strings] and [strconv] on byte strings, UTF-8 spaces
      included), [GoTime] ([time.Time] as nanoseconds, RFC 3339 formatting and
      parsing), [GoNet] ([net.SplitHostPort], [net.JoinHostPort]), [GoIP]
      ([net.ParseIP]), [GoPath] ([path/filepath] and the default paths of the
      stores), [GoCrypto] (SHA-256, hexadecimal, base 64), [GoFloat] ([float64]
      by the Standard Library's [SpecFloat]), [Json], [JsonObject] and [JsonTree]
      ([encoding/json] as it is used: escaping, UTF-8 replacement, values
      written compact or indented, decoding into structs), [GoRunes]
      ([strings.Repeat], lines, [[]rune]).
    - [Protocol]: [internal/protocol], messages ([message.go]) and frames
      ([framing.go]) over any conforming writer and any byte stream.
    - [TcpServer]: the server of [internal/network/tcp.go] with the connections of
      [client.go], as goroutines of atomic operations; [Shutdown], how it ends;
      [Routing], where what it delivers comes from.
    - [Connection]: [internal/network/connection/manager.go].
    - [Discovery]: [internal/network/discovery], scans, events and the connector;
      [Finder], its goroutines side by side.
    - [Identity]: [internal/identity], identities and their file.
    - [Storage]: [internal/storage/store.go], the tables and each statement;
      [Opening], opening and closing the store.
    - [Backoff], [Addr], [Bootstrap], [Node], [Dht]: [internal/network/p2p], the
      delays and [Retry] ([backoff.go]), peer addresses ([addr.go]), the
      bootstrap peers ([bootstrap.go]), the host ([host.go], [builder.go],
      [mdns_notifee.go]) and the DHT ([dht.go]).
    - [Config]: [internal/config/config.go]; [Cli]: [cmd/skall/main.go], with
      [Output], what it prints, and [Broadcast], [runP2P].
    - [Client]: [StartClient] of [internal/network/client.go], the client of that
      server over the store; [Relay], a message from client to client through the
      server.
    - [Groups]: [internal/groups/group.go], the group manager and routing.
    - [Persistence]: [internal/groups/persistence.go], the restore at start-up.
    - [Chat]: [internal/chat], the service ([p2p_service.go]), an operation a
      function; [Concurrent], the same operations called concurrently; [Service],
      the interface ([service.go]) and its contract; [Conversation], a direct
      message from the service of one node to that of another.
    - [Terminal], [Styles], [Panels], [App]: [internal/ui], the terminal
      libraries, the styles ([styles.go]), the panels ([statusbar.go], [sidebar.go], [chatview.go],
      [helpview.go]), and the root model with its messages ([app.go],
      [messages.go]) as a program that runs.
    - [Main] and [Daemon]: [main], [runTUI] and [runDiscover] of
      [cmd/skall/main.go], which put the parts together; [Version]:
      [internal/version].

    ** How state and interaction are modelled

    A Go struct is a [Record], a map a [gmap], a method a function from the
    state to a result and the state.  A method that holds a lock for its whole
    body is one step.  Where a method releases the lock, or starts a goroutine,
    the parts are separate steps: a connection attempt of [Connection] ends in
    a step of its own, interleaved with the calls in any order.  In [TcpServer]
    every goroutine is a list of atomic operations, and a step does the next
    operation of any of them; [Finder] has the scans, the two timer loops and the
    connector as such steps, and [Daemon] the server, the discovery and the
    signal next to each other; [Bootstrap.ConnectAll] runs under a schedule of
    its goroutines, and answers of the DHT come in any order.  [Chat] takes an
    operation as one step; [Concurrent] has each as a program of the actions that
    are atomic in the code, with the locks it takes and gives back and the one
    database connection it waits for, and any number of calls interleave; a call
    that nothing interrupts is proved to be the operation of [Chat].  [Client] takes each handler as one
    step: its two goroutines share a locked map and the store.  [App] has Bubble
    Tea's loop as a step relation: a key or message is handled, one of the
    commands under way ends, or the service works in the background.  Histories
    are
    sequences of calls from the initial state ([reachable] of [Prelude]), and
    invariants are proved by induction on them.

    What the code takes from outside is an argument: the clock, dial outcomes,
    the answers of a DNS browse, key pairs, the failure of any single SQL
    statement ([Storage.Env]), the accepted sends, connected peers and peer ID
    codec ([Chat.SEnv]), the ticks of a timer and random numbers
    ([Bootstrap.Tick]), environment variables ([GoPath.PathEnv]).  Go iterates maps in no fixed order: where the order
    can matter the iteration order is an argument ([Groups.prune],
    [Discovery.applyDiff]) and the theorems hold for every one.

    Components meet in interfaces: [Identity] is proved against a class of file
    systems, which [Config] and [Cli] share, [Discovery] against a class of
    connection managers, which [Connection] implements; the multiaddress and
    peer-ID libraries are the class [PeerLib] with the laws [PeerLibLaws], a
    libp2p host the class [LibHost], the JSON of an address record
    [AddrInfoJson], the terminal libraries [Terminal], libp2p's conversion of keys [KeyLib], each with a concrete instance where a witness uses it; [Chat] runs the functions of [Groups] and
    [Storage] themselves in a monad over both states, and implements the class
    [ChatService] with the laws [ChatLaws].

    ** What the theorems show

    A theorem that needs the driver to refuse no statement says so, as it does of
    every other condition; what happens without the condition is a theorem of its
    own where it was found out.

    - [Protocol]: any sequence of messages of valid UTF-8 that the writer accepted is
      read back unchanged ([wire_roundtrip]); reading arbitrary bytes consumes at most a
      header and the size limit, and returns only valid messages
      ([ReadMessage_safe]); the writer terminates on every conforming writer
      ([WriteMessage_delivers]); marshalled messages fit in a frame; and a
      message with invalid UTF-8 passes the sender and not the receiver
      ([invalid_utf8_refused]).
    - [Backoff]: [Retry] ends ([Retry_terminates]), the default delays are the
      doubled seconds up to a minute ([default_schedule]), and no configuration
      exceeds its cap ([delay_capped]).
    - [Relay]: a message typed at one client of the server arrives: the line, the
      frame, the route, the order on the connection and the row at the other
      client ([message_arrives]); and a client that starts is one the server can
      route to ([client_joins]).
    - [Addr] and [Bootstrap]: a supplied peer ID is enforced, except on a bare
      peer ID ([ParsePeerAddr_enforces]); [ConnectAll] gives the same results
      under every schedule ([ConnectAll_deterministic]); the maintenance loop
      ends for good when its retries are used up ([maintain_gives_up]).
    - [Node]: of a message of valid UTF-8 the handler of the other node gets the
      message sent, or nothing ([SendMessage_delivers]); no build leaks a host.
    - [Dht]: the distance is Kademlia's metric, [ClosestPeers] is right about it,
      the tables stay well formed whatever arrives ([dht_invariant]), an
      advertised node is found by whoever asks next, until its record expires
      ([rendezvous]), and what [FindPeers] gives; then the ways in which records are lost or forged.
    - [App] and [Main]: in every state of the program one panel has the focus,
      no index is out of range and drawing fails in one situation only
      ([interface_safe]); of service events it handles sixteen and no more
      ([sixteen_events]); some letters cannot be typed by keys that arrive by themselves
      ([letters_never_sent]), only with Alt or pasted ([letters_pasted]);
      and a session that [runTUI] starts keeps memory and tables at the groups
      it found ([session_groups]).
    - [Config] and [Cli]: validation gives a well-formed configuration and is
      idempotent ([Validate_sanitizes]), which is read back as written
      ([config_roundtrip]); the services start on it, with the outcomes of a
      sequential dial ([services_start]); and the
      configurations that are valid and do not work.
    - [Groups]: the manager refines a specification whose state is a map from
      groups to sets of members ([manager_refines]); routing delivers to each
      connected member but the sender exactly once and a repetition is refused
      as long as the set of seen messages is not pruned ([routing_delivers],
      [routing_once], [prune_may_forget]).
    - [Storage]: the tables stay consistent (keys, foreign keys, valid message rows)
      under every sequence of operations and statement failures
      ([database_invariant]); stored messages are read back ([insert_get]); what
      each operation leaves of the tables when it fails ([operations_atomic],
      [SetGroupMembership_partial], [uncounted_deletion]); and what a conversation query returns.
      [Opening]: a database whose opening was refused at any statement opens the
      next time, with the schema complete ([open_recovers]).
    - [TcpServer]: under every interleaving the limits hold, no channel is closed
      twice and there is no deadlock ([server_safety], [server_progress]); the
      one panic left is a send to a client that leaves at that moment, and
      [enqueue_race] exhibits it; what routing does when it is not interrupted
      ([broadcast_delivers], [direct_delivers]).  [Routing]: nothing is delivered
      that was not sent, to everybody or to that client ([provenance]).  [Shutdown]:
      when the server has shut down its clients are closed ([shutdown_closes]) and
      all goroutines end under every schedule ([shutdown_ends]).
    - [Client]: the stored status of what was sent ([persistOutbound_status]), and
      what a line of input does ([msg_command_sends], [read_input_safe]).
    - [Identity]: round trip of the identity file, exactness of validation, and
      stability of the identity once created.
    - [Persistence] and [Chat]: memory and store hold the same groups after any
      sequence of calls of the service, and a restart restores them ([service_restart],
      [restart_restores]); recipients and recorded status of sends; inbound
      messages are announced under the authenticated peer and stored under the
      claimed one; a message whose ID is taken is sent and not stored
      ([taken_id_not_stored]).
    - [Concurrent]: calls interleave without a send on a closed channel, and none
      blocks another: each can go on, waits for a lock whose holder can go on, or is
      a receive without an event ([calls_return]); as long as no two work on the same
      group there is no data race, and memory and tables agree on every group that
      no call is at work on ([concurrent_groups]); two calls on the same group can
      leave them apart or race ([overlapping_calls]); sequential histories are
      among the interleavings ([history_scheduled]).
    - [Service]: the service keeps the promises of its interface about groups,
      subscriptions and consistency ([P2PService_lawful]), and what a client can conclude from them
      ([lawful_history]).  [Conversation]: a direct message is heard and found at
      both ends ([message_read]); a message for a group is shown whoever sent it
      ([group_message_shown]), and announced as often as it arrives
      ([replay_announced]).
    - [Connection] and [Discovery]: no peer stays connecting once all dials have
      ended ([connection_progress]); and the ways in which events or changes are
      lost.  [Finder]: under every interleaving of the goroutines the manager is
      behind the last scan by the waiting events only ([finder_follows]).
    - [Daemon]: two nodes that run [runDiscover] find each other: what one
      announces the other reads back and tracks ([announced_found]); and the
      command's life from start to shutdown ([daemon_session]).
    - [Broadcast], [Output], [Styles]: a line reaches every connected peer
      ([line_reaches]); the help lists commands that exist ([help_understood]), a
      table has a line per peer ([peers_shown]); and the styles fit the layout
      ([layout_fits]).

    ** Bounds and fuel

    [writeAll] has fuel one more than the bytes left: a conforming writer takes
    at least one byte or fails, so the fuel is never used up, which
    [WriteMessage_delivers] proves.  The JSON readers have fuel the length of
    the text; the round trips show it is enough for every text the program
    writes.  [Fields] has fuel one more than the length of the text: each word
    and the space before it take a byte.  The uninterrupted runs of [TcpServer]
    are stated with some fuel that suffices.  [Backoff.Retry] has the calls of
    the operation as fuel: [Retry_terminates] gives the number that suffices,
    and [Retry_unlimited] shows that without a limit none does.  [ParseIP]
    reads at most eight groups of an IPv6 address.  All other recursion is
    structural.  Lengths and counters that the
    code bounds (frame size, seen messages, subscribers, channel buffers) are
    compared with the constants of the source; integers are [Z], wrapped where
    the code converts widths.

    ** Not modelled

    SQLite, TLS, TCP, multicast DNS and libp2p themselves, file permissions,
    goroutine scheduling inside a locked method other than [publish], the queries
    of the service next to other calls, logging, and the text of most
    error messages (errors are constructors).  Reads and writes of a connection
    are single events, deadlines among them, and signals are inputs.  Timers are
    sequences of ticks.  Of what the commands print, the texts that quote an
    argument with [%q] and those of the TCP client are left out; how the terminal
    libraries draw a style is theirs. *)

From Stdlib Require Export ZArith Lia.
From stdpp Require Export prelude strings gmap sorting relations.

Open Scope Z_scope.

(** ** Results of fallible Go functions

    A Go function returning [(T, error)] becomes a function to [result E T]:
    [Err e] stands for a non-nil error (the zero value Go returns next to it
    is dropped), [Ok v] for a nil one. *)

Inductive result (E A : Type) : Type :=
  | Ok (a : A)
  | Err (e : E).
Arguments Ok {E A} a.
Arguments Err {E A} e.

#[global] Instance result_ret E : MRet (result E) := λ A a, Ok a.
#[global] Instance result_bind E : MBind (result E) := λ A B f r,
  match r with Ok a => f a | Err e => Err e end.
#[global] Instance result_fmap E : FMap (result E) := λ A B f r,
  match r with Ok a => Ok (f a) | Err e => Err e end.
#[global] Instance result_eq_dec `{EqDecision E, EqDecision A} : EqDecision (result E A).
Proof. solve_decision. Defined.

Definition map_err {E E' A} (f : E → E') (r : result E A) : result E' A :=
  match r with Ok a => Ok a | Err e => Err (f e) end.

Definition is_ok {E A} (r : result E A) : bool :=
  match r with Ok _ => true | Err _ => false end.

Definition from_option_err {E A} (e : E) (o : option A) : result E A :=
  match o with Some a => Ok a | None => Err e end.

(** ** Machine integers

    Go's [int] and [int64] are 64 bits wide on every platform the program is
    built for; arithmetic on them wraps around. *)

Definition wrap64 (z : Z) : Z := (z + 2 ^ 63) `mod` 2 ^ 64 - 2 ^ 63.
Definition int64 (z : Z) : Prop := - 2 ^ 63 ≤ z < 2 ^ 63.

(** ** Reachability in a step relation *)

Section Reachability.
Context {S : Type} (init : S → Prop) (step : S → S → Prop).

Definition reachable (s : S) : Prop := ∃ s0, init s0 ∧ rtc step s0 s.

Definition inductive_invariant (P : S → Prop) : Prop :=
  (∀ s, init s → P s) ∧ (∀ s s', P s → step s s' → P s').

End Reachability.

(** ** Tactics *)

Create HintDb skall.
Create Rewrite HintDb skall.

(** Case analysis on every [match] and [if] scrutinee of the goal or of a
    hypothesis, closing the branches the case equations refute. *)
Ltac case_all :=
  repeat (case_match; simplify_eq/=; try done).

(** Destructs the [result] a hypothesis [H : x = Ok _] was computed from. *)
Ltac inv_ok :=
  repeat match goal with
  | H : mbind _ ?r = Ok _ |- _ =>
      let E := fresh "E" in destruct r eqn:E; simplify_eq/=; try discriminate H
  | H : Ok _ = Ok _ |- _ => injection H as H; subst
  | H : Err _ = Ok _ |- _ => discriminate H
  | H : Ok _ = Err _ |- _ => discriminate H
  end.

(** Splits a conjunctive goal and tries the development's hints. *)
Ltac split_auto := repeat split; eauto with skall; try lia; try done.

(** Linear arithmetic with divisions and remainders by constants. *)
Ltac div_lia := Z.div_mod_to_equations; lia.

(** ** Generic lemmas *)

Lemma wrap64_range z : int64 (wrap64 z).
Proof.
  unfold int64, wrap64. pose proof (Z.mod_pos_bound (z + 2 ^ 63) (2 ^ 64)). lia.
Qed.

Lemma wrap64_id z : int64 z → wrap64 z = z.
Proof. unfold int64, wrap64. intros. rewrite Z.mod_small; lia. Qed.

Lemma wrap64_add a b : wrap64 (wrap64 a + b) = wrap64 (a + b).
Proof. unfold wrap64. div_lia. Qed.

Lemma reachable_invariant {S} (init : S → Prop) (step : S → S → Prop) (P : S → Prop) :
  inductive_invariant init step P → ∀ s, reachable init step s → P s.
Proof.
  intros [Hi Hs] s (s0 & H0 & Hr). apply Hi in H0.
  induction Hr; eauto.
Qed.

Lemma reachable_step {S} (init : S → Prop) (step : S → S → Prop) s s' :
  reachable init step s → step s s' → reachable init step s'.
Proof. intros (s0 & H0 & Hr) Hstep. exists s0. split; [done|]. by eapply rtc_r. Qed.

Lemma reachable_init {S} (init : S → Prop) (step : S → S → Prop) s :
  init s → reachable init step s.
Proof. exists s. split; [done|apply rtc_refl]. Qed.

Lemma bind_ok_iff {E A B} (r : result E A) (f : A → result E B) b :
  (r ≫= f) = Ok b ↔ ∃ a, r = Ok a ∧ f a = Ok b.
Proof.
  destruct r; simpl; (split; [intros H; try done; eauto|]).
  - by intros (a' & [= ->] & ?).
  - by intros (a' & ? & _).
Qed.

#[export] Hint Resolve wrap64_range reachable_init : skall.
