(* ===== verification/Threads.v ===== *)
(** * Calls that run concurrently

    A call of a Go method that takes locks for parts of its body is a program
    of atomic actions on the shared state, of locks taken and released, and of
    waits for something another call does; what it computes between them is its
    own.  A pool has the shared state, the locks that are held and the calls in
    flight, and a step starts a call or does the next thing of one of them.

    Calls may own a key, the object they work on; [allowed] keeps two calls in
    flight from owning the same one.  [wp] is the proof rule for one call: what
    it may assume of its key when it goes on is what it left there, since no
    other call touches it, and it leaves the other keys alone.  [pool_safe] puts
    the calls together: whatever no call in flight owns is in order.

    [orderly] is the discipline of locks: a call takes one only when it holds
    none, holds it over actions that never wait, and gives it back before it
    returns.  [lock_safe] puts the calls together: a call that cannot go on waits
    for an event, or for a lock whose holder can go on. *)

From S2P Require Import Prelude.

(** ** Programs *)

(** A [sync.RWMutex] is taken to write or to read, a [sync.Mutex] always to write. *)
Inductive mode : Type := Writing | Reading.

Inductive prog (L St A : Type) : Type :=
  | Ret (a : A)
  (** an action, which waits until the state is ready for it *)
  | Act (R : Type) (ready : St → bool) (f : St → R * St) (k : R → prog L St A)
  | Lock (m : mode) (l : L) (q : prog L St A)
  | Unlock (l : L) (q : prog L St A).
Arguments Ret {L St A} a.
Arguments Act {L St A R} ready f k.
Arguments Lock {L St A} m l q.
Arguments Unlock {L St A} l q.

Fixpoint prog_bind {L St A B} (g : A → prog L St B) (p : prog L St A) : prog L St B :=
  match p with
  | Ret a => g a
  | Act ready f k => Act ready f (λ r, prog_bind g (k r))
  | Lock m l q => Lock m l (prog_bind g q)
  | Unlock l q => Unlock l (prog_bind g q)
  end.

#[global] Instance prog_MRet L St : MRet (prog L St) := λ A a, Ret a.
#[global] Instance prog_MBind L St : MBind (prog L St) := λ A B g p, prog_bind g p.

(** One action and its result. *)
Definition always {St} (s : St) : bool := true.
Definition act {L St A} (f : St → A * St) : prog L St A := Act always f Ret.
Definition await {L St A} (ready : St → bool) (f : St → A * St) : prog L St A := Act ready f Ret.

(** [mu.Lock(); defer mu.Unlock()] around a body. *)
Definition locked {L St A} (m : mode) (l : L) (q : prog L St A) : prog L St A :=
  Lock m l (a ← q; Unlock l (Ret a)).

(** What a call does that nothing interrupts and that never has to wait. *)
Fixpoint run {L St A} (p : prog L St A) (s : St) : A * St :=
  match p with
  | Ret a => (a, s)
  | Act _ f k => let '(r, s) := f s in run (k r) s
  | Lock _ _ q | Unlock _ q => run q s
  end.

Lemma run_bind {L St A B} (p : prog L St A) (g : A → prog L St B) s :
  run (p ≫= g) s = let '(a, s) := run p s in run (g a) s.
Proof.
  revert s. induction p as [a|R ready f k IH|m l q IH|l q IH]; intros s; cbn; [done| |apply IH..].
  destruct (f s) as [r s']. apply IH.
Qed.

Lemma run_locked {L St A} m (l : L) (q : prog L St A) s : run (locked m l q) s = run q s.
Proof. cbn. change (prog_bind ?g ?p) with (p ≫= g). rewrite run_bind. by destruct (run q s). Qed.

(** ** Pools *)

Section Pool.
Context {L St C K : Type} `{EqDecision L} `{EqDecision K}.
Context (body : C → prog L St ()) (owns : C → option K).

(** Who holds which lock. *)
Record held_lock : Type := mkHeld { h_call : nat; h_lock : L; h_mode : mode }.

Record Pool : Type := mkPool {
  p_state : St; p_held : list held_lock; p_calls : gmap nat (C * prog L St ())
}.

Inductive event : Type :=
  | Call (i : nat) (c : C)
  | Go (i : nat).

(** No call in flight owns what [c] owns. *)
Definition apart (c c' : C) : Prop :=
  match owns c with Some k => owns c' ≠ Some k | None => True end.
#[global] Instance apart_dec c c' : Decision (apart c c').
Proof. unfold apart. destruct (owns c); apply _. Defined.

Definition allowed (c : C) (calls : gmap nat (C * prog L St ())) : bool :=
  bool_decide (map_Forall (λ _ x, apart c x.1) calls).

(** A lock can be taken to read while others read, and to write when it is free.
    Go makes new readers wait for a writer that waits; here either may be next, so
    that its schedules are among these. *)
Definition free (m : mode) (l : L) (held : list held_lock) : bool :=
  forallb (λ h, negb (bool_decide (h_lock h = l)) ||
                match m, h_mode h with Reading, Reading => true | _, _ => false end) held.
Definition holds (i : nat) (l : L) (h : held_lock) : bool :=
  bool_decide (h_call h = i ∧ h_lock h = l).
Definition release (i : nat) (l : L) (held : list held_lock) : list held_lock :=
  filter (λ h, holds i l h = false) held.

(** To give back a lock that is not held ends a Go program. *)
Definition pool_step (ev : event) (p : Pool) : option Pool :=
  match ev with
  | Call i c =>
      match p_calls p !! i with
      | Some _ => None
      | None =>
          if allowed c (p_calls p)
          then Some (mkPool (p_state p) (p_held p) (<[i := (c, body c)]> (p_calls p))) else None
      end
  | Go i =>
      match p_calls p !! i with
      | None => None
      | Some (_, Ret _) => Some (mkPool (p_state p) (p_held p) (delete i (p_calls p)))
      | Some (c, Act ready f k) =>
          if ready (p_state p)
          then let '(r, s) := f (p_state p) in Some (mkPool s (p_held p) (<[i := (c, k r)]> (p_calls p)))
          else None
      | Some (c, Lock m l q) =>
          if free m l (p_held p)
          then Some (mkPool (p_state p) (mkHeld i l m :: p_held p) (<[i := (c, q)]> (p_calls p))) else None
      | Some (c, Unlock l q) =>
          if existsb (holds i l) (p_held p)
          then Some (mkPool (p_state p) (release i l (p_held p)) (<[i := (c, q)]> (p_calls p))) else None
      end
  end.

Fixpoint pool_run (evs : list event) (p : Pool) : option Pool :=
  match evs with
  | [] => Some p
  | ev :: evs => p ← pool_step ev p; pool_run evs p
  end.

Lemma pool_run_app l1 l2 p : pool_run (l1 ++ l2) p = (p' ← pool_run l1 p; pool_run l2 p').
Proof. revert p. induction l1 as [|ev l1 IH]; intros p; cbn; [done|]. destruct (pool_step ev p); [apply IH|done]. Qed.

Definition start_pool (s : St) : Pool := mkPool s [] ∅.

(** A call in flight goes on. *)
Definition goes (p p' : Pool) : Prop := ∃ i, pool_step (Go i) p = Some p'.

Definition owned (k : K) (p : Pool) : Prop := ∃ i c q, p_calls p !! i = Some (c, q) ∧ owns c = Some k.

(** ** One call at a time *)

Context {V : Type} (view : K → St → V) (synced : K → V → Prop) (ok : St → Prop).
(** What calls never undo: a later state is above an earlier one. *)
Context (le : St → St → Prop) `{!PreOrder le}.

(** What a call knows of the key it owns. *)
Definition seen (own : option K) (s : St) : option V := (λ k, view k s) <$> own.
Definition in_order (own : option K) (x : option V) : Prop :=
  match own, x with Some k, Some v => synced k v | _, _ => True end.

(** [s0] is the state the call left, or the one it started from. *)
Fixpoint wp {A} (own : option K) (q : prog L St A) (Q : A → option V → St → Prop) (x : option V) (s0 : St)
  : Prop :=
  match q with
  | Ret a => Q a x s0
  | Act _ f k => ∀ s, ok s → le s0 s → seen own s = x →
      let '(r, s') := f s in
      ok s' ∧ le s s' ∧ (∀ k', own ≠ Some k' → view k' s' = view k' s) ∧ wp own (k r) Q (seen own s') s'
  | Lock _ _ q | Unlock _ q => wp own q Q x s0
  end.

Lemma wp_bind {A B} own (q : prog L St A) (g : A → prog L St B) Q x s0 :
  wp own q (λ a y s, wp own (g a) Q y s) x s0 → wp own (q ≫= g) Q x s0.
Proof.
  revert x s0. induction q as [a|R ready f k IH|m l q IH|l q IH]; intros x s0; [done| |apply IH..]. intros H s Hs Hl Hx. specialize (H s Hs Hl Hx).
  cbn in H |- *. destruct (f s) as [r s']. destruct H as (? & ? & ? & ?). eauto.
Qed.

Lemma wp_mono {A} own (q : prog L St A) (Q Q' : A → option V → St → Prop) x s0 :
  (∀ a y s, Q a y s → Q' a y s) → wp own q Q x s0 → wp own q Q' x s0.
Proof.
  intros HQ. revert x s0. induction q as [a|R ready f k IH|m l q IH|l q IH]; intros x s0; [apply HQ| |apply IH..]. intros H s Hs Hl Hx.
  specialize (H s Hs Hl Hx). cbn in H |- *. destruct (f s) as [r s']. destruct H as (? & ? & ? & ?). eauto.
Qed.

(** An action on the key that is owned. *)
Lemma wp_own {A} k (f : St → A * St) (Q : A → option V → St → Prop) v s0 :
  (∀ s, ok s → le s0 s → view k s = v → let '(r, s') := f s in
     ok s' ∧ le s s' ∧ (∀ k', k' ≠ k → view k' s' = view k' s) ∧ Q r (Some (view k s')) s') →
  wp (Some k) (act f) Q (Some v) s0.
Proof.
  intros H s Hs Hl [= Hx]. specialize (H s Hs Hl Hx). destruct (f s) as [r s'].
  destruct H as (? & ? & Hv & ?). split_and!; [done|done| |done]. intros k' Hk. apply Hv. by intros ->.
Qed.

(** Holding a lock changes nothing. *)
Lemma wp_locked {A} own m l (q : prog L St A) (Q : A → option V → St → Prop) x s0 :
  wp own q Q x s0 → wp own (locked m l q) Q x s0.
Proof. intros H. apply (wp_bind own q). exact H. Qed.

(** A program that touches no key. *)
Definition still {A} (q : prog L St A) : Prop :=
  ∀ own x s0 (Q : A → option V → St → Prop), (∀ r s, le s0 s → Q r x s) → wp own q Q x s0.

Lemma still_ret {A} (a : A) : still (mret a).
Proof. intros own x s0 Q H. by apply H. Qed.

Lemma still_bind {A B} (q : prog L St A) (g : A → prog L St B) : still q → (∀ a, still (g a)) → still (q ≫= g).
Proof.
  intros Hq Hg own x s0 Q H. apply wp_bind, Hq. intros r s Hs. apply Hg. intros r' s' Hs'. apply H. by etrans.
Qed.

Lemma still_locked {A} m l (q : prog L St A) : still q → still (locked m l q).
Proof. intros Hq own x s0 Q H. apply wp_locked. by apply Hq. Qed.

Lemma still_act {A} ready (f : St → A * St) :
  (∀ s, ok s → ok (f s).2 ∧ le s (f s).2 ∧ ∀ k, view k (f s).2 = view k s) → still (await ready f).
Proof.
  intros Hf own x s0 Q HQ s Hs Hl Hx. specialize (Hf s Hs). destruct (f s) as [r s'].
  destruct Hf as (Ho & Hm & Hv). split_and!; [done|done|intros k _; apply Hv|]. cbn.
  replace (seen own s') with x; [apply HQ; by etrans|].
  rewrite <- Hx. unfold seen. destruct own; cbn; [|done]. by rewrite <- Hv.
Qed.

(** ** All of them *)

Context (body_wp : ∀ c x s, in_order (owns c) x →
  wp (owns c) (body c) (λ _ y _, in_order (owns c) y) x s).

Record pool_safe (p : Pool) : Prop := {
  ps_ok : ok (p_state p);
  ps_calls : ∀ i c q, p_calls p !! i = Some (c, q) → ∃ s0, le s0 (p_state p) ∧
    wp (owns c) q (λ _ y _, in_order (owns c) y) (seen (owns c) (p_state p)) s0;
  ps_apart : ∀ i j c c' q q' k, p_calls p !! i = Some (c, q) → p_calls p !! j = Some (c', q') →
    owns c = Some k → owns c' = Some k → i = j;
  ps_rest : ∀ k, ¬ owned k p → synced k (view k (p_state p))
}.

Lemma seen_kept own own' s s' : (∀ k, own ≠ Some k → view k s' = view k s) →
  (∀ k, own = Some k → own' ≠ Some k) → seen own' s' = seen own' s.
Proof. intros Hv Hd. destruct own' as [k|]; cbn; [|done]. f_equal. apply Hv. intros ->. by apply (Hd k). Qed.

Lemma allowed_spec c calls i c' q k : allowed c calls = true → calls !! i = Some (c', q) →
  owns c = Some k → owns c' ≠ Some k.
Proof.
  unfold allowed. intros H%bool_decide_eq_true_1 Hi Hc. specialize (H i _ Hi). unfold apart in H. by rewrite Hc in H.
Qed.

Lemma pool_safe_call i c p p' : pool_safe p → pool_step (Call i c) p = Some p' → pool_safe p'.
Proof.
  intros [Ho Hc Ha Hr]. cbn. destruct (p_calls p !! i) eqn:Ei; [done|].
  destruct (allowed c (p_calls p)) eqn:Hal; [|done]. intros [= <-]. split; cbn; [done| | |].
  - intros j c' q. rewrite lookup_insert_Some. intros [[<- [= <- <-]]|[_ H]]; [|by apply (Hc j)].
    exists (p_state p). split; [done|]. apply body_wp.
    destruct (owns c) as [k|] eqn:Ek; cbn; [|done]. apply Hr.
    intros (j & c' & q & Hj & Hk). by apply (allowed_spec _ _ _ _ _ _ Hal Hj Ek).
  - intros j1 j2 c1 c2 q1 q2 k. rewrite !lookup_insert_Some.
    intros [[<- [= <- <-]]|[? H1]] [[<- [= <- <-]]|[? H2]] Hk1 Hk2; [done| | |by eapply (Ha j1 j2)].
    + exfalso. by apply (allowed_spec _ _ _ _ _ _ Hal H2 Hk1).
    + exfalso. by apply (allowed_spec _ _ _ _ _ _ Hal H1 Hk2).
  - intros k Hk. apply Hr. intros (j & c' & q & Hj & Hc'). apply Hk. exists j, c', q.
    cbn. rewrite lookup_insert_ne by (intros <-; by rewrite Ei in Hj). done.
Qed.

(** One call goes on to [q'], from [p_state p] to [s']. *)
Lemma safe_goes i c q q' s' held p : pool_safe p → p_calls p !! i = Some (c, q) →
  ok s' → le (p_state p) s' → (∀ k, owns c ≠ Some k → view k s' = view k (p_state p)) →
  (∃ s0, le s0 s' ∧ wp (owns c) q' (λ _ y _, in_order (owns c) y) (seen (owns c) s') s0) →
  pool_safe (mkPool s' held (<[i := (c, q')]> (p_calls p))).
Proof.
  intros [Ho Hc Ha Hr] Ei Ho' Hl' Hv Hw. split; cbn; [done| | |].
  - intros j c' q1. rewrite lookup_insert_Some. intros [[<- [= <- <-]]|[Hij H]]; [done|].
    rewrite (seen_kept (owns c) (owns c') (p_state p) s' Hv).
    { destruct (Hc j c' q1 H) as (s1 & Hl1 & Hw1). exists s1. split; [by etrans|done]. }
    intros k' H1 H2. apply Hij. by apply (Ha i j _ _ _ _ k' Ei H).
  - intros j1 j2 c1 c2 q1 q2 k'. rewrite !lookup_insert_Some.
    intros [[<- [= <- <-]]|[? H1]] [[<- [= <- <-]]|[? H2]]; [done|by eapply Ha..].
  - intros k' Hk. destruct (decide (owns c = Some k')) as [E|E].
    { exfalso. apply Hk. exists i, c, q'. cbn. by rewrite lookup_insert_eq. }
    rewrite (Hv k' E). apply Hr. intros (j & c' & q1 & Hj & Hc'). apply Hk. exists j, c', q1. cbn.
    rewrite lookup_insert_ne; [done|]. intros <-. rewrite Ei in Hj. injection Hj as <- _. done.
Qed.

Lemma pool_safe_go i p p' : pool_safe p → pool_step (Go i) p = Some p' → pool_safe p'.
Proof.
  intros [Ho Hc Ha Hr]. cbn.
  destruct (p_calls p !! i) as [[c [[]|R ready f k|m l q|l q]]|] eqn:Ei; [| | | |done].
  - intros [= <-]. destruct (Hc i c _ Ei) as (s0 & _ & Hw). cbn in Hw. split; cbn; [done| | |].
    + intros j c' q [_ H]%lookup_delete_Some. by apply (Hc j).
    + intros j1 j2 c1 c2 q1 q2 k [_ H1]%lookup_delete_Some [_ H2]%lookup_delete_Some. by apply (Ha j1 j2 c1 c2 q1 q2).
    + intros k Hk. destruct (decide (owns c = Some k)) as [E|E]; [by rewrite E in Hw|].
      apply Hr. intros (j & c' & q & Hj & Hc'). apply Hk. exists j, c', q. cbn.
      rewrite lookup_delete_ne; [done|]. intros <-. rewrite Ei in Hj. injection Hj as <- _. done.
  - destruct (ready (p_state p)); [|done].
    destruct (Hc i c _ Ei) as (s0 & Hl & Hw). specialize (Hw (p_state p) Ho Hl eq_refl).
    destruct (f (p_state p)) as [r s']. destruct Hw as (Ho' & Hl' & Hv & Hw). intros [= <-].
    apply (safe_goes i c (Act ready f k)); try done; by exists s'.
  - destruct (free _ _ _); [|done]. intros [= <-]. destruct (Hc i c _ Ei) as (s0 & Hl & Hw).
    apply (safe_goes i c (Lock m l q)); try done; by exists s0.
  - destruct (existsb _ _); [|done]. intros [= <-]. destruct (Hc i c _ Ei) as (s0 & Hl & Hw).
    apply (safe_goes i c (Unlock l q)); try done; by exists s0.
Qed.

Lemma pool_safe_run evs p p' : pool_safe p → pool_run evs p = Some p' → pool_safe p'.
Proof.
  revert p. induction evs as [|ev evs IH]; intros p Hp; [by intros [= <-]|]. cbn [pool_run].
  destruct (pool_step ev p) as [p1|] eqn:E; [|done]. cbn. apply IH.
  destruct ev; [by eapply pool_safe_call|by eapply pool_safe_go].
Qed.

Lemma pool_safe_start s : ok s → (∀ k, synced k (view k s)) → pool_safe (start_pool s).
Proof. intros Hs Hk. split; cbn; try done; intros; set_solver. Qed.

End Pool.

(** ** Locks

    The discipline of one call.  [waits] are the events it may wait for while it
    holds no lock; [h] is the lock it holds when it begins and [h'] the one when it
    returns. *)

Section Locks.
Context {L St C K : Type} `{EqDecision L} `{EqDecision K}.

Fixpoint orderly {A} (waits : (St → bool) → Prop) (h : option L) (q : prog L St A) (h' : option L) : Prop :=
  match q with
  | Ret _ => h = h'
  | Act ready f k =>
      ((∀ s, ready s = true) ∨ h = None ∧ waits ready) ∧ ∀ r, orderly waits h (k r) h'
  | Lock _ l q => h = None ∧ orderly waits (Some l) q h'
  | Unlock l q => h = Some l ∧ orderly waits None q h'
  end.

Lemma orderly_bind {A B} waits h h' h'' (q : prog L St A) (g : A → prog L St B) :
  orderly waits h q h' → (∀ a, orderly waits h' (g a) h'') → orderly waits h (q ≫= g) h''.
Proof.
  intros Hq Hg. revert h Hq. induction q as [a|R ready f k IH|m l q IH|l q IH]; intros h; cbn.
  - intros ->. apply Hg.
  - intros [Hr Hk]. split; [done|]. intros r. apply IH, Hk.
  - intros [-> Hq]. split; [done|]. by apply IH.
  - intros [-> Hq]. split; [done|]. by apply IH.
Qed.

Lemma orderly_act {A} waits h (f : St → A * St) : orderly waits h (act f) h.
Proof. split; [by left|done]. Qed.

Lemma orderly_await {A} (waits : (St → bool) → Prop) ready (f : St → A * St) :
  waits ready → orderly waits None (await ready f) None.
Proof. intros H. split; [by right|done]. Qed.

Lemma orderly_locked {A} waits m l (q : prog L St A) :
  orderly waits (Some l) q (Some l) → orderly waits None (locked m l q) None.
Proof. intros H. split; [done|]. apply (orderly_bind _ _ (Some l)); [done|]. by intros a. Qed.

(** ** All of them *)

Context (body : C → prog L St ()) (owns : C → option K) (waits : C → (St → bool) → Prop).
Context (body_orderly : ∀ c, orderly (waits c) None (body c) None).

(** What a call in flight holds is what its program takes it to hold. *)
Definition lock_safe (p : Pool) : Prop := ∀ i,
  match p_calls p !! i with
  | None => ∀ h, h ∈ p_held p → h_call h ≠ i
  | Some (c, q) => ∃ o, orderly (waits c) o q None ∧
      ∀ l, o = Some l ↔ ∃ h, h ∈ p_held p ∧ h_call h = i ∧ h_lock h = l
  end.

Lemma lock_safe_start s : lock_safe (start_pool s).
Proof. intros i. cbn. rewrite lookup_empty. by intros h Hh%not_elem_of_nil. Qed.

(** The call [i] goes on and the locks of the others stay theirs. *)
Lemma lock_safe_goes i c o q s held (p : Pool) : lock_safe p →
  (∀ h, h_call h ≠ i → h ∈ held ↔ h ∈ p_held p) → orderly (waits c) o q None →
  (∀ l, o = Some l ↔ ∃ h, h ∈ held ∧ h_call h = i ∧ h_lock h = l) →
  lock_safe (mkPool s held (<[i := (c, q)]> (p_calls p))).
Proof.
  intros Hp Hother Ho Hl j. cbn. destruct (decide (i = j)) as [<-|Hij]; [rewrite lookup_insert_eq; eauto|].
  rewrite lookup_insert_ne by done. specialize (Hp j). destruct (p_calls p !! j) as [[c' q']|].
  - destruct Hp as (o' & Ho' & Hl'). exists o'. split; [done|]. intros l. rewrite Hl'.
    split; intros (h & Hh & Hi & He); exists h; (split; [apply (Hother h); [by subst|done]|done]).
  - intros h Hh. destruct (decide (h_call h = i)) as [->|Hi]; [done|]. apply Hp. by apply Hother.
Qed.

Lemma elem_of_release i l (held : list (held_lock (L := L))) h : h ∈ release i l held ↔ h ∈ held ∧ ¬ (h_call h = i ∧ h_lock h = l).
Proof.
  unfold release. rewrite list_elem_of_filter. unfold holds. rewrite bool_decide_eq_false. tauto.
Qed.

Lemma lock_safe_step ev p p' : lock_safe p → pool_step body owns ev p = Some p' → lock_safe p'.
Proof.
  intros Hp. destruct ev as [i c|i]; cbn.
  - pose proof (Hp i) as Hi. destruct (p_calls p !! i) eqn:Ei; [done|]. destruct (allowed _ _ _); [|done].
    intros [= <-]. apply (lock_safe_goes i c None); [done|done|apply body_orderly|].
    intros l. split; [done|]. intros (h & Hh & He & _). by destruct (Hi h Hh).
  - pose proof (Hp i) as Hi. destruct (p_calls p !! i) as [[c [a|R ready f k|m l q|l q]]|] eqn:Ei; [| | | |done];
      destruct Hi as (o & Ho & Hl); cbn in Ho.
    + intros [= <-] j. cbn. destruct (decide (i = j)) as [<-|Hij].
      * rewrite lookup_delete_eq. intros h Hh Hc. subst o. by assert (None = Some (h_lock h)) by (apply Hl; eauto).
      * rewrite lookup_delete_ne by done. apply Hp.
    + destruct (ready _); [|done]. destruct (f (p_state p)) as [r s]. intros [= <-].
      by apply (lock_safe_goes i c o); [| |apply Ho|].
    + destruct (free _ _ _); [|done]. intros [= <-]. destruct Ho as [-> Ho].
      apply (lock_safe_goes i c (Some l)); [done| |done|].
      * intros h Hh. rewrite elem_of_cons. split; [intros [->|]; done|by right].
      * intros l'. split; [intros [= <-]; exists (mkHeld i l m); by split_and!; [left|..]|].
        intros (h & [->|Hh]%elem_of_cons & Hi & <-); [done|]. by assert (None = Some (h_lock h)) by (apply Hl; eauto).
    + destruct (existsb _ _); [|done]. intros [= <-]. destruct Ho as [-> Ho].
      apply (lock_safe_goes i c None); [done| |done|].
      * intros h Hh. rewrite elem_of_release. naive_solver.
      * intros l'. split; [done|]. intros (h & [Hh Hn]%elem_of_release & Hi & He).
        destruct Hn. split; [done|]. assert (Some l = Some (h_lock h)) as [=] by (apply Hl; eauto). done.
Qed.

Lemma lock_safe_run evs p p' : lock_safe p → pool_run body owns evs p = Some p' → lock_safe p'.
Proof.
  revert p. induction evs as [|ev evs IH]; intros p Hp; [by intros [= <-]|]. cbn [pool_run].
  destruct (pool_step body owns ev p) as [p1|] eqn:E; [|done]. cbn. apply IH. by eapply lock_safe_step.
Qed.

Definition can_go (i : nat) (p : Pool) : Prop := is_Some (pool_step body owns (Go i) p).

(** The call waits for an event. *)
Definition wants_event (c : C) (q : prog L St ()) (p : Pool (L := L) (C := C)) : Prop :=
  match q with Act ready _ _ => waits c ready ∧ ready (p_state p) = false | _ => False end.

(** It waits for a lock, which another call holds that can go on. *)
Definition wants_lock (i : nat) (q : prog L St ()) (p : Pool) : Prop :=
  match q with
  | Lock m l _ => ∃ h, h ∈ p_held p ∧ h_lock h = l ∧ h_call h ≠ i ∧ can_go (h_call h) p
  | _ => False
  end.

Lemma holder_goes p h : lock_safe p → h ∈ p_held p → can_go (h_call h) p.
Proof.
  intros Hp Hh. specialize (Hp (h_call h)). unfold can_go. cbn.
  destruct (p_calls p !! h_call h) as [[c q]|]; [|by destruct (Hp h Hh)].
  destruct Hp as (o & Ho & Hl). assert (o = Some (h_lock h)) as -> by (apply Hl; eauto).
  destruct q as [a|R ready f k|m l q|l q]; cbn in Ho; [done| |by destruct Ho|].
  - destruct Ho as [[Hr|[? _]] _]; [|done]. rewrite Hr. by destruct (f (p_state p)).
  - destruct Ho as [[= <-] _].
    assert (existsb (holds (h_call h) (h_lock h)) (p_held p) = true) as ->; [|done].
    apply existsb_exists. exists h. split; [by apply list_elem_of_In|]. unfold holds. by apply bool_decide_eq_true_2.
Qed.

Lemma not_free m l (held : list (held_lock (L := L))) : free m l held = false → ∃ h, h ∈ held ∧ h_lock h = l.
Proof.
  unfold free. induction held as [|h held IH]; cbn; [done|]. rewrite andb_false_iff. intros [H|H].
  - apply orb_false_iff in H as [H _]. apply negb_false_iff, bool_decide_eq_true_1 in H. exists h. split; [left|done].
  - destruct (IH H) as (h' & ? & ?). exists h'. split; [by right|done].
Qed.

Lemma go_or_wait i c q p : lock_safe p → p_calls p !! i = Some (c, q) →
  can_go i p ∨ wants_event c q p ∨ wants_lock i q p.
Proof.
  intros Hp Hi. pose proof (Hp i) as Ho. rewrite Hi in Ho. destruct Ho as (o & Ho & Hl).
  unfold can_go. cbn. rewrite Hi.
  destruct q as [a|R ready f k|m l q|l q]; cbn in Ho |- *; [left; by eexists| | |].
  - destruct (ready (p_state p)) eqn:Er; [left; by destruct (f (p_state p))|].
    destruct Ho as [[Hr|[_ Hw]] _]; [by rewrite Hr in Er|right; by left].
  - destruct (free m l (p_held p)) eqn:Ef; [left; by eexists|]. right. right. destruct Ho as [-> _].
    destruct (not_free m l _ Ef) as (h & Hh & Hhl). exists h. split_and!; [done|done| |by apply holder_goes].
    intros He. by assert (None = Some l) by (apply Hl; eauto).
  - left. destruct Ho as [-> _]. destruct (proj1 (Hl l) eq_refl) as (h & Hh & He & Hhl).
    assert (existsb (holds i l) (p_held p) = true) as ->; [|by eexists].
    apply existsb_exists. exists h. split; [by apply list_elem_of_In|]. unfold holds. by apply bool_decide_eq_true_2.
Qed.

(** When nothing can go on, everything left waits for an event, and no lock is held. *)
Lemma at_rest p : lock_safe p → (∀ i, ¬ can_go i p) →
  p_held p = [] ∧ ∀ i c q, p_calls p !! i = Some (c, q) → wants_event c q p.
Proof.
  intros Hp Hn. split.
  - destruct (p_held p) as [|h held] eqn:Eh; [done|]. destruct (Hn (h_call h)). apply holder_goes; [done|].
    rewrite Eh. left.
  - intros i c q Hi. destruct (go_or_wait i c q p Hp Hi) as [H|[H|H]]; [by destruct (Hn i)|done|].
    destruct q; try done. destruct H as (h & _ & _ & _ & Hg). by destruct (Hn (h_call h)).
Qed.

(** A call that is alone and never has to wait runs to its end. *)
Lemma go_run i c o q s held : orderly (λ _, False) o q None →
  (match o with Some l => ∃ m, held = [mkHeld i l m] | None => held = [] end) →
  ∃ n, pool_run body owns (repeat (Go i) n) (mkPool s held {[i := (c, q)]}) = Some (mkPool (run q s).2 [] ∅).
Proof.
  revert o s held. induction q as [[]|R ready f k IH|m l q IH|l q IH]; intros o s held; cbn [orderly].
  - intros -> ->. exists 1%nat. cbn. by rewrite lookup_singleton_eq, delete_singleton_eq.
  - intros [[Hr|[_ []]] Ho] Hh. destruct (f s) as [r s'] eqn:E. destruct (IH r o s' held (Ho r) Hh) as [n Hn].
    exists (S n). cbn. rewrite lookup_singleton_eq. cbn [p_state]. rewrite Hr, E. cbn. rewrite insert_singleton_eq. exact Hn.
  - intros [-> Ho] ->. destruct (IH (Some l) s [mkHeld i l m] Ho) as [n Hn]; [by exists m|].
    exists (S n). cbn. rewrite lookup_singleton_eq. cbn. rewrite insert_singleton_eq. exact Hn.
  - intros [-> Ho] [m ->]. destruct (IH None s [] Ho eq_refl) as [n Hn].
    assert (release i l [mkHeld i l m] = []) as Hr.
    { apply elem_of_nil_inv. intros h [Hh%list_elem_of_singleton Hn']%elem_of_release. subst h. by destruct Hn'. }
    assert (existsb (holds i l) [mkHeld i l m] = true) as He by (cbn; unfold holds; by rewrite bool_decide_eq_true_2).
    exists (S n). cbn -[release existsb]. rewrite lookup_singleton_eq. cbn -[release existsb].
    rewrite He, Hr. cbn. rewrite insert_singleton_eq. exact Hn.
Qed.

(** ** Termination

    If no new call starts, those in flight go on finitely often. *)

(** A step of the calls, whatever the state. *)
Definition calls_step (m' m : gmap nat (C * prog L St ())) : Prop := ∃ i c q, m !! i = Some (c, q) ∧
  match q with
  | Ret _ => m' = delete i m
  | Act _ f k => ∃ s, m' = <[i := (c, k (f s).1)]> m
  | Lock _ _ q | Unlock _ q => m' = <[i := (c, q)]> m
  end.

Lemma calls_insert i c m : m !! i = None → Acc calls_step m → ∀ q, Acc calls_step (<[i := (c, q)]> m).
Proof.
  intros Hi Hm. revert Hi. induction Hm as [m Hm IHm]. intros Hi q.
  (* another call takes the step *)
  assert (Hother : ∀ q m' j, i ≠ j → (∃ c' q', m !! j = Some (c', q') ∧ calls_step m' (<[i := (c, q)]> m) ∧
      ((m' = delete j (<[i := (c, q)]> m) ∧ calls_step (delete j m) m) ∨
       ∃ q'', m' = <[j := (c', q'')]> (<[i := (c, q)]> m) ∧ calls_step (<[j := (c', q'')]> m) m)) → Acc calls_step m').
  { intros q0 m' j Hij (c' & q' & Hj & _ & [[-> Hs]|(q'' & -> & Hs)]).
    - rewrite delete_insert_ne by done. apply IHm; [done|]. by rewrite lookup_delete_ne.
    - rewrite insert_insert_ne by done. apply IHm; [done|]. by rewrite lookup_insert_ne. }
  assert (Hsplit : ∀ q m', calls_step m' (<[i := (c, q)]> m) →
    (∀ m'', match q with
      | Ret _ => m'' = delete i (<[i := (c, q)]> m)
      | Act _ f k => ∃ s, m'' = <[i := (c, k (f s).1)]> (<[i := (c, q)]> m)
      | Lock _ _ q' | Unlock _ q' => m'' = <[i := (c, q')]> (<[i := (c, q)]> m)
      end → Acc calls_step m'') → Acc calls_step m').
  { intros q0 m' Hs Hself. pose proof Hs as (j & c' & q' & Hj & Hq). destruct (decide (i = j)) as [<-|Hij].
    - rewrite lookup_insert_eq in Hj. injection Hj as <- <-. by apply Hself.
    - rewrite lookup_insert_ne in Hj by done. apply (Hother q0 m' j Hij). exists c', q'. split_and!; [done|done|].
      destruct q' as [a|R ready f k|md l q'|l q'].
      + left. split; [done|]. by exists j, c', (Ret a).
      + right. destruct Hq as [s Hq]. eexists. split; [exact Hq|]. exists j, c', (Act ready f k). split; [done|]. by exists s.
      + right. exists q'. split; [done|]. by exists j, c', (Lock md l q').
      + right. exists q'. split; [done|]. by exists j, c', (Unlock l q'). }
  induction q as [a|R ready f k IHq|md l q IHq|l q IHq]; constructor; intros m' Hs; apply (Hsplit _ _ Hs).
  - intros m'' ->. rewrite delete_insert_id by done. by constructor.
  - intros m'' [s ->]. rewrite insert_insert_eq. apply IHq.
  - intros m'' ->. rewrite insert_insert_eq. apply IHq.
  - intros m'' ->. rewrite insert_insert_eq. apply IHq.
Qed.

Lemma calls_end m : Acc calls_step m.
Proof.
  induction m as [|i [c q] m Hi IH] using map_ind; [|by apply calls_insert].
  constructor. intros m' (j & c & q & Hj & _). by rewrite lookup_empty in Hj.
Qed.

Lemma goes_calls (p p' : Pool) : goes body owns p p' → calls_step (p_calls p') (p_calls p).
Proof.
  intros (i & Hi). cbn in Hi. destruct (p_calls p !! i) as [[c q]|] eqn:E; [|done].
  exists i, c, q. split; [done|]. destruct q as [a|R ready f k|m l q|l q].
  - by injection Hi as <-.
  - destruct (ready _); [|done]. exists (p_state p). destruct (f (p_state p)). by injection Hi as <-.
  - destruct (free _ _ _); [|done]. by injection Hi as <-.
  - destruct (existsb _ _); [|done]. by injection Hi as <-.
Qed.

Lemma goes_end (p : Pool) : Acc (flip (goes body owns)) p.
Proof.
  remember (p_calls p) as m eqn:Em. revert p Em. induction (calls_end m) as [m _ IH]. intros p ->.
  constructor. intros p' Hp'. apply (IH (p_calls p')); [|done]. by apply goes_calls.
Qed.

End Locks.
