(* ===== verification/GoStrings.v ===== *)
(** * Go strings

    A Go [string] (and a [[]byte] that is only read) is a sequence of bytes:
    here a [string] of [ascii] bytes.  This file models the functions of the
    [strings], [unicode/utf8], [strconv] and [sort] packages the program
    calls, and proves the facts about them the components share. *)

From S2P Require Import Prelude.
From stdpp Require Export pretty.
From Stdlib Require Export Ascii.

Open Scope Z_scope.

(** The length of a string as a Go [int]. *)
Definition slen (s : string) : Z := Z.of_nat (String.length s).

Definition byte_Z (a : ascii) : Z := Z.of_N (N_of_ascii a).
Definition Z_byte (z : Z) : ascii := ascii_of_N (Z.to_N (z `mod` 256)).

(** ** Prefixes *)

(** [strings.HasPrefix]. *)
Fixpoint HasPrefix (s p : string) : bool :=
  match p, s with
  | EmptyString, _ => true
  | String a p', String b s' => if decide (a = b) then HasPrefix s' p' else false
  | String _ _, EmptyString => false
  end.

(** [s[:n]] and [s[n:]] for [0 <= n]; in range they never panic. *)
Fixpoint take_s (n : nat) (s : string) : string :=
  match n, s with
  | S n', String a s' => String a (take_s n' s')
  | _, _ => EmptyString
  end.

Fixpoint drop_s (n : nat) (s : string) : string :=
  match n, s with
  | S n', String _ s' => drop_s n' s'
  | _, _ => s
  end.

(** [strings.Contains]. *)
Fixpoint Contains (s sub : string) : bool :=
  HasPrefix s sub ||
  match s with EmptyString => false | String _ s' => Contains s' sub end.

Definition lower_byte (a : ascii) : ascii :=
  let z := byte_Z a in if (65 <=? z) && (z <=? 90) then Z_byte (z + 32) else a.

(** [strings.ToLower].  The program only compares the result with ASCII
    strings, or looks for an ASCII string in it.  Besides [A]..[Z], two code
    points have an ASCII lower case: U+0130 (bytes C4 B0, lower case [i]) and
    U+212A (bytes E2 84 AA, lower case [k]).  Every other non-ASCII character
    is left as it is: its lower case is not ASCII either, so the comparisons
    come out the same. *)
Fixpoint ToLower (s : string) : string :=
  match s with
  | EmptyString => EmptyString
  | String a s1 =>
      match s1 with
      | String b s2 =>
          if (byte_Z a =? 196) && (byte_Z b =? 176) then String "i" (ToLower s2) else
          match s2 with
          | String c s3 =>
              if (byte_Z a =? 226) && (byte_Z b =? 132) && (byte_Z c =? 170)
              then String "k" (ToLower s3) else String (lower_byte a) (ToLower s1)
          | EmptyString => String (lower_byte a) (ToLower s1)
          end
      | EmptyString => String (lower_byte a) (ToLower s1)
      end
  end.

(** [strings.EqualFold(s, t)] for an ASCII [t]: under simple case folding the
    non-ASCII characters equal to an ASCII letter are U+017F (bytes C5 BF,
    folds to [s]) and U+212A (folds to [k]). *)
Fixpoint EqualFold (s t : string) : bool :=
  match s, t with
  | EmptyString, EmptyString => true
  | String a s1, String x t1 =>
      if decide (lower_byte a = lower_byte x) then EqualFold s1 t1 else
      match s1 with
      | String b s2 =>
          if (byte_Z a =? 197) && (byte_Z b =? 191) && bool_decide (lower_byte x = "s"%char)
          then EqualFold s2 t1 else
          match s2 with
          | String c s3 =>
              (byte_Z a =? 226) && (byte_Z b =? 132) && (byte_Z c =? 170) &&
              bool_decide (lower_byte x = "k"%char) && EqualFold s3 t1
          | EmptyString => false
          end
      | EmptyString => false
      end
  | _, _ => false
  end.

(** [strings.Join]. *)
Fixpoint Join (l : list string) (sep : string) : string :=
  match l with
  | [] => EmptyString
  | [s] => s
  | s :: l' => s +:+ sep +:+ Join l' sep
  end.

(** ** Trimming white space

    [unicode.IsSpace] holds of six ASCII characters, of U+0085 and U+00A0, and
    of the code points with the White_Space property; in UTF-8 these are one,
    two and three bytes long.  [strings.TrimSpace] removes such sequences from
    both ends: at the front it decodes the first rune, at the back the last
    one, and a byte sequence that is not one of these encodings does not
    decode to a white-space rune. *)

Definition space1 (a : ascii) : bool :=
  let z := byte_Z a in (z =? 32) || ((9 <=? z) && (z <=? 13)).

Definition space2 (a b : ascii) : bool :=
  (byte_Z a =? 194) && ((byte_Z b =? 133) || (byte_Z b =? 160)).

Definition space3 (a b c : ascii) : bool :=
  let x := byte_Z a in let y := byte_Z b in let z := byte_Z c in
  ((x =? 225) && (y =? 154) && (z =? 128)) ||
  ((x =? 226) && (y =? 128) &&
     (((128 <=? z) && (z <=? 138)) || (z =? 168) || (z =? 169) || (z =? 175))) ||
  ((x =? 226) && (y =? 129) && (z =? 159)) ||
  ((x =? 227) && (y =? 128) && (z =? 128)).

(** Drops from the front the sequences the three predicates accept. *)
Fixpoint drop_seqs (p1 : ascii → bool) (p2 : ascii → ascii → bool)
    (p3 : ascii → ascii → ascii → bool) (s : string) : string :=
  match s with
  | EmptyString => EmptyString
  | String a s1 =>
      if p1 a then drop_seqs p1 p2 p3 s1 else
      match s1 with
      | EmptyString => s
      | String b s2 =>
          if p2 a b then drop_seqs p1 p2 p3 s2 else
          match s2 with
          | EmptyString => s
          | String c s3 => if p3 a b c then drop_seqs p1 p2 p3 s3 else s
          end
      end
  end.

Fixpoint rev_append_s (s acc : string) : string :=
  match s with
  | EmptyString => acc
  | String a s' => rev_append_s s' (String a acc)
  end.
Definition rev_s (s : string) : string := rev_append_s s EmptyString.

(** [strings.TrimLeftFunc(s, unicode.IsSpace)] and its right counterpart. *)
Definition TrimLeft (s : string) : string := drop_seqs space1 space2 space3 s.
Definition TrimRight (s : string) : string :=
  rev_s (drop_seqs space1 (λ a b, space2 b a) (λ a b c, space3 c b a) (rev_s s)).

(** [strings.TrimSpace]. *)
Definition TrimSpace (s : string) : string := TrimRight (TrimLeft s).

(** Does the string start with a sequence the predicates accept? *)
Definition lead (p1 : ascii → bool) (p2 : ascii → ascii → bool)
    (p3 : ascii → ascii → ascii → bool) (s : string) : bool :=
  match s with
  | String a (String b (String c _)) => p1 a || p2 a b || p3 a b c
  | String a (String b EmptyString) => p1 a || p2 a b
  | String a EmptyString => p1 a
  | EmptyString => false
  end.

(** A string whose ends are not white space is its own trimming. *)
Definition trimmed (s : string) : Prop := TrimSpace s = s.

(** ** Predicates on every byte *)

Fixpoint all_bytes (p : ascii → bool) (s : string) : bool :=
  match s with EmptyString => true | String a s' => p a && all_bytes p s' end.

(** Printable ASCII other than the space. *)
Definition graphic (a : ascii) : bool := (33 <=? byte_Z a) && (byte_Z a <=? 126).

(** ** Splitting *)

(** [strings.SplitN(s, sep, 2)] for a one-byte separator: the string cut at
    its first separator, or the whole string. *)
Fixpoint SplitN2 (sep : ascii) (s : string) : string * option string :=
  match s with
  | EmptyString => (EmptyString, None)
  | String a s' =>
      if decide (a = sep) then (EmptyString, Some s')
      else let '(l, r) := SplitN2 sep s' in (String a l, r)
  end.

(** The longest prefix without white space, and the rest. *)
Fixpoint split_word (s : string) : string * string :=
  match s with
  | EmptyString => (EmptyString, EmptyString)
  | String a s' =>
      if lead space1 space2 space3 s then (EmptyString, s)
      else let '(w, r) := split_word s' in (String a w, r)
  end.

(** [strings.Fields]; each round removes at least a byte. *)
Fixpoint fields_go (fuel : nat) (s : string) : list string :=
  match fuel with
  | O => []
  | S fuel =>
      let s := TrimLeft s in
      if decide (s = EmptyString) then [] else
      let '(w, r) := split_word s in w :: fields_go fuel r
  end.
Definition Fields (s : string) : list string := fields_go (S (String.length s)) s.

(** ** Numbers *)

(** [strconv.Itoa], [strconv.FormatInt(_, 10)]. *)
Definition Itoa (z : Z) : string := pretty z.

Definition is_digit (a : ascii) : bool :=
  let z := byte_Z a in (48 <=? z) && (z <=? 57).
Definition digit_val (a : ascii) : Z := byte_Z a - 48.

Fixpoint digits_val (acc : Z) (s : string) : option Z :=
  match s with
  | EmptyString => Some acc
  | String a s' => if is_digit a then digits_val (10 * acc + digit_val a) s' else None
  end.

Definition strip_sign (s : string) : bool * string :=
  match s with
  | String a s' =>
      if byte_Z a =? 45 then (true, s')
      else if byte_Z a =? 43 then (false, s') else (false, s)
  | EmptyString => (false, EmptyString)
  end.

(** [strconv.Atoi], which fails on a syntax error and when the number does not
    fit an [int]. *)
Definition Atoi (s : string) : option Z :=
  let '(neg, d) := strip_sign s in
  match d with
  | EmptyString => None
  | _ =>
      n ← digits_val 0 d;
      let z := if neg then - n else n in
      if (- 2 ^ 63 <=? z) && (z <? 2 ^ 63) then Some z else None
  end.

(** ** Sorting *)

(** [sort.Strings]: ascending byte order. *)
Definition sort_strings (l : list string) : list string := merge_sort String.le l.

(** ** Lemmas on strings as sequences *)

Lemma app_nil_l_s (s : string) : EmptyString +:+ s = s.
Proof. done. Qed.

Lemma app_cons_s a (s t : string) : String a s +:+ t = String a (s +:+ t).
Proof. done. Qed.

Lemma app_nil_r_s (s : string) : s +:+ EmptyString = s.
Proof. induction s as [|a s IH]; [done|]. by rewrite app_cons_s, IH. Qed.

Lemma app_assoc_s (s t u : string) : (s +:+ t) +:+ u = s +:+ t +:+ u.
Proof. induction s as [|a s IH]; [done|]. by rewrite !app_cons_s, IH. Qed.

Lemma length_app_s (s t : string) :
  String.length (s +:+ t) = (String.length s + String.length t)%nat.
Proof. induction s as [|a s IH]; [done|]. rewrite app_cons_s; simpl. by rewrite IH. Qed.

(** Arithmetic on the lengths of strings. *)
Ltac len_lia :=
  cbn [String.length] in *; repeat (rewrite length_app_s; cbn [String.length]); lia.

Lemma slen_app (s t : string) : slen (s +:+ t) = slen s + slen t.
Proof. unfold slen. rewrite length_app_s. lia. Qed.

Lemma slen_nonneg s : 0 ≤ slen s.
Proof. unfold slen. lia. Qed.

Lemma slen_cons a s : slen (String a s) = 1 + slen s.
Proof. unfold slen. simpl String.length. lia. Qed.

Lemma rev_append_app (s acc : string) : rev_append_s s acc = rev_s s +:+ acc.
Proof.
  unfold rev_s. revert acc. induction s as [|a s IH]; intros acc; [done|].
  simpl. rewrite IH, (IH (String a EmptyString)). by rewrite app_assoc_s.
Qed.

Lemma rev_cons_s a s : rev_s (String a s) = rev_s s +:+ String a EmptyString.
Proof. unfold rev_s at 1. simpl. apply rev_append_app. Qed.

Lemma rev_app_s (s t : string) : rev_s (s +:+ t) = rev_s t +:+ rev_s s.
Proof.
  induction s as [|a s IH].
  - change (rev_s EmptyString) with EmptyString. by rewrite app_nil_r_s.
  - by rewrite app_cons_s, !rev_cons_s, IH, app_assoc_s.
Qed.

Lemma rev_rev_s s : rev_s (rev_s s) = s.
Proof. induction s as [|a s IH]; [done|]. by rewrite rev_cons_s, rev_app_s, IH. Qed.

Lemma length_rev_s s : String.length (rev_s s) = String.length s.
Proof. induction s as [|a s IH]; [done|]. rewrite rev_cons_s, length_app_s, IH. simpl. lia. Qed.

Lemma take_drop_s n s : take_s n s +:+ drop_s n s = s.
Proof.
  revert s. induction n as [|n IH]; intros [|a s]; [done..|].
  simpl. by rewrite app_cons_s, IH.
Qed.

Lemma take_app_s (s t : string) : take_s (String.length s) (s +:+ t) = s.
Proof. induction s as [|a s IH]; [by destruct t|]. rewrite app_cons_s; simpl. by rewrite IH. Qed.

Lemma drop_app_s (s t : string) : drop_s (String.length s) (s +:+ t) = t.
Proof. induction s as [|a s IH]; [by destruct t|]. rewrite app_cons_s; simpl. by rewrite IH. Qed.

Lemma take_s_all n s : (String.length s ≤ n)%nat → take_s n s = s.
Proof. revert n. induction s as [|a s IH]; intros [|n] H; simpl in *; [done..|lia|]. by rewrite IH by lia. Qed.

Lemma drop_s_all s : drop_s (String.length s) s = EmptyString.
Proof. by induction s. Qed.

Lemma take_s_app_ge n s t : take_s (String.length s + n) (s +:+ t) = s +:+ take_s n t.
Proof. induction s as [|a s IH]; [done|]. rewrite !app_cons_s. simpl. by rewrite IH. Qed.

Lemma take_s_app_le n s t : (n ≤ String.length s)%nat → take_s n (s +:+ t) = take_s n s.
Proof.
  revert n. induction s as [|a s IH]; intros [|n] H.
  - by destruct t.
  - simpl in H. lia.
  - done.
  - rewrite app_cons_s. simpl in *. by rewrite IH by lia.
Qed.

Lemma drop_drop_s n k s : drop_s n (drop_s k s) = drop_s (k + n) s.
Proof.
  revert s. induction k as [|k IH]; intros [|a s]; simpl; try done; by destruct n.
Qed.

Lemma length_take_s n s : (String.length (take_s n s) = n `min` String.length s)%nat.
Proof. revert s. induction n as [|n IH]; intros [|a s]; simpl; [done..|]. by rewrite IH. Qed.

Lemma HasPrefix_app p s : HasPrefix (p +:+ s) p = true.
Proof. induction p as [|a p IH]; [by destruct s|]. rewrite app_cons_s. simpl. by rewrite decide_True. Qed.

Lemma string_length_ind (P : string → Prop) :
  (∀ s, (∀ t, (String.length t < String.length s)%nat → P t) → P s) → ∀ s, P s.
Proof.
  intros H s. remember (String.length s) as n eqn:E. revert s E.
  induction (lt_wf n) as [n _ IH]. intros s ->. apply H. intros t Ht. by eapply IH.
Qed.

(** ** Lemmas on bytes *)

Lemma byte_Z_range a : 0 ≤ byte_Z a < 256.
Proof. unfold byte_Z. pose proof (N_ascii_bounded a). lia. Qed.

Lemma byte_Z_byte z : byte_Z (Z_byte z) = z `mod` 256.
Proof.
  unfold byte_Z, Z_byte. pose proof (Z.mod_pos_bound z 256).
  rewrite N_ascii_embedding; lia.
Qed.

Lemma Z_byte_Z a : Z_byte (byte_Z a) = a.
Proof.
  unfold Z_byte, byte_Z. pose proof (N_ascii_bounded a).
  rewrite Z.mod_small by lia. rewrite N2Z.id. apply ascii_N_embedding.
Qed.

Lemma byte_Z_inj a b : byte_Z a = byte_Z b → a = b.
Proof. intros H. by rewrite <- (Z_byte_Z a), <- (Z_byte_Z b), H. Qed.

(** ** Lemmas on trimming *)

Section DropSeqs.
Context (p1 : ascii → bool) (p2 : ascii → ascii → bool) (p3 : ascii → ascii → ascii → bool).

Lemma drop_seqs_id s : lead p1 p2 p3 s = false → drop_seqs p1 p2 p3 s = s.
Proof.
  destruct s as [|a [|b [|c s]]]; simpl; rewrite ?orb_false_iff; try done.
  - by intros ->.
  - by intros [-> ->].
  - by intros [[-> ->] ->].
Qed.

Lemma lead_drop_seqs s : lead p1 p2 p3 (drop_seqs p1 p2 p3 s) = false.
Proof.
  induction s as [s IH] using string_length_ind.
  destruct s as [|a s1]; [done|]. cbn [drop_seqs].
  destruct (p1 a) eqn:E1; [apply IH; simpl; lia|].
  destruct s1 as [|b s2]; [by simpl; rewrite E1|].
  destruct (p2 a b) eqn:E2; [apply IH; simpl; lia|].
  destruct s2 as [|c s3]; [by simpl; rewrite E1, E2|].
  destruct (p3 a b c) eqn:E3; [apply IH; simpl; lia|]. simpl. by rewrite E1, E2, E3.
Qed.

Lemma drop_seqs_suffix s : ∃ p, s = p +:+ drop_seqs p1 p2 p3 s.
Proof.
  induction s as [s IH] using string_length_ind.
  destruct s as [|a s1]; [by exists EmptyString|]. cbn [drop_seqs].
  destruct (p1 a).
  { destruct (IH s1) as [p Hp]; [simpl; lia|]. exists (String a p).
    by rewrite app_cons_s, <- Hp. }
  destruct s1 as [|b s2]; [by exists EmptyString|].
  destruct (p2 a b).
  { destruct (IH s2) as [p Hp]; [simpl; lia|]. exists (String a (String b p)).
    by rewrite !app_cons_s, <- Hp. }
  destruct s2 as [|c s3]; [by exists EmptyString|].
  destruct (p3 a b c); [|by exists EmptyString].
  destruct (IH s3) as [p Hp]; [simpl; lia|]. exists (String a (String b (String c p))).
  by rewrite !app_cons_s, <- Hp.
Qed.

Lemma lead_app s t : lead p1 p2 p3 s = true → lead p1 p2 p3 (s +:+ t) = true.
Proof.
  destruct s as [|a [|b [|c s]]]; rewrite ?app_cons_s, ?app_nil_l_s; simpl; try done.
  - destruct t as [|x [|y t]]; simpl; by intros ->.
  - destruct t as [|x t]; simpl; by intros ->.
Qed.

End DropSeqs.

Lemma TrimRight_prefix s : ∃ r, s = TrimRight s +:+ r.
Proof.
  unfold TrimRight.
  destruct (drop_seqs_suffix space1 (λ a b, space2 b a) (λ a b c, space3 c b a) (rev_s s))
    as [p Hp].
  exists (rev_s p). by rewrite <- rev_app_s, <- Hp, rev_rev_s.
Qed.

Lemma TrimRight_idem s : TrimRight (TrimRight s) = TrimRight s.
Proof.
  unfold TrimRight. rewrite rev_rev_s. f_equal.
  apply drop_seqs_id, lead_drop_seqs.
Qed.

Lemma TrimLeft_TrimSpace s : TrimLeft (TrimSpace s) = TrimSpace s.
Proof.
  unfold TrimSpace, TrimLeft. apply drop_seqs_id.
  destruct (TrimRight_prefix (drop_seqs space1 space2 space3 s)) as [r Hr].
  apply not_true_is_false. intros Hl.
  apply (lead_app _ _ _ _ r) in Hl. rewrite <- Hr in Hl.
  by rewrite lead_drop_seqs in Hl.
Qed.

(** Trimming a trimmed string does nothing. *)
Lemma TrimSpace_idem s : TrimSpace (TrimSpace s) = TrimSpace s.
Proof.
  unfold TrimSpace at 1. rewrite TrimLeft_TrimSpace.
  unfold TrimSpace. apply TrimRight_idem.
Qed.

Lemma all_bytes_app p s t : all_bytes p (s +:+ t) = all_bytes p s && all_bytes p t.
Proof. induction s as [|a s IH]; [done|]. rewrite app_cons_s. simpl. by rewrite IH, andb_assoc. Qed.

Lemma all_bytes_impl (p q : ascii → bool) s :
  (∀ a, p a = true → q a = true) → all_bytes p s = true → all_bytes q s = true.
Proof.
  intros H. induction s as [|a s IH]; [done|]. cbn [all_bytes].
  rewrite !andb_true_iff. intros [??]. auto.
Qed.

Lemma all_bytes_rev p s : all_bytes p s = true → all_bytes p (rev_s s) = true.
Proof.
  unfold rev_s. assert (∀ acc, all_bytes p s = true → all_bytes p acc = true →
    all_bytes p (rev_append_s s acc) = true) as H; [|by intros; apply H].
  induction s as [|a s IH]; intros acc; [done|]. cbn [all_bytes rev_append_s].
  rewrite andb_true_iff. intros [Ha Hs] Hacc. apply IH; [done|]. cbn [all_bytes]. by rewrite Ha.
Qed.

Lemma graphic_lead p1 p2 p3 s : (∀ a, graphic a = true → p1 a = false) →
  (∀ a b, graphic a = true → graphic b = true → p2 a b = false) →
  (∀ a b c, graphic a = true → graphic b = true → graphic c = true → p3 a b c = false) →
  all_bytes graphic s = true → lead p1 p2 p3 s = false.
Proof.
  intros H1 H2 H3 Hs. destruct s as [|a [|b [|c s]]]; [done|..];
    cbn [all_bytes] in Hs; rewrite !andb_true_iff in Hs; destruct_and!; cbn [lead];
    rewrite ?H1, ?H2, ?H3; done.
Qed.

Lemma graphic_spaces a b c : graphic a = true →
  space1 a = false ∧ space2 a b = false ∧ space3 a b c = false.
Proof.
  unfold graphic, space1, space2, space3. rewrite andb_true_iff, !Z.leb_le. intros H.
  rewrite !(proj2 (Z.eqb_neq (byte_Z a) _)) by lia.
  rewrite (proj2 (Z.leb_gt (byte_Z a) 13)) by lia. by rewrite andb_false_r.
Qed.

(** A text of printable ASCII characters has nothing to trim. *)
Lemma graphic_trimmed s : all_bytes graphic s = true → TrimSpace s = s.
Proof.
  intros Hs. unfold TrimSpace, TrimLeft, TrimRight.
  rewrite (drop_seqs_id _ _ _ s), (drop_seqs_id _ _ _ (rev_s s)), rev_rev_s; [done|..];
    apply graphic_lead; try (by apply all_bytes_rev); try done; intros; by eapply graphic_spaces.
Qed.

Lemma TrimSpace_length s : (String.length (TrimSpace s) ≤ String.length s)%nat.
Proof.
  unfold TrimSpace.
  destruct (TrimRight_prefix (TrimLeft s)) as [r Hr].
  destruct (drop_seqs_suffix space1 space2 space3 s) as [p Hp].
  apply (f_equal String.length) in Hr, Hp. rewrite length_app_s in Hr, Hp.
  unfold TrimLeft in *. lia.
Qed.

Lemma TrimSpace_nonempty s : TrimSpace s ≠ EmptyString → s ≠ EmptyString.
Proof. by intros H ->. Qed.

Lemma trimmed_TrimSpace s : trimmed (TrimSpace s).
Proof. apply TrimSpace_idem. Qed.

(** ** Lemmas on sorting and numbers *)

Lemma sort_strings_perm l : sort_strings l ≡ₚ l.
Proof. apply merge_sort_Permutation. Qed.

Lemma sort_strings_sorted l : Sorted String.le (sort_strings l).
Proof. apply Sorted_merge_sort, _. Qed.

Lemma elem_of_sort_strings x l : x ∈ sort_strings l ↔ x ∈ l.
Proof. by rewrite sort_strings_perm. Qed.

(** ** Decimal texts *)

Lemma pretty_N_go_bytes p x s : (∀ y, p (pretty_N_char y) = true) → all_bytes p s = true →
  all_bytes p (pretty_N_go x s) = true.
Proof.
  intros Hp. revert s. induction (N.lt_wf_0 x) as [x _ IH]. intros s Hs.
  destruct (decide (x = 0)%N) as [->|Hx]; [by rewrite pretty_N_go_0|].
  rewrite pretty_N_go_step by lia. apply IH; [apply N.div_lt; lia|].
  cbn [all_bytes]. by rewrite Hp.
Qed.

Lemma Itoa_pos_bytes p n : (∀ y, p (pretty_N_char y) = true) → all_bytes p (Itoa (Z.pos n)) = true.
Proof.
  intros Hp. change (all_bytes p (pretty (N.pos n)) = true). unfold pretty, pretty_N.
  rewrite decide_False by done. by apply pretty_N_go_bytes.
Qed.

Lemma Itoa_graphic z : all_bytes graphic (Itoa z) = true.
Proof.
  assert (Hp : ∀ y, graphic (pretty_N_char y) = true) by (intros y; unfold pretty_N_char; by repeat case_match).
  destruct z as [|n|n]; [done|by apply Itoa_pos_bytes|].
  change (all_bytes graphic ("-" +:+ Itoa (Z.pos n)) = true). rewrite all_bytes_app, Itoa_pos_bytes by done. done.
Qed.

Lemma Itoa_digits z : 0 ≤ z → all_bytes is_digit (Itoa z) = true.
Proof.
  intros Hz. destruct z as [|n|n]; [done| |lia].
  apply Itoa_pos_bytes. intros y. unfold pretty_N_char. by repeat case_match.
Qed.

Lemma Itoa_nonempty z : Itoa z ≠ EmptyString.
Proof.
  intros H.
  assert (Hd : ∀ x s, s ≠ EmptyString → pretty_N_go x s ≠ EmptyString).
  { intros x. induction (N.lt_wf_0 x) as [x _ IH]. intros s Hs.
    destruct (decide (x = 0)%N) as [->|Hx]; [by rewrite pretty_N_go_0|].
    rewrite pretty_N_go_step by lia. apply IH; [apply N.div_lt; lia|done]. }
  revert H. destruct z as [|n|n]; [done| |done].
  change (pretty (N.pos n) = EmptyString → False).
  unfold pretty, pretty_N. rewrite decide_False by done.
  rewrite pretty_N_go_step by lia. by apply Hd.
Qed.

(** A positive number does not begin with a zero. *)
Lemma Itoa_head n : match Itoa (Z.pos n) with String a _ => (byte_Z a =? 48) = false | EmptyString => False end.
Proof.
  assert (H : ∀ x s, (0 < x)%N → match pretty_N_go x s with String a _ => (byte_Z a =? 48) = false | EmptyString => False end).
  { intros x. induction (N.lt_wf_0 x) as [x _ IH]. intros s Hx. rewrite pretty_N_go_step by lia.
    destruct (decide (x < 10)%N) as [Hl|Hl].
    - rewrite N.div_small, pretty_N_go_0, N.mod_small by done.
      assert (x = 1 ∨ x = 2 ∨ x = 3 ∨ x = 4 ∨ x = 5 ∨ x = 6 ∨ x = 7 ∨ x = 8 ∨ x = 9)%N as Hin by lia.
      by repeat (destruct Hin as [->|Hin]; [done|]); subst.
    - apply IH; [apply N.div_lt; lia|]. apply N.div_str_pos. lia. }
  change (match pretty (N.pos n) with String a _ => (byte_Z a =? 48) = false | EmptyString => False end).
  unfold pretty, pretty_N. rewrite decide_False by done. by apply H.
Qed.

(** The digits of a number give the number. *)
Lemma digits_val_pretty x s : digits_val 0 (pretty_N_go x s) = digits_val (Z.of_N x) s.
Proof.
  revert s. induction (N.lt_wf_0 x) as [x _ IH]. intros s.
  destruct (decide (x = 0)%N) as [->|Hx]; [by rewrite pretty_N_go_0|].
  rewrite pretty_N_go_step, IH by (lia || apply N.div_lt; lia). cbn [digits_val].
  assert (Hd : (x `mod` 10 < 10)%N) by (apply N.mod_lt; lia).
  assert (Hc : ∀ y, (y < 10)%N → is_digit (pretty_N_char y) = true ∧ digit_val (pretty_N_char y) = Z.of_N y).
  { intros y Hy.
    assert (y = 0 ∨ y = 1 ∨ y = 2 ∨ y = 3 ∨ y = 4 ∨ y = 5 ∨ y = 6 ∨ y = 7 ∨ y = 8 ∨ y = 9)%N as Hin by lia.
    by repeat (destruct Hin as [->|Hin]; [done|]); subst. }
  destruct (Hc _ Hd) as [-> ->]. f_equal. rewrite N2Z.inj_div, N2Z.inj_mod. cbn. 
  pose proof (Z.div_mod (Z.of_N x) 10). lia.
Qed.

Lemma Atoi_Itoa z : - 2 ^ 63 ≤ z < 2 ^ 63 → Atoi (Itoa z) = Some z.
Proof.
  assert (Hp : ∀ n, digits_val 0 (Itoa (Z.pos n)) = Some (Z.pos n)).
  { intros n. change (digits_val 0 (pretty (N.pos n)) = Some (Z.pos n)). unfold pretty, pretty_N.
    rewrite decide_False by done. by rewrite digits_val_pretty. }
  intros Hz. destruct z as [|n|n]; [done| |].
  - pose proof (Hp n) as Hn. pose proof (Itoa_digits (Z.pos n) ltac:(lia)) as Hd. unfold Atoi, strip_sign.
    destruct (Itoa (Z.pos n)) as [|a t] eqn:E; [by destruct (Itoa_nonempty (Z.pos n))|].
    cbn [all_bytes] in Hd. apply andb_true_iff in Hd as [Ha _]. unfold is_digit in Ha.
    apply andb_true_iff in Ha as [Ha1%Z.leb_le Ha2%Z.leb_le].
    rewrite (proj2 (Z.eqb_neq (byte_Z a) 45)), (proj2 (Z.eqb_neq (byte_Z a) 43)) by lia.
    rewrite Hn. cbn [mbind option_bind]. rewrite (proj2 (Z.leb_le _ _)), (proj2 (Z.ltb_lt _ _)) by lia. done.
  - change (Itoa (Z.neg n)) with (String "-" (Itoa (Z.pos n))). unfold Atoi, strip_sign.
    change (byte_Z "-" =? 45) with true. cbv iota.
    pose proof (Hp n) as Hn. destruct (Itoa (Z.pos n)) as [|a t] eqn:E; [by destruct (Itoa_nonempty (Z.pos n))|].
    rewrite Hn. cbn [mbind option_bind]. rewrite (proj2 (Z.leb_le _ _)), (proj2 (Z.ltb_lt _ _)) by lia. done.
Qed.

#[export] Hint Resolve trimmed_TrimSpace slen_nonneg sort_strings_sorted : skall.
#[export] Hint Rewrite TrimSpace_idem slen_app rev_rev_s app_assoc_s app_nil_r_s : skall.

(** ** Words *)

Lemma split_word_app s : s = (split_word s).1 +:+ (split_word s).2.
Proof.
  induction s as [|a s IH]; [done|]. cbn [split_word]. case_match; [done|].
  destruct (split_word s) as [w r]. cbn [fst snd] in *. by rewrite app_cons_s, <- IH.
Qed.

Lemma split_word_rest s : (split_word s).2 = EmptyString ∨ lead space1 space2 space3 (split_word s).2 = true.
Proof.
  induction s as [|a s IH]; [by left|]. cbn [split_word]. destruct (lead _ _ _ (String a s)) eqn:E; [by right|].
  destruct (split_word s) as [w r]. exact IH.
Qed.

(** A word of printable characters ends at the first white space. *)
Lemma split_word_graphic w r : all_bytes graphic w = true → lead space1 space2 space3 r = true ∨ r = EmptyString →
  split_word (w +:+ r) = (w, r).
Proof.
  intros Hw Hr. induction w as [|a w IH].
  - rewrite app_nil_l_s. destruct r as [|b r]; [done|]. cbn [split_word]. destruct Hr as [->|]; [done|done].
  - rewrite app_cons_s. cbn [all_bytes] in Hw. apply andb_true_iff in Hw as [Ha Hw]. cbn [split_word].
    assert (lead space1 space2 space3 (String a (w +:+ r)) = false) as ->; [|by rewrite IH].
    destruct (w +:+ r) as [|b [|c t]]; cbn [lead];
      by repeat first [rewrite (proj1 (graphic_spaces a "a" "a" Ha)) | destruct (graphic_spaces a b "a" Ha) as (_ & -> & _)
        | destruct (graphic_spaces a b c Ha) as (_ & _ & ->)].
Qed.

Lemma TrimLeft_length s : (String.length (TrimLeft s) ≤ String.length s)%nat.
Proof.
  unfold TrimLeft. destruct (drop_seqs_suffix space1 space2 space3 s) as [p Hp].
  rewrite Hp at 2. rewrite length_app_s. lia.
Qed.

Lemma TrimLeft_shorter s : lead space1 space2 space3 s = true → (String.length (TrimLeft s) < String.length s)%nat.
Proof.
  intros Hl. unfold TrimLeft. destruct (drop_seqs_suffix space1 space2 space3 s) as [p Hp].
  destruct p as [|a p].
  - rewrite app_nil_l_s in Hp. pose proof (lead_drop_seqs space1 space2 space3 s) as H. rewrite <- Hp, Hl in H. done.
  - rewrite Hp at 2. rewrite length_app_s. cbn [String.length]. lia.
Qed.

(** Two consecutive words are separated by at least a byte. *)
Lemma Fields_two s w1 w2 l : Fields s = w1 :: w2 :: l →
  (String.length w1 + 1 + String.length w2 ≤ String.length s)%nat.
Proof.
  unfold Fields. cbn [fields_go]. case_decide; [done|]. pose proof (split_word_app (TrimLeft s)) as H1.
  pose proof (split_word_rest (TrimLeft s)) as H2. destruct (split_word (TrimLeft s)) as [w r]. cbn [fst snd] in *.
  intros [= -> Hf]. pose proof (TrimLeft_length s) as Hs. rewrite H1, length_app_s in Hs.
  destruct (String.length s) as [|n]; [done|]. cbn [fields_go] in Hf. case_decide as Hr; [done|].
  destruct H2 as [->|H2]; [done|]. pose proof (TrimLeft_shorter r H2) as Hlt.
  pose proof (split_word_app (TrimLeft r)) as H3. destruct (split_word (TrimLeft r)) as [w' r']. cbn [fst snd] in *.
  injection Hf as -> _. rewrite H3, length_app_s in Hlt. lia.
Qed.
