(* ===== verification/GoTime.v ===== *)
(** * Go times

    The part of Go's [time] package the program relies on.  A [time.Time] is
    an instant, the number of nanoseconds since January 1, year 1, 00:00:00
    UTC, so that the zero [Time] is [0]; the location of a [Time] is not
    modelled: the program converts with [.UTC()] before it formats.  The file
    defines the RFC 3339 format with nanoseconds and its parser, as
    [Time.Format(time.RFC3339Nano)] and [time.Parse(time.RFC3339Nano, _)], and
    proves that parsing inverts formatting. *)

From S2P Require Import Prelude GoStrings.

Open Scope Z_scope.

Abbreviation Time := Z (only parsing).

Definition zeroTime : Time := 0.
(** [Time.IsZero]. *)
Definition IsZero (t : Time) : bool := t =? 0.

Definition second : Z := 1000000000.
Definition minute : Z := 60 * second.
Definition hour : Z := 60 * minute.
Definition day : Z := 24 * hour.

(** ** The calendar

    Days are counted from January 1, year 1; a 400-year era of the Gregorian
    calendar starts on March 1 and has 146097 days. *)

(** Year of the era, month and day of a day of an era. *)
Definition civil_of_doe (doe : Z) : Z * Z * Z :=
  let yoe := (doe - doe / 1460 + doe / 36524 - doe / 146096) / 365 in
  let doy := doe - (365 * yoe + yoe / 4 - yoe / 100) in
  let mp := (5 * doy + 2) / 153 in
  (yoe, if mp <? 10 then mp + 3 else mp - 9, doy - (153 * mp + 2) / 5 + 1).

(** [Time.Date]: the year, month and day of a day number. *)
Definition civil (days : Z) : Z * Z * Z :=
  let z := days + 306 in
  let '(yoe, m, d) := civil_of_doe (z `mod` 146097) in
  (400 * (z / 146097) + yoe + (if m <=? 2 then 1 else 0), m, d).

Definition doe_of_civil (yoe m d : Z) : Z :=
  365 * yoe + yoe / 4 - yoe / 100
  + ((153 * (if m <=? 2 then m + 9 else m - 3) + 2) / 5 + d - 1).

(** The day number of a date. *)
Definition days_of_civil (y m d : Z) : Z :=
  let y' := if m <=? 2 then y - 1 else y in
  146097 * (y' / 400) + doe_of_civil (y' `mod` 400) m d - 306.

Definition is_leap (y : Z) : bool :=
  (y `mod` 4 =? 0) && (negb (y `mod` 100 =? 0) || (y `mod` 400 =? 0)).

(** [daysIn]. *)
Definition daysIn (m y : Z) : Z :=
  if m =? 2 then (if is_leap y then 29 else 28)
  else if (m =? 4) || (m =? 6) || (m =? 9) || (m =? 11) then 30 else 31.

(** ** Formatting *)

Definition digit_char (z : Z) : ascii := Z_byte (48 + z `mod` 10).

(** The [w] low decimal digits of [z]. *)
Fixpoint digits (w : nat) (z : Z) : string :=
  match w with
  | O => EmptyString
  | S w' => digits w' (z / 10) +:+ String (digit_char z) EmptyString
  end.

(** [appendInt(_, x, width)]. *)
Definition appendInt (x : Z) (width : nat) : string :=
  let a := Z.abs x in
  (if x <? 0 then "-" else EmptyString) +:+
  (if a <? 10 ^ Z.of_nat width then digits width a else Itoa a).

Definition zero_char : ascii := "0"%char.

Fixpoint trim_zeros (s : string) : string :=
  match s with
  | EmptyString => EmptyString
  | String a s' =>
      match trim_zeros s' with
      | EmptyString => if decide (a = zero_char) then EmptyString else String a EmptyString
      | t => String a t
      end
  end.

Definition format_frac (ns : Z) : string :=
  if ns =? 0 then EmptyString else "." +:+ trim_zeros (digits 9 ns).

(** [t.UTC().Format(time.RFC3339Nano)]. *)
Definition formatRFC3339Nano (t : Time) : string :=
  let '(y, m, d) := civil (t / day) in
  let r := t `mod` day in
  appendInt y 4 +:+ "-" +:+ digits 2 m +:+ "-" +:+ digits 2 d +:+ "T" +:+
  digits 2 (r / hour) +:+ ":" +:+ digits 2 ((r / minute) `mod` 60) +:+ ":" +:+
  digits 2 ((r / second) `mod` 60) +:+ format_frac (r `mod` second) +:+ "Z".

(** The instants whose year has four digits. *)
Definition in_year_range (t : Time) : Prop := -366 * day ≤ t < 3652059 * day.

Fixpoint all_digits (s : string) : bool :=
  match s with EmptyString => true | String a s' => is_digit a && all_digits s' end.

(** ** Parsing *)

(** One expected byte. *)
Definition p_lit (c : ascii) (s : string) : option string :=
  match s with
  | String a s' => if decide (a = c) then Some s' else None
  | EmptyString => None
  end.

(** [getnum(s, fixed)]: one or two digits, two when [fixed]. *)
Definition getnum (fixed : bool) (s : string) : option (Z * string) :=
  match s with
  | String a s1 =>
      if is_digit a then
        match s1 with
        | String b s2 =>
            if is_digit b then Some (10 * digit_val a + digit_val b, s2)
            else if fixed then None else Some (digit_val a, s1)
        | EmptyString => if fixed then None else Some (digit_val a, s1)
        end
      else None
  | EmptyString => None
  end.

Definition getnum_in (fixed : bool) (lo hi : Z) (s : string) : option (Z * string) :=
  '(v, r) ← getnum fixed s;
  if (lo <=? v) && (v <=? hi) then Some (v, r) else None.

(** Four digits of a year. *)
Definition p_year (s : string) : option (Z * string) :=
  if (4 <=? String.length s)%nat
  then v ← digits_val 0 (take_s 4 s); Some (v, drop_s 4 s) else None.

(** The longest prefix of digits, and the rest. *)
Fixpoint span_digits (s : string) : string * string :=
  match s with
  | String a s' => if is_digit a then let '(d, r) := span_digits s' in (String a d, r)
                   else (EmptyString, s)
  | EmptyString => (EmptyString, EmptyString)
  end.

(** [parseNanoseconds]: at most nine digits count. *)
Definition frac_ns (ds : string) : option Z :=
  let ds := take_s 9 ds in
  v ← digits_val 0 ds; Some (v * 10 ^ (9 - Z.of_nat (String.length ds))).

(** An optional fraction of a second, after a period or a comma. *)
Definition p_frac (s : string) : option (Z * string) :=
  match s with
  | String a s' =>
      if (byte_Z a =? 46) || (byte_Z a =? 44) then
        match span_digits s' with
        | (EmptyString, _) => Some (0, s)
        | (ds, r) => ns ← frac_ns ds; Some (ns, r)
        end
      else Some (0, s)
  | EmptyString => Some (0, s)
  end.

(** The zone, [Z07:00]: its offset in seconds.  Offsets of 24 hours and 60
    minutes are let through, as in the Go parser. *)
Definition p_zone (s : string) : option (Z * string) :=
  match s with
  | String a s' =>
      if byte_Z a =? 90 then Some (0, s') else
      if (byte_Z a =? 43) || (byte_Z a =? 45) then
        '(hh, r) ← getnum_in true 0 24 s';
        r ← p_lit ":" r;
        '(mm, r) ← getnum_in true 0 60 r;
        Some ((if byte_Z a =? 43 then 1 else -1) * (60 * (60 * hh + mm)), r)
      else None
  | EmptyString => None
  end.

(** [time.Parse(time.RFC3339Nano, s)], which accepts the same strings as
    [time.Parse(time.RFC3339, s)]. *)
Definition parseRFC3339 (s : string) : option Time :=
  '(y, s) ← p_year s; s ← p_lit "-" s;
  '(m, s) ← getnum_in true 1 12 s; s ← p_lit "-" s;
  '(d, s) ← getnum_in true 0 99 s; s ← p_lit "T" s;
  '(hh, s) ← getnum_in false 0 23 s; s ← p_lit ":" s;
  '(mm, s) ← getnum_in true 0 59 s; s ← p_lit ":" s;
  '(ss, s) ← getnum_in true 0 59 s;
  '(ns, s) ← p_frac s;
  '(off, s) ← p_zone s;
  match s with
  | EmptyString =>
      if (1 <=? d) && (d <=? daysIn m y)
      then Some (days_of_civil y m d * day + hh * hour + mm * minute + ss * second + ns
                 - off * second)
      else None
  | _ => None
  end.

(** ** The calendar *)

(** The day of a March-based year of an era, and the year it lies in. *)
Lemma doe_bounds doe : 0 ≤ doe < 146097 →
  let yoe := (doe - doe / 1460 + doe / 36524 - doe / 146096) / 365 in
  let doy := doe - (365 * yoe + yoe / 4 - yoe / 100) in
  0 ≤ yoe < 400 ∧ 0 ≤ doy ≤ 365 ∧
  (doy = 365 → (yoe + 1) `mod` 4 = 0 ∧ ((yoe + 1) `mod` 100 ≠ 0 ∨ yoe + 1 = 400)).
Proof.
  intros H yoe doy.
  assert (0 ≤ yoe < 400) by (unfold yoe; div_lia).
  assert (0 ≤ doy ≤ 365) by (unfold doy, yoe; split; div_lia).
  split; [done|]. split; [done|]. intros Hd.
  unfold doy, yoe in *; clear doy yoe. split; div_lia.
Qed.

Lemma month_of_doy doy : 0 ≤ doy ≤ 365 →
  let mp := (5 * doy + 2) / 153 in
  let d := doy - (153 * mp + 2) / 5 + 1 in
  0 ≤ mp ≤ 11 ∧ 1 ≤ d ≤ 31 ∧
  (mp ∈ [1; 3; 6; 8] → d ≤ 30) ∧ (mp = 11 → d ≤ 29 ∧ (d = 29 → doy = 365)).
Proof.
  intros H mp d.
  assert (0 ≤ mp ≤ 11) by (unfold mp; div_lia).
  assert (1 ≤ d ≤ 31) by (unfold d, mp; split; div_lia).
  split; [done|]. split; [done|]. split.
  - rewrite !elem_of_cons, elem_of_nil. unfold d. intros.
    assert (153 * mp ≤ 5 * doy + 2 < 153 * mp + 153) by (unfold mp; div_lia).
    clearbody mp. destruct_or!; subst; div_lia.
  - intros Hm. unfold d. rewrite Hm. split; div_lia.
Qed.

Lemma civil_of_doe_spec doe y m d : 0 ≤ doe < 146097 → civil_of_doe doe = (y, m, d) →
  0 ≤ y < 400 ∧ 1 ≤ m ≤ 12 ∧
  1 ≤ d ≤ daysIn m (y + (if m <=? 2 then 1 else 0)) ∧ doe_of_civil y m d = doe.
Proof.
  intros H [= <- <- <-].
  pose proof (doe_bounds doe H) as (Hy & Hdoy & Hleap). cbv zeta in *.
  set (yoe := (doe - _ + _ - _) / 365) in *.
  set (doy := doe - (365 * yoe + _ - _)) in *.
  pose proof (month_of_doy doy Hdoy) as (Hmp & Hd & H30 & Hfeb). cbv zeta in *.
  set (mp := (5 * doy + 2) / 153) in *.
  split; [done|].
  assert (Hm : (if mp <? 10 then mp + 3 else mp - 9) = mp + 3 ∧ mp < 10 ∨
               (if mp <? 10 then mp + 3 else mp - 9) = mp - 9 ∧ 10 ≤ mp)
    by (destruct (Z.ltb_spec mp 10); lia).
  destruct Hm as [[-> ?]|[-> ?]]; (split; [lia|]).
  - replace (mp + 3 <=? 2) with false by (symmetry; apply Z.leb_gt; lia).
    unfold doe_of_civil. replace (mp + 3 <=? 2) with false by (symmetry; apply Z.leb_gt; lia).
    replace (mp + 3 - 3) with mp by lia. split; [|lia].
    split; [lia|]. unfold daysIn. repeat case_match; try lia.
    apply H30. rewrite !elem_of_cons. lia.
  - replace (mp - 9 <=? 2) with true by (symmetry; apply Z.leb_le; lia).
    unfold doe_of_civil. replace (mp - 9 <=? 2) with true by (symmetry; apply Z.leb_le; lia).
    replace (mp - 9 + 9) with mp by lia. split; [|lia].
    split; [lia|]. unfold daysIn.
    destruct (Z.eqb_spec (mp - 9) 2); [|case_match; lia].
    destruct Hfeb as [Hf1 Hf2]; [lia|].
    destruct (is_leap (yoe + 1)) eqn:El; [lia|].
    assert (doy - (153 * mp + 2) / 5 + 1 ≠ 29); [|lia].
    intros E29. destruct Hleap as [L1 L2]; [by apply Hf2|].
    unfold is_leap in El. apply andb_false_iff in El as [El|El]; [lia|].
    apply orb_false_iff in El as [El1 El2]. apply negb_false_iff in El1.
    apply Z.eqb_eq in El1. apply Z.eqb_neq in El2.
    destruct L2 as [?|L2]; [lia|]. by rewrite L2 in El2.
Qed.

Lemma is_leap_era k y : is_leap (400 * k + y) = is_leap y.
Proof.
  unfold is_leap.
  replace ((400 * k + y) `mod` 4) with (y `mod` 4) by div_lia.
  replace ((400 * k + y) `mod` 100) with (y `mod` 100) by div_lia.
  by replace ((400 * k + y) `mod` 400) with (y `mod` 400) by div_lia.
Qed.

Lemma civil_spec days y m d : civil days = (y, m, d) →
  1 ≤ m ≤ 12 ∧ 1 ≤ d ≤ daysIn m y ∧ days_of_civil y m d = days.
Proof.
  unfold civil. set (z := days + 306).
  destruct (civil_of_doe (z `mod` 146097)) as [[yoe m'] d'] eqn:E.
  intros [= <- <- <-].
  apply civil_of_doe_spec in E as (Hy & Hm & Hd & Hdoe); [|apply Z.mod_pos_bound; lia].
  split; [done|]. split.
  - rewrite <- Z.add_assoc. unfold daysIn in *. by rewrite is_leap_era.
  - unfold days_of_civil.
    set (c := if m' <=? 2 then 1 else 0).
    replace (if m' <=? 2 then 400 * (z / 146097) + yoe + c - 1 else 400 * (z / 146097) + yoe + c)
      with (400 * (z / 146097) + yoe) by (unfold c; case_match; lia).
    replace ((400 * (z / 146097) + yoe) / 400) with (z / 146097) by div_lia.
    replace ((400 * (z / 146097) + yoe) `mod` 400) with yoe by div_lia.
    rewrite Hdoe. unfold z. div_lia.
Qed.

Lemma civil_year_range days y m d :
  -366 ≤ days < 3652059 → civil days = (y, m, d) → 0 ≤ y ≤ 9999.
Proof.
  intros H E. apply civil_spec in E as (Hm & Hd & <-).
  assert (d ≤ 31) by (unfold daysIn in Hd; repeat case_match; lia).
  unfold days_of_civil, doe_of_civil in H.
  destruct (Z.leb_spec m 2); div_lia.
Qed.

(** ** Digits *)

Lemma byte_Z_digit z : byte_Z (digit_char z) = 48 + z `mod` 10.
Proof.
  unfold digit_char. rewrite byte_Z_byte. pose proof (Z.mod_pos_bound z 10).
  apply Z.mod_small. lia.
Qed.

Lemma is_digit_char z : is_digit (digit_char z) = true.
Proof.
  unfold is_digit. rewrite byte_Z_digit. pose proof (Z.mod_pos_bound z 10).
  apply andb_true_iff; split; apply Z.leb_le; lia.
Qed.

Lemma digit_val_char z : digit_val (digit_char z) = z `mod` 10.
Proof. unfold digit_val. rewrite byte_Z_digit. lia. Qed.

Lemma length_digits w z : String.length (digits w z) = w.
Proof. revert z. induction w as [|w IH]; intros z; simpl; [done|]. rewrite length_app_s, IH. simpl. lia. Qed.

Lemma all_digits_app s t : all_digits (s +:+ t) = all_digits s && all_digits t.
Proof. induction s as [|a s IH]; [done|]. rewrite app_cons_s. simpl. by rewrite IH, andb_assoc. Qed.

Lemma all_digits_digits w z : all_digits (digits w z) = true.
Proof.
  revert z. induction w as [|w IH]; intros z; simpl; [done|].
  rewrite all_digits_app, IH. simpl. by rewrite is_digit_char.
Qed.

Lemma digits_val_app acc s t :
  digits_val acc (s +:+ t) = (v ← digits_val acc s; digits_val v t).
Proof.
  revert acc. induction s as [|a s IH]; intros acc; [done|].
  rewrite app_cons_s. simpl. by destruct (is_digit a).
Qed.

Lemma digits_val_digits w z : digits_val 0 (digits w z) = Some (z `mod` 10 ^ Z.of_nat w).
Proof.
  revert z. induction w as [|w IH]; intros z.
  - simpl. by rewrite Z.mod_1_r.
  - cbn [digits]. rewrite digits_val_app, IH. simpl.
    rewrite is_digit_char, digit_val_char. f_equal.
    replace (Z.of_nat (S w)) with (Z.of_nat w + 1) by lia.
    rewrite Z.pow_add_r, Z.pow_1_r, (Z.mul_comm (10 ^ _)) by lia.
    rewrite Z.rem_mul_r; lia.
Qed.

Lemma digits_2 z : digits 2 z = String (digit_char (z / 10)) (String (digit_char z) EmptyString).
Proof. done. Qed.

Lemma getnum_digits fixed z r : 0 ≤ z < 100 → getnum fixed (digits 2 z +:+ r) = Some (z, r).
Proof.
  intros H. rewrite digits_2, !app_cons_s, app_nil_l_s. cbn [getnum].
  rewrite !is_digit_char, !digit_val_char. f_equal. f_equal. div_lia.
Qed.

Lemma getnum_in_digits fixed lo hi z r :
  0 ≤ z < 100 → lo ≤ z ≤ hi → getnum_in fixed lo hi (digits 2 z +:+ r) = Some (z, r).
Proof.
  intros H Hz. unfold getnum_in. rewrite getnum_digits by done. simpl.
  replace ((lo <=? z) && (z <=? hi)) with true; [done|].
  symmetry. apply andb_true_iff. rewrite !Z.leb_le. lia.
Qed.

Lemma p_year_digits y r : 0 ≤ y ≤ 9999 → p_year (digits 4 y +:+ r) = Some (y, r).
Proof.
  intros Hy. unfold p_year.
  replace (4 <=? String.length (digits 4 y +:+ r))%nat with true
    by (symmetry; apply Nat.leb_le; rewrite length_app_s, length_digits; lia).
  assert (take_s 4 (digits 4 y +:+ r) = digits 4 y) as ->
    by (rewrite <- (length_digits 4 y) at 1; apply take_app_s).
  assert (drop_s 4 (digits 4 y +:+ r) = r) as ->
    by (rewrite <- (length_digits 4 y) at 1; apply drop_app_s).
  rewrite digits_val_digits. simpl.
  rewrite Z.mod_small; [done|]. lia.
Qed.

Lemma p_lit_app c r : p_lit c (String c EmptyString +:+ r) = Some r.
Proof. rewrite app_cons_s. simpl. by rewrite decide_True. Qed.

(** ** Fractions of a second *)

Lemma trim_zeros_spec s : ∃ k,
  s = trim_zeros s +:+ String.string_of_list_ascii (replicate k zero_char).
Proof.
  induction s as [|a s [k IH]]; [by exists O|]. simpl.
  destruct (trim_zeros s) as [|b t] eqn:E.
  - case_decide as Ha; [subst a; exists (S k)|exists k];
      rewrite ?app_cons_s, ?app_nil_l_s in *; simpl; by rewrite IH.
  - exists k. by rewrite app_cons_s, <- IH.
Qed.

Lemma digits_val_zeros v k :
  digits_val v (String.string_of_list_ascii (replicate k zero_char)) = Some (v * 10 ^ Z.of_nat k).
Proof.
  revert v. induction k as [|k IH]; intros v; simpl; [f_equal; lia|].
  change (is_digit zero_char) with true. cbv iota. rewrite IH. f_equal.
  change (digit_val zero_char) with 0.
  replace (Z.of_nat (S k)) with (Z.of_nat k + 1) by lia. rewrite Z.pow_add_r by lia. lia.
Qed.

Lemma length_zeros k :
  String.length (String.string_of_list_ascii (replicate k zero_char)) = k.
Proof. induction k as [|k IH]; simpl; [done|]. by rewrite IH. Qed.

Lemma span_digits_app s a r :
  all_digits s = true → is_digit a = false →
  span_digits (s +:+ String a r) = (s, String a r).
Proof.
  intros Hs Ha. induction s as [|b s IH].
  - rewrite app_nil_l_s. simpl. by rewrite Ha.
  - rewrite app_cons_s. simpl in *. apply andb_true_iff in Hs as [-> Hs].
    by rewrite (IH Hs).
Qed.

Lemma frac_ns_trim ns : 0 ≤ ns < second → frac_ns (trim_zeros (digits 9 ns)) = Some ns.
Proof.
  intros H. destruct (trim_zeros_spec (digits 9 ns)) as [k Hk].
  set (t := trim_zeros (digits 9 ns)) in *.
  assert (Hlen : (String.length t + k = 9)%nat)
    by (rewrite <- (length_digits 9 ns), Hk, length_app_s, length_zeros; done).
  pose proof (digits_val_digits 9 ns) as Hv. rewrite Hk, digits_val_app in Hv.
  rewrite Z.mod_small in Hv by (unfold second in H; lia).
  unfold frac_ns. rewrite take_s_all by lia.
  destruct (digits_val 0 t) as [v|]; simpl in *; [|done].
  rewrite digits_val_zeros in Hv. injection Hv as Hv. f_equal.
  by replace (9 - Z.of_nat (String.length t)) with (Z.of_nat k) by lia.
Qed.

Lemma p_frac_format ns a r :
  0 ≤ ns < second → is_digit a = false → byte_Z a ≠ 46 → byte_Z a ≠ 44 →
  p_frac (format_frac ns +:+ String a r) = Some (ns, String a r).
Proof.
  intros Hns Ha H1 H2. unfold format_frac. destruct (Z.eqb_spec ns 0) as [->|Hne].
  - rewrite app_nil_l_s. simpl.
    destruct (Z.eqb_spec (byte_Z a) 46); [done|]. by destruct (Z.eqb_spec (byte_Z a) 44).
  - pose proof (frac_ns_trim ns Hns) as Hf.
    assert (Hd : all_digits (trim_zeros (digits 9 ns)) = true).
    { destruct (trim_zeros_spec (digits 9 ns)) as [k Hk].
      pose proof (all_digits_digits 9 ns) as H9. rewrite Hk, all_digits_app in H9.
      by apply andb_true_iff in H9 as [? _]. }
    rewrite app_assoc_s, app_cons_s, app_nil_l_s. cbn [p_frac].
    change (byte_Z "."%char) with 46. simpl orb. cbv iota.
    rewrite span_digits_app by done.
    destruct (trim_zeros (digits 9 ns)) as [|b t] eqn:E.
    + exfalso. injection Hf as Hf. by rewrite <- Hf in Hne.
    + by rewrite Hf.
Qed.

(** ** The round trip *)

(** Passes a parsed field on to the rest of the parser. *)
Ltac next_field := cbn [mbind option_bind].

Lemma p_zone_Z : p_zone "Z" = Some (0, EmptyString).
Proof. reflexivity. Qed.

Lemma time_split t : t = t / day * day + (t `mod` day / hour) * hour
  + ((t `mod` day / minute) `mod` 60) * minute + ((t `mod` day / second) `mod` 60) * second
  + (t `mod` day) `mod` second.
Proof. unfold day, hour, minute, second. div_lia. Qed.

(** Parsing inverts formatting, for every instant of a four-digit year. *)
Lemma parse_format t : in_year_range t → parseRFC3339 (formatRFC3339Nano t) = Some t.
Proof.
  intros Ht. unfold formatRFC3339Nano.
  destruct (civil (t / day)) as [[y m] d] eqn:Ec.
  assert (Hy : 0 ≤ y ≤ 9999).
  { eapply civil_year_range; [|done]. unfold in_year_range, day, hour, minute, second in *. div_lia. }
  apply civil_spec in Ec as (Hm & Hd & Hdays).
  assert (Hd31 : d ≤ 31) by (unfold daysIn in Hd; repeat case_match; lia).
  assert (Hr : 0 ≤ t `mod` day < day) by (apply Z.mod_pos_bound; done).
  set (r := t `mod` day) in *.
  assert (Hh : 0 ≤ r / hour ≤ 23) by (unfold day, hour, minute, second in *; div_lia).
  unfold appendInt.
  replace (y <? 0) with false by (symmetry; apply Z.ltb_ge; lia).
  replace (Z.abs y <? 10 ^ Z.of_nat 4) with true by (symmetry; apply Z.ltb_lt; lia).
  rewrite app_nil_l_s, Z.abs_eq by lia. unfold parseRFC3339.
  pose proof (Z.mod_pos_bound (r / minute) 60).
  pose proof (Z.mod_pos_bound (r / second) 60).
  rewrite p_year_digits by done. next_field.
  do 5 (rewrite p_lit_app; next_field; rewrite getnum_in_digits by lia; next_field).
  rewrite p_frac_format; [|apply Z.mod_pos_bound; done|done..]. next_field.
  rewrite p_zone_Z. next_field.
  replace ((1 <=? d) && (d <=? daysIn m y)) with true
    by (symmetry; apply andb_true_iff; rewrite !Z.leb_le; lia).
  rewrite Hdays. f_equal. unfold r. pose proof (time_split t). lia.
Qed.

(** The format of an instant of a four-digit year is at most 30 bytes. *)
Lemma trim_zeros_length s : (String.length (trim_zeros s) ≤ String.length s)%nat.
Proof.
  destruct (trim_zeros_spec s) as [k Hk]. apply (f_equal String.length) in Hk.
  rewrite length_app_s in Hk. lia.
Qed.

Lemma format_length t : in_year_range t → (String.length (formatRFC3339Nano t) ≤ 30)%nat.
Proof.
  intros Ht. unfold formatRFC3339Nano.
  destruct (civil (t / day)) as [[y m] d] eqn:Ec.
  assert (Hy : 0 ≤ y ≤ 9999).
  { eapply civil_year_range; [|done]. unfold in_year_range, day, hour, minute, second in *. div_lia. }
  unfold appendInt.
  replace (y <? 0) with false by (symmetry; apply Z.ltb_ge; lia).
  replace (Z.abs y <? 10 ^ Z.of_nat 4) with true by (symmetry; apply Z.ltb_lt; lia).
  assert (Hf : (String.length (format_frac ((t `mod` day) `mod` second)) ≤ 10)%nat).
  { unfold format_frac. case_match; [simpl; lia|]. rewrite length_app_s.
    pose proof (trim_zeros_length (digits 9 ((t `mod` day) `mod` second))) as Hz.
    rewrite length_digits in Hz. cbn [String.length]. lia. }
  rewrite !length_app_s, !length_digits. cbn [String.length]. lia.
Qed.
