(* ===== verification/GoNet.v ===== *)
(** * Host and port texts

    [net.SplitHostPort] and [net.JoinHostPort]. *)

From S2P Require Import Prelude GoStrings.

Open Scope Z_scope.

(** ** Positions of a byte *)

Fixpoint has_byte (c : ascii) (s : string) : bool :=
  match s with EmptyString => false | String a s => bool_decide (a = c) || has_byte c s end.

(** The string cut at the first occurrence of a byte. *)
Fixpoint cut_first (c : ascii) (s : string) : option (string * string) :=
  match s with
  | EmptyString => None
  | String a s' =>
      if decide (a = c) then Some (EmptyString, s')
      else '(l, r) ← cut_first c s'; Some (String a l, r)
  end.

(** The string cut at the last occurrence of a byte. *)
Fixpoint cut_last (c : ascii) (s : string) : option (string * string) :=
  match s with
  | EmptyString => None
  | String a s' =>
      match cut_last c s' with
      | Some (l, r) => Some (String a l, r)
      | None => if decide (a = c) then Some (EmptyString, s') else None
      end
  end.

(** ** Splitting and joining *)

Inductive addr_error : Type :=
  | MissingPort | TooManyColons | MissingBracket | UnexpectedOpen | UnexpectedClose.

Definition colon : ascii := ":".
Definition open_bracket : ascii := "[".
Definition close_bracket : ascii := "]".

Definition SplitHostPort (hostport : string) : result addr_error (string * string) :=
  match cut_last colon hostport with
  | None => Err MissingPort
  | Some (before, port) =>
      match hostport with
      | String a rest =>
          if decide (a = open_bracket) then
            match cut_first close_bracket hostport with
            | None => Err MissingBracket
            | Some (upto, after) =>
                if decide (after = EmptyString) then Err MissingPort
                else if decide (after = String colon port) then
                  if has_byte open_bracket rest then Err UnexpectedOpen
                  else if has_byte close_bracket after then Err UnexpectedClose
                  else Ok (drop_s 1 upto, port)
                else match after with
                     | String b _ => if decide (b = colon) then Err TooManyColons else Err MissingPort
                     | EmptyString => Err MissingPort
                     end
            end
          else if has_byte colon before then Err TooManyColons
          else if has_byte open_bracket hostport then Err UnexpectedOpen
          else if has_byte close_bracket hostport then Err UnexpectedClose
          else Ok (before, port)
      | EmptyString => Err MissingPort
      end
  end.

Definition JoinHostPort (host port : string) : string :=
  if has_byte colon host
  then "[" +:+ host +:+ "]:" +:+ port else host +:+ ":" +:+ port.

(** ** Lemmas *)

Lemma has_byte_app c s t : has_byte c (s +:+ t) = has_byte c s || has_byte c t.
Proof. induction s as [|a s IH]; [done|]. rewrite app_cons_s. cbn. by rewrite IH, orb_assoc. Qed.

Lemma cut_last_None c s : has_byte c s = false → cut_last c s = None.
Proof.
  induction s as [|a s IH]; [done|]. cbn. rewrite orb_false_iff, bool_decide_eq_false.
  intros [Ha Hs]. rewrite IH by done. by rewrite decide_False.
Qed.

Lemma cut_last_app c s t : has_byte c t = false → cut_last c (s +:+ String c t) = Some (s, t).
Proof.
  intros Ht. induction s as [|a s IH].
  - rewrite app_nil_l_s. cbn. rewrite cut_last_None by done. by rewrite decide_True.
  - rewrite app_cons_s. cbn. by rewrite IH.
Qed.

Lemma cut_first_app c s t : has_byte c s = false → cut_first c (s +:+ String c t) = Some (s, t).
Proof.
  induction s as [|a s IH].
  - intros _. rewrite app_nil_l_s. cbn. by rewrite decide_True.
  - cbn [has_byte]. rewrite orb_false_iff, bool_decide_eq_false. intros [Ha Hs].
    rewrite app_cons_s. cbn. rewrite decide_False by done. by rewrite IH.
Qed.

Lemma has_byte_head a s c : has_byte c (String a s) = false → a ≠ c.
Proof. cbn. rewrite orb_false_iff, bool_decide_eq_false. tauto. Qed.

(** What was joined is split again, for a host without brackets and a port of
    plain characters. *)
Lemma Split_Join host port :
  has_byte open_bracket host = false → has_byte close_bracket host = false →
  has_byte colon port = false → has_byte open_bracket port = false →
  has_byte close_bracket port = false →
  SplitHostPort (JoinHostPort host port) = Ok (host, port).
Proof.
  intros Ho Hc Hp Hpo Hpc. unfold JoinHostPort. destruct (has_byte colon host) eqn:Eh.
  - assert ("[" +:+ host +:+ "]:" +:+ port = String open_bracket (host +:+ String close_bracket (String colon port))) as ->.
    { change ("]:" +:+ port) with (String close_bracket (String colon port)). done. }
    unfold SplitHostPort.
    assert (cut_last colon (String open_bracket (host +:+ String close_bracket (String colon port))) =
      Some (String open_bracket host +:+ String close_bracket EmptyString, port)) as ->.
    { change (String open_bracket (host +:+ String close_bracket (String colon port)))
        with (String open_bracket host +:+ (String close_bracket EmptyString +:+ String colon port)).
      rewrite <- app_assoc_s. by apply cut_last_app. }
    rewrite decide_True by done.
    assert (cut_first close_bracket (String open_bracket (host +:+ String close_bracket (String colon port))) =
      Some (String open_bracket host, String colon port)) as ->.
    { change (String open_bracket (host +:+ String close_bracket (String colon port)))
        with (String open_bracket host +:+ String close_bracket (String colon port)).
      apply cut_first_app. cbn [has_byte]. rewrite Hc. done. }
    rewrite decide_False, decide_True by done.
    rewrite has_byte_app. cbn [has_byte]. rewrite Ho, Hpo, Hpc. done.
  - change (":" +:+ port) with (String colon port).
    unfold SplitHostPort. rewrite cut_last_app by done.
    assert (Hos : has_byte open_bracket (host +:+ String colon port) = false)
      by (rewrite has_byte_app, Ho; cbn [has_byte]; by rewrite Hpo).
    assert (Hcs : has_byte close_bracket (host +:+ String colon port) = false)
      by (rewrite has_byte_app, Hc; cbn [has_byte]; by rewrite Hpc).
    destruct (host +:+ String colon port) as [|a rest] eqn:E.
    { by destruct host. }
    rewrite decide_False by (by apply has_byte_head in Hos). by rewrite Eh, Hos, Hcs.
Qed.

(** ** Bytes of a trimmed text *)

Lemma has_byte_rev c s : has_byte c (rev_s s) = has_byte c s.
Proof.
  induction s as [|a s IH]; [done|]. rewrite rev_cons_s, has_byte_app, IH. cbn.
  by rewrite orb_false_r, orb_comm.
Qed.

Lemma has_byte_drop_seqs c p1 p2 p3 s : has_byte c s = false → has_byte c (drop_seqs p1 p2 p3 s) = false.
Proof.
  destruct (drop_seqs_suffix p1 p2 p3 s) as [p Hp]. rewrite Hp at 1. rewrite has_byte_app.
  by intros [_ ?]%orb_false_iff.
Qed.

Lemma has_byte_TrimSpace c s : has_byte c s = false → has_byte c (TrimSpace s) = false.
Proof.
  intros H. unfold TrimSpace, TrimRight, TrimLeft. rewrite has_byte_rev. apply has_byte_drop_seqs.
  rewrite has_byte_rev. by apply has_byte_drop_seqs.
Qed.
