(* ===== verification/GoPath.v ===== *)
(** * File paths

    [filepath.Clean], [filepath.Join] and [filepath.Dir] on Unix, and the
    environment from which the program takes its directories. *)

From S2P Require Import Prelude GoStrings GoNet.

Open Scope Z_scope.

Definition slash : ascii := "/".

(** The parts of a path between its slashes. *)
Fixpoint path_parts (s cur : string) : list string :=
  match s with
  | EmptyString => [rev_s cur]
  | String a s => if decide (a = slash) then rev_s cur :: path_parts s EmptyString else path_parts s (String a cur)
  end.

(** The parts that are kept, last one first: empty parts and [.] go, [..]
    removes the part before it, or stands at the front of a relative path. *)
Fixpoint clean_parts (rooted : bool) (parts acc : list string) : list string :=
  match parts with
  | [] => acc
  | p :: parts =>
      if decide (p = EmptyString ∨ p = ".") then clean_parts rooted parts acc
      else if decide (p = "..") then
        match acc with
        | q :: acc' => if decide (q = "..") then clean_parts rooted parts (p :: acc) else clean_parts rooted parts acc'
        | [] => clean_parts rooted parts (if rooted then [] else [p])
        end
      else clean_parts rooted parts (p :: acc)
  end.

Definition Clean (path : string) : string :=
  let rooted := HasPrefix path "/" in
  let parts := rev (clean_parts rooted (path_parts path EmptyString) []) in
  if rooted then "/" +:+ Join parts "/"
  else match parts with [] => "." | _ => Join parts "/" end.

(** [filepath.Join]. *)
Fixpoint JoinPath (elem : list string) : string :=
  match elem with
  | [] => EmptyString
  | e :: rest => if decide (e = EmptyString) then JoinPath rest else Clean (Join elem "/")
  end.

(** [filepath.Dir]. *)
Definition Dir (path : string) : string :=
  match cut_last slash path with
  | Some (before, _) => Clean (before +:+ "/")
  | None => "."
  end.

(** The environment variables of the program and [os.UserConfigDir], [None] when
    it fails. *)
Record PathEnv : Type := mkPathEnv {
  pe_SKALL_DATA_DIR : string; pe_SKALL_CONFIG_PATH : string; pe_SKALL_IDENTITY_PATH : string;
  pe_SKALL_DB_PATH : string; pe_UserConfigDir : option string
}.

(** A file of the data directory, unless a variable names it. *)
Definition data_file (override dataDir : string) (configDir : option string) (name : string) : option string :=
  let override := TrimSpace override in
  if negb (bool_decide (override = EmptyString)) then Some override else
  let dataDir := TrimSpace dataDir in
  if negb (bool_decide (dataDir = EmptyString)) then Some (JoinPath [dataDir; name])
  else configDir ← configDir; Some (JoinPath [configDir; "skall"; name]).

Definition identity_DefaultPath (e : PathEnv) : option string :=
  data_file (pe_SKALL_IDENTITY_PATH e) (pe_SKALL_DATA_DIR e) (pe_UserConfigDir e) "identity.json".

Definition storage_DefaultPath (e : PathEnv) : option string :=
  data_file (pe_SKALL_DB_PATH e) (pe_SKALL_DATA_DIR e) (pe_UserConfigDir e) "skall.db".

Example Clean_examples :
  map Clean ["/a/./b//c/.."; "a/../.."; ""; "/.."; "./.skall"; "/home/u/.config/skall/"] =
  ["/a/b"; ".."; "."; "/"; ".skall"; "/home/u/.config/skall"].
Proof. reflexivity. Qed.

Example Dir_examples : map Dir ["/a/b"; "a"; "/a"; "a/b/"] = ["/a"; "."; "/"; "a/b"].
Proof. reflexivity. Qed.
