(* ===== verification/GoCrypto.v ===== *)
(** * Hashes and byte encodings of the Go library

    [crypto/sha256], [encoding/hex] and [encoding/base64] as the program uses
    them: SHA-256 of a byte string, lower-case hexadecimal, and the padded
    standard base64 alphabet that [encoding/json] uses for a [[]byte]. *)

From S2P Require Import Prelude GoStrings.

Open Scope Z_scope.

(** ** SHA-256 *)

Definition w32 (z : Z) : Z := z `mod` 4294967296.
Definition rotr (n x : Z) : Z := Z.lor (Z.shiftr x n) (w32 (Z.shiftl x (32 - n))).

(** The constants are the first 32 bits of the fractional parts of the cube and
    square roots of the first primes. *)
Definition is_prime (n : Z) : bool :=
  forallb (λ d, negb (n `mod` d =? 0)) (seqZ 2 (n - 2)).
Definition primes : list Z := List.filter is_prime (seqZ 2 310).

(** The integer cube root of [z] by bits from the top, [r] being the bits found. *)
Fixpoint cube_root (bits : nat) (z r : Z) : Z :=
  match bits with
  | O => r
  | S n => let r' := r + 2 ^ Z.of_nat n in cube_root n z (if r' ^ 3 <=? z then r' else r)
  end.

Definition sha_k : list Z := Eval vm_compute in map (λ p, w32 (cube_root 36 (p * 2 ^ 96) 0)) primes.
Definition sha_init : list Z := Eval vm_compute in map (λ p, w32 (Z.sqrt (p * 2 ^ 64))) (take 8 primes).

(** The message schedule, most recent word first. *)
Fixpoint sha_schedule (n : nat) (w : list Z) : list Z :=
  match n with
  | O => w
  | S n =>
      let at' k := nth k w 0 in
      let s1 := Z.lxor (Z.lxor (rotr 17 (at' 1%nat)) (rotr 19 (at' 1%nat))) (Z.shiftr (at' 1%nat) 10) in
      let s0 := Z.lxor (Z.lxor (rotr 7 (at' 14%nat)) (rotr 18 (at' 14%nat))) (Z.shiftr (at' 14%nat) 3) in
      sha_schedule n (w32 (s1 + at' 6%nat + s0 + at' 15%nat) :: w)
  end.

Definition sha_round (h : list Z) (kw : Z * Z) : list Z :=
  match h with
  | [a; b; c; d; e; f; g; hh] =>
      let s1 := Z.lxor (Z.lxor (rotr 6 e) (rotr 11 e)) (rotr 25 e) in
      let ch := Z.lxor (Z.land e f) (Z.land (Z.lxor e 4294967295) g) in
      let t1 := w32 (hh + s1 + ch + kw.1 + kw.2) in
      let s0 := Z.lxor (Z.lxor (rotr 2 a) (rotr 13 a)) (rotr 22 a) in
      let mj := Z.lxor (Z.lxor (Z.land a b) (Z.land a c)) (Z.land b c) in
      [w32 (t1 + s0 + mj); a; b; c; w32 (d + t1); e; f; g]
  | _ => h
  end.

(** The words of the first [n] groups of four bytes. *)
Fixpoint sha_words (n : nat) (s : string) : list Z :=
  match n, s with
  | S n, String a (String b (String c (String d s))) =>
      (16777216 * byte_Z a + 65536 * byte_Z b + 256 * byte_Z c + byte_Z d) :: sha_words n s
  | _, _ => []
  end.

Definition sha_block (h : list Z) (s : string) : list Z :=
  let w := rev (sha_schedule 48 (rev (sha_words 16 s))) in
  zip_with (λ x y, w32 (x + y)) h (foldl sha_round h (zip sha_k w)).

Fixpoint sha_blocks (n : nat) (h : list Z) (s : string) : list Z :=
  match n with O => h | S n => sha_blocks n (sha_block h s) (drop_s 64 s) end.

Fixpoint zero_bytes (n : nat) : string :=
  match n with O => EmptyString | S n => String (Z_byte 0) (zero_bytes n) end.

(** The [n] low bytes of [z], most significant first. *)
Fixpoint be_bytes (n : nat) (z : Z) : string :=
  match n with
  | O => EmptyString
  | S n' => String (Z_byte (z / 256 ^ Z.of_nat n')) (be_bytes n' z)
  end.

Definition sha_pad (s : string) : string :=
  s +:+ String (Z_byte 128) (zero_bytes (Z.to_nat ((55 - slen s) `mod` 64)) +:+ be_bytes 8 (8 * slen s)).

(** The digest as its eight words, each written as four bytes. *)
Definition sha256 (s : string) : string :=
  let p := sha_pad s in
  let h := sha_blocks (String.length p / 64) sha_init p in
  let word k := be_bytes 4 (nth k h 0) in
  word 0%nat +:+ word 1%nat +:+ word 2%nat +:+ word 3%nat +:+
  word 4%nat +:+ word 5%nat +:+ word 6%nat +:+ word 7%nat.

(** ** Hexadecimal *)

Definition hex_nibble (z : Z) : ascii := Z_byte (if z <? 10 then 48 + z else 87 + z).

Fixpoint hex_encode (s : string) : string :=
  match s with
  | EmptyString => EmptyString
  | String a s => String (hex_nibble (byte_Z a / 16)) (String (hex_nibble (byte_Z a `mod` 16)) (hex_encode s))
  end.

Definition hex_char (a : ascii) : bool :=
  (48 <=? byte_Z a) && (byte_Z a <=? 57) || (97 <=? byte_Z a) && (byte_Z a <=? 102).

(** ** Base64 *)

Definition b64_digit (z : Z) : ascii :=
  Z_byte (if z <? 26 then 65 + z else if z <? 52 then 71 + z else if z <? 62 then z - 4
          else if z =? 62 then 43 else 47).

Definition b64_value (a : ascii) : option Z :=
  let z := byte_Z a in
  if (65 <=? z) && (z <=? 90) then Some (z - 65)
  else if (97 <=? z) && (z <=? 122) then Some (z - 71)
  else if (48 <=? z) && (z <=? 57) then Some (z + 4)
  else if z =? 43 then Some 62 else if z =? 47 then Some 63 else None.

Definition b64_pad : ascii := "=".

Fixpoint b64_encode (s : string) : string :=
  match s with
  | String a (String b (String c s)) =>
      let n := 65536 * byte_Z a + 256 * byte_Z b + byte_Z c in
      String (b64_digit (n / 262144)) (String (b64_digit ((n / 4096) `mod` 64))
        (String (b64_digit ((n / 64) `mod` 64)) (String (b64_digit (n `mod` 64)) (b64_encode s))))
  | String a (String b EmptyString) =>
      let n := 65536 * byte_Z a + 256 * byte_Z b in
      String (b64_digit (n / 262144)) (String (b64_digit ((n / 4096) `mod` 64))
        (String (b64_digit ((n / 64) `mod` 64)) (String b64_pad EmptyString)))
  | String a EmptyString =>
      let n := 65536 * byte_Z a in
      String (b64_digit (n / 262144)) (String (b64_digit ((n / 4096) `mod` 64))
        (String b64_pad (String b64_pad EmptyString)))
  | EmptyString => EmptyString
  end.

(** [StdEncoding.Decode] drops carriage returns and newlines first. *)
Fixpoint b64_strip (s : string) : string :=
  match s with
  | EmptyString => EmptyString
  | String a s => if (byte_Z a =? 10) || (byte_Z a =? 13) then b64_strip s else String a (b64_strip s)
  end.

(** The decoding of groups of four; padding may only end the last group.  The
    decoder is not strict: the bits a padded group has to spare are ignored. *)
Fixpoint b64_groups (s : string) : option string :=
  match s with
  | EmptyString => Some EmptyString
  | String a (String b (String c (String d s))) =>
      x ← b64_value a; y ← b64_value b;
      match b64_value c, b64_value d with
      | Some z, Some t =>
          let n := 262144 * x + 4096 * y + 64 * z + t in
          r ← b64_groups s;
          Some (String (Z_byte (n / 65536)) (String (Z_byte (n / 256)) (String (Z_byte n) r)))
      | Some z, None =>
          let n := 262144 * x + 4096 * y + 64 * z in
          if bool_decide (d = b64_pad ∧ s = EmptyString)
          then Some (String (Z_byte (n / 65536)) (String (Z_byte (n / 256)) EmptyString)) else None
      | None, _ =>
          let n := 262144 * x + 4096 * y in
          if bool_decide (c = b64_pad ∧ d = b64_pad ∧ s = EmptyString)
          then Some (String (Z_byte (n / 65536)) EmptyString) else None
      end
  | _ => None
  end.

Definition b64_decode (s : string) : option string := b64_groups (b64_strip s).

(** The characters of a base64 text. *)
Definition b64_char (a : ascii) : bool :=
  match b64_value a with Some _ => true | None => bool_decide (a = b64_pad) end.

(** ** Lemmas *)

Lemma length_be_bytes n z : String.length (be_bytes n z) = n.
Proof. induction n as [|n IH]; [done|]. cbn [be_bytes String.length]. by rewrite IH. Qed.

Lemma length_sha256 s : String.length (sha256 s) = 32%nat.
Proof. unfold sha256. by rewrite !length_app_s, !length_be_bytes. Qed.

Lemma length_hex_encode s : String.length (hex_encode s) = (2 * String.length s)%nat.
Proof. induction s as [|a s IH]; [done|]. cbn [hex_encode String.length]. rewrite IH. lia. Qed.

Lemma hex_nibble_text z : 0 ≤ z < 16 → hex_char (hex_nibble z) = true.
Proof.
  intros Hz. unfold hex_char, hex_nibble. rewrite byte_Z_byte.
  destruct (Z.ltb_spec z 10); rewrite Z.mod_small by lia.
  - rewrite !(proj2 (Z.leb_le _ _)) by lia. done.
  - rewrite (proj2 (Z.leb_le 97 _)), (proj2 (Z.leb_le _ 102)) by lia. by rewrite orb_true_r.
Qed.

Lemma hex_encode_text s : all_bytes hex_char (hex_encode s) = true.
Proof.
  induction s as [|a s IH]; [done|]. cbn [hex_encode all_bytes]. pose proof (byte_Z_range a).
  by rewrite !hex_nibble_text by div_lia.
Qed.

Lemma hex_char_graphic a : hex_char a = true → graphic a = true.
Proof.
  unfold hex_char, graphic. rewrite orb_true_iff, !andb_true_iff, !Z.leb_le. lia.
Qed.

Lemma b64_value_digit z : 0 ≤ z < 64 → b64_value (b64_digit z) = Some z.
Proof.
  intros Hz. assert (H : ∀ n : nat, (n < 64)%nat → b64_value (b64_digit (Z.of_nat n)) = Some (Z.of_nat n)).
  { intros n Hn. do 64 (destruct n as [|n]; [reflexivity|]). lia. }
  rewrite <- (Z2Nat.id z) by lia. apply H. lia.
Qed.

Lemma b64_strip_digit z r : 0 ≤ z < 64 → b64_strip (String (b64_digit z) r) = String (b64_digit z) (b64_strip r).
Proof.
  intros Hz. cbn [b64_strip]. unfold b64_digit. rewrite byte_Z_byte.
  rewrite (proj2 (orb_false_iff _ _)); [done|].
  rewrite !Z.eqb_neq. repeat case_match; rewrite Z.mod_small;
    repeat match goal with
    | H : (_ <? _) = true |- _ => apply Z.ltb_lt in H
    | H : (_ <? _) = false |- _ => apply Z.ltb_ge in H
    end; lia.
Qed.

Lemma string_ind3 (P : string → Prop) : P EmptyString → (∀ a, P (String a EmptyString)) →
  (∀ a b, P (String a (String b EmptyString))) →
  (∀ a b c s, P s → P (String a (String b (String c s)))) → ∀ s, P s.
Proof.
  intros H0 H1 H2 H3 s. induction s as [s IH] using string_length_ind.
  destruct s as [|a [|b [|c s]]]; auto. apply H3, IH. simpl. lia.
Qed.

Lemma Z_byte_of a z : z `mod` 256 = byte_Z a → Z_byte z = a.
Proof. intros H. apply byte_Z_inj. by rewrite byte_Z_byte. Qed.

Lemma b64_digit_char z : 0 ≤ z < 64 → b64_char (b64_digit z) = true.
Proof. intros H. unfold b64_char. by rewrite b64_value_digit. Qed.

Lemma b64_encode_text s : all_bytes b64_char (b64_encode s) = true.
Proof.
  induction s as [|a|a b|a b c s IH] using string_ind3; [done|..]; cbn [b64_encode all_bytes];
    pose proof (byte_Z_range a); try pose proof (byte_Z_range b); try pose proof (byte_Z_range c);
    by rewrite !b64_digit_char by div_lia.
Qed.

Lemma b64_roundtrip s : b64_decode (b64_encode s) = Some s.
Proof.
  unfold b64_decode. induction s as [|a|a b|a b c s IH] using string_ind3; [done|..];
    cbn [b64_encode];
    pose proof (byte_Z_range a); try pose proof (byte_Z_range b); try pose proof (byte_Z_range c);
    rewrite !b64_strip_digit by div_lia.
  - change (b64_strip (String b64_pad (String b64_pad EmptyString)))
      with (String b64_pad (String b64_pad EmptyString)).
    cbn [b64_groups]. rewrite !b64_value_digit by div_lia. cbn [mbind option_bind].
    change (b64_value b64_pad) with (@None Z). cbv iota. rewrite bool_decide_eq_true_2 by done.
    do 2 f_equal. apply Z_byte_of. div_lia.
  - change (b64_strip (String b64_pad EmptyString)) with (String b64_pad EmptyString).
    cbn [b64_groups]. rewrite !b64_value_digit by div_lia. cbn [mbind option_bind].
    change (b64_value b64_pad) with (@None Z). cbv iota. rewrite bool_decide_eq_true_2 by done.
    do 2 f_equal; [apply Z_byte_of; div_lia|]. f_equal. apply Z_byte_of. div_lia.
  - cbn [b64_groups]. rewrite !b64_value_digit by div_lia. cbn [mbind option_bind].
    rewrite IH. cbn [mbind option_bind].
    do 2 f_equal; [apply Z_byte_of; div_lia|]. f_equal; [apply Z_byte_of; div_lia|].
    f_equal. apply Z_byte_of. div_lia.
Qed.
