(* ===== verification/GoFloat.v ===== *)
(** * Go floating-point numbers

    [float64] arithmetic as the program uses it, by the executable IEEE 754
    specification of the standard library: conversions from and to [int64], the
    product, the sum and the quotient, rounded to nearest, ties to even. *)

From Stdlib Require Import SpecFloat.
From S2P Require Import Prelude.

Open Scope Z_scope.

Definition float64 : Type := spec_float.

Definition float_of_int (z : Z) : float64 := binary_normalize 53 1024 z 0 false.
Definition float_mul (x y : float64) : float64 := SFmul 53 1024 x y.
Definition float_add (x y : float64) : float64 := SFadd 53 1024 x y.
Definition float_div (x y : float64) : float64 := SFdiv 53 1024 x y.
(** A constant [a/b] of the source. *)
Definition float_const (a b : Z) : float64 := SFdiv 53 1024 (float_of_int a) (float_of_int b).
Definition float_le (x y : float64) : bool := SFleb x y.

(** The integer part, toward zero; [None] for what is not finite. *)
Definition float_trunc (x : float64) : option Z :=
  match x with
  | S754_zero _ => Some 0
  | S754_finite s m e =>
      let a := if 0 <=? e then Z.pos m * 2 ^ e else Z.pos m / 2 ^ (- e) in
      Some (if s then - a else a)
  | _ => None
  end.

(** [int64(x)]: out of range the result depends on the machine, [out]. *)
Definition int_of_float (out : float64 → Z) (x : float64) : Z :=
  match float_trunc x with
  | Some z => if (- 2 ^ 63 <=? z) && (z <? 2 ^ 63) then z else out x
  | None => out x
  end.
