(* ===== verification/Json.v ===== *)
(** * JSON

    The part of Go's [encoding/json] the program relies on: how a Go string is
    written as a JSON string and read back, the syntax of JSON texts, and how
    the members of an object are assigned to the fields of a struct.  The
    syntax is that of the package's scanner: JSON strings and numbers are kept
    in a parsed value as they are written ([unquote] and [Atoi] interpret
    them), and nesting deeper than 10000 is refused. *)

From S2P Require Import Prelude GoStrings GoTime.

Open Scope Z_scope.

(** ** UTF-8

    Sequences [utf8.DecodeRune] decodes, by their length. *)

Definition in_range (lo hi : Z) (a : ascii) : bool := (lo <=? byte_Z a) && (byte_Z a <=? hi).
Definition cont (a : ascii) : bool := in_range 128 191 a.

Definition rune1 (a : ascii) : bool := byte_Z a <? 128.
Definition rune2 (a b : ascii) : bool := in_range 194 223 a && cont b.
Definition rune3 (a b c : ascii) : bool :=
  in_range 224 239 a &&
  (if byte_Z a =? 224 then in_range 160 191 b
   else if byte_Z a =? 237 then in_range 128 159 b else cont b) && cont c.
Definition rune4 (a b c d : ascii) : bool :=
  in_range 240 244 a &&
  (if byte_Z a =? 240 then in_range 144 191 b
   else if byte_Z a =? 244 then in_range 128 143 b else cont b) && cont c && cont d.

(** The encoding of U+FFFD, [unicode.ReplacementChar]. *)
Definition replacement : string :=
  String (Z_byte 239) (String (Z_byte 191) (String (Z_byte 189) EmptyString)).

(** A string with each byte that starts no valid sequence replaced by U+FFFD:
    what a [range] loop over the string sees. *)
Fixpoint to_valid (s : string) : string :=
  match s with
  | EmptyString => EmptyString
  | String a s1 =>
      if rune1 a then String a (to_valid s1) else
      match s1 with
      | EmptyString => replacement
      | String b s2 =>
          if rune2 a b then String a (String b (to_valid s2)) else
          match s2 with
          | EmptyString => replacement +:+ to_valid s1
          | String c s3 =>
              if rune3 a b c then String a (String b (String c (to_valid s3))) else
              match s3 with
              | EmptyString => replacement +:+ to_valid s1
              | String d s4 =>
                  if rune4 a b c d then String a (String b (String c (String d (to_valid s4))))
                  else replacement +:+ to_valid s1
              end
          end
      end
  end.

(** [utf8.ValidString]. *)
Definition utf8_valid (s : string) : bool := bool_decide (to_valid s = s).

(** [utf8.AppendRune(nil, r)], for a code point that is not a surrogate. *)
Definition encode_rune (r : Z) : string :=
  if r <? 128 then String (Z_byte r) EmptyString
  else if r <? 2048 then
    String (Z_byte (192 + r / 64)) (String (Z_byte (128 + r `mod` 64)) EmptyString)
  else if r <? 65536 then
    String (Z_byte (224 + r / 4096)) (String (Z_byte (128 + (r / 64) `mod` 64))
      (String (Z_byte (128 + r `mod` 64)) EmptyString))
  else
    String (Z_byte (240 + r / 262144)) (String (Z_byte (128 + (r / 4096) `mod` 64))
      (String (Z_byte (128 + (r / 64) `mod` 64)) (String (Z_byte (128 + r `mod` 64)) EmptyString))).

(** ** Writing strings *)

Definition quote : ascii := "034"%char.
Definition backslash : ascii := "092"%char.

Definition hex_digit (z : Z) : ascii := if z <? 10 then Z_byte (48 + z) else Z_byte (87 + z).

(** The escape of an ASCII byte: [<], [>] and [&] are escaped as well, because
    [json.Marshal] escapes HTML. *)
Definition enc_ascii (a : ascii) : string :=
  let z := byte_Z a in
  if (z =? 34) || (z =? 92) then String backslash (String a EmptyString)
  else if z =? 8 then String backslash "b"
  else if z =? 12 then String backslash "f"
  else if z =? 10 then String backslash "n"
  else if z =? 13 then String backslash "r"
  else if z =? 9 then String backslash "t"
  else if (z <? 32) || (z =? 60) || (z =? 62) || (z =? 38)
  then String backslash ("u00" +:+ String (hex_digit (z / 16)) (String (hex_digit (z `mod` 16)) EmptyString))
  else String a EmptyString.

(** U+2028 and U+2029 are escaped too. *)
Definition line_sep (a b c : ascii) : bool :=
  (byte_Z a =? 226) && (byte_Z b =? 128) && ((byte_Z c =? 168) || (byte_Z c =? 169)).

Definition enc_rune3 (a b c : ascii) : string :=
  if line_sep a b c
  then String backslash ("u202" +:+ String (hex_digit (byte_Z c `mod` 16)) EmptyString)
  else String a (String b (String c EmptyString)).

Definition enc_bad : string := String backslash "ufffd".

(** [appendString], without the quotes. *)
Fixpoint enc_str (s : string) : string :=
  match s with
  | EmptyString => EmptyString
  | String a s1 =>
      if rune1 a then enc_ascii a +:+ enc_str s1 else
      match s1 with
      | EmptyString => enc_bad
      | String b s2 =>
          if rune2 a b then String a (String b (enc_str s2)) else
          match s2 with
          | EmptyString => enc_bad +:+ enc_str s1
          | String c s3 =>
              if rune3 a b c then enc_rune3 a b c +:+ enc_str s3 else
              match s3 with
              | EmptyString => enc_bad +:+ enc_str s1
              | String d s4 =>
                  if rune4 a b c d then String a (String b (String c (String d (enc_str s4))))
                  else enc_bad +:+ enc_str s1
              end
          end
      end
  end.

Definition marshal_string (s : string) : string :=
  String quote (enc_str s) +:+ String quote EmptyString.

(** [Time.MarshalJSON]: an error for a year that has not four digits. *)
Definition marshal_time (t : Time) : option string :=
  if (-366 * day <=? t) && (t <? 3652059 * day)
  then Some (String quote (formatRFC3339Nano t) +:+ String quote EmptyString)
  else None.

(** ** Reading strings *)

Definition hex_val (a : ascii) : option Z :=
  let z := byte_Z a in
  if (48 <=? z) && (z <=? 57) then Some (z - 48)
  else if (97 <=? z) && (z <=? 102) then Some (z - 87)
  else if (65 <=? z) && (z <=? 70) then Some (z - 55)
  else None.

(** [getu4], after the backslash and the [u]. *)
Definition hex4 (a b c d : ascii) : option Z :=
  x ← hex_val a; y ← hex_val b; z ← hex_val c; w ← hex_val d;
  Some (4096 * x + 256 * y + 16 * z + w).

Definition is_surrogate (r : Z) : bool := (55296 <=? r) && (r <? 57344).

(** [utf16.DecodeRune]. *)
Definition decode_surrogates (r1 r2 : Z) : option Z :=
  if (55296 <=? r1) && (r1 <? 56320) && (56320 <=? r2) && (r2 <? 57344)
  then Some ((r1 - 55296) * 1024 + (r2 - 56320) + 65536) else None.

(** The byte of a one-letter escape; [None] when it is none. *)
Definition simple_escape (e : ascii) : option ascii :=
  let z := byte_Z e in
  if (z =? 34) || (z =? 92) || (z =? 47) then Some e
  else if z =? 98 then Some (Z_byte 8)
  else if z =? 102 then Some (Z_byte 12)
  else if z =? 110 then Some (Z_byte 10)
  else if z =? 114 then Some (Z_byte 13)
  else if z =? 116 then Some (Z_byte 9)
  else None.

(** [unquote]: the Go string a JSON string, given without its quotes, stands
    for.  A surrogate that has no partner and a byte that starts no valid
    sequence become U+FFFD. *)
Fixpoint unquote (s : string) : option string :=
  match s with
  | EmptyString => Some EmptyString
  | String a s1 =>
      if byte_Z a =? 92 then
        match s1 with
        | String e s2 =>
            if byte_Z e =? 117 then
              match s2 with
              | String h1 (String h2 (String h3 (String h4 s3))) =>
                  r ← hex4 h1 h2 h3 h4;
                  if is_surrogate r then
                    match s3 with
                    | String b (String u (String g1 (String g2 (String g3 (String g4 s4))))) =>
                        let r2 := if (byte_Z b =? 92) && (byte_Z u =? 117)
                                  then hex4 g1 g2 g3 g4 else None in
                        match r2 ≫= decode_surrogates r with
                        | Some rr => String.append (encode_rune rr) <$> unquote s4
                        | None => String.append replacement <$> unquote s3
                        end
                    | _ => String.append replacement <$> unquote s3
                    end
                  else String.append (encode_rune r) <$> unquote s3
              | _ => None
              end
            else c ← simple_escape e; String c <$> unquote s2
        | EmptyString => None
        end
      else if (byte_Z a =? 34) || (byte_Z a <? 32) then None
      else if rune1 a then String a <$> unquote s1 else
      match s1 with
      | EmptyString => Some replacement
      | String b s2 =>
          if rune2 a b then (λ r, String a (String b r)) <$> unquote s2 else
          match s2 with
          | EmptyString => String.append replacement <$> unquote s1
          | String c s3 =>
              if rune3 a b c then (λ r, String a (String b (String c r))) <$> unquote s3 else
              match s3 with
              | EmptyString => String.append replacement <$> unquote s1
              | String d s4 =>
                  if rune4 a b c d
                  then (λ r, String a (String b (String c (String d r)))) <$> unquote s4
                  else String.append replacement <$> unquote s1
              end
          end
      end
  end.

(** ** Syntax *)

Inductive json : Type :=
  | JNull
  | JBool (b : bool)
  | JNum (raw : string)
  | JStr (raw : string)
  | JArr (l : list json)
  | JObj (l : list (string * json)).

Definition is_ws (a : ascii) : bool :=
  let z := byte_Z a in (z =? 32) || (z =? 9) || (z =? 10) || (z =? 13).

Fixpoint skip_ws (s : string) : string :=
  match s with
  | String a s' => if is_ws a then skip_ws s' else s
  | EmptyString => EmptyString
  end.

Definition is_hex (a : ascii) : bool := match hex_val a with Some _ => true | None => false end.

(** A JSON string, after its opening quote: what stands before the closing
    one, and the rest. *)
Fixpoint scan_str (s : string) : option (string * string) :=
  match s with
  | EmptyString => None
  | String a s1 =>
      if byte_Z a =? 34 then Some (EmptyString, s1)
      else if byte_Z a =? 92 then
        match s1 with
        | String e s2 =>
            if byte_Z e =? 117 then
              match s2 with
              | String h1 (String h2 (String h3 (String h4 s3))) =>
                  if is_hex h1 && is_hex h2 && is_hex h3 && is_hex h4
                  then '(w, r) ← scan_str s3;
                       Some (String a (String e (String h1 (String h2 (String h3 (String h4 w))))), r)
                  else None
              | _ => None
              end
            else match simple_escape e with
                 | Some _ => '(w, r) ← scan_str s2; Some (String a (String e w), r)
                 | None => None
                 end
        | EmptyString => None
        end
      else if byte_Z a <? 32 then None
      else '(w, r) ← scan_str s1; Some (String a w, r)
  end.

Definition p_digits1 (s : string) : option (string * string) :=
  match span_digits s with
  | (EmptyString, _) => None
  | (ds, r) => Some (ds, r)
  end.

(** A number: sign, integer part, fraction and exponent. *)
Definition p_number (s : string) : option (string * string) :=
  let '(sign, s) := match s with
    | String a s' => if byte_Z a =? 45 then (String a EmptyString, s') else (EmptyString, s)
    | EmptyString => (EmptyString, s) end in
  '(int, s) ← match s with
    | String a s' => if byte_Z a =? 48 then Some (String a EmptyString, s') else p_digits1 s
    | EmptyString => None end;
  '(frac, s) ← match s with
    | String a s' =>
        if byte_Z a =? 46 then '(ds, r) ← p_digits1 s'; Some (String a ds, r)
        else Some (EmptyString, s)
    | EmptyString => Some (EmptyString, s) end;
  '(exp, s) ← match s with
    | String a s' =>
        if (byte_Z a =? 101) || (byte_Z a =? 69) then
          let '(sg, s'') := match s' with
            | String b r => if (byte_Z b =? 43) || (byte_Z b =? 45)
                            then (String b EmptyString, r) else (EmptyString, s')
            | EmptyString => (EmptyString, s') end in
          '(ds, r) ← p_digits1 s''; Some (String a EmptyString +:+ sg +:+ ds, r)
        else Some (EmptyString, s)
    | EmptyString => Some (EmptyString, s) end;
  Some (sign +:+ int +:+ frac +:+ exp, s).

(** [s] after the literal [w]. *)
Definition p_word (w : string) (v : json) (s : string) : option (json * string) :=
  if HasPrefix s w then Some (v, drop_s (String.length w) s) else None.

Definition max_depth : Z := 10000.

(** A value that starts at the first byte; [depth] counts the open arrays and
    objects.  The fuel is consumed by each value, member and element, which
    all take at least one byte. *)
Fixpoint p_value (fuel : nat) (depth : Z) (s : string) : option (json * string) :=
  match fuel, s with
  | S n, String a s1 =>
      let z := byte_Z a in
      if z =? 34 then '(raw, r) ← scan_str s1; Some (JStr raw, r)
      else if z =? 123 then
        if max_depth <? depth + 1 then None else
        match skip_ws s1 with
        | String b r => if byte_Z b =? 125 then Some (JObj [], r)
                        else '(l, r) ← p_members n (depth + 1) (String b r); Some (JObj l, r)
        | EmptyString => None
        end
      else if z =? 91 then
        if max_depth <? depth + 1 then None else
        match skip_ws s1 with
        | String b r => if byte_Z b =? 93 then Some (JArr [], r)
                        else '(l, r) ← p_elems n (depth + 1) (String b r); Some (JArr l, r)
        | EmptyString => None
        end
      else if z =? 116 then p_word "true" (JBool true) s
      else if z =? 102 then p_word "false" (JBool false) s
      else if z =? 110 then p_word "null" JNull s
      else '(raw, r) ← p_number s; Some (JNum raw, r)
  | _, _ => None
  end
(** Members, from the quote of the first key to the closing brace. *)
with p_members (fuel : nat) (depth : Z) (s : string) : option (list (string * json) * string) :=
  match fuel, s with
  | S n, String q s1 =>
      if byte_Z q =? 34 then
        '(k, r) ← scan_str s1;
        match skip_ws r with
        | String c r =>
            if byte_Z c =? 58 then
              '(v, r) ← p_value n depth (skip_ws r);
              match skip_ws r with
              | String e r =>
                  if byte_Z e =? 125 then Some ([(k, v)], r)
                  else if byte_Z e =? 44
                  then '(l, r) ← p_members n depth (skip_ws r); Some ((k, v) :: l, r)
                  else None
              | EmptyString => None
              end
            else None
        | EmptyString => None
        end
      else None
  | _, _ => None
  end
(** Elements, from the first one to the closing bracket. *)
with p_elems (fuel : nat) (depth : Z) (s : string) : option (list json * string) :=
  match fuel with
  | S n =>
      '(v, r) ← p_value n depth s;
      match skip_ws r with
      | String e r =>
          if byte_Z e =? 93 then Some ([v], r)
          else if byte_Z e =? 44
          then '(l, r) ← p_elems n depth (skip_ws r); Some (v :: l, r)
          else None
      | EmptyString => None
      end
  | O => None
  end.

(** A JSON text: one value between optional white space. *)
Definition parse_json (s : string) : option json :=
  '(v, r) ← p_value (S (String.length s)) 0 (skip_ws s);
  match skip_ws r with EmptyString => Some v | _ => None end.

(** ** Assigning values to fields

    [None] is a type error; [Some None] leaves the field as it is, as [null]
    does. *)

Definition dec_string (v : json) : option (option string) :=
  match v with
  | JStr raw => Some <$> unquote raw
  | JNull => Some None
  | _ => None
  end.

Definition dec_int (v : json) : option (option Z) :=
  match v with
  | JNum raw => Some <$> Atoi raw
  | JNull => Some None
  | _ => None
  end.

Definition dec_bool (v : json) : option (option bool) :=
  match v with
  | JBool b => Some (Some b)
  | JNull => Some None
  | _ => None
  end.

(** [Time.UnmarshalJSON] does not unescape the string. *)
Definition dec_time (v : json) : option (option Time) :=
  match v with
  | JStr raw => Some <$> parseRFC3339 raw
  | JNull => Some None
  | _ => None
  end.

(** Stores a decoded value with [set], if there is one. *)
Definition assign {R A} (set : A → R → R) (v : option (option A)) (r : R) : option R :=
  match v with
  | Some (Some a) => Some (set a r)
  | Some None => Some r
  | None => None
  end.

Section Struct.
Context {R : Type}.

(** The fields of a struct: the JSON name of each with the assignment to it.
    A key selects the field whose name it equals, letter case aside; an
    unknown key is skipped. *)
Fixpoint set_field (fields : list (string * (json → R → option R)))
    (key : string) (v : json) (r : R) : option R :=
  match fields with
  | [] => Some r
  | (name, f) :: rest => if EqualFold key name then f v r else set_field rest key v r
  end.

Fixpoint set_members (fields : list (string * (json → R → option R)))
    (l : list (string * json)) (r : R) : option R :=
  match l with
  | [] => Some r
  | (k, v) :: l' =>
      key ← unquote k; r' ← set_field fields key v r; set_members fields l' r'
  end.

(** [json.Unmarshal(data, &r)] for a struct; [None] is an error. *)
Definition unmarshal_struct (fields : list (string * (json → R → option R)))
    (data : string) (r : R) : option R :=
  v ← parse_json data;
  match v with
  | JObj l => set_members fields l r
  | JNull => Some r
  | _ => None
  end.

End Struct.

(** The length of the valid sequence a string starts with, [0] for none. *)
Definition rune_len (s : string) : nat :=
  match s with
  | EmptyString => 0
  | String a s1 =>
      if rune1 a then 1 else
      match s1 with
      | EmptyString => 0
      | String b s2 =>
          if rune2 a b then 2 else
          match s2 with
          | EmptyString => 0
          | String c s3 =>
              if rune3 a b c then 3 else
              match s3 with
              | EmptyString => 0
              | String d _ => if rune4 a b c d then 4 else 0
              end
          end
      end
  end%nat.

(** ** Induction over the characters of a string *)

Lemma rune_ind (P : string → Prop) :
  P EmptyString →
  (∀ a s, rune1 a = true → P s → P (String a s)) →
  (∀ a b s, rune1 a = false → rune2 a b = true → P s → P (String a (String b s))) →
  (∀ a b c s, rune1 a = false → rune2 a b = false → rune3 a b c = true → P s →
     P (String a (String b (String c s)))) →
  (∀ a b c d s, rune1 a = false → rune2 a b = false → rune3 a b c = false →
     rune4 a b c d = true → P s → P (String a (String b (String c (String d s))))) →
  (∀ a s, rune_len (String a s) = 0%nat → P s → P (String a s)) →
  ∀ s, P s.
Proof.
  intros H0 H1 H2 H3 H4 Hbad s.
  induction s as [s IH] using string_length_ind.
  destruct s as [|a s1]; [done|].
  assert (IH1 : P s1) by (apply IH; simpl; lia).
  destruct (rune_len (String a s1)) eqn:E; [by apply Hbad|].
  cbn [rune_len] in E. destruct (rune1 a) eqn:E1; [by apply H1|].
  destruct s1 as [|b s2]; [done|]. destruct (rune2 a b) eqn:E2.
  { apply H2; [done..|]. apply IH; simpl; lia. }
  destruct s2 as [|c s3]; [done|]. destruct (rune3 a b c) eqn:E3.
  { apply H3; [done..|]. apply IH; simpl; lia. }
  destruct s3 as [|d s4]; [done|]. destruct (rune4 a b c d) eqn:E4; [|done].
  apply H4; [done..|]. apply IH; simpl; lia.
Qed.

(** Unfolds a function defined by cases on the first character where the string
    starts with no valid sequence. *)
Ltac bad_head :=
  repeat match goal with
  | H : context [if ?b then _ else _] |- _ => destruct b; [done|]
  | H : context [match ?s with EmptyString => _ | String _ _ => _ end] |- _ =>
      destruct s; [try done|]
  end; try done.

Lemma bad_rune1 a s : rune_len (String a s) = 0%nat → rune1 a = false.
Proof. simpl. by destruct (rune1 a). Qed.

Lemma enc_str_bad a s : rune_len (String a s) = 0%nat →
  enc_str (String a s) = enc_bad +:+ enc_str s.
Proof. cbn [rune_len enc_str]. intros H. bad_head. Qed.

Lemma to_valid_bad a s : rune_len (String a s) = 0%nat →
  to_valid (String a s) = replacement +:+ to_valid s.
Proof. cbn [rune_len to_valid]. intros H. bad_head. Qed.

(** ** Bytes above 127 *)

Lemma high_byte a : rune1 a = false → 128 ≤ byte_Z a.
Proof. unfold rune1. by rewrite Z.ltb_ge. Qed.

Lemma in_range_iff lo hi a : in_range lo hi a = true ↔ lo ≤ byte_Z a ≤ hi.
Proof. unfold in_range. by rewrite andb_true_iff, !Z.leb_le. Qed.

Lemma cont_high a : cont a = true → rune1 a = false.
Proof. unfold cont, rune1. rewrite in_range_iff, Z.ltb_ge. lia. Qed.

Lemma rune2_high a b : rune2 a b = true → rune1 b = false.
Proof. unfold rune2. rewrite andb_true_iff. intros [_ H]. by apply cont_high. Qed.

Lemma second_high lo hi b : 128 ≤ lo → in_range lo hi b = true → rune1 b = false.
Proof. unfold rune1. rewrite in_range_iff, Z.ltb_ge. lia. Qed.

Lemma rune3_high a b c : rune3 a b c = true → rune1 b = false ∧ rune1 c = false.
Proof.
  unfold rune3. rewrite !andb_true_iff. intros [[_ H] Hc]. split; [|by apply cont_high].
  repeat case_match; first [by apply cont_high | eapply second_high; [|done]; lia].
Qed.

Lemma rune4_high a b c d : rune4 a b c d = true →
  rune1 b = false ∧ rune1 c = false ∧ rune1 d = false.
Proof.
  unfold rune4. rewrite !andb_true_iff. intros [[[_ H] Hc] Hd].
  split; [|split; by apply cont_high].
  repeat case_match; first [by apply cont_high | eapply second_high; [|done]; lia].
Qed.

Lemma scan_high a s : rune1 a = false →
  scan_str (String a s) = ('(w, r) ← scan_str s; Some (String a w, r)).
Proof.
  intros H%high_byte. simpl.
  rewrite (proj2 (Z.eqb_neq (byte_Z a) 34)), (proj2 (Z.eqb_neq (byte_Z a) 92)),
    (proj2 (Z.ltb_ge (byte_Z a) 32)) by lia. done.
Qed.

Lemma unquote_high a s : rune1 a = false →
  unquote (String a s) =
  match s with
  | EmptyString => Some replacement
  | String b s2 =>
      if rune2 a b then (λ r, String a (String b r)) <$> unquote s2 else
      match s2 with
      | EmptyString => String.append replacement <$> unquote s
      | String c s3 =>
          if rune3 a b c then (λ r, String a (String b (String c r))) <$> unquote s3 else
          match s3 with
          | EmptyString => String.append replacement <$> unquote s
          | String d s4 =>
              if rune4 a b c d
              then (λ r, String a (String b (String c (String d r)))) <$> unquote s4
              else String.append replacement <$> unquote s
          end
      end
  end.
Proof.
  intros H. pose proof (high_byte a H). cbn [unquote].
  rewrite (proj2 (Z.eqb_neq (byte_Z a) 34)), (proj2 (Z.eqb_neq (byte_Z a) 92)),
    (proj2 (Z.ltb_ge (byte_Z a) 32)) by lia. cbn [orb]. by rewrite H.
Qed.

(** ** Escapes *)

(** Runs a goal on every byte. *)
Ltac each_byte a := destruct a as [[] [] [] [] [] [] [] []].

(** The three forms of an escaped ASCII byte. *)
Lemma enc_ascii_cases a : rune1 a = true →
  (enc_ascii a = String a EmptyString ∧
     (byte_Z a =? 34) = false ∧ (byte_Z a =? 92) = false ∧ (byte_Z a <? 32) = false) ∨
  (∃ e, enc_ascii a = String backslash (String e EmptyString) ∧
     (byte_Z e =? 117) = false ∧ simple_escape e = Some a) ∨
  (∃ h1 h2, enc_ascii a = String backslash ("u00" +:+ String h1 (String h2 EmptyString)) ∧
     is_hex h1 = true ∧ is_hex h2 = true ∧
     hex4 "0" "0" h1 h2 = Some (byte_Z a) ∧ is_surrogate (byte_Z a) = false ∧
     encode_rune (byte_Z a) = String a EmptyString).
Proof.
  intros Ha. each_byte a; try discriminate Ha; clear Ha;
    first [ left; by repeat split
          | right; left; eexists; by repeat split
          | right; right; do 2 eexists; by repeat split ].
Qed.

Lemma scan_plain a s :
  (byte_Z a =? 34) = false → (byte_Z a =? 92) = false → (byte_Z a <? 32) = false →
  scan_str (String a s) = ('(w, r) ← scan_str s; Some (String a w, r)).
Proof. intros H1 H2 H3. cbn [scan_str]. by rewrite H1, H2, H3. Qed.

Lemma scan_escape e a s : (byte_Z e =? 117) = false → simple_escape e = Some a →
  scan_str (String backslash (String e s)) =
  ('(w, r) ← scan_str s; Some (String backslash (String e w), r)).
Proof. intros H1 H2. cbn [scan_str]. change (byte_Z backslash) with 92. simpl. by rewrite H1, H2. Qed.

Lemma scan_u h1 h2 h3 h4 s :
  is_hex h1 && is_hex h2 && is_hex h3 && is_hex h4 = true →
  scan_str (String backslash (String "u" (String h1 (String h2 (String h3 (String h4 s)))))) =
  ('(w, r) ← scan_str s;
   Some (String backslash (String "u" (String h1 (String h2 (String h3 (String h4 w))))), r)).
Proof.
  intros H. cbn [scan_str]. change (byte_Z backslash) with 92. change (byte_Z "u") with 117.
  change (92 =? 34) with false. change (92 =? 92) with true. change (117 =? 117) with true.
  cbv iota. by rewrite H.
Qed.

Lemma unquote_u h1 h2 h3 h4 s r : hex4 h1 h2 h3 h4 = Some r → is_surrogate r = false →
  unquote (String backslash (String "u" (String h1 (String h2 (String h3 (String h4 s)))))) =
  String.append (encode_rune r) <$> unquote s.
Proof.
  intros H1 H2. cbn [unquote]. change (byte_Z backslash) with 92. change (byte_Z "u") with 117.
  change (92 =? 92) with true. change (117 =? 117) with true. cbv iota.
  rewrite H1. cbn [mbind option_bind]. by rewrite H2.
Qed.

Lemma scan_enc_ascii a s w r : rune1 a = true → scan_str s = Some (w, r) →
  scan_str (enc_ascii a +:+ s) = Some (enc_ascii a +:+ w, r).
Proof.
  intros Ha H. destruct (enc_ascii_cases a Ha) as [(-> & ? & ? & ?)|[(e & -> & ? & ?)|
    (h1 & h2 & -> & Hh1 & Hh2 & _)]]; rewrite ?app_cons_s, ?app_assoc_s, ?app_cons_s, ?app_nil_l_s.
  - by rewrite scan_plain, H.
  - by erewrite scan_escape, H by done.
  - rewrite scan_u; [by rewrite H|]. by rewrite Hh1, Hh2.
Qed.

Lemma unquote_enc_ascii a s t : rune1 a = true → unquote s = Some t →
  unquote (enc_ascii a +:+ s) = Some (String a t).
Proof.
  intros Ha H. destruct (enc_ascii_cases a Ha) as [(-> & H1 & H2 & H3)|[(e & -> & H1 & H2)|
    (h1 & h2 & -> & _ & _ & Hh & Hs & He)]]; rewrite ?app_cons_s, ?app_assoc_s, ?app_cons_s, ?app_nil_l_s.
  - cbn [unquote]. by rewrite H1, H2, H3, Ha, H.
  - cbn [unquote]. change (byte_Z backslash) with 92. change (92 =? 92) with true. cbv iota.
    rewrite H1, H2. cbn [mbind option_bind]. by rewrite H.
  - by rewrite (unquote_u _ _ _ _ _ _ Hh Hs), H, He.
Qed.

Lemma line_sep_cases a b c : line_sep a b c = true →
  ∃ h, String a (String b (String c EmptyString)) = encode_rune (8192 + 32 + h) ∧
       is_hex (hex_digit (byte_Z c `mod` 16)) = true ∧
       hex4 "2" "0" "2" (hex_digit (byte_Z c `mod` 16)) = Some (8192 + 32 + h) ∧
       is_surrogate (8192 + 32 + h) = false.
Proof.
  unfold line_sep. rewrite !andb_true_iff, orb_true_iff, !Z.eqb_eq.
  intros [[Ha Hb] Hc]. rewrite <- (Z_byte_Z a), <- (Z_byte_Z b), <- (Z_byte_Z c), Ha, Hb.
  destruct Hc as [->| ->]; [exists 8|exists 9]; by repeat split.
Qed.

Lemma scan_enc_rune3 a b c s w r : rune1 a = false → rune3 a b c = true →
  scan_str s = Some (w, r) →
  scan_str (enc_rune3 a b c +:+ s) = Some (enc_rune3 a b c +:+ w, r).
Proof.
  intros Ha H3 H. unfold enc_rune3. destruct (line_sep a b c) eqn:El.
  - destruct (line_sep_cases a b c El) as (h & _ & Hh & _).
    rewrite ?app_cons_s, ?app_assoc_s, ?app_cons_s, ?app_nil_l_s.
    rewrite scan_u; [by rewrite H|]. by rewrite Hh.
  - apply rune3_high in H3 as [Hb Hc]. rewrite !app_cons_s, !app_nil_l_s.
    by rewrite !scan_high, H by done.
Qed.

Lemma unquote_enc_rune3 a b c s t : rune1 a = false → rune2 a b = false → rune3 a b c = true →
  unquote s = Some t →
  unquote (enc_rune3 a b c +:+ s) = Some (String a (String b (String c t))).
Proof.
  intros Ha H2 H3 H. unfold enc_rune3. destruct (line_sep a b c) eqn:El.
  - destruct (line_sep_cases a b c El) as (h & He & _ & Hh & Hs).
    rewrite ?app_cons_s, ?app_assoc_s, ?app_cons_s, ?app_nil_l_s.
    by rewrite (unquote_u _ _ _ _ _ _ Hh Hs), H, <- He.
  - rewrite !app_cons_s, !app_nil_l_s, unquote_high, H2, H3, H by done. done.
Qed.

Lemma scan_enc_bad s w r : scan_str s = Some (w, r) →
  scan_str (enc_bad +:+ s) = Some (enc_bad +:+ w, r).
Proof.
  intros H. unfold enc_bad. rewrite !app_cons_s, !app_nil_l_s, scan_u by done. by rewrite H.
Qed.

Lemma unquote_enc_bad s t : unquote s = Some t →
  unquote (enc_bad +:+ s) = Some (replacement +:+ t).
Proof.
  intros H. unfold enc_bad. rewrite !app_cons_s, !app_nil_l_s.
  erewrite unquote_u by done. by rewrite H.
Qed.

(** ** Strings survive the trip *)

(** A written string is scanned up to its closing quote. *)
Lemma scan_enc_str s r : scan_str (enc_str s +:+ String quote r) = Some (enc_str s, r).
Proof.
  induction s as [|a s H1 IH|a b s H1 H2 IH|a b c s H1 H2 H3 IH|a b c d s H1 H2 H3 H4 IH|a s Hb IH]
    using rune_ind; [done| | | | |].
  - cbn [enc_str]. rewrite H1, app_assoc_s. by apply scan_enc_ascii.
  - cbn [enc_str]. rewrite H1, H2, !app_cons_s.
    by rewrite !scan_high, IH by (done || by eapply rune2_high).
  - cbn [enc_str]. rewrite H1, H2, H3, app_assoc_s. by apply scan_enc_rune3.
  - cbn [enc_str]. rewrite H1, H2, H3, H4, !app_cons_s.
    destruct (rune4_high _ _ _ _ H4) as (? & ? & ?). by rewrite !scan_high, IH.
  - rewrite enc_str_bad, app_assoc_s by done. by apply scan_enc_bad.
Qed.

(** A written string is read back, up to its invalid bytes. *)
Lemma unquote_enc_str s : unquote (enc_str s) = Some (to_valid s).
Proof.
  induction s as [|a s H1 IH|a b s H1 H2 IH|a b c s H1 H2 H3 IH|a b c d s H1 H2 H3 H4 IH|a s Hb IH]
    using rune_ind; [done| | | | |].
  - cbn [enc_str to_valid]. rewrite H1. by apply unquote_enc_ascii.
  - cbn [enc_str to_valid]. rewrite H1, H2, unquote_high, H2, IH by done. done.
  - cbn [enc_str to_valid]. rewrite H1, H2, H3. by apply unquote_enc_rune3.
  - cbn [enc_str to_valid]. rewrite H1, H2, H3, H4, unquote_high, H2, H3, H4, IH by done. done.
  - rewrite enc_str_bad, to_valid_bad by done. by apply unquote_enc_bad.
Qed.

Lemma utf8_valid_eq s : utf8_valid s = true ↔ to_valid s = s.
Proof. unfold utf8_valid. by rewrite bool_decide_eq_true. Qed.

(** An escape is at most six times as long as what it stands for. *)
Lemma length_enc_str s : (String.length (enc_str s) ≤ 6 * String.length s)%nat.
Proof.
  induction s as [|a s H1 IH|a b s H1 H2 IH|a b c s H1 H2 H3 IH|a b c d s H1 H2 H3 H4 IH|a s Hb IH]
    using rune_ind; [done| | | | |].
  - cbn [enc_str]. rewrite H1, length_app_s.
    destruct (enc_ascii_cases a H1) as [(-> & _)|[(e & -> & _)|(h1 & h2 & -> & _)]];
      len_lia.
  - cbn [enc_str]. rewrite H1, H2. len_lia.
  - cbn [enc_str]. rewrite H1, H2, H3, length_app_s. unfold enc_rune3.
    case_match; len_lia.
  - cbn [enc_str]. rewrite H1, H2, H3, H4. len_lia.
  - rewrite enc_str_bad, length_app_s by done. cbn [String.length] in *.
    change (String.length enc_bad) with 6%nat. lia.
Qed.
