(* ===== verification/GoRunes.v ===== *)
(** * Runes, repetition and lines

    The functions of package [strings] and the conversions to [[]rune] that the
    user interface uses. *)

From S2P Require Import Prelude GoStrings GoTime Json.

Open Scope Z_scope.

Definition newline : string := String "010"%char EmptyString.

(** [strings.Repeat]; [None] is the panic on a negative count. *)
Fixpoint repeat_s (n : nat) (s : string) : string :=
  match n with O => EmptyString | S n => s +:+ repeat_s n s end.
Definition Repeat (s : string) (count : Z) : option string :=
  if count <? 0 then None else Some (repeat_s (Z.to_nat count) s).

(** [strings.Split] at a newline. *)
Fixpoint lines_from (s cur : string) : list string :=
  match s with
  | EmptyString => [rev_s cur]
  | String a s =>
      if decide (a = "010"%char) then rev_s cur :: lines_from s EmptyString else lines_from s (String a cur)
  end.
Definition SplitLines (s : string) : list string := lines_from s EmptyString.

(** [[]rune(s)], each rune as its encoding: a byte that starts no valid
    sequence is U+FFFD. *)
Fixpoint runes (s : string) : list string :=
  match s with
  | EmptyString => []
  | String a s1 =>
      if rune1 a then String a EmptyString :: runes s1 else
      match s1 with
      | EmptyString => [replacement]
      | String b s2 =>
          if rune2 a b then String a (String b EmptyString) :: runes s2 else
          match s2 with
          | EmptyString => replacement :: runes s1
          | String c s3 =>
              if rune3 a b c then String a (String b (String c EmptyString)) :: runes s3 else
              match s3 with
              | EmptyString => replacement :: runes s1
              | String d s4 =>
                  if rune4 a b c d then String a (String b (String c (String d EmptyString))) :: runes s4
                  else replacement :: runes s1
              end
          end
      end
  end.

(** [string(l)] of a slice of runes. *)
Definition of_runes (l : list string) : string := Join l EmptyString.

(** A text that is one rune. *)
Definition is_rune (r : string) : Prop := runes r = [r].

(** ** Lemmas *)

Lemma Repeat_total s n : 0 ≤ n → is_Some (Repeat s n).
Proof. unfold Repeat. destruct (Z.ltb_spec n 0); [lia|eauto]. Qed.

Lemma of_runes_cons r l : of_runes (r :: l) = r +:+ of_runes l.
Proof. unfold of_runes. destruct l; simpl; [by rewrite app_nil_r_s|done]. Qed.

Lemma runes_bad a s : rune_len (String a s) = 0%nat → runes (String a s) = replacement :: runes s.
Proof. cbn [rune_len runes]. intros H. bad_head. Qed.

(** A text is its runes, once the invalid bytes are replaced. *)
Lemma of_runes_runes s : of_runes (runes s) = to_valid s.
Proof.
  induction s using rune_ind.
  - done.
  - cbn [runes to_valid]. rewrite H, of_runes_cons. by rewrite IHs.
  - cbn [runes to_valid]. rewrite H, H0, of_runes_cons. by rewrite IHs.
  - cbn [runes to_valid]. rewrite H, H0, H1, of_runes_cons. by rewrite IHs.
  - cbn [runes to_valid]. rewrite H, H0, H1, H2, of_runes_cons. by rewrite IHs.
  - rewrite runes_bad, to_valid_bad, of_runes_cons by done. by rewrite IHs.
Qed.

(** A rune in front of a text is its first rune. *)
Lemma runes_app r s : is_rune r → runes (r +:+ s) = r :: runes s.
Proof.
  unfold is_rune. intros H.
  destruct r as [|a [|b [|c [|d [|x r]]]]]; cbn [runes] in H; unfold replacement in H;
    repeat (case_match; simplify_eq/=; try done); done.
Qed.

Lemma replacement_is_rune : is_rune replacement.
Proof. by vm_compute. Qed.

Lemma runes_are_runes s : Forall is_rune (runes s).
Proof.
  induction s using rune_ind.
  - constructor.
  - cbn [runes]. rewrite H. constructor; [|done]. unfold is_rune. cbn. by rewrite H.
  - cbn [runes]. rewrite H, H0. constructor; [|done]. unfold is_rune. cbn. by rewrite H, H0.
  - cbn [runes]. rewrite H, H0, H1. constructor; [|done]. unfold is_rune. cbn. by rewrite H, H0, H1.
  - cbn [runes]. rewrite H, H0, H1, H2. constructor; [|done]. unfold is_rune. cbn. by rewrite H, H0, H1, H2.
  - rewrite runes_bad by done. constructor; [apply replacement_is_rune|done].
Qed.

Lemma runes_of_runes l s : Forall is_rune l → runes (of_runes l +:+ s) = l ++ runes s.
Proof.
  induction 1 as [|r l Hr Hl IH]; [done|].
  rewrite of_runes_cons, app_assoc_s, runes_app by done. by rewrite IH.
Qed.

(** ** [truncate] ([internal/ui/sidebar.go]) *)

Definition ellipsis : string := "…".

Definition truncate (s : string) (maxLen : Z) : string :=
  let r := runes s in
  if Z.of_nat (length r) <=? maxLen then s
  else if maxLen <=? 1 then ellipsis
  else of_runes (take (Z.to_nat (maxLen - 1)) r) +:+ ellipsis.

(** What [truncate] gives: the text, or its first runes and an ellipsis, within
    the length asked for if that is positive. *)
Lemma truncate_spec s maxLen :
  Z.of_nat (length (runes (truncate s maxLen))) ≤ Z.max 1 maxLen ∧
  (Z.of_nat (length (runes s)) ≤ maxLen → truncate s maxLen = s) ∧
  (maxLen < Z.of_nat (length (runes s)) → 1 ≤ maxLen →
   runes (truncate s maxLen) = take (Z.to_nat (maxLen - 1)) (runes s) ++ [ellipsis]).
Proof.
  assert (He : is_rune ellipsis) by (by vm_compute).
  unfold truncate. destruct (Z.leb_spec (Z.of_nat (length (runes s))) maxLen) as [Hl|Hl].
  { split_and!; [lia|done|lia]. }
  destruct (Z.leb_spec maxLen 1) as [Hm|Hm].
  { rewrite He. split_and!; [simpl; lia|lia|]. intros _ H. by assert (maxLen = 1) as -> by lia. }
  rewrite runes_of_runes, He by (apply Forall_take, runes_are_runes).
  rewrite length_app, length_take. simpl. split_and!; [lia|lia|done].
Qed.

(** ** Trimming keeps to the bytes of a text *)

Lemma all_bytes_TrimSpace p s : all_bytes p s = true → all_bytes p (TrimSpace s) = true.
Proof.
  intros Hs. unfold TrimSpace.
  destruct (drop_seqs_suffix space1 space2 space3 s) as [l Hl]. fold (TrimLeft s) in Hl.
  destruct (TrimRight_prefix (TrimLeft s)) as [r Hr]. rewrite Hl, all_bytes_app in Hs.
  apply andb_true_iff in Hs as [_ Hs]. rewrite Hr, all_bytes_app in Hs. by apply andb_true_iff in Hs as [Hs _].
Qed.
