(* ===== verification/GoIP.v ===== *)
(** * Textual IP addresses

    [net.ParseIP] and [IP.To4]: dotted decimal fields without leading zeros, and
    sixteen-bit groups in hexadecimal with at most one [::] and possibly a
    dotted tail.  An address is its sixteen bytes. *)

From S2P Require Import Prelude GoStrings GoNet Json.

Open Scope Z_scope.

(** ** Dotted decimals *)

Definition dot : ascii := ".".
Definition percent : ascii := "%".

(** The finished [fields] and the value and length of the current one. *)
Fixpoint v4_fields (s : string) (fields : list Z) (val : Z) (digLen : nat) : option (list Z) :=
  match s with
  | EmptyString =>
      if (digLen =? 0)%nat || negb (length fields =? 3)%nat then None else Some (fields ++ [val])
  | String a s =>
      if is_digit a then
        if (digLen =? 1)%nat && (val =? 0) then None
        else let val := val * 10 + digit_val a in
          if 255 <? val then None else v4_fields s fields val (S digLen)
      else if decide (a = dot) then
        if (digLen =? 0)%nat || (length fields =? 3)%nat then None
        else v4_fields s (fields ++ [val]) 0 0
      else None
  end.

Definition parseIPv4Fields (s : string) : option (list Z) := v4_fields s [] 0 0.

(** ** Groups of hexadecimal digits *)

(** A group: its value, the digits read and the rest; more than four digits
    are refused. *)
Fixpoint hex_group (s : string) (acc : Z) (off : nat) : option (Z * nat * string) :=
  match s with
  | EmptyString => Some (acc, off, s)
  | String a s' =>
      match hex_val a with
      | Some d => if (3 <? off)%nat then None else hex_group s' (acc * 16 + d) (S off)
      | None => Some (acc, off, s)
      end
  end.

(** The groups left to read, at most [fuel]: the bytes so far and the place of
    the ellipsis. *)
Fixpoint v6_groups (fuel : nat) (s : string) (ip : list Z) (ellipsis : option nat) : option (list Z * option nat) :=
  match fuel with
  | O => if decide (s = EmptyString) then Some (ip, ellipsis) else None
  | S fuel =>
      '(acc, off, rest) ← hex_group s 0 0;
      if (off =? 0)%nat then None else
      match rest with
      | EmptyString => Some (ip ++ [acc `div` 256; acc `mod` 256], ellipsis)
      | String a rest' =>
          if decide (a = dot) then
            if bool_decide (ellipsis = None) && negb (length ip =? 12)%nat then None
            else if (16 <? length ip + 4)%nat then None
            else fields ← parseIPv4Fields s; Some (ip ++ fields, ellipsis)
          else let ip := ip ++ [acc `div` 256; acc `mod` 256] in
          if decide (a = colon) then
            match rest' with
            | EmptyString => None
            | String b rest'' =>
                if decide (b = colon) then
                  match ellipsis with
                  | Some _ => None
                  | None =>
                      if decide (rest'' = EmptyString) then Some (ip, Some (length ip))
                      else v6_groups fuel rest'' ip (Some (length ip))
                  end
                else v6_groups fuel rest' ip ellipsis
            end
          else None
      end
  end.

(** The ellipsis filled with zeros. *)
Definition expand (r : list Z * option nat) : option (list Z) :=
  let '(ip, ellipsis) := r in
  match ellipsis with
  | None => if (length ip =? 16)%nat then Some ip else None
  | Some e => if (length ip <? 16)%nat then Some (take e ip ++ replicate (16 - length ip) 0 ++ drop e ip) else None
  end.

Definition parseIPv6 (s : string) : option (list Z) :=
  if HasPrefix s "::" then
    let s := drop_s 2 s in
    if decide (s = EmptyString) then Some (replicate 16 0)
    else v6_groups 8 s [] (Some 0%nat) ≫= expand
  else v6_groups 8 s [] None ≫= expand.

(** ** Addresses *)

Definition v4_prefix : list Z := replicate 10 0 ++ [255; 255].

(** The first of the bytes [.], [:] and [%] decides the family. *)
Fixpoint family (s : string) : option ascii :=
  match s with
  | EmptyString => None
  | String a s => if decide (a = dot ∨ a = colon ∨ a = percent) then Some a else family s
  end.

(** [net.ParseIP]: an address with a zone is refused. *)
Definition ParseIP (s : string) : option (list Z) :=
  match family s with
  | Some a =>
      if decide (a = dot) then app v4_prefix <$> parseIPv4Fields s
      else if decide (a = colon) then if has_byte percent s then None else parseIPv6 s
      else None
  | None => None
  end.

(** Whether [IP.To4] is not nil. *)
Definition is4 (ip : list Z) : bool := bool_decide (take 12 ip = v4_prefix).

(** ** Lemmas *)

Lemma v4_fields_length s fields val n l : v4_fields s fields val n = Some l → length l = 4%nat.
Proof.
  revert fields val n. induction s as [|a s IH]; intros fields val n; cbn [v4_fields].
  - destruct (_ || _) eqn:E; [done|]. intros [= <-]. apply orb_false_iff in E as [_ E%negb_false_iff].
    apply Nat.eqb_eq in E. rewrite length_app, E. done.
  - repeat case_match; try done; apply IH.
Qed.

(** The ellipsis is a place in the address. *)
Definition placed (ip : list Z) (ellipsis : option nat) : Prop :=
  match ellipsis with Some n => (n ≤ length ip)%nat | None => True end.

Lemma placed_app ip x e : placed ip e → placed (ip ++ x) e.
Proof. destruct e; cbn; [|done]. rewrite length_app. lia. Qed.

Lemma placed_end ip : placed ip (Some (length ip)).
Proof. cbn. lia. Qed.

Lemma v6_groups_length fuel s ip e l e' : v6_groups fuel s ip e = Some (l, e') →
  (length ip + 2 * fuel = 16)%nat → placed ip e → (length l ≤ 16)%nat ∧ placed l e'.
Proof.
  revert s ip e. induction fuel as [|fuel IH]; intros s ip e; cbn [v6_groups].
  - intros H. case_decide; [|done]. injection H as <- <-. intros. split; [lia|done].
  - destruct (hex_group s 0 0) as [[[acc off] rest]|]; [|done]. cbn [mbind option_bind].
    set (g := [acc `div` 256; acc `mod` 256]). intros H Hl He.
    assert (Hg : length (ip ++ g) = (length ip + 2)%nat) by apply length_app.
    destruct (off =? 0)%nat; [done|]. destruct rest as [|a rest].
    { injection H as <- <-. split; [lia|by apply placed_app]. }
    destruct (decide (a = dot)).
    { destruct (_ && _); [done|]. destruct (16 <? length ip + 4)%nat eqn:E16; [done|].
      apply Nat.ltb_ge in E16. destruct (parseIPv4Fields s) as [f|] eqn:Ef; [|done].
      cbn in H. injection H as <- <-. apply v4_fields_length in Ef. rewrite length_app.
      split; [lia|by apply placed_app]. }
    destruct (decide (a = colon)); [|done]. destruct rest as [|b rest]; [done|].
    destruct (decide (b = colon)).
    + destruct e; [done|]. destruct (decide (rest = EmptyString)).
      * injection H as <- <-. split; [lia|apply placed_end].
      * eapply IH; [exact H|lia|apply placed_end].
    + eapply IH; [exact H|lia|by apply placed_app].
Qed.

(** An address has sixteen bytes. *)
Lemma ParseIP_length s ip : ParseIP s = Some ip → length ip = 16%nat.
Proof.
  unfold ParseIP. destruct (family s) as [a|]; [|done]. case_decide.
  - destruct (parseIPv4Fields s) eqn:E; [|done]. intros [= <-]. apply v4_fields_length in E.
    cbn. by rewrite E.
  - case_decide; [|done]. destruct (has_byte percent s); [done|]. unfold parseIPv6.
    assert (Hx : ∀ t e, placed [] e → (v6_groups 8 t [] e ≫= expand) = Some ip → length ip = 16%nat).
    { intros t e He. destruct (v6_groups 8 t [] e) as [[l e']|] eqn:Er; [|done]. cbn [mbind option_bind]. unfold expand.
      apply v6_groups_length in Er as [Hl He']; [|done..]. destruct e' as [n|]; cbn in He'.
      - destruct (length l <? 16)%nat eqn:En; [|done]. intros [= <-].
        rewrite !length_app, length_take, length_replicate, length_drop. lia.
      - destruct (length l =? 16)%nat eqn:En; [|done]. intros [= <-]. by apply Nat.eqb_eq. }
    destruct (HasPrefix s "::"); [case_decide; [intros [= <-]; done|]|];
      apply Hx; cbn; lia || done.
Qed.

Example ParseIP_v4 : ParseIP "192.168.1.20" = Some (v4_prefix ++ [192; 168; 1; 20]).
Proof. reflexivity. Qed.

Example ParseIP_v6 : ParseIP "2001:db8::1:2" = Some [32; 1; 13; 184; 0; 0; 0; 0; 0; 0; 0; 0; 0; 1; 0; 2].
Proof. reflexivity. Qed.

Example ParseIP_mapped : is4 <$> ParseIP "::ffff:10.0.0.1" = Some true.
Proof. reflexivity. Qed.

Example ParseIP_refused : Forall (λ s, ParseIP s = None)
  [""; "1.2.3"; "1.2.3.256"; "01.2.3.4"; "1..2.3"; "1.2.3.4.5"; "::1%eth0"; "1:2:3:4:5:6:7"; "1::2::3"; "12345::"; "1:2:3:4:5:6:7:8::"; "host"].
Proof. repeat constructor. Qed.
