(* ===== verification/JsonObject.v ===== *)
(** * JSON objects as the program writes them

    The text of an object with a list of members, compact as [json.Marshal]
    writes it or indented as [json.MarshalIndent] does, and the lemmas that the
    parser of [Json] reads the members back. *)

From S2P Require Import Prelude GoStrings GoTime Json.

Open Scope Z_scope.

(** ** The text of an object *)

(** The key of a member with its colon. *)
Definition json_key (name : string) : string :=
  String quote name +:+ String quote ":".
Definition comma : string := ",".

(** A byte that stands for itself in a JSON string. *)
Definition plain_byte (a : ascii) : bool :=
  negb (byte_Z a =? 34) && negb (byte_Z a =? 92) && negb (byte_Z a <? 32).
Fixpoint plain (s : string) : bool :=
  match s with EmptyString => true | String a s' => plain_byte a && plain s' end.

(** The members of an object after the first one: key, text and value.  [pre]
    stands before each key and [sp] after its colon. *)
Fixpoint more_members (pre sp : string) (l : list (string * string * json)) : string :=
  match l with
  | [] => EmptyString
  | (k, t, _) :: l' => comma +:+ pre +:+ json_key k +:+ sp +:+ t +:+ more_members pre sp l'
  end.
Definition member_values (l : list (string * string * json)) : list (string * json) :=
  (λ '(k, _, v), (k, v)) <$> l.

(** An object with at least one member; [post] stands before the brace. *)
Definition object_text (pre sp post : string) (l : list (string * string * json)) : string :=
  match l with
  | [] => "{}"
  | (k, t, _) :: l' =>
      "{" +:+ pre +:+ json_key k +:+ sp +:+ t +:+ more_members pre sp l' +:+ post +:+ "}"
  end.

(** A text that is read as the value [v] where a member of an object ends: at a
    comma, a brace or a newline. *)
Definition value_text (t : string) (v : json) : Prop :=
  (∀ r, skip_ws (t +:+ r) = t +:+ r) ∧
  (∀ n d c r, byte_Z c = 44 ∨ byte_Z c = 125 ∨ byte_Z c = 10 →
     p_value (S n) d (t +:+ String c r) = Some (v, String c r)).
Definition member_ok (m : string * string * json) : Prop :=
  let '(k, t, v) := m in plain k = true ∧ value_text t v.

Definition white (w : string) : Prop := ∀ r, skip_ws (w +:+ r) = skip_ws r.

(** [post] starts with a byte that ends a value. *)
Definition closing (post : string) : Prop :=
  white post ∧ ∀ r, ∃ c r', post +:+ String "}" r = String c r' ∧ (byte_Z c = 125 ∨ byte_Z c = 10).

(** A string field tagged [omitempty]. *)
Definition opt_value (name v : string) : list (string * string * json) :=
  if bool_decide (v = EmptyString) then []
  else [(name, marshal_string v, JStr (enc_str v))].

(** ** Lemmas *)

Lemma scan_plain_str s r : plain s = true → scan_str (s +:+ String quote r) = Some (s, r).
Proof.
  induction s as [|a s IH]; [done|]. cbn [plain]. unfold plain_byte.
  rewrite !andb_true_iff, !negb_true_iff. intros [[[H1 H2] H3] Hs].
  rewrite app_cons_s, scan_plain by done. by rewrite IH.
Qed.

Lemma plain_app s t : plain (s +:+ t) = plain s && plain t.
Proof. induction s as [|a s IH]; [done|]. rewrite app_cons_s. simpl. by rewrite IH, andb_assoc. Qed.

Lemma all_bytes_plain s : all_bytes plain_byte s = plain s.
Proof. induction s as [|a s IH]; [done|]. cbn [all_bytes plain]. by rewrite IH. Qed.

Lemma all_digits_bytes p s : (∀ a, is_digit a = true → p a = true) → all_digits s = true → all_bytes p s = true.
Proof.
  intros Hp. induction s as [|a s IH]; [done|]. cbn [all_digits all_bytes].
  rewrite !andb_true_iff. intros [Ha Hs]. auto.
Qed.

Lemma trim_zeros_digits s : all_digits s = true → all_digits (trim_zeros s) = true.
Proof.
  destruct (trim_zeros_spec s) as [k Hk]. rewrite Hk at 1. rewrite all_digits_app.
  by rewrite andb_true_iff; intros [? _].
Qed.

(** The bytes of a time are digits and a few marks. *)
Lemma format_bytes p t : in_year_range t → (∀ a, is_digit a = true → p a = true) →
  p "-"%char = true → p ":"%char = true → p "T"%char = true → p "."%char = true → p "Z"%char = true →
  all_bytes p (formatRFC3339Nano t) = true.
Proof.
  intros Ht Hd H1 H2 H3 H4 H5. unfold formatRFC3339Nano.
  destruct (civil (t / day)) as [[y m] d] eqn:Ec.
  assert (Hy : 0 ≤ y ≤ 9999).
  { eapply civil_year_range; [|done]. unfold in_year_range, day, hour, minute, second in *. div_lia. }
  unfold appendInt.
  replace (y <? 0) with false by (symmetry; apply Z.ltb_ge; lia).
  replace (Z.abs y <? 10 ^ Z.of_nat 4) with true by (symmetry; apply Z.ltb_lt; lia).
  rewrite !all_bytes_app, !(all_digits_bytes p (digits _ _)) by (done || apply all_digits_digits).
  cbn [all_bytes]. rewrite H1, H2, H3, H5. unfold format_frac. case_match; [done|].
  rewrite all_bytes_app, (all_digits_bytes p (trim_zeros _)); [cbn; by rewrite H4|done|].
  apply trim_zeros_digits, all_digits_digits.
Qed.

Lemma digit_plain a : is_digit a = true → plain_byte a = true ∧ rune1 a = true.
Proof.
  unfold is_digit. rewrite andb_true_iff, !Z.leb_le. intros Ha.
  unfold plain_byte, rune1. rewrite !andb_true_iff, !negb_true_iff, !Z.eqb_neq, Z.ltb_ge, Z.ltb_lt. lia.
Qed.

Lemma plain_format t : in_year_range t → plain (formatRFC3339Nano t) = true.
Proof. intros Ht. rewrite <- all_bytes_plain. apply format_bytes; try done. intros a Ha. by apply digit_plain. Qed.

Lemma ascii_format t : in_year_range t → all_bytes rune1 (formatRFC3339Nano t) = true.
Proof. intros Ht. apply format_bytes; try done. intros a Ha. by apply digit_plain. Qed.

Lemma string_text s : value_text (marshal_string s) (JStr (enc_str s)).
Proof.
  unfold marshal_string. split; intros; rewrite !app_assoc_s, !app_cons_s; [done|].
  cbn [p_value]. change (byte_Z quote =? 34) with true. cbv iota.
  rewrite app_nil_l_s. by rewrite scan_enc_str.
Qed.

Lemma plain_text s : plain s = true →
  value_text (String quote s +:+ String quote EmptyString) (JStr s).
Proof.
  intros H. split; intros; rewrite !app_assoc_s, !app_cons_s; [done|].
  cbn [p_value]. change (byte_Z quote =? 34) with true. cbv iota.
  rewrite app_nil_l_s. by rewrite scan_plain_str.
Qed.

Lemma one_text : value_text "1" (JNum "1").
Proof.
  split; [done|]. intros n d c r Hc.
  assert (c = ","%char ∨ c = "}"%char ∨ c = "010"%char) as [-> | [-> | ->]]; [|reflexivity..].
  destruct Hc as [?|[?|?]]; [left|right; left|right; right]; by apply byte_Z_inj.
Qed.

Lemma white_nil : white EmptyString.
Proof. done. Qed.

Lemma closing_nil : closing EmptyString.
Proof. split; [done|]. intros r. exists "}"%char, r. split; [done|by left]. Qed.

Lemma white_key w k r : white w → skip_ws (w +:+ json_key k +:+ r) = json_key k +:+ r.
Proof. intros H. rewrite H. done. Qed.

Lemma white_text w t v r : white w → value_text t v → skip_ws (w +:+ t +:+ r) = t +:+ r.
Proof. intros H [Ht _]. by rewrite H. Qed.

(** ASCII texts are not changed on the way. *)
Lemma to_valid_ascii s : all_bytes rune1 s = true → to_valid s = s.
Proof.
  induction s as [|a s IH]; [done|]. cbn [all_bytes]. rewrite andb_true_iff. intros [Ha Hs].
  cbn [to_valid]. rewrite Ha. by rewrite IH.
Qed.

Lemma unquote_ascii s : all_bytes (λ a, plain_byte a && rune1 a) s = true → unquote s = Some s.
Proof.
  induction s as [|a s IH]; [done|]. cbn [all_bytes]. rewrite !andb_true_iff. intros [[Hp Ha] Hs].
  unfold plain_byte in Hp. rewrite !andb_true_iff, !negb_true_iff in Hp. destruct Hp as [[H1 H2] H3].
  cbn [unquote]. rewrite H2, H1, H3, Ha, IH by done. done.
Qed.

(** One member of a written object, up to what follows its value. *)
Lemma p_member_step n d sp k t v c r :
  white sp → member_ok (k, t, v) → byte_Z c = 44 ∨ byte_Z c = 125 ∨ byte_Z c = 10 →
  p_members (S (S n)) d (json_key k +:+ sp +:+ t +:+ String c r) =
  match skip_ws (String c r) with
  | String e r =>
      if byte_Z e =? 125 then Some ([(k, v)], r)
      else if byte_Z e =? 44
      then '(l, r) ← p_members (S n) d (skip_ws r); Some ((k, v) :: l, r)
      else None
  | EmptyString => None
  end.
Proof.
  intros Hsp (Hk & Hws & Ht) Hc. specialize (Ht n d c r Hc).
  remember (S n) as m eqn:Em. unfold json_key.
  rewrite !app_assoc_s, !app_cons_s, !app_nil_l_s.
  cbn [p_members]. change (byte_Z quote =? 34) with true. cbv iota.
  rewrite scan_plain_str by done. cbn [mbind option_bind].
  change (skip_ws (String ":" (sp +:+ t +:+ String c r))) with (String ":" (sp +:+ t +:+ String c r)).
  cbv iota. change (byte_Z ":"%char =? 58) with true. cbv iota.
  rewrite Hsp, Hws, Ht. done.
Qed.

Section Object.
Context (pre sp post : string) (Hpre : white pre) (Hsp : white sp) (Hpost : closing post).

Lemma p_members_text k t v l n d r :
  member_ok (k, t, v) → Forall member_ok l → (length l + 2 ≤ n)%nat →
  p_members n d (json_key k +:+ sp +:+ t +:+ more_members pre sp l +:+ post +:+ String "}" r) =
  Some ((k, v) :: member_values l, r).
Proof.
  revert k t v n. induction l as [|[[k' t'] v'] l IH]; intros k t v n Hm Hl Hn.
  all: destruct n as [|[|n]]; simpl in Hn; try lia; cbn [more_members].
  - rewrite app_nil_l_s. destruct Hpost as [Hw Hc]. destruct (Hc r) as (c & r' & E & Hcc).
    pose proof (Hw (String "}" r)) as Hs. rewrite E in Hs |- *.
    rewrite (p_member_step _ _ _ _ _ v) by (done || tauto). rewrite Hs. done.
  - unfold comma. rewrite !app_assoc_s, app_cons_s, app_nil_l_s.
    rewrite (p_member_step _ _ _ _ _ v) by (done || by left).
    change (skip_ws (String "," ?x)) with (String "," x). cbv iota.
    change (byte_Z "," =? 125) with false. change (byte_Z "," =? 44) with true. cbv iota.
    apply Forall_cons in Hl as [Hm' Hl]. rewrite white_key by done.
    rewrite (IH k' t' v') by (done || lia). done.
Qed.

Lemma length_more_members l : (length l ≤ String.length (more_members pre sp l))%nat.
Proof.
  induction l as [|[[k t] v] l IH]; [done|]. cbn [more_members length].
  rewrite !length_app_s. change (String.length comma) with 1%nat. lia.
Qed.

Lemma parse_object m l : Forall member_ok (m :: l) →
  parse_json (object_text pre sp post (m :: l)) = Some (JObj (member_values (m :: l))).
Proof.
  destruct m as [[k t] v]. intros [Hm Hl]%Forall_cons. cbn [object_text]. unfold parse_json.
  set (body := json_key k +:+ sp +:+ t +:+ more_members pre sp l +:+ post +:+ "}").
  change ("{" +:+ ?x) with (String "{" x).
  change (skip_ws (String "{" ?x)) with (String "{" x).
  assert (Hlen : (length l + 2 ≤ String.length (String "{" (pre +:+ body)))%nat).
  { unfold body. pose proof (length_more_members l). len_lia. }
  assert (Hp : p_members (String.length (String "{" (pre +:+ body))) 1 body =
               Some ((k, v) :: member_values l, EmptyString)).
  { unfold body. by apply p_members_text. }
  assert (Hb : ∃ b, body = String quote b) by (unfold body, json_key; eexists; by rewrite !app_cons_s).
  destruct Hb as [b Hb].
  remember (String.length (String "{" (pre +:+ body))) as n. cbn [p_value].
  change (byte_Z "{" =? 34) with false. change (byte_Z "{" =? 123) with true. cbv iota.
  change (max_depth <? 0 + 1) with false. cbv iota. change (0 + 1) with 1.
  assert (skip_ws (pre +:+ body) = body) as -> by (unfold body; by apply white_key).
  rewrite Hb in Hp |- *. change (byte_Z quote =? 125) with false. cbv iota.
  rewrite Hp. done.
Qed.

Lemma more_members_app l l' :
  more_members pre sp (l ++ l') = more_members pre sp l +:+ more_members pre sp l'.
Proof.
  induction l as [|[[k t] v] l IH]; [done|]. cbn [app more_members].
  by rewrite IH, !app_assoc_s.
Qed.

End Object.

Lemma marshal_time_Some t ts : marshal_time t = Some ts ↔
  in_year_range t ∧ ts = String quote (formatRFC3339Nano t) +:+ String quote EmptyString.
Proof.
  unfold marshal_time, in_year_range. destruct (andb _ _) eqn:E.
  - rewrite andb_true_iff, Z.leb_le, Z.ltb_lt in E. split; [by intros [= <-]|by intros [_ ->]].
  - split; [done|]. intros [H _]. rewrite andb_false_iff, Z.leb_gt, Z.ltb_ge in E. lia.
Qed.

Lemma dec_string_enc s : dec_string (JStr (enc_str s)) = Some (Some (to_valid s)).
Proof. cbn [dec_string]. by rewrite unquote_enc_str. Qed.

Lemma dec_time_format t : in_year_range t →
  dec_time (JStr (formatRFC3339Nano t)) = Some (Some t).
Proof. intros H. cbn [dec_time]. by rewrite parse_format. Qed.

(** The assignment of one member whose key is a field's name. *)
Lemma set_members_cons {R} fields k v l (r r' : R) :
  unquote k = Some k → set_field fields k v r = Some r' →
  set_members fields ((k, v) :: l) r = set_members fields l r'.
Proof. intros Hk Hf. cbn [set_members]. rewrite Hk. cbn [mbind option_bind]. by rewrite Hf. Qed.
