(* ===== verification/JsonTree.v ===== *)
(** * JSON values as the program writes them

    [json.Marshal] and [json.MarshalIndent] of nested values: the text of a
    value, and that it is parsed back whatever its nesting. *)

From S2P Require Import Prelude GoStrings GoTime Json JsonObject.

Open Scope Z_scope.

(** ** The text of a value *)

Section Text.
(** Whether the text is indented, by two spaces a level. *)
Context (indent : bool).

Fixpoint spaces (n : nat) : string :=
  match n with O => EmptyString | S n => "  " +:+ spaces n end.

Definition newline : ascii := "010".

Definition break (level : nat) : string :=
  if indent then String newline (spaces level) else EmptyString.

Definition after_colon : string := if indent then " " else EmptyString.

Fixpoint json_text (level : nat) (v : json) : string :=
  match v with
  | JNull => "null"
  | JBool b => if b then "true" else "false"
  | JNum raw => raw
  | JStr raw => String quote (raw +:+ String quote EmptyString)
  | JArr [] => "[]"
  | JArr (v :: l) =>
      "[" +:+ break (S level) +:+ json_text (S level) v +:+
      (fix more l := match l with
        | [] => break level +:+ "]"
        | v :: l => "," +:+ break (S level) +:+ json_text (S level) v +:+ more l
        end) l
  | JObj [] => "{}"
  | JObj ((k, v) :: l) =>
      "{" +:+ break (S level) +:+ json_key k +:+ after_colon +:+ json_text (S level) v +:+
      (fix more l := match l with
        | [] => break level +:+ "}"
        | (k, v) :: l => "," +:+ break (S level) +:+ json_key k +:+ after_colon +:+ json_text (S level) v +:+ more l
        end) l
  end.

(** The texts of the elements and members after the first. *)
Fixpoint more_elems (level : nat) (l : list json) : string :=
  match l with
  | [] => break level +:+ "]"
  | v :: l => "," +:+ break (S level) +:+ json_text (S level) v +:+ more_elems level l
  end.

Fixpoint more_pairs (level : nat) (l : list (string * json)) : string :=
  match l with
  | [] => break level +:+ "}"
  | (k, v) :: l => "," +:+ break (S level) +:+ json_key k +:+ after_colon +:+ json_text (S level) v +:+ more_pairs level l
  end.

Lemma json_text_arr level v l :
  json_text level (JArr (v :: l)) = "[" +:+ break (S level) +:+ json_text (S level) v +:+ more_elems level l.
Proof. cbn [json_text]. do 3 f_equal. induction l as [|v' l IH]; [done|]. cbn [more_elems]. by rewrite <- IH. Qed.

Lemma json_text_obj level k v l :
  json_text level (JObj ((k, v) :: l)) =
  "{" +:+ break (S level) +:+ json_key k +:+ after_colon +:+ json_text (S level) v +:+ more_pairs level l.
Proof. cbn [json_text]. do 5 f_equal. induction l as [|[k' v'] l IH]; [done|]. cbn [more_pairs]. by rewrite <- IH. Qed.

End Text.

(** ** Values that have a text *)

(** The bytes a value may be followed by. *)
Definition ends (c : ascii) : bool :=
  let z := byte_Z c in (z =? 44) || (z =? 125) || (z =? 93) || (z =? 10).

(** Raw strings and numbers in UTF-8 that are scanned as they stand. *)
Definition raw_str (raw : string) : Prop :=
  utf8_valid raw = true ∧ ∀ r, scan_str (raw +:+ String quote r) = Some (raw, r).
Definition raw_num (raw : string) : Prop :=
  utf8_valid raw = true ∧ ∀ n d c r, ends c = true → p_value (S n) d (raw +:+ String c r) = Some (JNum raw, String c r) ∧
    skip_ws (raw +:+ String c r) = raw +:+ String c r.

Inductive written_json : Z → json → Prop :=
  | w_null d : written_json d JNull
  | w_bool d b : written_json d (JBool b)
  | w_num d raw : raw_num raw → written_json d (JNum raw)
  | w_str d raw : raw_str raw → written_json d (JStr raw)
  | w_arr d l : d < max_depth → Forall (written_json (d + 1)) l → written_json d (JArr l)
  | w_obj d l : d < max_depth → Forall (λ m, raw_str m.1 ∧ written_json (d + 1) m.2) l → written_json d (JObj l).

(** The fuel a value takes. *)
Fixpoint json_size (v : json) : nat :=
  match v with
  | JArr l => S (list_sum (map (λ v, S (json_size v)) l))
  | JObj l => S (list_sum (map (λ m, S (json_size m.2)) l))
  | _ => 1
  end.

Lemma json_size_pos v : (0 < json_size v)%nat.
Proof. destruct v; cbn; lia. Qed.

(** ** Parsing what was written *)

Lemma skip_spaces n r : skip_ws (spaces n +:+ r) = skip_ws r.
Proof. induction n as [|n IH]; [done|]. cbn [spaces]. rewrite app_assoc_s. exact IH. Qed.

Lemma skip_break indent level r : skip_ws (break indent level +:+ r) = skip_ws r.
Proof. unfold break. destruct indent; [|done]. rewrite app_cons_s. cbn [skip_ws]. apply skip_spaces. Qed.

Lemma skip_after_colon indent r : skip_ws (after_colon indent +:+ r) = skip_ws r.
Proof. by destruct indent. Qed.

Lemma written_starts indent level d v c r : written_json d v → ends c = true →
  skip_ws (json_text indent level v +:+ String c r) = json_text indent level v +:+ String c r.
Proof.
  intros Hv Hc. destruct Hv as [d|d b|d raw Hraw|d raw Hraw|d l _ _|d l _ _]; try done.
  - by destruct b.
  - by destruct (proj2 Hraw 0%nat 0 c r Hc).
  - by destruct l.
  - by destruct l as [|[k v] l].
Qed.

(** What follows a value begins with a byte that ends it. *)
Lemma break_ends indent level a r : ends a = true →
  ∃ c r', break indent level +:+ String a r = String c r' ∧ ends c = true.
Proof.
  intros Ha. unfold break. destruct indent; [|by exists a, r]. rewrite app_cons_s.
  by exists newline, (spaces level +:+ String a r).
Qed.

Section Parse.
Context (indent : bool).
Local Notation text := (json_text indent).

(** A closing bracket is not a value. *)
Lemma not_value n d a t : byte_Z a = 93 → p_value n d (String a t) = None.
Proof.
  intros Ha. destruct n as [|n]; [done|]. cbn [p_value]. rewrite Ha. cbn.
  unfold p_number. rewrite Ha. cbn. unfold p_digits1. cbn [span_digits]. unfold is_digit. by rewrite Ha.
Qed.

(** A value is parsed with enough fuel. *)
Definition parsed (v : json) : Prop := ∀ level n d c r,
  written_json d v → (json_size v ≤ n)%nat → ends c = true →
  p_value n d (text level v +:+ String c r) = Some (v, String c r).

Lemma more_elems_ends level l r : ∃ c r', more_elems indent level l +:+ r = String c r' ∧ ends c = true.
Proof.
  destruct l as [|v l]; cbn [more_elems]; rewrite !app_assoc_s.
  - by apply break_ends.
  - by eexists _, _.
Qed.

Lemma more_pairs_ends level l r : ∃ c r', more_pairs indent level l +:+ r = String c r' ∧ ends c = true.
Proof.
  destruct l as [|[k v] l]; cbn [more_pairs]; rewrite !app_assoc_s.
  - by apply break_ends.
  - by eexists _, _.
Qed.

(** The elements from the first one on. *)
Lemma p_elems_text level v l n d r :
  Forall parsed (v :: l) → Forall (written_json d) (v :: l) →
  (list_sum (map (λ v, S (json_size v)) (v :: l)) ≤ n)%nat →
  p_elems n d (text (S level) v +:+ more_elems indent level l +:+ r) = Some (v :: l, r).
Proof.
  revert v n. induction l as [|v' l IH]; intros v n Hp Hw Hn;
    apply Forall_cons in Hp as [Hpv Hp]; apply Forall_cons in Hw as [Hwv Hw];
    (destruct n as [|n]; [cbn in Hn; lia|]); cbn [p_elems]; cbn [map list_sum foldr] in Hn.
  - destruct (more_elems_ends level [] r) as (c & r' & E & Hc). pose proof E as E'.
    rewrite E, (Hpv (S level) n d c r' Hwv ltac:(lia) Hc). cbn [mbind option_bind].
    rewrite <- E'. cbn [more_elems]. by rewrite app_assoc_s, skip_break.
  - destruct (more_elems_ends level (v' :: l) r) as (c & r' & E & Hc). pose proof E as E'.
    rewrite E, (Hpv (S level) n d c r' Hwv ltac:(lia) Hc). cbn [mbind option_bind].
    rewrite <- E'. cbn [more_elems]. rewrite !app_assoc_s, app_cons_s.
    change (skip_ws (String "," ?x)) with (String "," x). cbv iota.
    change (byte_Z "," =? 93) with false. change (byte_Z "," =? 44) with true. cbv iota.
    rewrite app_nil_l_s, skip_break.
    destruct (more_elems_ends level l r) as (c2 & r2 & E2 & Hc2).
    apply Forall_cons in Hw as [Hw1 Hw2]. rewrite E2, (written_starts indent (S level) d v' c2 r2) by done.
    rewrite <- E2, IH; [done|done|by constructor|]. cbn [map list_sum foldr]. lia.
Qed.

(** A member is parsed up to the value that follows [l]. *)
Ltac member_step indent level l r d n v Hpv Hwv Hk :=
  let c := fresh "c" in let r' := fresh "r" in let E := fresh "E" in let E' := fresh "E" in let Hc := fresh "Hc" in
  destruct (more_pairs_ends level l r) as (c & r' & E & Hc); pose proof E as E'; rewrite E;
  unfold json_key at 1; rewrite !app_assoc_s, !app_cons_s, !app_nil_l_s; cbn [p_members];
  change (byte_Z quote =? 34) with true; cbv iota; rewrite (proj2 Hk); cbn [mbind option_bind];
  change (skip_ws (String ":" ?x)) with (String ":" x); cbv iota;
  change (byte_Z ":"%char =? 58) with true; cbv iota;
  rewrite skip_after_colon, (written_starts indent (S level) d v c r') by done;
  rewrite (Hpv (S level) n d c r' Hwv ltac:(lia) Hc); cbn [mbind option_bind]; rewrite <- E'; cbn [more_pairs].

(** The members from the first one on. *)
Lemma p_pairs_text level k v l n d r :
  Forall (λ m, parsed m.2) ((k, v) :: l) → Forall (λ m, raw_str m.1 ∧ written_json d m.2) ((k, v) :: l) →
  (list_sum (map (λ m, S (json_size m.2)) ((k, v) :: l)) ≤ n)%nat →
  p_members n d (json_key k +:+ after_colon indent +:+ text (S level) v +:+ more_pairs indent level l +:+ r) =
  Some ((k, v) :: l, r).
Proof.
  revert k v n. induction l as [|[k' v'] l IH]; intros k v n Hp Hw Hn;
    apply Forall_cons in Hp as [Hpv Hp]; apply Forall_cons in Hw as [[Hk Hwv] Hw];
    (destruct n as [|n]; [cbn in Hn; lia|]); cbn [map list_sum foldr snd fst] in *.
  - member_step indent level (@nil (string * json)) r d n v Hpv Hwv Hk. by rewrite app_assoc_s, skip_break.
  - member_step indent level ((k', v') :: l) r d n v Hpv Hwv Hk. rewrite !app_assoc_s, app_cons_s.
    change (skip_ws (String "," ?x)) with (String "," x). cbv iota.
    change (byte_Z "," =? 125) with false. change (byte_Z "," =? 44) with true. cbv iota.
    rewrite app_nil_l_s, skip_break.
    assert (∀ x, skip_ws (json_key k' +:+ x) = json_key k' +:+ x) as -> by done.
    rewrite IH; [done|done|done|]. cbn [map list_sum foldr snd]. lia.
Qed.

(** An array or an object ends by itself. *)
Lemma p_arr_text level l n d r : Forall parsed l → Forall (written_json (d + 1)) l → d < max_depth →
  (json_size (JArr l) ≤ n)%nat → p_value n d (text level (JArr l) +:+ r) = Some (JArr l, r).
Proof.
  intros Hp Hl Hd Hn. destruct n as [|n]; [cbn in Hn; lia|]. destruct l as [|v l].
  { cbn [json_text]. cbn. by rewrite (proj2 (Z.ltb_ge max_depth (d + 1))) by lia. }
  pose proof (p_elems_text level v l n (d + 1) r Hp Hl ltac:(cbn [json_size] in Hn; lia)) as HE.
  rewrite json_text_arr, !app_assoc_s, app_cons_s, app_nil_l_s. cbn [p_value].
  change (byte_Z "[" =? 34) with false. change (byte_Z "[" =? 123) with false. change (byte_Z "[" =? 91) with true.
  cbv iota. rewrite (proj2 (Z.ltb_ge max_depth (d + 1))) by lia.
  apply Forall_cons in Hl as [Hv _]. destruct (more_elems_ends level l r) as (c2 & r2 & E2 & Hc2).
  rewrite E2 in HE |- *. rewrite skip_break, (written_starts indent (S level) (d + 1) v c2 r2) by done.
  destruct (text (S level) v +:+ String c2 r2) as [|a t]; [by destruct n as [|[|n]]|].
  destruct (Z.eqb_spec (byte_Z a) 93) as [Ha|]; [|by rewrite HE].
  destruct n as [|n]; [done|]. cbn [p_elems] in HE. by rewrite not_value in HE.
Qed.

Lemma p_obj_text level l n d r : Forall (λ m, parsed m.2) l →
  Forall (λ m, raw_str m.1 ∧ written_json (d + 1) m.2) l → d < max_depth →
  (json_size (JObj l) ≤ n)%nat → p_value n d (text level (JObj l) +:+ r) = Some (JObj l, r).
Proof.
  intros Hp Hl Hd Hn. destruct n as [|n]; [cbn in Hn; lia|]. destruct l as [|[k v] l].
  { cbn [json_text]. cbn. by rewrite (proj2 (Z.ltb_ge max_depth (d + 1))) by lia. }
  pose proof (p_pairs_text level k v l n (d + 1) r Hp Hl ltac:(cbn [json_size] in Hn; lia)) as HE.
  rewrite json_text_obj, !app_assoc_s, app_cons_s, app_nil_l_s. cbn [p_value].
  change (byte_Z "{" =? 34) with false. change (byte_Z "{" =? 123) with true.
  cbv iota. rewrite (proj2 (Z.ltb_ge max_depth (d + 1))) by lia. rewrite skip_break.
  assert (∀ x, skip_ws (json_key k +:+ x) = json_key k +:+ x) as -> by done.
  unfold json_key in HE |- *. rewrite !app_assoc_s, !app_cons_s in HE |- *.
  change (byte_Z quote =? 125) with false. cbv iota. by rewrite HE.
Qed.

Lemma size_elem {A} (f : A → json) l x : x ∈ l → (json_size (f x) < S (list_sum (map (λ m, S (json_size (f m))) l)))%nat.
Proof. intros (l1 & l2 & ->)%list_elem_of_split. rewrite map_app, list_sum_app. cbn. lia. Qed.

Lemma parsed_all v : parsed v.
Proof.
  remember (json_size v) as m eqn:Em. revert v Em. induction (lt_wf m) as [m _ IH]. intros v -> level n d c r Hw Hn Hc.
  destruct Hw as [d|d b|d raw Hraw|d raw Hraw|d l Hd Hl|d l Hd Hl]; try (destruct n as [|n]; [cbn in Hn; lia|]).
  - done.
  - by destruct b.
  - by apply (proj2 Hraw).
  - cbn [json_text]. rewrite !app_cons_s, app_assoc_s, app_cons_s, app_nil_l_s. cbn [p_value].
    change (byte_Z quote =? 34) with true. cbv iota. by rewrite (proj2 Hraw).
  - apply p_arr_text; [|done..]. apply Forall_forall. intros x Hx. eapply IH; [|done]. by apply (size_elem id).
  - apply p_obj_text; [|done..]. apply Forall_forall. intros x Hx. eapply IH; [|done]. by apply (size_elem snd).
Qed.

(** The fuel of [parse_json] is enough. *)
Lemma more_text {A} (f : A → json) (txt : A → nat) (more : list A → nat) l :
  (0 < more [])%nat → (∀ x l, x ∈ x :: l → (1 + txt x + more l ≤ more (x :: l)))%nat →
  (∀ x, x ∈ l → (json_size (f x) ≤ txt x)%nat) →
  (S (list_sum (map (λ m, S (json_size (f m))) l)) ≤ more l)%nat.
Proof.
  intros H0 Hc. induction l as [|x l IH]; intros Hl; cbn; [lia|].
  specialize (IH ltac:(intros; apply Hl; by right)). pose proof (Hl x ltac:(by left)).
  specialize (Hc x l ltac:(by left)). unfold list_sum in IH. lia.
Qed.

Lemma length_text v level d : written_json d v → (json_size v ≤ String.length (text level v))%nat.
Proof.
  remember (json_size v) as m eqn:Em. revert v level d Em. induction (lt_wf m) as [m _ IH]. intros v level d -> Hw.
  destruct Hw as [d|d b|d raw Hraw|d raw Hraw|d l Hd Hl|d l Hd Hl].
  - cbn. lia.
  - destruct b; cbn; lia.
  - cbn. destruct raw; [|cbn; lia]. by destruct (proj2 Hraw 0%nat 0 ","%char EmptyString eq_refl).
  - cbn. lia.
  - destruct l as [|v l]; [cbn; lia|]. rewrite json_text_arr.
    apply (more_text id (λ x, String.length (text (S level) x))
      (λ l, match l with [] => 1 | v :: l => String.length ("[" +:+ break indent (S level) +:+ text (S level) v +:+ more_elems indent level l) end)%nat (v :: l)).
    + lia.
    + intros x [|y k] _; cbn [more_elems]; rewrite !length_app_s; cbn [String.length]; lia.
    + intros x Hx. rewrite Forall_forall in Hl. eapply IH; [|done|by apply Hl]. by apply (size_elem id).
  - destruct l as [|[k v] l]; [cbn; lia|]. rewrite json_text_obj.
    apply (more_text snd (λ x, String.length (text (S level) x.2))
      (λ l, match l with [] => 1 | (k, v) :: l => String.length ("{" +:+ break indent (S level) +:+ json_key k +:+ after_colon indent +:+ text (S level) v +:+ more_pairs indent level l) end)%nat ((k, v) :: l)).
    + lia.
    + intros [x1 x2] [|[y1 y2] k'] _; cbn [more_pairs snd]; rewrite !length_app_s; cbn [String.length]; lia.
    + intros x Hx. rewrite Forall_forall in Hl. eapply IH; [|done|by apply Hl]. by apply (size_elem snd).
Qed.

(** What was written is parsed back, whatever white space follows. *)
Lemma parse_object_text l w : written_json 0 (JObj l) → skip_ws w = EmptyString →
  parse_json (text 0 (JObj l) +:+ w) = Some (JObj l).
Proof.
  intros Hw Hws. unfold parse_json. pose proof (length_text _ 0 0 Hw) as Hn.
  assert (skip_ws (text 0 (JObj l) +:+ w) = text 0 (JObj l) +:+ w) as -> by (by destruct l as [|[k v] l]).
  inversion Hw as [| | | | |? ? Hd Hl]; subst. rewrite p_obj_text; [by cbn; rewrite Hws| |done|done|rewrite length_app_s; lia].
  apply Forall_forall. intros x _. apply parsed_all.
Qed.

End Parse.

(** ** UTF-8 *)

(** A text of whole sequences: what follows it does not matter. *)
Definition clean (s : string) : Prop := ∀ t, to_valid (s +:+ t) = s +:+ to_valid t.

Lemma clean_nil : clean EmptyString.
Proof. done. Qed.

Lemma clean_app s t : clean s → clean t → clean (s +:+ t).
Proof. intros Hs Ht u. by rewrite !app_assoc_s, Hs, Ht. Qed.

Lemma clean_ascii s : all_bytes rune1 s = true → clean s.
Proof.
  intros Hs t. induction s as [|a s IH]; [done|]. cbn [all_bytes] in Hs. apply andb_true_iff in Hs as [Ha Hs].
  rewrite !app_cons_s. cbn [to_valid]. by rewrite Ha, IH.
Qed.

Lemma clean_utf8 s : clean s → utf8_valid s = true.
Proof. intros H. apply utf8_valid_eq. specialize (H EmptyString). by rewrite !app_nil_r_s in H. Qed.

Lemma utf8_clean s : utf8_valid s = true → clean s.
Proof.
  rewrite utf8_valid_eq. intros Hs t.
  induction s as [|a s H1 IH|a b s H1 H2 IH|a b c s H1 H2 H3 IH|a b c d s H1 H2 H3 H4 IH|a s Hb IH]
    using rune_ind; [done| | | | |]; rewrite ?app_cons_s.
  - cbn [to_valid] in Hs |- *. rewrite H1 in Hs |- *. injection Hs as Hs. by rewrite IH.
  - cbn [to_valid] in Hs |- *. rewrite H1, H2 in Hs |- *. injection Hs as Hs. by rewrite IH.
  - cbn [to_valid] in Hs |- *. rewrite H1, H2, H3 in Hs |- *. injection Hs as Hs. by rewrite IH.
  - cbn [to_valid] in Hs |- *. rewrite H1, H2, H3, H4 in Hs |- *. injection Hs as Hs. by rewrite IH.
  - rewrite to_valid_bad in Hs by done. unfold replacement in Hs. rewrite !app_cons_s in Hs.
    destruct s as [|b [|c s]]; try done. injection Hs as <- <- <- _. done.
Qed.

Lemma clean_rune2 a b : rune1 a = false → rune2 a b = true → clean (String a (String b EmptyString)).
Proof. intros H1 H2 t. rewrite !app_cons_s. cbn [to_valid]. by rewrite H1, H2. Qed.

Lemma clean_enc_str s : clean (enc_str s).
Proof.
  induction s as [|a s H1 IH|a b s H1 H2 IH|a b c s H1 H2 H3 IH|a b c d s H1 H2 H3 H4 IH|a s Hb IH]
    using rune_ind; [done| | | | |].
  - cbn [enc_str]. rewrite H1. apply clean_app; [|done]. apply clean_ascii. by each_byte a.
  - cbn [enc_str]. rewrite H1, H2. intros t. rewrite !app_cons_s. cbn [to_valid]. by rewrite H1, H2, IH.
  - cbn [enc_str]. rewrite H1, H2, H3. apply clean_app; [|done]. unfold enc_rune3. destruct (line_sep a b c).
    + apply clean_ascii. by each_byte c.
    + intros t. rewrite !app_cons_s. cbn [to_valid]. by rewrite H1, H2, H3.
  - cbn [enc_str]. rewrite H1, H2, H3, H4. intros t. rewrite !app_cons_s. cbn [to_valid]. by rewrite H1, H2, H3, H4, IH.
  - rewrite enc_str_bad by done. apply clean_app; [|done]. by apply clean_ascii.
Qed.

Lemma utf8_enc_str s : utf8_valid (enc_str s) = true.
Proof. apply clean_utf8, clean_enc_str. Qed.

Lemma clean_break indent level : clean (break indent level).
Proof.
  apply clean_ascii. unfold break. destruct indent; [|done]. cbn [all_bytes].
  induction level as [|level IH]; [done|]. exact IH.
Qed.

Lemma clean_key k : raw_str k → clean (json_key k).
Proof. intros [Hk _]. change (clean (String quote EmptyString +:+ (k +:+ (String quote ":")))).
  apply clean_app; [by apply clean_ascii|]. apply clean_app; [by apply utf8_clean|by apply clean_ascii].
Qed.

Lemma clean_after_colon indent : clean (after_colon indent).
Proof. apply clean_ascii. by destruct indent. Qed.

(** The whole text is UTF-8. *)
Lemma clean_text indent level v d : written_json d v → clean (json_text indent level v).
Proof.
  remember (json_size v) as m eqn:Em. revert v level d Em. induction (lt_wf m) as [m _ IH]. intros v level d -> Hw.
  destruct Hw as [d|d b|d raw [Hraw _]|d raw [Hraw _]|d l Hd Hl|d l Hd Hl].
  - by apply clean_ascii.
  - apply clean_ascii. by destruct b.
  - by apply utf8_clean.
  - cbn [json_text]. change (clean (String quote EmptyString +:+ (raw +:+ String quote EmptyString))).
    repeat apply clean_app; try (by apply clean_ascii). by apply utf8_clean.
  - assert (Hone : ∀ x, x ∈ l → clean (json_text indent (S level) x)).
    { intros x Hx. rewrite Forall_forall in Hl. eapply IH; [|done|by apply Hl]. by apply (size_elem id). }
    clear IH Hl. destruct l as [|v l]; [by apply clean_ascii|]. rewrite json_text_arr.
    assert (Hmore : clean (more_elems indent level l)).
    { assert (Hl : ∀ x, x ∈ l → clean (json_text indent (S level) x)) by (intros; apply Hone; by right).
      clear Hone. induction l as [|x l IHl]; cbn [more_elems].
      - apply clean_app; [apply clean_break|by apply clean_ascii].
      - apply clean_app; [by apply clean_ascii|]. apply clean_app; [apply clean_break|].
        apply clean_app; [apply Hl; by left|]. apply IHl. intros; apply Hl; by right. }
    apply clean_app; [by apply clean_ascii|]. apply clean_app; [apply clean_break|].
    apply clean_app; [apply Hone; by left|done].
  - assert (Hone : ∀ x, x ∈ l → clean (json_text indent (S level) x.2) ∧ raw_str x.1).
    { intros x Hx. rewrite Forall_forall in Hl. destruct (Hl x Hx) as [Hk Hv]. split; [|done].
      eapply IH; [|done|exact Hv]. by apply (size_elem snd). }
    clear IH Hl. destruct l as [|[k v] l]; [by apply clean_ascii|]. rewrite json_text_obj.
    assert (Hmore : clean (more_pairs indent level l)).
    { assert (Hl : ∀ x, x ∈ l → clean (json_text indent (S level) x.2) ∧ raw_str x.1) by (intros; apply Hone; by right).
      clear Hone. induction l as [|[y x] l IHl]; cbn [more_pairs].
      - apply clean_app; [apply clean_break|by apply clean_ascii].
      - destruct (Hl (y, x) ltac:(by left)). apply clean_app; [by apply clean_ascii|]. apply clean_app; [apply clean_break|].
        apply clean_app; [by apply clean_key|]. apply clean_app; [apply clean_after_colon|].
        apply clean_app; [done|]. apply IHl. intros; apply Hl; by right. }
    destruct (Hone (k, v) ltac:(by left)). apply clean_app; [by apply clean_ascii|]. apply clean_app; [apply clean_break|].
    apply clean_app; [by apply clean_key|]. apply clean_app; [apply clean_after_colon|]. by apply clean_app.
Qed.

(** ** Raw texts *)

Lemma raw_enc s : raw_str (enc_str s).
Proof. split; [apply utf8_enc_str|]. intros r. apply scan_enc_str. Qed.

Lemma raw_plain s : all_bytes rune1 s = true → plain s = true → raw_str s.
Proof. intros Ha H. split; [by apply utf8_valid_eq, to_valid_ascii|]. intros r. by apply scan_plain_str. Qed.

(** The digits of a number up to what ends it. *)
Lemma span_digits_ends s c r : all_bytes is_digit s = true → ends c = true →
  span_digits (s +:+ String c r) = (s, String c r).
Proof.
  intros Hs Hc. assert (Hd : is_digit c = false).
  { unfold ends in Hc. unfold is_digit. destruct (Z.leb_spec 48 (byte_Z c)), (Z.leb_spec (byte_Z c) 57); try done.
    rewrite !orb_true_iff, !Z.eqb_eq in Hc. lia. }
  induction s as [|a s IH]; cbn [all_bytes] in Hs.
  - rewrite app_nil_l_s. cbn [span_digits]. by rewrite Hd.
  - apply andb_true_iff in Hs as [Ha Hs]. rewrite app_cons_s. cbn [span_digits]. by rewrite Ha, IH.
Qed.

Lemma ends_number c :
  ends c = true → is_digit c = false ∧ (byte_Z c =? 46) = false ∧ ((byte_Z c =? 101) || (byte_Z c =? 69)) = false.
Proof.
  unfold ends, is_digit. rewrite !orb_true_iff, !Z.eqb_eq. intros Hc.
  rewrite andb_false_iff, orb_false_iff, !Z.eqb_neq, !Z.leb_gt. lia.
Qed.

(** An unsigned decimal that does not begin with a zero. *)
Lemma p_number_digits a s c r : is_digit a = true → (byte_Z a =? 48) = false → all_bytes is_digit s = true →
  ends c = true → p_number (String a s +:+ String c r) = Some (String a s, String c r).
Proof.
  intros Ha H0 Hs Hc. destruct (ends_number c Hc) as (_ & H46 & He). unfold p_number. rewrite app_cons_s.
  assert (byte_Z a =? 45 = false) as ->.
  { unfold is_digit in Ha. apply andb_true_iff in Ha as [?%Z.leb_le _]. apply Z.eqb_neq. lia. }
  rewrite H0. unfold p_digits1. rewrite <- app_cons_s, span_digits_ends by (try done; cbn [all_bytes]; by rewrite Ha).
  cbn [mbind option_bind]. rewrite H46. cbn [mbind option_bind]. rewrite He. cbn [mbind option_bind]. by rewrite !app_nil_l_s, !app_nil_r_s.
Qed.

Lemma p_value_number n d a t raw r : p_number (String a t) = Some (raw, r) →
  (byte_Z a = 45 ∨ is_digit a = true) → p_value (S n) d (String a t) = Some (JNum raw, r).
Proof.
  intros Hp Ha. cbn [p_value].
  assert (45 ≤ byte_Z a ≤ 57).
  { destruct Ha as [|Ha]; [lia|]. unfold is_digit in Ha. apply andb_true_iff in Ha as [?%Z.leb_le ?%Z.leb_le]. lia. }
  rewrite !(proj2 (Z.eqb_neq (byte_Z a) _)) by lia. by rewrite Hp.
Qed.

(** Integers are written in a form that is read back. *)
Lemma raw_Itoa z : raw_num (Itoa z).
Proof.
  split.
  { apply clean_utf8, clean_ascii. eapply all_bytes_impl; [|apply Itoa_graphic]. intros a. unfold graphic, rune1.
    rewrite andb_true_iff, Z.leb_le, Z.leb_le, Z.ltb_lt. lia. }
  assert (Hd : ∀ n, ∃ a t, Itoa (Z.pos n) = String a t ∧ is_digit a = true ∧ (byte_Z a =? 48) = false ∧ all_bytes is_digit t = true).
  { intros n. pose proof (Itoa_digits (Z.pos n) ltac:(lia)) as Hn. pose proof (Itoa_head n) as H0.
    destruct (Itoa (Z.pos n)) as [|a t]; [done|]. cbn [all_bytes] in Hn. apply andb_true_iff in Hn as [Ha Ht]. by exists a, t. }
  intros n d c r Hc. destruct z as [|p|p].
  - change (Itoa 0) with "0". rewrite app_cons_s, app_nil_l_s. split; [|done]. apply p_value_number; [|by right].
    destruct (ends_number c Hc) as (_ & H46 & He). unfold p_number.
    change (byte_Z "0" =? 45) with false. cbv iota. change (byte_Z "0" =? 48) with true. cbv iota. cbn [mbind option_bind].
    rewrite H46. cbn [mbind option_bind]. by rewrite He.
  - destruct (Hd p) as (a & t & -> & Ha & H0 & Ht). split.
    + rewrite app_cons_s. apply p_value_number; [|by right]. rewrite <- app_cons_s. by apply p_number_digits.
    + rewrite app_cons_s. cbn [skip_ws]. unfold is_ws. unfold is_digit in Ha.
      apply andb_true_iff in Ha as [?%Z.leb_le ?%Z.leb_le]. by rewrite !(proj2 (Z.eqb_neq (byte_Z a) _)) by lia.
  - change (Itoa (Z.neg p)) with (String "-" (Itoa (Z.pos p))). split; [|done].
    rewrite app_cons_s. apply p_value_number; [|by left].
    destruct (Hd p) as (a & t & E & Ha & H0 & Ht). rewrite E.
    pose proof (p_number_digits a t c r Ha H0 Ht Hc) as Hn. unfold p_number in Hn |- *.
    change (byte_Z "-" =? 45) with true. cbv iota. rewrite app_cons_s in Hn |- *.
    assert (byte_Z a =? 45 = false) as E45.
    { unfold is_digit in Ha. apply andb_true_iff in Ha as [?%Z.leb_le _]. apply Z.eqb_neq. lia. }
    rewrite E45, H0 in Hn. rewrite H0. destruct (p_digits1 (String a (t +:+ String c r))) as [[i r1]|]; [|done].
    cbn [mbind option_bind] in Hn |- *. destruct (match r1 with EmptyString => _ | _ => _ end) as [[f r2]|]; [|done].
    cbn [mbind option_bind] in Hn |- *. destruct (match r2 with EmptyString => _ | _ => _ end) as [[x r3]|]; [|done].
    cbn [mbind option_bind] in Hn |- *. injection Hn as Hx ->. rewrite app_nil_l_s in Hx. by rewrite Hx.
Qed.

(** ** Structs *)

(** A field written unless it is empty. *)
Lemma set_members_omit {R} (fields : list (string * (json → R → option R))) c k v l (r r' : R) :
  unquote k = Some k → set_field fields k v r = Some r' → (c = true → r' = r) →
  set_members fields ((if (c : bool) then [] else [(k, v)]) ++ l) r = set_members fields l r'.
Proof.
  intros Hk Hf He. destruct c; cbn [app]; [by rewrite He|]. by apply set_members_cons.
Qed.

(** The field a key selects. *)
Fixpoint field_index (names : list string) (key : string) : option nat :=
  match names with
  | [] => None
  | n :: names => if EqualFold key n then Some O else S <$> field_index names key
  end.

Lemma set_field_at {R} (fields : list (string * (json → R → option R))) key i name f v r :
  field_index (map fst fields) key = Some i → fields !! i = Some (name, f) → set_field fields key v r = f v r.
Proof.
  revert i. induction fields as [|[n g] fields IH]; intros i; [done|]. cbn [map fst field_index set_field].
  destruct (EqualFold key n); [by intros [= <-] [= -> ->]|].
  destruct (field_index (map fst fields) key) as [k|]; [|done]. intros [= <-]. by apply IH.
Qed.

(** Selects the field of the goal [set_field fields key v r = _]. *)
Ltac at_field :=
  lazymatch goal with
  | |- set_field ?fields ?key _ _ = _ =>
      let i := eval vm_compute in (field_index (map fst fields) key) in
      lazymatch i with
      | Some ?i => erewrite (set_field_at fields key i); [|vm_compute; reflexivity|reflexivity]; cbv beta
      end
  end.
