(* ===== verification/Protocol.v ===== *)
(** * The message protocol

    [internal/protocol]: the chat message, its validation, its JSON form, and
    the length-prefixed frames messages travel in. *)

From S2P Require Import Prelude GoStrings GoTime Json JsonObject.

Open Scope Z_scope.

(** ** Messages ([message.go]) *)

Definition MaxBodyLen : Z := 65536.
Definition MaxIDLen : Z := 256.
Definition MaxSenderIDLen : Z := 512.
Definition Version : Z := 1.

Definition TypeChat : string := "chat".
Definition TypeJoin : string := "join".
Definition TypeLeave : string := "leave".
Definition TypeSystem : string := "system".

Record Message : Type := mkMessage {
  msg_Version : Z;
  msg_ID : string;
  msg_Type : string;
  msg_SenderID : string;
  msg_RecipientID : string;
  msg_GroupID : string;
  msg_Timestamp : Time;
  msg_Body : string
}.

Definition zeroMessage : Message :=
  mkMessage 0 EmptyString EmptyString EmptyString EmptyString EmptyString zeroTime EmptyString.

#[global] Instance Message_eq_dec : EqDecision Message.
Proof. solve_decision. Defined.

Inductive message_error : Type :=
  | ErrInvalidJSON
  | ErrMissingRequired
  | ErrUnsupportedVersion (version : Z)
  | ErrUnknownType
  | ErrFieldTooLong (field : string) (limit : Z)
  | ErrMarshal.

#[global] Instance message_error_eq_dec : EqDecision message_error.
Proof. solve_decision. Defined.

(** [strings.TrimSpace(s) == ""]. *)
Definition blank (s : string) : bool := bool_decide (TrimSpace s = EmptyString).

Definition known_type (t : string) : bool :=
  bool_decide (t = TypeChat) || bool_decide (t = TypeJoin) ||
  bool_decide (t = TypeLeave) || bool_decide (t = TypeSystem).

Definition Validate (m : Message) : result message_error () :=
  if negb (msg_Version m =? Version) then Err (ErrUnsupportedVersion (msg_Version m)) else
  if blank (msg_ID m) || blank (msg_SenderID m) || blank (msg_Body m)
  then Err ErrMissingRequired else
  if negb (known_type (msg_Type m)) then Err ErrUnknownType else
  if IsZero (msg_Timestamp m) then Err ErrMissingRequired else
  if MaxIDLen <? slen (msg_ID m) then Err (ErrFieldTooLong "id" MaxIDLen) else
  if MaxSenderIDLen <? slen (msg_SenderID m)
  then Err (ErrFieldTooLong "sender_id" MaxSenderIDLen) else
  if MaxSenderIDLen <? slen (msg_RecipientID m)
  then Err (ErrFieldTooLong "recipient_id" MaxSenderIDLen) else
  if MaxSenderIDLen <? slen (msg_GroupID m)
  then Err (ErrFieldTooLong "group_id" MaxSenderIDLen) else
  if MaxBodyLen <? slen (msg_Body m) then Err (ErrFieldTooLong "body" MaxBodyLen) else
  Ok ().

(** A string field tagged [omitempty]. *)
Definition opt_member (name v : string) : string :=
  if bool_decide (v = EmptyString) then EmptyString
  else comma +:+ json_key name +:+ marshal_string v.

(** [json.Marshal(message)]. *)
Definition marshal_message_json (m : Message) : option string :=
  ts ← marshal_time (msg_Timestamp m);
  Some ("{" +:+ json_key "version" +:+ Itoa (msg_Version m) +:+
        comma +:+ json_key "id" +:+ marshal_string (msg_ID m) +:+
        comma +:+ json_key "type" +:+ marshal_string (msg_Type m) +:+
        comma +:+ json_key "sender_id" +:+ marshal_string (msg_SenderID m) +:+
        opt_member "recipient_id" (msg_RecipientID m) +:+
        opt_member "group_id" (msg_GroupID m) +:+
        comma +:+ json_key "timestamp" +:+ ts +:+
        comma +:+ json_key "body" +:+ marshal_string (msg_Body m) +:+ "}").

Definition MarshalMessage (m : Message) : result message_error string :=
  _ ← Validate m;
  from_option_err ErrMarshal (marshal_message_json m).

Definition set_Version v m := mkMessage v (msg_ID m) (msg_Type m) (msg_SenderID m)
  (msg_RecipientID m) (msg_GroupID m) (msg_Timestamp m) (msg_Body m).
Definition set_ID v m := mkMessage (msg_Version m) v (msg_Type m) (msg_SenderID m)
  (msg_RecipientID m) (msg_GroupID m) (msg_Timestamp m) (msg_Body m).
Definition set_Type v m := mkMessage (msg_Version m) (msg_ID m) v (msg_SenderID m)
  (msg_RecipientID m) (msg_GroupID m) (msg_Timestamp m) (msg_Body m).
Definition set_SenderID v m := mkMessage (msg_Version m) (msg_ID m) (msg_Type m) v
  (msg_RecipientID m) (msg_GroupID m) (msg_Timestamp m) (msg_Body m).
Definition set_RecipientID v m := mkMessage (msg_Version m) (msg_ID m) (msg_Type m)
  (msg_SenderID m) v (msg_GroupID m) (msg_Timestamp m) (msg_Body m).
Definition set_GroupID v m := mkMessage (msg_Version m) (msg_ID m) (msg_Type m)
  (msg_SenderID m) (msg_RecipientID m) v (msg_Timestamp m) (msg_Body m).
Definition set_Timestamp v m := mkMessage (msg_Version m) (msg_ID m) (msg_Type m)
  (msg_SenderID m) (msg_RecipientID m) (msg_GroupID m) v (msg_Body m).
Definition set_Body v m := mkMessage (msg_Version m) (msg_ID m) (msg_Type m)
  (msg_SenderID m) (msg_RecipientID m) (msg_GroupID m) (msg_Timestamp m) v.

(** The JSON names of the fields, from the struct's tags. *)
Definition message_fields : list (string * (json → Message → option Message)) :=
  [ ("version", λ v, assign set_Version (dec_int v));
    ("id", λ v, assign set_ID (dec_string v));
    ("type", λ v, assign set_Type (dec_string v));
    ("sender_id", λ v, assign set_SenderID (dec_string v));
    ("recipient_id", λ v, assign set_RecipientID (dec_string v));
    ("group_id", λ v, assign set_GroupID (dec_string v));
    ("timestamp", λ v, assign set_Timestamp (dec_time v));
    ("body", λ v, assign set_Body (dec_string v)) ].

Definition UnmarshalMessage (data : string) : result message_error Message :=
  m ← from_option_err ErrInvalidJSON (unmarshal_struct message_fields data zeroMessage);
  _ ← Validate m;
  Ok m.

(** [NewChatMessage] at the instant [now]; its [UnixNano] is the ID. *)
Definition unix_epoch : Z := 719162 * day.
Definition NewChatMessage (now : Time) (senderID recipientID groupID body : string) : Message :=
  mkMessage Version (Itoa (wrap64 (now - unix_epoch))) TypeChat senderID recipientID groupID now body.

(** ** Frames ([framing.go]) *)

Definition frameHeaderSize : nat := 4.
Definition MaxFrameSize : Z := 1048576.

(** [binary.BigEndian.PutUint32] of [uint32(n)], and [binary.BigEndian.Uint32]. *)
Definition put_uint32 (n : Z) : string :=
  String (Z_byte (n / 16777216)) (String (Z_byte (n / 65536))
    (String (Z_byte (n / 256)) (String (Z_byte n) EmptyString))).

Definition get_uint32 (s : string) : Z :=
  match s with
  | String a (String b (String c (String d _))) =>
      16777216 * byte_Z a + 65536 * byte_Z b + 256 * byte_Z c + byte_Z d
  | _ => 0
  end.

(** What a reader returns once the bytes are consumed: the end of the stream,
    or a network error. *)
Inductive read_error : Type := EOF | UnexpectedEOF | ReadFailed.

(** The bytes a connection delivers, and how it ends. *)
Record stream : Type := mkStream { s_bytes : string; s_end : read_error }.

(** [io.ReadFull(r, buf)] for a buffer of [n] bytes. *)
Definition ReadFull (n : nat) (r : stream) : result read_error string * stream :=
  let s := s_bytes r in
  if (n <=? String.length s)%nat then (Ok (take_s n s), mkStream (drop_s n s) (s_end r))
  else (match s_end r with
        | EOF => if bool_decide (s = EmptyString) then Err EOF else Err UnexpectedEOF
        | e => Err e
        end, mkStream EmptyString (s_end r)).

Inductive frame_error : Type :=
  | FrameRead (e : read_error)
  | FrameEmpty
  | ErrFrameTooLarge (declared : Z)
  | FrameMessage (e : message_error).

(** [FrameReader.ReadMessage], with the stream that is left. *)
Definition ReadMessage (r : stream) : result frame_error Message * stream :=
  match ReadFull frameHeaderSize r with
  | (Err e, r) => (Err (FrameRead e), r)
  | (Ok header, r) =>
      let length := get_uint32 header in
      if length =? 0 then (Err FrameEmpty, r)
      else if MaxFrameSize <? length then (Err (ErrFrameTooLarge length), r)
      else match ReadFull (Z.to_nat length) r with
           | (Err e, r) => (Err (FrameRead e), r)
           | (Ok payload, r) => (map_err FrameMessage (UnmarshalMessage payload), r)
           end
  end.

(** The contract of an [io.Writer]: [Write(p)] appends the first [n] bytes of
    [p] to what was written, and reports an error when it stops short. *)
Class Writer (W E : Type) := {
  write : W → string → W * nat * option E;
  written : W → string;
  write_count w p w' n e : write w p = (w', n, e) →
    (n ≤ String.length p)%nat ∧ written w' = written w +:+ take_s n p;
  write_short w p w' n e : write w p = (w', n, e) → (n < String.length p)%nat → e ≠ None
}.

Inductive write_outcome (E : Type) : Type := WriteDone | WriteFailed (e : E) | WriteStuck.
Arguments WriteDone {E}.
Arguments WriteFailed {E} e.
Arguments WriteStuck {E}.

Section FrameWriter.
Context {W E : Type} `{!Writer W E}.

(** [writeAll]: the loop over [Write]; [WriteStuck] is running out of fuel. *)
Fixpoint writeAll (fuel : nat) (w : W) (data : string) : W * write_outcome E :=
  match data with
  | EmptyString => (w, WriteDone)
  | _ =>
      match fuel with
      | O => (w, WriteStuck)
      | S fuel' =>
          match write w data with
          | (w', _, Some e) => (w', WriteFailed e)
          | (w', n, None) => writeAll fuel' w' (drop_s n data)
          end
      end
  end.

Inductive write_error : Type := WriteMessageErr (e : message_error) | WriteIO (e : write_outcome E).

(** [FrameWriter.WriteMessage]. *)
Definition WriteMessage (w : W) (m : Message) : W * result write_error () :=
  match MarshalMessage m with
  | Err e => (w, Err (WriteMessageErr e))
  | Ok payload =>
      let header := put_uint32 (slen payload) in
      match writeAll (S (String.length header)) w header with
      | (w, WriteDone) =>
          match writeAll (S (String.length payload)) w payload with
          | (w, WriteDone) => (w, Ok ())
          | (w, o) => (w, Err (WriteIO o))
          end
      | (w, o) => (w, Err (WriteIO o))
      end
  end.

End FrameWriter.

(** The bytes of a message on the wire. *)
Definition frame (m : Message) : result message_error string :=
  payload ← MarshalMessage m; Ok (put_uint32 (slen payload) +:+ payload).

(** ** Specifications *)

(** What [Validate] accepts. *)
Record valid_message (m : Message) : Prop := {
  vm_version : msg_Version m = 1;
  vm_id : TrimSpace (msg_ID m) ≠ EmptyString;
  vm_sender : TrimSpace (msg_SenderID m) ≠ EmptyString;
  vm_body : TrimSpace (msg_Body m) ≠ EmptyString;
  vm_type : msg_Type m ∈ [TypeChat; TypeJoin; TypeLeave; TypeSystem];
  vm_time : msg_Timestamp m ≠ 0;
  vm_id_len : slen (msg_ID m) ≤ 256;
  vm_sender_len : slen (msg_SenderID m) ≤ 512;
  vm_recipient_len : slen (msg_RecipientID m) ≤ 512;
  vm_group_len : slen (msg_GroupID m) ≤ 512;
  vm_body_len : slen (msg_Body m) ≤ 65536
}.

(** The message that arrives: invalid UTF-8 is replaced on the way. *)
Definition sanitize (m : Message) : Message :=
  mkMessage (msg_Version m) (to_valid (msg_ID m)) (msg_Type m) (to_valid (msg_SenderID m))
    (to_valid (msg_RecipientID m)) (to_valid (msg_GroupID m)) (msg_Timestamp m)
    (to_valid (msg_Body m)).

Definition utf8_message (m : Message) : bool :=
  utf8_valid (msg_ID m) && utf8_valid (msg_SenderID m) && utf8_valid (msg_RecipientID m) &&
  utf8_valid (msg_GroupID m) && utf8_valid (msg_Body m).

(** The members of a marshalled message. *)
Definition message_members (m : Message) : list (string * string * json) :=
  [("version", Itoa (msg_Version m), JNum (Itoa (msg_Version m)));
   ("id", marshal_string (msg_ID m), JStr (enc_str (msg_ID m)));
   ("type", marshal_string (msg_Type m), JStr (enc_str (msg_Type m)));
   ("sender_id", marshal_string (msg_SenderID m), JStr (enc_str (msg_SenderID m)))]
  ++ opt_value "recipient_id" (msg_RecipientID m)
  ++ opt_value "group_id" (msg_GroupID m)
  ++ [("timestamp", String quote (formatRFC3339Nano (msg_Timestamp m)) +:+ String quote EmptyString,
        JStr (formatRFC3339Nano (msg_Timestamp m)));
      ("body", marshal_string (msg_Body m), JStr (enc_str (msg_Body m)))].

(** Several messages written one after the other, and read back. *)
Fixpoint write_messages {W E} `{!Writer W E} (w : W) (ms : list Message) : option W :=
  match ms with
  | [] => Some w
  | m :: ms => match WriteMessage w m with
               | (w', Ok _) => write_messages w' ms
               | (_, Err _) => None
               end
  end.

Fixpoint read_messages (n : nat) (r : stream) : option (list Message * stream) :=
  match n with
  | O => Some ([], r)
  | S n => match ReadMessage r with
           | (Ok m, r) => '(ms, r) ← read_messages n r; Some (m :: ms, r)
           | (Err _, _) => None
           end
  end.

(** A writer with room for a number of bytes, which fails once it is full. *)
Record limited : Type := mkLimited { lw_written : string; lw_room : nat }.

Definition limited_write (w : limited) (p : string) : limited * nat * option read_error :=
  let n := Nat.min (String.length p) (lw_room w) in
  (mkLimited (lw_written w +:+ take_s n p) (lw_room w - n), n,
   if (n <? String.length p)%nat then Some ReadFailed else None).

#[global] Program Instance limited_writer : Writer limited read_error :=
  {| write := limited_write; written := lw_written |}.
Next Obligation. intros w p w' n e [= <- <- <-]. split; [lia|done]. Qed.
Next Obligation.
  intros w p w' n e [= <- <- <-] H. by rewrite (proj2 (Nat.ltb_lt _ _) H).
Qed.

(** ** Validation *)

Lemma blank_true s : blank s = true ↔ TrimSpace s = EmptyString.
Proof. unfold blank. by rewrite bool_decide_eq_true. Qed.

Lemma blank_false s : blank s = false ↔ TrimSpace s ≠ EmptyString.
Proof. unfold blank. by rewrite bool_decide_eq_false. Qed.

Lemma known_type_spec t : known_type t = true ↔ t ∈ [TypeChat; TypeJoin; TypeLeave; TypeSystem].
Proof.
  unfold known_type. rewrite !orb_true_iff, !bool_decide_eq_true, !elem_of_cons, elem_of_nil. tauto.
Qed.

Lemma Validate_spec m : Validate m = Ok () ↔ valid_message m.
Proof.
  unfold Validate, IsZero, Version, MaxIDLen, MaxSenderIDLen, MaxBodyLen. split.
  - intros H. repeat (case_match; [done|]). clear H.
    repeat match goal with
    | H : negb _ = false |- _ => apply negb_false_iff in H
    | H : _ || _ = false |- _ => apply orb_false_iff in H as [? ?]
    | H : blank _ = false |- _ => apply blank_false in H
    | H : known_type _ = true |- _ => apply known_type_spec in H
    | H : (_ =? _) = true |- _ => apply Z.eqb_eq in H
    | H : (_ =? _) = false |- _ => apply Z.eqb_neq in H
    | H : (_ <? _) = false |- _ => apply Z.ltb_ge in H
    end. by constructor.
  - intros []. rewrite vm_version0. cbn [negb Z.eqb Pos.eqb].
    rewrite !(proj2 (blank_false _)), (proj2 (known_type_spec _)) by done. cbn [orb negb].
    rewrite (proj2 (Z.eqb_neq _ _)) by done.
    by rewrite !(proj2 (Z.ltb_ge _ _)) by done.
Qed.

Lemma Validate_result m : is_ok (Validate m) = true → Validate m = Ok ().
Proof. by destruct (Validate m) as [[]|]. Qed.

(** ** Parsing the members of a written object *)

(** ** The JSON round trip *)

Lemma more_members_opt name v :
  more_members EmptyString EmptyString (opt_value name v) = opt_member name v.
Proof.
  unfold opt_value, opt_member. case_bool_decide; [done|]. cbn [more_members].
  by rewrite !app_nil_l_s, app_nil_r_s.
Qed.

Lemma marshal_message_text m s : marshal_message_json m = Some s ↔
  in_year_range (msg_Timestamp m) ∧
  s = object_text EmptyString EmptyString EmptyString (message_members m).
Proof.
  unfold marshal_message_json, message_members.
  destruct (marshal_time (msg_Timestamp m)) as [ts|] eqn:E; cbn [mbind option_bind].
  - apply marshal_time_Some in E as [Ht ->]. cbn [app object_text more_members].
    rewrite !more_members_app, !more_members_opt. cbn [more_members].
    rewrite !app_assoc_s, !app_nil_l_s. split; [by intros [= <-]|by intros [_ ->]].
  - split; [done|]. intros [Ht _].
    assert (marshal_time (msg_Timestamp m) = Some (String quote (formatRFC3339Nano (msg_Timestamp m))
      +:+ String quote EmptyString)) as E' by (by apply marshal_time_Some).
    by rewrite E in E'.
Qed.

Lemma message_members_ok m : msg_Version m = 1 → in_year_range (msg_Timestamp m) →
  Forall member_ok (message_members m).
Proof.
  intros Hv Ht. unfold message_members, opt_value. rewrite Hv.
  repeat case_bool_decide; cbn [app];
    repeat (apply Forall_cons; split; [split; [done|]|]); try (by apply Forall_nil);
    first [apply string_text | by apply plain_text, plain_format | apply one_text].
Qed.

Lemma parse_message m s : msg_Version m = 1 → marshal_message_json m = Some s →
  parse_json s = Some (JObj (member_values (message_members m))).
Proof.
  intros Hv [Ht ->]%marshal_message_text. unfold message_members at 1. cbn [app].
  apply parse_object; [done|done|apply closing_nil|]. by apply message_members_ok.
Qed.

Lemma set_members_opt name v l set m :
  unquote name = Some name →
  (∀ j m, set_field message_fields name j m = assign set (dec_string j) m) →
  (v = EmptyString → set EmptyString m = m) →
  set_members message_fields (member_values (opt_value name v ++ l)) m =
  set_members message_fields (member_values l) (set (to_valid v) m).
Proof.
  intros Hk Hf He. unfold opt_value. case_bool_decide as Hv.
  - subst v. cbn [app]. f_equal. symmetry. by apply He.
  - cbn [app]. unfold member_values. cbn [fmap list_fmap]. apply set_members_cons; [done|].
    rewrite Hf, dec_string_enc. done.
Qed.

Lemma to_valid_type t : known_type t = true → to_valid t = t.
Proof.
  rewrite known_type_spec, !elem_of_cons, elem_of_nil.
  intros [->|[->|[->|[->|[]]]]]; reflexivity.
Qed.

Lemma unmarshal_members m : msg_Version m = 1 → known_type (msg_Type m) = true →
  in_year_range (msg_Timestamp m) →
  set_members message_fields (member_values (message_members m)) zeroMessage
  = Some (sanitize m).
Proof.
  intros Hv Ht Hr. unfold message_members. rewrite Hv. change (Itoa 1) with "1".
  cbn [app]. unfold member_values. cbn [fmap list_fmap].
  rewrite (set_members_cons _ _ _ _ _ (set_Version 1 zeroMessage)) by reflexivity.
  do 3 (erewrite set_members_cons;
    [|reflexivity|cbn -[dec_string]; rewrite dec_string_enc; reflexivity]).
  change (list_fmap ?A ?B ?f) with (fmap (M:=list) f).
  change (fmap _ ?l) with (member_values l).
  rewrite (set_members_opt _ _ _ set_RecipientID), (set_members_opt _ _ _ set_GroupID) by done.
  unfold member_values. cbn [fmap list_fmap].
  erewrite set_members_cons;
    [|reflexivity|cbn -[dec_time formatRFC3339Nano]; rewrite dec_time_format by done; reflexivity].
  erewrite set_members_cons;
    [|reflexivity|cbn -[dec_string]; rewrite dec_string_enc; reflexivity].
  cbn [set_members]. unfold sanitize. by rewrite Hv, (to_valid_type _ Ht).
Qed.

Lemma MarshalMessage_Ok m s : MarshalMessage m = Ok s ↔
  valid_message m ∧ marshal_message_json m = Some s.
Proof.
  unfold MarshalMessage. rewrite bind_ok_iff. split.
  - intros ([] & Hv & Hj). split; [by apply Validate_spec|].
    by destruct (marshal_message_json m); simplify_eq/=.
  - intros [Hv Hj]. exists (). split; [by apply Validate_spec|]. by rewrite Hj.
Qed.

Lemma Unmarshal_Marshal m s : MarshalMessage m = Ok s →
  UnmarshalMessage s = (_ ← Validate (sanitize m); Ok (sanitize m)).
Proof.
  intros [Hv Hj]%MarshalMessage_Ok. unfold UnmarshalMessage, unmarshal_struct.
  rewrite (parse_message m) by (done || apply Hv). cbn [mbind option_bind].
  rewrite unmarshal_members.
  - done.
  - apply Hv.
  - apply known_type_spec, Hv.
  - by apply marshal_message_text in Hj as [? _].
Qed.

Lemma sanitize_valid m : utf8_message m = true → sanitize m = m.
Proof.
  unfold utf8_message. rewrite !andb_true_iff, !utf8_valid_eq.
  intros [[[[H1 H2] H3] H4] H5]. destruct m; unfold sanitize; simpl in *. by rewrite H1, H2, H3, H4, H5.
Qed.

(** ** Sizes *)

Lemma length_marshal_string s : (String.length (marshal_string s) ≤ 6 * String.length s + 2)%nat.
Proof. unfold marshal_string. pose proof (length_enc_str s). len_lia. Qed.

Lemma length_opt_member name v :
  (String.length (opt_member name v) ≤ 6 * String.length v + String.length name + 6)%nat.
Proof.
  unfold opt_member. case_bool_decide; [simpl; lia|].
  pose proof (length_marshal_string v). unfold json_key, comma. len_lia.
Qed.

Lemma marshal_size m s : MarshalMessage m = Ok s → 0 < slen s ≤ 405000.
Proof.
  intros [Hv Hj]%MarshalMessage_Ok. apply marshal_message_text in Hj as [Ht ->].
  destruct Hv. unfold message_members. rewrite vm_version0. change (Itoa 1) with "1".
  pose proof (format_length _ Ht).
  assert (Hty : (String.length (msg_Type m) ≤ 6)%nat).
  { apply elem_of_cons in vm_type0 as [->|H0]; [simpl; lia|].
    apply elem_of_cons in H0 as [->|H0]; [simpl; lia|].
    apply elem_of_cons in H0 as [->|H0]; [simpl; lia|].
    apply list_elem_of_singleton in H0 as ->; simpl; lia. }
  unfold slen in *. cbn [app object_text].
  cbn [more_members]. rewrite !more_members_app, !more_members_opt.
  cbn [more_members]. unfold json_key, comma.
  pose proof (length_opt_member "recipient_id" (msg_RecipientID m)).
  pose proof (length_opt_member "group_id" (msg_GroupID m)).
  pose proof (length_marshal_string (msg_ID m)). pose proof (length_marshal_string (msg_Type m)).
  pose proof (length_marshal_string (msg_SenderID m)). pose proof (length_marshal_string (msg_Body m)).
  len_lia.
Qed.

(** ** Frames *)

Lemma length_put_uint32 n : String.length (put_uint32 n) = 4%nat.
Proof. done. Qed.

Lemma get_put_uint32 n s : 0 ≤ n < 2 ^ 32 → get_uint32 (put_uint32 n +:+ s) = n.
Proof.
  intros H. unfold put_uint32. rewrite !app_cons_s. unfold get_uint32. rewrite !byte_Z_byte. div_lia.
Qed.

Lemma ReadFull_app n s t e : String.length s = n →
  ReadFull n (mkStream (s +:+ t) e) = (Ok s, mkStream t e).
Proof.
  intros <-. unfold ReadFull. cbn [s_bytes s_end]. rewrite length_app_s.
  rewrite (proj2 (Nat.leb_le _ _)) by lia. by rewrite take_app_s, drop_app_s.
Qed.

Lemma ReadFull_Ok n r s r' : ReadFull n r = (Ok s, r') →
  String.length s = n ∧ s_bytes r' = drop_s n (s_bytes r).
Proof.
  unfold ReadFull. destruct (Nat.leb_spec n (String.length (s_bytes r))) as [H|H].
  - intros [= <- <-]. split; [|done]. rewrite length_take_s. lia.
  - destruct (s_end r); try done. by case_bool_decide.
Qed.

Lemma ReadFull_Err n r e r' : ReadFull n r = (Err e, r') →
  ∃ k, (k < n)%nat ∧ s_bytes r' = drop_s k (s_bytes r).
Proof.
  unfold ReadFull. destruct (Nat.leb_spec n (String.length (s_bytes r))) as [H|H]; [done|].
  intros [= _ <-]. exists (String.length (s_bytes r)). by rewrite drop_s_all.
Qed.

Lemma get_uint32_range s : 0 ≤ get_uint32 s.
Proof.
  unfold get_uint32. destruct s as [|a [|b [|c [|d s]]]]; try lia.
  pose proof (byte_Z_range a). pose proof (byte_Z_range b).
  pose proof (byte_Z_range c). pose proof (byte_Z_range d). lia.
Qed.

Lemma frame_Ok m f : frame m = Ok f ↔
  ∃ p, MarshalMessage m = Ok p ∧ f = put_uint32 (slen p) +:+ p.
Proof.
  unfold frame. rewrite bind_ok_iff. split.
  - intros (p & Hp & [= <-]). eauto.
  - intros (p & Hp & ->). eauto.
Qed.

Lemma ReadMessage_frame m f t e : frame m = Ok f →
  ReadMessage (mkStream (f +:+ t) e) =
  (map_err FrameMessage (_ ← Validate (sanitize m); Ok (sanitize m)), mkStream t e).
Proof.
  intros (p & Hp & ->)%frame_Ok. pose proof (marshal_size m p Hp) as Hs.
  unfold ReadMessage. rewrite app_assoc_s, ReadFull_app by apply length_put_uint32.
  rewrite <- (app_nil_r_s (put_uint32 _)), get_put_uint32 by lia.
  rewrite (proj2 (Z.eqb_neq _ _)) by lia. unfold MaxFrameSize.
  rewrite (proj2 (Z.ltb_ge _ _)) by lia.
  rewrite ReadFull_app by (unfold slen; lia). by rewrite (Unmarshal_Marshal m p).
Qed.

Lemma UnmarshalMessage_valid s m : UnmarshalMessage s = Ok m → valid_message m.
Proof.
  unfold UnmarshalMessage. rewrite bind_ok_iff. intros (m' & _ & H).
  apply bind_ok_iff in H as ([] & Hv & [= ->]). by apply Validate_spec.
Qed.

Section Writing.
Context {W E : Type} `{!Writer W E}.

(** With a writer that keeps its contract the loop ends after one call. *)
Lemma writeAll_spec fuel w data w' o :
  (String.length data < fuel)%nat → writeAll fuel w data = (w', o) →
  match o with
  | WriteDone => written w' = written w +:+ data
  | WriteFailed _ => ∃ n, (n ≤ String.length data)%nat ∧ written w' = written w +:+ take_s n data
  | WriteStuck => False
  end.
Proof.
  destruct fuel as [|fuel]; [lia|]. destruct data as [|a data].
  - intros _ [= <- <-]. by rewrite app_nil_r_s.
  - intros _. cbn [writeAll]. destruct (write w (String a data)) as [[w1 n] oe] eqn:Ew.
    destruct (write_count _ _ _ _ _ Ew) as [Hn Hw]. destruct oe as [e|].
    + intros [= <- <-]. eauto.
    + destruct (decide (n < String.length (String a data))%nat) as [Hl|Hl].
      { by destruct (write_short _ _ _ _ _ Ew Hl). }
      assert (n = String.length (String a data)) as -> by lia.
      rewrite drop_s_all. assert (writeAll fuel w1 EmptyString = (w1, WriteDone)) as ->
        by (by destruct fuel).
      intros [= <- <-]. by rewrite Hw, take_s_all.
Qed.

Lemma WriteMessage_spec w m w' r : WriteMessage w m = (w', r) →
  match r with
  | Ok _ => ∃ f, frame m = Ok f ∧ written w' = written w +:+ f
  | Err (WriteMessageErr e) => MarshalMessage m = Err e ∧ w' = w
  | Err (WriteIO (WriteFailed _)) =>
      ∃ f n, frame m = Ok f ∧ written w' = written w +:+ take_s n f
  | Err (WriteIO _) => False
  end.
Proof.
  unfold WriteMessage. destruct (MarshalMessage m) as [p|e] eqn:Em; [|by intros [= <- <-]].
  assert (Hf : frame m = Ok (put_uint32 (slen p) +:+ p)) by (unfold frame; by rewrite Em).
  set (h := put_uint32 (slen p)) in *.
  destruct (writeAll (S (String.length h)) w h) as [w1 o1] eqn:E1.
  apply writeAll_spec in E1; [|lia]. destruct o1 as [|e1|]; [|intros [= <- <-]|done].
  - destruct (writeAll (S (String.length p)) w1 p) as [w2 o2] eqn:E2.
    apply writeAll_spec in E2; [|lia]. destruct o2 as [|e2|]; [|intros [= <- <-]|done].
    + intros [= <- <-]. exists (h +:+ p). split; [done|]. by rewrite E2, E1, app_assoc_s.
    + destruct E2 as (n & Hn & E2). exists (h +:+ p), (String.length h + n)%nat.
      split; [done|]. by rewrite E2, E1, app_assoc_s, take_s_app_ge.
  - destruct E1 as (n & Hn & E1). exists (h +:+ p), n. split; [done|].
    by rewrite E1, take_s_app_le.
Qed.

End Writing.

(** ** Properties *)

Lemma wire_one m f t e : frame m = Ok f → utf8_message m = true →
  ReadMessage (mkStream (f +:+ t) e) = (Ok m, mkStream t e).
Proof.
  intros Hf Hu. rewrite (ReadMessage_frame m) by done. rewrite (sanitize_valid m) by done.
  apply frame_Ok in Hf as (p & Hp & _). apply MarshalMessage_Ok in Hp as [Hv _].
  apply Validate_spec in Hv. by rewrite Hv.
Qed.

(** C1: messages written one after the other on any conforming writer are read
    back by the peer, in order and unchanged, whatever follows them on the
    connection; only the texts must be valid UTF-8. *)
Theorem wire_roundtrip {W E} `{!Writer W E} (w w' : W) ms :
  write_messages w ms = Some w' → Forall (λ m, utf8_message m = true) ms →
  ∃ s, written w' = written w +:+ s ∧
    ∀ t e, read_messages (length ms) (mkStream (s +:+ t) e) = Some (ms, mkStream t e).
Proof.
  revert w. induction ms as [|m ms IH]; intros w.
  - intros [= <-] _. exists EmptyString. by rewrite app_nil_r_s.
  - cbn [write_messages]. destruct (WriteMessage w m) as [w1 [[]|]] eqn:Ew; [|done].
    apply WriteMessage_spec in Ew as (f & Hf & Hw). intros Hws [Hm Hms]%Forall_cons.
    destruct (IH w1 Hws Hms) as (s & Hs & Hr). exists (f +:+ s). split.
    { by rewrite Hs, Hw, app_assoc_s. }
    intros t e. cbn [length read_messages].
    rewrite app_assoc_s, (wire_one m) by done. by rewrite Hr.
Qed.

Definition sample_message : Message :=
  mkMessage 1 "id-1" TypeChat "alice" "bob" EmptyString (unix_epoch + 5) "hello".

Lemma wire_roundtrip_witness : ∃ s,
  ∀ t e, read_messages 2 (mkStream (s +:+ t) e) = Some ([sample_message; sample_message], mkStream t e).
Proof.
  destruct (write_messages (mkLimited EmptyString 1000) [sample_message; sample_message])
    as [w'|] eqn:E.
  - destruct (wire_roundtrip _ _ _ E) as (s & _ & H); [repeat constructor|by exists s].
  - by vm_compute in E.
Defined.

(** C2: whatever bytes a peer sends, reading a message consumes at most a
    header and 1 MiB; a larger declared length is refused after the header
    alone, and a message that is returned is valid. *)
Theorem ReadMessage_safe r :
  let '(res, r') := ReadMessage r in
  ∃ k, 0 ≤ k ≤ 4 + MaxFrameSize ∧ s_bytes r' = drop_s (Z.to_nat k) (s_bytes r) ∧
    match res with
    | Ok m => 4 < k ∧ valid_message m
    | Err (ErrFrameTooLarge n) => k = 4 ∧ MaxFrameSize < n
    | Err _ => True
    end.
Proof.
  unfold ReadMessage. destruct (ReadFull frameHeaderSize r) as [[h|e] r1] eqn:E1.
  - apply ReadFull_Ok in E1 as [Hh E1]. unfold MaxFrameSize.
    destruct (Z.eqb_spec (get_uint32 h) 0) as [H0|H0].
    { exists 4. by split. }
    destruct (Z.ltb_spec 1048576 (get_uint32 h)) as [H1|H1].
    { exists 4. by split. }
    pose proof (get_uint32_range h) as Hr.
    destruct (ReadFull (Z.to_nat (get_uint32 h)) r1) as [[p|e] r2] eqn:E2.
    + apply ReadFull_Ok in E2 as [Hp E2]. exists (4 + get_uint32 h). split; [lia|]. split.
      { rewrite E2, E1, drop_drop_s. f_equal. unfold frameHeaderSize. lia. }
      destruct (UnmarshalMessage p) as [m|e] eqn:E; [|done]. cbn [map_err].
      split; [lia|]. by apply UnmarshalMessage_valid in E.
    + apply ReadFull_Err in E2 as (k & Hk & E2). exists (4 + Z.of_nat k). split; [lia|]. split; [|done].
      rewrite E2, E1, drop_drop_s. f_equal. unfold frameHeaderSize. lia.
  - apply ReadFull_Err in E1 as (k & Hk & E1). exists (Z.of_nat k).
    unfold frameHeaderSize, MaxFrameSize in *.
    split; [lia|]. split; [|done]. by rewrite Nat2Z.id.
Qed.

(** [WriteMessage] over any conforming writer ends; on success exactly the
    frame of the message has been appended, a message that cannot be marshalled
    leaves the writer untouched, and a write error leaves a prefix of the frame. *)
Theorem WriteMessage_delivers {W E} `{!Writer W E} (w : W) m :
  match WriteMessage w m with
  | (w', Ok _) => ∃ f, frame m = Ok f ∧ written w' = written w +:+ f
  | (w', Err (WriteMessageErr e)) => frame m = Err e ∧ w' = w
  | (w', Err (WriteIO (WriteFailed _))) =>
      ∃ f n, frame m = Ok f ∧ written w' = written w +:+ take_s n f
  | (_, Err (WriteIO _)) => False
  end.
Proof.
  destruct (WriteMessage w m) as [w' r] eqn:E1. apply WriteMessage_spec in E1.
  destruct r as [[]|[e|[]]]; try done. destruct E1 as [Hm ->]. split; [|done].
  unfold frame. by rewrite Hm.
Qed.

Lemma WriteMessage_delivers_witness :
  ∃ w' f n, WriteMessage (mkLimited EmptyString 10) sample_message =
      (w', Err (WriteIO (WriteFailed ReadFailed))) ∧
    frame sample_message = Ok f ∧ lw_written w' = take_s n f.
Proof.
  pose proof (WriteMessage_delivers (mkLimited EmptyString 10) sample_message) as H.
  destruct (WriteMessage (mkLimited EmptyString 10) sample_message) as [w' r] eqn:E1.
  assert (Hr : r = Err (WriteIO (WriteFailed ReadFailed))).
  { change r with (w', r).2. rewrite <- E1. vm_compute. reflexivity. }
  subst r. destruct H as (f & n & Hf & Hw). by exists w', f, n.
Defined.

(** [Validate] accepts exactly the well-formed messages, and [MarshalMessage]
    succeeds exactly on those whose timestamp has a four-digit year. *)
Theorem Validate_exact m :
  (Validate m = Ok () ↔ valid_message m) ∧
  (is_ok (MarshalMessage m) = true ↔ valid_message m ∧ in_year_range (msg_Timestamp m)).
Proof.
  split; [apply Validate_spec|]. split.
  - destruct (MarshalMessage m) as [s|] eqn:E; [intros _|done].
    apply MarshalMessage_Ok in E as [Hv Hj]. by apply marshal_message_text in Hj as [Ht _].
  - intros [Hv Ht]. destruct (marshal_message_json m) as [s|] eqn:E.
    + assert (MarshalMessage m = Ok s) as -> by (by apply MarshalMessage_Ok). done.
    + exfalso. pose proof (proj2 (marshal_message_text m _) (conj Ht eq_refl)) as Hs.
      by rewrite Hs in E.
Qed.

(** A marshalled message always fits a frame: the writer never produces a
    payload its peer refuses for its size, and the header states its length. *)
Theorem marshal_fits_frame m p : MarshalMessage m = Ok p →
  0 < slen p ≤ MaxFrameSize ∧ get_uint32 (put_uint32 (slen p)) = slen p.
Proof.
  intros H%marshal_size. unfold MaxFrameSize. split; [lia|].
  rewrite <- (app_nil_r_s (put_uint32 _)). apply get_put_uint32. lia.
Qed.

Lemma marshal_fits_frame_witness : ∃ p, MarshalMessage sample_message = Ok p ∧
  0 < slen p ≤ MaxFrameSize.
Proof.
  destruct (MarshalMessage sample_message) as [p|] eqn:E.
  - exists p. split; [done|]. by apply (marshal_fits_frame sample_message p).
  - by vm_compute in E.
Defined.

(** An ID of 100 bytes none of which is UTF-8. *)
Fixpoint repeat_byte (n : nat) (a : ascii) : string :=
  match n with O => EmptyString | S n => String a (repeat_byte n a) end.
Definition invalid_utf8_message : Message :=
  mkMessage 1 (repeat_byte 100 (Z_byte 255)) TypeChat "alice" "bob" EmptyString (unix_epoch + 5) "hello".

(** The UTF-8 condition of the round trip is needed: each invalid byte is
    written as a replacement character of three bytes, so a message the sender
    validates and writes can be refused by its peer as too long. *)
Theorem invalid_utf8_refused :
  ∃ f, frame invalid_utf8_message = Ok f ∧
  ∀ t e, (ReadMessage (mkStream (f +:+ t) e)).1 = Err (FrameMessage (ErrFieldTooLong "id" MaxIDLen)).
Proof.
  destruct (frame invalid_utf8_message) as [f|] eqn:E.
  - exists f. split; [done|]. intros t e. rewrite (ReadMessage_frame invalid_utf8_message) by done.
    reflexivity.
  - by vm_compute in E.
Qed.
