(* ===== verification/TcpServer.v ===== *)
(** * The TCP server

    [internal/network/tcp.go] and the connections of [client.go]: the set of
    clients, the table of joined peers, and the goroutines that read, route and
    write.  A goroutine is a list of operations, each of which the source does
    under one lock or as one atomic access, so that histories interleave the
    goroutines wherever the code lets them. *)

From S2P Require Import Prelude GoStrings GoTime Protocol.

Open Scope Z_scope.

Module TcpServer.

(** ** State *)

Definition maxConnections : nat := 256.
(** The capacity of a client's [writeCh]. *)
Definition writeBuf : nat := 16.

(** The progress of a [sync.Once]. *)
Inductive Once : Type := OnceNew | OnceRunning | OnceDone.

#[global] Instance Once_eq_dec : EqDecision Once.
Proof. solve_decision. Defined.

(** A [clientConn].  The channels [closed] and [writeCh] are closed together
    ([cc_chClosed]); [cc_conn] is what was written to the connection. *)
Record clientConn : Type := mkClientConn {
  cc_peerID : string;
  cc_displayName : string;
  cc_writeCh : list Message;
  cc_chClosed : bool;
  cc_closedN : bool;
  cc_once : Once;
  cc_conn : list Message
}.

Definition newClientConn : clientConn := mkClientConn EmptyString EmptyString [] false false OnceNew [].

(** What [enqueue]'s caller does when it returns false: nothing, remove the
    client, or also tell the sender. *)
Inductive on_fail : Type := FailIgnore | FailRemove | FailNotify (sender : nat) (message : Message).

(** The atomic operations, in the order they appear in the source. *)
Inductive op : Type :=
  | OpAccept                                              (* the count in [Serve] *)
  | OpAdd (c : nat)                                       (* [addClient] *)
  | OpStart (c : nat)                                     (* the two [go] statements *)
  | OpUnlist (c : nat)                                    (* [removeClient], locked part *)
  | OpClose (c : nat)                                     (* [once.Do] in [close] *)
  | OpFlag (c : nat)                                      (* the store to [closedN] *)
  | OpChannels (c : nat)                                  (* the channels and the connection *)
  | OpJoin (c : nat) (m : Message)                        (* the fields set on a join *)
  | OpRegister (c : nat) (peerID : string)                (* [registerPeer] *)
  | OpLookup (sender : nat) (m : Message)                 (* [s.peers] in [broadcast] *)
  | OpRecipients (sender : nat) (m : Message)             (* [s.clients] in [broadcast] *)
  | OpLoad (c : nat) (m : Message) (f : on_fail)          (* [enqueue], the load *)
  | OpSend (c : nat) (m : Message) (f : on_fail)          (* [enqueue], the select *)
  | OpNotify (sender : nat) (m : Message) (what : string) (* the system message *)
  | OpShutdown                                            (* [Shutdown], locked part *)
  | OpListener                                            (* [listener.Close] *)
  | OpWait                                                (* [s.wg.Wait] *)
  | OpExit.                                               (* the goroutine ends *)

(** The goroutines: [Serve], one reader and one writer per client, [Shutdown]. *)
Inductive thread : Type := Serving | Reader (c : nat) | Writer (c : nat) | Stopping.

#[global] Instance thread_eq_dec : EqDecision thread.
Proof. solve_decision. Defined.

Definition thread_code (t : thread) : nat * nat :=
  match t with Serving => (0, 0) | Reader c => (1, c) | Writer c => (2, c) | Stopping => (3, 0) end%nat.
Definition code_thread (n : nat * nat) : option thread :=
  match n with
  | (0, _) => Some Serving | (1, c) => Some (Reader c) | (2, c) => Some (Writer c) | (3, _) => Some Stopping
  | _ => None
  end%nat.

#[global] Instance thread_countable : Countable thread.
Proof. apply (inj_countable thread_code code_thread). by intros []. Defined.

Record Server : Type := mkServer {
  sv_clients : gset nat;
  sv_peers : gmap string nat;
  sv_closed : bool;
  sv_listening : bool;
  sv_shutdownOnce : bool;
  sv_conns : gmap nat clientConn;
  sv_threads : gmap thread (list op);
  sv_panicked : bool
}.

(** A server that listens and serves. *)
Definition NewServer : Server := mkServer ∅ ∅ false true false ∅ {[Serving := []]} false.

Definition with_clients f s := mkServer (f (sv_clients s)) (sv_peers s) (sv_closed s) (sv_listening s)
  (sv_shutdownOnce s) (sv_conns s) (sv_threads s) (sv_panicked s).
Definition with_peers f s := mkServer (sv_clients s) (f (sv_peers s)) (sv_closed s) (sv_listening s)
  (sv_shutdownOnce s) (sv_conns s) (sv_threads s) (sv_panicked s).
Definition with_conns f s := mkServer (sv_clients s) (sv_peers s) (sv_closed s) (sv_listening s)
  (sv_shutdownOnce s) (f (sv_conns s)) (sv_threads s) (sv_panicked s).
Definition with_threads f s := mkServer (sv_clients s) (sv_peers s) (sv_closed s) (sv_listening s)
  (sv_shutdownOnce s) (sv_conns s) (f (sv_threads s)) (sv_panicked s).
Definition panic s := mkServer (sv_clients s) (sv_peers s) (sv_closed s) (sv_listening s)
  (sv_shutdownOnce s) (sv_conns s) (sv_threads s) true.

Definition ActiveConnections (s : Server) : nat := size (sv_clients s).

(** ** The functions as lists of operations *)

Definition close (c : nat) : list op := [OpClose c].
Definition removeClient (c : nat) : list op := OpUnlist c :: close c.
Definition addClient (c : nat) : list op := [OpAdd c].
Definition enqueue (c : nat) (m : Message) (f : on_fail) : list op := [OpLoad c m f].

(** [enqueue] returned false for [c]. *)
Definition failed (c : nat) (f : on_fail) : list op :=
  match f with
  | FailIgnore => []
  | FailRemove => removeClient c
  | FailNotify sender m => removeClient c ++ [OpNotify sender m "disconnected"]
  end.

Definition broadcast (sender : nat) (m : Message) : list op :=
  if decide (TrimSpace (msg_RecipientID m) ≠ EmptyString) then [OpLookup sender m] else [OpRecipients sender m].

(** One message in [readLoop]. *)
Definition received (c : nat) (m : Message) : list op :=
  match Validate m with
  | Err _ => []
  | Ok _ =>
      (if decide (msg_Type m = TypeJoin) then [OpJoin c m; OpRegister c (msg_SenderID m)] else []) ++
      broadcast c m
  end.

(** The system message about a failed delivery; its ID and its timestamp take the
    time separately. *)
Definition delivery_failed (idTime now : Time) (m : Message) (what : string) : Message :=
  mkMessage Version (Itoa (wrap64 (idTime - unix_epoch))) TypeSystem "server" (msg_SenderID m) EmptyString now
    ("delivery failed: peer " +:+ msg_RecipientID m +:+ " " +:+ what).

(** ** The operations *)

Definition get_conn (s : Server) (c : nat) : clientConn := default newClientConn (sv_conns s !! c).

Definition set_once (o : Once) (cc : clientConn) : clientConn :=
  mkClientConn (cc_peerID cc) (cc_displayName cc) (cc_writeCh cc) (cc_chClosed cc) (cc_closedN cc) o (cc_conn cc).
Definition set_closedN (cc : clientConn) : clientConn :=
  mkClientConn (cc_peerID cc) (cc_displayName cc) (cc_writeCh cc) (cc_chClosed cc) true (cc_once cc) (cc_conn cc).
Definition close_channels (cc : clientConn) : clientConn :=
  mkClientConn (cc_peerID cc) (cc_displayName cc) (cc_writeCh cc) true (cc_closedN cc) OnceDone (cc_conn cc).
Definition set_joined (m : Message) (cc : clientConn) : clientConn :=
  mkClientConn (msg_SenderID m) (msg_Body m) (cc_writeCh cc) (cc_chClosed cc) (cc_closedN cc) (cc_once cc) (cc_conn cc).
Definition push (m : Message) (cc : clientConn) : clientConn :=
  mkClientConn (cc_peerID cc) (cc_displayName cc) (cc_writeCh cc ++ [m]) (cc_chClosed cc) (cc_closedN cc) (cc_once cc) (cc_conn cc).
(** The writer takes the head of the channel; [sent] tells whether writing it succeeded. *)
Definition pop (m : Message) (rest : list Message) (sent : bool) (cc : clientConn) : clientConn :=
  mkClientConn (cc_peerID cc) (cc_displayName cc) rest (cc_chClosed cc) (cc_closedN cc) (cc_once cc)
    (if sent then cc_conn cc ++ [m] else cc_conn cc).

(** [delete(s.peers, client.peerID)] under its guards. *)
Definition unregister (c : nat) (s : Server) : gmap string nat :=
  let p := cc_peerID (get_conn s c) in
  if decide (p ≠ EmptyString ∧ sv_peers s !! p = Some c) then delete p (sv_peers s) else sv_peers s.

(** What the environment chooses: the times, and the order a set is iterated in. *)
Record Choice : Type := mkChoice { ch_idTime : Time; ch_now : Time; ch_order : gset nat → list nat }.

(** What the wait group counts: the goroutines of the clients. *)
Definition is_worker (t : thread) : bool := match t with Reader _ | Writer _ => true | _ => false end.
Definition workers (s : Server) : list thread := List.filter is_worker (elements (dom (sv_threads s))).

(** One operation: the new state and what the goroutine does before the rest of
    its operations; [None] while it is blocked. *)
Definition exec (ch : Choice) (o : op) (s : Server) : option (Server * list op) :=
  match o with
  | OpAccept =>
      if (maxConnections <=? size (sv_clients s))%nat then Some (s, []) else
      let c := fresh (dom (sv_conns s)) in
      Some (with_conns <[c := newClientConn]> s, addClient c ++ [OpStart c])
  | OpAdd c => Some (with_clients (union {[c]}) s, [])
  | OpStart c => Some (with_threads (λ t, <[Reader c := []]> (<[Writer c := []]> t)) s, [])
  | OpUnlist c =>
      let s := with_peers (λ _, unregister c s) s in
      Some (with_clients (λ l, l ∖ {[c]}) s, [])
  | OpClose c =>
      match cc_once (get_conn s c) with
      | OnceNew => Some (with_conns (alter (set_once OnceRunning) c) s, [OpFlag c; OpChannels c])
      | OnceRunning => None
      | OnceDone => Some (s, [])
      end
  | OpFlag c => Some (with_conns (alter set_closedN c) s, [])
  | OpChannels c =>
      (* a channel cannot be closed twice *)
      Some (if cc_chClosed (get_conn s c) then panic s else with_conns (alter close_channels c) s, [])
  | OpJoin c m => Some (with_conns (alter (set_joined m) c) s, [])
  | OpRegister c p => Some (with_peers <[p := c]> s, [])
  | OpLookup sender m =>
      Some (s, match sv_peers s !! msg_RecipientID m with
               | None => [OpNotify sender m "unknown or offline"]
               | Some c => enqueue c m (FailNotify sender m)
               end)
  | OpRecipients sender m =>
      let recipients := filter (λ c, c ≠ sender) (ch_order ch (sv_clients s)) in
      Some (s, recipients ≫= λ c, enqueue c m FailRemove)
  | OpLoad c m f =>
      Some (s, if cc_closedN (get_conn s c) then failed c f else [OpSend c m f])
  | OpSend c m f =>
      let cc := get_conn s c in
      if cc_chClosed cc then Some (panic s, []) else
      if (length (cc_writeCh cc) <? writeBuf)%nat then Some (with_conns (alter (push m) c) s, [])
      else Some (s, failed c f)
  | OpNotify sender m what => Some (s, enqueue sender (delivery_failed (ch_idTime ch) (ch_now ch) m what) FailIgnore)
  | OpShutdown =>
      Some (mkServer (sv_clients s) (sv_peers s) true (sv_listening s) (sv_shutdownOnce s) (sv_conns s)
              (sv_threads s) (sv_panicked s),
            OpListener :: (ch_order ch (sv_clients s) ≫= close))
  | OpListener =>
      Some (mkServer (sv_clients s) (sv_peers s) (sv_closed s) false (sv_shutdownOnce s) (sv_conns s)
              (sv_threads s) (sv_panicked s), [])
  | OpWait => match workers s with [] => Some (s, []) | _ => None end
  | OpExit => Some (s, [])
  end.

(** ** Histories *)

Inductive event : Type :=
  | EvAccept                               (* [Accept] returned a connection *)
  | EvServeEnd                             (* [Accept] returned an error *)
  | EvRead (c : nat) (m : option Message)  (* [ReadMessage] returned a message or an error *)
  | EvWrite (c : nat) (sent : bool)        (* the writer took a message and wrote it *)
  | EvWriterStop (c : nat)                 (* the writer found a channel closed *)
  | EvStop                                 (* [Shutdown] is called *)
  | EvRun (t : thread) (ch : Choice).      (* a goroutine does its next operation *)

(** A goroutine that waits in its loop goes on with the operations given. *)
Definition resume (t : thread) (ops : list op) (s : Server) : option Server :=
  match sv_threads s !! t with
  | Some [] => Some (with_threads <[t := ops]> s)
  | _ => None
  end.

(** A message is read while the client is open: a goroutine that still finds one in
    its buffer after the close set its deadline before it, and reading concerns
    nobody else. *)
Definition step (ev : event) (s : Server) : option Server :=
  if sv_panicked s then None else
  match ev with
  | EvAccept => if sv_listening s then resume Serving [OpAccept] s else None
  | EvServeEnd => resume Serving [OpExit] s
  | EvRead c None => resume (Reader c) (removeClient c ++ [OpExit]) s
  | EvRead c (Some m) =>
      if cc_chClosed (get_conn s c) then None else resume (Reader c) (received c m) s
  | EvWrite c sent =>
      match cc_writeCh (get_conn s c) with
      | [] => None
      | m :: rest =>
          s ← resume (Writer c) (if sent then [] else removeClient c ++ [OpExit]) s;
          Some (with_conns (alter (pop m rest sent) c) s)
      end
  | EvWriterStop c =>
      if cc_chClosed (get_conn s c) then resume (Writer c) (removeClient c ++ [OpExit]) s else None
  | EvStop =>
      if sv_shutdownOnce s then None else
      Some (mkServer (sv_clients s) (sv_peers s) (sv_closed s) (sv_listening s) true (sv_conns s)
              (<[Stopping := [OpShutdown; OpWait; OpExit]]> (sv_threads s)) (sv_panicked s))
  | EvRun t ch =>
      match sv_threads s !! t with
      | Some (OpExit :: _) => Some (with_threads (delete t) s)
      | Some (o :: ops) =>
          '(s, before) ← exec ch o s;
          Some (with_threads <[t := before ++ ops]> s)
      | _ => None
      end
  end.

(** Sets are iterated in some order. *)
Definition good_choice (ch : Choice) : Prop := ∀ l, ch_order ch l ≡ₚ elements l.
Definition good_event (ev : event) : Prop := match ev with EvRun _ ch => good_choice ch | _ => True end.

Definition srv_step (s s' : Server) : Prop := ∃ ev, good_event ev ∧ step ev s = Some s'.
Definition srv_reachable : Server → Prop := reachable (λ s, s = NewServer) srv_step.

(** A goroutine runs, undisturbed, to the end of its operations. *)
Fixpoint run (fuel : nat) (ch : Choice) (ops : list op) (s : Server) : option Server :=
  match ops with
  | [] => Some s
  | o :: ops =>
      match fuel with
      | O => None
      | S fuel => '(s, before) ← exec ch o s; run fuel ch (before ++ ops) s
      end
  end.

(** ** Specification *)

(** The clients an operation names. *)
Definition fail_conns (f : on_fail) : list nat := match f with FailNotify c _ => [c] | _ => [] end.
Definition op_conns (o : op) : list nat :=
  match o with
  | OpAccept | OpShutdown | OpListener | OpWait | OpExit => []
  | OpAdd c | OpStart c | OpUnlist c | OpClose c | OpFlag c | OpChannels c | OpJoin c _ | OpRegister c _
  | OpLookup c _ | OpRecipients c _ | OpNotify c _ _ => [c]
  | OpLoad c _ f | OpSend c _ f => c :: fail_conns f
  end.

Definition thread_conns (t : thread) : list nat := match t with Reader c | Writer c => [c] | _ => [] end.

Definition ops_live (s : Server) (ops : list op) : Prop :=
  Forall (λ o, Forall (λ c, c ∈ dom (sv_conns s)) (op_conns o)) ops.

(** Everything named exists. *)
Record live (s : Server) : Prop := {
  lv_clients : sv_clients s ⊆ dom (sv_conns s);
  lv_peers : ∀ p c, sv_peers s !! p = Some c → c ∈ dom (sv_conns s);
  lv_threads : ∀ t ops c, sv_threads s !! t = Some ops → c ∈ thread_conns t → c ∈ dom (sv_conns s);
  lv_ops : ∀ t ops, sv_threads s !! t = Some ops → ops_live s ops
}.

(** The operations only [Serve] does. *)
Definition serve_op (o : op) : bool := match o with OpAccept | OpAdd _ | OpStart _ => true | _ => false end.

(** Where [Serve] is in its loop: a client is added below the limit, and its
    goroutines do not exist before it is started. *)
Definition serving (ops : list op) (s : Server) : Prop :=
  ops = [] ∨ ops = [OpAccept] ∨ ops = [OpExit] ∨
  ∃ c, sv_threads s !! Reader c = None ∧ sv_threads s !! Writer c = None ∧
       ((ops = [OpAdd c; OpStart c] ∧ (size (sv_clients s) < maxConnections)%nat) ∨ ops = [OpStart c]).

Record bounded (s : Server) : Prop := {
  bd_clients : (size (sv_clients s) ≤ maxConnections)%nat;
  bd_queue : map_Forall (λ _ cc, (length (cc_writeCh cc) ≤ writeBuf)%nat) (sv_conns s);
  bd_serving : ∀ ops, sv_threads s !! Serving = Some ops → serving ops s;
  bd_others : ∀ t ops o, sv_threads s !! t = Some ops → t ≠ Serving → o ∈ ops → serve_op o = false;
  bd_stop : sv_shutdownOnce s = false → sv_threads s !! Stopping = None
}.

(** Which client a goroutine is closing. *)
Definition closing (ops : list op) : option nat :=
  match ops with
  | OpFlag c :: _ | OpChannels c :: _ => Some c
  | _ => None
  end.

Definition close_op (o : op) : bool := match o with OpFlag _ | OpChannels _ => true | _ => false end.
Definition calm (ops : list op) : Prop := ∀ o, o ∈ ops → close_op o = false.

Definition shape (ops : list op) : Prop :=
  match ops with
  | OpFlag c :: rest => ∃ r, rest = OpChannels c :: r ∧ calm r
  | OpChannels _ :: rest => calm rest
  | _ => calm ops
  end.

(** A client is closed once, by one goroutine. *)
Record closes (s : Server) : Prop := {
  cl_shape : ∀ t ops, sv_threads s !! t = Some ops → shape ops;
  cl_running : ∀ t ops c, sv_threads s !! t = Some ops → closing ops = Some c →
    cc_once (get_conn s c) = OnceRunning;
  cl_flagged : ∀ t c rest, sv_threads s !! t = Some (OpChannels c :: rest) → cc_closedN (get_conn s c) = true;
  cl_one : ∀ t1 t2 ops1 ops2 c, sv_threads s !! t1 = Some ops1 → sv_threads s !! t2 = Some ops2 →
    closing ops1 = Some c → closing ops2 = Some c → t1 = t2;
  cl_owner : ∀ c, cc_once (get_conn s c) = OnceRunning →
    ∃ t ops, sv_threads s !! t = Some ops ∧ closing ops = Some c;
  cl_done : ∀ c, cc_chClosed (get_conn s c) = true ↔ cc_once (get_conn s c) = OnceDone;
  cl_closedN : ∀ c, cc_once (get_conn s c) = OnceDone → cc_closedN (get_conn s c) = true;
  cl_new : ∀ c, cc_once (get_conn s c) = OnceNew → cc_closedN (get_conn s c) = false
}.

(** ** Uninterrupted routing *)

(** The goroutine ends its operations with the others standing still. *)
Definition runs (ch : Choice) (ops : list op) (s s' : Server) : Prop := ∃ fuel, run fuel ch ops s = Some s'.

(** Whether [enqueue] would return true. *)
Definition accepts (s : Server) (c : nat) : bool :=
  negb (cc_closedN (get_conn s c)) && (length (cc_writeCh (get_conn s c)) <? writeBuf)%nat.

Definition shut (cc : clientConn) : clientConn :=
  match cc_once cc with OnceNew => close_channels (set_closedN (set_once OnceRunning cc)) | _ => cc end.

(** The effect of [removeClient]. *)
Definition drop (c : nat) (s : Server) : Server :=
  with_conns (alter shut c) (with_clients (λ l, l ∖ {[c]}) (with_peers (λ _, unregister c s) s)).

(** The effect of [enqueue] when the client is removed on failure, and when
    failure is ignored. *)
Definition send (m : Message) (s : Server) (c : nat) : Server :=
  if accepts s c then with_conns (alter (push m) c) s else drop c s.
Definition reply (m : Message) (s : Server) (c : nat) : Server :=
  if accepts s c then with_conns (alter (push m) c) s else s.

(** No client is half closed. *)
Definition unhurried (s : Server) : Prop := ∀ c, let cc := get_conn s c in
  (cc_once cc = OnceNew ∧ cc_chClosed cc = false ∧ cc_closedN cc = false) ∨
  (cc_once cc = OnceDone ∧ cc_chClosed cc = true ∧ cc_closedN cc = true).

Definition no_closing (s : Server) : Prop :=
  ∀ t ops, sv_threads s !! t = Some ops → closing ops = None.

(** ** Sample histories *)

Definition any_choice (now : Time) : Choice := mkChoice now now elements.

Fixpoint play (evs : list event) (s : Server) : option Server :=
  match evs with [] => Some s | ev :: evs => s ← step ev s; play evs s end.

Definition go (t : thread) (n : nat) : list event := replicate n (EvRun t (any_choice 1)).

(** Two clients connect, as 0 and 1, and join as alice and bob. *)
Definition join_message (who : string) : Message :=
  mkMessage Version "1" TypeJoin who EmptyString EmptyString 1 "name".
Definition chat_message (to : string) : Message :=
  mkMessage Version "2" TypeChat "alice" to EmptyString 1 "hello".
Definition connect : list event := EvAccept :: go Serving 3.
Definition two_clients : list event :=
  connect ++ connect ++ [EvRead 0 (Some (join_message "alice"))] ++ go (Reader 0) 5 ++
  [EvRead 1 (Some (join_message "bob"))] ++ go (Reader 1) 5.

(** The goroutine of client 0 finds client 1 open, whose own goroutine then
    closes it. *)
Definition racing : list event :=
  two_clients ++ [EvRead 0 (Some (chat_message "bob"))] ++ go (Reader 0) 2 ++
  [EvRead 1 None] ++ go (Reader 1) 4 ++ go (Reader 0) 1.

Record wf_server (s : Server) : Prop := { wf_live : live s; wf_bounded : bounded s; wf_closes : closes s }.

End TcpServer.

Import TcpServer.

(** ** Effects of single operations *)

(** The threads other than the running one change only when [Serve] starts two. *)
Lemma exec_threads ch o s s1 b : exec ch o s = Some (s1, b) → sv_threads s1 =
  match o with OpStart c => <[Reader c := []]> (<[Writer c := []]> (sv_threads s)) | _ => sv_threads s end.
Proof. destruct o; cbn [exec]; intros; repeat case_match; simplify_eq/=; done. Qed.

Lemma exec_dom ch o s s1 b : exec ch o s = Some (s1, b) → dom (sv_conns s) ⊆ dom (sv_conns s1).
Proof.
  destruct o; cbn [exec]; intros; repeat case_match; simplify_eq/=; rewrite ?dom_insert_L, ?dom_alter_L; set_solver.
Qed.

Lemma resume_inv t ops s s' : resume t ops s = Some s' →
  sv_threads s !! t = Some [] ∧ s' = with_threads <[t := ops]> s.
Proof. unfold resume. case_match; [|done]. case_match; [|done]. by intros [= <-]. Qed.

(** ** Everything named exists *)

Lemma get_conn_None s c : c ∉ dom (sv_conns s) → get_conn s c = newClientConn.
Proof. intros H%not_elem_of_dom. unfold get_conn. by rewrite H. Qed.

Lemma ops_live_mono s s' ops : dom (sv_conns s) ⊆ dom (sv_conns s') → ops_live s ops → ops_live s' ops.
Proof.
  intros Hd H. eapply Forall_impl; [exact H|]. intros o Ho. eapply Forall_impl; [exact Ho|]. intros c. apply Hd.
Qed.

Lemma live_insert t ops s : live s → (∀ c, c ∈ thread_conns t → c ∈ dom (sv_conns s)) →
  ops_live s ops → live (with_threads <[t := ops]> s).
Proof.
  intros [H1 H2 H3 H4] Ht Ho. split; cbn [with_threads sv_clients sv_peers sv_conns sv_threads]; [done|done| |].
  - intros t' ops' c [[<- <-]|[_ H]]%lookup_insert_Some; [apply Ht|by apply (H3 t' ops')].
  - intros t' ops' [[<- <-]|[_ H]]%lookup_insert_Some; [apply Ho|by apply (H4 t' ops')].
Qed.

Lemma live_delete t s : live s → live (with_threads (delete t) s).
Proof.
  intros [H1 H2 H3 H4]. split; cbn [with_threads sv_clients sv_peers sv_conns sv_threads]; [done|done| |].
  - intros t' ops' c [_ H]%lookup_delete_Some. by apply (H3 t' ops').
  - intros t' ops' [_ H]%lookup_delete_Some. by apply (H4 t' ops').
Qed.

Lemma live_conns f s : live s → dom (sv_conns s) ⊆ dom (f (sv_conns s)) → live (with_conns f s).
Proof.
  intros [H1 H2 H3 H4] Hf. split; cbn [with_conns sv_clients sv_peers sv_conns sv_threads].
  - by etrans.
  - intros p c H. by apply Hf, (H2 p).
  - intros t ops c H Hc. by apply Hf, (H3 t ops).
  - intros t ops H. by eapply (ops_live_mono s), H4.
Qed.

Lemma live_alter f c s : live s → live (with_conns (alter f c) s).
Proof. intros H. apply live_conns; [done|]. by rewrite dom_alter_L. Qed.

Lemma unregister_sub c s p i : unregister c s !! p = Some i → sv_peers s !! p = Some i.
Proof. unfold unregister. case_decide; [|done]. by intros [_ Hp]%lookup_delete_Some. Qed.

Lemma ops_live_bind s c (l : list nat) f : (∀ i, i ∈ l → ops_live s (f i)) → ops_live s (c ++ (l ≫= f)) ↔ ops_live s c.
Proof.
  intros H. unfold ops_live. rewrite Forall_app. split; [by intros [? _]|]. split; [done|].
  apply Forall_bind, Forall_forall. intros i Hi. by apply H.
Qed.

Lemma ops_live_failed s c f : c ∈ dom (sv_conns s) → Forall (λ c, c ∈ dom (sv_conns s)) (fail_conns f) →
  ops_live s (failed c f).
Proof. intros Hc Hf. destruct f; repeat constructor; try done. by inv Hf. Qed.

Lemma in_order ch l c (d : gset nat) : good_choice ch → l ⊆ d → c ∈ ch_order ch l → c ∈ d.
Proof. intros Hg Hsub Hc. rewrite (Hg l), elem_of_elements in Hc. by apply Hsub. Qed.

Lemma live_exec ch o s s1 b : live s → good_choice ch → Forall (λ c, c ∈ dom (sv_conns s)) (op_conns o) →
  exec ch o s = Some (s1, b) → live s1 ∧ ops_live s1 b.
Proof.
  intros Hl Hg Ho He. pose proof Hl as [H1 H2 H3 H4].
  destruct o; cbn [exec op_conns] in *; try (apply Forall_cons in Ho as [Hc Ho]).
  - case_match; simplify_eq; [by split; [|constructor]|]. cbn [addClient app].
    set (n := fresh _). assert (n ∈ dom (<[n:=newClientConn]> (sv_conns s))) by (rewrite dom_insert_L; set_solver).
    split; [apply live_conns; [done|rewrite dom_insert_L; set_solver]|]. by repeat constructor.
  - simplify_eq. split; [|constructor]. split; cbn; [set_solver|done|done|done].
  - simplify_eq. split; [|constructor].
    change (live (with_threads <[Reader c := []]> (with_threads <[Writer c := []]> s))).
    apply live_insert; [apply live_insert; [done| |constructor]| |constructor]; by intros ? ->%list_elem_of_singleton.
  - simplify_eq. split; [|constructor]. split; cbn; [set_solver| |done|done].
    intros p i Hi%unregister_sub. by apply (H2 p).
  - repeat case_match; simplify_eq; [|by split; [|constructor]]. split; [by apply live_alter|].
    repeat constructor; cbn; by rewrite dom_alter_L.
  - simplify_eq. by split; [apply live_alter|constructor].
  - case_match; simplify_eq; (split; [|constructor]); [by split|by apply live_alter].
  - simplify_eq. by split; [apply live_alter|constructor].
  - simplify_eq. split; [|constructor]. split; cbn; [done| |done|done].
    intros p i [[<- <-]|[_ Hx]]%lookup_insert_Some; [done|by apply (H2 p)].
  - simplify_eq. split; [done|]. destruct (sv_peers s1 !! _) as [i|] eqn:E; repeat constructor; try done. by apply H2 in E.
  - simplify_eq. split; [done|]. apply (ops_live_bind _ []); [|constructor].
    intros i [_ Hi]%list_elem_of_filter. repeat constructor. by eapply in_order.
  - simplify_eq. split; [done|]. case_match; [by apply ops_live_failed|]. by repeat constructor.
  - repeat case_match; simplify_eq; (split; [|try constructor]); [by split|by apply live_alter|done|by apply ops_live_failed].
  - simplify_eq. split; [done|]. by repeat constructor.
  - simplify_eq. split; [by split|]. apply (ops_live_bind _ [_]); [|by repeat constructor].
    intros i Hi. repeat constructor. by eapply in_order.
  - simplify_eq. by split; [split|constructor].
  - case_match; simplify_eq. by split; [|constructor].
  - simplify_eq. by split; [|constructor].
Qed.

Lemma live_received s c m : c ∈ dom (sv_conns s) → ops_live s (received c m).
Proof.
  intros Hc. unfold received, broadcast. destruct (Validate m); [|constructor].
  apply Forall_app. split; case_decide; by repeat constructor.
Qed.

Lemma live_exit s c : c ∈ dom (sv_conns s) → ops_live s (removeClient c ++ [OpExit]).
Proof. intros Hc. by repeat constructor. Qed.

Lemma reader_live t s ops c : live s → sv_threads s !! t = Some ops → thread_conns t = [c] → c ∈ dom (sv_conns s).
Proof. intros Hl Ht E. apply (lv_threads s Hl t ops c Ht). rewrite E. by apply list_elem_of_singleton. Qed.

(** ** Steps by kind *)

(** What a goroutine's loop goes on with. *)
Definition resumes (s : Server) (t : thread) (ops : list op) : Prop :=
  (t = Serving ∧ (ops = [OpAccept] ∨ ops = [OpExit])) ∨
  ∃ c, thread_conns t = [c] ∧ (ops = [] ∨ (∃ m, ops = received c m) ∨ ops = removeClient c ++ [OpExit]).

Inductive steps (s : Server) : Server → Prop :=
  | StepResume t ops : sv_threads s !! t = Some [] → resumes s t ops → steps s (with_threads <[t := ops]> s)
  | StepWrite c m rest sent ops : sv_threads s !! Writer c = Some [] → resumes s (Writer c) ops →
      cc_writeCh (get_conn s c) = m :: rest →
      steps s (with_conns (alter (pop m rest sent) c) (with_threads <[Writer c := ops]> s))
  | StepStop : sv_shutdownOnce s = false →
      steps s (mkServer (sv_clients s) (sv_peers s) (sv_closed s) (sv_listening s) true (sv_conns s)
                 (<[Stopping := [OpShutdown; OpWait; OpExit]]> (sv_threads s)) (sv_panicked s))
  | StepExit t ops : sv_threads s !! t = Some (OpExit :: ops) → steps s (with_threads (delete t) s)
  | StepExec t ch o ops s1 b : good_choice ch → o ≠ OpExit → sv_threads s !! t = Some (o :: ops) →
      exec ch o s = Some (s1, b) → steps s (with_threads <[t := b ++ ops]> s1).

Lemma op_exit o : o = OpExit ∨ o ≠ OpExit.
Proof. destruct o; try (left; reflexivity); right; discriminate. Qed.

Lemma step_steps ev s s' : good_event ev → step ev s = Some s' → steps s s'.
Proof.
  intros Hg Hs. unfold step in Hs. destruct (sv_panicked s) eqn:Hp; [done|].
  destruct ev as [| |c [m|]|c sent|c| |t ch].
  - case_match; [|done]. apply resume_inv in Hs as [Ht ->]. apply StepResume; [done|left; naive_solver].
  - apply resume_inv in Hs as [Ht ->]. apply StepResume; [done|left; naive_solver].
  - case_match; [done|]. apply resume_inv in Hs as [Ht ->]. apply StepResume; [done|]. right. exists c. naive_solver.
  - apply resume_inv in Hs as [Ht ->]. apply StepResume; [done|]. right. exists c. naive_solver.
  - destruct (cc_writeCh _) as [|m rest] eqn:E; [done|].
    apply bind_Some in Hs as (s1 & [Ht ->]%resume_inv & [= <-]). apply StepWrite; [done| |done].
    right. exists c. destruct sent; naive_solver.
  - case_match; [|done]. apply resume_inv in Hs as [Ht ->]. apply StepResume; [done|]. right. exists c. naive_solver.
  - case_match; [done|]. simplify_eq. pose proof (StepStop s H) as Hst. by rewrite Hp in Hst.
  - destruct (sv_threads s !! t) as [ops|] eqn:Ht; [|done]. destruct ops as [|o ops]; [done|].
    destruct (op_exit o) as [->|Hne]; [simplify_eq; by eapply StepExit|].
    assert (Hx : exec ch o s ≫= (λ '(s, before), Some (with_threads <[t := before ++ ops]> s)) = Some s').
    { destruct o; try exact Hs. exfalso. by apply Hne. }
    apply bind_Some in Hx as ([s1 b] & He & [= <-]). by eapply StepExec.
Qed.

Lemma live_steps s s' : steps s s' → live s → live s'.
Proof.
  assert (Hres : ∀ t ops, live s → sv_threads s !! t = Some [] → resumes s t ops → live (with_threads <[t := ops]> s)).
  { intros t ops Hl Ht Hr. apply live_insert; [done|intros c; by apply (lv_threads s Hl t [])|].
    destruct Hr as [[-> [->| ->]]|(c & Hc & Hr)]; [by repeat constructor..|].
    assert (Hd : c ∈ dom (sv_conns s)) by (eapply reader_live; done).
    destruct Hr as [->|[[m ->]| ->]]; [constructor|by apply live_received|by apply live_exit]. }
  intros [t ops Ht Hr|c m rest sent ops Ht Hr _|Hst|t ops Ht|t ch o ops s1 b Hg Hx Ht He] Hl.
  - by apply Hres.
  - by apply live_alter, Hres.
  - apply (live_insert Stopping [OpShutdown; OpWait; OpExit]
      (mkServer (sv_clients s) (sv_peers s) (sv_closed s) (sv_listening s) true (sv_conns s) (sv_threads s) (sv_panicked s))).
    + destruct Hl. by split.
    + by intros c Hc%elem_of_nil.
    + by repeat constructor.
  - by apply live_delete.
  - assert (Hops := lv_ops s Hl t _ Ht). apply Forall_cons in Hops as [Ho Hops].
    destruct (live_exec _ _ _ _ _ Hl Hg Ho He) as [Hl1 Hb].
    assert (Hd := exec_dom _ _ _ _ _ He). apply live_insert; [done| |].
    + intros c Hc. by eapply Hd, (lv_threads s Hl t).
    + apply Forall_app. split; [done|]. by eapply ops_live_mono.
Qed.

(** ** Bounds *)

Lemma map_Forall_alter {V} (P : V → Prop) f c (m : gmap nat V) :
  (∀ x, m !! c = Some x → P x → P (f x)) → map_Forall (λ _, P) m → map_Forall (λ _, P) (alter f c m).
Proof. intros Hf Hm i x [[<- (y & Hy & ->)]|[_ H]]%lookup_alter_Some; [apply Hf, (Hm c y); done|by apply (Hm i)]. Qed.

Definition queue_ok (s : Server) : Prop := map_Forall (λ _ cc, (length (cc_writeCh cc) ≤ writeBuf)%nat) (sv_conns s).

Lemma queue_exec ch o s s1 b : queue_ok s → exec ch o s = Some (s1, b) → queue_ok s1.
Proof.
  unfold queue_ok. intros Hq He. destruct o; cbn [exec] in He; repeat case_match; simplify_eq/=; try done.
  all: try (apply map_Forall_alter; [by intros x _|done]).
  - apply map_Forall_insert_2; [cbn; unfold writeBuf; lia|done].
  - apply map_Forall_alter; [|done]. intros x Hx _. match goal with H : (_ <? _)%nat = true |- _ => apply Nat.ltb_lt in H as Hlt end.
    unfold get_conn in Hlt. rewrite Hx in Hlt. cbn [push cc_writeCh default from_option id] in *.
    rewrite length_app. cbn [length]. lia.
Qed.

Definition no_serve (ops : list op) : Prop := Forall (λ o, serve_op o = false) ops.

Lemma no_serve_bind (l : list nat) f : (∀ i, no_serve (f i)) → no_serve (l ≫= f).
Proof. intros H. by apply Forall_bind, Forall_true. Qed.

Lemma no_serve_received c m : no_serve (received c m).
Proof.
  unfold received, broadcast. destruct (Validate m); [|constructor].
  apply Forall_app. split; case_decide; by repeat constructor.
Qed.

Lemma exec_other ch o s s1 b : serve_op o = false → exec ch o s = Some (s1, b) →
  no_serve b ∧ sv_clients s1 ⊆ sv_clients s ∧ sv_threads s1 = sv_threads s.
Proof.
  intros Ho He. rewrite (exec_threads _ _ _ _ _ He). unfold no_serve.
  destruct o; cbn [exec serve_op] in *; try done; repeat case_match; simplify_eq/=; split_and!; try done.
  all: try (by repeat constructor).
  all: try (unfold failed; case_match; by repeat constructor).
  - set_solver.
  - apply no_serve_bind. intros i. by repeat constructor.
  - constructor; [done|]. apply no_serve_bind. intros i. by repeat constructor.
Qed.

Lemma serving_mono ops s s' : serving ops s → (size (sv_clients s') ≤ size (sv_clients s))%nat →
  (∀ t, sv_threads s !! t = None → sv_threads s' !! t = None) → serving ops s'.
Proof.
  intros [->|[->|[->|(c & Hr & Hw & Hc)]]] Hs Ht; [by left|by right; left|by right; right; left|]. right. right. right. exists c.
  split_and!; [by apply Ht..|]. destruct Hc as [[-> Hlt]| ->]; [left|by right]. split; [done|lia].
Qed.

Lemma bounded_insert t ops s : bounded s → is_Some (sv_threads s !! t) →
  (t = Serving → serving ops s) → (t ≠ Serving → no_serve ops) → bounded (with_threads <[t := ops]> s).
Proof.
  intros [H1 H2 H3 H4 H5] [ops0 Ht] Hv Ho.
  assert (Hn : ∀ t', sv_threads s !! t' = None → <[t := ops]> (sv_threads s) !! t' = None).
  { intros t' Hx. rewrite lookup_insert_ne; [done|]. by intros <-; rewrite Hx in Ht. }
  split; cbn [with_threads sv_clients sv_conns sv_threads sv_shutdownOnce]; [done|done| | |].
  - intros ops' [[-> <-]|[_ H]]%lookup_insert_Some;
      (apply (serving_mono _ s); [|done|exact Hn]); [by apply Hv|by apply H3].
  - intros t' ops' o [[<- <-]|[_ H]]%lookup_insert_Some Hne Hin; [|by apply (H4 t' ops')].
    specialize (Ho Hne). unfold no_serve in Ho. rewrite Forall_forall in Ho. by apply Ho.
  - intros Hst. by apply Hn, H5.
Qed.

(** A step of a goroutine other than [Serve]. *)
Lemma bounded_other s s1 : bounded s → queue_ok s1 → sv_clients s1 ⊆ sv_clients s → sv_threads s1 = sv_threads s →
  sv_shutdownOnce s1 = sv_shutdownOnce s → bounded s1.
Proof.
  intros [H1 H2 H3 H4 H5] Hq Hc Ht Hst. apply subseteq_size in Hc.
  split; rewrite ?Ht; [lia|done| |done|by rewrite Hst].
  intros ops Ho. apply (serving_mono _ s); [by apply H3|done|by rewrite Ht].
Qed.

Lemma exec_once ch o s s1 b : exec ch o s = Some (s1, b) → sv_shutdownOnce s1 = sv_shutdownOnce s.
Proof. destruct o; cbn [exec]; intros; repeat case_match; simplify_eq/=; done. Qed.

Lemma bounded_serving ch o ops s s1 b : live s → bounded s → sv_threads s !! Serving = Some (o :: ops) →
  exec ch o s = Some (s1, b) → bounded (with_threads <[Serving := b ++ ops]> s1).
Proof.
  intros Hl Hb Ht He. assert (Hq := queue_exec _ _ _ _ _ (bd_queue s Hb) He).
  destruct (bd_serving s Hb _ Ht) as [[=]|[[= -> ->]|[[= -> ->]|(c & Hr & Hw & [[[= -> ->] Hlt]|[= -> ->]])]]]; cbn [exec] in He.
  - case_match; simplify_eq.
    + apply bounded_insert; [done|by eexists|by left|by intros].
    + match goal with H : (_ <=? _)%nat = false |- _ => apply Nat.leb_gt in H end.
      set (c := fresh (dom (sv_conns s))) in *. assert (Hc : c ∉ dom (sv_conns s)) by apply is_fresh.
      assert (Hno : ∀ t, thread_conns t = [c] → sv_threads s !! t = None).
      { intros t Et. destruct (sv_threads s !! t) eqn:E; [|done]. destruct Hc. by eapply reader_live. }
      apply bounded_insert; [by eapply bounded_other|by eexists| |done]. intros _. right. right. right. exists c.
      split_and!; [by apply Hno..|]. by left.
  - simplify_eq. apply bounded_insert; [done|by eexists|by left|by intros].
  - simplify_eq. destruct Hb as [H1 H2 H3 H4 H5].
    split; cbn [with_threads with_clients sv_clients sv_conns sv_threads sv_shutdownOnce]; [|done| | |].
    + pose proof (size_union_alt {[c]} (sv_clients s)) as Hsz. rewrite size_singleton in Hsz.
      assert (size (sv_clients s ∖ {[c]}) ≤ size (sv_clients s))%nat by (apply subseteq_size; set_solver). lia.
    + intros ops' [[_ <-]|[? _]]%lookup_insert_Some; [|done]. right. right. right. exists c. cbn. rewrite !lookup_insert_ne by done. naive_solver.
    + intros t ops' o [[<- _]|[_ H]]%lookup_insert_Some Hne; [done|by apply (H4 t)].
    + intros Hst. rewrite lookup_insert_ne by done. by apply H5.
  - simplify_eq. destruct Hb as [H1 H2 H3 H4 H5].
    split; cbn [with_threads sv_clients sv_conns sv_threads sv_shutdownOnce app]; [done|done| | |].
    + intros ops' [[_ <-]|[? _]]%lookup_insert_Some; [by left|done].
    + intros t ops' o [[<- _]|[_ [[<- <-]|[_ [[<- <-]|[_ H]]%lookup_insert_Some]]%lookup_insert_Some]]%lookup_insert_Some Hne Hin;
        [done|by apply elem_of_nil in Hin..|by apply (H4 t ops')].
    + intros Hst. rewrite !lookup_insert_ne by done. by apply H5.
Qed.

Lemma bounded_steps s s' : steps s s' → live s → bounded s → bounded s'.
Proof.
  assert (Hres : ∀ t ops, bounded s → sv_threads s !! t = Some [] → resumes s t ops → bounded (with_threads <[t := ops]> s)).
  { intros t ops Hb Ht Hr. apply bounded_insert; [done|by eexists| |].
    - intros ->. destruct Hr as [[_ [->| ->]]|(c & [=] & _)]; [by right; left|by right; right; left].
    - intros Hne. destruct Hr as [[-> _]|(c & Hc & [->|[[m ->]| ->]])]; [done|constructor|apply no_serve_received|].
      by repeat constructor. }
  intros [t ops Ht Hr|c m rest sent ops Ht Hr Hm|Hst|t ops Ht|t ch o ops s1 b Hg Hx Ht He] Hl Hb.
  - by apply Hres.
  - apply (bounded_other (with_threads <[Writer c := ops]> s)); [by apply Hres| |done..].
    apply map_Forall_alter; [|apply Hb]. intros x Hx Hlen. unfold get_conn in Hm. cbn in Hx. rewrite Hx in Hm.
    cbn in *. rewrite Hm in Hlen. cbn in Hlen. lia.
  - destruct Hb as [H1 H2 H3 H4 H5]. specialize (H5 Hst).
    split; cbn [sv_clients sv_conns sv_threads sv_shutdownOnce]; [done|done| | |done].
    + intros ops. rewrite lookup_insert_ne by done. intros Ho. destruct (H3 ops Ho) as [->|[->|[->|(c & Hc)]]]; [by left|by right; left|by right; right; left|].
      right. right. right. exists c. cbn. by rewrite !lookup_insert_ne by done.
    + intros t ops o [[<- <-]|[_ H]]%lookup_insert_Some Hne Hin; [|by apply (H4 t ops)].
      repeat (apply elem_of_cons in Hin as [->|Hin]; [done|]). by apply elem_of_nil in Hin.
  - destruct Hb as [H1 H2 H3 H4 H5]. split; cbn [with_threads sv_clients sv_conns sv_threads sv_shutdownOnce]; [done|done| | |].
    + intros ops' [_ Ho]%lookup_delete_Some. apply (serving_mono _ s); [by apply H3|done|].
      intros t' Hx. cbn. apply lookup_delete_None. by right.
    + intros t' ops' o [_ H]%lookup_delete_Some. by apply (H4 t').
    + intros Hst. apply lookup_delete_None. right. by apply H5.
  - destruct (decide (t = Serving)) as [->|Hne]; [by eapply bounded_serving|].
    assert (Ho : serve_op o = false) by (eapply (bd_others s Hb t); [done..|by left]).
    destruct (exec_other _ _ _ _ _ Ho He) as (Hns & Hc & Hth).
    apply bounded_insert.
    + eapply bounded_other; [done| |done|done|by eapply exec_once]. eapply queue_exec; [apply Hb|done].
    + rewrite Hth. by eexists.
    + done.
    + intros _. apply Forall_app. split; [done|]. apply Forall_forall. intros o' Hin.
      eapply (bd_others s Hb t); [done..|by right].
Qed.

(** ** Closing *)

Lemma get_conn_eq f c s : c ∈ dom (sv_conns s) → get_conn (with_conns (alter f c) s) c = f (get_conn s c).
Proof. intros [cc Hc]%elem_of_dom. unfold get_conn. cbn. rewrite lookup_alter_eq. by rewrite Hc. Qed.

Lemma get_conn_ne f c c' s : c' ≠ c → get_conn (with_conns (alter f c) s) c' = get_conn s c'.
Proof. intros Hc. unfold get_conn. cbn. by rewrite lookup_alter_ne by done. Qed.

(** The progress of closing each client is the same. *)
Definition same_closing (s s' : Server) : Prop := ∀ c,
  cc_once (get_conn s' c) = cc_once (get_conn s c) ∧
  cc_chClosed (get_conn s' c) = cc_chClosed (get_conn s c) ∧
  cc_closedN (get_conn s' c) = cc_closedN (get_conn s c).

Lemma same_closing_alter f c s :
  (∀ cc, cc_once (f cc) = cc_once cc ∧ cc_chClosed (f cc) = cc_chClosed cc ∧ cc_closedN (f cc) = cc_closedN cc) →
  same_closing s (with_conns (alter f c) s).
Proof.
  intros Hf c'. destruct (decide (c' = c)) as [->|Hne]; [|by rewrite get_conn_ne].
  destruct (decide (c ∈ dom (sv_conns s))) as [Hd|Hd]; [rewrite get_conn_eq by done; apply Hf|].
  apply not_elem_of_dom in Hd. unfold get_conn. cbn. by rewrite lookup_alter_eq, Hd.
Qed.

Lemma shape_calm ops : calm ops → shape ops.
Proof.
  intros Hc. destruct ops as [|o ops]; [done|]. specialize (Hc o (list_elem_of_here _ _)) as Ho.
  by destruct o.
Qed.

Lemma closing_calm ops : calm ops → closing ops = None.
Proof.
  intros Hc. destruct ops as [|o ops]; [done|]. specialize (Hc o (list_elem_of_here _ _)). by destruct o.
Qed.

Lemma calm_app a b : calm a → calm b → calm (a ++ b).
Proof. intros Ha Hb o [H|H]%elem_of_app; auto. Qed.

Lemma calm_cons o ops : calm (o :: ops) ↔ close_op o = false ∧ calm ops.
Proof.
  split.
  - intros H. split; [apply H; left|]. intros o' Ho'. apply H. by right.
  - intros [Ho Hops] o' [->|H]%elem_of_cons; auto.
Qed.

Lemma calm_Forall ops : Forall (λ o, close_op o = false) ops → calm ops.
Proof. intros H o Ho. rewrite Forall_forall in H. by apply H. Qed.

Lemma calm_bind (l : list nat) f : (∀ i, calm (f i)) → calm (l ≫= f).
Proof. intros H o (i & Hi & Hl)%list_elem_of_bind. by apply (H i). Qed.

Lemma calm_nil : calm [].
Proof. by intros o Ho%elem_of_nil. Qed.

Lemma calm_received c m : calm (received c m).
Proof.
  apply calm_Forall. unfold received, broadcast. destruct (Validate m); [|constructor].
  apply Forall_app. split; case_decide; by repeat constructor.
Qed.

Lemma calm_failed c f : calm (failed c f).
Proof. apply calm_Forall. destruct f; by repeat constructor. Qed.

Lemma exec_quiet ch o s s1 b : exec ch o s = Some (s1, b) → close_op o = false → (∀ c, o ≠ OpClose c) →
  calm b ∧ same_closing s s1.
Proof.
  intros He Ho Hn.
  assert (Hsame : same_closing s s) by done.
  destruct o; cbn [exec close_op] in *; try done; try (by destruct (Hn c)).
  - case_match; simplify_eq; [by split; [apply calm_nil|]|]. split; [by apply calm_Forall; repeat constructor|].
    intros c. unfold get_conn. cbn. set (n := fresh _). assert (Hf : n ∉ dom (sv_conns s)) by apply is_fresh.
    apply not_elem_of_dom in Hf. destruct (decide (n = c)) as [<-|Hne]; [by rewrite lookup_insert_eq, Hf|].
    by rewrite lookup_insert_ne.
  - simplify_eq. by split; [apply calm_nil|].
  - simplify_eq. by split; [apply calm_nil|].
  - simplify_eq. by split; [apply calm_nil|].
  - simplify_eq. split; [apply calm_nil|]. by apply same_closing_alter.
  - simplify_eq. by split; [apply calm_nil|].
  - simplify_eq. split; [|done]. case_match; by apply calm_Forall; repeat constructor.
  - simplify_eq. split; [|done]. apply calm_bind. intros i. by apply calm_Forall; repeat constructor.
  - simplify_eq. split; [|done]. case_match; [apply calm_failed|by apply calm_Forall; repeat constructor].
  - repeat case_match; simplify_eq; (split; [apply calm_nil || apply calm_failed|]); [done| |done].
    by apply same_closing_alter.
  - simplify_eq. split; [|done]. by apply calm_Forall; repeat constructor.
  - simplify_eq. split; [|done]. apply calm_cons. split; [done|]. apply calm_bind. intros i. by apply calm_Forall; repeat constructor.
  - simplify_eq. by split; [apply calm_nil|].
  - case_match; simplify_eq. by split; [apply calm_nil|].
  - simplify_eq. by split; [apply calm_nil|].
Qed.

Lemma closes_same s s1 : closes s → same_closing s s1 → sv_threads s1 = sv_threads s → closes s1.
Proof.
  intros [H1 H2 H3 H4 H5 H6 H7 H8] Hs Ht. split; rewrite ?Ht; try done.
  - intros t ops c Ho Hc. rewrite (proj1 (Hs c)). by eapply H2.
  - intros t c rest Ho. rewrite (proj2 (proj2 (Hs c))). by eapply H3.
  - intros c. rewrite (proj1 (Hs c)). apply H5.
  - intros c. destruct (Hs c) as (-> & -> & _). apply H6.
  - intros c. destruct (Hs c) as (-> & _ & ->). apply H7.
  - intros c. destruct (Hs c) as (-> & _ & ->). apply H8.
Qed.

(** A goroutine that is not closing goes on without closing. *)
Lemma closes_insert t ops s : closes s → (∀ ops0, sv_threads s !! t = Some ops0 → closing ops0 = None) →
  calm ops → closes (with_threads <[t := ops]> s).
Proof.
  intros [H1 H2 H3 H4 H5 H6 H7 H8] Ht Hc. assert (Hn := closing_calm ops Hc).
  split; cbn [with_threads sv_threads]; try done.
  - intros t' ops' [[<- <-]|[_ H]]%lookup_insert_Some; [by apply shape_calm|by apply (H1 t')].
  - intros t' ops' c [[<- <-]|[_ H]]%lookup_insert_Some Hcl; [by rewrite Hn in Hcl|by eapply (H2 t' ops')].
  - intros t' c rest [[<- ->]|[_ H]]%lookup_insert_Some; [done|by eapply H3].
  - intros t1 t2 ops1 ops2 c [[<- <-]|[_ Ha]]%lookup_insert_Some [[<- <-]|[_ Hb]]%lookup_insert_Some Hc1 Hc2;
      [done|by rewrite Hn in Hc1|by rewrite Hn in Hc2|by eapply (H4 t1 t2 ops1 ops2)].
  - intros c Hr. destruct (H5 c Hr) as (t' & ops' & Ho & Hcl). exists t', ops'. split; [|done].
    rewrite lookup_insert_ne; [done|]. intros <-. by rewrite (Ht _ Ho) in Hcl.
Qed.

Lemma closes_delete t s : closes s → (∀ ops0, sv_threads s !! t = Some ops0 → closing ops0 = None) →
  closes (with_threads (delete t) s).
Proof.
  intros [H1 H2 H3 H4 H5 H6 H7 H8] Ht. split; cbn [with_threads sv_threads]; try done.
  - intros t' ops' [_ H]%lookup_delete_Some. by apply (H1 t').
  - intros t' ops' c [_ H]%lookup_delete_Some. by eapply (H2 t').
  - intros t' c rest [_ H]%lookup_delete_Some. by eapply H3.
  - intros t1 t2 ops1 ops2 c [_ Ha]%lookup_delete_Some [_ Hb]%lookup_delete_Some. by eapply (H4 t1 t2 ops1 ops2).
  - intros c Hr. destruct (H5 c Hr) as (t' & ops' & Ho & Hcl). exists t', ops'. split; [|done].
    rewrite lookup_delete_ne; [done|]. intros <-. by rewrite (Ht _ Ho) in Hcl.
Qed.

(** A goroutine makes a step in closing [c]. *)
Lemma closes_at t c f ops0 ops s : closes s → c ∈ dom (sv_conns s) → sv_threads s !! t = Some ops0 →
  closing ops0 = Some c ∨ (closing ops0 = None ∧ cc_once (get_conn s c) = OnceNew) → shape ops →
  (closing ops = Some c ∧ cc_once (f (get_conn s c)) = OnceRunning ∧ cc_chClosed (f (get_conn s c)) = false) ∨
  (closing ops = None ∧ cc_once (f (get_conn s c)) = OnceDone ∧ cc_chClosed (f (get_conn s c)) = true ∧
   cc_closedN (f (get_conn s c)) = true) →
  (∀ rest, ops = OpChannels c :: rest → cc_closedN (f (get_conn s c)) = true) →
  closes (with_threads <[t := ops]> (with_conns (alter f c) s)).
Proof.
  intros [H1 H2 H3 H4 H5 H6 H7 H8] Hd Ht Hpre Hsh Hpost Hfl.
  set (s' := with_conns (alter f c) s).
  assert (Heq : get_conn s' c = f (get_conn s c)) by by apply get_conn_eq.
  assert (Hne : ∀ c', c' ≠ c → get_conn s' c' = get_conn s c') by (intros; by apply get_conn_ne).
  assert (Hother : ∀ t' ops' c', t ≠ t' → sv_threads s !! t' = Some ops' → closing ops' = Some c' → c' ≠ c).
  { intros t' ops' c' Hn Ht' Hc' ->. destruct Hpre as [Hp|[_ Hp]]; [by destruct Hn; eapply (H4 t t' ops0 ops')|].
    by rewrite (H2 t' ops' c Ht' Hc') in Hp. }
  assert (Hmine : ∀ c', closing ops = Some c' → c' = c ∧ cc_once (f (get_conn s c)) = OnceRunning).
  { intros c' Hc'. destruct Hpost as [(Hp & Hr & _)|[Hp _]]; rewrite Hp in Hc'; [|done]. by injection Hc' as <-. }
  split; cbn [with_threads sv_threads with_conns s'].
  - intros t' ops' [[<- <-]|[_ H]]%lookup_insert_Some; [done|by apply (H1 t')].
  - intros t' ops' c' [[<- <-]|[Hn H]]%lookup_insert_Some Hc'; change (cc_once (get_conn s' c') = OnceRunning).
    + apply Hmine in Hc' as [-> Hr]. by rewrite Heq.
    + rewrite Hne by (by eapply Hother). by eapply H2.
  - intros t' c' rest [[<- Ho]|[Hn H]]%lookup_insert_Some; change (cc_closedN (get_conn s' c') = true).
    + destruct (Hmine c') as [-> _]; [by rewrite Ho|]. rewrite Heq. by eapply Hfl.
    + rewrite Hne; [by eapply H3|]. by eapply Hother.
  - intros t1 t2 ops1 ops2 c' [[<- <-]|[Hn1 Ha]]%lookup_insert_Some [[<- <-]|[Hn2 Hb]]%lookup_insert_Some Hc1 Hc2.
    + done.
    + apply Hmine in Hc1 as [-> _]. by destruct (Hother t2 ops2 c Hn2 Hb Hc2).
    + apply Hmine in Hc2 as [-> _]. by destruct (Hother t1 ops1 c Hn1 Ha Hc1).
    + by eapply (H4 t1 t2 ops1 ops2).
  - intros c' Hr. change (cc_once (get_conn s' c') = OnceRunning) in Hr. destruct (decide (c' = c)) as [->|Hn].
    + rewrite Heq in Hr. destruct Hpost as [(Hp & _)|(_ & Hp & _)]; [|by rewrite Hr in Hp].
      exists t, ops. by rewrite lookup_insert_eq.
    + rewrite Hne in Hr by done. destruct (H5 c' Hr) as (t' & ops' & Ho & Hc'). exists t', ops'. split; [|done].
      rewrite lookup_insert_ne; [done|]. intros <-. rewrite Ht in Ho. injection Ho as <-.
      destruct Hpre as [Hp|[Hp _]]; rewrite Hp in Hc'; [|done]. by injection Hc'.
  - intros c'. change (cc_chClosed (get_conn s' c') = true ↔ cc_once (get_conn s' c') = OnceDone).
    destruct (decide (c' = c)) as [->|Hn]; [|rewrite Hne by done; apply H6]. rewrite Heq.
    destruct Hpost as [(_ & -> & ->)|(_ & -> & -> & _)]; done.
  - intros c'. change (cc_once (get_conn s' c') = OnceDone → cc_closedN (get_conn s' c') = true).
    destruct (decide (c' = c)) as [->|Hn]; [|rewrite Hne by done; apply H7]. rewrite Heq.
    destruct Hpost as [(_ & -> & _)|(_ & _ & _ & ->)]; done.
  - intros c'. change (cc_once (get_conn s' c') = OnceNew → cc_closedN (get_conn s' c') = false).
    destruct (decide (c' = c)) as [->|Hn]; [|rewrite Hne by done; apply H8]. rewrite Heq.
    destruct Hpost as [(_ & -> & _)|(_ & -> & _)]; done.
Qed.

(** Only a closing goroutine closes: its client's channels are still open. *)
Lemma closing_open s t ops c : closes s → sv_threads s !! t = Some ops → closing ops = Some c →
  cc_chClosed (get_conn s c) = false.
Proof.
  intros Hc Ht Hcl. destruct (cc_chClosed (get_conn s c)) eqn:E; [|done].
  apply (cl_done s Hc) in E. by rewrite (cl_running s Hc t ops c Ht Hcl) in E.
Qed.

Lemma op_close o : (∃ c, o = OpClose c) ∨ ∀ c, o ≠ OpClose c.
Proof. destruct o; try (right; discriminate). left. by eexists. Qed.

Lemma closes_exec t ch o ops s s1 b : live s → bounded s → closes s → sv_threads s !! t = Some (o :: ops) →
  exec ch o s = Some (s1, b) → closes (with_threads <[t := b ++ ops]> s1).
Proof.
  intros Hl Hb Hc Ht He. assert (Hsh := cl_shape s Hc t _ Ht).
  assert (Hd : ∀ c, c ∈ op_conns o → c ∈ dom (sv_conns s)).
  { intros c. assert (H := lv_ops s Hl t _ Ht). apply Forall_cons in H as [H _]. rewrite Forall_forall in H. apply H. }
  destruct (close_op o) eqn:Eo.
  - destruct o; try done; cbn [exec shape] in *; simplify_eq.
    + destruct Hsh as (r & -> & Hr). eapply (closes_at t c); [done| |done|by left|done| |done].
      { apply Hd. by left. }
      left. split; [done|]. cbn. split; [by eapply (cl_running s Hc t)|by eapply closing_open].
    + rewrite (closing_open s t _ c Hc Ht eq_refl).
      eapply (closes_at t c); [done| |done|by left|by apply shape_calm| |].
      { apply Hd. by left. }
      * right. split; [by apply closing_calm|]. cbn. split_and!; [done..|by eapply (cl_flagged s Hc t)].
      * cbn [app]. intros rest Hr. rewrite Hr in Hsh. by specialize (Hsh (OpChannels c) (list_elem_of_here _ _)).
  - assert (Hcalm : calm (o :: ops)) by by destruct o.
    apply calm_cons in Hcalm as [_ Hcalm].
    assert (Hn : closing (o :: ops) = None) by (by destruct o).
    destruct (op_close o) as [[c ->]|Hnc].
    + cbn [exec] in He. case_match eqn:Eonce; simplify_eq.
      * eapply (closes_at t c); [done| |done|by right| | |done].
        { apply Hd. by left. }
        { cbn. by eexists. }
        left. split_and!; [done..|]. cbn. destruct (cc_chClosed (get_conn s c)) eqn:E; [|done].
        apply (cl_done s Hc) in E. by rewrite Eonce in E.
      * apply closes_insert; [done| |done]. intros ops0. rewrite Ht. by intros [= <-].
    + destruct (exec_quiet _ _ _ _ _ He Eo Hnc) as [Hcb Hsame]. assert (Hth := exec_threads _ _ _ _ _ He).
      assert (Hcalm' : calm (b ++ ops)) by by apply calm_app.
      destruct (serve_op o) eqn:Es.
      * assert (t = Serving) as ->.
        { destruct (decide (t = Serving)) as [|Hne]; [done|].
          assert (H := bd_others s Hb t _ o Ht Hne (list_elem_of_here _ _)). by rewrite Es in H. }
        destruct o; try done; [| |].
        1, 2: apply closes_insert; [by eapply closes_same| |done]; intros ops0; rewrite Hth, Ht; by intros [= <-].
        cbn [exec] in He. simplify_eq. destruct (bd_serving s Hb _ Ht) as [[=]|[[=]|[[=]|(c' & Hr & Hw & [[[=] _]|[= -> ->]])]]].
        apply closes_insert; [|by cbn; intros ops0; rewrite !lookup_insert_ne, Ht by done; intros [= <-]|done].
        change (closes (with_threads <[Reader c' := []]> (with_threads <[Writer c' := []]> s))).
        apply closes_insert; [apply closes_insert; [done| |apply calm_nil]| |apply calm_nil].
        -- intros ops0. by rewrite Hw.
        -- intros ops0. cbn. rewrite lookup_insert_ne by done. by rewrite Hr.
      * assert (Hth' : sv_threads s1 = sv_threads s) by (by destruct o).
        apply closes_insert; [by eapply closes_same| |done]. intros ops0. rewrite Hth', Ht. by intros [= <-].
Qed.

Lemma closes_steps s s' : steps s s' → live s → bounded s → closes s → closes s'.
Proof.
  assert (Hres : ∀ t ops, closes s → sv_threads s !! t = Some [] → resumes s t ops → closes (with_threads <[t := ops]> s)).
  { intros t ops Hc Ht Hr. apply closes_insert; [done|by intros ops0; rewrite Ht; intros [= <-]|].
    destruct Hr as [[-> [->| ->]]|(c & _ & [->|[[m ->]| ->]])]; [| |apply calm_nil|apply calm_received|];
      by apply calm_Forall; repeat constructor. }
  intros [t ops Ht Hr|c m rest sent ops Ht Hr _|Hst|t ops Ht|t ch o ops s1 b Hg Hx Ht He] Hl Hb Hc.
  - by apply Hres.
  - eapply closes_same; [by apply Hres| |done]. by apply same_closing_alter.
  - eapply (closes_same (with_threads <[Stopping := [OpShutdown; OpWait; OpExit]]> s)); [|done..].
    apply closes_insert; [done|by rewrite (bd_stop s Hb Hst)|]. by apply calm_Forall; repeat constructor.
  - apply closes_delete; [done|]. intros ops0. rewrite Ht. by intros [= <-].
  - by eapply closes_exec.
Qed.

Lemma wf_NewServer : wf_server NewServer.
Proof.
  split.
  - split; cbn; [set_solver|done| |].
    + intros t ops c [<- <-]%lookup_singleton_Some Hc. by apply elem_of_nil in Hc.
    + intros t ops [<- <-]%lookup_singleton_Some. constructor.
  - split; cbn; [unfold maxConnections; rewrite size_empty; lia|done| | |done].
    + intros ops [_ <-]%lookup_singleton_Some. by left.
    + by intros t ops o [<- _]%lookup_singleton_Some.
  - split; cbn; try done.
    + intros t ops [_ <-]%lookup_singleton_Some. by apply calm_nil.
    + by intros t ops c [_ <-]%lookup_singleton_Some.
    + by intros t c rest [_ ?]%lookup_singleton_Some.
    + by intros t1 t2 ops1 ops2 c [<- <-]%lookup_singleton_Some.
Qed.

Lemma wf_srv_reachable s : srv_reachable s → wf_server s.
Proof.
  apply reachable_invariant. split; [intros ? ->; apply wf_NewServer|].
  intros s1 s2 [Hl Hb Hc] (ev & Hg & Hs%step_steps); [|done].
  split; [by eapply live_steps|by eapply bounded_steps|by eapply closes_steps].
Qed.

(** ** Panics and progress *)

Lemma exec_panics ch o s s1 b : exec ch o s = Some (s1, b) → sv_panicked s1 = true → sv_panicked s = true ∨
  (∃ c m f, o = OpSend c m f ∧ cc_chClosed (get_conn s c) = true) ∨
  (∃ c, o = OpChannels c ∧ cc_chClosed (get_conn s c) = true).
Proof.
  intros He Hp. destruct o; cbn [exec] in He; repeat case_match; simplify_eq; try (by left).
  - right. right. by eexists.
  - right. left. by repeat eexists.
Qed.

Lemma steps_panics s s' : wf_server s → steps s s' → sv_panicked s = false → sv_panicked s' = true →
  ∃ t c m f ops, sv_threads s !! t = Some (OpSend c m f :: ops) ∧ cc_chClosed (get_conn s c) = true.
Proof.
  intros Hw [t ops Ht Hr|c m rest sent ops Ht Hr _|Hst|t ops Ht|t ch o ops s1 b Hg Hx Ht He] Hp Hp'; cbn in *; try congruence.
  destruct (exec_panics _ _ _ _ _ He Hp') as [H|[(c & m & f & -> & H)|(c & -> & H)]]; [congruence|by repeat eexists|].
  by rewrite (closing_open s t _ c (wf_closes s Hw) Ht eq_refl) in H.
Qed.

Lemma exec_enabled ch o s : exec ch o s = None →
  (∃ c, o = OpClose c ∧ cc_once (get_conn s c) = OnceRunning) ∨ (o = OpWait ∧ workers s ≠ []).
Proof.
  destruct o; cbn [exec]; intros; repeat case_match; simplify_eq; [left; by eexists|by right].
Qed.

Lemma step_run t ch o ops s : sv_panicked s = false → sv_threads s !! t = Some (o :: ops) →
  exec ch o s ≠ None → is_Some (step (EvRun t ch) s).
Proof.
  intros Hp Ht He. unfold step. rewrite Hp, Ht. destruct (exec ch o s) as [[s1 b]|] eqn:E; [|done].
  destruct o; cbn [mbind option_bind]; by eexists.
Qed.

(** ** Uninterrupted runs *)

Lemma run_mono n ch ops s s' k : run n ch ops s = Some s' → run (n + k) ch ops s = Some s'.
Proof.
  revert ops s. induction n as [|n IH]; intros ops s; destruct ops as [|o ops]; cbn [run Nat.add].
  - by destruct k.
  - done.
  - done.
  - destruct (exec ch o s) as [[s1 b]|]; [|done]. cbn [mbind option_bind]. apply IH.
Qed.

Lemma runs_nil ch s : runs ch [] s s.
Proof. by exists 0%nat. Qed.

Lemma runs_cons ch o ops s s1 b s' : exec ch o s = Some (s1, b) → runs ch (b ++ ops) s1 s' → runs ch (o :: ops) s s'.
Proof. intros He [n Hn]. exists (S n). cbn [run]. by rewrite He. Qed.

Lemma runs_app ch a b s s1 s' : runs ch a s s1 → runs ch b s1 s' → runs ch (a ++ b) s s'.
Proof.
  intros [n Hn] Hb. revert a s Hn. induction n as [|n IH]; intros a s Hn; (destruct a as [|o a]; [by injection Hn as ->|]); [done|].
  cbn [run] in Hn. apply bind_Some in Hn as ([s2 d] & He & Hn). rewrite <- app_comm_cons. eapply runs_cons; [done|].
  rewrite app_assoc. by apply IH.
Qed.

Lemma runs_one ch o s s1 b s' : exec ch o s = Some (s1, b) → runs ch b s1 s' → runs ch [o] s s'.
Proof. intros He Hr. eapply runs_cons; [done|]. by rewrite app_nil_r. Qed.

Lemma unhurried_reachable s : srv_reachable s → no_closing s → unhurried s.
Proof.
  intros Hw%wf_srv_reachable Hn c cc. subst cc. destruct (wf_closes s Hw) as [_ _ _ _ H5 H6 H7 H8].
  destruct (cc_once (get_conn s c)) eqn:E.
  - left. split; [done|]. split; [|by apply H8]. destruct (cc_chClosed (get_conn s c)) eqn:E2; [|done].
    apply H6 in E2. congruence.
  - destruct (H5 c E) as (t & ops & Ht & Hc). by rewrite (Hn t ops Ht) in Hc.
  - right. split; [done|]. split; [by apply H6|by apply H7].
Qed.

Lemma get_conn_alter f c c' s : get_conn (with_conns (alter f c) s) c' =
  if decide (c' = c ∧ c ∈ dom (sv_conns s)) then f (get_conn s c) else get_conn s c'.
Proof.
  case_decide as Hd; [by destruct Hd as [-> Hd]; apply get_conn_eq|].
  destruct (decide (c' = c)) as [->|Hne]; [|by apply get_conn_ne].
  destruct (decide (c ∈ dom (sv_conns s))) as [|Hn%not_elem_of_dom]; [by destruct Hd|].
  unfold get_conn. cbn. by rewrite lookup_alter_eq, Hn.
Qed.

Lemma with_conns_alter f g c s :
  with_conns (alter f c) (with_conns (alter g c) s) = with_conns (alter (f ∘ g) c) s.
Proof. unfold with_conns. cbn. by rewrite alter_alter_eq. Qed.

Lemma with_conns_id f c s : f (get_conn s c) = get_conn s c → with_conns (alter f c) s = s.
Proof.
  intros Hf. unfold with_conns. rewrite alter_id; [by destruct s|].
  intros x Hx. unfold get_conn in Hf. by rewrite Hx in Hf.
Qed.

Lemma runs_close ch c s : unhurried s → runs ch (close c) s (with_conns (alter shut c) s).
Proof.
  intros Hu. destruct (Hu c) as [(Ho & Hch & _)|(Ho & _)].
  - eapply runs_one; [cbn [exec]; by rewrite Ho|]. eapply runs_cons; [reflexivity|]. eapply runs_one; [|apply runs_nil].
    cbn [exec]. assert (cc_chClosed (get_conn (with_conns (alter set_closedN c) (with_conns (alter (set_once OnceRunning) c) s)) c) = false) as ->.
    { rewrite !get_conn_alter. by repeat case_decide. }
    f_equal. f_equal. rewrite !with_conns_alter. unfold with_conns. f_equal. apply alter_ext.
    intros cc Hcc. unfold get_conn in Ho. rewrite Hcc in Ho. cbn in Ho. unfold shut. by rewrite Ho.
  - eapply runs_one; [cbn [exec]; by rewrite Ho|]. rewrite with_conns_id; [apply runs_nil|]. unfold shut. by rewrite Ho.
Qed.

Lemma runs_remove ch c s : unhurried s → runs ch (removeClient c) s (drop c s).
Proof. intros Hu. eapply runs_cons; [reflexivity|]. by apply runs_close. Qed.

Lemma get_conn_drop c c' s : get_conn (drop c s) c' =
  if decide (c' = c ∧ c ∈ dom (sv_conns s)) then shut (get_conn s c) else get_conn s c'.
Proof. unfold drop. by rewrite get_conn_alter. Qed.

Lemma unhurried_drop c s : unhurried s → unhurried (drop c s).
Proof.
  intros Hu c' cc. subst cc. rewrite get_conn_drop. case_decide as Hd; [|apply Hu].
  unfold shut. destruct (Hu c) as [(Ho & H1 & H2)|(Ho & H1 & H2)]; rewrite Ho; [by right|]. right. done.
Qed.

Lemma unhurried_push m c s : unhurried s → unhurried (with_conns (alter (push m) c) s).
Proof. intros Hu c' cc. subst cc. rewrite get_conn_alter. case_decide; apply Hu. Qed.

(** Loading and selecting, one after the other. *)
Lemma runs_enqueue ch c m f s s' : unhurried s →
  (if accepts s c then s' = with_conns (alter (push m) c) s else runs ch (failed c f) s s') →
  runs ch (enqueue c m f) s s'.
Proof.
  unfold accepts. intros Hu Hs. destruct (Hu c) as [(_ & Hch & Hn)|(_ & _ & Hn)]; rewrite Hn in Hs; cbn [negb andb] in Hs.
  - eapply runs_one; [cbn [exec]; rewrite Hn; reflexivity|].
    destruct (length (cc_writeCh (get_conn s c)) <? writeBuf)%nat eqn:El.
    + subst s'. eapply runs_one; [cbn [exec]; rewrite Hch, El; reflexivity|apply runs_nil].
    + eapply runs_one; [cbn [exec]; rewrite Hch, El; reflexivity|done].
  - eapply runs_one; [cbn [exec]; rewrite Hn; reflexivity|done].
Qed.

Lemma unhurried_send m s c : unhurried s → unhurried (send m s c).
Proof. intros Hu. unfold send. case_match; [by apply unhurried_push|by apply unhurried_drop]. Qed.

Lemma runs_sends ch m l s : unhurried s → runs ch (l ≫= λ c, enqueue c m FailRemove) s (foldl (send m) s l).
Proof.
  revert s. induction l as [|c l IH]; intros s Hu; [apply runs_nil|]. cbn [foldl].
  change ((c :: l) ≫= λ c, enqueue c m FailRemove) with (enqueue c m FailRemove ++ (l ≫= λ c, enqueue c m FailRemove)).
  eapply (runs_app _ _ _ _ (send m s c)); [|by apply IH, unhurried_send].
  apply runs_enqueue; [done|]. unfold send. destruct (accepts s c); [done|]. by apply runs_remove.
Qed.

Lemma runs_reply ch m s c : unhurried s → runs ch (enqueue c m FailIgnore) s (reply m s c).
Proof. intros Hu. apply runs_enqueue; [done|]. unfold reply. destruct (accepts s c); [done|]. apply runs_nil. Qed.

(** ** The effect of a broadcast *)

Lemma get_conn_send_ne m s c c' : c' ≠ c → get_conn (send m s c) c' = get_conn s c'.
Proof.
  intros Hn. unfold send. case_match; rewrite ?get_conn_alter, ?get_conn_drop, decide_False; naive_solver.
Qed.

Lemma accepts_send_ne m s c c' : c' ≠ c → accepts (send m s c) c' = accepts s c'.
Proof. intros Hn. unfold accepts. by rewrite get_conn_send_ne. Qed.

Lemma send_dom m s c : dom (sv_conns (send m s c)) = dom (sv_conns s).
Proof. unfold send, drop. case_match; cbn; by rewrite dom_alter_L. Qed.

Lemma shut_queue cc : cc_writeCh (shut cc) = cc_writeCh cc.
Proof. unfold shut. by case_match. Qed.

Lemma send_queue m s c : c ∈ dom (sv_conns s) →
  cc_writeCh (get_conn (send m s c) c) = cc_writeCh (get_conn s c) ++ (if accepts s c then [m] else []).
Proof.
  intros Hd. unfold send. destruct (accepts s c); rewrite ?get_conn_alter, ?get_conn_drop, decide_True by done; [done|].
  by rewrite shut_queue, app_nil_r.
Qed.

Lemma send_clients m s c : sv_clients (send m s c) = if accepts s c then sv_clients s else sv_clients s ∖ {[c]}.
Proof. unfold send. by destruct (accepts s c). Qed.

Lemma send_panicked m s c : sv_panicked (send m s c) = sv_panicked s.
Proof. unfold send. by destruct (accepts s c). Qed.

Lemma sends_facts m l s : NoDup l → (∀ c, c ∈ l → c ∈ dom (sv_conns s)) →
  let s' := foldl (send m) s l in
  sv_panicked s' = sv_panicked s ∧
  (∀ c, cc_writeCh (get_conn s' c) =
    cc_writeCh (get_conn s c) ++ (if decide (c ∈ l ∧ accepts s c = true) then [m] else [])) ∧
  (∀ c, c ∈ sv_clients s' ↔ c ∈ sv_clients s ∧ (c ∈ l → accepts s c = true)).
Proof.
  intros Hnd. revert s. induction Hnd as [|c l Hc Hnd IH]; intros s Hd; cbn [foldl].
  - split_and!; [done| |]; intros c; [by rewrite decide_False, app_nil_r by (intros [?%elem_of_nil _]; done)|].
    split; [|by intros [? _]]. intros H. split; [done|]. by intros ?%elem_of_nil.
  - destruct (IH (send m s c)) as (H1 & H2 & H3).
    { intros c' Hc'. rewrite send_dom. apply Hd. by right. }
    split_and!; [by rewrite H1, send_panicked| |].
    + intros c'. rewrite H2. destruct (decide (c' = c)) as [->|Hn].
      * rewrite (decide_False (P:=c ∈ l ∧ _)) by naive_solver. rewrite app_nil_r, send_queue by (apply Hd; by left).
        f_equal. destruct (accepts s c); [rewrite decide_True; [done|split; [by left|done]]|by rewrite decide_False by naive_solver].
      * rewrite get_conn_send_ne, accepts_send_ne by done. f_equal.
        apply decide_ext. rewrite elem_of_cons. naive_solver.
    + intros c'. rewrite H3, send_clients. destruct (decide (c' = c)) as [->|Hn].
      * destruct (accepts s c) eqn:Ea; [|set_solver]. split; [intros [? _]; by split|]. intros [? _]. split; [done|]. by intros ?%Hc.
      * rewrite accepts_send_ne by done. destruct (accepts s c); rewrite elem_of_cons; set_solver.
Qed.

Lemma runs_lookup ch sender m s s' : TrimSpace (msg_RecipientID m) ≠ EmptyString → unhurried s →
  match sv_peers s !! msg_RecipientID m with
  | None => s' = reply (delivery_failed (ch_idTime ch) (ch_now ch) m "unknown or offline") s sender
  | Some c => s' = if accepts s c then with_conns (alter (push m) c) s
                   else reply (delivery_failed (ch_idTime ch) (ch_now ch) m "disconnected") (drop c s) sender
  end → runs ch (broadcast sender m) s s'.
Proof.
  intros Hr Hu Hs. unfold broadcast. rewrite decide_True by done. eapply runs_one; [reflexivity|].
  destruct (sv_peers s !! msg_RecipientID m) as [c|].
  - apply runs_enqueue; [done|]. destruct (accepts s c); [done|]. subst s'.
    eapply runs_app; [by apply runs_remove|]. eapply runs_one; [reflexivity|]. by apply runs_reply, unhurried_drop.
  - subst s'. eapply runs_one; [reflexivity|]. by apply runs_reply.
Qed.

Lemma play_reachable evs s s' : Forall good_event evs → srv_reachable s → play evs s = Some s' → srv_reachable s'.
Proof.
  intros Hg. revert s. induction Hg as [|ev evs Hev Hg IH]; intros s Hr; cbn [play]; [by intros [= <-]|].
  intros (s1 & Hs & Hp)%bind_Some. apply (IH s1); [|done]. eapply reachable_step; [done|]. by exists ev.
Qed.

Lemma good_go t n : Forall good_event (go t n).
Proof. apply Forall_replicate. by intros l. Qed.

Lemma good_racing : Forall good_event racing.
Proof.
  unfold racing, two_clients, connect. repeat (apply Forall_app; split); try apply good_go.
  all: repeat (constructor; [done|]); try apply good_go; constructor.
Qed.

(** The state with two clients. *)
Lemma two_clients_reached : ∃ s, play two_clients NewServer = Some s ∧ srv_reachable s ∧ no_closing s ∧
  elements (sv_clients s) = [1; 0]%nat ∧ sv_peers s !! "bob" = Some 1%nat ∧
  cc_writeCh (get_conn s 0) = [join_message "bob"] ∧ cc_writeCh (get_conn s 1) = [join_message "alice"] ∧
  accepts s 0 = true ∧ accepts s 1 = true.
Proof.
  assert (∃ s, play two_clients NewServer = Some s ∧ elements (sv_clients s) = [1; 0]%nat ∧
    bool_decide (map_Forall (λ _ ops, closing ops = None) (sv_threads s)) = true ∧ sv_peers s !! "bob" = Some 1%nat ∧
    cc_writeCh (get_conn s 0) = [join_message "bob"] ∧ cc_writeCh (get_conn s 1) = [join_message "alice"] ∧
    accepts s 0 = true ∧ accepts s 1 = true) as (s & Hs & He & Hn & H1 & H2 & H3 & H4 & H5)
    by (eexists; split; [vm_compute; reflexivity|split_and!; vm_compute; reflexivity]).
  exists s. split; [exact Hs|]. split.
  { apply (play_reachable two_clients NewServer); [|by apply reachable_init|exact Hs].
    assert (H := good_racing). unfold racing in H. by apply Forall_app in H as [H _]. }
  split_and!; try done. by apply bool_decide_eq_true in Hn.
Qed.

(** ** Properties *)

(** C9: under every interleaving of the goroutines, at most 256 clients are
    registered and at most sixteen messages wait for each, no channel is closed
    twice, and the only panic a step can end in is a send of [enqueue] to a
    client whose channel was closed after [enqueue] found it open. *)
Theorem server_safety s : srv_reachable s →
  (ActiveConnections s ≤ maxConnections)%nat ∧
  (∀ c cc, sv_conns s !! c = Some cc → (length (cc_writeCh cc) ≤ writeBuf)%nat) ∧
  ∀ s', srv_step s s' → sv_panicked s' = true →
    ∃ t c m f ops, sv_threads s !! t = Some (OpSend c m f :: ops) ∧ cc_chClosed (get_conn s c) = true.
Proof.
  intros Hw%wf_srv_reachable. assert (Hb := wf_bounded s Hw). split_and!; [apply Hb|apply Hb|].
  intros s' (ev & Hg & Hs) Hp. apply steps_panics with s'; [done|by eapply step_steps| |done].
  unfold step in Hs. by destruct (sv_panicked s).
Qed.

Lemma server_safety_witness : ∃ s, play two_clients NewServer = Some s ∧ (ActiveConnections s ≤ 256)%nat.
Proof.
  destruct two_clients_reached as (s & Hs & Hr & _). exists s. split; [exact Hs|]. exact (proj1 (server_safety s Hr)).
Defined.

(** There is such a panic: a client that leaves while another goroutine is
    between the check and the send of [enqueue] brings the server down. *)
Theorem enqueue_race : ∃ s, srv_reachable s ∧ sv_panicked s = true.
Proof.
  assert (∃ s, play racing NewServer = Some s ∧ sv_panicked s = true) as (s & Hs & Hp)
    by (eexists; split; [vm_compute; reflexivity|reflexivity]).
  exists s. split; [|done]. eapply (play_reachable racing NewServer); [apply good_racing| |done].
  by apply reachable_init.
Qed.

(** C34: no deadlock: as long as a goroutine has something to do, it can go on, or
    it waits for a client to be closed and the goroutine closing it can go on, or
    it is [Shutdown] and waits for the goroutine of a client. *)
Theorem server_progress s t o ops ch : srv_reachable s → sv_panicked s = false → good_choice ch →
  sv_threads s !! t = Some (o :: ops) →
  is_Some (step (EvRun t ch) s) ∨
  (∃ c t' ops', o = OpClose c ∧ sv_threads s !! t' = Some ops' ∧ closing ops' = Some c ∧ is_Some (step (EvRun t' ch) s)) ∨
  (o = OpWait ∧ ∃ t', t' ∈ workers s).
Proof.
  intros Hw%wf_srv_reachable Hp Hg Ht. destruct (exec ch o s) as [p|] eqn:E.
  - left. eapply step_run; [done|done|]. by rewrite E.
  - right. destruct (exec_enabled _ _ _ E) as [(c & -> & Hr)|[-> Hne]].
    + left. destruct (cl_owner s (wf_closes s Hw) c Hr) as (t' & ops' & Ht' & Hc). exists c, t', ops'. split_and!; [done..|].
      destruct ops' as [|o' ops']; [done|]. eapply step_run; [done|done|]. intros He.
      apply exec_enabled in He as [(c' & -> & _)|[-> _]]; done.
    + right. split; [done|]. destruct (workers s) as [|t' l]; [done|]. exists t'. by left.
Qed.

Lemma server_progress_witness : ∃ s, play [EvAccept] NewServer = Some s ∧
  (is_Some (step (EvRun Serving (any_choice 0)) s) ∨
   (∃ c t' ops', OpAccept = OpClose c ∧ sv_threads s !! t' = Some ops' ∧ closing ops' = Some c ∧
     is_Some (step (EvRun t' (any_choice 0)) s)) ∨
   (OpAccept = OpWait ∧ ∃ t', t' ∈ workers s)).
Proof.
  assert (∃ s, play [EvAccept] NewServer = Some s ∧ sv_panicked s = false ∧ sv_threads s !! Serving = Some [OpAccept])
    as (s & Hs & Hp & Ht) by (eexists; split; [vm_compute; reflexivity|split; reflexivity]).
  exists s. split; [exact Hs|]. apply (server_progress s Serving OpAccept [] (any_choice 0)); [|exact Hp|by intros l|exact Ht].
  apply (play_reachable [EvAccept] NewServer); [by repeat constructor|by apply reachable_init|exact Hs].
Defined.

(** A message to everybody, routed without interruption from any reachable
    state in which no client is half closed, ends without a panic, is appended
    once to the queue of each registered client but the sender that is open and
    has room, and leaves registered all but the others. *)
Theorem broadcast_delivers ch sender m s : srv_reachable s → no_closing s → good_choice ch →
  TrimSpace (msg_RecipientID m) = EmptyString →
  ∃ s', runs ch (broadcast sender m) s s' ∧ sv_panicked s' = sv_panicked s ∧
  (∀ c, cc_writeCh (get_conn s' c) = cc_writeCh (get_conn s c) ++
     (if decide (c ∈ sv_clients s ∧ c ≠ sender ∧ accepts s c = true) then [m] else [])) ∧
  (∀ c, c ∈ sv_clients s' ↔ c ∈ sv_clients s ∧ (c = sender ∨ accepts s c = true)).
Proof.
  intros Hr Hn Hg Hm. assert (Hu := unhurried_reachable s Hr Hn). apply wf_srv_reachable in Hr as Hw.
  set (l := filter (λ c, c ≠ sender) (ch_order ch (sv_clients s))).
  assert (Hl : ∀ c, c ∈ l ↔ c ∈ sv_clients s ∧ c ≠ sender).
  { intros c. unfold l. rewrite list_elem_of_filter, (Hg (sv_clients s)), elem_of_elements. naive_solver. }
  destruct (sends_facts m l s) as (H1 & H2 & H3).
  { unfold l. apply NoDup_filter. rewrite (Hg (sv_clients s)). apply NoDup_elements. }
  { intros c [Hc _]%Hl. by apply (lv_clients s (wf_live s Hw)). }
  exists (foldl (send m) s l). split_and!; [|exact H1| |].
  - unfold broadcast. rewrite decide_False by naive_solver. eapply runs_one; [reflexivity|]. by apply runs_sends.
  - intros c. rewrite H2. f_equal. apply decide_ext. rewrite Hl. naive_solver.
  - intros c. rewrite H3, Hl. destruct (decide (c = sender)); naive_solver.
Qed.

Lemma broadcast_delivers_witness : ∃ s s', play two_clients NewServer = Some s ∧
  runs (any_choice 7) (broadcast 0 (chat_message EmptyString)) s s' ∧
  cc_writeCh (get_conn s' 0) = [join_message "bob"] ∧ cc_writeCh (get_conn s' 1) = [join_message "alice"; chat_message EmptyString].
Proof.
  destruct two_clients_reached as (s & Hs & Hr & Hn & He & Hb & Hq0 & Hq1 & Ha0 & Ha1).
  destruct (broadcast_delivers (any_choice 7) 0 (chat_message EmptyString) s Hr Hn) as (s' & Hrun & _ & Hq & _);
    [by intros l|vm_compute; reflexivity|].
  exists s, s'. split; [exact Hs|]. split; [exact Hrun|]. rewrite !Hq, Hq0, Hq1. split.
  - rewrite decide_False; [reflexivity|]. intros (_ & H & _). by apply H.
  - rewrite decide_True; [reflexivity|]. rewrite <- elem_of_elements, He. split_and!; [set_solver|done|exact Ha1].
Defined.

(** A message to one peer, routed without interruption, only touches the
    client that joined last under that ID and the sender: it is queued there, or,
    where that fails, the client is removed and the sender told so; an unknown
    peer is reported to the sender. *)
Theorem direct_delivers ch sender m s : srv_reachable s → no_closing s →
  TrimSpace (msg_RecipientID m) ≠ EmptyString →
  runs ch (broadcast sender m) s
    match sv_peers s !! msg_RecipientID m with
    | None => reply (delivery_failed (ch_idTime ch) (ch_now ch) m "unknown or offline") s sender
    | Some c => if accepts s c then with_conns (alter (push m) c) s
                else reply (delivery_failed (ch_idTime ch) (ch_now ch) m "disconnected") (drop c s) sender
    end.
Proof.
  intros Hr Hn Hm. apply runs_lookup; [done|by apply unhurried_reachable|]. by destruct (sv_peers s !! _).
Qed.

Lemma direct_delivers_witness : ∃ s, play two_clients NewServer = Some s ∧
  runs (any_choice 7) (broadcast 0 (chat_message "bob")) s (with_conns (alter (push (chat_message "bob")) 1%nat) s).
Proof.
  destruct two_clients_reached as (s & Hs & Hr & Hn & He & Hb & Hq0 & Hq1 & Ha0 & Ha1).
  exists s. split; [exact Hs|]. pose proof (direct_delivers (any_choice 7) 0 (chat_message "bob") s Hr Hn) as H.
  change (msg_RecipientID (chat_message "bob")) with "bob" in H. rewrite Hb, Ha1 in H. apply H. vm_compute. discriminate.
Defined.
