(* ===== verification/Shutdown.v ===== *)
(** * Stopping the TCP server

    [internal/network/tcp.go], [Shutdown] and what it waits for: it closes every
    client it finds registered, a server that is shut down comes to rest under
    every schedule of its goroutines, and a client that is accepted meanwhile is
    forgotten. *)

From S2P Require Import Prelude GoStrings GoTime Protocol TcpServer.
Import TcpServer.

Module Shutdown.

(** ** The clients [Shutdown] has still to close *)

Definition stop_op (o : op) : bool :=
  match o with OpListener | OpClose _ | OpFlag _ | OpChannels _ => true | _ => false end.

Definition closed (s : Server) (c : nat) : Prop := cc_chClosed (get_conn s c) = true.

(** [pre] is what [Shutdown] still does before it waits: it closes the clients of
    [l] that are not closed yet. *)
Record stopping (l : gset nat) (s : Server) (pre : list op) : Prop := {
  sp_ops : Forall (λ o, stop_op o = true) pre;
  sp_listener : sv_listening s = false ∨ OpListener ∈ pre;
  sp_clients : ∀ c, c ∈ l → closed s c ∨ OpClose c ∈ pre ∨ OpChannels c ∈ pre
}.

(** From the time [Shutdown] has collected the clients [l]. *)
Definition stopped_by (l : gset nat) (s : Server) : Prop :=
  (∃ pre, sv_threads s !! Stopping = Some (pre ++ [OpWait; OpExit]) ∧ stopping l s pre) ∨
  ((sv_threads s !! Stopping = Some [OpExit] ∨ sv_threads s !! Stopping = None) ∧ stopping l s []).

(** ** How much is left to do *)

(** The operations an operation can still lead to. *)
Definition fail_weight (f : on_fail) : nat := match f with FailIgnore => 0 | FailRemove => 6 | FailNotify _ _ => 13 end.

Definition weight (o : op) : nat :=
  match o with
  | OpClose _ => 4
  | OpUnlist _ => 1
  | OpSend _ _ f => 4 + fail_weight f
  | OpLoad _ _ f => 5 + fail_weight f
  | OpNotify _ _ _ => 6
  | OpLookup _ _ => 19
  | OpRecipients _ _ => 12 * maxConnections
  | OpShutdown => 4 * maxConnections + 3
  | _ => 1
  end.

Definition ops_weight (ops : list op) : nat := sum_list_with weight ops.

Definition ends (ops : list op) : bool := existsb (λ o, match o with OpExit => true | _ => false end) ops.

(** A goroutine that does not end with its operations will take up some more. *)
Definition thread_weight (ops : list op) : nat := ops_weight ops + (if ends ops then 0 else 10).

Definition total {K V} `{Countable K} (f : V → nat) (m : gmap K V) : nat := map_fold (λ _ v n, f v + n)%nat 0%nat m.

Definition queue_weight (cc : clientConn) : nat := 2 * length (cc_writeCh cc).

Definition work (s : Server) : nat := total thread_weight (sv_threads s) + total queue_weight (sv_conns s).

(** The server is shut down, accepts nobody, and the clients that are still
    served are closed. *)
Record draining (s : Server) : Prop := {
  dr_once : sv_shutdownOnce s = true;
  dr_listening : sv_listening s = false;
  dr_serving : ∀ ops, sv_threads s !! Serving = Some ops → ops = [] ∨ ops = [OpExit];
  dr_closed : ∀ t c, is_Some (sv_threads s !! t) → thread_conns t = [c] → closed s c
}.

(** ** Sample histories *)

(** A client is accepted while [Shutdown] runs to its end. *)
Definition late_client : list event :=
  [EvAccept] ++ go Serving 1 ++ [EvStop] ++ go Stopping 4 ++ go Serving 2.

(** Two clients are connected, and [Shutdown] closes them. *)
Definition orderly : list event := two_clients ++ [EvStop; EvServeEnd] ++ go Stopping 8.

End Shutdown.

Import Shutdown.

(** ** Sums over maps *)

Section Total.
Context {K V : Type} `{Countable K} (f : V → nat).
Implicit Types m : gmap K V.

Lemma total_insert_new k v m : m !! k = None → total f (<[k := v]> m) = (f v + total f m)%nat.
Proof. intros Hk. unfold total. rewrite map_fold_insert_L; [done|intros; lia|done]. Qed.

Lemma total_delete k v m : m !! k = Some v → total f m = (f v + total f (delete k m))%nat.
Proof. intros Hk. rewrite <- (insert_delete_id m k v Hk) at 1. apply total_insert_new, lookup_delete_eq. Qed.

Lemma total_insert k v v' m : m !! k = Some v → (total f (<[k := v']> m) + f v = total f m + f v')%nat.
Proof.
  intros Hk. rewrite (total_delete k v m Hk). rewrite <- insert_delete_eq.
  rewrite total_insert_new by apply lookup_delete_eq. lia.
Qed.

Lemma total_alter g k m : (total f (alter g k m) + from_option f 0 (m !! k) = total f m + from_option (f ∘ g) 0 (m !! k))%nat.
Proof.
  destruct (m !! k) as [v|] eqn:E; cbn [from_option].
  - assert (alter g k m = <[k := g v]> m) as ->; [|by apply total_insert]. apply map_eq. intros i.
    destruct (decide (i = k)) as [->|Hne]; [by rewrite lookup_alter_eq, lookup_insert_eq, E|].
    by rewrite lookup_alter_ne, lookup_insert_ne.
  - by rewrite alter_id by (by intros x; rewrite E).
Qed.

End Total.

(** ** Weights *)

Lemma ops_weight_app a b : ops_weight (a ++ b) = (ops_weight a + ops_weight b)%nat.
Proof. apply sum_list_with_app. Qed.

Lemma ops_weight_bind (l : list nat) f n : (∀ i, ops_weight (f i) = n) → ops_weight (l ≫= f) = (n * length l)%nat.
Proof.
  intros Hf. induction l as [|x l IH]; [cbn; lia|].
  change ((x :: l) ≫= f) with (f x ++ (l ≫= f)). rewrite ops_weight_app, IH, Hf. cbn [length]. lia.
Qed.

Lemma ends_app a b : ends (a ++ b) = ends a || ends b.
Proof. apply existsb_app. Qed.

Lemma ends_bind (l : list nat) f : (∀ i, ends (f i) = false) → ends (l ≫= f) = false.
Proof.
  intros Hf. induction l as [|x l IH]; [done|]. change ((x :: l) ≫= f) with (f x ++ (l ≫= f)).
  by rewrite ends_app, Hf, IH.
Qed.

Lemma order_length ch l : good_choice ch → length (ch_order ch l) = size l.
Proof. intros Hg. by rewrite (Hg l). Qed.

Lemma cons_app {A} (x : A) l : x :: l = [x] ++ l.
Proof. done. Qed.

(** An operation leads to less than it weighs, what it sends included. *)
Lemma exec_work ch o s s1 b : good_choice ch → bounded s → serve_op o = false → o ≠ OpExit → exec ch o s = Some (s1, b) →
  (ops_weight b + total queue_weight (sv_conns s1) < weight o + total queue_weight (sv_conns s))%nat ∧ ends b = false.
Proof.
  intros Hg Hb Ho Hne He. assert (Hsz := bd_clients s Hb).
  assert (Hq : ∀ g c, (∀ cc, queue_weight (g cc) = queue_weight cc) →
    total queue_weight (alter g c (sv_conns s)) = total queue_weight (sv_conns s)).
  { intros g c Hgc. pose proof (total_alter queue_weight g c (sv_conns s)) as H'.
    destruct (sv_conns s !! c); cbn [from_option] in H'; unfold compose in H'; rewrite ?Hgc in H'; lia. }
  destruct o; cbn [exec serve_op] in *; try done; repeat case_match; simplify_eq;
    cbn [sv_conns with_conns with_peers with_clients panic weight]; rewrite ?Hq by done; try (split; [cbn; solve [lia]|done]).
  all: try (destruct f; solve [split; [cbn; lia|done]]).
  - set (r := filter _ _). assert (Hr : (length r ≤ length (ch_order ch (sv_clients s1)))%nat) by apply length_filter.
    rewrite order_length in Hr by done. rewrite (ops_weight_bind r _ 11) by (intros; reflexivity).
    split; [unfold maxConnections in *; lia|by apply ends_bind].
  - pose proof (total_alter queue_weight (push m) c (sv_conns s)) as Ht. destruct (sv_conns s !! c) as [cc|]; cbn [from_option] in Ht.
    + assert (Hp : (queue_weight ∘ push m) cc = (queue_weight cc + 2)%nat).
      { unfold compose, queue_weight, push. cbn. rewrite length_app. cbn. lia. }
      rewrite Hp in Ht. split; [cbn; lia|done].
    + split; [cbn; lia|done].
  - rewrite (cons_app OpListener), ops_weight_app, ends_app.
    rewrite (ops_weight_bind _ close 4), order_length, (ends_bind _ close) by done. split; [cbn [ops_weight]; unfold maxConnections in *; cbn; lia|done].
Qed.

(** ** What stays closed *)

Lemma closed_alter f c s c' : (∀ cc, cc_chClosed cc = true → cc_chClosed (f cc) = true) →
  closed s c' → closed (with_conns (alter f c) s) c'.
Proof. intros Hf Hc. unfold closed in *. rewrite get_conn_alter. case_decide as Hd; [|done]. destruct Hd as [-> _]. by apply Hf. Qed.

Lemma closed_exec ch o s s1 b c : exec ch o s = Some (s1, b) → closed s c → closed s1 c.
Proof.
  intros He Hc. destruct o; cbn [exec] in He; repeat case_match; simplify_eq; try done; try (by apply closed_alter).
  unfold closed, get_conn. cbn. destruct (decide (fresh (dom (sv_conns s)) = c)) as [<-|Hn].
  - unfold closed in Hc. rewrite get_conn_None in Hc by apply is_fresh. done.
  - by rewrite lookup_insert_ne.
Qed.

Lemma closed_step ev s s' c : step ev s = Some s' → closed s c → closed s' c.
Proof.
  intros Hs Hc. unfold step in Hs. destruct (sv_panicked s); [done|].
  destruct ev as [| |c0 [m|]|c0 sent|c0| |t ch].
  - case_match; [|done]. by apply resume_inv in Hs as [_ ->].
  - by apply resume_inv in Hs as [_ ->].
  - case_match; [done|]. by apply resume_inv in Hs as [_ ->].
  - by apply resume_inv in Hs as [_ ->].
  - case_match; [done|]. apply bind_Some in Hs as (s1 & [_ ->]%resume_inv & [= <-]). by apply closed_alter.
  - case_match; [|done]. by apply resume_inv in Hs as [_ ->].
  - case_match; [done|]. by injection Hs as <-.
  - destruct (sv_threads s !! t) as [[|o ops]|]; [done| |done]. destruct (op_exit o) as [->|Hne]; [by injection Hs as <-|].
    assert (Hx : exec ch o s ≫= (λ '(s, before), Some (with_threads <[t := before ++ ops]> s)) = Some s') by (by destruct o).
    apply bind_Some in Hx as ([s1 b] & He & [= <-]). by eapply closed_exec in He.
Qed.

(** ** Draining *)

Lemma draining_insert t ops s : draining s → is_Some (sv_threads s !! t) → (t = Serving → ops = [] ∨ ops = [OpExit]) →
  draining (with_threads <[t := ops]> s).
Proof.
  intros [H1 H2 H3 H4] Ht Hv. split; cbn; [done|done| |].
  - intros ops' [[-> <-]|[_ H']]%lookup_insert_Some; [by apply Hv|by apply H3].
  - intros t' c Ht' Hc. apply (H4 t' c); [|done]. destruct Ht' as [ops' [[<- _]|[_ H']]%lookup_insert_Some]; [done|by eexists].
Qed.

Lemma draining_conns f c s : draining s → (∀ cc, cc_chClosed cc = true → cc_chClosed (f cc) = true) →
  draining (with_conns (alter f c) s).
Proof. intros [H1 H2 H3 H4] Hf. split; [done..|]. intros t c' Ht Hc. apply closed_alter; [done|]. by apply (H4 t). Qed.

Lemma work_insert t ops0 ops s : sv_threads s !! t = Some ops0 →
  (work (with_threads <[t := ops]> s) + thread_weight ops0 = work s + thread_weight ops)%nat.
Proof. intros Ht. unfold work. cbn [with_threads sv_threads sv_conns]. pose proof (total_insert thread_weight t _ ops _ Ht). lia. Qed.

(** A goroutine leaves its loop. *)
Lemma draining_resume t ops s s' : draining s → resume t ops s = Some s' → (thread_weight ops < 10)%nat →
  (t = Serving → ops = [] ∨ ops = [OpExit]) → draining s' ∧ (work s' < work s)%nat.
Proof.
  intros Hd [Ht ->]%resume_inv Hw Hv. split; [apply draining_insert; [done|by eexists|done]|].
  pose proof (work_insert t [] ops s Ht). change (thread_weight []) with 10%nat in *. lia.
Qed.

Lemma draining_exec t ch o ops s s1 b : wf_server s → draining s → good_choice ch → sv_threads s !! t = Some (o :: ops) →
  o ≠ OpExit → exec ch o s = Some (s1, b) →
  draining (with_threads <[t := b ++ ops]> s1) ∧ (work (with_threads <[t := b ++ ops]> s1) < work s)%nat.
Proof.
  intros Hw Hd Hg Ht Hne He.
  assert (Hns : t ≠ Serving).
  { intros ->. destruct (dr_serving s Hd _ Ht) as [[=]|[= -> ->]]. done. }
  assert (Ho : serve_op o = false) by (eapply (bd_others s (wf_bounded s Hw) t); [done..|by left]).
  destruct (exec_other _ _ _ _ _ Ho He) as (_ & _ & Hth).
  destruct (exec_work ch o s s1 b Hg (wf_bounded s Hw) Ho Hne He) as [Hlt Heb].
  split.
  - apply draining_insert; [|by rewrite Hth; eexists|done]. destruct Hd as [H1 H2 H3 H4]. split.
    + by rewrite (exec_once _ _ _ _ _ He).
    + clear -He H2. destruct o; cbn [exec] in He; repeat case_match; by simplify_eq/=.
    + by rewrite Hth.
    + rewrite Hth. intros t' c Ht' Hc. eapply closed_exec; [done|by apply (H4 t')].
  - assert (Ht1 : sv_threads s1 !! t = Some (o :: ops)) by by rewrite Hth.
    pose proof (work_insert t _ (b ++ ops) s1 Ht1) as Hwk. unfold work in *. rewrite Hth in *.
    assert (Hb : thread_weight (b ++ ops) = (ops_weight b + ops_weight ops + (if ends ops then 0 else 10))%nat).
    { unfold thread_weight. by rewrite ops_weight_app, ends_app, Heb. }
    assert (Hop : thread_weight (o :: ops) = (weight o + ops_weight ops + (if ends ops then 0 else 10))%nat).
    { unfold thread_weight. by destruct o. }
    cbn [with_threads sv_threads sv_conns] in *. lia.
Qed.

Lemma draining_step ev s s' : wf_server s → draining s → good_event ev → step ev s = Some s' →
  draining s' ∧ (work s' < work s)%nat.
Proof.
  intros Hw Hd Hg Hs. unfold step in Hs. destruct (sv_panicked s) eqn:Hp; [done|].
  destruct ev as [| |c [m|]|c sent|c| |t ch].
  - by rewrite (dr_listening s Hd) in Hs.
  - eapply draining_resume; [done|done|cbn; lia|by right].
  - destruct (cc_chClosed (get_conn s c)) eqn:Ec; [done|]. apply resume_inv in Hs as [Ht _].
    assert (closed s c) as Hc by (by apply (dr_closed s Hd (Reader c)); [eexists|]). unfold closed in Hc. congruence.
  - eapply draining_resume; [done|done|cbn; lia|done].
  - destruct (cc_writeCh (get_conn s c)) as [|m rest] eqn:Eq; [done|].
    apply bind_Some in Hs as (s1 & [Ht ->]%resume_inv & [= <-]).
    set (ops := if sent then [] else _) in *. assert (Hops : (thread_weight ops ≤ thread_weight [])%nat) by (subst ops; destruct sent; cbn; lia).
    clearbody ops. split; [apply draining_conns; [apply draining_insert; [done|by eexists|done]|done]|].
    pose proof (work_insert _ _ ops s Ht) as Hwk. unfold work in *. cbn [with_threads with_conns sv_threads sv_conns] in *.
    pose proof (total_alter queue_weight (pop m rest sent) c (sv_conns s)) as Hq. unfold get_conn in Eq.
    destruct (sv_conns s !! c) as [cc|] eqn:Ecc; [|by cbn in Eq]. cbn [default from_option id] in *.
    unfold compose, queue_weight in Hq. cbn [pop cc_writeCh] in Hq. rewrite Eq in Hq. cbn [length] in Hq.
    fold queue_weight in Hq. change (λ cc, (2 * length (cc_writeCh cc))%nat) with queue_weight in Hq. lia.
  - destruct (cc_chClosed (get_conn s c)); [|done]. eapply draining_resume; [done|done|cbn; lia|done].
  - by rewrite (dr_once s Hd) in Hs.
  - destruct (sv_threads s !! t) as [[|o ops]|] eqn:Ht; [done| |done].
    destruct (op_exit o) as [->|Hne].
    + injection Hs as <-. split.
      * destruct Hd as [H1 H2 H3 H4]. split; cbn; [done|done| |].
        -- intros ops' [_ H']%lookup_delete_Some. by apply H3.
        -- intros t' c [ops' [_ H']%lookup_delete_Some] Hc. apply (H4 t' c); [by eexists|done].
      * unfold work. cbn. rewrite (total_delete thread_weight t _ _ Ht). unfold thread_weight at 2. cbn. lia.
    + assert (Hx : exec ch o s ≫= (λ '(s, before), Some (with_threads <[t := before ++ ops]> s)) = Some s') by (by destruct o).
      apply bind_Some in Hx as ([s1 b] & He & [= <-]). by eapply draining_exec.
Qed.

(** ** Who waits *)

(** Only [Shutdown] collects and waits, and it ends. *)
Definition stop_only (o : op) : bool := match o with OpShutdown | OpWait => true | _ => false end.
Definition free (ops : list op) : Prop := Forall (λ o, stop_only o = false) ops.

Record waits (s : Server) : Prop := {
  wt_only : ∀ t ops, sv_threads s !! t = Some ops → t ≠ Stopping → free ops;
  wt_ends : ∀ ops, sv_threads s !! Stopping = Some ops → ends ops = true
}.

Lemma exec_free ch o s s1 b : exec ch o s = Some (s1, b) → free b ∧ (o ≠ OpExit → ends b = false).
Proof.
  assert (Hbind : ∀ (l : list nat) f, (∀ i, free (f i)) → free (l ≫= f)) by (intros l f Hf; by apply Forall_bind, Forall_true).
  assert (Hf : ∀ c f, free (failed c f) ∧ ends (failed c f) = false) by (intros c []; split; try done; by repeat constructor).
  intros He. destruct o; cbn [exec] in He; repeat case_match; simplify_eq;
    try (split; [by repeat constructor|done]); try (split; [apply Hf|intros; apply Hf]).
  - split; [apply Hbind; intros; by repeat constructor|intros; by apply ends_bind].
  - split; [|intros; rewrite (cons_app OpListener), ends_app, ends_bind; done].
    constructor; [done|]. apply Hbind. intros. by repeat constructor.
Qed.

Lemma waits_insert t ops s : waits s → (t ≠ Stopping → free ops) → (t = Stopping → ends ops = true) →
  waits (with_threads <[t := ops]> s).
Proof.
  intros [H1 H2] Ho He. split; cbn.
  - intros t' ops' [[<- <-]|[_ H']]%lookup_insert_Some; [done|by apply H1].
  - intros ops' [[-> <-]|[_ H']]%lookup_insert_Some; [by apply He|by apply H2].
Qed.

Lemma received_free c m : free (received c m).
Proof. unfold received, broadcast. repeat case_match; by repeat constructor. Qed.

Lemma waits_steps s s' : steps s s' → waits s → waits s'.
Proof.
  assert (Hres : ∀ t ops, waits s → sv_threads s !! t = Some [] → resumes s t ops → waits (with_threads <[t := ops]> s)).
  { intros t ops Hw Ht Hr. apply waits_insert; [done| |].
    - intros _. destruct Hr as [[_ [->| ->]]|(c & _ & [->|[[m ->]| ->]])]; [by repeat constructor..|apply received_free|by repeat constructor].
    - intros ->. apply (wt_ends s Hw) in Ht. done. }
  intros [t ops Ht Hr|c m rest sent ops Ht Hr _|Hst|t ops Ht|t ch o ops s1 b Hg Hx Ht He] Hw.
  - by apply Hres.
  - destruct (Hres _ _ Hw Ht Hr) as [H1 H2]. by split.
  - destruct (waits_insert Stopping [OpShutdown; OpWait; OpExit] s Hw) as [H1 H2]; [done|done|]. by split.
  - destruct Hw as [H1 H2]. split; cbn; [intros t' ops' [_ H']%lookup_delete_Some; by apply H1|].
    intros ops' [_ H']%lookup_delete_Some. by apply H2.
  - destruct (exec_free _ _ _ _ _ He) as [Hb Heb].
    assert (Hw1 : waits s1).
    { destruct Hw as [H1 H2]. split; rewrite (exec_threads _ _ _ _ _ He).
      - intros t' ops' H' Hn. destruct o; try by eapply H1.
        apply lookup_insert_Some in H' as [[_ <-]|[_ [[_ <-]|[_ H']]%lookup_insert_Some]]; [constructor..|by apply (H1 t')].
      - intros ops' H'. destruct o; try by apply H2. rewrite !lookup_insert_ne in H' by done. by apply H2. }
    apply waits_insert; [done| |].
    + intros Hn. apply Forall_app. split; [done|]. by apply (wt_only s Hw t _ Ht), Forall_cons in Hn as [_ Hn].
    + intros ->. rewrite ends_app. apply (wt_ends s Hw) in Ht. destruct (ends ops) eqn:Eo; [by rewrite orb_true_r|].
      rewrite (cons_app o), ends_app, Eo, orb_false_r in Ht. by destruct o.
Qed.

Record wf_stop (s : Server) : Prop := { ws_server : wf_server s; ws_waits : waits s }.

Lemma wf_stop_step s s' : wf_stop s → srv_step s s' → wf_stop s'.
Proof.
  intros [[Hl Hb Hc] Hw] (ev & Hg & Hs%step_steps); [|done].
  split; [split; [by eapply live_steps|by eapply bounded_steps|by eapply closes_steps]|by eapply waits_steps].
Qed.

Lemma wf_stop_reachable s : srv_reachable s → wf_stop s.
Proof.
  apply reachable_invariant. split; [|apply wf_stop_step]. intros ? ->. split; [apply wf_NewServer|].
  split; cbn; [|done]. intros t ops [_ <-]%lookup_singleton_Some _. constructor.
Qed.

(** ** A draining server goes on until nothing runs *)

Lemma idle_goes_on s t : draining s → waits s → sv_panicked s = false → sv_threads s !! t = Some [] → ∃ ev, good_event ev ∧ is_Some (step ev s).
Proof.
  intros Hd Hw Hp Ht. destruct t as [|c|c|].
  - exists EvServeEnd. split; [done|]. unfold step, resume. rewrite Hp, Ht. by eexists.
  - exists (EvRead c None). split; [done|]. unfold step, resume. rewrite Hp, Ht. by eexists.
  - exists (EvWriterStop c). split; [done|]. unfold step, resume.
    assert (closed s c) as -> by (by apply (dr_closed s Hd (Writer c)); [eexists|]). rewrite Hp, Ht. by eexists.
  - by apply (wt_ends s Hw) in Ht.
Qed.

Lemma busy_goes_on s t o ops : wf_stop s → sv_panicked s = false → sv_threads s !! t = Some (o :: ops) → o ≠ OpWait →
  ∃ ev, good_event ev ∧ is_Some (step ev s).
Proof.
  intros [Hw _] Hp Ht Ho.
  assert (Hg : good_choice (any_choice 0)) by by intros l.
  destruct (exec (any_choice 0) o s) as [p|] eqn:E.
  - exists (EvRun t (any_choice 0)). split; [done|]. eapply step_run; [done|done|]. by rewrite E.
  - destruct (exec_enabled _ _ _ E) as [(c & -> & Hr)|[-> _]]; [|done].
    destruct (cl_owner s (wf_closes s Hw) c Hr) as (t' & ops' & Ht' & Hc).
    exists (EvRun t' (any_choice 0)). split; [done|]. destruct ops' as [|o' ops']; [done|].
    eapply step_run; [done|done|]. intros He. apply exec_enabled in He as [(c' & -> & _)|[-> _]]; done.
Qed.

Lemma draining_goes_on s t ops : wf_stop s → draining s → sv_panicked s = false → sv_threads s !! t = Some ops →
  ∃ s', srv_step s s'.
Proof.
  intros Hw Hd Hp Ht. assert (Hev : ∃ ev, good_event ev ∧ is_Some (step ev s)).
  { destruct ops as [|o ops]; [apply (idle_goes_on s t); [done|apply Hw|done|done]|].
    destruct (decide (is_worker t = true ∨ workers s = [])) as [Hk|Hk].
    - destruct (exec (any_choice 0) o s) as [p|] eqn:E.
      + exists (EvRun t (any_choice 0)). split; [by intros l|]. eapply step_run; [done|done|]. by rewrite E.
      + apply (busy_goes_on s t o ops Hw Hp Ht). intros ->. destruct (exec_enabled _ _ _ E) as [(c & [=] & _)|[_ Hne]].
        destruct Hk as [Hk|Hk]; [|done]. assert (Hn : t ≠ Stopping) by by intros ->.
        by apply (wt_only s (ws_waits s Hw) t _ Ht), Forall_cons in Hn as [Hn _].
    - destruct (workers s) as [|t' l] eqn:Ek; [by destruct Hk; right|].
      assert (Hin : t' ∈ workers s) by (rewrite Ek; by left). unfold workers in Hin.
      apply list_elem_of_In, List.filter_In in Hin as [Hin Hk'].
      apply list_elem_of_In, elem_of_elements, elem_of_dom in Hin as [ops' Ht'].
      destruct ops' as [|o' ops']; [apply (idle_goes_on s t'); [done|apply Hw|done|done]|].
      apply (busy_goes_on s t' o' ops' Hw Hp Ht'). intros ->.
      assert (Hn : t' ≠ Stopping) by by intros ->.
      by apply (wt_only s (ws_waits s Hw) t' _ Ht'), Forall_cons in Hn as [Hn _]. }
  destruct Hev as (ev & Hg & [s' Hs]). exists s'. by exists ev.
Qed.

Lemma draining_ends s : wf_stop s → draining s → Acc (λ s2 s1, srv_step s1 s2) s.
Proof.
  remember (work s) as n eqn:En. revert s En. induction n as [n IH] using lt_wf_ind. intros s -> Hw Hd.
  constructor. intros s' Hs. pose proof Hs as (ev & Hg & He).
  destruct (draining_step ev s s' (ws_server s Hw) Hd Hg He) as [Hd' Hlt].
  apply (IH (work s')); [done|done|by eapply wf_stop_step|done].
Qed.

Lemma draining_always s s' : wf_stop s → draining s → rtc srv_step s s' → wf_stop s' ∧ draining s'.
Proof.
  intros Hw Hd Hr. induction Hr as [s|s s1 s2 Hs Hr IH]; [done|]. apply IH; [by eapply wf_stop_step|].
  destruct Hs as (ev & Hg & He). eapply draining_step; [apply Hw|done..].
Qed.

(** ** What [Shutdown] closes *)

Lemma stopping_other l s s' pre : stopping l s pre → sv_listening s' = sv_listening s →
  (∀ c, closed s c → closed s' c) → stopping l s' pre.
Proof.
  intros [H1 H2 H3] Hl Hc. split; [done|by rewrite Hl|]. intros c Hin. destruct (H3 c Hin) as [H'|H']; [left; by apply Hc|by right].
Qed.

Lemma exec_listening ch o s s1 b : exec ch o s = Some (s1, b) → o ≠ OpListener → sv_listening s1 = sv_listening s.
Proof. intros He Ho. destruct o; cbn [exec] in He; repeat case_match; by simplify_eq/=. Qed.

(** [Shutdown] does one of its operations. *)
Lemma stopping_exec l ch o s s1 b pre : wf_server s → stopping l s (o :: pre) → exec ch o s = Some (s1, b) →
  (∀ c, c ∈ op_conns o → c ∈ dom (sv_conns s)) → stopping l s1 (b ++ pre).
Proof.
  intros Hw [H1 H2 H3] He Hdom. apply Forall_cons in H1 as [Ho H1].
  assert (Hcl : ∀ c, closed s c → closed s1 c) by (intros c; by apply (closed_exec ch o s s1 b)).
  destruct o as [| | | |c|c|c| | | | | | | | | | |]; cbn [stop_op exec] in Ho, He; try discriminate Ho.
  - destruct (cc_once (get_conn s c)) eqn:Eo; [| |]; simplify_eq.
    + split; [by repeat constructor|destruct H2 as [?|?%elem_of_cons]; [by left|right; set_solver]|].
      intros c' Hc'. destruct (H3 c' Hc') as [H'|[H'|H']]; [left; by apply Hcl| |right; right; set_solver].
      right. apply elem_of_cons in H' as [[= ->]|H']; [right; set_solver|left; set_solver].
    + split; [done|destruct H2 as [?|?%elem_of_cons]; [by left|right; set_solver]|].
      intros c' Hc'. destruct (H3 c' Hc') as [H'|[H'|H']]; [by left| |right; right; set_solver].
      apply elem_of_cons in H' as [[= ->]|H']; [|right; left; set_solver]. left.
      by apply (cl_done s1 (wf_closes s1 Hw)).
  - simplify_eq. split; [done|destruct H2 as [?|?%elem_of_cons]; [by left|right; set_solver]|].
    intros c' Hc'. destruct (H3 c' Hc') as [H'|[H'|H']]; [left; by apply Hcl|right; left; set_solver|right; right; set_solver].
  - assert (Hnow : closed s1 c).
    { destruct (cc_chClosed (get_conn s c)) eqn:Ec; simplify_eq; [by apply Hcl|].
      unfold closed. rewrite get_conn_eq; [done|]. apply Hdom. by left. }
    assert (b = [] ∧ sv_listening s1 = sv_listening s) as [-> Hli] by (destruct (cc_chClosed (get_conn s c)); by simplify_eq).
    split; [done|rewrite Hli; destruct H2 as [?|?%elem_of_cons]; [by left|right; set_solver]|].
    intros c' Hc'. destruct (H3 c' Hc') as [H'|[H'|H']]; [left; by apply Hcl|right; left; set_solver|].
    apply elem_of_cons in H' as [[= ->]|H']; [by left|right; right; set_solver].
  - simplify_eq. split; [done|by left|]. intros c' Hc'.
    destruct (H3 c' Hc') as [H'|[H'|H']]; [left; by apply Hcl|right; left; set_solver|right; right; set_solver].
Qed.

Lemma listening_step ev s s' : step ev s = Some s' → sv_listening s = false → sv_listening s' = false.
Proof.
  intros Hs Hl. unfold step in Hs. destruct (sv_panicked s); [done|].
  destruct ev as [| |c0 [m|]|c0 sent|c0| |t ch].
  - by rewrite Hl in Hs.
  - by apply resume_inv in Hs as [_ ->].
  - case_match; [done|]. by apply resume_inv in Hs as [_ ->].
  - by apply resume_inv in Hs as [_ ->].
  - case_match; [done|]. by apply bind_Some in Hs as (s1 & [_ ->]%resume_inv & [= <-]).
  - case_match; [|done]. by apply resume_inv in Hs as [_ ->].
  - case_match; [done|]. by injection Hs as <-.
  - destruct (sv_threads s !! t) as [[|o ops]|]; [done| |done]. destruct (op_exit o) as [->|Hne]; [by injection Hs as <-|].
    assert (Hx : exec ch o s ≫= (λ '(s, before), Some (with_threads <[t := before ++ ops]> s)) = Some s') by (by destruct o).
    apply bind_Some in Hx as ([s1 b] & He & [= <-]). cbn.
    destruct o; cbn [exec] in He; repeat case_match; by simplify_eq/=.
Qed.

(** Another goroutine's step leaves what [Shutdown] does alone. *)
Lemma stopped_same l s s' : stopped_by l s → sv_threads s' !! Stopping = sv_threads s !! Stopping →
  (sv_listening s = false → sv_listening s' = false) → (∀ c, closed s c → closed s' c) → stopped_by l s'.
Proof.
  intros Hs Ht Hl Hc. unfold stopped_by. rewrite Ht.
  assert (Hst : ∀ pre, stopping l s pre → stopping l s' pre).
  { intros pre [H1 H2 H3]. split; [done|destruct H2; [left; by apply Hl|by right]|].
    intros c Hin. destruct (H3 c Hin) as [H'|H']; [left; by apply Hc|by right]. }
  destruct Hs as [(pre & Hp & H')|[Hp H']]; [left; exists pre; auto|right; auto].
Qed.

Lemma exec_stopping ch o s s1 b : exec ch o s = Some (s1, b) → sv_threads s1 !! Stopping = sv_threads s !! Stopping.
Proof. intros He. rewrite (exec_threads _ _ _ _ _ He). destruct o; [..|done]; try done. by rewrite !lookup_insert_ne. Qed.

Lemma stopped_step l s s' : wf_stop s → sv_shutdownOnce s = true → stopped_by l s → srv_step s s' →
  stopped_by l s' ∧ sv_shutdownOnce s' = true.
Proof.
  intros [Hw Hwt] Honce Hst (ev & Hg & Hs).
  assert (Hl := listening_step ev s s' Hs). assert (Hc := λ c, closed_step ev s s' c Hs).
  assert (Hlive : ∀ t o ops c, sv_threads s !! t = Some (o :: ops) → c ∈ op_conns o → c ∈ dom (sv_conns s)).
  { intros t o ops c Ht. assert (H' := lv_ops s (wf_live s Hw) t _ Ht). apply Forall_cons in H' as [H' _].
    rewrite Forall_forall in H'. apply H'. }
  assert (Hne0 : sv_threads s !! Stopping ≠ Some []) by (intros H'; by apply (wt_ends s Hwt) in H').
  apply step_steps in Hs; [|done].
  destruct Hs as [t ops Ht Hr|c m rest sent ops Ht Hr _|Hno|t ops Ht|t ch o ops s1 b Hch Hx Ht He].
  - split; [|done]. apply (stopped_same l s); [done| |done|done]. cbn. rewrite lookup_insert_ne; [done|]. by intros ->.
  - split; [|done]. apply (stopped_same l s); [done| |done|done]. cbn. by rewrite lookup_insert_ne.
  - congruence.
  - split; [|done]. destruct (decide (t = Stopping)) as [->|Hn].
    + destruct Hst as [(pre & Hp & H')|[_ H']].
      * rewrite Hp in Ht. destruct pre as [|p pre]; [done|]. injection Ht as -> _.
        pose proof (sp_ops _ _ _ H') as [Hbad _]%Forall_cons. done.
      * right. split; [right; cbn; apply lookup_delete_eq|]. by apply (stopping_other l s).
    + apply (stopped_same l s); [done| |done|done]. cbn. by rewrite lookup_delete_ne.
  - assert (Ho1 : sv_shutdownOnce s1 = true) by (by rewrite (exec_once _ _ _ _ _ He)). split; [|done].
    destruct (decide (t = Stopping)) as [->|Hn].
    + destruct Hst as [(pre & Hp & H')|[[Hp|Hp] H']]; rewrite Hp in Ht; [|by injection Ht as <- _|done].
      destruct pre as [|p pre]; cbn [app] in Ht; injection Ht as <- <-.
      * cbn [exec] in He. destruct (workers s); [|done]. injection He as <- <-. right. cbn.
        split; [left; apply lookup_insert_eq|]. by apply (stopping_other l s).
      * left. exists (b ++ pre). cbn. rewrite lookup_insert_eq, app_assoc. split; [done|].
        assert (Hs1 : stopping l s1 (b ++ pre)).
        { apply (stopping_exec l ch p s s1 b pre Hw H' He). intros c. by eapply Hlive. }
        by apply (stopping_other l s1).
    + apply (stopped_same l s); [done| |done|done]. cbn. rewrite lookup_insert_ne by done. by eapply exec_stopping.
Qed.

(** ** From the call of [Shutdown] on *)

(** [Shutdown] was not called, is about to collect the clients, or has collected
    them. *)
Definition phase (s : Server) : Prop :=
  (sv_shutdownOnce s = false ∧ sv_closed s = false) ∨
  (sv_shutdownOnce s = true ∧
   ((sv_threads s !! Stopping = Some [OpShutdown; OpWait; OpExit] ∧ sv_closed s = false) ∨
    (sv_closed s = true ∧ ∃ l, stopped_by l s))).

Lemma exec_closed_flag ch o s s1 b : exec ch o s = Some (s1, b) → o ≠ OpShutdown → sv_closed s1 = sv_closed s.
Proof. intros He Ho. destruct o; cbn [exec] in He; repeat case_match; by simplify_eq/=. Qed.

(** What [OpShutdown] leaves. *)
Lemma collected ch s s1 b : good_choice ch → exec ch OpShutdown s = Some (s1, b) →
  sv_closed s1 = true ∧ stopped_by (sv_clients s) (with_threads <[Stopping := b ++ [OpWait; OpExit]]> s1).
Proof.
  intros Hg [= <- <-]. split; [done|]. left. exists (OpListener :: ch_order ch (sv_clients s) ≫= close).
  cbn. rewrite lookup_insert_eq. split; [done|]. split; cbn.
  - constructor; [done|]. apply Forall_bind, Forall_true. intros c. by repeat constructor.
  - right. by left.
  - intros c Hc. right. left. right. apply list_elem_of_bind. exists c. split; [by left|].
    by rewrite (Hg (sv_clients s)), elem_of_elements.
Qed.

Lemma exec_flag ch o s s1 b : exec ch o s = Some (s1, b) → sv_closed s = true → sv_closed s1 = true.
Proof. intros He Hc. destruct o; cbn [exec] in He; repeat case_match; by simplify_eq/=. Qed.

(** Another goroutine's step. *)
Lemma steps_flag s s' : waits s → steps s s' →
  (sv_closed s = true → sv_closed s' = true) ∧
  (sv_threads s' !! Stopping = sv_threads s !! Stopping → sv_threads s !! Stopping ≠ None →
   sv_closed s' = sv_closed s) ∧
  (sv_shutdownOnce s = false → sv_threads s !! Stopping = None → sv_closed s' = sv_closed s).
Proof.
  intros Hw [t ops Ht Hr|c m rest sent ops Ht Hr _|Hno|t ops Ht|t ch o ops s1 b Hch Hx Ht He]; try done. cbn.
  split; [by eapply exec_flag|].
  assert (Hn : t ≠ Stopping → sv_closed s1 = sv_closed s).
  { intros Hn. apply (exec_closed_flag _ _ _ _ _ He). intros ->.
    by apply (wt_only s Hw t _ Ht), Forall_cons in Hn as [Hn _]. }
  split.
  - intros Hsame _. destruct (decide (t = Stopping)) as [->|Hne]; [|by apply Hn].
    rewrite lookup_insert_eq in Hsame. rewrite <- Hsame in Ht. injection Ht as Hb.
    apply (exec_closed_flag _ _ _ _ _ He). intros ->. cbn [exec] in He. injection He as <- <-. done.
  - intros _ Hnone. apply Hn. intros ->. by rewrite Hnone in Ht.
Qed.

Lemma phase_step s s' : wf_stop s → phase s → srv_step s s' → phase s'.
Proof.
  intros Hw Hp Hs. pose proof Hs as (ev & Hg & Hst%step_steps); [|done].
  destruct (steps_flag s s' (ws_waits s Hw) Hst) as (F1 & F2 & F3).
  destruct Hp as [[Ho Hc]|[Ho [[Ht Hc]|[Hc [l Hl]]]]].
  - assert (Hn := bd_stop s (wf_bounded s (ws_server s Hw)) Ho). rewrite <- (F3 Ho Hn) in Hc.
    destruct Hst as [t ops Ht Hr|c m rest sent ops Ht Hr _|Hno|t ops Ht|t ch o ops s1 b Hch Hx Ht He]; try (by left).
    + right. split; [done|]. left. cbn. by rewrite lookup_insert_eq.
    + left. cbn. by rewrite (exec_once _ _ _ _ _ He).
  - right. destruct Hst as [t ops Ht' Hr|c m rest sent ops Ht' Hr _|Hno|t ops Ht'|t ch o ops s1 b Hch Hx Ht' He]; cbn.
    + split; [done|]. left. split; [|done]. rewrite lookup_insert_ne; [done|]. intros ->. by rewrite Ht in Ht'.
    + split; [done|]. left. split; [|done]. by rewrite lookup_insert_ne.
    + congruence.
    + split; [done|]. left. split; [|done]. rewrite lookup_delete_ne; [done|]. intros ->. by rewrite Ht in Ht'.
    + rewrite (exec_once _ _ _ _ _ He). split; [done|]. destruct (decide (t = Stopping)) as [->|Hn].
      * rewrite Ht in Ht'. injection Ht' as <- <-. right. destruct (collected ch s s1 b Hch He) as [H1 H2].
        split; [done|]. by exists (sv_clients s).
      * left. rewrite lookup_insert_ne, (exec_stopping _ _ _ _ _ He) by done. split; [done|].
        rewrite <- Hc. apply F2; cbn; [|by rewrite Ht]. by rewrite lookup_insert_ne, (exec_stopping _ _ _ _ _ He).
  - destruct (stopped_step l s s' Hw Ho Hl Hs) as [Hl' Ho']. right. split; [done|]. right. split; [by apply F1|by exists l].
Qed.

Lemma phase_reachable s : srv_reachable s → wf_stop s ∧ phase s.
Proof.
  apply (reachable_invariant _ _ (λ s, wf_stop s ∧ phase s)). split.
  - intros ? ->. split; [apply wf_stop_reachable; by apply reachable_init|by left].
  - intros s1 s2 [Hw Hp] Hs. split; [by eapply wf_stop_step|by eapply phase_step].
Qed.

(** ** Properties *)

(** [Shutdown] closes: from its collection of the clients on, whatever the
    other goroutines do, once it waits or has returned the listener is closed and
    so is every client that was registered. *)
Theorem shutdown_closes s ch s1 s2 : srv_reachable s → sv_shutdownOnce s = true → good_choice ch →
  sv_threads s !! Stopping = Some [OpShutdown; OpWait; OpExit] →
  step (EvRun Stopping ch) s = Some s1 → rtc srv_step s1 s2 →
  (sv_threads s2 !! Stopping = None ∨ ∃ ops, sv_threads s2 !! Stopping = Some (OpWait :: ops)) →
  sv_listening s2 = false ∧ ∀ c, c ∈ sv_clients s → cc_chClosed (get_conn s2 c) = true.
Proof.
  intros Hr Ho Hg Ht Hs Hrtc Hend. apply wf_stop_reachable in Hr as Hw.
  assert (H0 : wf_stop s1 ∧ stopped_by (sv_clients s) s1 ∧ sv_shutdownOnce s1 = true).
  { split; [apply (wf_stop_step s); [done|by exists (EvRun Stopping ch)]|]. unfold step in Hs.
    destruct (sv_panicked s); [done|]. rewrite Ht in Hs. cbn [mbind option_bind] in Hs.
    destruct (exec ch OpShutdown s) as [[s3 b]|] eqn:He; [|done]. injection Hs as <-.
    split; [exact (proj2 (collected ch s s3 b Hg He))|]. cbn. by rewrite (exec_once _ _ _ _ _ He). }
  assert (H2 : wf_stop s2 ∧ stopped_by (sv_clients s) s2).
  { clear -H0 Hrtc. induction Hrtc as [s'|s' s'' s3 Hs _ IH]; [by destruct H0 as (? & ? & _)|]. apply IH.
    destruct H0 as (Hw & Hst & Ho). split; [by eapply wf_stop_step|]. by eapply stopped_step. }
  destruct H2 as [_ [(pre & Hp & H')|[Hp H']]].
  - destruct Hend as [He|[ops He]]; rewrite Hp in He; [done|]. destruct pre as [|p pre].
    + destruct H' as [_ [Hl|Hl%elem_of_nil] Hc]; [|done]. split; [done|]. intros c Hin.
      destruct (Hc c Hin) as [|[?%elem_of_nil|?%elem_of_nil]]; done.
    + injection He as -> _. pose proof (sp_ops _ _ _ H') as [Hbad _]%Forall_cons. done.
  - destruct H' as [_ [Hl|Hl%elem_of_nil] Hc]; [|done]. split; [done|]. intros c Hin.
    destruct (Hc c Hin) as [|[?%elem_of_nil|?%elem_of_nil]]; done.
Qed.

(** C13: a server that is shut down comes to rest: once it accepts nobody and the
    clients it still serves are closed, no schedule of its goroutines is infinite,
    and a schedule that cannot go on has ended every goroutine, [Shutdown]
    included, unless a send to a closed channel brought the server down. *)
Theorem shutdown_ends s : srv_reachable s → draining s →
  Acc (λ s2 s1, srv_step s1 s2) s ∧
  ∀ s', rtc srv_step s s' → (∀ s'', ¬ srv_step s' s'') → sv_panicked s' = true ∨ sv_threads s' = ∅.
Proof.
  intros Hw%wf_stop_reachable Hd. split; [by apply draining_ends|]. intros s' Hr Hend.
  destruct (draining_always s s' Hw Hd Hr) as [Hw' Hd'].
  destruct (sv_panicked s') eqn:Hp; [by left|right]. apply map_eq. intros t. rewrite lookup_empty.
  destruct (sv_threads s' !! t) as [ops|] eqn:Ht; [|done].
  destruct (draining_goes_on s' t ops Hw' Hd' Hp Ht) as [s'' Hs]. by destruct (Hend s'').
Qed.

(** After the two clients are closed and [Shutdown] waits. *)
Lemma orderly_reached : ∃ s, play orderly NewServer = Some s ∧ srv_reachable s ∧ draining s.
Proof.
  assert (∃ s, play orderly NewServer = Some s ∧ sv_shutdownOnce s = true ∧ sv_listening s = false ∧
    sv_threads s !! Serving = Some [OpExit] ∧
    bool_decide (map_Forall (λ t _, Forall (λ c, cc_chClosed (get_conn s c) = true) (thread_conns t)) (sv_threads s)) = true)
    as (s & Hs & H1 & H2 & H3 & H4) by (eexists; split; [vm_compute; reflexivity|split_and!; vm_compute; reflexivity]).
  exists s. split; [exact Hs|]. split.
  - apply (play_reachable orderly NewServer); [|by apply reachable_init|exact Hs].
    assert (H' := good_racing). unfold racing in H'. apply Forall_app in H' as [H' _].
    unfold orderly. apply Forall_app. split; [exact H'|]. apply Forall_app. split; [by repeat constructor|apply good_go].
  - apply bool_decide_eq_true in H4. split; [done|done| |].
    + intros ops. rewrite H3. intros [= <-]. by right.
    + intros t c [ops Ht] Hc. specialize (H4 t ops Ht). cbn beta in H4. rewrite Hc in H4. by apply Forall_cons in H4 as [H4 _].
Qed.

Lemma shutdown_ends_witness : ∃ s, play orderly NewServer = Some s ∧ Acc (λ s2 s1, srv_step s1 s2) s.
Proof.
  destruct orderly_reached as (s & Hs & Hr & Hd). exists s. split; [exact Hs|]. exact (proj1 (shutdown_ends s Hr Hd)).
Defined.

Lemma shutdown_closes_witness : ∃ s s1, play (two_clients ++ [EvStop]) NewServer = Some s ∧
  step (EvRun Stopping (any_choice 1)) s = Some s1 ∧
  ∀ s2, rtc srv_step s1 s2 → sv_threads s2 !! Stopping = None → cc_chClosed (get_conn s2 0) = true.
Proof.
  assert (∃ s s1, play (two_clients ++ [EvStop]) NewServer = Some s ∧ step (EvRun Stopping (any_choice 1)) s = Some s1 ∧
    sv_shutdownOnce s = true ∧ sv_threads s !! Stopping = Some [OpShutdown; OpWait; OpExit] ∧ elements (sv_clients s) = [1; 0]%nat)
    as (s & s1 & Hs & Hs1 & Ho & Ht & He)
    by (do 2 eexists; split; [vm_compute; reflexivity|split; [vm_compute; reflexivity|split_and!; vm_compute; reflexivity]]).
  exists s, s1. split; [exact Hs|]. split; [exact Hs1|]. intros s2 Hr Hn.
  assert (Hre : srv_reachable s).
  { apply (play_reachable (two_clients ++ [EvStop]) NewServer); [|by apply reachable_init|exact Hs].
    assert (H' := good_racing). unfold racing in H'. apply Forall_app in H' as [H' _].
    apply Forall_app. split; [exact H'|by repeat constructor]. }
  apply (proj2 (shutdown_closes s (any_choice 1) s1 s2 Hre Ho ltac:(by intros l) Ht Hs1 Hr (or_introl Hn))).
  rewrite <- elem_of_elements, He. right. left.
Defined.

(** A client that is accepted while [Shutdown] collects the others is forgotten:
    [Shutdown] has closed the listener and returned, and the client is still
    served. *)
Theorem shutdown_forgets : ∃ s c, srv_reachable s ∧ sv_closed s = true ∧ sv_listening s = false ∧
  sv_threads s !! Stopping = None ∧ c ∈ sv_clients s ∧ sv_threads s !! Reader c = Some [] ∧
  cc_chClosed (get_conn s c) = false.
Proof.
  assert (∃ s, play late_client NewServer = Some s ∧ sv_closed s = true ∧ sv_listening s = false ∧
    sv_threads s !! Stopping = None ∧ elements (sv_clients s) = [0%nat] ∧ sv_threads s !! Reader 0 = Some [] ∧
    cc_chClosed (get_conn s 0) = false) as (s & Hs & H1 & H2 & H3 & H4 & H5 & H6)
    by (eexists; split; [vm_compute; reflexivity|split_and!; vm_compute; reflexivity]).
  exists s, 0%nat. split_and!; try done; [|rewrite <- elem_of_elements, H4; by left].
  eapply (play_reachable late_client NewServer); [|by apply reachable_init|exact Hs].
  unfold late_client. repeat (apply Forall_app; split); try apply good_go; by repeat constructor.
Qed.
