(* ===== verification/Routing.v ===== *)
(** * What the TCP server delivers

    [internal/network/tcp.go] and [client.go]: where the messages in a client's
    channel and on its connection come from, over all histories of the server of
    [TcpServer]. *)

From S2P Require Import Prelude GoStrings GoTime Protocol TcpServer.
Import TcpServer.

Module Routing.

(** The histories, with their events. *)
Inductive history : list event → Server → Prop :=
  | history_new : history [] NewServer
  | history_step evs s ev s' : history evs s → good_event ev → step ev s = Some s' → history (evs ++ [ev]) s'.

(** The server has read the message from the client. *)
Definition was_read (evs : list event) (c : nat) (m : Message) : Prop := EvRead c (Some m) ∈ evs ∧ Validate m = Ok ().

(** The client has joined under the name. *)
Definition joined (evs : list event) (c : nat) (p : string) : Prop :=
  ∃ j, was_read evs c j ∧ msg_Type j = TypeJoin ∧ msg_SenderID j = p.

(** Whom a message read from [sender] is for. *)
Definition addressed (evs : list event) (sender c : nat) (m : Message) : Prop :=
  if decide (TrimSpace (msg_RecipientID m) = EmptyString) then c ≠ sender else joined evs c (msg_RecipientID m).

(** A message that may reach the client: one that another has sent it, or the
    notice that one of its own could not be delivered. *)
Definition deliverable (evs : list event) (c : nat) (m : Message) : Prop :=
  (∃ sender, was_read evs sender m ∧ addressed evs sender c m) ∨
  (∃ m0 idTime now what, was_read evs c m0 ∧ m = delivery_failed idTime now m0 what).

Definition fail_from (evs : list event) (f : on_fail) : Prop :=
  match f with FailNotify sender m => was_read evs sender m | _ => True end.

Definition op_from (evs : list event) (o : op) : Prop :=
  match o with
  | OpLoad c m f | OpSend c m f => deliverable evs c m ∧ fail_from evs f
  | OpNotify sender m _ => was_read evs sender m
  | OpLookup sender m => was_read evs sender m ∧ TrimSpace (msg_RecipientID m) ≠ EmptyString
  | OpRecipients sender m => was_read evs sender m ∧ TrimSpace (msg_RecipientID m) = EmptyString
  | OpRegister c p => joined evs c p
  | _ => True
  end.

Definition held (cc : clientConn) : list Message := cc_writeCh cc ++ cc_conn cc.

Record traced (evs : list event) (s : Server) : Prop := {
  tr_ops : ∀ t ops, sv_threads s !! t = Some ops → Forall (op_from evs) ops;
  tr_peers : ∀ p c, sv_peers s !! p = Some c → joined evs c p;
  tr_held : ∀ c m, m ∈ held (get_conn s c) → deliverable evs c m
}.

End Routing.

Import Routing.

(** ** More events *)

Section More.
Context (evs evs' : list event) (Hsub : evs ⊆ evs').

Lemma was_read_mono c m : was_read evs c m → was_read evs' c m.
Proof. intros [H Hv]. split; [by apply Hsub|done]. Qed.

Lemma joined_mono c p : joined evs c p → joined evs' c p.
Proof. intros (j & H & Hj). exists j. split; [by apply was_read_mono|done]. Qed.

Lemma deliverable_mono c m : deliverable evs c m → deliverable evs' c m.
Proof.
  intros [(sender & H & Ha)|(m0 & i & n & w & H & ->)].
  - left. exists sender. split; [by apply was_read_mono|]. unfold addressed in *. case_decide; [done|by apply joined_mono].
  - right. exists m0, i, n, w. split; [by apply was_read_mono|done].
Qed.

Lemma op_from_mono o : op_from evs o → op_from evs' o.
Proof.
  assert (Hf : ∀ f, fail_from evs f → fail_from evs' f) by (intros [| |sender m]; [done..|apply was_read_mono]).
  destruct o; cbn; try done; try (intros [H1 H2]; split); auto using was_read_mono, joined_mono, deliverable_mono.
Qed.

Lemma traced_mono s : traced evs s → traced evs' s.
Proof.
  intros [H1 H2 H3]. split.
  - intros t ops Ht. eapply Forall_impl; [by eapply H1|]. intros o. apply op_from_mono.
  - intros p c Hp. by apply joined_mono, H2.
  - intros c m Hm. by apply deliverable_mono, H3.
Qed.

End More.

(** ** One operation *)

Lemma from_bind evs (l : list nat) f : (∀ i, i ∈ l → Forall (op_from evs) (f i)) → Forall (op_from evs) (l ≫= f).
Proof. intros H. apply Forall_bind, Forall_forall. auto. Qed.

Lemma from_failed evs c f : fail_from evs f → Forall (op_from evs) (failed c f).
Proof. intros H. destruct f; unfold failed, removeClient, close; rewrite ?Forall_app, ?Forall_cons, ?Forall_nil; done. Qed.

Lemma held_alter f c s c' m : (∀ cc, held (f cc) = held cc) → m ∈ held (get_conn (with_conns (alter f c) s) c') → m ∈ held (get_conn s c').
Proof. intros Hf. rewrite get_conn_alter. case_decide as Hd; [|done]. destruct Hd as [-> _]. by rewrite Hf. Qed.

Lemma from_exec evs ch o s s1 b : traced evs s → op_from evs o → good_choice ch → exec ch o s = Some (s1, b) →
  Forall (op_from evs) b ∧ (∀ p c, sv_peers s1 !! p = Some c → joined evs c p) ∧
  (∀ c m, m ∈ held (get_conn s1 c) → deliverable evs c m).
Proof.
  intros [_ Hp Hh] Ho Hg He. destruct o; cbn [exec op_from] in *; repeat case_match; simplify_eq; try (by split; [repeat constructor|]);
    try (split; [by repeat constructor|split; [done|]; intros c' m'; intros Hm'; apply held_alter in Hm'; [by apply Hh|done]]).
  - split; [by repeat constructor|]. split; [done|]. intros c' m'. unfold get_conn. cbn.
    destruct (decide (fresh (dom (sv_conns s)) = c')) as [<-|Hn]; [by rewrite lookup_insert_eq; intros ?%elem_of_nil|].
    rewrite lookup_insert_ne by done. apply Hh.
  - split; [done|]. split; [|done]. intros p i Hi%unregister_sub. by apply Hp.
  - split; [done|]. split; [|done]. cbn. intros p i [[<- <-]|[_ Hi]]%lookup_insert_Some; [done|by apply Hp].
  - split; [|done]. destruct Ho as [Hr Hne]. constructor; [|constructor]. split; [|done]. left. exists sender. split; [done|].
    unfold addressed. rewrite decide_False by done. by apply Hp.
  - split; [|done]. destruct Ho as [Hr _]. apply Forall_singleton, Hr.
  - split; [|done]. destruct Ho as [Hr Hb]. apply from_bind. intros i [Hi _]%list_elem_of_filter. constructor; [|constructor].
    split; [|done]. left. exists sender. split; [done|]. unfold addressed. by rewrite decide_True.
  - split; [|done]. apply from_failed, Ho.
  - split; [|done]. apply Forall_singleton, Ho.
  - split; [done|]. split; [done|]. intros c' m'. rewrite get_conn_alter. case_decide as Hd; [|apply Hh]. destruct Hd as [-> _].
    unfold held. cbn. rewrite !elem_of_app, list_elem_of_singleton. intros [[Hm| ->]|Hm]; [|by apply Ho|].
    + apply Hh. unfold held. rewrite elem_of_app. by left.
    + apply Hh. unfold held. rewrite elem_of_app. by right.
  - split; [|done]. apply from_failed, Ho.
  - split; [|done]. constructor; [|constructor]. split; [|done]. right. by exists m, (ch_idTime ch), (ch_now ch), what.
  - split; [|done]. constructor; [done|]. apply from_bind. intros i _. by repeat constructor.
Qed.

Lemma from_received evs c m : EvRead c (Some m) ∈ evs → Forall (op_from evs) (received c m).
Proof.
  intros H. unfold received. destruct (Validate m) as [[]|] eqn:Ev; [|constructor].
  assert (Hr : was_read evs c m) by done. apply Forall_app. split.
  - case_decide as Ht; [|constructor]. constructor; [done|]. apply Forall_singleton. by exists m.
  - unfold broadcast. case_decide; (constructor; [|constructor]); split; done.
Qed.

(** ** Histories *)

Lemma traced_insert evs t ops s : traced evs s → Forall (op_from evs) ops → traced evs (with_threads <[t := ops]> s).
Proof.
  intros [H1 H2 H3] Ho. split; [|done|done]. cbn. intros t' ops' [[_ <-]|[_ H]]%lookup_insert_Some; [done|by apply (H1 t')].
Qed.

Lemma traced_history evs s : history evs s → traced evs s.
Proof.
  induction 1 as [|evs s ev s' _ IH Hg Hs].
  - split; [|done|]; cbn.
    + intros t ops [_ <-]%lookup_singleton_Some. constructor.
    + intros c m. unfold get_conn. cbn. by intros ?%elem_of_nil.
  - assert (Hsub : evs ⊆ evs ++ [ev]) by set_solver. apply (traced_mono _ _ Hsub) in IH.
    assert (Hev : ev ∈ evs ++ [ev]) by set_solver. set (evs' := evs ++ [ev]) in *. clearbody evs'.
    unfold step in Hs. destruct (sv_panicked s); [done|].
    destruct ev as [| |c [m|]|c sent|c| |t ch].
    + case_match; [|done]. apply resume_inv in Hs as [_ ->]. apply traced_insert; [done|by repeat constructor].
    + apply resume_inv in Hs as [_ ->]. apply traced_insert; [done|by repeat constructor].
    + case_match; [done|]. apply resume_inv in Hs as [_ ->]. apply traced_insert; [done|by apply from_received].
    + apply resume_inv in Hs as [_ ->]. apply traced_insert; [done|by repeat constructor].
    + destruct (cc_writeCh (get_conn s c)) as [|m rest] eqn:Eq; [done|].
      apply bind_Some in Hs as (s1 & [_ ->]%resume_inv & [= <-]).
      assert (H1 : traced evs' (with_threads <[Writer c := if sent then [] else removeClient c ++ [OpExit]]> s)).
      { apply traced_insert; [done|]. destruct sent; by repeat constructor. }
      destruct H1 as [T1 T2 T3]. split; [done|done|]. intros c' m'. rewrite get_conn_alter. case_decide as Hd; [|apply T3].
      destruct Hd as [-> _]. intros Hm. apply T3. unfold held in *. cbn [pop cc_writeCh cc_conn] in Hm.
      change (get_conn (with_threads _ s) c) with (get_conn s c) in *. rewrite Eq.
      destruct sent; set_solver.
    + case_match; [|done]. apply resume_inv in Hs as [_ ->]. apply traced_insert; [done|by repeat constructor].
    + case_match; [done|]. injection Hs as <-. destruct IH as [T1 T2 T3]. split; [|done|done]. cbn.
      intros t ops [[_ <-]|[_ H']]%lookup_insert_Some; [by repeat constructor|by apply (T1 t)].
    + destruct (sv_threads s !! t) as [[|o ops]|] eqn:Ht; [done| |done]. destruct IH as [T1 T2 T3].
      assert (Hops := T1 t _ Ht). apply Forall_cons in Hops as [Ho Hops].
      destruct (op_exit o) as [->|Hne].
      * injection Hs as <-. split; [|done|done]. cbn. intros t' ops' [_ H']%lookup_delete_Some. by apply (T1 t').
      * assert (Hx : exec ch o s ≫= (λ '(s, before), Some (with_threads <[t := before ++ ops]> s)) = Some s') by (by destruct o).
        apply bind_Some in Hx as ([s1 b] & He & [= <-]).
        destruct (from_exec evs' ch o s s1 b (Build_traced _ _ T1 T2 T3) Ho Hg He) as (Hb & Hp & Hh).
        apply traced_insert; [|by apply Forall_app]. split; [|done|done].
        rewrite (exec_threads _ _ _ _ _ He). intros t' ops' Ht'. destruct o; try by apply (T1 t').
        apply lookup_insert_Some in Ht' as [[_ <-]|[_ [[_ <-]|[_ Ht']]%lookup_insert_Some]]; [constructor..|by apply (T1 t')].
Qed.

Lemma history_play evs s s' pre : history pre s → Forall good_event evs → play evs s = Some s' → history (pre ++ evs) s'.
Proof.
  intros Hh Hg. revert pre s Hh. induction Hg as [|ev evs Hev Hg IH]; intros pre s Hh; cbn [play].
  - intros [= <-]. by rewrite app_nil_r.
  - intros (s1 & Hs & Hp)%bind_Some. rewrite cons_middle, app_assoc. apply (IH _ s1); [|done]. by eapply history_step.
Qed.

(** ** Properties *)

(** C10: nothing is made up and nothing goes astray: under every interleaving, a
    message that waits for a client or was written to it is either one the server
    has read from a client and found valid, sent to everybody by another client or
    to a name under which this client has joined, its own name included, or the
    server's notice about a message this client itself has sent. *)
Theorem provenance evs s c m : history evs s → m ∈ held (get_conn s c) → deliverable evs c m.
Proof. intros Hh. apply (tr_held _ _ (traced_history evs s Hh)). Qed.

Lemma provenance_witness : ∃ s, play (two_clients ++ [EvRead 0 (Some (chat_message "bob"))] ++ go (Reader 0) 3) NewServer = Some s ∧
  deliverable (two_clients ++ [EvRead 0 (Some (chat_message "bob"))] ++ go (Reader 0) 3) 1 (chat_message "bob").
Proof.
  set (evs := two_clients ++ [EvRead 0 (Some (chat_message "bob"))] ++ go (Reader 0) 3).
  assert (∃ s, play evs NewServer = Some s ∧ bool_decide (chat_message "bob" ∈ held (get_conn s 1)) = true) as (s & Hs & Hm)
    by (eexists; split; vm_compute; reflexivity).
  exists s. split; [exact Hs|]. apply (provenance evs s).
  - apply (history_play evs NewServer s []); [constructor| |exact Hs].
    assert (Hr := good_racing). unfold racing in Hr. apply Forall_app in Hr as [Hr _]. apply Forall_app. split; [exact Hr|].
    apply Forall_app. split; [by repeat constructor|apply good_go].
  - by apply bool_decide_eq_true in Hm.
Defined.
