(* ===== verification/Connection.v ===== *)
(** * The connection manager

    [internal/network/connection/manager.go]: one entry per peer, and a
    goroutine per connection attempt that dials the endpoint and then marks the
    state of the peer.  The goroutines that have not finished are part of the
    state; a history interleaves their ends with the calls. *)

From S2P Require Import Prelude GoStrings GoTime GoNet.

Open Scope Z_scope.

Module Connection.

(** ** Trimming *)

(** Space, tab, newline and carriage return. *)
Definition blank_byte (a : ascii) : bool :=
  let z := byte_Z a in (z =? 32) || (z =? 9) || (z =? 10) || (z =? 13).

Fixpoint trim_front (s : string) : string :=
  match s with
  | String a s' => if blank_byte a then trim_front s' else s
  | EmptyString => EmptyString
  end.

Definition trim (value : string) : string := rev_s (trim_front (rev_s (trim_front value))).

(** ** State *)

Inductive State : Type := StateDisconnected | StateConnecting | StateConnected | StateFailed.

#[global] Instance State_eq_dec : EqDecision State.
Proof. solve_decision. Defined.

Definition State_String (s : State) : string :=
  match s with
  | StateDisconnected => "disconnected"
  | StateConnecting => "connecting"
  | StateConnected => "connected"
  | StateFailed => "failed"
  end.

Record PeerStatus : Type := mkPeerStatus {
  ps_PeerID : string; ps_Endpoint : string; ps_State : State; ps_UpdatedAt : Time
}.

(** A goroutine of [run]: its arguments, and whether its context is cancelled. *)
Record Run : Type := mkRun { run_peer : string; run_endpoint : string; run_cancelled : bool }.

(** A [peerState] refers to its goroutine by number: its [cancel] function
    cancels that one. *)
Record Manager : Type := mkManager {
  cm_peers : gmap string (PeerStatus * nat);
  cm_runs : gmap nat Run;
  cm_next : nat
}.

Definition NewManager : Manager := mkManager ∅ ∅ 0.

Inductive conn_error : Type := ErrPeerIDRequired | ErrEndpointRequired.

(** ** Operations *)

Definition Connect (now : Time) (peerID endpoint : string) (m : Manager)
  : Manager * result conn_error () :=
  let peerID := trim peerID in
  let endpoint := trim endpoint in
  if decide (peerID = EmptyString) then (m, Err ErrPeerIDRequired) else
  if decide (endpoint = EmptyString) then (m, Err ErrEndpointRequired) else
  let start :=
    (mkManager (<[peerID := (mkPeerStatus peerID endpoint StateConnecting now, cm_next m)]> (cm_peers m))
       (<[cm_next m := mkRun peerID endpoint false]> (cm_runs m)) (S (cm_next m)), Ok ()) in
  match cm_peers m !! peerID with
  | Some (existing, _) =>
      match ps_State existing with
      | StateConnected | StateConnecting => (m, Ok ())
      | _ => start
      end
  | None => start
  end.

Definition markState (now : Time) (peerID : string) (next : State) (m : Manager) : Manager :=
  match cm_peers m !! peerID with
  | None => m
  | Some (s, r) =>
      mkManager (<[peerID := (mkPeerStatus (ps_PeerID s) (ps_Endpoint s) next now, r)]> (cm_peers m))
        (cm_runs m) (cm_next m)
  end.

(** The end of a goroutine, with the outcome of its dial. *)
Definition finish (now : Time) (r : nat) (dialed : bool) (m : Manager) : Manager :=
  match cm_runs m !! r with
  | None => m
  | Some run =>
      let m := mkManager (cm_peers m) (delete r (cm_runs m)) (cm_next m) in
      markState now (run_peer run) (if dialed then StateConnected else StateFailed) m
  end.

Definition cancel_run (r : Run) : Run := mkRun (run_peer r) (run_endpoint r) true.

Definition Disconnect (peerID : string) (m : Manager) : Manager * result conn_error () :=
  let peerID := trim peerID in
  if decide (peerID = EmptyString) then (m, Err ErrPeerIDRequired) else
  match cm_peers m !! peerID with
  | None => (m, Ok ())
  | Some (_, r) =>
      (mkManager (delete peerID (cm_peers m)) (alter cancel_run r (cm_runs m)) (cm_next m), Ok ())
  end.

Definition Status (peerID : string) (m : Manager) : option PeerStatus := fst <$> cm_peers m !! peerID.

Definition Snapshot (m : Manager) : list PeerStatus := (λ kv, kv.2.1) <$> map_to_list (cm_peers m).

Definition Forget (peerID : string) (m : Manager) : Manager :=
  mkManager (delete peerID (cm_peers m)) (cm_runs m) (cm_next m).

(** ** Endpoints *)

Inductive endpoint_error : Type :=
  | EndpointRequired | EndpointInvalid (e : addr_error) | HostRequired | PortRequired.

Definition ValidateEndpoint (endpoint : string) : result endpoint_error () :=
  if decide (trim endpoint = EmptyString) then Err EndpointRequired else
  match SplitHostPort endpoint with
  | Err e => Err (EndpointInvalid e)
  | Ok (host, port) =>
      if decide (trim host = EmptyString) then Err HostRequired else
      if decide (trim port = EmptyString) then Err PortRequired else Ok ()
  end.

(** ** Histories *)

Inductive event : Type :=
  | EvConnect (now : Time) (peerID endpoint : string)
  | EvDisconnect (peerID : string)
  | EvForget (peerID : string)
  | EvFinish (now : Time) (r : nat) (dialed : bool).

Definition apply (m : Manager) (ev : event) : Manager :=
  match ev with
  | EvConnect now p e => (Connect now p e m).1
  | EvDisconnect p => (Disconnect p m).1
  | EvForget p => Forget p m
  | EvFinish now r d => finish now r d m
  end.

Definition conn_step (m m' : Manager) : Prop := ∃ ev, m' = apply m ev.
Definition conn_reachable : Manager → Prop := reachable (λ m, m = NewManager) conn_step.

(** ** Specification *)

Record wf_conn (m : Manager) : Prop := {
  (** entries carry the trimmed peer ID they are stored under *)
  wc_key : ∀ p s r, cm_peers m !! p = Some (s, r) → ps_PeerID s = p ∧ p ≠ EmptyString ∧ trim p = p;
  (** a peer that is connecting has its goroutine, not cancelled, still to end *)
  wc_run : ∀ p s r, cm_peers m !! p = Some (s, r) → ps_State s = StateConnecting →
    cm_runs m !! r = Some (mkRun p (ps_Endpoint s) false);
  wc_owner : ∀ p s r run, cm_peers m !! p = Some (s, r) → cm_runs m !! r = Some run →
    run_peer run = p;
  wc_fresh : ∀ r run, cm_runs m !! r = Some run → (r < cm_next m)%nat;
  wc_used : ∀ p s r, cm_peers m !! p = Some (s, r) → (r < cm_next m)%nat
}.

(** Every goroutine ends, with the outcomes given. *)
Definition drain (now : Time) (dialed : nat → bool) (m : Manager) : Manager :=
  foldl (λ m r, finish now r (dialed r) m) m (map_to_list (cm_runs m)).*1.

(** A connection attempt, given up and replaced by one to another endpoint while
    its dial was still under way; then the first dial ends. *)
Definition stale_history : Manager :=
  foldl apply NewManager
    [EvConnect 1 "bob" "10.0.0.1:1"; EvDisconnect "bob"; EvConnect 2 "bob" "10.0.0.2:1"; EvFinish 3 0 false].

End Connection.

Import Connection.

(** ** Trimming *)

Lemma trim_front_id s : blank_byte (default "x"%char (String.get 0 s)) = false → trim_front s = s.
Proof. destruct s as [|a s]; [done|]. cbn. by intros ->. Qed.

Lemma blank_space1 a : blank_byte a = true → space1 a = true.
Proof.
  unfold blank_byte, space1. rewrite !orb_true_iff, !Z.eqb_eq, andb_true_iff, !Z.leb_le. lia.
Qed.

Lemma lead_blank p2 p3 s : lead space1 p2 p3 s = false →
  blank_byte (default "x"%char (String.get 0 s)) = false.
Proof.
  destruct s as [|a s]; [done|]. cbn [String.get default]. intros H.
  destruct (blank_byte a) eqn:E; [|done]. apply blank_space1 in E. revert H.
  destruct s as [|b [|c s]]; cbn; by rewrite E.
Qed.

(** What [strings.TrimSpace] leaves has nothing for [trim] to remove. *)
Lemma trim_TrimSpace s : trimmed s → trim s = s.
Proof.
  intros H. unfold trim. rewrite (trim_front_id s).
  - rewrite (trim_front_id (rev_s s)); [apply rev_rev_s|].
    apply (lead_blank (λ a b, space2 b a) (λ a b c, space3 c b a)).
    rewrite <- H. unfold TrimSpace, TrimRight. rewrite rev_rev_s. apply lead_drop_seqs.
  - apply (lead_blank space2 space3). rewrite <- H, <- TrimLeft_TrimSpace. apply lead_drop_seqs.
Qed.

Lemma trim_front_idem s : trim_front (trim_front s) = trim_front s.
Proof. induction s as [|a s IH]; [done|]. cbn. destruct (blank_byte a) eqn:E; [done|]. cbn. by rewrite E. Qed.

Lemma trim_front_suffix s : ∃ p, s = p +:+ trim_front s.
Proof.
  induction s as [|a s [p IH]]; [by exists EmptyString|]. cbn. destruct (blank_byte a).
  - exists (String a p). by rewrite app_cons_s, <- IH.
  - by exists EmptyString.
Qed.

Lemma trim_front_head s a t : trim_front s = String a t → blank_byte a = false.
Proof.
  induction s as [|b s IH]; [done|]. cbn. destruct (blank_byte b) eqn:E; [done|]. by intros [= -> _].
Qed.

Lemma trim_idem s : trim (trim s) = trim s.
Proof.
  unfold trim at 2 3. set (u := trim_front s).
  destruct (trim_front_suffix (rev_s u)) as [p Hp]. set (t := trim_front (rev_s u)) in *.
  assert (Hu : u = rev_s t +:+ rev_s p) by (by rewrite <- rev_app_s, <- Hp, rev_rev_s).
  assert (Hf : trim_front (rev_s t) = rev_s t).
  { apply trim_front_id. destruct (rev_s t) as [|a v]; [done|]. rewrite app_cons_s in Hu.
    by apply (trim_front_head s a (v +:+ rev_s p)). }
  unfold trim. rewrite Hf, rev_rev_s. unfold t at 1. by rewrite trim_front_idem.
Qed.

(** What [trim] empties consists of blanks. *)
Lemma trim_front_empty s : trim_front s = EmptyString → all_bytes blank_byte s = true.
Proof. induction s as [|a s IH]; [done|]. cbn. by destruct (blank_byte a). Qed.

Lemma trim_empty s : trim s = EmptyString → all_bytes blank_byte s = true.
Proof.
  unfold trim. intros H.
  assert (Hr : trim_front (rev_s (trim_front s)) = EmptyString)
    by (rewrite <- (rev_rev_s (trim_front _)), H; done).
  apply trim_front_empty in Hr. apply all_bytes_rev in Hr. rewrite rev_rev_s in Hr.
  destruct (trim_front s) as [|a t] eqn:E; [by apply trim_front_empty|].
  apply trim_front_head in E as Ha. cbn in Hr. by rewrite Ha in Hr.
Qed.

(** Blanks alone are white space alone. *)
Lemma blank_TrimSpace s : all_bytes blank_byte s = true → TrimSpace s = EmptyString.
Proof.
  intros H. assert (TrimLeft s = EmptyString) as Hl.
  { unfold TrimLeft. induction s as [|a s IH]; [done|]. cbn in H. apply andb_true_iff in H as [Ha Hs].
    cbn [drop_seqs]. rewrite (blank_space1 _ Ha). by apply IH. }
  unfold TrimSpace. by rewrite Hl.
Qed.

Lemma has_byte_blank c s : has_byte c s = true → all_bytes blank_byte s = true → blank_byte c = true.
Proof.
  induction s as [|a s IH]; [done|]. cbn. rewrite orb_true_iff, bool_decide_eq_true, andb_true_iff.
  intros [->|H] [H1 H2]; auto.
Qed.

(** ** The invariant *)

Lemma wf_NewConn : wf_conn NewManager.
Proof. by split. Qed.

Lemma wf_Connect now p e m : wf_conn m → wf_conn (Connect now p e m).1.
Proof.
  intros Hm. unfold Connect. case_decide as Hp; [done|]. case_decide; [done|].
  assert (wf_conn (mkManager
    (<[trim p := (mkPeerStatus (trim p) (trim e) StateConnecting now, cm_next m)]> (cm_peers m))
    (<[cm_next m := mkRun (trim p) (trim e) false]> (cm_runs m)) (S (cm_next m)))) as Hnew.
  { destruct Hm as [Hk Hr Ho Hf Hu]. split; cbn.
    - intros q s r [[<- [= <- <-]]|[_ H1]]%lookup_insert_Some; [|by apply (Hk q s r)].
      split_and!; [done|done|apply trim_idem].
    - intros q s r [[<- [= <- <-]]|[Hq H1]]%lookup_insert_Some Hs; [by rewrite lookup_insert_eq|].
      rewrite lookup_insert_ne; [by apply (Hr q s r)|]. intros <-. apply Hu in H1. lia.
    - intros q s r run [[<- [= <- <-]]|[Hq H1]]%lookup_insert_Some.
      + rewrite lookup_insert_eq. by intros [= <-].
      + rewrite lookup_insert_ne; [by apply (Ho q s r)|]. intros <-. apply Hu in H1. lia.
    - intros r run [[<- _]|[_ H1]]%lookup_insert_Some; [lia|]. apply Hf in H1. lia.
    - intros q s r [[<- [= <- <-]]|[_ H1]]%lookup_insert_Some; [lia|]. apply Hu in H1. lia. }
  destruct (cm_peers m !! trim p) as [[s r]|]; [|done]. by destruct (ps_State s).
Qed.

Lemma wf_remove p m : wf_conn m → wf_conn (mkManager (delete p (cm_peers m)) (cm_runs m) (cm_next m)).
Proof.
  intros [Hk Hr Ho Hf Hu]. split; cbn; try done.
  - intros q s r [_ H]%lookup_delete_Some. by apply (Hk q s r).
  - intros q s r [_ H]%lookup_delete_Some. by apply (Hr q s r).
  - intros q s r run [_ H]%lookup_delete_Some. by apply (Ho q s r).
  - intros q s r [_ H]%lookup_delete_Some. by apply (Hu q s r).
Qed.

Lemma wf_Disconnect p m : wf_conn m → wf_conn (Disconnect p m).1.
Proof.
  intros Hm. unfold Disconnect. case_decide; [done|].
  destruct (cm_peers m !! trim p) as [[s0 r0]|] eqn:E; [|done]. cbn [fst].
  pose proof (wf_remove (trim p) m Hm) as [Hk Hr Ho Hf Hu]. cbn in *. split; cbn; try done.
  - intros q s r Hq Hs. pose proof (Hr q s r Hq Hs) as H1. rewrite lookup_alter_ne; [done|].
    intros <-. apply lookup_delete_Some in Hq as [Hne Hq].
    destruct Hm as [_ Hr' Ho' _ _]. apply Hne. by rewrite <- (Ho' _ _ _ _ E H1).
  - intros q s r run Hq. destruct (decide (r = r0)) as [->|Hn].
    + rewrite lookup_alter_eq. destruct (cm_runs m !! r0) as [run0|] eqn:E0; [|done].
      intros [= <-]. cbn. by apply (Ho q s r0).
    + rewrite lookup_alter_ne by done. by apply (Ho q s r).
  - intros r run. destruct (decide (r = r0)) as [->|Hn].
    + rewrite lookup_alter_eq. destruct (cm_runs m !! r0) as [run0|] eqn:E0; [|done].
      intros _. by apply (Hf r0 run0).
    + rewrite lookup_alter_ne by done. apply Hf.
Qed.

Lemma wf_markState now p st m : st ≠ StateConnecting → wf_conn m → wf_conn (markState now p st m).
Proof.
  intros Hst [Hk Hr Ho Hf Hu]. unfold markState. destruct (cm_peers m !! p) as [[s0 r0]|] eqn:E; [|by split].
  split; cbn; try done.
  - intros q s r [[<- [= <- <-]]|[_ H]]%lookup_insert_Some; [by apply (Hk p s0 r0)|by apply (Hk q s r)].
  - intros q s r [[<- [= <- <-]]|[_ H]]%lookup_insert_Some; [done|by apply (Hr q s r)].
  - intros q s r run [[<- [= <- <-]]|[_ H]]%lookup_insert_Some; [by apply (Ho p s0 r0)|by apply (Ho q s r)].
  - intros q s r [[<- [= <- <-]]|[_ H]]%lookup_insert_Some; [by apply (Hu p s0 r0)|by apply (Hu q s r)].
Qed.

Lemma wf_finish now r d m : wf_conn m → wf_conn (finish now r d m).
Proof.
  intros Hm. unfold finish. destruct (cm_runs m !! r) as [run|] eqn:E; [|done].
  destruct Hm as [Hk Hr Ho Hf Hu]. unfold markState. cbn.
  destruct (cm_peers m !! run_peer run) as [[s0 r0]|] eqn:Ep.
  - split; cbn.
    + intros q s r' [[<- [= <- <-]]|[_ H]]%lookup_insert_Some; [by apply (Hk (run_peer run) s0 r0)|by apply (Hk q s r')].
    + intros q s r' [[<- [= <- <-]]|[Hq H]]%lookup_insert_Some Hs; [by destruct d|].
      pose proof (Hr q s r' H Hs) as H1. rewrite lookup_delete_ne; [done|]. intros <-.
      rewrite E in H1. injection H1 as ->. done.
    + intros q s r' run' [[<- [= <- <-]]|[_ H]]%lookup_insert_Some [_ H1]%lookup_delete_Some;
        [by apply (Ho (run_peer run) s0 r0)|by apply (Ho q s r')].
    + intros r' run' [_ H]%lookup_delete_Some. by apply (Hf r' run').
    + intros q s r' [[<- [= <- <-]]|[_ H]]%lookup_insert_Some; [by apply (Hu (run_peer run) s0 r0)|by apply (Hu q s r')].
  - split; cbn; try done.
    + intros q s r' H Hs. pose proof (Hr q s r' H Hs) as H1. rewrite lookup_delete_ne; [done|].
      intros <-. rewrite E in H1. injection H1 as ->. cbn in Ep. by rewrite H in Ep.
    + intros q s r' run' H [_ H1]%lookup_delete_Some. by apply (Ho q s r').
    + intros r' run' [_ H]%lookup_delete_Some. by apply (Hf r' run').
Qed.

Lemma wf_apply m ev : wf_conn m → wf_conn (apply m ev).
Proof.
  destruct ev; cbn [apply]; [apply wf_Connect|apply wf_Disconnect|apply wf_remove|apply wf_finish].
Qed.

Lemma wf_conn_reachable m : conn_reachable m → wf_conn m.
Proof.
  apply reachable_invariant. split; [intros ? ->; apply wf_NewConn|].
  intros m1 m2 Hm [ev ->]. by apply wf_apply.
Qed.

(** ** Draining *)

Lemma finish_runs now r d m : cm_runs (finish now r d m) = delete r (cm_runs m).
Proof.
  unfold finish. destruct (cm_runs m !! r) eqn:E; [|by rewrite delete_id].
  unfold markState. cbn. by destruct (cm_peers m !! _) as [[]|].
Qed.

Lemma drain_runs now d l m : cm_runs (foldl (λ m r, finish now r (d r) m) m l) =
  foldl (λ rs r, delete r rs) (cm_runs m) l.
Proof. revert m. induction l as [|r l IH]; intros m; [done|]. cbn. by rewrite IH, finish_runs. Qed.

Lemma drain_wf now d l m : wf_conn m → wf_conn (foldl (λ m r, finish now r (d r) m) m l).
Proof. revert m. induction l as [|r l IH]; intros m Hm; [done|]. cbn. apply IH. by apply wf_finish. Qed.

Lemma foldl_delete_None {V} (l : list nat) (m : gmap nat V) r : r ∈ l ∨ m !! r = None →
  foldl (λ rs r, delete r rs) m l !! r = None.
Proof.
  revert m. induction l as [|x l IH]; intros m Hr; cbn; [set_solver|].
  apply IH. destruct (decide (r = x)) as [->|Hx]; [right; apply lookup_delete_eq|].
  rewrite lookup_delete_ne by done. set_solver.
Qed.

(** ** Properties *)

(** C35: in every history an entry is stored under its own trimmed peer ID, and a
    peer that is connecting has a live goroutine dialing its endpoint: no entry
    can stay in that state, for once all dials have ended none is left in it. *)
Theorem connection_progress m : conn_reachable m → wf_conn m ∧
  ∀ now dialed p s r, cm_peers (drain now dialed m) !! p = Some (s, r) → ps_State s ≠ StateConnecting.
Proof.
  intros Hm%wf_conn_reachable. split; [done|]. intros now dialed p s r Hp Hs.
  pose proof (drain_wf now dialed (map_to_list (cm_runs m)).*1 m Hm) as Hd. fold (drain now dialed m) in Hd.
  pose proof (wc_run _ Hd p s r Hp Hs) as Hr. unfold drain in Hr. rewrite drain_runs in Hr.
  rewrite foldl_delete_None in Hr; [done|].
  destruct (cm_runs m !! r) as [run|] eqn:E; [|by right]. left.
  apply list_elem_of_fmap. exists (r, run). split; [done|]. by apply elem_of_map_to_list.
Qed.

Lemma connection_progress_witness : wf_conn stale_history.
Proof.
  refine (proj1 (connection_progress stale_history _)).
  do 4 (eapply reachable_step; [|by eexists]). by apply reachable_init.
Defined.

(** A goroutine marks whatever entry its peer has when it ends: after a
    reconnection to another endpoint, the dial of the attempt that was given up
    marks the new one as failed while the new dial is still under way. *)
Theorem stale_dial_marks :
  (ps_State <$> Status "bob" stale_history) = Some StateFailed ∧
  (ps_Endpoint <$> Status "bob" stale_history) = Some "10.0.0.2:1" ∧
  cm_runs stale_history = {[1%nat := mkRun "bob" "10.0.0.2:1" false]}.
Proof. split_and!; vm_compute; reflexivity. Qed.
