(* ===== verification/Discovery.v ===== *)
(** * Peer discovery

    [internal/network/discovery]: the peers found by multicast DNS, the diff of
    successive scans into events, and the connector that turns the events into
    calls of a connection manager.  The connector is proved against an
    interface of connection managers, which [Connection] implements.  The
    answers of the DNS library are inputs. *)

From S2P Require Import Prelude GoStrings GoTime GoNet Connection.

Open Scope Z_scope.

Module Discovery.

(** ** Peers and events ([types.go]) *)

Record PeerInfo : Type := mkPeerInfo {
  pi_PeerID : string; pi_DisplayName : string; pi_Host : string; pi_Port : Z
}.

#[global] Instance PeerInfo_eq_dec : EqDecision PeerInfo.
Proof. solve_decision. Defined.

Definition blank (s : string) : bool := bool_decide (TrimSpace s = EmptyString).

Definition IsValid (p : PeerInfo) : bool :=
  if blank (pi_PeerID p) then false else
  if blank (pi_Host p) then false else
  if (pi_Port p <=? 0) || (65535 <? pi_Port p) then false else true.

Definition Endpoint (p : PeerInfo) : string := JoinHostPort (TrimSpace (pi_Host p)) (Itoa (pi_Port p)).

Definition Key (p : PeerInfo) : string :=
  let peerID := TrimSpace (pi_PeerID p) in
  if decide (peerID ≠ EmptyString) then peerID else Endpoint p.

Inductive Event : Type := EventPeerAdded (p : PeerInfo) | EventPeerRemoved (p : PeerInfo).

(** ** The connector ([connector.go]) *)

(** The interface: a manager tracks a set of peers, the two calls add and remove
    the trimmed peer ID, and what the manager does by itself between them
    ([mgr_goes_on]) leaves the set alone. *)
Class ConnectionManager (M : Type) := {
  mgr_Connect : string → string → M → M;
  mgr_Disconnect : string → M → M;
  mgr_work : Type;
  mgr_goes_on : mgr_work → M → M;
  mgr_tracked : M → gset string;
  mgr_goes_on_tracked w m : mgr_tracked (mgr_goes_on w m) = mgr_tracked m;
  mgr_Connect_tracked p e m : Connection.trim p ≠ EmptyString → Connection.trim e ≠ EmptyString →
    mgr_tracked (mgr_Connect p e m) = {[Connection.trim p]} ∪ mgr_tracked m;
  mgr_Disconnect_tracked p m : Connection.trim p ≠ EmptyString →
    mgr_tracked (mgr_Disconnect p m) = mgr_tracked m ∖ {[Connection.trim p]}
}.

Section Connector.
Context {M : Type} `{!ConnectionManager M}.

(** An error of the manager is only logged. *)
Definition handle (m : M) (ev : Event) : M :=
  match ev with
  | EventPeerAdded p => if IsValid p then mgr_Connect (pi_PeerID p) (Endpoint p) m else m
  | EventPeerRemoved p => if IsValid p then mgr_Disconnect (pi_PeerID p) m else m
  end.

(** [Run] on the events that are waiting. *)
Definition Run (events : list Event) (m : M) : M := foldl handle m events.

End Connector.

(** ** Scans ([mdns.go]) *)

Definition eventBuf : nat := 32.

(** The fields of a DNS service entry that are used; addresses as text. *)
Record ServiceEntry : Type := mkEntry {
  se_HostName : string; se_AddrIPv4 : list string; se_AddrIPv6 : list string;
  se_Port : Z; se_Text : list string
}.

(** The loop over the text fields: the last occurrence of each key counts. *)
Fixpoint text_fields (fields : list string) (acc : string * string) : string * string :=
  match fields with
  | [] => acc
  | f :: rest =>
      match SplitN2 "=" f with
      | (_, None) => text_fields rest acc
      | (k, Some v) =>
          if decide (TrimSpace k = "peer_id") then text_fields rest (TrimSpace v, acc.2)
          else if decide (TrimSpace k = "display_name") then text_fields rest (acc.1, TrimSpace v)
          else text_fields rest acc
      end
  end.

Definition entryToPeerInfo (entry : ServiceEntry) : option PeerInfo :=
  let host := TrimSpace (se_HostName entry) in
  let host := if decide (host = EmptyString) then
                match se_AddrIPv4 entry, se_AddrIPv6 entry with
                | a :: _, _ => a
                | [], a :: _ => a
                | [], [] => host
                end
              else host in
  if se_Port entry =? 0 then None else
  let '(peerID, displayName) := text_fields (se_Text entry) (EmptyString, EmptyString) in
  if decide (peerID = EmptyString) then None else
  Some (mkPeerInfo peerID displayName host (se_Port entry)).

(** The answers of one browse; [None] is a nil entry. *)
Fixpoint collect (entries : list (option ServiceEntry)) (seen : gmap string PeerInfo)
  : gmap string PeerInfo :=
  match entries with
  | [] => seen
  | e :: rest =>
      match e ≫= entryToPeerInfo with
      | Some info => collect rest (<[Key info := info]> seen)
      | None => collect rest seen
      end
  end.

Definition defaultServiceName : string := "_skall._tcp".
Definition defaultDomain : string := "local.".
Definition defaultPollInterval : Z := 5 * 1000000000.

(** [MDNSConfig]; of the factory of resolvers, whether there is one. *)
Record MDNSConfig : Type := mkConfig {
  mc_ServiceName : string; mc_Domain : string; mc_Interval : Z; mc_ResolverFactory : bool
}.

Definition DefaultMDNSConfig : MDNSConfig :=
  mkConfig defaultServiceName defaultDomain defaultPollInterval false.

Record MDNSDiscovery : Type := mkDiscovery {
  d_local : PeerInfo;
  d_config : MDNSConfig;
  d_started : bool;
  d_closed : bool;
  d_shutdown : bool;
  d_events : list Event;
  d_resolver : bool;
  d_entries : gmap string PeerInfo
}.

Definition NewMDNSDiscovery (local : PeerInfo) (config : MDNSConfig) : MDNSDiscovery :=
  let config := mkConfig
    (if blank (mc_ServiceName config) then defaultServiceName else mc_ServiceName config)
    (if blank (mc_Domain config) then defaultDomain else mc_Domain config)
    (if mc_Interval config <=? 0 then defaultPollInterval else mc_Interval config) true in
  mkDiscovery local config false false false [] false ∅.

Definition with_entries f d := mkDiscovery (d_local d) (d_config d) (d_started d) (d_closed d) (d_shutdown d)
  (d_events d) (d_resolver d) (f (d_entries d)).

(** [select { case d.events <- ev: default: }]. *)
Definition emit (ev : Event) (d : MDNSDiscovery) : MDNSDiscovery :=
  if (length (d_events d) <? eventBuf)%nat
  then mkDiscovery (d_local d) (d_config d) (d_started d) (d_closed d) (d_shutdown d) (d_events d ++ [ev])
         (d_resolver d) (d_entries d)
  else d.

Definition seenValues (order : gmap string PeerInfo → list (string * PeerInfo))
    (m : gmap string PeerInfo) : list PeerInfo := (order m).*2.

(** One turn of the loop that keeps the valid peers other than the local one. *)
Definition add_seen (local : PeerInfo) (m : gmap string PeerInfo) (info : PeerInfo)
  : gmap string PeerInfo :=
  if negb (IsValid info) then m
  else if decide (pi_PeerID info = pi_PeerID local) then m
  else <[Key info := info]> m.

Definition seen_set (local : PeerInfo) (seen : list PeerInfo) : gmap string PeerInfo :=
  foldl (add_seen local) ∅ seen.

Definition add_entry (d : MDNSDiscovery) (kv : string * PeerInfo) : MDNSDiscovery :=
  match d_entries d !! kv.1 with
  | Some _ => d
  | None => emit (EventPeerAdded kv.2) (with_entries <[kv.1 := kv.2]> d)
  end.

Definition remove_entry (seenSet : gmap string PeerInfo) (d : MDNSDiscovery) (kv : string * PeerInfo)
  : MDNSDiscovery :=
  match seenSet !! kv.1 with
  | Some _ => d
  | None => emit (EventPeerRemoved kv.2) (with_entries (delete kv.1) d)
  end.

(** [applyDiff]; the maps are iterated in any order. *)
Definition applyDiff (order : gmap string PeerInfo → list (string * PeerInfo)) (seen : list PeerInfo)
    (d : MDNSDiscovery) : MDNSDiscovery :=
  let seenSet := seen_set (d_local d) seen in
  let d := foldl add_entry d (order seenSet) in
  foldl (remove_entry seenSet) d (order (d_entries d)).

Inductive discovery_error : Type :=
  | ErrAlreadyStarted | ErrClosed | ErrCreateResolver | ErrResolverMissing | ErrBrowse
  | ErrInitialScan (e : discovery_error) | ErrInvalidPort | ErrLocalPeerID | ErrRegister.

(** [scan], from the answers of [Browse], or its refusal. *)
Definition scan (order : gmap string PeerInfo → list (string * PeerInfo))
    (browse : option (list (option ServiceEntry))) (d : MDNSDiscovery)
  : MDNSDiscovery * result discovery_error () :=
  if negb (d_resolver d) then (d, Err ErrResolverMissing) else
  match browse with
  | None => (d, Err ErrBrowse)
  | Some entries => (applyDiff order (seenValues order (collect entries ∅)) d, Ok ())
  end.

(** The three parts of [Start]: the checks, under the lock; what it sets once
    the factory, called without it, made a resolver; and the first scan. *)
Definition start_check (d : MDNSDiscovery) : result discovery_error () :=
  if d_started d then Err ErrAlreadyStarted else
  if d_closed d then Err ErrClosed else Ok ().

Definition start_set (d : MDNSDiscovery) : MDNSDiscovery :=
  mkDiscovery (d_local d) (d_config d) true (d_closed d) (d_shutdown d) (d_events d) true (d_entries d).

Definition first_scan (order : gmap string PeerInfo → list (string * PeerInfo))
    (browse : option (list (option ServiceEntry))) (d : MDNSDiscovery)
  : MDNSDiscovery * result discovery_error () :=
  match scan order browse d with
  | (d, Err e) => (d, Err (ErrInitialScan e))
  | (d, Ok _) => (d, Ok ())
  end.

(** [Start], uninterrupted; [factory] tells whether a resolver could be made.
    [Finder] has its parts as steps of their own. *)
Definition Start (order : gmap string PeerInfo → list (string * PeerInfo)) (factory : bool)
    (browse : option (list (option ServiceEntry))) (d : MDNSDiscovery)
  : MDNSDiscovery * result discovery_error () :=
  match start_check d with
  | Err e => (d, Err e)
  | Ok _ => if negb factory then (d, Err ErrCreateResolver) else first_scan order browse (start_set d)
  end.

Definition Close (d : MDNSDiscovery) : MDNSDiscovery :=
  if d_closed d then d
  else mkDiscovery (d_local d) (d_config d) (d_started d) true true (d_events d) (d_resolver d) (d_entries d).

(** What is registered with the DNS library. *)
Record Registration : Type := mkRegistration {
  rg_Instance : string; rg_Service : string; rg_Domain : string; rg_Port : Z; rg_Text : list string
}.

(** [Announce]; [registers] tells whether the library takes the registration. *)
Definition Announce (registers : bool) (port : Z) (d : MDNSDiscovery) : result discovery_error Registration :=
  if port <=? 0 then Err ErrInvalidPort else
  if blank (pi_PeerID (d_local d)) then Err ErrLocalPeerID else
  let txt := ["peer_id=" +:+ pi_PeerID (d_local d); "display_name=" +:+ TrimSpace (pi_DisplayName (d_local d))] in
  if registers
  then Ok (mkRegistration (pi_DisplayName (d_local d)) (mc_ServiceName (d_config d)) (mc_Domain (d_config d)) port txt)
  else Err ErrRegister.

Inductive port_error : Type := ErrPortRequired | ErrParsePort | ErrPortRange.

Definition ParsePort (value : string) : result port_error Z :=
  let trimmed := TrimSpace value in
  if decide (trimmed = EmptyString) then Err ErrPortRequired else
  match Atoi trimmed with
  | None => Err ErrParsePort
  | Some port => if (port <=? 0) || (65535 <? port) then Err ErrPortRange else Ok port
  end.

(** ** Specification *)

(** The keys of a map of peers. *)
Notation ids m := (dom m : gset string).

Definition map_order (order : gmap string PeerInfo → list (string * PeerInfo)) : Prop :=
  ∀ m, order m ≡ₚ map_to_list m.

(** Peers as the scans produce them: valid, the ID trimmed. *)
Definition proper (p : PeerInfo) : Prop := IsValid p = true ∧ trimmed (pi_PeerID p).

(** The peers of a scan that count. *)
Definition visible (local : PeerInfo) (seen : list PeerInfo) : gset string :=
  list_to_set (pi_PeerID <$> filter (λ p, IsValid p = true ∧ pi_PeerID p ≠ pi_PeerID local) seen).

(** One scan, after which the connector handles all waiting events. *)
Definition round {M} `{!ConnectionManager M} order (seen : list PeerInfo) (s : MDNSDiscovery * M)
  : MDNSDiscovery * M :=
  let d := applyDiff order seen s.1 in
  (mkDiscovery (d_local d) (d_config d) (d_started d) (d_closed d) (d_shutdown d) [] (d_resolver d) (d_entries d),
   Run (d_events d) s.2).

(** The discovery and the manager agree. *)
Record settled {M} `{!ConnectionManager M} (s : MDNSDiscovery * M) : Prop := {
  st_events : d_events s.1 = [];
  st_entries : ∀ k p, d_entries s.1 !! k = Some p → proper p ∧ k = pi_PeerID p;
  st_tracked : mgr_tracked s.2 = dom (d_entries s.1)
}.

(** The peers of the answers of one browse. *)
Definition answered (order : gmap string PeerInfo → list (string * PeerInfo))
    (answers : list (option ServiceEntry)) : list PeerInfo := seenValues order (collect answers ∅).

(** One scan of answers, followed by the connector. *)
Definition scan_round {M} `{!ConnectionManager M} order (s : MDNSDiscovery * M)
    (answers : list (option ServiceEntry)) : MDNSDiscovery * M := round order (answered order answers) s.

Definition sample_local : PeerInfo := mkPeerInfo "me" "Me" "10.0.0.9" 4000.
Definition sample_peer : PeerInfo := mkPeerInfo "bob" "Bob" "10.0.0.1" 4001.
Definition sample_answer : ServiceEntry :=
  mkEntry EmptyString ["10.0.0.1"] [] 4001 ["peer_id= bob "; "display_name=Bob"; "junk"].

(** A discovery whose event channel is full. *)
Definition full_discovery : MDNSDiscovery :=
  mkDiscovery sample_local DefaultMDNSConfig true false false (replicate 32 (EventPeerRemoved sample_peer)) true ∅.
Definition drained (d : MDNSDiscovery) : MDNSDiscovery :=
  mkDiscovery (d_local d) (d_config d) (d_started d) (d_closed d) (d_shutdown d) [] (d_resolver d) (d_entries d).

End Discovery.

Import Discovery.

(** ** Peers *)

Lemma proper_facts p : proper p →
  Key p = pi_PeerID p ∧ Connection.trim (pi_PeerID p) = pi_PeerID p ∧ pi_PeerID p ≠ EmptyString.
Proof.
  intros [Hv Ht]. assert (Hne : TrimSpace (pi_PeerID p) ≠ EmptyString).
  { unfold IsValid, blank in Hv. by case_bool_decide. }
  rewrite Ht in Hne. unfold Key. rewrite Ht, decide_True by done.
  split; [done|]. split; [by apply trim_TrimSpace|done].
Qed.

Lemma Endpoint_nonempty p : Connection.trim (Endpoint p) ≠ EmptyString.
Proof.
  intros H%trim_empty. assert (Hc : has_byte colon (Endpoint p) = true).
  { unfold Endpoint, JoinHostPort. destruct (has_byte colon (TrimSpace _)) eqn:E; rewrite !has_byte_app.
    - change (has_byte colon "]:") with true. by rewrite !orb_true_r.
    - change (has_byte colon ":") with true. by rewrite !orb_true_r. }
  by pose proof (has_byte_blank _ _ Hc H).
Qed.

(** ** The connector against the interface *)

Section Track.
Context {M : Type} `{!ConnectionManager M}.

Lemma handle_added p m : proper p → mgr_tracked (handle m (EventPeerAdded p)) = {[pi_PeerID p]} ∪ mgr_tracked m.
Proof.
  intros Hp. destruct (proper_facts p Hp) as (_ & Ht & Hne). destruct Hp as [Hv _].
  cbn [handle]. rewrite Hv, mgr_Connect_tracked, Ht; [done|by rewrite Ht|apply Endpoint_nonempty].
Qed.

Lemma handle_removed p m : proper p → mgr_tracked (handle m (EventPeerRemoved p)) = mgr_tracked m ∖ {[pi_PeerID p]}.
Proof.
  intros Hp. destruct (proper_facts p Hp) as (_ & Ht & Hne). destruct Hp as [Hv _].
  cbn [handle]. rewrite Hv, mgr_Disconnect_tracked, Ht; [done|by rewrite Ht].
Qed.

(** What a manager tracks after events depends on what it tracked before. *)
Lemma handle_congr m1 m2 ev : mgr_tracked m1 = mgr_tracked m2 → mgr_tracked (handle m1 ev) = mgr_tracked (handle m2 ev).
Proof.
  intros Ht. assert (Hid : ∀ p, IsValid p = true → Connection.trim (pi_PeerID p) ≠ EmptyString).
  { intros p Hv H%trim_empty. unfold IsValid, blank in Hv. case_bool_decide as Hb; [done|]. by apply Hb, blank_TrimSpace. }
  destruct ev as [p|p]; cbn [handle]; destruct (IsValid p) eqn:Hv; try done.
  - rewrite !mgr_Connect_tracked by (apply Endpoint_nonempty || by apply Hid). by rewrite Ht.
  - rewrite !mgr_Disconnect_tracked by (by apply Hid). by rewrite Ht.
Qed.

Lemma Run_congr m1 m2 evs : mgr_tracked m1 = mgr_tracked m2 → mgr_tracked (Run evs m1) = mgr_tracked (Run evs m2).
Proof. unfold Run. revert m1 m2. induction evs as [|ev evs IH]; intros m1 m2 Ht; [done|]. by apply IH, handle_congr. Qed.

(** While events are waiting: the manager will track the entries once it has
    handled them. *)
Record pending (m : M) (n : nat) (d : MDNSDiscovery) : Prop := {
  pd_entries : ∀ k p, d_entries d !! k = Some p → proper p ∧ k = pi_PeerID p;
  pd_tracked : mgr_tracked (Run (d_events d) m) = dom (d_entries d);
  pd_room : (length (d_events d) ≤ n)%nat
}.

Lemma pending_add m n d kv : pending m n d → proper kv.2 → kv.1 = pi_PeerID kv.2 → (n < eventBuf)%nat →
  pending m (S n) (add_entry d kv) ∧ ids (d_entries (add_entry d kv)) = {[kv.1]} ∪ ids (d_entries d).
Proof.
  intros [He Ht Hn] Hp Hk Hlt. unfold add_entry. destruct (d_entries d !! kv.1) as [p|] eqn:E.
  - split; [split; [done|done|lia]|]. apply elem_of_dom_2 in E. set_solver.
  - unfold emit. cbn [with_entries d_events]. rewrite (proj2 (Nat.ltb_lt _ _)) by lia.
    cbn [with_entries d_entries d_events]. split; [|by rewrite dom_insert_L]. split; cbn [with_entries d_entries d_events].
    + intros k p [[<- <-]|[_ H]]%lookup_insert_Some; [done|by apply He].
    + unfold Run in *. rewrite foldl_app. cbn [foldl]. rewrite handle_added by done.
      by rewrite Ht, dom_insert_L, Hk.
    + rewrite length_app. cbn. lia.
Qed.

Lemma pending_remove m n d seenSet kv : pending m n d → proper kv.2 → kv.1 = pi_PeerID kv.2 →
  seenSet !! kv.1 = None → (n < eventBuf)%nat →
  pending m (S n) (remove_entry seenSet d kv) ∧
  ids (d_entries (remove_entry seenSet d kv)) = ids (d_entries d) ∖ {[kv.1]}.
Proof.
  intros [He Ht Hn] Hp Hk Hs Hlt. unfold remove_entry. rewrite Hs. unfold emit.
  cbn [with_entries d_events]. rewrite (proj2 (Nat.ltb_lt _ _)) by lia.
  cbn [with_entries d_entries d_events]. split; [|by rewrite dom_delete_L]. split; cbn [with_entries d_entries d_events].
  - intros k p [_ H]%lookup_delete_Some. by apply He.
  - unfold Run in *. rewrite foldl_app. cbn [foldl]. rewrite handle_removed by done.
    by rewrite Ht, dom_delete_L, Hk.
  - rewrite length_app. cbn. lia.
Qed.

Definition keyed (kv : string * PeerInfo) : Prop := proper kv.2 ∧ kv.1 = pi_PeerID kv.2.

Lemma pending_adds m n d l : pending m n d → Forall keyed l → (n + length l ≤ eventBuf)%nat →
  pending m (n + length l) (foldl add_entry d l) ∧
  ids (d_entries (foldl add_entry d l)) = list_to_set l.*1 ∪ ids (d_entries d).
Proof.
  revert n d. induction l as [|kv l IH]; intros n d Hd Hl Hn; cbn [foldl length fmap list_fmap list_to_set] in *.
  - rewrite Nat.add_0_r. split; [done|set_solver].
  - apply Forall_cons in Hl as [[Hp Hk] Hl].
    destruct (pending_add m n d kv Hd Hp Hk) as [H1 H2]; [lia|].
    destruct (IH (S n) _ H1 Hl) as [H3 H4]; [lia|]. split; [by rewrite Nat.add_succ_r|].
    rewrite H4, H2. set_solver.
Qed.

Lemma pending_removes m n d seenSet l : pending m n d → Forall keyed l →
  (n + length (filter (λ kv, seenSet !! kv.1 = None) l) ≤ eventBuf)%nat →
  ∃ n', pending m n' (foldl (remove_entry seenSet) d l) ∧
  ∀ k, k ∈ ids (d_entries (foldl (remove_entry seenSet) d l)) ↔
    k ∈ ids (d_entries d) ∧ (k ∈ l.*1 → k ∈ ids seenSet).
Proof.
  revert n d. induction l as [|kv l IH]; intros n d Hd Hl Hn; cbn [foldl fmap list_fmap].
  - exists n. split; [done|]. set_solver.
  - apply Forall_cons in Hl as [[Hp Hk] Hl]. rewrite filter_cons in Hn. case_decide as Hs.
    + cbn [length] in Hn. destruct (pending_remove m n d seenSet kv Hd Hp Hk Hs) as [H1 H2]; [lia|].
      destruct (IH (S n) _ H1 Hl) as (n' & H3 & H4); [lia|]. exists n'. split; [done|].
      intros k. rewrite H4, H2. apply not_elem_of_dom in Hs. set_solver.
    + unfold remove_entry at 2 4. destruct (seenSet !! kv.1) as [q|] eqn:E; [|done].
      destruct (IH n d Hd Hl Hn) as (n' & H3 & H4). exists n'. split; [done|].
      intros k. rewrite H4. apply elem_of_dom_2 in E. set_solver.
Qed.

Lemma seen_set_spec local seen (m : gmap string PeerInfo) : Forall (λ p, trimmed (pi_PeerID p)) seen →
  (∀ k p, m !! k = Some p → proper p ∧ k = pi_PeerID p) →
  let r := foldl (add_seen local) m seen in
  (∀ k p, r !! k = Some p → proper p ∧ k = pi_PeerID p) ∧ ids r = visible local seen ∪ ids m.
Proof.
  intros Hs. revert m. induction Hs as [|p seen Hp Hs IH]; intros m Hm; cbn [foldl]; unfold visible in *.
  - split; [done|]. set_solver.
  - rewrite filter_cons. unfold add_seen at 2 4. destruct (IsValid p) eqn:Ev; cbn [negb].
    2:{ rewrite decide_False by naive_solver. by apply IH. }
    case_decide as El.
    { rewrite decide_False by naive_solver. by apply IH. }
    rewrite decide_True by done.
    assert (Hpp : proper p) by done. destruct (proper_facts p Hpp) as (HK & _). rewrite HK.
    destruct (IH (<[pi_PeerID p := p]> m)) as [H1 H2].
    { intros k q [[<- <-]|[_ H]]%lookup_insert_Some; [done|by apply Hm]. }
    split; [done|]. rewrite H2, dom_insert_L. cbn [fmap list_fmap list_to_set]. set_solver.
Qed.

Lemma map_keyed (m : gmap string PeerInfo) l : l ≡ₚ map_to_list m →
  (∀ k p, m !! k = Some p → proper p ∧ k = pi_PeerID p) → Forall keyed l.
Proof.
  intros Hl Hm. apply Forall_forall. intros [k p] Hin. rewrite Hl in Hin.
  apply elem_of_map_to_list in Hin. by apply Hm.
Qed.

Lemma map_keys (m : gmap string PeerInfo) l : l ≡ₚ map_to_list m →
  list_to_set (C:=gset string) l.*1 = ids m.
Proof.
  intros Hl. apply set_eq. intros k. rewrite elem_of_list_to_set, list_elem_of_fmap, elem_of_dom. split.
  - intros ([k' p] & -> & Hin). rewrite Hl in Hin. apply elem_of_map_to_list in Hin. by exists p.
  - intros [p Hp]. exists (k, p). split; [done|]. rewrite Hl. by apply elem_of_map_to_list.
Qed.

Lemma NoDup_filter_fst {A B} (P : A * B → Prop) `{∀ x, Decision (P x)} (l : list (A * B)) :
  NoDup l.*1 → NoDup (filter P l).*1.
Proof.
  induction l as [|x l IH]; [done|]. cbn [fmap list_fmap]. intros [Hx Hl]%NoDup_cons.
  rewrite filter_cons. case_decide; [|by apply IH]. cbn [fmap list_fmap]. apply NoDup_cons.
  split; [|by apply IH]. intros (y & Hy & [_ Hin]%list_elem_of_filter)%list_elem_of_fmap.
  apply Hx, list_elem_of_fmap. by exists y.
Qed.

(** The removals of a scan are of old entries. *)
Lemma removals_bound (seenSet old m : gmap string PeerInfo) l : l ≡ₚ map_to_list m →
  ids m = ids seenSet ∪ ids old →
  (length (filter (λ kv, seenSet !! kv.1 = None) l) ≤ size old)%nat.
Proof.
  intros Hl Hd. set (f := filter _ _).
  assert (Hnd : NoDup f.*1).
  { apply NoDup_filter_fst. rewrite Hl. apply NoDup_fst_map_to_list. }
  rewrite <- (length_fmap fst), <- (size_list_to_set (C:=gset string)) by done.
  rewrite <- (size_dom (D:=gset string) old). apply subseteq_size. intros k. rewrite elem_of_list_to_set, list_elem_of_fmap.
  intros ([k' p] & -> & [Hn Hin]%list_elem_of_filter). cbn in *. rewrite Hl in Hin.
  apply elem_of_map_to_list, elem_of_dom_2 in Hin. rewrite Hd in Hin. apply not_elem_of_dom in Hn. set_solver.
Qed.

(** One scan, while events are waiting. *)
Lemma pending_scan order seen m n d : map_order order → pending m n d →
  Forall (λ p, trimmed (pi_PeerID p)) seen →
  (n + size (visible (d_local d) seen) + size (d_entries d) ≤ eventBuf)%nat →
  ∃ n', pending m n' (applyDiff order seen d) ∧ ids (d_entries (applyDiff order seen d)) = visible (d_local d) seen.
Proof.
  intros Ho Hd Hs Hroom.
  assert (He0 : ∀ k p, (∅ : gmap string PeerInfo) !! k = Some p → proper p ∧ k = pi_PeerID p)
    by (intros k p; by rewrite lookup_empty).
  destruct (seen_set_spec (d_local d) seen ∅ Hs He0) as [Hss Hsd]. fold (seen_set (d_local d) seen) in Hss, Hsd.
  set (ss := seen_set (d_local d) seen) in *. rewrite dom_empty_L, union_empty_r_L in Hsd.
  assert (Hlen : length (order ss) = size (visible (d_local d) seen)).
  { rewrite (Ho ss), <- Hsd, size_dom. apply length_map_to_list. }
  destruct (pending_adds m n d (order ss) Hd) as [H1 H2]; [by apply (map_keyed ss), Hss|lia|].
  rewrite (map_keys ss) in H2 by done. set (d1 := foldl add_entry d (order ss)) in *.
  assert (Hr : (length (filter (λ kv, ss !! kv.1 = None) (order (d_entries d1))) ≤ size (d_entries d))%nat)
    by (by apply (removals_bound _ _ (d_entries d1))).
  destruct (pending_removes m (n + length (order ss)) d1 ss (order (d_entries d1)) H1) as (n' & H3 & H4).
  { apply (map_keyed (d_entries d1)); [done|]. apply H1. } { lia. }
  exists n'. unfold applyDiff. fold ss. fold d1. split; [done|].
  apply set_eq. intros k. rewrite H4. rewrite <- (elem_of_list_to_set (C:=gset string)), (map_keys (d_entries d1)) by done.
  rewrite H2, <- Hsd. set_solver.
Qed.

(** One scan followed by the connector. *)
Lemma settled_round order seen (s : MDNSDiscovery * M) : map_order order → settled s →
  Forall (λ p, trimmed (pi_PeerID p)) seen →
  (size (visible (d_local s.1) seen) + size (d_entries s.1) ≤ eventBuf)%nat →
  settled (round order seen s) ∧
  ids (d_entries (round order seen s).1) = visible (d_local s.1) seen.
Proof.
  intros Ho [Hev He Ht] Hs Hroom. destruct s as [d m]. cbn [fst snd] in *.
  destruct (pending_scan order seen m 0 d) as (n' & [He' Ht' _] & Hids);
    [done|by split; rewrite ?Hev|done|done|].
  unfold round. cbn [fst snd d_entries]. split; [|exact Hids]. by split.
Qed.

End Track.

(** ** The connection manager implements the interface *)

(** The manager with the time its clock shows. *)
Notation clocked := (Time * Connection.Manager)%type.

(** Its clock goes on, and the goroutines of its attempts end. *)
Inductive conn_work : Type := ClockShows (now : Time) | AttemptEnds (r : nat) (dialed : bool).

Definition conn_goes_on (w : conn_work) (m : clocked) : clocked :=
  match w with
  | ClockShows now => (now, m.2)
  | AttemptEnds r dialed => (m.1, Connection.finish m.1 r dialed m.2)
  end.

Definition conn_tracked (m : clocked) : gset string := dom (Connection.cm_peers m.2).

Lemma Connect_tracked p e (m : clocked) : Connection.trim p ≠ EmptyString → Connection.trim e ≠ EmptyString →
  conn_tracked (m.1, (Connection.Connect m.1 p e m.2).1) = {[Connection.trim p]} ∪ conn_tracked m.
Proof.
  intros Hp He. destruct m as [now m]. unfold Connection.Connect, conn_tracked. cbn [fst snd]. rewrite !decide_False by done.
  destruct (Connection.cm_peers m !! Connection.trim p) as [[s r]|] eqn:E.
  - apply elem_of_dom_2 in E as Hd.
    destruct (Connection.ps_State s); cbn [fst Connection.cm_peers]; rewrite ?dom_insert_L; set_solver.
  - cbn [fst Connection.cm_peers]. by rewrite dom_insert_L.
Qed.

Lemma Disconnect_tracked p (m : clocked) : Connection.trim p ≠ EmptyString →
  conn_tracked (m.1, (Connection.Disconnect p m.2).1) = conn_tracked m ∖ {[Connection.trim p]}.
Proof.
  intros Hp. destruct m as [now m]. unfold Connection.Disconnect, conn_tracked. cbn [fst snd]. rewrite decide_False by done.
  destruct (Connection.cm_peers m !! Connection.trim p) as [[s r]|] eqn:E.
  - cbn [fst Connection.cm_peers]. by rewrite dom_delete_L.
  - cbn [fst]. apply not_elem_of_dom in E. set_solver.
Qed.

Lemma goes_on_tracked w m : conn_tracked (conn_goes_on w m) = conn_tracked m.
Proof.
  destruct w as [now|r d]; [done|]. destruct m as [now m]. unfold conn_tracked. cbn [conn_goes_on fst snd].
  unfold Connection.finish, Connection.markState.
  destruct (Connection.cm_runs m !! r) as [run|]; [|done]. cbn [Connection.cm_peers].
  destruct (Connection.cm_peers m !! Connection.run_peer run) as [[s r']|] eqn:E; [|done]. cbn [Connection.cm_peers].
  apply elem_of_dom_2 in E. rewrite dom_insert_L. set_solver.
Qed.

#[global] Instance connection_manager : ConnectionManager clocked := {|
  mgr_Connect p e m := (m.1, (Connection.Connect m.1 p e m.2).1);
  mgr_Disconnect p m := (m.1, (Connection.Disconnect p m.2).1);
  mgr_goes_on := conn_goes_on;
  mgr_tracked := conn_tracked;
  mgr_goes_on_tracked := goes_on_tracked;
  mgr_Connect_tracked := Connect_tracked;
  mgr_Disconnect_tracked := Disconnect_tracked
|}.

(** A new manager. *)
Definition new_manager : clocked := (0, Connection.NewManager).

(** ** Rounds keep the local peer *)

Lemma foldl_add_local d l : d_local (foldl add_entry d l) = d_local d.
Proof.
  revert d. induction l as [|kv l IH]; intros d; [done|]. cbn [foldl]. rewrite IH. unfold add_entry, emit.
  destruct (d_entries d !! kv.1); [done|]. by destruct (_ <? _)%nat.
Qed.

Lemma foldl_remove_local ss d l : d_local (foldl (remove_entry ss) d l) = d_local d.
Proof.
  revert d. induction l as [|kv l IH]; intros d; [done|]. cbn [foldl]. rewrite IH. unfold remove_entry, emit.
  destruct (ss !! kv.1); [done|]. by destruct (_ <? _)%nat.
Qed.

Lemma round_local {M} `{!ConnectionManager M} order seen (s : MDNSDiscovery * M) :
  d_local (round order seen s).1 = d_local s.1.
Proof. unfold round, applyDiff. cbn [fst d_local]. by rewrite foldl_remove_local, foldl_add_local. Qed.

(** ** What scans answer *)

Lemma text_fields_trimmed l acc : trimmed acc.1 → trimmed (text_fields l acc).1.
Proof.
  revert acc. induction l as [|f l IH]; intros acc Ha; cbn [text_fields]; [done|].
  destruct (SplitN2 "=" f) as [k [v|]]; [|by apply IH].
  case_decide; [apply IH, trimmed_TrimSpace|]. case_decide; by apply IH.
Qed.

Lemma entryToPeerInfo_facts e p : entryToPeerInfo e = Some p →
  trimmed (pi_PeerID p) ∧ pi_PeerID p ≠ EmptyString ∧ pi_Port p ≠ 0.
Proof.
  unfold entryToPeerInfo. destruct (Z.eqb_spec (se_Port e) 0) as [|Hp]; [done|].
  pose proof (text_fields_trimmed (se_Text e) (EmptyString, EmptyString) eq_refl) as Ht.
  destruct (text_fields (se_Text e) _) as [id name]. case_decide; [done|]. by intros [= <-].
Qed.

Lemma answered_trimmed order answers : map_order order →
  Forall (λ p, trimmed (pi_PeerID p)) (answered order answers).
Proof.
  intros Ho.
  unfold answered, seenValues.
  assert (H : ∀ m, map_Forall (λ _ p, trimmed (pi_PeerID p)) m →
    map_Forall (λ _ p, trimmed (pi_PeerID p)) (collect answers m)).
  { induction answers as [|e l IH]; intros m Hm; [done|]. cbn [collect].
    destruct (e ≫= entryToPeerInfo) as [p|] eqn:E; apply IH; [|done].
    apply map_Forall_insert_2; [|done]. destruct e as [e|]; [|done].
    exact (proj1 (entryToPeerInfo_facts _ _ E)). }
  apply Forall_forall. intros p ([k q] & -> & Hin)%list_elem_of_fmap.
  rewrite (Ho (collect answers ∅)) in Hin. apply elem_of_map_to_list in Hin. by apply (H ∅ (map_Forall_empty _) k).
Qed.

(** ** Endpoints *)

Lemma digits_no_byte c s : all_bytes is_digit s = true → is_digit c = false → has_byte c s = false.
Proof.
  induction s as [|a s IH]; [done|]. cbn. rewrite andb_true_iff. intros [Ha Hs] Hc.
  rewrite IH by done. rewrite bool_decide_eq_false_2; [done|]. intros ->. by rewrite Ha in Hc.
Qed.

Lemma IsValid_facts p : IsValid p = true →
  TrimSpace (pi_PeerID p) ≠ EmptyString ∧ TrimSpace (pi_Host p) ≠ EmptyString ∧ 0 < pi_Port p ≤ 65535.
Proof.
  unfold IsValid, blank. case_bool_decide; [done|]. case_bool_decide; [done|].
  destruct (_ || _) eqn:E; [done|]. rewrite orb_false_iff, Z.leb_gt, Z.ltb_ge in E. done.
Qed.

Lemma trim_nonempty s : trimmed s → s ≠ EmptyString → Connection.trim s ≠ EmptyString.
Proof. intros Ht Hs. by rewrite trim_TrimSpace. Qed.

(** ** Scans that find nothing new *)

Lemma order_dom order (m : gmap string PeerInfo) kv : map_order order → kv ∈ order m → kv.1 ∈ ids m.
Proof. intros Ho Hin. rewrite (Ho m) in Hin. destruct kv. by apply elem_of_map_to_list, elem_of_dom_2 in Hin. Qed.

Lemma foldl_add_known d l : (∀ kv, kv ∈ l → kv.1 ∈ ids (d_entries d)) → foldl add_entry d l = d.
Proof.
  induction l as [|kv l IH]; intros H; [done|]. cbn [foldl]. unfold add_entry at 2.
  destruct (proj1 (elem_of_dom _ _) (H kv (list_elem_of_here _ _))) as [p ->].
  apply IH. intros. by apply H, list_elem_of_further.
Qed.

Lemma foldl_remove_known ss d l : (∀ kv, kv ∈ l → kv.1 ∈ ids ss) → foldl (remove_entry ss) d l = d.
Proof.
  induction l as [|kv l IH]; intros H; [done|]. cbn [foldl]. unfold remove_entry at 2.
  destruct (proj1 (elem_of_dom _ _) (H kv (list_elem_of_here _ _))) as [p ->].
  apply IH. intros. by apply H, list_elem_of_further.
Qed.

(** ** Properties *)

(** The manager tracks what is on the network: after any sequence of scans, each
    seeing at most sixteen valid peers, and the connector having handled their
    events, any manager that keeps the interface tracks exactly the valid peers
    of the last scan other than the local one. *)
Theorem discovery_tracks {M} `{!ConnectionManager M} order scans (s : MDNSDiscovery * M) :
  map_order order → settled s → (size (d_entries s.1) ≤ 16)%nat →
  Forall (λ a, (size (visible (d_local s.1) (answered order a)) ≤ 16)%nat) scans →
  settled (foldl (scan_round order) s scans) ∧
  ∀ a, last scans = Some a →
    mgr_tracked (foldl (scan_round order) s scans).2 = visible (d_local s.1) (answered order a).
Proof.
  intros Ho. revert s. induction scans as [|a l IH]; intros s Hs Hsz Hl; cbn [foldl]; [done|].
  apply Forall_cons in Hl as [Ha Hl].
  destruct (settled_round order (answered order a) s Ho Hs (answered_trimmed order a Ho)) as [H1 H2];
    [unfold eventBuf; lia|].
  assert (Hloc : d_local (round order (answered order a) s).1 = d_local s.1) by apply round_local.
  assert (Hsz1 : (size (d_entries (round order (answered order a) s).1) ≤ 16)%nat).
  { rewrite <- (size_dom (D:=gset string)), H2. lia. }
  destruct (IH (round order (answered order a) s) H1 Hsz1) as [H3 H4]; [by rewrite Hloc|].
  split; [exact H3|]. intros a'. destruct l as [|b l].
  - intros [= <-]. cbn [foldl]. unfold scan_round. rewrite (st_tracked _ H1). exact H2.
  - intros Hla. rewrite <- Hloc. apply H4. exact Hla.
Qed.

Lemma discovery_tracks_witness :
  mgr_tracked (foldl (scan_round map_to_list)
    (NewMDNSDiscovery sample_local DefaultMDNSConfig, new_manager) [[]; [Some sample_answer; None]]).2 = {["bob"]}.
Proof.
  destruct (discovery_tracks map_to_list [[]; [Some sample_answer; None]]
    (NewMDNSDiscovery sample_local DefaultMDNSConfig, new_manager)) as [_ H].
  - intros m. reflexivity.
  - split; [done| |reflexivity]. intros k p. cbn. by rewrite lookup_empty.
  - vm_compute. lia.
  - repeat constructor; vm_compute; lia.
  - rewrite (H [Some sample_answer; None]) by done. vm_compute. reflexivity.
Defined.

(** The endpoint of a valid peer, IPv6 hosts included, is one the connection
    manager accepts, and splits back into the host and the port. *)
Theorem Endpoint_valid p : IsValid p = true →
  has_byte open_bracket (pi_Host p) = false → has_byte close_bracket (pi_Host p) = false →
  SplitHostPort (Endpoint p) = Ok (TrimSpace (pi_Host p), Itoa (pi_Port p)) ∧
  Connection.ValidateEndpoint (Endpoint p) = Ok ().
Proof.
  intros (Hid & Hh & Hport)%IsValid_facts Ho Hc.
  assert (Hd : all_bytes is_digit (Itoa (pi_Port p)) = true) by (apply Itoa_digits; lia).
  assert (Hsub : ∀ c, has_byte c (pi_Host p) = false → has_byte c (TrimSpace (pi_Host p)) = false)
    by (intros c; apply has_byte_TrimSpace).
  assert (Hs : SplitHostPort (Endpoint p) = Ok (TrimSpace (pi_Host p), Itoa (pi_Port p))).
  { unfold Endpoint. apply Split_Join; auto using digits_no_byte. }
  split; [done|]. unfold Connection.ValidateEndpoint. rewrite decide_False by apply Endpoint_nonempty.
  rewrite Hs. rewrite decide_False by (apply trim_nonempty; [apply trimmed_TrimSpace|done]).
  rewrite decide_False; [done|]. apply trim_nonempty; [|apply Itoa_nonempty].
  apply graphic_trimmed, Itoa_graphic.
Qed.

Lemma Endpoint_valid_witness :
  Connection.ValidateEndpoint (Endpoint (mkPeerInfo "bob" "Bob" " fe80::1 " 4001)) = Ok ().
Proof. apply (Endpoint_valid (mkPeerInfo "bob" "Bob" " fe80::1 " 4001)); vm_compute; reflexivity. Defined.

(** A full event channel loses a peer for good: the scan records the entry but
    its event is dropped, and later scans, the channel drained, do not announce
    it again. *)
Theorem full_channel_loses_peer :
  let d := applyDiff map_to_list [sample_peer] full_discovery in
  d_entries d = {["bob" := sample_peer]} ∧ d_events d = d_events full_discovery ∧
  d_events (applyDiff map_to_list [sample_peer] (drained d)) = [].
Proof. cbn zeta. split_and!; vm_compute; reflexivity. Qed.

(** A scan that finds the same peer IDs changes nothing and announces nothing,
    whatever hosts and ports it found: a peer that comes back on another port is
    still connected to at the old one. *)
Theorem endpoint_change_missed order seen d : map_order order →
  ids (seen_set (d_local d) seen) = ids (d_entries d) → applyDiff order seen d = d.
Proof.
  intros Ho Hd. unfold applyDiff. rewrite foldl_add_known.
  - apply foldl_remove_known. intros kv Hin. rewrite Hd. by apply (order_dom order).
  - intros kv Hin. rewrite <- Hd. by apply (order_dom order).
Qed.

Lemma endpoint_change_missed_witness :
  d_entries (applyDiff map_to_list [mkPeerInfo "bob" "Bob" "10.0.0.1" 5001]
    (mkDiscovery sample_local DefaultMDNSConfig true false false [] true {["bob" := sample_peer]})) = {["bob" := sample_peer]}.
Proof. rewrite endpoint_change_missed; [reflexivity|intros m; reflexivity|vm_compute; reflexivity]. Defined.
