(* ===== verification/Finder.v ===== *)
(** * Discovery while it runs

    [internal/network/discovery]: the goroutines around one discovery.  Calls of
    [Start], whose parts are steps of their own because it releases the lock
    between its checks and what they guard, the timer loops it launches, the
    connector that takes events from the channel, [Close] and the end of the
    context interleave in any order.  The connection manager is any one behind the
    interface of [Discovery]. *)

From S2P Require Import Prelude GoStrings GoTime GoNet Connection Discovery.

Module Finder.

(** ** The state and the steps ([mdns.go], [connector.go]) *)

Section Run.
Context {M : Type} `{!Discovery.ConnectionManager M}.
Context (order : gmap string Discovery.PeerInfo → list (string * Discovery.PeerInfo)).

(** The discovery, the manager of the connector, the calls of [Start] that make a
    resolver and those in their first scan, the loops, whether the context has
    ended and whether the connector runs. *)
Record Finder : Type := mkFinder {
  fi_disc : Discovery.MDNSDiscovery; fi_mgr : M; fi_making : nat; fi_scanning : nat; fi_loops : nat;
  fi_done : bool; fi_connector : bool
}.

Definition set_disc (d : Discovery.MDNSDiscovery) (s : Finder) : Finder :=
  mkFinder d (fi_mgr s) (fi_making s) (fi_scanning s) (fi_loops s) (fi_done s) (fi_connector s).

Definition set_threads (making scanning loops : nat) (s : Finder) : Finder :=
  mkFinder (fi_disc s) (fi_mgr s) making scanning loops (fi_done s) (fi_connector s).

(** What browsing answered; [None] when it failed. *)
Notation answers := (option (list (option Discovery.ServiceEntry))).

Inductive act : Type :=
  | StartCalled                   (* [Start] up to the call of the factory *)
  | ResolverMade (ok : bool)      (* the factory returns *)
  | FirstScan (browse : answers)  (* the scan of [Start] ends *)
  | Tick (browse : answers)       (* the timer of a loop fires and its scan ends *)
  | LoopEnds                      (* a loop sees the context or [shutdown] *)
  | Takes                         (* the connector receives an event *)
  | Works (w : Discovery.mgr_work) (* the manager goes on by itself *)
  | ConnectorEnds                 (* [Run] sees the end of the context *)
  | Cancelled                     (* the context ends *)
  | CloseCalled.

(** One turn of the [select] of [Run] that receives an event. *)
Definition take (s : Finder) : option Finder :=
  let d := fi_disc s in
  match Discovery.d_events d with
  | [] => None
  | ev :: rest =>
      Some (mkFinder (Discovery.mkDiscovery (Discovery.d_local d) (Discovery.d_config d) (Discovery.d_started d)
                        (Discovery.d_closed d) (Discovery.d_shutdown d) rest (Discovery.d_resolver d) (Discovery.d_entries d))
              (Discovery.handle (fi_mgr s) ev) (fi_making s) (fi_scanning s) (fi_loops s) (fi_done s) (fi_connector s))
  end.

(** [loop] with its two ends and its tick, whose error is dropped. *)
Definition tick (browse : answers) (s : Finder) : option Finder :=
  match fi_loops s with
  | O => None
  | S _ => Some (set_disc (Discovery.scan order browse (fi_disc s)).1 s)
  end.

Definition loop_ends (s : Finder) : option Finder :=
  match fi_loops s with
  | O => None
  | S n => if fi_done s || Discovery.d_shutdown (fi_disc s)
           then Some (set_threads (fi_making s) (fi_scanning s) n s) else None
  end.

(** [Start], in three steps: the second gives up the resolver that could not be
    made, the third launches the loop when the scan succeeded. *)
Definition start_called (s : Finder) : Finder :=
  match Discovery.start_check (fi_disc s) with
  | Err _ => s
  | Ok _ => set_threads (S (fi_making s)) (fi_scanning s) (fi_loops s) s
  end.

Definition resolver_made (ok : bool) (s : Finder) : option Finder :=
  match fi_making s with
  | O => None
  | S n => if ok then Some (set_disc (Discovery.start_set (fi_disc s)) (set_threads n (S (fi_scanning s)) (fi_loops s) s))
           else Some (set_threads n (fi_scanning s) (fi_loops s) s)
  end.

Definition first_scan_ends (browse : answers) (s : Finder) : option Finder :=
  match fi_scanning s with
  | O => None
  | S n =>
      let '(d, r) := Discovery.first_scan order browse (fi_disc s) in
      Some (set_disc d (set_threads (fi_making s) n (if r then S (fi_loops s) else fi_loops s) s))
  end.

Definition step (a : act) (s : Finder) : option Finder :=
  match a with
  | StartCalled => Some (start_called s)
  | ResolverMade ok => resolver_made ok s
  | FirstScan browse => first_scan_ends browse s
  | Tick browse => tick browse s
  | LoopEnds => loop_ends s
  | Takes => if fi_connector s then take s else None
  | Works w =>
      Some (mkFinder (fi_disc s) (Discovery.mgr_goes_on w (fi_mgr s)) (fi_making s) (fi_scanning s) (fi_loops s) (fi_done s) (fi_connector s))
  | ConnectorEnds =>
      if fi_connector s && fi_done s
      then Some (mkFinder (fi_disc s) (fi_mgr s) (fi_making s) (fi_scanning s) (fi_loops s) true false) else None
  | Cancelled =>
      Some (mkFinder (fi_disc s) (fi_mgr s) (fi_making s) (fi_scanning s) (fi_loops s) true (fi_connector s))
  | CloseCalled => Some (set_disc (Discovery.Close (fi_disc s)) s)
  end.

(** ** Specification *)

(** A new discovery, and a connector that runs. *)
Definition initial (local : Discovery.PeerInfo) (config : Discovery.MDNSConfig) (mgr : M) : Finder :=
  mkFinder (Discovery.NewMDNSDiscovery local config) mgr 0 0 0 false true.

Inductive runs (s0 : Finder) : list act → Finder → Prop :=
  | runs_none : runs s0 [] s0
  | runs_act acts s a s' : runs s0 acts s → step a s = Some s' → runs s0 (acts ++ [a]) s'.

(** What an action was answered, and the peers it saw on the network. *)
Definition answers_of (a : act) : answers := match a with FirstScan b | Tick b => b | _ => None end.

Definition sight (local : Discovery.PeerInfo) (a : act) : option (gset string) :=
  match a with
  | FirstScan (Some l) | Tick (Some l) => Some (Discovery.visible local (Discovery.answered order l))
  | _ => None
  end.

(** What the last successful scan of a run saw. *)
Definition last_seen (local : Discovery.PeerInfo) (acts : list act) : gset string :=
  default ∅ (last (omap (sight local) acts)).

(** The channel can hold what a scan may add to it. *)
Definition roomy (s : Finder) (a : act) : Prop :=
  ∀ v, sight (Discovery.d_local (fi_disc s)) a = Some v →
    (length (Discovery.d_events (fi_disc s)) + size v + size (Discovery.d_entries (fi_disc s)) ≤ Discovery.eventBuf)%nat.

(** The runs in which each scan has room. *)
Inductive roomy_runs (s0 : Finder) : list act → Finder → Prop :=
  | roomy_none : roomy_runs s0 [] s0
  | roomy_act acts s a s' : roomy_runs s0 acts s → roomy s a → step a s = Some s' → roomy_runs s0 (acts ++ [a]) s'.

#[global] Instance roomy_dec s a : Decision (roomy s a).
Proof.
  unfold roomy. destruct (sight _ a) as [v|]; [|left; done].
  destruct (decide (length (Discovery.d_events (fi_disc s)) + size v + size (Discovery.d_entries (fi_disc s)) ≤
    Discovery.eventBuf)%nat) as [Hd|Hd]; [left|right].
  - by intros v' [= <-].
  - intros Hv. by apply Hd, Hv.
Defined.

Fixpoint play_within (acts : list act) (s : Finder) : option Finder :=
  match acts with
  | [] => Some s
  | a :: acts => if decide (roomy s a) then step a s ≫= play_within acts else None
  end.

Fixpoint play (acts : list act) (s : Finder) : option Finder :=
  match acts with
  | [] => Some s
  | a :: acts => step a s ≫= play acts
  end.

End Run.
End Finder.

Import Finder.

Arguments Finder.Finder : clear implicits.

Section Proofs.
Context {M : Type} `{!Discovery.ConnectionManager M}.
Context (order : gmap string Discovery.PeerInfo → list (string * Discovery.PeerInfo)).

Implicit Types s : Finder.Finder M.

(** ** What scans leave alone *)

Definition fixed (d : Discovery.MDNSDiscovery) : Discovery.PeerInfo * bool * bool * bool * bool :=
  (Discovery.d_local d, Discovery.d_resolver d, Discovery.d_closed d, Discovery.d_shutdown d, Discovery.d_started d).

Lemma fixed_foldl f l d : (∀ d (kv : string * Discovery.PeerInfo), fixed (f d kv) = fixed d) → fixed (foldl f d l) = fixed d.
Proof. intros Hf. revert d. induction l as [|kv l IH]; intros d; [done|]. cbn [foldl]. by rewrite IH. Qed.

Lemma fixed_applyDiff seen d : fixed (Discovery.applyDiff order seen d) = fixed d.
Proof.
  unfold Discovery.applyDiff. rewrite !fixed_foldl; [done|..]; intros x kv.
  - unfold Discovery.add_entry, Discovery.emit. by repeat case_match.
  - unfold Discovery.remove_entry, Discovery.emit. by repeat case_match.
Qed.

(** A scan either changes nothing or is the diff with what was answered. *)
Lemma scan_cases browse d : Discovery.d_resolver d = true →
  match browse with
  | None => Discovery.scan order browse d = (d, Err Discovery.ErrBrowse)
  | Some l => Discovery.scan order browse d = (Discovery.applyDiff order (Discovery.answered order l) d, Ok ())
  end.
Proof. intros Hr. unfold Discovery.scan. rewrite Hr. by destruct browse. Qed.

Lemma fixed_scan browse d : fixed (Discovery.scan order browse d).1 = fixed d.
Proof. unfold Discovery.scan. case_match; [done|]. destruct browse; [|done]. apply fixed_applyDiff. Qed.

Lemma first_scan_fst browse d : (Discovery.first_scan order browse d).1 = (Discovery.scan order browse d).1.
Proof. unfold Discovery.first_scan. by destruct (Discovery.scan order browse d) as [d' [[]|e]]. Qed.

(** ** A discovery and its manager *)

(** Until the channel overflows the manager is behind the scans by the events
    that wait. *)
Record following local (s : Finder.Finder M) (v : gset string) : Prop := {
  fo_local : Discovery.d_local (fi_disc s) = local;
  fo_pending : pending (fi_mgr s) (length (Discovery.d_events (fi_disc s))) (fi_disc s);
  fo_seen : dom (Discovery.d_entries (fi_disc s)) = v;
  fo_ready : (0 < fi_scanning s + fi_loops s)%nat → Discovery.d_resolver (fi_disc s) = true
}.

Lemma pending_tight m n d : pending m n d → pending m (length (Discovery.d_events d)) d.
Proof. intros [He Ht _]. by split. Qed.

Lemma following_initial local config mgr : Discovery.mgr_tracked mgr = ∅ → following local (initial local config mgr) ∅.
Proof.
  intros Ht. split; cbn; [done| |apply dom_empty_L|lia]. split; cbn; [|by rewrite dom_empty_L|lia].
  intros k p. by rewrite lookup_empty.
Qed.

(** A scan with room. *)
Lemma following_scan local browse s v : Discovery.map_order order → following local s v →
  Discovery.d_resolver (fi_disc s) = true →
  (∀ l, browse = Some l → (length (Discovery.d_events (fi_disc s)) + size (Discovery.visible local (Discovery.answered order l))
     + size (Discovery.d_entries (fi_disc s)) ≤ Discovery.eventBuf)%nat) →
  let d := (Discovery.scan order browse (fi_disc s)).1 in
  pending (fi_mgr s) (length (Discovery.d_events d)) d ∧
  dom (Discovery.d_entries d) = from_option (λ l, Discovery.visible local (Discovery.answered order l)) v browse.
Proof.
  intros Ho [Hl Hp Hv _] Hr Hroom. pose proof (scan_cases browse _ Hr) as Hs.
  destruct browse as [l|]; rewrite Hs; cbn [fst from_option]; [|done].
  destruct (pending_scan order (Discovery.answered order l) (fi_mgr s) _ (fi_disc s) Ho Hp (answered_trimmed order l Ho))
    as (n & Hn & Hd); [rewrite Hl; by apply Hroom|].
  rewrite Hl in Hd. split; [by eapply pending_tight|exact Hd].
Qed.

Lemma sight_scan local (browse : option (list (option Discovery.ServiceEntry))) :
  sight order local (FirstScan browse) = sight order local (Tick browse) ∧
  sight order local (Tick browse) = (λ l, Discovery.visible local (Discovery.answered order l)) <$> browse.
Proof. by destruct browse. Qed.

(** The connector takes an event. *)
Lemma following_take local s v s' : following local s v → take s = Some s' → following local s' v.
Proof.
  intros [Hl Hp Hv Hr]. unfold take. destruct (Discovery.d_events (fi_disc s)) as [|ev rest] eqn:Ee; [done|].
  intros [= <-]. split; cbn; [done| |done|done]. destruct Hp as [He Ht _].
  split; cbn; [done| |done]. rewrite Ee in Ht. exact Ht.
Qed.

(** A scan by [Start] or by a loop. *)
Lemma following_after local browse s v d making scanning loops : Discovery.map_order order → following local s v →
  (0 < fi_scanning s + fi_loops s)%nat → roomy order s (Tick browse) →
  d = (Discovery.scan order browse (fi_disc s)).1 →
  following local (set_disc d (set_threads making scanning loops s)) (default v (sight order local (Tick browse))).
Proof.
  intros Ho Hf Hn Hroom ->. assert (Hr := fo_ready _ _ _ Hf Hn). assert (Hl := fo_local _ _ _ Hf).
  destruct (following_scan local browse s v Ho Hf Hr) as [Hp Hv].
  { intros l ->. apply Hroom. by rewrite Hl. }
  pose proof (fixed_scan browse (fi_disc s)) as [= E1 E2 _ _ _].
  split; cbn [fi_disc fi_mgr set_disc set_threads]; [by rewrite E1|exact Hp| |by rewrite E2].
  rewrite Hv. by destruct browse.
Qed.

Lemma following_step local s v a s' : Discovery.map_order order → following local s v → roomy order s a →
  step order a s = Some s' → following local s' (default v (sight order local a)).
Proof.
  intros Ho Hf Hroom. pose proof Hf as [Hl Hp Hv Hr]. destruct a as [|ok|browse|browse| | |w| | |]; cbn [step sight default].
  - intros [= <-]. unfold start_called. by case_match.
  - unfold resolver_made. destruct (fi_making s); [done|]. destruct ok; intros [= <-]; [|done].
    split; cbn; [done| |done|done]. by destruct Hp.
  - unfold first_scan_ends. destruct (fi_scanning s) eqn:En; [done|].
    destruct (Discovery.first_scan order browse (fi_disc s)) as [d r] eqn:Ed. intros [= <-].
    change (sight order local (FirstScan browse)) with (sight order local (Tick browse)).
    apply following_after; [done|done|lia|exact Hroom|]. by rewrite <- first_scan_fst, Ed.
  - unfold tick. destruct (fi_loops s) eqn:En; [done|]. intros [= <-].
    apply (following_after local browse s v _ (fi_making s) (fi_scanning s) (fi_loops s)); [done|done|lia|exact Hroom|done].
  - unfold loop_ends. destruct (fi_loops s) eqn:En; [done|]. case_match; [|done]. intros [= <-].
    split; cbn; [done..|]. intros. apply Hr. lia.
  - destruct (fi_connector s); [|done]. by apply following_take.
  - intros [= <-]. split; cbn; [done| |done|done]. destruct Hp as [He Ht Hn]. split; [done| |done].
    rewrite <- Ht. apply Run_congr, Discovery.mgr_goes_on_tracked.
  - destruct (_ && _); [|done]. intros [= <-]. by split.
  - intros [= <-]. by split.
  - intros [= <-]. unfold Discovery.Close. destruct (Discovery.d_closed (fi_disc s)); split; try done.
    cbn. by destruct Hp.
Qed.

Lemma last_seen_snoc local acts a :
  last_seen order local (acts ++ [a]) = default (last_seen order local acts) (sight order local a).
Proof.
  unfold last_seen. rewrite omap_app. cbn [omap list_omap]. destruct (sight order local a) as [v|].
  - by rewrite last_snoc.
  - by rewrite app_nil_r.
Qed.

(** The last scan that succeeded is what was last seen. *)
Lemma last_seen_answers local acts l : last (omap answers_of acts) = Some l →
  last_seen order local acts = Discovery.visible local (Discovery.answered order l).
Proof.
  intros Hl. unfold last_seen. induction acts as [|a acts IH] using rev_ind; [done|].
  rewrite omap_app in Hl. rewrite omap_app. cbn [omap list_omap] in *.
  assert (Ha : sight order local a = (λ l, Discovery.visible local (Discovery.answered order l)) <$> answers_of a)
    by (by destruct a as [| |[]|[]| | | | | |]).
  rewrite Ha. destruct (answers_of a) as [l'|]; cbn [fmap option_fmap option_map] in *.
  - rewrite last_snoc in Hl. rewrite last_snoc. by injection Hl as ->.
  - rewrite app_nil_r in Hl. rewrite app_nil_r. by apply IH.
Qed.

Lemma following_runs local config mgr acts s : Discovery.map_order order → Discovery.mgr_tracked mgr = ∅ →
  roomy_runs order (initial local config mgr) acts s → following local s (last_seen order local acts).
Proof.
  intros Ho Ht. induction 1 as [|acts s a s' _ IH Hroom Hs]; [by apply following_initial|].
  rewrite last_seen_snoc. by apply (following_step local s).
Qed.

(** ** Closing *)

(** Closed, and no call of [Start] under way. *)
Definition stopping s : Prop :=
  Discovery.d_closed (fi_disc s) = true ∧ Discovery.d_shutdown (fi_disc s) = true ∧ fi_making s = 0%nat ∧ fi_scanning s = 0%nat.

Lemma stopping_step s a s' : stopping s → step order a s = Some s' → stopping s' ∧ (fi_loops s' ≤ fi_loops s)%nat.
Proof.
  intros Hs. pose proof Hs as (Hc & Hd & Hm & Hn). destruct a as [|ok|browse|browse| | |w| | |]; cbn [step].
  - intros [= <-]. unfold start_called, Discovery.start_check. rewrite Hc. by destruct (Discovery.d_started (fi_disc s)); split.
  - unfold resolver_made. by rewrite Hm.
  - unfold first_scan_ends. by rewrite Hn.
  - unfold tick. case_match; [done|]. intros [= <-]. pose proof (fixed_scan browse (fi_disc s)) as [= _ _ E3 E4 _].
    unfold stopping. cbn. rewrite E3, E4. by split; [|lia].
  - unfold loop_ends. destruct (fi_loops s) eqn:E; [done|]. case_match; [|done]. intros [= <-]. split; [done|]. cbn. lia.
  - destruct (fi_connector s); [|done]. unfold take. case_match; [done|]. by intros [= <-].
  - by intros [= <-].
  - destruct (_ && _); [|done]. by intros [= <-].
  - by intros [= <-].
  - intros [= <-]. unfold Discovery.Close. by rewrite Hc.
Qed.

(** The two closing flags of a discovery are one. *)
Definition one_flag s : Prop := Discovery.d_closed (fi_disc s) = Discovery.d_shutdown (fi_disc s).

Lemma one_flag_step s a s' : one_flag s → step order a s = Some s' → one_flag s'.
Proof.
  unfold one_flag. intros Hf. destruct a as [|ok|browse|browse| | |w| | |]; cbn [step].
  - intros [= <-]. unfold start_called. by case_match.
  - unfold resolver_made. destruct (fi_making s); [done|]. destruct ok; by intros [= <-].
  - unfold first_scan_ends. destruct (fi_scanning s); [done|]. pose proof (fixed_scan browse (fi_disc s)) as [= _ _ E3 E4 _].
    rewrite <- first_scan_fst in E3, E4. destruct (Discovery.first_scan order browse (fi_disc s)) as [d r].
    intros [= <-]. cbn in *. congruence.
  - unfold tick. case_match; [done|]. intros [= <-]. pose proof (fixed_scan browse (fi_disc s)) as [= _ _ E3 E4 _].
    cbn. congruence.
  - unfold loop_ends. case_match; [done|]. case_match; [|done]. by intros [= <-].
  - destruct (fi_connector s); [|done]. unfold take. case_match; [done|]. by intros [= <-].
  - by intros [= <-].
  - destruct (_ && _); [|done]. by intros [= <-].
  - by intros [= <-].
  - intros [= <-]. unfold Discovery.Close. destruct (Discovery.d_closed (fi_disc s)) eqn:E; [by cbn; rewrite E|done].
Qed.

Lemma runs_stopping s acts s' : stopping s → runs order s acts s' → stopping s' ∧ (fi_loops s' ≤ fi_loops s)%nat.
Proof.
  intros Hs. induction 1 as [|acts s1 a s2 _ [IH Hl] Hstep]; [done|].
  destruct (stopping_step s1 a s2 IH Hstep). split; [done|]. by etrans.
Qed.

Lemma play_runs acts s s' : play order acts s = Some s' → ∀ s0 l, runs order s0 l s → runs order s0 (l ++ acts) s'.
Proof.
  revert s. induction acts as [|a acts IH]; intros s; cbn [play].
  - intros [= <-] s0 l Hl. by rewrite app_nil_r.
  - intros (s1 & Hs & Hp)%bind_Some s0 l Hl. rewrite cons_middle, app_assoc. apply (IH s1 Hp). by eapply runs_act.
Qed.

(** The connector, left alone, takes what waits. *)
Lemma drain s : fi_connector s = true → ∃ s', 
  play order (replicate (length (Discovery.d_events (fi_disc s))) Takes) s = Some s' ∧
  fi_mgr s' = Discovery.Run (Discovery.d_events (fi_disc s)) (fi_mgr s).
Proof.
  remember (Discovery.d_events (fi_disc s)) as evs eqn:Ee. revert s Ee.
  induction evs as [|ev evs IH]; intros s Ee Hc; cbn [length replicate play]; [by exists s|].
  cbn [step]. rewrite Hc. unfold take. rewrite <- Ee. cbn [mbind option_bind].
  match goal with |- context [play order _ ?s1] => destruct (IH s1 eq_refl Hc) as (s' & Hp & Hm) end.
  by exists s'.
Qed.

(** After a run in which each scan has room. *)
Lemma following_tracks local config mgr acts s : Discovery.map_order order → Discovery.mgr_tracked mgr = ∅ →
  roomy_runs order (initial local config mgr) acts s →
  dom (Discovery.d_entries (fi_disc s)) = last_seen order local acts ∧
  (fi_connector s = true → ∃ s',
    play order (replicate (length (Discovery.d_events (fi_disc s))) Takes) s = Some s' ∧
    Discovery.mgr_tracked (fi_mgr s') = last_seen order local acts).
Proof.
  intros Ho Ht Hr. destruct (following_runs local config mgr acts s Ho Ht Hr) as [_ [_ Hp _] Hv _].
  split; [exact Hv|]. intros Hc. destruct (drain s Hc) as (s' & Hs & Hm). exists s'. split; [exact Hs|].
  by rewrite Hm, Hp, Hv.
Qed.

End Proofs.

(** A peer comes, is taken by the connector, and goes. *)
Definition visit : list act :=
  [StartCalled; ResolverMade true; FirstScan (Some [Some Discovery.sample_answer]); Takes;
   Works (AttemptEnds 0 true); Tick None; Tick (Some []);
   CloseCalled].

(** Two goroutines start the discovery. *)
Definition double_start : list act :=
  [StartCalled; StartCalled; ResolverMade true; ResolverMade true; FirstScan (Some []); FirstScan (Some [])].

Definition sample_finder : Finder.Finder (Time * Connection.Manager) :=
  initial Discovery.sample_local Discovery.DefaultMDNSConfig new_manager.

Lemma play_within_runs {M} `{!Discovery.ConnectionManager M} order acts (s s' : Finder.Finder M) :
  play_within order acts s = Some s' → ∀ s0 l, roomy_runs order s0 l s → roomy_runs order s0 (l ++ acts) s'.
Proof.
  revert s. induction acts as [|a acts IH]; intros s; cbn [play_within].
  - intros [= <-] s0 l Hl. by rewrite app_nil_r.
  - case_decide as Hr; [|done]. intros (s1 & Hs & Hp)%bind_Some s0 l Hl. rewrite cons_middle, app_assoc.
    apply (IH s1 Hp). by eapply roomy_act.
Qed.

(** ** Properties *)

(** C20: discovery and its connector, however their steps interleave: as long as
    each scan finds room in the channel for what it may announce, the events that
    wait are all the manager is behind.  The connector can take them, and then the
    manager tracks exactly the valid peers other than the local one that the last
    successful scan saw. *)
Theorem finder_follows {M} `{!Discovery.ConnectionManager M} order local config (mgr : M) acts s :
  Discovery.map_order order → Discovery.mgr_tracked mgr = ∅ →
  roomy_runs order (initial local config mgr) acts s →
  dom (Discovery.d_entries (fi_disc s)) = last_seen order local acts ∧
  (fi_connector s = true → ∃ s',
    play order (replicate (length (Discovery.d_events (fi_disc s))) Takes) s = Some s' ∧
    Discovery.mgr_tracked (fi_mgr s') = last_seen order local acts).
Proof. apply following_tracks. Qed.

Lemma finder_follows_witness : ∃ s, play_within map_to_list (firstn 3 visit) sample_finder = Some s ∧
  ∃ s', play map_to_list (replicate (length (Discovery.d_events (fi_disc s))) Takes) s = Some s' ∧
    Discovery.mgr_tracked (fi_mgr s') = {["bob"]}.
Proof.
  assert (∃ s, play_within map_to_list (firstn 3 visit) sample_finder = Some s ∧ fi_connector s = true) as (s & Hs & Hc)
    by (eexists; split; vm_compute; reflexivity).
  exists s. split; [exact Hs|].
  assert (Hm : Discovery.map_order map_to_list) by (intros m; reflexivity).
  assert (He : Discovery.mgr_tracked new_manager = ∅) by (vm_compute; reflexivity).
  destruct (finder_follows map_to_list Discovery.sample_local Discovery.DefaultMDNSConfig new_manager (firstn 3 visit) s
    Hm He (play_within_runs _ _ _ _ Hs _ [] (roomy_none _ _))) as [_ H].
  destruct (H Hc) as (s' & Hp & Ht). exists s'. split; [exact Hp|]. rewrite Ht. vm_compute. reflexivity.
Defined.

(** [Close] ends the search: once the discovery is closed and no call of [Start]
    is under way, whatever happens no loop begins, and each that still runs can
    end. *)
Theorem close_ends_loops {M} `{!Discovery.ConnectionManager M} order local config (mgr : M) before s acts s' :
  runs order (initial local config mgr) before s →
  Discovery.d_closed (fi_disc s) = true → fi_making s = 0%nat → fi_scanning s = 0%nat →
  runs order s acts s' →
  (fi_loops s' ≤ fi_loops s)%nat ∧ ((0 < fi_loops s')%nat → is_Some (step order LoopEnds s')).
Proof.
  intros Hb Hc Hm Hn Hr.
  assert (Hf : one_flag s) by (clear -Hb; induction Hb; [done|by eapply one_flag_step]).
  assert (Hst : stopping s) by (split_and!; [done|by rewrite <- Hf|done|done]).
  destruct (runs_stopping order s acts s' Hst Hr) as [(_ & Hd & _ & _) Hl]. split; [exact Hl|].
  intros Hpos. cbn [step]. unfold loop_ends. destruct (fi_loops s'); [lia|]. rewrite Hd, orb_true_r. by eexists.
Qed.

Lemma close_ends_loops_witness : ∃ s, play map_to_list visit sample_finder = Some s ∧
  is_Some (step map_to_list LoopEnds s).
Proof.
  assert (∃ s, play map_to_list visit sample_finder = Some s ∧ Discovery.d_closed (fi_disc s) = true ∧
    fi_making s = 0%nat ∧ fi_scanning s = 0%nat ∧ fi_loops s = 1%nat) as (s & Hs & Hc & Hm & Hn & Hl)
    by (eexists; split; [vm_compute; reflexivity|split_and!; reflexivity]).
  exists s. split; [exact Hs|].
  apply (close_ends_loops map_to_list Discovery.sample_local Discovery.DefaultMDNSConfig new_manager visit s [] s
    (play_runs _ _ _ _ Hs _ [] (runs_none _ _)) Hc Hm Hn (runs_none _ _)).
  rewrite Hl. lia.
Defined.

(** Two calls of [Start] that overlap both succeed, and the discovery has two
    loops: the lock is free between the check of [started] and its setting. *)
Theorem starts_overlap : ∃ s, runs map_to_list sample_finder double_start s ∧ fi_loops s = 2%nat.
Proof.
  assert (∃ s, play map_to_list double_start sample_finder = Some s ∧ fi_loops s = 2%nat) as (s & Hs & Hl)
    by (eexists; split; vm_compute; reflexivity).
  exists s. split; [|exact Hl]. apply (play_runs _ _ _ _ Hs _ [] (runs_none _ _)).
Qed.
