(* ===== verification/Version.v ===== *)
(** * The version

    [internal/version/version.go]: what the build was stamped with and how it is
    shown.  The variables the linker may set, and what package [runtime] says,
    are arguments. *)

From S2P Require Import Prelude GoStrings.

Module Version.

(** The variables and their defaults. *)
Record Stamp : Type := mkStamp { vs_Version : string; vs_GitCommit : string; vs_BuildDate : string }.
Definition unstamped : Stamp := mkStamp "1.0.0" "dev" "unknown".

Record Runtime : Type := mkRuntime { rt_Version : string; rt_GOOS : string; rt_GOARCH : string }.

Record BuildInfo : Type := mkInfo {
  bi_Version : string; bi_GitCommit : string; bi_BuildDate : string;
  bi_GoVersion : string; bi_OS : string; bi_Arch : string
}.

Definition Info (v : Stamp) (r : Runtime) : BuildInfo :=
  mkInfo (vs_Version v) (vs_GitCommit v) (vs_BuildDate v) (rt_Version r) (rt_GOOS r) (rt_GOARCH r).

Definition String (v : Stamp) (r : Runtime) : string :=
  let info := Info v r in
  "SKALL v" +:+ bi_Version info +:+ " (commit: " +:+ bi_GitCommit info +:+ ", built: " +:+ bi_BuildDate info +:+ ", "
    +:+ bi_GoVersion info +:+ " " +:+ bi_OS info +:+ "/" +:+ bi_Arch info +:+ ")".

Definition Short (v : Stamp) : string := "v" +:+ vs_Version v.

Example version_text : String unstamped (mkRuntime "go1.24" "linux" "amd64") =
  "SKALL v1.0.0 (commit: dev, built: unknown, go1.24 linux/amd64)".
Proof. reflexivity. Qed.

End Version.
