(* ===== verification/Identity.v ===== *)
(** * The local identity

    [internal/identity]: the identity of a user, its validation, its
    generation, and the store that keeps it in one JSON file.  The source of
    key pairs is a parameter of the model, as [crypto/rand] is; the file system
    is an interface whose laws are the documented effects of the calls of
    package [os]. *)

From S2P Require Import Prelude GoStrings GoTime GoCrypto Json JsonObject Protocol.

Open Scope Z_scope.

(** ** Identities ([identity.go]) *)

Module Identity.

Definition Version : Z := 1.
Definition PublicKeySize : Z := 32.
Definition PrivateKeySize : Z := 64.

Record Identity : Type := mkIdentity {
  id_Version : Z;
  id_PeerID : string;
  id_Username : string;
  id_DisplayName : string;
  id_CreatedAt : Time;
  id_PublicKey : string;
  id_PrivateKey : string
}.

#[global] Instance Identity_eq_dec : EqDecision Identity.
Proof. solve_decision. Defined.

Definition zeroIdentity : Identity :=
  mkIdentity 0 EmptyString EmptyString EmptyString zeroTime EmptyString EmptyString.

Inductive identity_error : Type :=
  | ErrMissingRequired
  | ErrInvalidKeyPair
  | ErrPeerIDMismatch
  | ErrUnsupportedVer (version : Z).

#[global] Instance identity_error_eq_dec : EqDecision identity_error.
Proof. solve_decision. Defined.

Definition PeerIDFromPublicKey (publicKey : string) : string := hex_encode (sha256 publicKey).

Definition shortPeerID (peerID : string) : string :=
  if slen peerID <=? 8 then peerID else take_s 8 peerID.

(** [PrivateKey.Public]: the public key is the second half of the private one. *)
Definition Public (privateKey : string) : string := take_s 32 (drop_s 32 privateKey).

Definition Validate (i : Identity) : result identity_error () :=
  if negb (id_Version i =? Version) then Err (ErrUnsupportedVer (id_Version i)) else
  if blank (id_PeerID i) || blank (id_Username i) || blank (id_DisplayName i)
  then Err ErrMissingRequired else
  if IsZero (id_CreatedAt i) then Err ErrMissingRequired else
  if negb (slen (id_PublicKey i) =? PublicKeySize) || negb (slen (id_PrivateKey i) =? PrivateKeySize)
  then Err ErrInvalidKeyPair else
  if negb (bool_decide (Public (id_PrivateKey i) = id_PublicKey i)) then Err ErrInvalidKeyPair else
  if negb (bool_decide (PeerIDFromPublicKey (id_PublicKey i) = id_PeerID i))
  then Err ErrPeerIDMismatch else
  Ok ().

(** [Generate], from the key pair [ed25519.GenerateKey] returned and the clock. *)
Definition new_identity (publicKey privateKey : string) (now : Time) : Identity :=
  let peerID := PeerIDFromPublicKey publicKey in
  let shortID := shortPeerID peerID in
  mkIdentity Version peerID ("user-" +:+ shortID) ("SKALL-" +:+ shortID) now publicKey privateKey.

(** ** The file of the store ([store.go]) *)

Inductive os_error : Type := ErrNotExist | ErrPermission | ErrOther (text : string).

#[global] Instance os_error_eq_dec : EqDecision os_error.
Proof. solve_decision. Defined.

(** The calls of package [os] the store makes, with their effect on what can
    be read from a path. *)
Class FileSystem (F : Type) := {
  ReadFile : string → F → result os_error string;
  MkdirAll : string → F → F * result os_error ();
  WriteFile : string → string → F → F * result os_error ();
  Chmod : string → F → F * result os_error ();
  MkdirAll_read p d f : ReadFile p (MkdirAll d f).1 = ReadFile p f;
  WriteFile_read p s f : (WriteFile p s f).2 = Ok () → ReadFile p (WriteFile p s f).1 = Ok s;
  Chmod_read p f : ReadFile p (Chmod p f).1 = ReadFile p f
}.

Inductive store_error : Type :=
  | StoreOS (e : os_error)
  | StoreDecode
  | StoreEncode
  | StoreInvalid (e : identity_error)
  | StoreGenerate.

#[global] Instance store_error_eq_dec : EqDecision store_error.
Proof. solve_decision. Defined.

(** The JSON form of a byte slice. *)
Definition bytes_member (name s : string) : string * string * json :=
  (name, String quote (b64_encode s) +:+ String quote EmptyString, JStr (b64_encode s)).

Definition string_member (name s : string) : string * string * json :=
  (name, marshal_string s, JStr (enc_str s)).

(** [json.MarshalIndent(identity, "", "  ")]. *)
Definition newline : string := String "010"%char EmptyString.
Definition identity_members (i : Identity) (created_at : string) : list (string * string * json) :=
  [("version", Itoa (id_Version i), JNum (Itoa (id_Version i)));
   string_member "peer_id" (id_PeerID i);
   string_member "username" (id_Username i);
   string_member "display_name" (id_DisplayName i);
   ("created_at", created_at, JStr (formatRFC3339Nano (id_CreatedAt i)));
   bytes_member "public_key" (id_PublicKey i);
   bytes_member "private_key" (id_PrivateKey i)].

Definition MarshalIndent (i : Identity) : option string :=
  created_at ← marshal_time (id_CreatedAt i);
  Some (object_text (newline +:+ "  ") " " newline (identity_members i created_at)).

(** Decoding into a byte slice: base64 text, an array of bytes, or [null]. *)
Definition dec_uint8 (v : json) : option Z :=
  match v with
  | JNum raw => n ← Atoi raw; if (0 <=? n) && (n <=? 255) then Some n else None
  | JNull => Some 0
  | _ => None
  end.

Fixpoint bytes_of (l : list Z) : string :=
  match l with [] => EmptyString | z :: l => String (Z_byte z) (bytes_of l) end.

Definition dec_bytes (v : json) : option (option string) :=
  match v with
  | JStr raw => s ← unquote raw; Some <$> b64_decode s
  | JArr l => zs ← mapM dec_uint8 l; Some (Some (bytes_of zs))
  | JNull => Some (Some EmptyString)
  | _ => None
  end.

Definition set_Version v i := mkIdentity v (id_PeerID i) (id_Username i) (id_DisplayName i)
  (id_CreatedAt i) (id_PublicKey i) (id_PrivateKey i).
Definition set_PeerID v i := mkIdentity (id_Version i) v (id_Username i) (id_DisplayName i)
  (id_CreatedAt i) (id_PublicKey i) (id_PrivateKey i).
Definition set_Username v i := mkIdentity (id_Version i) (id_PeerID i) v (id_DisplayName i)
  (id_CreatedAt i) (id_PublicKey i) (id_PrivateKey i).
Definition set_DisplayName v i := mkIdentity (id_Version i) (id_PeerID i) (id_Username i) v
  (id_CreatedAt i) (id_PublicKey i) (id_PrivateKey i).
Definition set_CreatedAt v i := mkIdentity (id_Version i) (id_PeerID i) (id_Username i)
  (id_DisplayName i) v (id_PublicKey i) (id_PrivateKey i).
Definition set_PublicKey v i := mkIdentity (id_Version i) (id_PeerID i) (id_Username i)
  (id_DisplayName i) (id_CreatedAt i) v (id_PrivateKey i).
Definition set_PrivateKey v i := mkIdentity (id_Version i) (id_PeerID i) (id_Username i)
  (id_DisplayName i) (id_CreatedAt i) (id_PublicKey i) v.

Definition identity_fields : list (string * (json → Identity → option Identity)) :=
  [ ("version", λ v, assign set_Version (dec_int v));
    ("peer_id", λ v, assign set_PeerID (dec_string v));
    ("username", λ v, assign set_Username (dec_string v));
    ("display_name", λ v, assign set_DisplayName (dec_string v));
    ("created_at", λ v, assign set_CreatedAt (dec_time v));
    ("public_key", λ v, assign set_PublicKey (dec_bytes v));
    ("private_key", λ v, assign set_PrivateKey (dec_bytes v)) ].

Section Store.
Context {F : Type} `{!FileSystem F}.
(** [filepath.Dir] of the store's path. *)
Context (path dir : string).

Definition Load (f : F) : result store_error Identity :=
  match ReadFile path f with
  | Err e => Err (StoreOS e)
  | Ok data =>
      match unmarshal_struct identity_fields data zeroIdentity with
      | None => Err StoreDecode
      | Some i => match Validate i with Err e => Err (StoreInvalid e) | Ok _ => Ok i end
      end
  end.

Definition Save (i : Identity) (f : F) : F * result store_error () :=
  match Validate i with
  | Err e => (f, Err (StoreInvalid e))
  | Ok _ =>
      match MkdirAll dir f with
      | (f, Err e) => (f, Err (StoreOS e))
      | (f, Ok _) =>
          match MarshalIndent i with
          | None => (f, Err StoreEncode)
          | Some data =>
              match WriteFile path data f with
              | (f, Err e) => (f, Err (StoreOS e))
              | (f, Ok _) =>
                  match Chmod path f with
                  | (f, Err e) => if decide (e = ErrPermission) then (f, Ok ()) else (f, Err (StoreOS e))
                  | (f, Ok _) => (f, Ok ())
                  end
              end
          end
      end
  end.

(** [keys] is what [ed25519.GenerateKey] returns, [now] the clock. *)
Definition Generate (keys : option (string * string)) (now : Time) : result store_error Identity :=
  match keys with
  | None => Err StoreGenerate
  | Some (publicKey, privateKey) =>
      let i := new_identity publicKey privateKey now in
      match Validate i with Err e => Err (StoreInvalid e) | Ok _ => Ok i end
  end.

Definition LoadOrCreate (keys : option (string * string)) (now : Time) (f : F)
  : F * result store_error Identity :=
  match Load f with
  | Ok i => (f, Ok i)
  | Err (StoreOS ErrNotExist) =>
      match Generate keys now with
      | Err e => (f, Err e)
      | Ok i => match Save i f with
                | (f, Err e) => (f, Err e)
                | (f, Ok _) => (f, Ok i)
                end
      end
  | Err e => (f, Err e)
  end.

End Store.

(** What [Validate] accepts. *)
Record valid_identity (i : Identity) : Prop := {
  vi_version : id_Version i = 1;
  vi_username : TrimSpace (id_Username i) ≠ EmptyString;
  vi_display : TrimSpace (id_DisplayName i) ≠ EmptyString;
  vi_created : id_CreatedAt i ≠ 0;
  vi_private : slen (id_PrivateKey i) = 64;
  vi_public : id_PublicKey i = drop_s 32 (id_PrivateKey i);
  vi_peer : id_PeerID i = hex_encode (sha256 (id_PublicKey i))
}.

(** A file system that holds one file per path. *)
Definition mem_fs := gmap string string.
#[global] Program Instance mem_filesystem : FileSystem mem_fs := {|
  ReadFile p f := from_option_err ErrNotExist (f !! p);
  MkdirAll d f := (f, Ok ());
  WriteFile p s f := (<[p := s]> f, Ok ());
  Chmod p f := (f, Ok ())
|}.
Next Obligation. done. Qed.
Next Obligation. intros p s f _. simpl. by rewrite (lookup_insert_eq (M:=gmap string) f p s). Qed.
Next Obligation. done. Qed.

(** The names are UTF-8 text. *)
Definition utf8_identity (i : Identity) : bool :=
  utf8_valid (id_Username i) && utf8_valid (id_DisplayName i).

(** An identity made from a fixed key pair. *)
Definition sample_keys : string * string :=
  (zero_bytes 32, zero_bytes 64).
Definition sample_identity : Identity := new_identity (zero_bytes 32) (zero_bytes 64) (unix_epoch + 5).

End Identity.

(** ** Lemmas *)

Import Identity.

Lemma length_drop_s n s : String.length (drop_s n s) = (String.length s - n)%nat.
Proof. revert s. induction n as [|n IH]; intros [|a s]; simpl; try done; by rewrite ?IH. Qed.

Lemma graphic_ascii a : graphic a = true → rune1 a = true.
Proof. unfold graphic, rune1. rewrite andb_true_iff, !Z.leb_le, Z.ltb_lt. lia. Qed.

(** Printable texts survive both the trimming and the encoding. *)
Lemma graphic_valid s : all_bytes graphic s = true → to_valid s = s.
Proof. intros H. apply to_valid_ascii. by eapply all_bytes_impl; [apply graphic_ascii|]. Qed.

Lemma hex_graphic s : all_bytes graphic (hex_encode s) = true.
Proof. eapply all_bytes_impl; [apply hex_char_graphic|apply hex_encode_text]. Qed.

Lemma b64_plain a : b64_char a = true → plain_byte a && rune1 a = true.
Proof.
  intros H. assert (Hz : 43 ≤ byte_Z a ≤ 122 ∧ byte_Z a ≠ 92).
  { revert H. unfold b64_char. destruct (b64_value a) as [v|] eqn:E.
    - intros _. revert E. unfold b64_value.
      repeat (case_match; [rewrite ?andb_true_iff, ?Z.leb_le, ?Z.eqb_eq in *; intros _; lia|]). done.
    - rewrite bool_decide_eq_true. intros ->. done. }
  unfold plain_byte, rune1.
  rewrite !andb_true_iff, !negb_true_iff, !Z.eqb_neq, !Z.ltb_ge, Z.ltb_lt. lia.
Qed.

Lemma bytes_text s : value_text (String quote (b64_encode s) +:+ String quote EmptyString)
  (JStr (b64_encode s)).
Proof.
  apply plain_text. rewrite <- all_bytes_plain.
  eapply all_bytes_impl; [|apply b64_encode_text].
  intros a Ha. apply b64_plain, andb_true_iff in Ha. tauto.
Qed.

Lemma dec_bytes_encode s : dec_bytes (JStr (b64_encode s)) = Some (Some s).
Proof.
  cbn [dec_bytes]. rewrite unquote_ascii.
  { cbn [mbind option_bind]. by rewrite b64_roundtrip. }
  eapply all_bytes_impl; [|apply b64_encode_text]. apply b64_plain.
Qed.

(** ** Validation *)

Lemma hex_nonempty s : s ≠ EmptyString → TrimSpace (hex_encode s) ≠ EmptyString.
Proof. rewrite (graphic_trimmed _ (hex_graphic s)). by destruct s. Qed.

Lemma sha256_nonempty s : sha256 s ≠ EmptyString.
Proof. intros H. pose proof (length_sha256 s) as Hl. by rewrite H in Hl. Qed.

Lemma Public_tail k : slen k = 64 → Public k = drop_s 32 k.
Proof.
  intros H. unfold Public. apply take_s_all. rewrite length_drop_s. unfold slen in H. lia.
Qed.

Lemma Validate_valid i : Validate i = Ok () ↔ valid_identity i.
Proof.
  unfold Validate, IsZero, Version, PublicKeySize, PrivateKeySize, PeerIDFromPublicKey. split.
  - intros H. repeat (case_match; [done|]). clear H.
    repeat match goal with
    | H : negb _ = false |- _ => apply negb_false_iff in H
    | H : _ || _ = false |- _ => apply orb_false_iff in H as [? ?]
    | H : blank _ = false |- _ => apply blank_false in H
    | H : bool_decide _ = true |- _ => apply bool_decide_eq_true in H
    | H : (_ =? _) = true |- _ => apply Z.eqb_eq in H
    | H : (_ =? _) = false |- _ => apply Z.eqb_neq in H
    end. constructor; try done. by rewrite <- Public_tail.
  - intros []. rewrite vi_version0, vi_peer0, Public_tail, vi_public0 by done.
    assert (slen (drop_s 32 (id_PrivateKey i)) = 32) as ->.
    { unfold slen in *. rewrite length_drop_s. lia. }
    rewrite vi_private0. rewrite !bool_decide_eq_true_2 by done.
    rewrite !(proj2 (blank_false _)) by (done || by apply hex_nonempty, sha256_nonempty).
    by rewrite (proj2 (Z.eqb_neq (id_CreatedAt i) _)) by done.
Qed.

(** ** The file round trip *)

Lemma white_indent : white (newline +:+ "  ").
Proof. done. Qed.

Lemma white_space : white " ".
Proof. done. Qed.

Lemma closing_newline : closing newline.
Proof. split; [done|]. intros r. eexists _, _. split; [done|by right]. Qed.

Lemma MarshalIndent_Some i data : MarshalIndent i = Some data ↔
  in_year_range (id_CreatedAt i) ∧
  data = object_text (newline +:+ "  ") " " newline (identity_members i
    (String quote (formatRFC3339Nano (id_CreatedAt i)) +:+ String quote EmptyString)).
Proof.
  unfold MarshalIndent. destruct (marshal_time (id_CreatedAt i)) as [ts|] eqn:E; cbn [mbind option_bind].
  - apply marshal_time_Some in E as [Ht ->]. split; [by intros [= <-]|by intros [_ ->]].
  - split; [done|]. intros [Ht _].
    by rewrite (proj2 (marshal_time_Some _ _) (conj Ht eq_refl)) in E.
Qed.

Lemma parse_identity i data : id_Version i = 1 → MarshalIndent i = Some data →
  parse_json data = Some (JObj (member_values (identity_members i
    (String quote (formatRFC3339Nano (id_CreatedAt i)) +:+ String quote EmptyString)))).
Proof.
  intros Hv [Ht ->]%MarshalIndent_Some. unfold identity_members, string_member, bytes_member.
  apply parse_object; [apply white_indent|apply white_space|apply closing_newline|].
  rewrite Hv. repeat (apply Forall_cons; split; [split; [done|]|]); try (by apply Forall_nil);
    first [apply one_text | apply string_text | apply bytes_text | by apply plain_text, plain_format].
Qed.

Lemma unmarshal_identity i data : Validate i = Ok () → utf8_identity i = true →
  MarshalIndent i = Some data → unmarshal_struct identity_fields data zeroIdentity = Some i.
Proof.
  intros [Hv _ _ _ _ _ Hp]%Validate_valid Hu Hm.
  unfold utf8_identity in Hu. apply andb_true_iff in Hu as [Hu1%utf8_valid_eq Hu2%utf8_valid_eq].
  assert (Hpv : to_valid (id_PeerID i) = id_PeerID i) by (rewrite Hp; apply graphic_valid, hex_graphic).
  unfold unmarshal_struct. rewrite (parse_identity i) by done. cbn [mbind option_bind].
  apply MarshalIndent_Some in Hm as [Ht _].
  unfold identity_members, string_member, bytes_member, member_values. rewrite Hv.
  change (Itoa 1) with "1". cbn [fmap list_fmap].
  rewrite (set_members_cons _ _ _ _ _ (set_Version 1 zeroIdentity)) by reflexivity.
  do 3 (erewrite set_members_cons;
    [|reflexivity|cbn -[dec_string]; rewrite dec_string_enc; reflexivity]).
  erewrite set_members_cons;
    [|reflexivity|cbn -[dec_time formatRFC3339Nano]; rewrite dec_time_format by done; reflexivity].
  do 2 (erewrite set_members_cons;
    [|reflexivity|cbn -[dec_bytes b64_encode]; rewrite dec_bytes_encode; reflexivity]).
  cbn [set_members]. rewrite Hpv, Hu1, Hu2. by destruct i; simpl in *; subst.
Qed.

Section StoreLemmas.
Context {F : Type} `{!FileSystem F} (path dir : string).

Lemma Save_Ok i f f' : Save path dir i f = (f', Ok ()) →
  Validate i = Ok () ∧ ∃ data, MarshalIndent i = Some data ∧ ReadFile path f' = Ok data.
Proof.
  unfold Save. destruct (Validate i) as [[]|]; [|done].
  destruct (MkdirAll dir f) as [f1 [|]]; [|done].
  destruct (MarshalIndent i) as [data|]; [|done].
  destruct (WriteFile path data f1) as [f2 [[]|]] eqn:Ew; [|done].
  assert (H2 : ReadFile path f2 = Ok data).
  { pose proof (WriteFile_read path data f1) as H. rewrite Ew in H. by apply H. }
  pose proof (Chmod_read path f2) as Hc. destruct (Chmod path f2) as [f3 [|e]]; cbn [fst] in Hc.
  - intros [= <-]. split; [done|]. exists data. by rewrite Hc.
  - case_decide; [|done]. intros [= <-]. split; [done|]. exists data. by rewrite Hc.
Qed.

Lemma Load_Save i f f' : utf8_identity i = true → Save path dir i f = (f', Ok ()) →
  Load path f' = Ok i.
Proof.
  intros Hu (Hv & data & Hm & Hr)%Save_Ok. unfold Load. rewrite Hr.
  rewrite (unmarshal_identity i) by done. by rewrite Hv.
Qed.

Lemma new_identity_utf8 pub priv now : utf8_identity (new_identity pub priv now) = true.
Proof.
  unfold utf8_identity, new_identity. cbn [id_Username id_DisplayName].
  assert (all_bytes graphic (shortPeerID (PeerIDFromPublicKey pub)) = true) as Hs.
  { unfold shortPeerID, PeerIDFromPublicKey. pose proof (hex_graphic (sha256 pub)) as H.
    case_match; [done|]. rewrite <- (take_drop_s 8 (hex_encode _)), all_bytes_app in H.
    by apply andb_true_iff in H as [? _]. }
  rewrite andb_true_iff. split; apply utf8_valid_eq, graphic_valid; by rewrite all_bytes_app, Hs.
Qed.

End StoreLemmas.

(** ** Properties *)

(** C37: an identity the store saved is the one it loads: version, names, keys and
    creation time come back from the file exactly, when the names are UTF-8. *)
Theorem identity_roundtrip {F} `{!FileSystem F} path dir i (f f' : F) :
  utf8_identity i = true → Save path dir i f = (f', Ok ()) → Load path f' = Ok i.
Proof. apply Load_Save. Qed.

Lemma identity_roundtrip_witness : ∃ f',
  Save (F:=mem_fs) "id.json" "." sample_identity ∅ = (f', Ok ()) ∧ Load "id.json" f' = Ok sample_identity.
Proof.
  destruct (Save (F:=mem_fs) "id.json" "." sample_identity ∅) as [f' r] eqn:E.
  assert (r = Ok ()) as ->.
  { change r with (f', r).2. rewrite <- E. vm_compute. reflexivity. }
  exists f'. split; [done|]. eapply identity_roundtrip; [|exact E]. vm_compute. reflexivity.
Defined.

(** [Validate] accepts exactly the identities of the current version whose
    peer ID is the hexadecimal SHA-256 of a public key that belongs to the
    private key, with non-empty names and a creation time. *)
Theorem identity_Validate_exact i : Validate i = Ok () ↔ valid_identity i.
Proof. apply Validate_valid. Qed.

(** C38: the first start decides the identity: once [LoadOrCreate] has returned
    one, every later call returns the same, whatever key pair it could generate. *)
Theorem LoadOrCreate_stable {F} `{!FileSystem F} path dir keys now (f f' : F) i :
  LoadOrCreate path dir keys now f = (f', Ok i) →
  ∀ keys' now', LoadOrCreate path dir keys' now' f' = (f', Ok i).
Proof.
  unfold LoadOrCreate. destruct (Load path f) as [i0|e] eqn:El.
  - intros [= <- <-] keys' now'. by rewrite El.
  - destruct e as [[]| | | |]; try done.
    destruct (Generate keys now) as [i1|] eqn:Eg; [|done].
    destruct (Save path dir i1 f) as [f1 [[]|]] eqn:Es; [|done]. intros [= <- <-] keys' now'.
    rewrite (Load_Save path dir i1 f f1); [done| |done].
    unfold Generate in Eg. destruct keys as [[pub priv]|]; [|done].
    destruct (Validate _); [|done]. injection Eg as <-. apply new_identity_utf8.
Qed.

Lemma LoadOrCreate_stable_witness : ∃ f',
  LoadOrCreate (F:=mem_fs) "id.json" "." None 7 f' = (f', Ok sample_identity).
Proof.
  destruct (LoadOrCreate (F:=mem_fs) "id.json" "." (Some sample_keys) (unix_epoch + 5) ∅)
    as [f' r] eqn:E.
  assert (r = Ok sample_identity) as ->.
  { change r with (f', r).2. rewrite <- E. vm_compute. reflexivity. }
  exists f'. by eapply (LoadOrCreate_stable "id.json" "." (Some sample_keys) (unix_epoch + 5) ∅).
Defined.
