(* ===== verification/Storage.v ===== *)
(** * The message store

    [internal/storage/store.go]: the tables of the SQLite database with their
    keys and the one foreign key, the migrations, and the operations of the
    store.  Each SQL statement of the source is a function on the tables; the
    driver can refuse any statement with an error text, which leaves the tables
    as they were.  Times are stored as RFC 3339 text and ordered as text, as in
    the database. *)

From S2P Require Import Prelude GoStrings GoTime Json Protocol Identity.

Open Scope Z_scope.

Module Storage.

(** ** Tables *)

Record identity_row : Type := mkIdentityRow {
  ir_username : string; ir_display_name : string; ir_created_at : string;
  ir_public_key : string; ir_last_seen : string; ir_updated_at : string
}.

Record peer_row : Type := mkPeerRow {
  pr_display_name : string; pr_last_seen : string; pr_created_at : string; pr_updated_at : string
}.

Record group_row : Type := mkGroupRow {
  gr_name : string; gr_created_at : string; gr_updated_at : string
}.

Record membership_row : Type := mkMembershipRow {
  mr_joined_at : string; mr_active : Z; mr_last_seen : string; mr_updated_at : string
}.

Record message_row : Type := mkMessageRow {
  row_version : Z; row_type : string; row_sender_id : string;
  row_recipient_id : option string; row_group_id : option string;
  row_timestamp : string; row_body : string; row_direction : string; row_status : string;
  row_created_at : string; row_updated_at : string
}.

(** The tables by primary key, with the schema objects that exist and the
    table of applied migrations. *)
Record Database : Type := mkDatabase {
  db_identities : gmap string identity_row;
  db_peers : gmap string peer_row;
  db_groups : gmap string group_row;
  db_memberships : gmap (string * string) membership_row;
  db_messages : gmap string message_row;
  db_schema : gset string;
  db_migrations : gmap Z (string * string)
}.

Definition emptyDatabase : Database := mkDatabase ∅ ∅ ∅ ∅ ∅ ∅ ∅.

Definition with_identities f d := mkDatabase (f (db_identities d)) (db_peers d) (db_groups d)
  (db_memberships d) (db_messages d) (db_schema d) (db_migrations d).
Definition with_peers f d := mkDatabase (db_identities d) (f (db_peers d)) (db_groups d)
  (db_memberships d) (db_messages d) (db_schema d) (db_migrations d).
Definition with_groups f d := mkDatabase (db_identities d) (db_peers d) (f (db_groups d))
  (db_memberships d) (db_messages d) (db_schema d) (db_migrations d).
Definition with_memberships f d := mkDatabase (db_identities d) (db_peers d) (db_groups d)
  (f (db_memberships d)) (db_messages d) (db_schema d) (db_migrations d).
Definition with_messages f d := mkDatabase (db_identities d) (db_peers d) (db_groups d)
  (db_memberships d) (f (db_messages d)) (db_schema d) (db_migrations d).
Definition with_schema f d := mkDatabase (db_identities d) (db_peers d) (db_groups d)
  (db_memberships d) (db_messages d) (f (db_schema d)) (db_migrations d).
Definition with_migrations f d := mkDatabase (db_identities d) (db_peers d) (db_groups d)
  (db_memberships d) (db_messages d) (db_schema d) (f (db_migrations d)).

(** ** Errors *)

Inductive driver_error : Type := NoRows | DriverError (text : string).

Inductive db_error : Type :=
  | ErrDuplicateMessage
  | ErrCorruptedDatabase (detail : string)
  | DBError (op : string) (e : driver_error)
  | ErrNoRows
  | ErrRequired (what : string)
  | ErrInvalidMessage (e : message_error)
  | ErrInvalidIdentity (e : Identity.identity_error)
  | ErrMigrationIncomplete (have want : Z).

#[global] Instance driver_error_eq_dec : EqDecision driver_error.
Proof. solve_decision. Defined.
#[global] Instance db_error_eq_dec : EqDecision db_error.
Proof. solve_decision. Defined.

Definition error_text (e : driver_error) : string :=
  match e with NoRows => "sql: no rows in result set" | DriverError t => t end.

Definition isCorruptionErr (e : driver_error) : bool :=
  let msg := ToLower (error_text e) in
  Contains msg "file is not a database" || Contains msg "database disk image is malformed" ||
  Contains msg "malformed".

Definition isDuplicateErr (e : driver_error) : bool :=
  let msg := ToLower (error_text e) in
  Contains msg "unique constraint failed" || Contains msg "constraint failed".

Definition classifyDBError (op : string) (e : driver_error) : db_error :=
  if isCorruptionErr e then ErrCorruptedDatabase (op +:+ ": " +:+ error_text e) else DBError op e.

(** [errors.Is(err, sql.ErrNoRows)]. *)
Definition is_no_rows (e : db_error) : bool :=
  match e with ErrNoRows | DBError _ NoRows => true | _ => false end.

(** ** Running statements

    The environment gives the clock and the error, if any, with which the
    driver refuses the statement of each step. *)

Record Env : Type := mkEnv { env_clock : nat → Time; env_fault : nat → option string }.

Record World : Type := mkWorld { w_db : Database; w_step : nat }.

Definition DB (A : Type) : Type := Env → World → result db_error A * World.

#[global] Instance DB_ret : MRet DB := λ A a e w, (Ok a, w).
#[global] Instance DB_bind : MBind DB := λ A B f m e w,
  match m e w with
  | (Ok a, w) => f a e w
  | (Err x, w) => (Err x, w)
  end.

Definition throw {A} (x : db_error) : DB A := λ e w, (Err x, w).

Definition now : DB Time := λ e w,
  (Ok (env_clock e (w_step w)), mkWorld (w_db w) (S (w_step w))).

Definition formatTime (t : Time) : string := formatRFC3339Nano t.
Definition nowUTC : DB string := t ← now; mret (formatTime t).

Definition mustParseTime (raw : string) : Time :=
  if decide (raw = EmptyString) then zeroTime else default zeroTime (parseRFC3339 raw).

Definition nullIfEmpty (value : string) : option string :=
  let trimmed := TrimSpace value in
  if decide (trimmed = EmptyString) then None else Some trimmed.

(** Runs a statement, which may fail on a constraint; a refused statement has
    no effect. *)
Definition run {A} (stmt : Database → result string (A * Database))
  : DB (result driver_error A) := λ e w,
  let w' := mkWorld (w_db w) (S (w_step w)) in
  match env_fault e (w_step w) with
  | Some text => (Ok (Err (DriverError text)), w')
  | None => match stmt (w_db w) with
            | Err text => (Ok (Err (DriverError text)), w')
            | Ok (a, d) => (Ok (Ok a), mkWorld d (S (w_step w)))
            end
  end.

(** [db.Exec] with the errors classified; the number of rows affected. *)
Definition exec {A} (op : string) (stmt : Database → result string (A * Database)) : DB A :=
  r ← run stmt;
  match r with Ok a => mret a | Err x => throw (classifyDBError op x) end.

(** [res.RowsAffected()] after a statement that took effect: the driver can
    refuse the count. *)
Definition rows_affected (op : string) (affected : Z) : DB Z := exec op (λ d, Ok (affected, d)).

(** [db.Query] and the loop over the rows, which can fail at its end. *)
Definition query {A} (op iter : string) (select : Database → list A) : DB (list A) :=
  rows ← exec op (λ d, Ok (select d, d));
  _ ← exec iter (λ d, Ok ((), d));
  mret rows.

(** [db.QueryRow] for at most one row. *)
Definition query_row {A} (select : Database → option A) : DB (result driver_error A) :=
  r ← run (λ d, Ok (select d, d));
  mret (match r with Ok (Some a) => Ok a | Ok None => Err NoRows | Err x => Err x end).

(** [ORDER BY] a text column, ascending. *)
Definition order_by {A} (key : A → string) (l : list A) : list A :=
  merge_sort (λ a b, String.le (key a) (key b)) l.

(** [INSERT ... ON CONFLICT DO UPDATE] on a table with one key. *)
Definition upsert {K V} `{Countable K} (k : K) (fresh : V) (update : V → V) (m : gmap K V)
  : gmap K V :=
  match m !! k with Some v => <[k := update v]> m | None => <[k := fresh]> m end.

(** ** Opening the database *)

Definition currentSchemaVersion : Z := 1.

Record migration : Type := mkMigration { mig_version : Z; mig_name : string; mig_upSQL : list string }.

(** The statements of a migration, by the object each creates if it is missing. *)
Definition migrations : list migration :=
  [mkMigration 1 "init_core_tables"
     ["identities"; "peers"; "groups"; "group_memberships"; "messages";
      "idx_messages_ts"; "idx_messages_direct"; "idx_messages_group"]].

(** [SELECT COALESCE(MAX(version), 0)]. *)
Definition max_version (d : Database) : Z :=
  foldr Z.max 0 (map_to_list (db_migrations d)).*1.

Definition create_if_missing (object : string) : Database → result string (() * Database) :=
  λ d, Ok ((), with_schema (λ s, {[object]} ∪ s) d).

Definition pragma (op : string) : DB () := exec op (λ d, Ok ((), d)).

Fixpoint run_statements (version : Z) (upSQL : list string) : DB () :=
  match upSQL with
  | [] => mret ()
  | s :: rest => _ ← exec ("apply migration " +:+ Itoa version) (create_if_missing s);
                 run_statements version rest
  end.

(** A transaction: an error inside or at the commit rolls the tables back. *)
Definition transaction (op_begin op_commit : string) (body : DB ()) : DB () := λ e w,
  match exec op_begin (λ d, Ok ((), d)) e w with
  | (Err x, w) => (Err x, w)
  | (Ok _, w1) =>
      match body e w1 with
      | (Err x, w2) => (Err x, mkWorld (w_db w1) (w_step w2))
      | (Ok _, w2) =>
          match exec op_commit (λ d, Ok ((), d)) e w2 with
          | (Err x, w3) => (Err x, mkWorld (w_db w1) (w_step w3))
          | (Ok _, w3) => (Ok (), w3)
          end
      end
  end.

Definition applyMigration (m : migration) : DB () :=
  transaction "begin migration" ("commit migration " +:+ Itoa (mig_version m))
    (_ ← run_statements (mig_version m) (mig_upSQL m);
     t ← nowUTC;
     exec ("record migration " +:+ Itoa (mig_version m)) (λ d,
       match db_migrations d !! mig_version m with
       | Some _ => Err "UNIQUE constraint failed: schema_migrations.version"
       | None => Ok ((), with_migrations <[mig_version m := (mig_name m, t)]> d)
       end)).

Fixpoint apply_pending (currentVersion : Z) (l : list migration) : DB () :=
  match l with
  | [] => mret ()
  | m :: l =>
      if mig_version m <=? currentVersion then apply_pending currentVersion l
      else _ ← applyMigration m; apply_pending currentVersion l
  end.

Definition applyMigrations : DB () :=
  _ ← exec "create migration table" (create_if_missing "schema_migrations");
  currentVersion ← exec "read schema version" (λ d, Ok (max_version d, d));
  _ ← apply_pending currentVersion migrations;
  finalVersion ← exec "read final schema version" (λ d, Ok (max_version d, d));
  if finalVersion <? currentSchemaVersion
  then throw (ErrMigrationIncomplete finalVersion currentSchemaVersion) else mret ().

(** [PRAGMA quick_check] answers [verdict]. *)
Definition quickCheck (verdict : string) : DB () :=
  res ← exec "quick check database" (λ d, Ok (verdict, d));
  if negb (EqualFold (TrimSpace res) "ok") then throw (ErrCorruptedDatabase res) else mret ().

Definition initialize (verdict : string) : DB () :=
  _ ← pragma "enable foreign keys";
  _ ← pragma "enable WAL";
  _ ← pragma "set synchronous mode";
  _ ← quickCheck verdict;
  applyMigrations.

(** ** Identities and peers *)

Definition UpsertIdentityMetadata (local : Identity.Identity) : DB () :=
  match Identity.Validate local with
  | Err x => throw (ErrInvalidIdentity x)
  | Ok _ =>
      t ← nowUTC;
      let createdAt := formatTime (Identity.id_CreatedAt local) in
      exec "upsert identity metadata" (λ d, Ok ((), with_identities
        (upsert (Identity.id_PeerID local)
           (mkIdentityRow (Identity.id_Username local) (Identity.id_DisplayName local) createdAt
              (Identity.id_PublicKey local) t t)
           (λ old, mkIdentityRow (Identity.id_Username local) (Identity.id_DisplayName local)
              (ir_created_at old) (Identity.id_PublicKey local) t t)) d))
  end.

(** [if t.IsZero() { t = time.Now().UTC() }]. *)
Definition or_now (t : Time) : DB Time := if IsZero t then now else mret t.

Definition UpsertPeer (peerID displayName : string) (seenAt : Time) : DB () :=
  let peerID := TrimSpace peerID in
  if decide (peerID = EmptyString) then throw (ErrRequired "peer id") else
  let displayName := TrimSpace displayName in
  let displayName := if decide (displayName = EmptyString) then peerID else displayName in
  seenAt ← or_now seenAt;
  t ← nowUTC;
  exec "upsert peer" (λ d, Ok ((), with_peers
    (upsert peerID (mkPeerRow displayName (formatTime seenAt) t t)
       (λ old, mkPeerRow displayName (formatTime seenAt) (pr_created_at old) t)) d)).

Record Peer : Type := mkPeer {
  peer_PeerID : string; peer_DisplayName : string; peer_LastSeen : Time;
  peer_CreatedAt : Time; peer_UpdatedAt : Time
}.

Definition scanPeer (row : string * peer_row) : Peer :=
  mkPeer row.1 (pr_display_name row.2) (mustParseTime (pr_last_seen row.2))
    (mustParseTime (pr_created_at row.2)) (mustParseTime (pr_updated_at row.2)).

Definition ListPeers : DB (list Peer) :=
  rows ← query "query peers" "iterate peers" (λ d, order_by fst (map_to_list (db_peers d)));
  mret (scanPeer <$> rows).

(** ** Groups *)

Definition UpsertGroup (groupID name : string) (createdAt : Time) : DB () :=
  let groupID := TrimSpace groupID in
  if decide (groupID = EmptyString) then throw (ErrRequired "group id") else
  let name := TrimSpace name in
  if decide (name = EmptyString) then throw (ErrRequired "group name") else
  createdAt ← or_now createdAt;
  t ← nowUTC;
  exec "upsert group" (λ d, Ok ((), with_groups
    (upsert groupID (mkGroupRow name (formatTime createdAt) t)
       (λ old, mkGroupRow name (gr_created_at old) t)) d)).

Definition SetGroupMembership (groupID peerID : string) (joinedAt : Time) (active : bool)
    (lastSeen : Time) : DB () :=
  let groupID := TrimSpace groupID in
  let peerID := TrimSpace peerID in
  if decide (groupID = EmptyString) then throw (ErrRequired "group id") else
  if decide (peerID = EmptyString) then throw (ErrRequired "peer id") else
  joinedAt ← or_now joinedAt;
  let lastSeen := if IsZero lastSeen then joinedAt else lastSeen in
  let activeFlag := if active then 1 else 0 in
  _ ← UpsertPeer peerID peerID lastSeen;
  t ← nowUTC;
  exec "upsert group membership" (λ d,
    match db_groups d !! groupID with
    | None => Err "FOREIGN KEY constraint failed"
    | Some _ => Ok ((), with_memberships
        (upsert (groupID, peerID)
           (mkMembershipRow (formatTime joinedAt) activeFlag (formatTime lastSeen) t)
           (λ old, mkMembershipRow (mr_joined_at old) activeFlag (formatTime lastSeen) t)) d)
    end).

(** Its two statements, with what comes before each: another caller can run
    between them.  The peer is still there then, since no statement deletes one. *)
Definition SetGroupMembership_peer (groupID peerID : string) (joinedAt lastSeen : Time) : DB (Time * Time) :=
  let groupID := TrimSpace groupID in
  let peerID := TrimSpace peerID in
  if decide (groupID = EmptyString) then throw (ErrRequired "group id") else
  if decide (peerID = EmptyString) then throw (ErrRequired "peer id") else
  joinedAt ← or_now joinedAt;
  let lastSeen := if IsZero lastSeen then joinedAt else lastSeen in
  _ ← UpsertPeer peerID peerID lastSeen;
  mret (joinedAt, lastSeen).

Definition SetGroupMembership_row (groupID peerID : string) (joinedAt : Time) (active : bool)
    (lastSeen : Time) : DB () :=
  let groupID := TrimSpace groupID in
  let peerID := TrimSpace peerID in
  let activeFlag := if active then 1 else 0 in
  t ← nowUTC;
  exec "upsert group membership" (λ d,
    match db_groups d !! groupID with
    | None => Err "FOREIGN KEY constraint failed"
    | Some _ => Ok ((), with_memberships
        (upsert (groupID, peerID)
           (mkMembershipRow (formatTime joinedAt) activeFlag (formatTime lastSeen) t)
           (λ old, mkMembershipRow (mr_joined_at old) activeFlag (formatTime lastSeen) t)) d)
    end).

Record Group : Type := mkStoredGroup {
  sg_GroupID : string; sg_Name : string; sg_CreatedAt : Time; sg_UpdatedAt : Time
}.

Definition scanGroup (row : string * group_row) : Group :=
  mkStoredGroup row.1 (gr_name row.2) (mustParseTime (gr_created_at row.2))
    (mustParseTime (gr_updated_at row.2)).

Definition ListGroups : DB (list Group) :=
  rows ← query "query groups" "iterate groups" (λ d, order_by fst (map_to_list (db_groups d)));
  mret (scanGroup <$> rows).

Definition GetGroup (groupID : string) : DB Group :=
  let groupID := TrimSpace groupID in
  if decide (groupID = EmptyString) then throw (ErrRequired "group id") else
  r ← query_row (λ d, db_groups d !! groupID);
  match r with
  | Ok row => mret (scanGroup (groupID, row))
  | Err NoRows => throw ErrNoRows
  | Err x => throw (classifyDBError "get group" x)
  end.

(** [DELETE FROM groups] with the cascade on the memberships; the rows affected. *)
Definition delete_group_row (groupID : string) (d : Database) : Z * Database :=
  match db_groups d !! groupID with
  | None => (0, d)
  | Some _ => (1, with_memberships (filter (λ kv, kv.1.1 ≠ groupID))
                    (with_groups (delete groupID) d))
  end.

Definition DeleteGroup (groupID : string) : DB () :=
  let groupID := TrimSpace groupID in
  if decide (groupID = EmptyString) then throw (ErrRequired "group id") else
  res ← exec "delete group" (λ d, Ok (delete_group_row groupID d));
  affected ← rows_affected "check delete group rows" res;
  if affected =? 0 then throw ErrNoRows else mret ().

Record GroupMembership : Type := mkGroupMembership {
  gms_GroupID : string; gms_PeerID : string; gms_JoinedAt : Time; gms_Active : bool;
  gms_LastSeen : Time; gms_UpdatedAt : Time
}.

Definition scanMembership (row : (string * string) * membership_row) : GroupMembership :=
  mkGroupMembership row.1.1 row.1.2 (mustParseTime (mr_joined_at row.2)) (mr_active row.2 =? 1)
    (mustParseTime (mr_last_seen row.2)) (mustParseTime (mr_updated_at row.2)).

Definition member_rows (groupID : string) (d : Database) : list ((string * string) * membership_row) :=
  order_by (λ row, row.1.2) (filter (λ row, row.1.1 = groupID) (map_to_list (db_memberships d))).

Definition ListGroupMembers (groupID : string) : DB (list GroupMembership) :=
  let groupID := TrimSpace groupID in
  if decide (groupID = EmptyString) then throw (ErrRequired "group id") else
  rows ← query "query group members" "iterate group members" (member_rows groupID);
  mret (scanMembership <$> rows).

(** ** Messages *)

Definition DirectionInbound : string := "inbound".
Definition DirectionOutbound : string := "outbound".
Definition StatusPending : string := "pending".
Definition StatusSent : string := "sent".
Definition StatusReceived : string := "received".
Definition StatusDelivered : string := "delivered".
Definition StatusFailed : string := "failed".

Record StoredMessage : Type := mkStoredMessage {
  stored_Message : Message; stored_Direction : string; stored_Status : string;
  stored_CreatedAt : Time; stored_UpdatedAt : Time
}.

Definition scanStoredMessage (row : string * message_row) : StoredMessage :=
  let r := row.2 in
  mkStoredMessage
    (mkMessage (row_version r) row.1 (row_type r) (row_sender_id r)
       (default EmptyString (row_recipient_id r)) (default EmptyString (row_group_id r))
       (mustParseTime (row_timestamp r)) (row_body r))
    (row_direction r) (row_status r) (mustParseTime (row_created_at r)) (mustParseTime (row_updated_at r)).

Definition message_to_row (m : Message) (direction status t : string) : message_row :=
  mkMessageRow (msg_Version m) (msg_Type m) (msg_SenderID m) (nullIfEmpty (msg_RecipientID m))
    (nullIfEmpty (msg_GroupID m)) (formatTime (msg_Timestamp m)) (msg_Body m) direction status t t.

Definition InsertMessage (message : Message) (direction status : string) : DB () :=
  match Validate message with
  | Err x => throw (ErrInvalidMessage x)
  | Ok _ =>
      let direction := if decide (direction = EmptyString) then DirectionInbound else direction in
      let status := if decide (status = EmptyString) then StatusPending else status in
      t ← nowUTC;
      r ← run (λ d,
        match db_messages d !! msg_ID message with
        | Some _ => Err "UNIQUE constraint failed: messages.message_id"
        | None => Ok ((), with_messages <[msg_ID message := message_to_row message direction status t]> d)
        end);
      match r with
      | Ok _ => mret ()
      | Err x => if isDuplicateErr x then throw ErrDuplicateMessage
                 else throw (classifyDBError "insert message" x)
      end
  end.

Definition set_status (status t : string) (r : message_row) : message_row :=
  mkMessageRow (row_version r) (row_type r) (row_sender_id r) (row_recipient_id r) (row_group_id r)
    (row_timestamp r) (row_body r) (row_direction r) status (row_created_at r) t.

Definition UpdateMessageStatus (messageID status : string) : DB () :=
  let messageID := TrimSpace messageID in
  if decide (messageID = EmptyString) then throw (ErrRequired "message id") else
  if decide (status = EmptyString) then throw (ErrRequired "message status") else
  t ← nowUTC;
  res ← exec "update message status" (λ d,
    match db_messages d !! messageID with
    | None => Ok (0, d)
    | Some r => Ok (1, with_messages <[messageID := set_status status t r]> d)
    end);
  affected ← rows_affected "check status update rows" res;
  if affected =? 0 then throw ErrNoRows else mret ().

Definition GetMessage (messageID : string) : DB StoredMessage :=
  let messageID := TrimSpace messageID in
  if decide (messageID = EmptyString) then throw (ErrRequired "message id") else
  r ← query_row (λ d, db_messages d !! messageID);
  match r with
  | Ok row => mret (scanStoredMessage (messageID, row))
  | Err x => throw (classifyDBError "scan message" x)
  end.

(** [ORDER BY timestamp ASC, message_id ASC]: the timestamps compare as text. *)
Definition row_le (a b : string * message_row) : Prop :=
  if decide (row_timestamp a.2 = row_timestamp b.2) then String.le a.1 b.1
  else String.le (row_timestamp a.2) (row_timestamp b.2).
#[global] Instance row_le_dec a b : Decision (row_le a b).
Proof. unfold row_le. case_decide; apply _. Defined.

(** The rows a predicate selects, ordered and cut at [LIMIT]. *)
Definition select_messages (p : message_row → bool) (limit : Z) (d : Database)
  : list (string * message_row) :=
  take (Z.to_nat limit)
    (merge_sort row_le (filter (λ row, p row.2 = true) (map_to_list (db_messages d)))).

Definition is_direct (a b : string) (r : message_row) : bool :=
  bool_decide (row_group_id r = None) &&
  (bool_decide (row_sender_id r = a ∧ row_recipient_id r = Some b) ||
   bool_decide (row_sender_id r = b ∧ row_recipient_id r = Some a)).

Definition in_group (g : string) (r : message_row) : bool := bool_decide (row_group_id r = Some g).

Definition default_limit (limit : Z) : Z := if limit <=? 0 then 100 else limit.

Definition ListDirectConversation (localPeerID remotePeerID : string) (limit : Z)
  : DB (list StoredMessage) :=
  let localPeerID := TrimSpace localPeerID in
  let remotePeerID := TrimSpace remotePeerID in
  if decide (localPeerID = EmptyString ∨ remotePeerID = EmptyString)
  then throw (ErrRequired "both local and remote peer ids") else
  rows ← query "query direct conversation" "iterate direct conversation"
           (select_messages (is_direct localPeerID remotePeerID) (default_limit limit));
  mret (scanStoredMessage <$> rows).

Definition ListGroupConversation (groupID : string) (limit : Z) : DB (list StoredMessage) :=
  let groupID := TrimSpace groupID in
  if decide (groupID = EmptyString) then throw (ErrRequired "group id") else
  rows ← query "query group conversation" "iterate group conversation"
           (select_messages (in_group groupID) (default_limit limit));
  mret (scanStoredMessage <$> rows).

(** ** Specifications *)

(** An environment in which the driver refuses nothing. *)
Definition no_fault (e : Env) : Prop := ∀ n, env_fault e n = None.

Definition key_ok (k : string) : Prop := trimmed k ∧ k ≠ EmptyString.

(** The tables as the operations keep them. *)
Record wf_database (d : Database) : Prop := {
  wfd_peers : ∀ p r, db_peers d !! p = Some r → key_ok p ∧ key_ok (pr_display_name r);
  wfd_groups : ∀ g r, db_groups d !! g = Some r → key_ok g ∧ key_ok (gr_name r);
  wfd_members : ∀ g p r, db_memberships d !! (g, p) = Some r →
    is_Some (db_groups d !! g) ∧ is_Some (db_peers d !! p) ∧ (mr_active r = 0 ∨ mr_active r = 1);
  wfd_messages : ∀ i r, db_messages d !! i = Some r →
    TrimSpace i ≠ EmptyString ∧ row_version r = 1 ∧
    TrimSpace (row_sender_id r) ≠ EmptyString ∧ TrimSpace (row_body r) ≠ EmptyString ∧
    row_direction r ≠ EmptyString ∧ row_status r ≠ EmptyString ∧
    (∀ x, row_recipient_id r = Some x → key_ok x) ∧ (∀ x, row_group_id r = Some x → key_ok x)
}.

(** An operation keeps a property of the tables whether it succeeds or not. *)
Definition keeps {A} (P : Database → Prop) (m : DB A) : Prop :=
  ∀ e w, P (w_db w) → P (w_db (m e w).2).

(** An operation that only reads. *)
Definition reads {A} (m : DB A) : Prop := ∀ e w, w_db (m e w).2 = w_db w.

(** An operation that fails leaves the tables alone. *)
Definition atomic {A} (m : DB A) : Prop :=
  ∀ e w, match m e w with (Ok _, _) => True | (Err _, w') => w_db w' = w_db w end.

(** The same environment, with nothing refused. *)
Definition unrefused (e : Env) : Env := mkEnv (env_clock e) (λ _, None).

(** The message as it comes back: the peers and groups are stored trimmed, and
    an empty one as [NULL]. *)
Definition stored_form (m : Message) : Message :=
  mkMessage (msg_Version m) (msg_ID m) (msg_Type m) (msg_SenderID m)
    (TrimSpace (msg_RecipientID m)) (TrimSpace (msg_GroupID m)) (msg_Timestamp m) (msg_Body m).

(** Rows that a bounded query may answer: the first ones, in order, of those
    that match. *)
Definition first_rows (p : message_row → bool) (limit : nat) (d : Database)
    (rows : list (string * message_row)) : Prop :=
  ∃ rest, rows ++ rest ≡ₚ filter (λ row, p row.2 = true) (map_to_list (db_messages d)) ∧
    StronglySorted row_le (rows ++ rest) ∧
    (length rows = limit ∨ rest = []) ∧ (length rows ≤ limit)%nat.

(** Two messages of one conversation within the same second. *)
Definition calm : Env := mkEnv (λ n, unix_epoch + Z.of_nat n) (λ _, None).
Definition first_message : Message :=
  mkMessage 1 "m1" TypeChat "alice" "bob" EmptyString unix_epoch "first".
Definition second_message : Message :=
  mkMessage 1 "m2" TypeChat "bob" "alice" EmptyString (unix_epoch + 500000000) "second".
Definition two_messages : World :=
  ((_ ← InsertMessage first_message DirectionInbound StatusReceived;
    InsertMessage second_message DirectionInbound StatusReceived) calm (mkWorld emptyDatabase 0)).2.

Definition message_ids (r : result db_error (list StoredMessage)) : result db_error (list string) :=
  match r with Ok l => Ok ((λ s, msg_ID (stored_Message s)) <$> l) | Err x => Err x end.

(** A database with one group of one member. *)
Definition one_group : World :=
  ((_ ← UpsertGroup "room" "Room" 5; SetGroupMembership "room" "bob" 6 true 7) calm
     (mkWorld emptyDatabase 0)).2.

(** The operations by name, for histories. *)
Inductive op : Type :=
  | OpInitialize (verdict : string)
  | OpUpsertIdentity (local : Identity.Identity)
  | OpUpsertPeer (peerID displayName : string) (seenAt : Time)
  | OpUpsertGroup (groupID name : string) (createdAt : Time)
  | OpSetGroupMembership (groupID peerID : string) (joinedAt : Time) (active : bool) (lastSeen : Time)
  | OpDeleteGroup (groupID : string)
  | OpInsertMessage (message : Message) (direction status : string)
  | OpUpdateMessageStatus (messageID status : string).

Definition run_op (o : op) : DB () :=
  match o with
  | OpInitialize v => initialize v
  | OpUpsertIdentity l => UpsertIdentityMetadata l
  | OpUpsertPeer p n t => UpsertPeer p n t
  | OpUpsertGroup g n t => UpsertGroup g n t
  | OpSetGroupMembership g p j a l => SetGroupMembership g p j a l
  | OpDeleteGroup g => DeleteGroup g
  | OpInsertMessage m d s => InsertMessage m d s
  | OpUpdateMessageStatus i s => UpdateMessageStatus i s
  end.

(** The statement took its whole effect and the driver refused to say how many
    rows it affected. *)
Definition uncounted (check : string) (o : op) (e : Env) (x : db_error) (w w' : World) : Prop :=
  (∃ text, x = classifyDBError check (DriverError text)) ∧ w_db w' = w_db (run_op o (unrefused e) w).2.

(** What an operation that failed with [x] left of the tables. *)
Definition after_failure (o : op) (e : Env) (x : db_error) (w w' : World) : Prop :=
  match o with
  | OpInitialize _ => True
  | OpSetGroupMembership _ _ _ _ _ => w_db w' = with_peers (λ _, db_peers (w_db w')) (w_db w)
  | OpDeleteGroup _ => w_db w' = w_db w ∨ uncounted "check delete group rows" o e x w w'
  | OpUpdateMessageStatus _ _ => w_db w' = w_db w ∨ uncounted "check status update rows" o e x w w'
  | _ => w_db w' = w_db w
  end.

Definition db_step (d d' : Database) : Prop :=
  ∃ o e n, d' = w_db (run_op o e (mkWorld d n)).2.
Definition db_reachable : Database → Prop := reachable (λ d, d = emptyDatabase) db_step.

End Storage.

Import Storage.

(** ** Operations that keep a property of the tables *)

Section Keeps.
Context (P : Database → Prop).

Lemma keeps_ret {A} (a : A) : keeps P (mret a).
Proof. intros e w H. exact H. Qed.

Lemma keeps_throw {A} x : keeps P (throw (A:=A) x).
Proof. intros e w H. exact H. Qed.

Lemma keeps_now : keeps P now.
Proof. intros e w H. exact H. Qed.

Lemma keeps_bind {A B} (m : DB A) (f : A → DB B) : keeps P m → (∀ a, keeps P (f a)) →
  keeps P (m ≫= f).
Proof.
  intros Hm Hf e w HP. specialize (Hm e w HP). unfold mbind, DB_bind.
  destruct (m e w) as [[a|x] w']; [|done]. by apply Hf.
Qed.

Lemma keeps_nowUTC : keeps P nowUTC.
Proof. apply keeps_bind; [apply keeps_now|intros; apply keeps_ret]. Qed.

Lemma keeps_run {A} (stmt : Database → result string (A * Database)) :
  (∀ d a d', P d → stmt d = Ok (a, d') → P d') → keeps P (run stmt).
Proof.
  intros H e w HP. unfold run. destruct (env_fault e (w_step w)); [done|].
  destruct (stmt (w_db w)) as [[a d]|] eqn:E; [|done]. by eapply H.
Qed.

Lemma keeps_exec {A} name (stmt : Database → result string (A * Database)) :
  (∀ d a d', P d → stmt d = Ok (a, d') → P d') → keeps P (exec name stmt).
Proof.
  intros H. apply keeps_bind; [by apply keeps_run|]. intros [|]; [apply keeps_ret|apply keeps_throw].
Qed.

Lemma keeps_or_now t : keeps P (or_now t).
Proof. unfold or_now. destruct (IsZero t); [apply keeps_now|apply keeps_ret]. Qed.

(** A statement that is a function on the tables. *)
Lemma keeps_exec_total name (f : Database → Database) :
  (∀ d, P d → P (f d)) → keeps P (exec name (λ d, Ok ((), f d))).
Proof. intros H. apply keeps_exec. intros d a d' HP [= _ <-]. auto. Qed.

Lemma keeps_transaction b c (m : DB ()) : keeps P m → keeps P (transaction b c m).
Proof.
  intros Hm e w HP. unfold transaction.
  assert (keeps P (exec b (λ d, Ok ((), d)))) as Hb by (apply (keeps_exec_total _ id); auto).
  specialize (Hb e w HP). destruct (exec b _ e w) as [[[]|x] w1]; [|done].
  specialize (Hm e w1 Hb). destruct (m e w1) as [[[]|x] w2]; [|done].
  assert (keeps P (exec c (λ d, Ok ((), d)))) as Hc by (apply (keeps_exec_total _ id); auto).
  specialize (Hc e w2 Hm). by destruct (exec c _ e w2) as [[[]|x] w3].
Qed.

End Keeps.

#[export] Hint Resolve keeps_ret keeps_throw keeps_now keeps_nowUTC keeps_or_now : skall.

(** Decomposes an operation into its statements. *)
Lemma keeps_rows_affected P name n : keeps P (rows_affected name n).
Proof. apply keeps_exec. by intros ??? ? [= _ <-]. Qed.

Ltac keeps_step :=
  first [ apply keeps_ret | apply keeps_rows_affected | apply keeps_throw | apply keeps_nowUTC | apply keeps_now
        | apply keeps_or_now
        | apply keeps_transaction
        | (apply keeps_exec_total; intros ??)
        | (apply keeps_exec; intros ???? ?)
        | (apply keeps_run; intros ???? ?)
        | (apply keeps_bind; [|intros ?])
        | case_decide | case_match ].

(** ** Queries do not change the tables *)

Lemma keeps_query {A} P o i (f : Database → list A) : keeps P (query o i f).
Proof. unfold query. repeat keeps_step; simplify_eq/=; done. Qed.

Lemma keeps_query_row {A} P (f : Database → option A) : keeps P (query_row f).
Proof. unfold query_row. repeat keeps_step; simplify_eq/=; done. Qed.

Lemma queries_read P :
  keeps P ListPeers ∧ keeps P ListGroups ∧ (∀ g, keeps P (GetGroup g)) ∧
  (∀ g, keeps P (ListGroupMembers g)) ∧ (∀ i, keeps P (GetMessage i)) ∧
  (∀ a b n, keeps P (ListDirectConversation a b n)) ∧ (∀ g n, keeps P (ListGroupConversation g n)).
Proof.
  unfold ListPeers, ListGroups, GetGroup, ListGroupMembers, GetMessage, ListDirectConversation,
    ListGroupConversation.
  repeat split; intros; repeat first [apply keeps_query | apply keeps_query_row | keeps_step].
Qed.

(** ** The invariant of the tables *)

Lemma lookup_upsert {K V} `{Countable K} (k k' : K) (x : V) u m v :
  upsert k x u m !! k' = Some v →
  (k' = k ∧ (v = x ∧ m !! k = None ∨ ∃ old, m !! k = Some old ∧ v = u old)) ∨
  (k' ≠ k ∧ m !! k' = Some v).
Proof.
  unfold upsert. destruct (decide (k' = k)) as [->|Hk].
  - destruct (m !! k) eqn:E; rewrite lookup_insert_eq; intros [= <-]; eauto 7.
  - destruct (m !! k); rewrite lookup_insert_ne by done; auto.
Qed.

Lemma upsert_is_Some {K V} `{Countable K} (k k' : K) (x : V) u m :
  is_Some (m !! k') → is_Some (upsert k x u m !! k').
Proof.
  intros Hs. unfold upsert. destruct (decide (k' = k)) as [->|Hk].
  - destruct (m !! k); rewrite lookup_insert_eq; eauto.
  - destruct (m !! k); by rewrite lookup_insert_ne.
Qed.

Lemma upsert_lookup_eq {K V} `{Countable K} (k : K) (x : V) u m :
  upsert k x u m !! k = Some (default x (u <$> m !! k)).
Proof. unfold upsert. destruct (m !! k); by rewrite lookup_insert_eq. Qed.

Lemma upsert_lookup_ne {K V} `{Countable K} (k k' : K) (x : V) u m :
  k' ≠ k → upsert k x u m !! k' = m !! k'.
Proof. intros. unfold upsert. destruct (m !! k); by rewrite lookup_insert_ne. Qed.

Lemma key_ok_TrimSpace s : TrimSpace s ≠ EmptyString → key_ok (TrimSpace s).
Proof. intros H. split; [apply trimmed_TrimSpace|done]. Qed.

Lemma nullIfEmpty_ok s x : nullIfEmpty s = Some x → key_ok x.
Proof. unfold nullIfEmpty. case_decide; [done|]. intros [= <-]. by apply key_ok_TrimSpace. Qed.

#[export] Hint Resolve key_ok_TrimSpace nullIfEmpty_ok upsert_is_Some : skall.

Lemma wf_upsert_peer p n x u d : key_ok p → key_ok n → wf_database d →
  pr_display_name x = n → (∀ old, pr_display_name (u old) = n) →
  wf_database (with_peers (upsert p x u) d).
Proof.
  intros Hp Hn [Hps Hg Hm Hms] Hx Hu. split; simpl; [|done| |done].
  - intros q r [[-> [[-> _]|(old & _ & ->)]]|[_ H]]%lookup_upsert;
      [by rewrite Hx|by rewrite Hu|by eapply Hps].
  - intros g q r H. destruct (Hm g q r H) as (? & ? & ?). eauto with skall.
Qed.

Lemma wf_upsert_group g n x u d : key_ok g → key_ok n → wf_database d →
  gr_name x = n → (∀ old, gr_name (u old) = n) →
  wf_database (with_groups (upsert g x u) d).
Proof.
  intros Hp Hn [Hps Hg Hm Hms] Hx Hu. split; simpl; [done| | |done].
  - intros q r [[-> [[-> _]|(old & _ & ->)]]|[_ H]]%lookup_upsert;
      [by rewrite Hx|by rewrite Hu|by eapply Hg].
  - intros q p r H. destruct (Hm q p r H) as (? & ? & ?). eauto with skall.
Qed.

Lemma wf_upsert_member g p x u d : is_Some (db_groups d !! g) → is_Some (db_peers d !! p) →
  wf_database d → (mr_active x = 0 ∨ mr_active x = 1) → (∀ old, mr_active (u old) = mr_active x) →
  wf_database (with_memberships (upsert (g, p) x u) d).
Proof.
  intros Hg Hp [Hps Hgs Hm Hms] Hx Hu. split; simpl; [done|done| |done].
  intros g' p' r [[E [[-> _]|(old & _ & ->)]]|[_ H]]%lookup_upsert; [| |by apply Hm];
    injection E as -> ->; [done|]. rewrite Hu. done.
Qed.

Lemma wf_delete_group g d n d' : delete_group_row g d = (n, d') → wf_database d → wf_database d'.
Proof.
  unfold delete_group_row. destruct (db_groups d !! g) eqn:E; [|by intros [= _ <-]].
  intros [= _ <-] [Hps Hgs Hm Hms]. split; simpl; [done| | |done].
  - intros g' r [_ H]%lookup_delete_Some. by apply Hgs.
  - intros g' p r [H Hne]%map_lookup_filter_Some. simpl in Hne.
    rewrite lookup_delete_ne by done. by apply Hm in H.
Qed.

Lemma wf_insert_message m dir st t d : valid_message m → dir ≠ EmptyString → st ≠ EmptyString →
  wf_database d → wf_database (with_messages <[msg_ID m := message_to_row m dir st t]> d).
Proof.
  intros [] Hdir Hst [Hps Hgs Hm Hms]. split; simpl; [done..|].
  intros i r [[<- <-]|[_ H]]%lookup_insert_Some; [|by apply Hms]. simpl.
  split_and!; try done; intros x; apply nullIfEmpty_ok.
Qed.

Lemma wf_set_status i st t r d : db_messages d !! i = Some r → st ≠ EmptyString →
  wf_database d → wf_database (with_messages <[i := set_status st t r]> d).
Proof.
  intros Hr Hst [Hps Hgs Hm Hms]. split; simpl; [done..|].
  intros i' r' [[<- <-]|[_ H]]%lookup_insert_Some; [|by apply Hms].
  destruct (Hms i r Hr) as (? & ? & ? & ? & ? & ? & ? & ?). done.
Qed.

Lemma wf_UpsertPeer p n t : keeps wf_database (UpsertPeer p n t).
Proof.
  unfold UpsertPeer. case_decide as Hp; [apply keeps_throw|].
  repeat keeps_step;
    match goal with |- context [mkPeerRow ?n _ _ _] => apply (wf_upsert_peer _ n) end;
    auto using key_ok_TrimSpace.
Qed.

(** A statement that succeeds was not refused. *)
Lemma exec_Ok {A} name (stmt : Database → result string (A * Database)) e w a w' :
  exec name stmt e w = (Ok a, w') → stmt (w_db w) = Ok (a, w_db w').
Proof.
  unfold exec, run, mbind, DB_bind. destruct (env_fault e (w_step w)); [done|].
  destruct (stmt (w_db w)) as [[b d]|]; [|done]. by intros [= -> <-].
Qed.

Lemma bind_Ok {A B} (m : DB A) (f : A → DB B) e w b w' : (m ≫= f) e w = (Ok b, w') →
  ∃ a w1, m e w = (Ok a, w1) ∧ f a e w1 = (Ok b, w').
Proof. unfold mbind, DB_bind. destruct (m e w) as [[a|] w1]; [eauto|done]. Qed.

Lemma or_now_db t e w : w_db (or_now t e w).2 = w_db w.
Proof. unfold or_now. by destruct (IsZero t). Qed.

Lemma reads_keeps {A} (m : DB A) : (∀ P, keeps P m) → reads m.
Proof. intros H e w. by apply (H (λ d, d = w_db w)). Qed.

Lemma reads_or_now t : reads (or_now t).
Proof. intros e w. apply or_now_db. Qed.

Lemma reads_nowUTC : reads nowUTC.
Proof. done. Qed.

Lemma atomic_reads {A} (m : DB A) : reads m → atomic m.
Proof. intros H e w. specialize (H e w). by destruct (m e w) as [[]]. Qed.

Lemma atomic_bind_reads {A B} (m : DB A) (f : A → DB B) : reads m → (∀ a, atomic (f a)) →
  atomic (m ≫= f).
Proof.
  intros Hm Hf e w. specialize (Hm e w). unfold mbind, DB_bind.
  destruct (m e w) as [[a|] w']; [|done]. cbn [snd] in Hm.
  specialize (Hf a e w'). rewrite Hm in Hf. done.
Qed.

Lemma atomic_exec {A} name (stmt : Database → result string (A * Database)) : atomic (exec name stmt).
Proof.
  intros e w. unfold exec, run, mbind, DB_bind. destruct (env_fault e (w_step w)); [done|].
  by destruct (stmt (w_db w)) as [[a d]|].
Qed.

(** What a successful [UpsertPeer] leaves in the table of peers. *)
Lemma UpsertPeer_Ok p n t e w w' : UpsertPeer p n t e w = (Ok (), w') →
  ∃ last now, w_db w' = with_peers (upsert (TrimSpace p)
    (mkPeerRow (if decide (TrimSpace n = EmptyString) then TrimSpace p else TrimSpace n) last now now)
    (λ old, mkPeerRow (if decide (TrimSpace n = EmptyString) then TrimSpace p else TrimSpace n) last
              (pr_created_at old) now)) (w_db w).
Proof.
  unfold UpsertPeer. case_decide; [done|].
  intros (s & w1 & H1 & (u & w2 & H2 & H3)%bind_Ok)%bind_Ok. apply exec_Ok in H3. injection H3 as <-.
  pose proof (or_now_db t e w) as Hd. rewrite H1 in Hd. pose proof (reads_nowUTC e w1) as Hd2.
  rewrite H2 in Hd2. cbn [snd] in Hd, Hd2. rewrite Hd2, Hd. eauto.
Qed.

Lemma SetGroupMembership_split g p j a l e w : SetGroupMembership g p j a l e w =
  match SetGroupMembership_peer g p j l e w with
  | (Ok (j, l), w) => SetGroupMembership_row g p j a l e w
  | (Err x, w) => (Err x, w)
  end.
Proof.
  unfold SetGroupMembership, SetGroupMembership_peer. do 2 (case_decide; [done|]).
  unfold mbind, DB_bind. destruct (or_now j e w) as [[t|x] w1]; [|done].
  by destruct (UpsertPeer _ _ _ e w1) as [[[]|x] w2].
Qed.

(** A property of the tables that [UpsertPeer] keeps. *)
Lemma keeps_SetGroupMembership_peer P g p j l : (∀ n t, keeps P (UpsertPeer (TrimSpace p) n t)) →
  keeps P (SetGroupMembership_peer g p j l).
Proof. intros HP. unfold SetGroupMembership_peer. repeat first [apply HP | keeps_step]. Qed.

Lemma SetGroupMembership_peer_Ok g p j l e w x w' : SetGroupMembership_peer g p j l e w = (Ok x, w') →
  is_Some (db_peers (w_db w') !! TrimSpace p) ∧ db_groups (w_db w') = db_groups (w_db w) ∧
  db_memberships (w_db w') = db_memberships (w_db w).
Proof.
  unfold SetGroupMembership_peer. do 2 (case_decide; [done|]).
  intros (t & w1 & H1 & ([] & w2 & H2 & [= <- <-])%bind_Ok)%bind_Ok.
  pose proof (or_now_db j e w) as Hd. rewrite H1 in Hd. cbn [snd] in Hd.
  apply UpsertPeer_Ok in H2 as (last & nw & ->). rewrite Hd, TrimSpace_idem. cbn.
  rewrite upsert_lookup_eq. eauto.
Qed.

Lemma wf_SetGroupMembership_row g p j a l :
  keeps (λ d, wf_database d ∧ is_Some (db_peers d !! TrimSpace p)) (SetGroupMembership_row g p j a l).
Proof.
  apply keeps_bind; [apply keeps_nowUTC|]. intros t. apply keeps_exec.
  intros d [] d' [Hd Hdp]. destruct (db_groups d !! TrimSpace g) eqn:Eg; [|done].
  intros [= <-]. split; [|done]. apply wf_upsert_member; [by eexists|done|done| |done].
  simpl. destruct a; auto.
Qed.

Lemma wf_SetGroupMembership g p j a l : keeps wf_database (SetGroupMembership g p j a l).
Proof.
  intros e w Hw. rewrite SetGroupMembership_split.
  assert (keeps wf_database (SetGroupMembership_peer g p j l)) as Hk
    by (apply keeps_SetGroupMembership_peer; intros; apply wf_UpsertPeer).
  specialize (Hk e w Hw). destruct (SetGroupMembership_peer g p j l e w) as [[[j' l']|x] w1] eqn:E; [|done].
  apply SetGroupMembership_peer_Ok in E as [Hp _].
  exact (proj1 (wf_SetGroupMembership_row g p j' a l' e w1 (conj Hk Hp))).
Qed.

Lemma max_version_keeps P o : keeps P (exec o (λ d, Ok (max_version d, d))).
Proof. apply keeps_exec. by intros ??? ? [= _ <-]. Qed.

(** Opening the database touches only the schema. *)
Lemma wf_schema f d : wf_database d → wf_database (with_schema f d).
Proof. by intros []. Qed.

Lemma wf_identities f d : wf_database d → wf_database (with_identities f d).
Proof. by intros []. Qed.

Lemma wf_migrations f d : wf_database d → wf_database (with_migrations f d).
Proof. by intros []. Qed.

Lemma wf_applyMigration m : keeps wf_database (applyMigration m).
Proof.
  unfold applyMigration. apply keeps_transaction. apply keeps_bind.
  - generalize (mig_version m). induction (mig_upSQL m) as [|s l IH]; intros v; [apply keeps_ret|].
    cbn [run_statements]. apply keeps_bind; [|intros; apply IH].
    apply keeps_exec_total. intros d. apply wf_schema.
  - intros []. apply keeps_bind; [apply keeps_nowUTC|]. intros t. apply keeps_exec.
    intros d [] d' Hd. destruct (db_migrations d !! _); [done|]. intros [= <-]. by apply wf_migrations.
Qed.

Lemma wf_apply_pending v l : keeps wf_database (apply_pending v l).
Proof.
  induction l as [|m l IH]; [apply keeps_ret|]. cbn [apply_pending].
  destruct (_ <=? _); [done|]. apply keeps_bind; [apply wf_applyMigration|by intros []].
Qed.

Lemma wf_applyMigrations : keeps wf_database applyMigrations.
Proof.
  unfold applyMigrations. apply keeps_bind; [apply keeps_exec_total; intros d; apply wf_schema|].
  intros []. apply keeps_bind; [apply max_version_keeps|]. intros v.
  apply keeps_bind; [apply wf_apply_pending|]. intros [].
  apply keeps_bind; [apply max_version_keeps|]. intros v'.
  destruct (_ <? _); [apply keeps_throw|apply keeps_ret].
Qed.

Lemma wf_initialize v : keeps wf_database (initialize v).
Proof.
  unfold initialize, pragma, quickCheck.
  repeat first [apply wf_applyMigrations | keeps_step]; by simplify_eq/=.
Qed.

Lemma wf_run_op o : keeps wf_database (run_op o).
Proof.
  destruct o; cbn [run_op]; [apply wf_initialize| |apply wf_UpsertPeer| |apply wf_SetGroupMembership| | |].
  - unfold UpsertIdentityMetadata. repeat keeps_step. by apply wf_identities.
  - unfold UpsertGroup. do 2 (case_decide; [apply keeps_throw|]). repeat keeps_step.
    apply (wf_upsert_group _ (TrimSpace name)); auto using key_ok_TrimSpace.
  - unfold DeleteGroup. repeat keeps_step; simplify_eq/=; by eapply wf_delete_group.
  - unfold InsertMessage. destruct (Validate message) as [[]|] eqn:E; [|apply keeps_throw].
    apply Validate_spec in E. repeat keeps_step; simplify_eq/=; apply wf_insert_message; by try case_decide.
  - unfold UpdateMessageStatus. do 2 (case_decide; [apply keeps_throw|]).
    repeat keeps_step; simplify_eq/=; try done. by apply wf_set_status.
Qed.

Lemma wf_empty : wf_database emptyDatabase.
Proof. split; simpl; intros *; by rewrite lookup_empty. Qed.

(** ** Running without refusals *)

Section Calm.
Context (e : Env) (He : no_fault e).

Lemma run_calm {A} (stmt : Database → result string (A * Database)) w :
  run stmt e w = match stmt (w_db w) with
                 | Ok (a, d) => (Ok (Ok a), mkWorld d (S (w_step w)))
                 | Err t => (Ok (Err (DriverError t)), mkWorld (w_db w) (S (w_step w)))
                 end.
Proof. unfold run. by rewrite He. Qed.

Lemma exec_calm {A} name (stmt : Database → result string (A * Database)) w :
  exec name stmt e w = match stmt (w_db w) with
    | Ok (a, d) => (Ok a, mkWorld d (S (w_step w)))
    | Err t => (Err (classifyDBError name (DriverError t)), mkWorld (w_db w) (S (w_step w)))
    end.
Proof.
  unfold exec, mbind, DB_bind. rewrite run_calm. by destruct (stmt (w_db w)) as [[a d]|t].
Qed.

Lemma query_calm {A} o i (f : Database → list A) w :
  query o i f e w = (Ok (f (w_db w)), mkWorld (w_db w) (S (S (w_step w)))).
Proof.
  unfold query. unfold mbind at 1, DB_bind. rewrite exec_calm.
  unfold mbind, DB_bind. by rewrite exec_calm.
Qed.

Lemma query_row_calm {A} (f : Database → option A) w :
  query_row f e w = (Ok (from_option_err NoRows (f (w_db w))), mkWorld (w_db w) (S (w_step w))).
Proof.
  unfold query_row, mbind, DB_bind. rewrite run_calm. by destruct (f (w_db w)).
Qed.

Lemma rows_affected_calm name n w : rows_affected name n e w = (Ok n, mkWorld (w_db w) (S (w_step w))).
Proof. unfold rows_affected. by rewrite exec_calm. Qed.

Lemma nowUTC_eq w : nowUTC e w = (Ok (formatTime (env_clock e (w_step w))), mkWorld (w_db w) (S (w_step w))).
Proof. done. Qed.

Lemma or_now_eq t w : ∃ t' n, or_now t e w = (Ok t', mkWorld (w_db w) n).
Proof. unfold or_now. destruct (IsZero t); [by eexists _, _|]. destruct w. by eexists _, _. Qed.

(** The outcome of an insertion, on every branch. *)
Lemma InsertMessage_calm m dir st w :
  let dir' := if decide (dir = EmptyString) then DirectionInbound else dir in
  let st' := if decide (st = EmptyString) then StatusPending else st in
  let t := formatTime (env_clock e (w_step w)) in
  InsertMessage m dir st e w =
  match Validate m with
  | Err x => (Err (ErrInvalidMessage x), w)
  | Ok _ =>
      match db_messages (w_db w) !! msg_ID m with
      | Some _ => (Err ErrDuplicateMessage, mkWorld (w_db w) (S (S (w_step w))))
      | None => (Ok (), mkWorld (with_messages <[msg_ID m := message_to_row m dir' st' t]> (w_db w))
                          (S (S (w_step w))))
      end
  end.
Proof.
  unfold InsertMessage. destruct (Validate m); [|done].
  unfold mbind at 1, DB_bind. rewrite nowUTC_eq. unfold mbind, DB_bind. rewrite run_calm. cbn [w_db].
  by destruct (db_messages (w_db w) !! msg_ID m).
Qed.

Lemma UpdateMessageStatus_calm i st w r : trimmed i → i ≠ EmptyString → st ≠ EmptyString →
  db_messages (w_db w) !! i = Some r →
  ∃ w' t, UpdateMessageStatus i st e w = (Ok (), w') ∧
    db_messages (w_db w') = <[i := set_status st t r]> (db_messages (w_db w)).
Proof.
  intros Ht Hi Hst Hr. unfold UpdateMessageStatus. rewrite Ht, !decide_False by done.
  unfold mbind, DB_bind. rewrite nowUTC_eq, exec_calm. cbn [w_db]. rewrite Hr, rows_affected_calm.
  by eexists _, _.
Qed.

(** The outcome of a deletion. *)
Lemma DeleteGroup_calm g w : TrimSpace g ≠ EmptyString →
  DeleteGroup g e w =
    (if decide (is_Some (db_groups (w_db w) !! TrimSpace g)) then Ok () else Err ErrNoRows,
     mkWorld (delete_group_row (TrimSpace g) (w_db w)).2 (S (S (w_step w)))).
Proof.
  intros Hg. unfold DeleteGroup. rewrite decide_False by done. unfold mbind, DB_bind.
  rewrite exec_calm. destruct (delete_group_row (TrimSpace g) (w_db w)) as [n d] eqn:E. rewrite rows_affected_calm.
  cbn [w_db w_step snd]. unfold delete_group_row in E.
  destruct (db_groups (w_db w) !! TrimSpace g) eqn:Eg; injection E as <- <-; cbn;
    [by rewrite decide_True by eauto|]. by rewrite decide_False by (by intros []).
Qed.

End Calm.

(** ** Text columns *)

Lemma mustParse_format t : in_year_range t → mustParseTime (formatTime t) = t.
Proof.
  intros H. unfold mustParseTime, formatTime. rewrite parse_format by done.
  case_decide as E; [|done]. pose proof (parse_format t H) as Hp. by rewrite E in Hp.
Qed.

Lemma default_nullIfEmpty s : default EmptyString (nullIfEmpty s) = TrimSpace s.
Proof. unfold nullIfEmpty. by case_decide. Qed.

(** ** Ordered queries *)

#[global] Instance row_le_trans : Transitive row_le.
Proof.
  intros a b c. unfold row_le.
  destruct (decide (row_timestamp a.2 = row_timestamp b.2)) as [E1|E1];
  destruct (decide (row_timestamp b.2 = row_timestamp c.2)) as [E2|E2];
  destruct (decide (row_timestamp a.2 = row_timestamp c.2)) as [E3|E3]; intros L1 L2; try congruence.
  - by etrans.
  - destruct E1. apply (anti_symm String.le); [done|]. by rewrite E3.
  - by etrans.
Qed.

#[global] Instance row_le_total : Total row_le.
Proof.
  intros a b. unfold row_le. repeat case_decide; try congruence; apply (total String.le).
Qed.

Lemma select_first_rows p limit d : first_rows p (Z.to_nat limit) d (select_messages p limit d).
Proof.
  unfold select_messages. set (l := merge_sort _ _).
  exists (drop (Z.to_nat limit) l). rewrite take_drop. split; [apply merge_sort_Permutation|].
  split; [apply StronglySorted_merge_sort; apply _|]. rewrite length_take. split; [|lia].
  destruct (decide (length l ≤ Z.to_nat limit)%nat); [right; by apply drop_ge|left; lia].
Qed.

Lemma is_direct_sym a b r : is_direct a b r = is_direct b a r.
Proof. unfold is_direct. by rewrite (orb_comm (bool_decide _)). Qed.

Lemma select_messages_ext p q n d : (∀ r, p r = q r) → select_messages p n d = select_messages q n d.
Proof.
  intros H. unfold select_messages. do 2 f_equal. apply list_filter_iff. intros x. by rewrite H.
Qed.

(** ** Properties *)



(** C31: a message that is inserted is read back, when the driver refuses nothing:
    under an ID without surrounding space, and at times of four-digit years,
    [GetMessage] returns it with its timestamp to the nanosecond, the direction and
    status given or their defaults, and the other party trimmed
    ([untrimmed_id_lost]: with space around the ID it is not found). *)
Theorem insert_get m dir st e e' w w' :
  no_fault e' → InsertMessage m dir st e w = (Ok (), w') →
  trimmed (msg_ID m) → in_year_range (msg_Timestamp m) → in_year_range (env_clock e (w_step w)) →
  ∃ w'', GetMessage (msg_ID m) e' w' =
    (Ok (mkStoredMessage (stored_form m)
           (if decide (dir = EmptyString) then DirectionInbound else dir)
           (if decide (st = EmptyString) then StatusPending else st)
           (env_clock e (w_step w)) (env_clock e (w_step w))), w'') ∧ w_db w'' = w_db w'.
Proof.
  intros He' Hi Ht Hr Hc.
  assert (Hid : msg_ID m ≠ EmptyString ∧ db_messages (w_db w') !! msg_ID m = Some (message_to_row m
    (if decide (dir = EmptyString) then DirectionInbound else dir)
    (if decide (st = EmptyString) then StatusPending else st) (formatTime (env_clock e (w_step w))))).
  { revert Hi. unfold InsertMessage. destruct (Validate m) as [[]|] eqn:Ev; [|done].
    apply Validate_spec in Ev. intros (t & w1 & Ht1 & (r & w2 & Hr2 & H3)%bind_Ok)%bind_Ok.
    injection Ht1 as <- <-. revert Hr2. unfold run. cbn [w_step w_db].
    destruct (env_fault e _); [intros [= <- <-]; revert H3; by destruct (isDuplicateErr _)|].
    destruct (db_messages (w_db w) !! msg_ID m) eqn:El; intros [= <- <-]; [by revert H3|].
    injection H3 as <-. split; [apply TrimSpace_nonempty, Ev|]. simpl. by rewrite lookup_insert_eq. }
  destruct Hid as [Hne Hrow]. unfold GetMessage. rewrite Ht. rewrite decide_False by done.
  unfold mbind, DB_bind. rewrite query_row_calm by done. rewrite Hrow. cbn [from_option_err].
  exists (mkWorld (w_db w') (S (w_step w'))). split; [|done].
  unfold scanStoredMessage, message_to_row, stored_form.
  cbn -[mustParseTime formatTime nullIfEmpty TrimSpace env_clock].
  rewrite !mustParse_format by done. by rewrite !default_nullIfEmpty.
Qed.

Lemma insert_get_witness : ∃ w'', GetMessage "m2" calm two_messages =
  (Ok (mkStoredMessage second_message DirectionInbound StatusReceived
         (unix_epoch + 2) (unix_epoch + 2)), w'').
Proof.
  destruct (insert_get second_message DirectionInbound StatusReceived calm calm
    (InsertMessage first_message DirectionInbound StatusReceived calm (mkWorld emptyDatabase 0)).2
    two_messages) as (w'' & H & _); [done|by vm_compute..|].
  exists w''. exact H.
Defined.

(** Message IDs are unique: inserting a valid message under a stored ID is
    refused as a duplicate and changes nothing, any other valid message is
    stored, and an invalid one is refused before the database is used. *)
Theorem InsertMessage_outcome m dir st e w : no_fault e →
  let '(r, w') := InsertMessage m dir st e w in
  match Validate m, db_messages (w_db w) !! msg_ID m with
  | Err x, _ => r = Err (ErrInvalidMessage x) ∧ w' = w
  | Ok _, Some _ => r = Err ErrDuplicateMessage ∧ w_db w' = w_db w
  | Ok _, None => r = Ok () ∧ ∃ row, w_db w' = with_messages <[msg_ID m := row]> (w_db w) ∧
      scanStoredMessage (msg_ID m, row) =
        mkStoredMessage (mkMessage 1 (msg_ID m) (msg_Type m) (msg_SenderID m)
            (TrimSpace (msg_RecipientID m)) (TrimSpace (msg_GroupID m))
            (mustParseTime (formatTime (msg_Timestamp m))) (msg_Body m))
          (row_direction row) (row_status row)
          (mustParseTime (row_created_at row)) (mustParseTime (row_updated_at row))
  end.
Proof.
  intros He. rewrite InsertMessage_calm by done. destruct (Validate m) as [[]|] eqn:Ev; [|done].
  apply Validate_spec in Ev.
  destruct (db_messages (w_db w) !! msg_ID m); [done|]. split; [done|]. eexists. split; [done|].
  unfold scanStoredMessage, message_to_row.
  cbn -[mustParseTime formatTime nullIfEmpty TrimSpace]. rewrite !default_nullIfEmpty.
  by rewrite (vm_version _ Ev).
Qed.

Lemma InsertMessage_outcome_witness :
  (InsertMessage second_message DirectionInbound StatusReceived calm two_messages).1 =
  Err ErrDuplicateMessage.
Proof.
  pose proof (InsertMessage_outcome second_message DirectionInbound StatusReceived calm two_messages
    (λ _, eq_refl)) as H.
  destruct (InsertMessage second_message DirectionInbound StatusReceived calm two_messages) as [r w'].
  destruct (db_messages (w_db two_messages) !! msg_ID second_message) as [row|] eqn:E;
    [|by vm_compute in E].
  exact (proj1 H).
Defined.

(** A direct conversation is the same from both sides and consists of the
    first rows, in the order of timestamp text and ID and at most [limit] (100
    if not positive), of the messages the two exchanged outside groups. *)
Theorem direct_conversation a b limit e w : no_fault e →
  TrimSpace a ≠ EmptyString → TrimSpace b ≠ EmptyString →
  ∃ rows w', ListDirectConversation a b limit e w = (Ok (scanStoredMessage <$> rows), w') ∧
    ListDirectConversation b a limit e w = (Ok (scanStoredMessage <$> rows), w') ∧
    w_db w' = w_db w ∧
    first_rows (is_direct (TrimSpace a) (TrimSpace b)) (Z.to_nat (default_limit limit)) (w_db w) rows.
Proof.
  intros He Ha Hb. exists (select_messages (is_direct (TrimSpace a) (TrimSpace b)) (default_limit limit) (w_db w)).
  eexists. unfold ListDirectConversation. rewrite !decide_False by tauto.
  unfold mbind, DB_bind. rewrite !query_calm by done.
  split; [done|]. split; [|split; [done|apply select_first_rows]].
  by rewrite (select_messages_ext _ (is_direct (TrimSpace a) (TrimSpace b))) by (intros; apply is_direct_sym).
Qed.

Lemma direct_conversation_witness : ∃ rows w',
  ListDirectConversation "alice" "bob" 1 calm two_messages = (Ok (scanStoredMessage <$> rows), w') ∧
  first_rows (is_direct "alice" "bob") 1 (w_db two_messages) rows.
Proof.
  destruct (direct_conversation "alice" "bob" 1 calm two_messages) as (rows & w' & H & _ & _ & Hr);
    [done|by vm_compute..|].
  exists rows, w'. split; [exact H|exact Hr].
Defined.

(** The order of the stored timestamps is not the order of time: fractions
    of a second are written without trailing zeros, so a message half a second
    later than one on the full second is listed before it, and with a limit of
    one it is the one returned. *)
Theorem conversation_out_of_order :
  msg_Timestamp first_message < msg_Timestamp second_message ∧
  message_ids (ListDirectConversation "alice" "bob" 10 calm two_messages).1 = Ok ["m2"; "m1"] ∧
  message_ids (ListDirectConversation "alice" "bob" 1 calm two_messages).1 = Ok ["m2"].
Proof. split; [done|]. split; vm_compute; reflexivity. Qed.

(** Deleting a group removes its row and all its memberships, and nothing
    else: other groups keep their members, and the messages stay. *)
Theorem DeleteGroup_cascade g e w w' : no_fault e → DeleteGroup g e w = (Ok (), w') →
  db_groups (w_db w') = delete (TrimSpace g) (db_groups (w_db w)) ∧
  member_rows (TrimSpace g) (w_db w') = [] ∧
  (∀ g' p, g' ≠ TrimSpace g →
     db_memberships (w_db w') !! (g', p) = db_memberships (w_db w) !! (g', p)) ∧
  db_messages (w_db w') = db_messages (w_db w) ∧ db_peers (w_db w') = db_peers (w_db w).
Proof.
  intros He. destruct (decide (TrimSpace g = EmptyString)) as [Hg|Hg]; [unfold DeleteGroup; by rewrite decide_True by done|].
  rewrite DeleteGroup_calm by done. case_decide as Hs; [|done]. intros [= <-]. cbn [w_db].
  unfold delete_group_row. destruct Hs as [row ->]. simpl. split_and!; try done.
  - unfold member_rows, order_by.
    match goal with |- merge_sort _ ?l = [] => assert (l = []) as -> end; [|done].
    apply elem_of_nil_inv. intros [[g' p] r] [Hr Hin]%list_elem_of_filter. simpl in Hr. subst.
    apply elem_of_map_to_list in Hin. simpl in Hin. by apply map_lookup_filter_Some in Hin as [_ ?].
  - intros g' p Hg'. apply option_eq. intros r. rewrite map_lookup_filter_Some. simpl. naive_solver.
Qed.

Lemma DeleteGroup_cascade_witness :
  member_rows "room" (w_db (DeleteGroup " room" calm one_group).2) = [].
Proof.
  destruct (DeleteGroup " room" calm one_group) as [r w'] eqn:E.
  assert (r = Ok ()) as ->.
  { change r with (r, w').1. rewrite <- E. vm_compute. reflexivity. }
  exact (proj1 (proj2 (DeleteGroup_cascade " room" calm one_group w' (λ _, eq_refl) E))).
Defined.

(** A statement followed by the count of its rows: it fails without effect, or
    the count does, or no row was affected. *)
Lemma counted name check (stmt : Database → result string (Z * Database)) e w :
  (∀ d d', stmt d = Ok (0, d') → d' = d) →
  match (res ← exec name stmt; n ← rows_affected check res; if n =? 0 then throw ErrNoRows else mret ()) e w with
  | (Ok _, _) => True
  | (Err x, w') => w_db w' = w_db w ∨
      (∃ text, x = classifyDBError check (DriverError text)) ∧ ∃ n, stmt (w_db w) = Ok (n, w_db w')
  end.
Proof.
  intros Hz. unfold mbind, DB_bind. pose proof (atomic_exec name stmt e w) as Ha.
  destruct (exec name stmt e w) as [[n|x] w1] eqn:E; [|by left]. apply exec_Ok in E.
  unfold rows_affected, exec, run, mbind, DB_bind. destruct (env_fault e (w_step w1)) as [text|]; cbn.
  - right. split; [by exists text|by exists n].
  - destruct (Z.eqb_spec n 0) as [->|]; cbn; [left; by apply Hz|done].
Qed.

Lemma uncounted_delete g e w : match DeleteGroup g e w with (Ok _, _) => True
  | (Err x, w') => w_db w' = w_db w ∨ uncounted "check delete group rows" (OpDeleteGroup g) e x w w' end.
Proof.
  unfold uncounted. cbn [run_op]. destruct (decide (TrimSpace g = EmptyString)) as [Hg|Hg].
  { unfold DeleteGroup. rewrite decide_True by done. by left. }
  rewrite (DeleteGroup_calm (unrefused e)) by done. cbn [snd w_db]. unfold DeleteGroup. rewrite decide_False by done.
  match goal with |- context [exec ?n ?f] => pose proof (counted n "check delete group rows" f e w) as H end.
  match goal with |- match ?m with _ => _ end => destruct m as [[[]|x] w'] end; [done|]. destruct H as [H|(Ht & n & Hn)].
  - intros d d'. unfold delete_group_row. by destruct (db_groups d !! TrimSpace g); intros [= <-].
  - by left.
  - right. split; [done|]. by injection Hn as ->.
Qed.

Lemma after_now {B} (f : string → DB B) e w :
  (nowUTC ≫= f) e w = f (formatTime (env_clock e (w_step w))) e (mkWorld (w_db w) (S (w_step w))).
Proof. done. Qed.

Lemma uncounted_update i st e w : match UpdateMessageStatus i st e w with (Ok _, _) => True
  | (Err x, w') => w_db w' = w_db w ∨ uncounted "check status update rows" (OpUpdateMessageStatus i st) e x w w' end.
Proof.
  unfold uncounted. cbn [run_op]. unfold UpdateMessageStatus.
  case_decide; [by left|]. case_decide; [by left|].
  rewrite !after_now.
  change (formatTime (env_clock (unrefused e) (w_step w))) with (formatTime (env_clock e (w_step w))).
  match goal with |- context [exec ?n ?f] => pose proof (counted n "check status update rows" f e
    (mkWorld (w_db w) (S (w_step w)))) as Hc; set (stmt := f) in * end.
  match goal with |- match ?m with _ => _ end => destruct m as [[[]|x] w'] end; [done|]. destruct Hc as [Hc|(Ht & n & Hn)].
  - intros d d'. unfold stmt. by destruct (db_messages d !! TrimSpace i); intros [= <-].
  - by left.
  - right. split; [done|]. unfold mbind, DB_bind. rewrite exec_calm by done. cbn [w_db] in Hn |- *.
    rewrite Hn, rows_affected_calm by done. cbn. by destruct (n =? 0).
Qed.

Lemma only_peers p n t e w :
  w_db (UpsertPeer p n t e w).2 = with_peers (λ _, db_peers (w_db (UpsertPeer p n t e w).2)) (w_db w).
Proof.
  unfold UpsertPeer. destruct (decide _); [cbn; by destruct (w_db w)|]. unfold mbind, DB_bind.
  destruct (or_now_eq e t w) as (t' & k & ->). rewrite nowUTC_eq.
  unfold exec, run, mbind, DB_bind. cbn. destruct (env_fault e _); cbn; by destruct (w_db w).
Qed.

Lemma failed_membership g p j a l e w : match SetGroupMembership g p j a l e w with (Ok _, _) => True
  | (Err x, w') => w_db w' = with_peers (λ _, db_peers (w_db w')) (w_db w) end.
Proof.
  assert (Hself : ∀ d, d = with_peers (λ _, db_peers d) d) by (by intros []).
  unfold SetGroupMembership. do 2 (case_decide; [apply Hself|]). unfold mbind, DB_bind.
  destruct (or_now_eq e j w) as (t & n & ->).
  set (w1 := mkWorld (w_db w) n). change (w_db w) with (w_db w1).
  pose proof (only_peers (TrimSpace p) (TrimSpace p) (if IsZero l then t else l) e w1) as Hp.
  destruct (UpsertPeer _ _ _ e w1) as [[[]|x] w2]; [|exact Hp].
  rewrite nowUTC_eq. match goal with |- context [exec ?nm ?f e ?w0] => pose proof (atomic_exec nm f e w0) as H1;
    destruct (exec nm f e w0) as [[]] end; [done|]. rewrite H1. exact Hp.
Qed.

(** C39: what a failing operation other than opening leaves behind, whatever the
    reason of the failure.  Storing an identity, a peer, a group or a message
    leaves the tables unchanged.  Deleting a group and changing a status do too,
    unless the driver takes the statement and refuses to count its rows: then the
    error is about the count, and the statement has had its whole effect.
    [SetGroupMembership] changes no table but the peers. *)
Theorem operations_atomic o e w :
  match run_op o e w with (Ok _, _) => True | (Err x, w') => after_failure o e x w w' end.
Proof.
  destruct o; cbn [run_op after_failure]; [by destruct (initialize _ _ _) as [[]]| | | | | | |].
  - cut (atomic (UpsertIdentityMetadata local)); [intros H; apply H|]. unfold UpsertIdentityMetadata. destruct (Identity.Validate local); [|done].
    apply atomic_bind_reads; [apply reads_nowUTC|]. intros. apply atomic_exec.
  - cut (atomic (UpsertPeer peerID displayName seenAt)); [intros H; apply H|]. unfold UpsertPeer. case_decide; [done|].
    apply atomic_bind_reads; [apply reads_or_now|]. intros t.
    apply atomic_bind_reads; [apply reads_nowUTC|]. intros. apply atomic_exec.
  - cut (atomic (UpsertGroup groupID name createdAt)); [intros H; apply H|]. unfold UpsertGroup. do 2 (case_decide; [done|]).
    apply atomic_bind_reads; [apply reads_or_now|]. intros t.
    apply atomic_bind_reads; [apply reads_nowUTC|]. intros. apply atomic_exec.
  - apply failed_membership.
  - apply uncounted_delete.
  - cut (atomic (InsertMessage message direction status)); [intros H; apply H|]. unfold InsertMessage. destruct (Validate message); [|done].
    apply atomic_bind_reads; [apply reads_nowUTC|]. intros t ? w1. unfold mbind, DB_bind, run.
    destruct (env_fault _ (w_step w1)); [by destruct (isDuplicateErr _)|].
    by destruct (db_messages (w_db w1) !! msg_ID message).
  - apply uncounted_update.
Qed.

(** A deletion that is reported as failed and took place. *)
Example uncounted_deletion :
  let e := mkEnv (env_clock calm) (λ n, if (n =? S (w_step one_group))%nat then Some "no count" else None) in
  let '(r, w) := DeleteGroup "room" e one_group in
  r = Err (DBError "check delete group rows" (DriverError "no count")) ∧ db_groups (w_db w) !! "room" = None.
Proof. by vm_compute. Qed.

(** [SetGroupMembership] is not atomic: for a group that does not exist it fails,
    but it has recorded the peer, with its ID as display name, and an existing
    display name is overwritten. *)
Theorem SetGroupMembership_partial g p j a l e w : no_fault e →
  TrimSpace g ≠ EmptyString → TrimSpace p ≠ EmptyString →
  db_groups (w_db w) !! TrimSpace g = None →
  ∃ w' row, SetGroupMembership g p j a l e w =
      (Err (DBError "upsert group membership" (DriverError "FOREIGN KEY constraint failed")), w') ∧
    db_peers (w_db w') !! TrimSpace p = Some row ∧ pr_display_name row = TrimSpace p.
Proof.
  intros He Hg Hp Hn. unfold SetGroupMembership. rewrite !decide_False by done.
  destruct (or_now_eq e j w) as (j' & n & Hj). unfold mbind at 1, DB_bind. rewrite Hj.
  unfold mbind at 1, DB_bind. set (w1 := mkWorld (w_db w) n).
  destruct (UpsertPeer (TrimSpace p) (TrimSpace p) (if IsZero l then j' else l) e w1) as [[[]|x] w2] eqn:Eu.
  - apply UpsertPeer_Ok in Eu as (last & nw & Eu). rewrite !TrimSpace_idem in Eu.
    rewrite decide_False in Eu by done.
    unfold mbind, DB_bind. rewrite nowUTC_eq. rewrite exec_calm by done. cbn [w_db].
    assert (db_groups (w_db w2) = db_groups (w_db w)) as -> by (by rewrite Eu).
    rewrite Hn. eexists _, _. split; [done|]. cbn [w_db]. rewrite Eu. cbn [db_peers with_peers].
    rewrite upsert_lookup_eq. split; [done|].
    by destruct (db_peers (w_db w1) !! TrimSpace p).
  - exfalso. revert Eu. unfold UpsertPeer. rewrite TrimSpace_idem, decide_False by done.
    destruct (or_now_eq e (if IsZero l then j' else l) w1) as (s & k & Hs).
    unfold mbind, DB_bind. rewrite Hs, nowUTC_eq. by rewrite exec_calm.
Qed.

Lemma SetGroupMembership_partial_witness :
  is_ok (SetGroupMembership "nowhere" "bob" 6 true 7 calm one_group).1 = false.
Proof.
  destruct (SetGroupMembership_partial "nowhere" "bob" 6 true 7 calm one_group)
    as (w' & row & H & _); [done|by vm_compute..|]. by rewrite H.
Defined.

(** [InsertMessage] and the other operations disagree on message IDs: a
    message whose ID has surrounding space is stored under that ID, but
    [GetMessage] and [UpdateMessageStatus] look for the trimmed one. *)
Theorem untrimmed_id_lost m dir st e e' w w' status : no_fault e' →
  InsertMessage m dir st e w = (Ok (), w') → ¬ trimmed (msg_ID m) → status ≠ EmptyString →
  db_messages (w_db w) !! TrimSpace (msg_ID m) = None →
  (GetMessage (msg_ID m) e' w').1 = Err (DBError "scan message" NoRows) ∧
  (UpdateMessageStatus (msg_ID m) status e' w').1 = Err ErrNoRows.
Proof.
  intros He' Hi Ht Hst Hn. unfold trimmed in Ht.
  assert (Hid : TrimSpace (msg_ID m) ≠ EmptyString ∧ db_messages (w_db w') !! TrimSpace (msg_ID m) = None).
  { revert Hi. unfold InsertMessage. destruct (Validate m) as [[]|] eqn:Ev; [|done].
    apply Validate_spec in Ev. intros (t & w1 & Ht1 & (r & w2 & Hr2 & H3)%bind_Ok)%bind_Ok.
    injection Ht1 as <- <-. revert Hr2. unfold run. cbn [w_step w_db].
    destruct (env_fault e _); [intros [= <- <-]; revert H3; by destruct (isDuplicateErr _)|].
    destruct (db_messages (w_db w) !! msg_ID m) eqn:El; intros [= <- <-]; [by revert H3|].
    injection H3 as <-. split; [apply Ev|]. simpl. by rewrite lookup_insert_ne. }
  destruct Hid as [Hne Hrow]. split.
  - unfold GetMessage. rewrite decide_False by done.
    unfold mbind, DB_bind. rewrite query_row_calm by done. by rewrite Hrow.
  - unfold UpdateMessageStatus. rewrite !decide_False by done.
    unfold mbind, DB_bind. rewrite nowUTC_eq, exec_calm by done. cbn [w_db].
    by rewrite Hrow, rows_affected_calm.
Qed.

Lemma untrimmed_id_lost_witness :
  let m := mkMessage 1 "m1 " TypeChat "alice" "bob" EmptyString unix_epoch "hi" in
  let w := (InsertMessage m DirectionInbound StatusReceived calm (mkWorld emptyDatabase 0)).2 in
  (GetMessage "m1 " calm w).1 = Err (DBError "scan message" NoRows).
Proof.
  intros m w.
  refine (proj1 (untrimmed_id_lost m DirectionInbound StatusReceived calm calm
    (mkWorld emptyDatabase 0) w StatusSent _ _ _ _ _)); by vm_compute.
Defined.
