(* ===== verification/Opening.v ===== *)
(** * Opening and closing the message store

    [Open], [OpenDefault] and [Close] of [internal/storage/store.go]: the checks of
    the path, the directory, the connection and its initialisation, over the files
    of [Identity] and the tables of [Storage].  What the driver and [os.Stat]
    answer are inputs. *)

From S2P Require Import Prelude GoStrings GoPath GoTime Protocol Identity Storage.
Import Storage.

Open Scope Z_scope.

Module Opening.

Record Store : Type := mkStore { st_path : string; st_closed : bool }.

Inductive open_error : Type :=
  | NoDefaultPath
  | PathRequired
  | CreateDirectory (e : Identity.os_error)
  | OpenSqlite (text : string)
  | Initialize (e : db_error).

(** [dsn]: the data source name. *)
Definition data_source (path : string) : string := path +:+ "?_foreign_keys=on&_busy_timeout=5000".

Section Open.
Context {F : Type} `{!Identity.FileSystem F}.
(** The error of [sql.Open], the answer of [PRAGMA quick_check], and whether
    [os.Stat] finds something else than a directory. *)
Context (sql_open : string → option string) (verdict : string) (is_file : string → F → bool).

Definition Open (path : string) (f : F) (e : Env) (w : World) : F * World * result open_error Store :=
  let path := TrimSpace path in
  if bool_decide (path = EmptyString) then (f, w, Err PathRequired) else
  match Identity.MkdirAll (Dir path) f with
  | (f, Err x) => (f, w, Err (CreateDirectory x))
  | (f, Ok _) =>
      match sql_open (data_source path) with
      | Some text => (f, w, Err (OpenSqlite text))
      | None =>
          match initialize verdict e w with
          | (Err x, w) => (f, w, Err (Initialize x))
          | (Ok _, w) => ((if is_file path f then (Identity.Chmod path f).1 else f), w, Ok (mkStore path false))
          end
      end
  end.

Definition OpenDefault (env : PathEnv) (f : F) (e : Env) (w : World) : F * World * result open_error Store :=
  match storage_DefaultPath env with
  | None => (f, w, Err NoDefaultPath)
  | Some path => Open path f e w
  end.

End Open.

Definition Path (s : Store) : string := st_path s.

(** [Close], where closing the connection gives the error [err]; only the first
    call reports it. *)
Definition Close (err : option string) (s : Store) : Store * option string :=
  if st_closed s then (s, None) else (mkStore (st_path s) true, err).

(** ** Specification *)

Definition objects : gset string := list_to_set (migrations ≫= mig_upSQL).

(** The one migration has been recorded, and what it creates is there. *)
Definition migrated (d : Database) : Prop :=
  ∃ r, db_migrations d = {[1 := r]} ∧ objects ⊆ db_schema d.

Definition orderly (d : Database) : Prop := db_migrations d = ∅ ∨ migrated d.

(** The rows of all tables. *)
Definition rows (d : Database) := (db_identities d, db_peers d, db_groups d, db_memberships d, db_messages d).

End Opening.

Import Opening.

(** ** The schema *)

Lemma orderly_schema s d : orderly d → orderly (with_schema (union s) d).
Proof. intros [H|(r & H & Hs)]; [by left|right]. exists r. split; [done|]. cbn. set_solver. Qed.

Lemma orderly_same d d' : db_migrations d' = db_migrations d → db_schema d' = db_schema d → orderly d → orderly d'.
Proof. unfold orderly, migrated. by intros -> ->. Qed.

(** A transaction keeps what its body keeps when it succeeds. *)
Lemma keeps_committed P b c (m : DB ()) :
  (∀ e w w', P (w_db w) → m e w = (Ok (), w') → P (w_db w')) → keeps P (transaction b c m).
Proof.
  intros Hm e w HP. unfold transaction.
  assert (Hx : ∀ o w, w_db (exec o (λ d, Ok ((), d)) e w).2 = w_db w).
  { intros o w1. apply (reads_keeps (exec o (λ d, Ok ((), d)))). intros Q. by apply (keeps_exec_total Q o id). }
  pose proof (Hx b w) as Hb. destruct (exec b _ e w) as [[[]|] w1]; cbn in *; [|by rewrite Hb].
  destruct (m e w1) as [[[]|] w2] eqn:Em; cbn; [|by rewrite Hb].
  pose proof (Hx c w2) as Hc. destruct (exec c _ e w2) as [[[]|] w3]; cbn in *; [|by rewrite Hb].
  rewrite Hc. apply (Hm e w1); [by rewrite Hb|done].
Qed.

Lemma run_statements_Ok v l e w w' : run_statements v l e w = (Ok (), w') →
  db_migrations (w_db w') = db_migrations (w_db w) ∧ db_schema (w_db w') = list_to_set l ∪ db_schema (w_db w).
Proof.
  revert w. induction l as [|s l IH]; intros w; cbn [run_statements]; [intros [= <-]; split; [done|set_solver]|].
  intros ([] & w1 & H1 & H2)%bind_Ok. apply exec_Ok in H1. injection H1 as H1.
  destruct (IH w1 H2) as [-> ->]. rewrite <- H1. cbn. split; [done|]. set_solver.
Qed.

Lemma keeps_applyMigration m : m ∈ migrations → keeps orderly (applyMigration m).
Proof.
  intros ->%list_elem_of_singleton. apply keeps_committed. intros e w w' Ho.
  intros ([] & w1 & H1 & H2)%bind_Ok. apply bind_Ok in H2 as (t & w2 & H2 & H3).
  injection H2 as _ <-. apply exec_Ok in H3. apply run_statements_Ok in H1 as [Hm Hs].
  cbn [w_db mig_version mig_name mig_upSQL] in *. rewrite Hm in H3.
  destruct Ho as [Ho|(r & Ho & _)]; rewrite Ho in *.
  - rewrite lookup_empty in H3. injection H3 as <-. right. eexists. cbn. rewrite Hm, Hs. split; [done|]. set_solver.
  - by rewrite lookup_singleton_eq in H3.
Qed.

Lemma keeps_migrations : keeps orderly applyMigrations.
Proof.
  unfold applyMigrations.
  assert (Hp : ∀ n l, l ⊆ migrations → keeps orderly (apply_pending n l)).
  { intros n l. induction l as [|m l IH]; intros Hl; [apply keeps_ret|]. cbn [apply_pending].
    destruct (_ <=? _); [apply IH; set_solver|]. apply keeps_bind; [apply keeps_applyMigration; set_solver|].
    intros []. apply IH. set_solver. }
  repeat first [apply Hp; done | apply max_version_keeps | keeps_step]; simplify_eq/=; try done. by apply orderly_schema.
Qed.

Lemma keeps_orderly v : keeps orderly (initialize v).
Proof.
  unfold initialize, pragma, quickCheck.
  repeat first [apply keeps_migrations | keeps_step]; by simplify_eq/=.
Qed.

Lemma keeps_same d0 o : match o with OpInitialize _ => True | _ =>
  keeps (λ d, db_migrations d = db_migrations d0 ∧ db_schema d = db_schema d0) (run_op o) end.
Proof.
  assert (Hpeer : ∀ p n t, keeps (λ d, db_migrations d = db_migrations d0 ∧ db_schema d = db_schema d0) (UpsertPeer p n t))
    by (intros; unfold UpsertPeer; repeat keeps_step; done).
  destruct o; cbn [run_op]; try done;
    unfold UpsertIdentityMetadata, UpsertGroup, SetGroupMembership, DeleteGroup, delete_group_row, InsertMessage, UpdateMessageStatus;
    repeat first [apply Hpeer | keeps_step]; repeat (case_match; simplify_eq/=); simplify_eq/=; done.
Qed.

Lemma keeps_op o : keeps orderly (run_op o).
Proof.
  intros e w Ho. pose proof (keeps_same (w_db w) o) as H. destruct o; try (by apply (keeps_orderly verdict));
    (destruct (H e w (conj eq_refl eq_refl)) as [Hm Hs]; by eapply orderly_same).
Qed.

Lemma orderly_reachable d : db_reachable d → orderly d.
Proof.
  apply reachable_invariant. split; [by intros ? ->; left|]. intros d1 d2 H (o & e & n & ->). by apply keeps_op.
Qed.

(** Opening touches no row. *)
Lemma keeps_rows v d0 : keeps (λ d, rows d = rows d0) (initialize v).
Proof.
  unfold initialize, pragma, quickCheck, applyMigrations. cbn [apply_pending migrations].
  unfold applyMigration. cbn [run_statements mig_upSQL mig_version mig_name].
  repeat first [apply max_version_keeps | keeps_step]; repeat case_match; simplify_eq/=; unfold rows; cbn; congruence.
Qed.

(** ** Opening without refusals *)

Section Calm.
Context (e : Env) (He : no_fault e).

Lemma run_statements_calm v l w : ∃ w', run_statements v l e w = (Ok (), w').
Proof.
  revert w. induction l as [|s l IH]; intros w; [by eexists|]. cbn [run_statements].
  unfold mbind, DB_bind. rewrite exec_calm by done. cbn. apply IH.
Qed.

Lemma applyMigration_calm m w : m ∈ migrations → db_migrations (w_db w) = ∅ →
  ∃ w', applyMigration m e w = (Ok (), w') ∧ ∃ r, db_migrations (w_db w') = {[1 := r]}.
Proof.
  intros ->%list_elem_of_singleton H0. unfold applyMigration, transaction. rewrite exec_calm by done.
  cbn [mig_version mig_upSQL mig_name]. unfold mbind at 1, DB_bind.
  destruct (run_statements_calm 1 ["identities"; "peers"; "groups"; "group_memberships"; "messages";
      "idx_messages_ts"; "idx_messages_direct"; "idx_messages_group"] (mkWorld (w_db w) (S (w_step w)))) as (w1 & H1).
  rewrite H1. apply run_statements_Ok in H1 as [Hm _]. cbn [w_db] in Hm. rewrite H0 in Hm.
  unfold mbind, DB_bind. rewrite nowUTC_eq, exec_calm by done. cbn [w_db]. rewrite Hm, lookup_empty.
  rewrite exec_calm by done. eexists. split; [reflexivity|]. eexists. cbn. by rewrite Hm.
Qed.

Lemma max_version_one d r : db_migrations d = {[1 := r]} → max_version d = 1.
Proof. intros H. unfold max_version. by rewrite H, map_to_list_singleton. Qed.

Lemma applyMigrations_calm w : orderly (w_db w) → ∃ w', applyMigrations e w = (Ok (), w') ∧ migrated (w_db w').
Proof.
  intros Ho. pose proof (keeps_migrations e w Ho) as Hk.
  assert (Hr : ∃ w', applyMigrations e w = (Ok (), w') ∧ ∃ r, db_migrations (w_db w') = {[1 := r]}).
  { unfold applyMigrations, mbind, DB_bind. rewrite exec_calm by done. cbn [w_db w_step create_if_missing].
    rewrite exec_calm by done. cbn [w_db w_step].
    set (w1 := mkWorld (with_schema (λ s, {["schema_migrations"]} ∪ s) (w_db w)) (S (S (w_step w)))). assert (H1 : orderly (w_db w1)) by by apply orderly_schema.
    change (max_version (with_schema (λ s, {["schema_migrations"]} ∪ s) (w_db w))) with (max_version (w_db w1)). cbn [apply_pending migrations mig_version].
    destruct H1 as [H1|(r & H1 & _)].
    - assert (max_version (w_db w1) = 0) as -> by (unfold max_version; by rewrite H1, map_to_list_empty).
      destruct (applyMigration_calm (mkMigration 1 "init_core_tables" ["identities"; "peers"; "groups"; "group_memberships"; "messages";
        "idx_messages_ts"; "idx_messages_direct"; "idx_messages_group"]) w1) as (w2 & H2 & r & Hr); [by left|done|].
      cbn [Z.leb Z.compare]. unfold mbind, DB_bind. rewrite H2. unfold mret, DB_ret. cbv beta iota. rewrite exec_calm by done.
      rewrite (max_version_one _ r) by done. eexists. split; [reflexivity|]. by exists r.
    - rewrite (max_version_one _ r) by done. change (1 <=? 1) with true. unfold mret, DB_ret. cbv beta iota. rewrite exec_calm by done.
      rewrite (max_version_one _ r) by done. eexists. split; [reflexivity|]. by exists r. }
  destruct Hr as (w' & Hw & r & Hr). exists w'. split; [done|]. rewrite Hw in Hk.
  destruct Hk as [Hk|Hk]; [|done]. cbn in Hk. rewrite Hr in Hk. by apply map_non_empty_singleton in Hk.
Qed.

Lemma initialize_calm v w : EqualFold (TrimSpace v) "ok" = true → orderly (w_db w) →
  ∃ w', initialize v e w = (Ok (), w') ∧ migrated (w_db w').
Proof.
  intros Hv Ho. unfold initialize, pragma, quickCheck, mbind, DB_bind. do 3 (rewrite exec_calm by done; cbn [w_db w_step]).
  rewrite exec_calm, Hv by done. cbn [negb mret DB_ret]. by apply applyMigrations_calm.
Qed.

End Calm.

(** ** Properties *)

(** C30: opening recovers: whatever has happened to a database, openings that the
    driver refused at any statement included, opening it when the driver refuses
    nothing and finds the file sound succeeds under the trimmed path, with the
    migration recorded and every table and index it creates present, and without
    touching a row. *)
Theorem open_recovers {F} `{!Identity.FileSystem F} sql_open verdict is_file path (f : F) e w :
  db_reachable (w_db w) → no_fault e → EqualFold (TrimSpace verdict) "ok" = true → TrimSpace path ≠ EmptyString →
  (Identity.MkdirAll (Dir (TrimSpace path)) f).2 = Ok () → sql_open (data_source (TrimSpace path)) = None →
  ∃ f' w', Open sql_open verdict is_file path f e w = (f', w', Ok (mkStore (TrimSpace path) false)) ∧
    migrated (w_db w') ∧ rows (w_db w') = rows (w_db w).
Proof.
  intros Hr He Hv Hp Hd Ho. unfold Open. rewrite bool_decide_eq_false_2 by done.
  destruct (Identity.MkdirAll (Dir (TrimSpace path)) f) as [f1 r]. cbn in Hd. subst r. rewrite Ho.
  destruct (initialize_calm e He verdict w Hv (orderly_reachable _ Hr)) as (w1 & Hi & Hm).
  pose proof (keeps_rows verdict (w_db w) e w eq_refl) as Hrows. rewrite Hi in Hrows |- *.
  eexists _, w1. split; [reflexivity|]. by split.
Qed.

(** An opening that the driver refuses at the eleventh statement, and the next. *)
Definition refused_at (n : nat) : Env :=
  mkEnv (env_clock Storage.calm) (λ k, if (k =? n)%nat then Some "disk I/O error" else None).

Lemma open_recovers_witness : ∃ w1 x f' w',
  Open (λ _, None) "ok" (λ _ _, true) " /data/skall.db" (∅ : Identity.mem_fs) (refused_at 10) (mkWorld emptyDatabase 0) =
    (∅, w1, Err (Initialize x)) ∧
  Open (λ _, None) "ok" (λ _ _, true) " /data/skall.db" (∅ : Identity.mem_fs) Storage.calm w1 =
    (f', w', Ok (mkStore "/data/skall.db" false)) ∧ migrated (w_db w').
Proof.
  assert (H : ∃ w1 x, Open (λ _, None) "ok" (λ _ _, true) " /data/skall.db" (∅ : Identity.mem_fs) (refused_at 10) (mkWorld emptyDatabase 0) =
    (∅, w1, Err (Initialize x)) ∧ w1 = (initialize "ok" (refused_at 10) (mkWorld emptyDatabase 0)).2)
    by (do 2 eexists; split; vm_compute; reflexivity).
  destruct H as (w1 & x & H1 & Hw). exists w1, x.
  destruct (open_recovers (λ _, None) "ok" (λ _ _, true) " /data/skall.db" (∅ : Identity.mem_fs) Storage.calm w1)
    as (f' & w' & H2 & Hm & _); [|done|done|vm_compute; discriminate|done|done|by exists f', w'].
  eapply reachable_step; [by apply reachable_init|]. exists (OpInitialize "ok"), (refused_at 10), 0%nat. by rewrite Hw.
Defined.

(** Only the first [Close] of a store closes the connection and reports its error. *)
Theorem close_once err err' s : Close err' (Close err s).1 = ((Close err s).1, None) ∧ Path (Close err s).1 = Path s.
Proof. unfold Close, Path. by destruct (st_closed s) eqn:E; cbn [fst]; rewrite ?E. Qed.
