(* ===== verification/Backoff.v ===== *)
(** * Retrying with exponential backoff

    [internal/network/p2p/backoff.go]: the schedule of delays, its cap, and the
    loop that retries an operation.  Floating-point steps are those of IEEE 754;
    what a machine makes of a conversion out of range, the random numbers, the
    outcomes of the operation and of the context are inputs. *)

From S2P Require Import Prelude GoTime GoFloat.

Open Scope Z_scope.

Module Backoff.

(** ** Configuration *)

Record BackoffConfig : Type := mkConfig {
  bc_InitialInterval : Z; bc_MaxInterval : Z; bc_Multiplier : float64;
  bc_MaxRetries : Z; bc_Jitter : bool
}.

Definition DefaultBackoffConfig : BackoffConfig :=
  mkConfig (1 * second) (60 * second) (float_const 2 1) 5 true.

Record Backoff : Type := mkBackoff { bo_cfg : BackoffConfig; bo_currentDelay : Z; bo_attempts : Z }.

(** The defaults [NewBackoff] fills in. *)
Definition normalize (cfg : BackoffConfig) : BackoffConfig :=
  let initial := if bc_InitialInterval cfg <=? 0 then 1 * second else bc_InitialInterval cfg in
  let max := if bc_MaxInterval cfg <=? 0 then 60 * second else bc_MaxInterval cfg in
  let max := if max <? initial then initial else max in
  let mult := if float_le (bc_Multiplier cfg) (float_const 1 1) then float_const 2 1 else bc_Multiplier cfg in
  mkConfig initial max mult (bc_MaxRetries cfg) (bc_Jitter cfg).

Definition NewBackoff (cfg : BackoffConfig) : Backoff :=
  let cfg := normalize cfg in mkBackoff cfg (bc_InitialInterval cfg) 0.

(** ** Steps *)

Definition Reset (b : Backoff) : Backoff := mkBackoff (bo_cfg b) (bc_InitialInterval (bo_cfg b)) 0.

Definition Attempts (b : Backoff) : Z := bo_attempts b.

Definition HasNext (b : Backoff) : bool :=
  if bc_MaxRetries (bo_cfg b) <=? 0 then true else bo_attempts b <? bc_MaxRetries (bo_cfg b).

Section Machine.
(** What the machine makes of a conversion to [int64] out of range. *)
Context (out : float64 → Z).

(** The delay after [d]. *)
Definition advance (cfg : BackoffConfig) (d : Z) : Z :=
  let next := int_of_float out (float_mul (float_of_int d) (bc_Multiplier cfg)) in
  if bc_MaxInterval cfg <? next then bc_MaxInterval cfg else next.

(** [delay * (0.8 + rand*0.4)]. *)
Definition jitter (rand : float64) (delay : Z) : Z :=
  let factor := float_add (float_const 8 10) (float_mul rand (float_const 4 10)) in
  int_of_float out (float_mul (float_of_int delay) factor).

(** [rand] is what the generator answers. *)
Definition NextDelay (rand : float64) (b : Backoff) : Z * Backoff :=
  let delay := bo_currentDelay b in
  let b := mkBackoff (bo_cfg b) (advance (bo_cfg b) delay) (wrap64 (bo_attempts b + 1)) in
  (if bc_Jitter (bo_cfg b) then jitter rand delay else delay, b).

Section Retry.
Context {E : Type}.

Inductive sleep_error : Type := ErrMaxRetriesReached | CtxErr (e : E).

(** [ctx] is the error of the context if it is done before the timer fires. *)
Definition Sleep (rand : float64) (ctx : option E) (b : Backoff) : Backoff * option sleep_error :=
  if negb (HasNext b) then (b, Some ErrMaxRetriesReached) else
  let '(_, b) := NextDelay rand b in (b, CtxErr <$> ctx).

(** The outcomes of the calls of the operation ([None] is success), of the
    context during the sleeps, and the random numbers. *)
Record World : Type := mkWorld { w_op : nat → option E; w_ctx : nat → option E; w_rand : nat → float64 }.

(** The loop from the [n]-th call on: its result and the number of calls made,
    [None] when the fuel runs out. *)
Fixpoint retry_loop (fuel : nat) (w : World) (n : nat) (b : Backoff) : option (result E () * nat) :=
  match fuel with
  | O => None
  | S fuel =>
      match w_op w n with
      | None => Some (Ok (), S n)
      | Some lastErr =>
          match Sleep (w_rand w n) (w_ctx w n) b with
          | (_, Some ErrMaxRetriesReached) => Some (Err lastErr, S n)
          | (_, Some (CtxErr e)) => Some (Err e, S n)
          | (b, None) => retry_loop fuel w (S n) b
          end
      end
  end.

Definition Retry (fuel : nat) (cfg : BackoffConfig) (w : World) : option (result E () * nat) :=
  retry_loop fuel w 0 (NewBackoff cfg).

End Retry.
End Machine.

(** ** Specification *)

(** The state after a number of delays. *)
Fixpoint delays (out : float64 → Z) (n : nat) (rands : nat → float64) (b : Backoff) : Backoff :=
  match n with
  | O => b
  | S n => (NextDelay out (rands n) (delays out n rands b)).2
  end.

(** The first call of at most [m] more that succeeds, or after which the
    context is done; the calls are numbered from [n]. *)
Fixpoint outcome {E} (w : World (E:=E)) (n m : nat) : result E () * nat :=
  match w_op w n with
  | None => (Ok (), S n)
  | Some e =>
      match m with
      | O => (Err e, S n)
      | S m => match w_ctx w n with Some x => (Err x, S n) | None => outcome w (S n) m end
      end
  end.

(** An amd64 conversion out of range. *)
Definition out_amd64 (x : float64) : Z := - 2 ^ 63.

End Backoff.

Import Backoff.

(** ** The schedule *)

Lemma normalize_bounds cfg : let c := normalize cfg in
  0 < bc_InitialInterval c ≤ bc_MaxInterval c.
Proof.
  unfold normalize. cbn [bc_InitialInterval bc_MaxInterval]. unfold second.
  destruct (Z.leb_spec (bc_InitialInterval cfg) 0), (Z.leb_spec (bc_MaxInterval cfg) 0);
    match goal with |- context [?a <? ?b] => destruct (Z.ltb_spec a b) end; lia.
Qed.

Lemma advance_capped out cfg d : advance out cfg d ≤ bc_MaxInterval cfg.
Proof. unfold advance. case_match eqn:H; [lia|]. apply Z.ltb_ge in H. lia. Qed.

Lemma delays_cfg out n rands b : bo_cfg (delays out n rands b) = bo_cfg b.
Proof. induction n as [|n IH]; [done|]. cbn [delays NextDelay snd bo_cfg]. exact IH. Qed.

Lemma delays_step out n rands b : bo_currentDelay (delays out (S n) rands b) =
  advance out (bo_cfg b) (bo_currentDelay (delays out n rands b)).
Proof. cbn [delays]. unfold NextDelay. cbn [snd bo_currentDelay]. by rewrite delays_cfg. Qed.

(** ** The loop *)

Lemma retry_loop_mono {E} out fuel k (w : World (E:=E)) n b r :
  retry_loop out fuel w n b = Some r → retry_loop out (fuel + k) w n b = Some r.
Proof.
  revert n b. induction fuel as [|fuel IH]; intros n b; [done|]. cbn [retry_loop Nat.add].
  destruct (w_op w n); [|done]. destruct (Sleep _ _ _ _) as [b' [[]|]]; auto.
Qed.

(** With [m] retries left the loop does at most [m + 1] calls. *)
Lemma retry_loop_outcome {E} out (w : World (E:=E)) m n b : 0 < bc_MaxRetries (bo_cfg b) < 2 ^ 63 → 0 ≤ bo_attempts b →
  bo_attempts b + Z.of_nat m = bc_MaxRetries (bo_cfg b) →
  retry_loop out (S m) w n b = Some (outcome w n m).
Proof.
  revert n b. induction m as [|m IH]; intros n b Hmax Ha Hm; cbn [retry_loop outcome];
    (destruct (w_op w n); [|done]); unfold Sleep, HasNext;
    rewrite (proj2 (Z.leb_gt (bc_MaxRetries _) 0)) by lia.
  - by rewrite (proj2 (Z.ltb_ge _ _)) by lia.
  - rewrite (proj2 (Z.ltb_lt _ _)) by lia. cbn [negb NextDelay].
    destruct (w_ctx w n); [done|]. cbn [fmap option_fmap option_map].
    apply IH; cbn [bo_cfg bo_attempts]; rewrite ?wrap64_id by (unfold int64; lia); lia.
Qed.

Lemma outcome_calls {E} (w : World (E:=E)) n m : (S n ≤ (outcome w n m).2 ≤ S n + m)%nat.
Proof.
  revert n. induction m as [|m IH]; intros n; cbn [outcome]; destruct (w_op w n); cbn; try lia.
  destruct (w_ctx w n); cbn; [lia|]. specialize (IH (S n)). lia.
Qed.

(** ** Properties *)

(** C26: a bounded [Retry] ends: with [MaxRetries] positive it calls the operation at
    least once and at most [MaxRetries + 1] times, whatever the operation, the
    context, the random numbers and the machine do, and its result is the one of
    the first success or of the first sleep the context ends, or the error of the
    last call. *)
Theorem Retry_terminates {E} out cfg (w : World (E:=E)) fuel : 0 < bc_MaxRetries cfg < 2 ^ 63 →
  (Z.to_nat (bc_MaxRetries cfg) < fuel)%nat →
  ∃ r k, Retry out fuel cfg w = Some (r, k) ∧ (1 ≤ k)%nat ∧ Z.of_nat k ≤ bc_MaxRetries cfg + 1 ∧
    (r, k) = outcome w 0 (Z.to_nat (bc_MaxRetries cfg)).
Proof.
  intros Hm Hf. set (m := Z.to_nat (bc_MaxRetries cfg)) in *. pose proof (outcome_calls w 0 m) as Hc.
  destruct (outcome w 0 m) as [r k] eqn:E0. exists r, k. cbn in Hc. split_and!; [|lia|lia|done].
  unfold Retry. replace fuel with (S m + (fuel - S m))%nat by lia. apply retry_loop_mono.
  rewrite <- E0. apply retry_loop_outcome; cbn; lia.
Qed.

Lemma Retry_terminates_witness : ∃ k, Retry out_amd64 6 DefaultBackoffConfig
  (mkWorld (λ n, Some n) (λ _, None) (λ _, float_const 1 2)) = Some (Err 5%nat, k).
Proof.
  destruct (Retry_terminates out_amd64 DefaultBackoffConfig
    (mkWorld (λ n, Some n) (λ _, None) (λ _, float_const 1 2)) 6) as (r & k & H & _ & _ & Ho).
  - vm_compute. split; reflexivity.
  - vm_compute. lia.
  - exists k. rewrite H. injection Ho as -> _. reflexivity.
Defined.

(** An unlimited [Retry] of an operation that always fails never returns while
    its context lasts. *)
Theorem Retry_unlimited {E} out cfg (w : World (E:=E)) fuel : bc_MaxRetries cfg ≤ 0 →
  (∀ n, is_Some (w_op w n)) → (∀ n, w_ctx w n = None) → Retry out fuel cfg w = None.
Proof.
  intros Hm Hop Hctx. unfold Retry. assert (Hc : bc_MaxRetries (bo_cfg (NewBackoff cfg)) ≤ 0) by done.
  generalize 0%nat. revert Hc. generalize (NewBackoff cfg) as b. induction fuel as [|fuel IH]; intros b Hc n; [done|].
  cbn [retry_loop]. destruct (Hop n) as [e ->]. unfold Sleep, HasNext. rewrite (proj2 (Z.leb_le _ _)) by done.
  cbn [negb NextDelay]. rewrite Hctx. cbn [fmap option_fmap option_map]. by apply IH.
Qed.

Lemma Retry_unlimited_witness : Retry out_amd64 20 (mkConfig 0 0 (float_const 2 1) 0 false)
  (mkWorld (λ n, Some n) (λ _, None) (λ _, float_const 1 2)) = None.
Proof. apply Retry_unlimited; [cbn; lia|intros n; by eexists|done]. Defined.

(** The default delays double from one second and stay at sixty: before jitter
    the delay after [n] attempts is the lesser of [2^n] and sixty seconds. *)
Theorem default_schedule out rands n :
  bo_currentDelay (delays out n rands (NewBackoff DefaultBackoffConfig)) = Z.min (2 ^ Z.of_nat n) 60 * second.
Proof.
  assert (Hs : ∀ d, d ∈ [1; 2; 4; 8; 16; 32; 60] → advance out (normalize DefaultBackoffConfig) (d * second) = Z.min (2 * d) 60 * second).
  { intros d Hd. repeat (apply elem_of_cons in Hd as [->|Hd]; [vm_compute; reflexivity|]). by apply elem_of_nil in Hd. }
  assert (H : Z.min (2 ^ Z.of_nat n) 60 ∈ [1; 2; 4; 8; 16; 32; 60] ∧
    bo_currentDelay (delays out n rands (NewBackoff DefaultBackoffConfig)) = Z.min (2 ^ Z.of_nat n) 60 * second); [|apply H].
  induction n as [|n [IHe IH]]; [split; [set_solver|reflexivity]|].
  rewrite delays_step, IH. change (bo_cfg (NewBackoff DefaultBackoffConfig)) with (normalize DefaultBackoffConfig).
  rewrite Hs by done. assert (Hmin : Z.min (2 ^ Z.of_nat (S n)) 60 = Z.min (2 * Z.min (2 ^ Z.of_nat n) 60) 60)
    by (rewrite Nat2Z.inj_succ, Z.pow_succ_r by lia; lia).
  rewrite Hmin. split; [|done].
  repeat (apply elem_of_cons in IHe as [->|IHe]; [vm_compute; repeat (first [by left|right])|]). by apply elem_of_nil in IHe.
Qed.

(** C40: no configuration, machine or random number makes the delay exceed the
    maximum interval. *)
Theorem delay_capped out cfg rands n :
  let b := delays out n rands (NewBackoff cfg) in bo_currentDelay b ≤ bc_MaxInterval (bo_cfg b).
Proof.
  cbn zeta. rewrite delays_cfg. destruct n as [|n]; [apply normalize_bounds|]. rewrite delays_step. apply advance_capped.
Qed.
