(* ===== verification/Addr.v ===== *)
(** * Peer addresses

    [internal/network/p2p/addr.go].  The multiaddress and peer ID libraries are
    a class: their parsers are its operations.  A peer ID is the byte string it
    is in Go. *)

From S2P Require Import Prelude GoStrings GoNet Json JsonObject GoIP.

Open Scope Z_scope.

(** ** The libraries *)

Class PeerLib : Type := {
  Multiaddr : Type;
  Multiaddr_eq :: EqDecision Multiaddr;
  NewMultiaddr : string → option Multiaddr;
  maddr_String : Multiaddr → string;
  (** The names of its protocols. *)
  maddr_Protocols : Multiaddr → list string;
  (** [peer.AddrInfoFromP2pAddr]: the peer ID it ends in and the address before it. *)
  AddrInfoFromP2pAddr : Multiaddr → option (string * list Multiaddr);
  (** [peer.Decode] and [ID.String]. *)
  Decode : string → option string;
  id_String : string → string
}.

(** What the code relies on: a multiaddress begins with a slash, a peer ID is
    printed in UTF-8 and without colon. *)
Class PeerLibLaws `{PeerLib} : Prop := {
  NewMultiaddr_slash s m : NewMultiaddr s = Some m → HasPrefix s "/" = true;
  Decode_no_colon s p : Decode s = Some p → has_byte colon s = false;
  Decode_empty : Decode EmptyString = None;
  Decode_String s p : Decode s = Some p → Decode (id_String p) = Some p;
  Decode_utf8 s p : Decode s = Some p → utf8_valid (id_String p) = true
}.

Module Addr.

Record AddrInfo `{PeerLib} : Type := mkInfo { ai_ID : string; ai_Addrs : list Multiaddr }.
Arguments mkInfo {_} _ _.
Arguments ai_ID {_} _.
Arguments ai_Addrs {_} _.

Inductive addr_error : Type :=
  | EmptyTarget
  | InvalidMultiaddr
  | InvalidOptionalID
  | Mismatch (id opt : string)
  | MissingPeerID
  | InvalidPeerID
  | EndpointNeedsID
  | BadEndpoint
  | InvalidTarget.

Section Addr.
Context `{PeerLib}.

#[global] Instance AddrInfo_eq_dec : EqDecision AddrInfo.
Proof. solve_decision. Defined.

Definition ValidateMultiaddr (raw : string) : result addr_error () :=
  let trimmed := TrimSpace raw in
  if decide (trimmed = EmptyString) then Err EmptyTarget else
  match NewMultiaddr trimmed with Some _ => Ok () | None => Err InvalidMultiaddr end.

(** The multiaddress of a host and a port. *)
Definition endpoint_text (host port : string) : string :=
  match ParseIP host with
  | Some ip =>
      if is4 ip then "/ip4/" +:+ host +:+ "/tcp/" +:+ port
      else "/ip6/" +:+ host +:+ "/tcp/" +:+ port
  | None => "/dns4/" +:+ host +:+ "/tcp/" +:+ port
  end.

Definition ParsePeerAddr (target optPeerID : string) : result addr_error AddrInfo :=
  let target := TrimSpace target in
  let optPeerID := TrimSpace optPeerID in
  if decide (target = EmptyString) then Err EmptyTarget else
  match NewMultiaddr target with
  | Some maddr =>
      match AddrInfoFromP2pAddr maddr with
      | Some (id, addrs) =>
          if decide (optPeerID = EmptyString) then Ok (mkInfo id addrs) else
          match Decode optPeerID with
          | None => Err InvalidOptionalID
          | Some parsedOpt =>
              if decide (parsedOpt = id) then Ok (mkInfo id addrs) else Err (Mismatch id parsedOpt)
          end
      | None =>
          if decide (optPeerID = EmptyString) then Err MissingPeerID else
          match Decode optPeerID with
          | None => Err InvalidPeerID
          | Some pid => Ok (mkInfo pid [maddr])
          end
      end
  | None =>
      match Decode target with
      | Some pid => Ok (mkInfo pid [])
      | None =>
          match SplitHostPort target with
          | Ok (host, port) =>
              if decide (optPeerID = EmptyString) then Err EndpointNeedsID else
              match Decode optPeerID with
              | None => Err InvalidPeerID
              | Some pid =>
                  match NewMultiaddr (endpoint_text host port) with
                  | Some maddr => Ok (mkInfo pid [maddr])
                  | None => Err BadEndpoint
                  end
              end
          | Err _ => Err InvalidTarget
          end
      end
  end.

(** [None] is a nil address. *)
Definition IsRelayAddr (maddr : option Multiaddr) : bool :=
  match maddr with
  | None => false
  | Some m =>
      if existsb (λ n, bool_decide (n = "p2p-circuit")) (maddr_Protocols m) then true
      else Contains (maddr_String m) "/p2p-circuit"
  end.

(** A connection is its remote address. *)
Definition IsRelayConn (conn : option (option Multiaddr)) : bool :=
  match conn with None => false | Some remote => IsRelayAddr remote end.

End Addr.

(** ** A small instance

    Addresses as their text, cut at slashes; a peer ID is a word of letters and
    digits that begins with [12D3]. *)

Fixpoint pieces (s cur : string) : list string :=
  match s with
  | EmptyString => [rev_s cur]
  | String a s => if decide (a = "/"%char) then rev_s cur :: pieces s EmptyString else pieces s (String a cur)
  end.

Definition text_id (s : string) : option string :=
  if HasPrefix s "12D3" && negb (has_byte colon s) && negb (has_byte "/" s) && all_bytes graphic s then Some s else None.

Definition text_maddr (s : string) : option string :=
  if HasPrefix s "/" && (2 <? Z.of_nat (length (pieces s EmptyString))) then Some s else None.

(** Cut at the last [/p2p/]. *)
Fixpoint text_info (s : string) : option (string * string) :=
  match s with
  | EmptyString => None
  | String a s' =>
      match text_info s' with
      | Some (l, r) => Some (String a l, r)
      | None => if HasPrefix s "/p2p/" then Some (EmptyString, drop_s 5 s) else None
      end
  end.

#[global] Instance TextLib : PeerLib := {|
  Multiaddr := string; NewMultiaddr := text_maddr; maddr_String := id;
  maddr_Protocols s := pieces s EmptyString;
  AddrInfoFromP2pAddr s :=
    '(l, r) ← text_info s; i ← text_id r; Some (i, if decide (l = EmptyString) then [] else [l]);
  Decode := text_id; id_String := id
|}.

End Addr.

Import Addr.

#[global] Instance TextLib_laws : PeerLibLaws.
Proof.
  split; cbn.
  - intros s m. unfold text_maddr. destruct (HasPrefix s "/"); done.
  - intros s p. unfold text_id. destruct (has_byte colon s); [|done]. by rewrite andb_false_r.
  - done.
  - intros s p. unfold text_id. destruct (_ && _) eqn:E; [|done]. intros [= <-]. unfold id. by rewrite E.
  - intros s p. unfold text_id. destruct (_ && _) eqn:E; [|done]. intros [= <-]. apply andb_true_iff in E as [_ E].
    apply utf8_valid_eq, to_valid_ascii. eapply all_bytes_impl; [|exact E]. intros a. unfold graphic, rune1.
    rewrite andb_true_iff, !Z.leb_le, Z.ltb_lt. lia.
Qed.

(** ** Properties *)

(** A supplied peer ID is enforced: an accepted address is for exactly that
    peer, except when the target itself is a bare peer ID, which is used
    whatever was supplied. *)
Theorem ParsePeerAddr_enforces `{PeerLib} target opt info :
  ParsePeerAddr target opt = Ok info → TrimSpace opt ≠ EmptyString →
  Decode (TrimSpace opt) = Some (ai_ID info) ∨
  (Decode (TrimSpace target) = Some (ai_ID info) ∧ ai_Addrs info = []).
Proof. unfold ParsePeerAddr. intros Hp Ho. repeat (case_match; simplify_eq/=; auto). Qed.

Lemma ParsePeerAddr_enforces_witness : ∃ info,
  ParsePeerAddr "/ip4/10.0.0.1/tcp/9001/p2p/12D3abc" " 12D3abc " = Ok info ∧
  (Decode (TrimSpace " 12D3abc ") = Some (ai_ID info) ∨
   (Decode (TrimSpace "/ip4/10.0.0.1/tcp/9001/p2p/12D3abc") = Some (ai_ID info) ∧ ai_Addrs info = [])).
Proof.
  set (target := "/ip4/10.0.0.1/tcp/9001/p2p/12D3abc"). set (opt := " 12D3abc ").
  exists (@mkInfo TextLib "12D3abc" ["/ip4/10.0.0.1/tcp/9001"]).
  assert (Hp : ParsePeerAddr target opt = Ok (@mkInfo TextLib "12D3abc" ["/ip4/10.0.0.1/tcp/9001"])) by reflexivity.
  split; [exact Hp|]. refine (ParsePeerAddr_enforces target opt _ Hp _). vm_compute. discriminate.
Defined.

(** The exception: the supplied ID is ignored. *)
Example bare_id_wins : ParsePeerAddr "12D3abc" "12D3xyz" = Ok (mkInfo "12D3abc" []).
Proof. reflexivity. Qed.

(** A host and a port, joined as Go joins them, and a peer ID give the
    multiaddress of that endpoint: [ip4] for what is or maps an IPv4 address,
    [ip6] for the other addresses, [dns4] for names. *)
Theorem ParsePeerAddr_endpoint `{PeerLibLaws} host port opt pid m :
  has_byte open_bracket host = false → has_byte close_bracket host = false →
  has_byte colon port = false → has_byte open_bracket port = false → has_byte close_bracket port = false →
  TrimSpace (JoinHostPort host port) = JoinHostPort host port → HasPrefix host "/" = false →
  Decode (TrimSpace opt) = Some pid → NewMultiaddr (endpoint_text host port) = Some m →
  ParsePeerAddr (JoinHostPort host port) opt = Ok (mkInfo pid [m]).
Proof.
  intros Ho Hc Hpc Hpo Hpcl Ht Hs Hd Hm. unfold ParsePeerAddr. rewrite Ht.
  assert (Hcol : has_byte colon (JoinHostPort host port) = true).
  { unfold JoinHostPort. destruct (has_byte colon host); rewrite !has_byte_app; cbn; rewrite ?orb_true_r; done. }
  rewrite decide_False by (intros E; by rewrite E in Hcol).
  destruct (NewMultiaddr (JoinHostPort host port)) as [m'|] eqn:Em.
  { apply NewMultiaddr_slash in Em. unfold JoinHostPort in Em. destruct (has_byte colon host); [done|].
    destruct host as [|a host]; [discriminate Em|]. rewrite app_cons_s in Em. cbn [HasPrefix] in Em, Hs. by case_decide; destruct host. }
  destruct (Decode (JoinHostPort host port)) as [q|] eqn:Ed; [apply Decode_no_colon in Ed; congruence|].
  rewrite Split_Join by done.
  rewrite decide_False by (intros E; rewrite E, Decode_empty in Hd; done). by rewrite Hd, Hm.
Qed.

Lemma ParsePeerAddr_endpoint_witness :
  ParsePeerAddr (JoinHostPort "2001:db8::7" "9001") "12D3abc" = Ok (mkInfo "12D3abc" ["/ip6/2001:db8::7/tcp/9001"]).
Proof.
  apply (@ParsePeerAddr_endpoint TextLib TextLib_laws "2001:db8::7" "9001"); reflexivity.
Defined.

(** What was accepted as a full address needs no second check. *)
Lemma ParsePeerAddr_Validate `{PeerLib} target opt info :
  ParsePeerAddr target opt = Ok info → ai_Addrs info ≠ [] →
  ValidateMultiaddr target = Ok () ∨ ∃ host port, SplitHostPort (TrimSpace target) = Ok (host, port).
Proof. unfold ParsePeerAddr, ValidateMultiaddr. intros Hp Ha. repeat (case_match; simplify_eq/=; eauto). Qed.
