(* ===== verification/Bootstrap.v ===== *)
(** * Bootstrap peers

    [internal/network/p2p/bootstrap.go]: the configured peers, the parallel dial
    of all of them as goroutines whose operations interleave, and the loop that
    reconnects when none is connected.  What dials answer, how long they take,
    the contexts and the random numbers are inputs. *)

From S2P Require Import Prelude GoStrings GoFloat Addr Backoff.
Import Addr Backoff.

Open Scope Z_scope.

Module Bootstrap.

Section Bootstrap.
Context `{PeerLib} {E : Type}.

(** ** The manager *)

Record BootstrapResult : Type := mkResult {
  br_AddrInfo : AddrInfo; br_Err : option E; br_Duration : Z
}.

(** [bm_done] is the state of the manager's context. *)
Record BootstrapManager : Type := mkManager {
  bm_peers : list AddrInfo; bm_backoffCfg : BackoffConfig;
  bm_done : bool; bm_connectedCount : Z; bm_closed : bool
}.

Inductive boot_error : Type :=
  | NilHost
  | InvalidBootstrapPeer (raw : string) (e : addr_error).

(** The peers of the configured texts: empty texts and the own address are
    skipped. *)
Fixpoint parsePeers (self : string) (addrs : list string) : result boot_error (list AddrInfo) :=
  match addrs with
  | [] => Ok []
  | raw :: addrs =>
      if decide (raw = EmptyString) then parsePeers self addrs else
      pi ← map_err (InvalidBootstrapPeer raw) (ParsePeerAddr raw EmptyString);
      if decide (ai_ID pi = self) then parsePeers self addrs
      else cons pi <$> parsePeers self addrs
  end.

(** The host is its ID here, [None] for nil. *)
Definition NewBootstrapManager (h : option string) (addrs : list string) (cfg : BackoffConfig) :
    result boot_error BootstrapManager :=
  match h with
  | None => Err NilHost
  | Some self => parsedPeers ← parsePeers self addrs; Ok (mkManager parsedPeers cfg false 0 false)
  end.

Definition Peers (bm : BootstrapManager) : list AddrInfo := bm_peers bm.

(** Whether [Close] cancels and waits, and the manager after it. *)
Definition Close (bm : BootstrapManager) : bool * BootstrapManager :=
  if bm_closed bm then (false, bm)
  else (true, mkManager (bm_peers bm) (bm_backoffCfg bm) true (bm_connectedCount bm) true).

(** ** Dialling all peers *)

(** Where the goroutine of a peer is: in [Connect], before the count, or done. *)
Inductive dial_pc : Type := Dialing | Counting (err : option E) | Finished.

Record dials : Type := mkDials {
  da_results : list BootstrapResult; da_count : Z; da_threads : list dial_pc
}.

Definition zeroResult : BootstrapResult := mkResult (mkInfo EmptyString []) None 0.

Definition dials_init (bm : BootstrapManager) : dials :=
  mkDials (replicate (length (bm_peers bm)) zeroResult) (bm_connectedCount bm)
    (replicate (length (bm_peers bm)) Dialing).

(** The next operation of the goroutine [i]; [w] is what the dial of each peer
    answers and how long it takes. *)
Definition dial_step (bm : BootstrapManager) (w : nat → option E * Z) (i : nat) (s : dials) : option dials :=
  match da_threads s !! i, bm_peers bm !! i with
  | Some Dialing, Some target =>
      let '(err, dur) := w i in
      Some (mkDials (<[i := mkResult target err dur]> (da_results s)) (da_count s)
        (<[i := Counting err]> (da_threads s)))
  | Some (Counting err), _ =>
      Some (mkDials (da_results s)
        (match err with None => wrap64 (da_count s + 1) | Some _ => da_count s end)
        (<[i := Finished]> (da_threads s)))
  | _, _ => None
  end.

Fixpoint dial_run (bm : BootstrapManager) (w : nat → option E * Z) (sched : list nat) (s : dials) : option dials :=
  match sched with
  | [] => Some s
  | i :: sched => s ← dial_step bm w i s; dial_run bm w sched s
  end.

Definition finished (pc : dial_pc) : bool := match pc with Finished => true | _ => false end.

(** [ConnectAll] under a schedule of its goroutines: the results and the
    manager, once the wait group lets it return. *)
Definition ConnectAll (sched : list nat) (w : nat → option E * Z) (bm : BootstrapManager) :
    option (list BootstrapResult * BootstrapManager) :=
  match bm_peers bm with
  | [] => Some ([], bm)
  | _ =>
      s ← dial_run bm w sched (dials_init bm);
      if forallb finished (da_threads s)
      then Some (da_results s, mkManager (bm_peers bm) (bm_backoffCfg bm) (bm_done bm) (da_count s) (bm_closed bm))
      else None
  end.

(** ** The maintenance loop *)

(** A tick: the connected peers, the random number of the delay, the error of
    the manager's context if it ends during the delay, and the outcomes of
    dials. *)
Record Tick : Type := mkTick {
  tk_connected : list string; tk_rand : float64; tk_ctx : option E; tk_dial : AddrInfo → option E
}.

Definition connected (t : Tick) (bp : AddrInfo) : bool := bool_decide (ai_ID bp ∈ tk_connected t).

(** The peers a tick dials and the backoff after it, [None] when the loop
    returns. *)
Definition on_tick (out : float64 → Z) (bm : BootstrapManager) (t : Tick) (b : Backoff) :
    list AddrInfo * option Backoff :=
  let hasBootstrap := existsb (connected t) (bm_peers bm) in
  let disconnected := List.filter (λ bp, negb (connected t bp)) (bm_peers bm) in
  if hasBootstrap then ([], Some (Reset b)) else
  match disconnected with
  | [] => ([], Some b)
  | _ =>
      match Sleep out (tk_rand t) (tk_ctx t) b with
      | (b, Some _) => ([], None)
      | (b, None) =>
          let reconnected := existsb (λ bp, bool_decide (tk_dial t bp = None)) disconnected in
          (disconnected, Some (if reconnected then Reset b else b))
      end
  end.

(** What wakes the loop: a tick, or the end of a context. *)
Inductive wake : Type := Ticked (t : Tick) | CtxDone.

Fixpoint loop (out : float64 → Z) (bm : BootstrapManager) (events : list wake) (b : Backoff) :
    list (list AddrInfo) * option Backoff :=
  match events with
  | [] => ([], Some b)
  | CtxDone :: _ => ([], None)
  | Ticked t :: events =>
      match on_tick out bm t b with
      | (l, None) => ([l], None)
      | (l, Some b) => let '(ls, r) := loop out bm events b in (l :: ls, r)
      end
  end.

Definition maintainLoop (out : float64 → Z) (bm : BootstrapManager) (events : list wake) :
    list (list AddrInfo) * option Backoff :=
  loop out bm events (NewBackoff (bm_backoffCfg bm)).

(** [Start] launches nothing when there is no peer. *)
Definition Start (out : float64 → Z) (bm : BootstrapManager) (events : list wake) :
    option (list (list AddrInfo) * option Backoff) :=
  match bm_peers bm with [] => None | _ => Some (maintainLoop out bm events) end.

(** ** Specification *)

(** What each peer's dial gives, in the order of the peers. *)
Definition all_results (bm : BootstrapManager) (w : nat → option E * Z) : list BootstrapResult :=
  imap (λ i target, mkResult target (w i).1 (w i).2) (bm_peers bm).

Definition successes (l : list BootstrapResult) : Z :=
  Z.of_nat (length (filter (λ r, br_Err r = None) l)).

(** A tick that finds no bootstrap peer connected, and whose dials all fail. *)
Definition lost (bm : BootstrapManager) (t : Tick) : Prop := Forall (λ bp, ai_ID bp ∉ tk_connected t) (bm_peers bm).
Definition failing (bm : BootstrapManager) (t : Tick) : Prop :=
  lost bm t ∧ tk_ctx t = None ∧ Forall (λ bp, is_Some (tk_dial t bp)) (bm_peers bm).

End Bootstrap.
Arguments BootstrapResult {_} E.
Arguments Tick {_} E.
Arguments dials {_} E.
Arguments wake {_} E.
End Bootstrap.

Import Bootstrap.

(** ** Dialling *)

Section Dialling.
Context `{PeerLib} {E : Type}.
Implicit Types (bm : BootstrapManager) (w : nat → option E * Z) (s : dials E).

(** The operations a goroutine has left. *)
Definition ops_left (pc : dial_pc (E:=E)) : nat :=
  match pc with Dialing => 2 | Counting _ => 1 | Finished => 0 end.

(** The successes counted so far. *)
Fixpoint tally (w : nat → option E * Z) (l : list (dial_pc (E:=E))) : Z :=
  match l with
  | [] => 0
  | pc :: l =>
      (match pc, (w 0%nat).1 with Finished, None => 1 | _, _ => 0 end) + tally (λ i, w (S i)) l
  end.

Lemma tally_finish w l i err : l !! i = Some (Counting err) → (w i).1 = err →
  tally w (<[i := Finished]> l) = tally w l + match err with None => 1 | Some _ => 0 end.
Proof.
  revert w i. induction l as [|pc l IH]; intros w i; [done|]. destruct i as [|i]; simpl.
  - intros [= ->] ->. destruct err; lia.
  - intros Hl Hw. rewrite (IH (λ i, w (S i)) i Hl Hw). lia.
Qed.

Lemma tally_same w l i pc pc' : l !! i = Some pc → pc ≠ Finished → pc' ≠ Finished →
  tally w (<[i := pc']> l) = tally w l.
Proof.
  revert w i. induction l as [|x l IH]; intros w i; [done|]. destruct i as [|i]; simpl.
  - intros [= ->]. destruct pc, pc'; done.
  - intros Hl ??. by rewrite IH.
Qed.

Lemma tally_all w (peers : list AddrInfo) :
  tally w (replicate (length peers) Finished) =
  successes (imap (λ i target, mkResult target (w i).1 (w i).2) peers).
Proof.
  revert w. induction peers as [|p peers IH]; intros w; [done|]. rewrite imap_cons. cbn [length replicate tally].
  rewrite IH. unfold successes. rewrite filter_cons. unfold compose. cbn [br_Err].
  destruct (w 0%nat).1; [rewrite decide_False by done|rewrite decide_True by done]; cbn [length]; lia.
Qed.

Lemma tally_none w n : tally w (replicate n Dialing) = 0.
Proof. revert w. induction n as [|n IH]; intros w; [done|]. cbn. by rewrite IH. Qed.

(** The state a schedule still has to bring to its end. *)
Record dialling bm w (sched : list nat) s : Prop := mkDialling {
  dg_results : length (da_results s) = length (bm_peers bm);
  dg_threads : length (da_threads s) = length (bm_peers bm);
  dg_left : ∀ i pc, da_threads s !! i = Some pc → length (filter (i =.) sched) = ops_left pc;
  dg_sched : ∀ i, i ∈ sched → (i < length (bm_peers bm))%nat;
  dg_pc : ∀ i pc target, da_threads s !! i = Some pc → bm_peers bm !! i = Some target → pc ≠ Dialing →
    da_results s !! i = Some (mkResult target (w i).1 (w i).2) ∧ (pc = Counting (w i).1 ∨ pc = Finished);
  dg_count : da_count s = wrap64 (bm_connectedCount bm + tally w (da_threads s))
}.

Lemma count_cons (i j : nat) l : length (filter (i =.) (j :: l)) = 
  ((if decide (i = j) then 1 else 0) + length (filter (i =.) l))%nat.
Proof. rewrite filter_cons. by destruct (decide (i = j)). Qed.

Lemma dialling_step bm w i sched s : dialling bm w (i :: sched) s →
  ∃ s', dial_step bm w i s = Some s' ∧ dialling bm w sched s'.
Proof.
  intros [Hr Ht Hl Hs Hp Hc].
  assert (Hi : (i < length (bm_peers bm))%nat) by (apply Hs; left).
  destruct (lookup_lt_is_Some_2 (da_threads s) i ltac:(lia)) as [pc Epc].
  destruct (lookup_lt_is_Some_2 (bm_peers bm) i Hi) as [target Etarget].
  assert (Hi' := Hl i pc Epc). rewrite count_cons, decide_True in Hi' by done.
  unfold dial_step. rewrite Epc, Etarget. destruct pc as [|err|]; cbn in Hi'; [| |lia].
  - destruct (w i) as [err dur] eqn:Ew. eexists. split; [done|]. split; cbn.
    + by rewrite length_insert.
    + by rewrite length_insert.
    + intros j pc Hj. destruct (decide (i = j)) as [<-|Hij].
      * rewrite list_lookup_insert_eq in Hj by lia. injection Hj as <-. cbn. lia.
      * rewrite list_lookup_insert_ne in Hj by done. specialize (Hl j pc Hj).
        by rewrite count_cons, decide_False in Hl by done.
    + intros j Hj. apply Hs. by right.
    + intros j pc t Hj Hbt Hd. destruct (decide (i = j)) as [<-|Hij].
      * rewrite list_lookup_insert_eq in Hj by lia. injection Hj as <-.
        rewrite list_lookup_insert_eq by lia. rewrite Ew. simplify_eq. eauto.
      * rewrite list_lookup_insert_ne in Hj by done. rewrite list_lookup_insert_ne by done. eauto.
    + by rewrite (tally_same w _ i Dialing).
  - destruct (Hp i _ target Epc Etarget) as [Hres [[= ->]|?]]; [done| |done].
    eexists. split; [done|]. split; cbn.
    + done.
    + by rewrite length_insert.
    + intros j pc Hj. destruct (decide (i = j)) as [<-|Hij].
      * rewrite list_lookup_insert_eq in Hj by lia. injection Hj as <-. cbn. lia.
      * rewrite list_lookup_insert_ne in Hj by done. specialize (Hl j pc Hj).
        by rewrite count_cons, decide_False in Hl by done.
    + intros j Hj. apply Hs. by right.
    + intros j pc t Hj Hbt Hd. destruct (decide (i = j)) as [<-|Hij].
      * rewrite list_lookup_insert_eq in Hj by lia. injection Hj as <-. simplify_eq. eauto.
      * rewrite list_lookup_insert_ne in Hj by done. eauto.
    + rewrite (tally_finish w _ i _ Epc eq_refl), Hc. destruct (w i).1.
      * by rewrite Z.add_0_r.
      * rewrite wrap64_add. f_equal. lia.
Qed.

Lemma dialling_run bm w sched s : dialling bm w sched s →
  ∃ s', dial_run bm w sched s = Some s' ∧ dialling bm w [] s'.
Proof.
  revert s. induction sched as [|i sched IH]; intros s Hs; cbn [dial_run]; [eauto|].
  apply dialling_step in Hs as (s' & -> & Hs). cbn. auto.
Qed.

Lemma dialling_end bm w s : dialling bm w [] s →
  da_threads s = replicate (length (bm_peers bm)) Finished ∧ da_results s = all_results bm w.
Proof.
  intros [Hr Ht Hl _ Hp _].
  assert (Hfin : ∀ i pc, da_threads s !! i = Some pc → pc = Finished).
  { intros i pc Hi. specialize (Hl i pc Hi). by destruct pc. }
  split.
  - rewrite <- Ht. apply list_eq_Forall2, Forall2_same_length_lookup_2; [by rewrite length_replicate|].
    intros i x y Hx Hy. apply Hfin in Hx as ->. by apply lookup_replicate in Hy as [-> _].
  - apply list_eq. intros i. unfold all_results. rewrite list_lookup_imap.
    destruct (bm_peers bm !! i) as [target|] eqn:Et; cbn.
    + apply lookup_lt_Some in Et as Hi. destruct (lookup_lt_is_Some_2 (da_threads s) i ltac:(lia)) as [pc Epc].
      destruct (Hp i pc target Epc Et) as [-> _]; [by rewrite (Hfin _ _ Epc)|done].
    + apply lookup_ge_None in Et. apply lookup_ge_None. lia.
Qed.

Lemma dialling_init bm w sched : int64 (bm_connectedCount bm) →
  sched ≡ₚ seq 0 (length (bm_peers bm)) ++ seq 0 (length (bm_peers bm)) → dialling bm w sched (dials_init bm).
Proof.
  intros Hc Hs. split; cbn.
  - by rewrite length_replicate.
  - by rewrite length_replicate.
  - intros i pc [-> Hi]%lookup_replicate. rewrite Hs, filter_app, length_app. cbn.
    assert (∀ a n, (a ≤ i < a + n)%nat → length (filter (i =.) (seq a n)) = 1%nat) as Hseq.
    { intros a n. revert a. induction n as [|n IH]; intros a Ha; [lia|]. cbn [seq]. rewrite count_cons.
      case_decide as Hd; [|rewrite IH; lia]. subst. 
      assert (∀ m b, (a < b)%nat → length (filter (a =.) (seq b m)) = 0%nat) as ->; [|lia|lia].
      intros m. induction m as [|m IHm]; intros b Hb; [done|]. cbn [seq]. rewrite count_cons, decide_False by lia.
      rewrite IHm; lia. }
    rewrite !Hseq by lia. done.
  - intros i. rewrite Hs, elem_of_app, !elem_of_seq. lia.
  - intros i pc target [-> _]%lookup_replicate. done.
  - by rewrite tally_none, Z.add_0_r, wrap64_id.
Qed.

End Dialling.

(** ** The loop *)

Section Loop.
Context `{PeerLib} {E : Type} (out : float64 → Z).
Implicit Types (bm : BootstrapManager) (t : Tick E) (b : Backoff).

Lemma lost_none bm t : lost bm t → existsb (connected t) (bm_peers bm) = false ∧
  List.filter (λ bp, negb (connected t bp)) (bm_peers bm) = bm_peers bm.
Proof.
  unfold lost, connected. induction (bm_peers bm) as [|p l IH]; intros Hl; [done|].
  apply Forall_cons in Hl as [Hp [E1 E2]%IH]. cbn. rewrite bool_decide_eq_false_2 by done. cbn. by rewrite E1, E2.
Qed.

Lemma none_lost bm t : existsb (connected t) (bm_peers bm) = false → lost bm t.
Proof.
  unfold lost, connected. induction (bm_peers bm) as [|p l IH]; cbn; [by constructor|].
  intros [Hp Hl]%orb_false_iff. constructor; [by apply bool_decide_eq_false in Hp|auto].
Qed.

Lemma all_fail t (l : list AddrInfo) : Forall (λ bp, is_Some (tk_dial t bp)) l →
  existsb (λ bp, bool_decide (tk_dial t bp = None)) l = false.
Proof.
  induction 1 as [|p l [e Hp] _ IH]; [done|]. cbn. rewrite Hp, IH. done.
Qed.

(** A failing tick costs one attempt. *)
Lemma failing_tick bm t b : failing bm t → bm_peers bm ≠ [] → HasNext b = true →
  on_tick out bm t b = (bm_peers bm, Some (NextDelay out (tk_rand t) b).2).
Proof.
  intros (Hl & Hc & Hd) Hne Hn. unfold on_tick. destruct (lost_none bm t Hl) as [-> ->].
  destruct (bm_peers bm) as [|p l] eqn:Ep; [done|]. unfold Sleep. rewrite Hn, Hc. cbn [negb].
  destruct (NextDelay out (tk_rand t) b) as [d b'] eqn:En. cbn. apply Forall_cons in Hd as [[e ->] Hd].
  rewrite all_fail by done. done.
Qed.

(** A tick that finds none connected after the last attempt ends the loop. *)
Lemma last_tick bm t b : lost bm t → bm_peers bm ≠ [] → HasNext b = false → on_tick out bm t b = ([], None).
Proof.
  intros Hl Hne Hn. unfold on_tick. destruct (lost_none bm t Hl) as [-> ->].
  destruct (bm_peers bm) as [|p l] eqn:Ep; [done|]. unfold Sleep. by rewrite Hn.
Qed.

Lemma next_attempts r b : 0 ≤ bo_attempts b < bc_MaxRetries (bo_cfg b) → bc_MaxRetries (bo_cfg b) < 2 ^ 63 →
  let b' := (NextDelay out r b).2 in bo_cfg b' = bo_cfg b ∧ bo_attempts b' = bo_attempts b + 1.
Proof. intros. cbn. by rewrite wrap64_id by (unfold int64; lia). Qed.

Lemma loop_gives_up bm ts t rest b : 0 ≤ bo_attempts b → bc_MaxRetries (bo_cfg b) < 2 ^ 63 →
  bo_attempts b + Z.of_nat (length ts) = bc_MaxRetries (bo_cfg b) → 0 < bc_MaxRetries (bo_cfg b) →
  bm_peers bm ≠ [] → Forall (failing bm) ts → lost bm t →
  loop out bm (map Ticked ts ++ Ticked t :: rest) b = (replicate (length ts) (bm_peers bm) ++ [[]], None).
Proof.
  intros Ha Hm Hn Hpos Hne Hts Hl. revert b Ha Hm Hn Hpos. induction Hts as [|t' ts Ht' Hts IH]; intros b Ha Hm Hn Hpos.
  - cbn [map app loop length replicate]. rewrite last_tick; [done|done|done|].
    unfold HasNext. cbn in Hn. destruct (Z.leb_spec (bc_MaxRetries (bo_cfg b)) 0); [lia|]. apply Z.ltb_ge. lia.
  - cbn [map app loop length replicate] in *. rewrite failing_tick; [|done|done|].
    2:{ unfold HasNext. destruct (Z.leb_spec (bc_MaxRetries (bo_cfg b)) 0); [lia|]. apply Z.ltb_lt. lia. }
    destruct (next_attempts (tk_rand t') b) as [Ec Ea]; [lia|lia|].
    rewrite IH; [done|rewrite Ea; lia|rewrite Ec; lia|rewrite Ec, Ea; lia|rewrite Ec; lia].
Qed.

(** Without a limit every tick has a next attempt. *)
Lemma on_tick_unlimited bm t b : bc_MaxRetries (bo_cfg b) ≤ 0 → tk_ctx t = None →
  ∃ l b', on_tick out bm t b = (l, Some b') ∧ bo_cfg b' = bo_cfg b.
Proof.
  intros Hm Hc. unfold on_tick. destruct (existsb _ _); [by eauto|].
  destruct (List.filter _ _) eqn:Ef; [by eauto|]. unfold Sleep, HasNext. rewrite (proj2 (Z.leb_le _ _)) by done.
  cbn [negb]. rewrite Hc. destruct (NextDelay out (tk_rand t) b) as [d b'] eqn:En. cbn [fmap option_fmap option_map].
  assert (bo_cfg b' = bo_cfg b) as Hb by (by injection En as _ <-). eexists _, _. split; [done|]. by destruct (existsb _ _).
Qed.

End Loop.

(** ** Properties *)

Lemma parsePeers_spec `{PeerLib} self addrs l : parsePeers self addrs = Ok l →
  (∀ pi, pi ∈ l → ai_ID pi ≠ self) ∧
  (∀ raw, raw ∈ addrs → raw ≠ EmptyString → ∃ pi, ParsePeerAddr raw EmptyString = Ok pi ∧ (pi ∈ l ∨ ai_ID pi = self)).
Proof.
  revert l. induction addrs as [|raw addrs IH]; cbn; intros l.
  - intros [= <-]. split; intros ? ?%elem_of_nil; done.
  - destruct (decide (raw = EmptyString)) as [->|Hraw].
    { intros [H1 H2]%IH. split; [done|]. intros raw [->|?]%elem_of_cons ?; [done|eauto]. }
    intros (pi & Hpi & Hrest)%bind_ok_iff. destruct (ParsePeerAddr raw EmptyString) as [pi'|] eqn:Er; [|done].
    injection Hpi as ->. destruct (decide (ai_ID pi = self)) as [Hs|Hs].
    + apply IH in Hrest as [H1 H2]. split; [done|]. intros raw' [->|?]%elem_of_cons ?; eauto.
    + destruct (parsePeers self addrs) as [l'|]; [|done]. injection Hrest as <-.
      destruct (IH l' eq_refl) as [H1 H2]. split; [intros ? [->|?]%elem_of_cons; eauto|].
      intros raw' [->|Hin]%elem_of_cons Hne; [exists pi; split; [done|left; left]|].
      destruct (H2 raw' Hin Hne) as (q & Hq & [?|?]); exists q; (split; [done|]); [left; by right|by right].
Qed.

(** A complete schedule brings [ConnectAll] to its end. *)
Lemma connect_all_spec `{PeerLib} {E} (bm : BootstrapManager) (w : nat → option E * Z) sched :
  int64 (bm_connectedCount bm) →
  sched ≡ₚ seq 0 (length (bm_peers bm)) ++ seq 0 (length (bm_peers bm)) →
  ConnectAll sched w bm = Some (all_results bm w,
    mkManager (bm_peers bm) (bm_backoffCfg bm) (bm_done bm)
      (wrap64 (bm_connectedCount bm + successes (all_results bm w))) (bm_closed bm)).
Proof.
  intros Hc Hs. pose proof (dialling_init bm w sched Hc Hs) as Hd.
  apply dialling_run in Hd as (s & Hrun & Hd). destruct (dialling_end bm w s Hd) as [Ht Hr].
  apply dg_count in Hd. rewrite Ht, tally_all in Hd. unfold ConnectAll.
  destruct (bm_peers bm) as [|p l] eqn:Ep.
  - unfold all_results, successes. rewrite Ep. cbn. rewrite Z.add_0_r, wrap64_id by done.
    destruct bm; cbn in *; by subst.
  - rewrite Hrun. cbn [mbind option_bind]. rewrite Ht, Hr, Hd.
    assert (forallb finished (replicate (length (p :: l)) (Finished (E:=E))) = true) as ->
      by (generalize (length (p :: l)) as n; induction n; done).
    unfold all_results. by rewrite Ep.
Qed.

(** C19: [ConnectAll] is deterministic: under every interleaving of its goroutines
    it returns, with the outcome of each peer's dial in the order of the peers,
    and counts exactly the successes. *)
Theorem ConnectAll_deterministic `{PeerLib} {E} (bm : BootstrapManager) (w : nat → option E * Z) sched :
  int64 (bm_connectedCount bm) →
  sched ≡ₚ seq 0 (length (bm_peers bm)) ++ seq 0 (length (bm_peers bm)) →
  ConnectAll sched w bm = Some (all_results bm w,
    mkManager (bm_peers bm) (bm_backoffCfg bm) (bm_done bm)
      (wrap64 (bm_connectedCount bm + successes (all_results bm w))) (bm_closed bm)).
Proof. apply connect_all_spec. Qed.

Definition demo_manager : BootstrapManager :=
  mkManager [mkInfo "12D3a" ["/ip4/10.0.0.1/tcp/1"]; mkInfo "12D3b" ["/ip4/10.0.0.2/tcp/1"]] DefaultBackoffConfig false 0 false.

Lemma ConnectAll_deterministic_witness : ∃ bm' : BootstrapManager,
  ConnectAll [1; 0; 0; 1]%nat (λ i, if (i =? 0)%nat then (Some "refused", 7) else (None, 3)) demo_manager =
  Some ([mkResult (mkInfo "12D3a" ["/ip4/10.0.0.1/tcp/1"]) (Some "refused") 7;
         mkResult (mkInfo "12D3b" ["/ip4/10.0.0.2/tcp/1"]) None 3], bm') ∧ bm_connectedCount bm' = 1.
Proof.
  eexists. rewrite ConnectAll_deterministic; [split; reflexivity|by vm_compute|].
  cbn. transitivity [0; 1; 0; 1]%nat; [apply (Permutation_app_swap_app [1]%nat [0]%nat [0; 1]%nat)|done].
Defined.

(** The maintenance loop gives up for good: once none of the bootstrap peers
    can be reached for [MaxRetries] ticks, the next tick that still finds none
    connected ends it without a dial, and whatever happens later nothing is
    dialled again. *)
Theorem maintain_gives_up `{PeerLib} {E} out (bm : BootstrapManager) (ts : list (Tick E)) t rest :
  0 < bc_MaxRetries (bm_backoffCfg bm) < 2 ^ 63 → Z.of_nat (length ts) = bc_MaxRetries (bm_backoffCfg bm) →
  bm_peers bm ≠ [] → Forall (failing bm) ts → lost bm t →
  Start out bm (map Ticked ts ++ Ticked t :: rest) = Some (replicate (length ts) (bm_peers bm) ++ [[]], None).
Proof.
  intros Hm Hn Hne Hts Hl. unfold Start. destruct (bm_peers bm) as [|p l] eqn:Ep; [done|]. f_equal. rewrite <- Ep.
  apply loop_gives_up; cbn; [lia|lia|lia|lia|by rewrite Ep|done|done].
Qed.

Definition demo_tick : Tick string := mkTick [] (float_const 1 2) None (λ _, Some "refused").

Lemma maintain_gives_up_witness :
  Start out_amd64 demo_manager (map Ticked (replicate 5 demo_tick) ++ Ticked demo_tick ::
    replicate 100 (Ticked (mkTick [] (float_const 1 2) None (λ _, None)))) =
  Some (replicate 5 (bm_peers demo_manager) ++ [[]], None).
Proof.
  assert (Hf : failing demo_manager demo_tick).
  { split; [|split]; [repeat constructor; apply not_elem_of_nil|done|repeat constructor; by eexists]. }
  apply (maintain_gives_up out_amd64 demo_manager (replicate 5 demo_tick)); [by vm_compute|done|done|by apply Forall_replicate|apply Hf].
Defined.

(** Without a retry limit the loop never ends by itself. *)
Theorem maintain_unlimited `{PeerLib} {E} out (bm : BootstrapManager) (ts : list (Tick E)) :
  bc_MaxRetries (bm_backoffCfg bm) ≤ 0 → Forall (λ t, tk_ctx t = None) ts →
  ∃ l b, maintainLoop out bm (map Ticked ts) = (l, Some b) ∧ length l = length ts.
Proof.
  intros Hm Hts. unfold maintainLoop.
  assert (Hb : bc_MaxRetries (bo_cfg (NewBackoff (bm_backoffCfg bm))) ≤ 0) by done.
  revert Hb. generalize (NewBackoff (bm_backoffCfg bm)) as b. induction Hts as [|t ts Ht Hts IH]; intros b Hb; cbn; [by eauto|].
  destruct (on_tick_unlimited out bm t b Hb Ht) as (l & b' & -> & Hb').
  destruct (IH b') as (ls & b'' & E' & Hlen); [by rewrite Hb'|]. rewrite E'. eexists _, _. split; [done|]. cbn. by rewrite Hlen.
Qed.

Lemma maintain_unlimited_witness :
  let bm := mkManager (bm_peers demo_manager) (mkConfig 0 0 (float_const 2 1) 0 false) false 0 false in
  ∃ l b, maintainLoop out_amd64 bm (map Ticked (replicate 9 demo_tick)) = (l, Some b) ∧ length l = 9%nat.
Proof. apply (maintain_unlimited out_amd64 (mkManager (bm_peers demo_manager) (mkConfig 0 0 (float_const 2 1) 0 false) false 0 false)); [done|by repeat constructor]. Defined.
