(* ===== verification/Node.v ===== *)
(** * The libp2p node

    [internal/network/p2p/host.go], [builder.go] and [mdns_notifee.go]: one
    message per stream, sent with the frames of [Protocol] and handed to the
    registered handler under the peer ID the connection authenticated; the
    options a node is built with.  The libp2p host is a class; opening a stream,
    setting a deadline and starting services are inputs. *)

From S2P Require Import Prelude GoStrings Json Protocol Addr.
Import Addr.

Open Scope Z_scope.

(** The methods of [host.Host] the program calls. *)
Class LibHost (H E : Type) `{PeerLib} : Type := {
  host_ID : H → string;
  host_Addrs : H → list Multiaddr;
  host_Peers : H → list string;
  host_Connect : H → AddrInfo → H * option E;
  host_Close : H → H * option E
}.

Module Node.

Definition ProtocolID : string := "/skall/msg/1.0.0".

Section Node.
Context {H E : Type} `{LibHost H E}.
(** Handlers are compared, not run: calls of them are recorded. *)
Context {F : Type}.

(** [nd_mdnsSvc] is the answer of closing the mDNS service that runs. *)
Record Node : Type := mkNode { nd_host : H; nd_mdnsSvc : option (option E); nd_handler : option F }.

Definition newNode (h : H) : Node := mkNode h None None.

Definition ID (n : Node) : string := host_ID (nd_host n).
Definition Addrs (n : Node) : list Multiaddr := host_Addrs (nd_host n).
Definition LibP2PHost (n : Node) : H := nd_host n.
Definition ConnectedPeers (n : Node) : list string := host_Peers (nd_host n).

Definition SetMessageHandler (h : option F) (n : Node) : Node := mkNode (nd_host n) (nd_mdnsSvc n) h.

Definition Connect (pi : AddrInfo) (n : Node) : Node * option E :=
  if decide (ai_ID pi = host_ID (nd_host n)) then (n, None)
  else let '(h, err) := host_Connect (nd_host n) pi in (mkNode h (nd_mdnsSvc n) (nd_handler n), err).

(** An error of the mDNS service is only logged. *)
Definition Close (n : Node) : Node * option E :=
  let '(h, err) := host_Close (nd_host n) in (mkNode h (nd_mdnsSvc n) (nd_handler n), err).

(** ** Sending *)

Section Streams.
Context {W WE : Type} `{!Writer W WE}.

Inductive send_error : Type :=
  | SendToSelf
  | OpenStream (e : E)
  | SetDeadline (e : E)
  | SendWrite (e : write_error (E:=WE)).

(** What the sender did with a stream: the bytes went to the writer; it was
    reset or only closed for writing. *)
Record OutStream : Type := mkOut { os_writer : W; os_reset : bool; os_write_closed : bool }.

(** [open] is the answer of [NewStream], [deadline] of [SetDeadline]. *)
Definition SendMessage (open : result E W) (deadline : option E) (peerID : string) (msg : Message) (n : Node) :
    option OutStream * result send_error () :=
  if decide (peerID = host_ID (nd_host n)) then (None, Err SendToSelf) else
  match open with
  | Err e => (None, Err (OpenStream e))
  | Ok s =>
      match deadline with
      | Some e => (Some (mkOut s true true), Err (SetDeadline e))
      | None =>
          match WriteMessage s msg with
          | (s, Err e) => (Some (mkOut s true true), Err (SendWrite e))
          | (s, Ok _) => (Some (mkOut s false true), Ok ())
          end
      end
  end.
End Streams.

(** ** Receiving *)

(** The end of an inbound stream: the calls of handlers, and whether it was
    reset; it is closed in any case. *)
Record InStream : Type := mkIn { is_calls : list (F * Message * string); is_reset : bool }.

(** [remote] is the peer ID the connection authenticated. *)
Definition handleStream (deadline : option E) (remote : string) (s : stream) (n : Node) : InStream :=
  match deadline with
  | Some _ => mkIn [] true
  | None =>
      match ReadMessage s with
      | (Err _, _) => mkIn [] true
      | (Ok msg, _) =>
          match nd_handler n with
          | Some h => mkIn [(h, msg, remote)] false
          | None => mkIn [] false
          end
      end
  end.

(** The peer [HandlePeerFound] starts a goroutine to connect to. *)
Definition HandlePeerFound (pi : AddrInfo) (n : Node) : option AddrInfo :=
  if decide (ai_ID pi = ID n) then None else Some pi.

(** ** Building *)

Record NodeOptions : Type := mkOptions {
  no_ListenAddrs : list string; no_EnableMDNS : bool; no_EnableNATPortMap : bool; no_EnableAutoNAT : bool;
  no_EnableRelay : bool; no_EnableHolePunch : bool; no_AdvertisedAddrs : list string;
  no_StaticRelayPeers : list AddrInfo
}.

Definition DefaultListenAddrs : list string := ["/ip4/0.0.0.0/tcp/0"; "/ip6/::/tcp/0"].

Context {K : Type}.

(** The options handed to [libp2p.New]. *)
Inductive Libp2pOption : Type :=
  | OptIdentity (key : K)
  | ListenAddrStrings (addrs : list string)
  | NATPortMap
  | EnableAutoNATv2
  | EnableAutoRelayWithStaticRelays (peers : list AddrInfo)
  | EnableAutoRelay
  | EnableHolePunching
  | AddrsFactory (advertised : list Multiaddr).

Inductive build_error : Type :=
  | ConvertKey (e : E)
  | InvalidAdvertised (raw : string)
  | CreateHost (e : E)
  | StartMDNS (e : E).

Fixpoint parseAdvertised (addrs : list string) : result build_error (list Multiaddr) :=
  match addrs with
  | [] => Ok []
  | raw :: addrs =>
      match NewMultiaddr raw with
      | None => Err (InvalidAdvertised raw)
      | Some addr => cons addr <$> parseAdvertised addrs
      end
  end.

Definition libp2pOpts (key : K) (opts : NodeOptions) : result build_error (list Libp2pOption) :=
  let listen := match no_ListenAddrs opts with [] => DefaultListenAddrs | l => l end in
  let l := [OptIdentity key; ListenAddrStrings listen]
    ++ (if no_EnableNATPortMap opts then [NATPortMap] else [])
    ++ (if no_EnableAutoNAT opts then [EnableAutoNATv2] else [])
    ++ (if no_EnableRelay opts
        then match no_StaticRelayPeers opts with
             | [] => [EnableAutoRelay]
             | peers => [EnableAutoRelayWithStaticRelays peers]
             end
        else [])
    ++ (if no_EnableHolePunch opts then [EnableHolePunching] else []) in
  match no_AdvertisedAddrs opts with
  | [] => Ok l
  | raws => advertised ← parseAdvertised raws; Ok (l ++ [AddrsFactory advertised])
  end.

(** The environment of a build: the converted key, the host [libp2p.New] makes
    of the options, the start of the mDNS service and what closing it answers. *)
Record BuildEnv : Type := mkBuildEnv {
  be_key : result E K; be_new : list Libp2pOption → result E H; be_mdns : option E; be_mdns_close : option E
}.

(** The node, or the error and the host that was closed on the way. *)
Definition BuildNodeWithOptions (env : BuildEnv) (opts : NodeOptions) : result (build_error * option H) Node :=
  match be_key env with
  | Err e => Err (ConvertKey e, None)
  | Ok key =>
      match libp2pOpts key opts with
      | Err e => Err (e, None)
      | Ok l =>
          match be_new env l with
          | Err e => Err (CreateHost e, None)
          | Ok h =>
              let node := newNode h in
              if no_EnableMDNS opts then
                match be_mdns env with
                | Some e => Err (StartMDNS e, Some (host_Close h).1)
                | None => Ok (mkNode h (Some (be_mdns_close env)) None)
                end
              else Ok node
          end
      end
  end.

Definition BuildNode (env : BuildEnv) (listenAddrs : list string) : result (build_error * option H) Node :=
  BuildNodeWithOptions env (mkOptions listenAddrs true true false false false [] []).

Definition BuildNodeNoMDNS (env : BuildEnv) (listenAddrs : list string) : result (build_error * option H) Node :=
  BuildNodeWithOptions env (mkOptions listenAddrs false false false false false [] []).

End Node.

Arguments Node H {_} F.
Arguments OutStream W : clear implicits.
Arguments InStream F : clear implicits.
End Node.

Import Node.

(** ** Cut frames *)

Lemma ReadFull_short n s e : (String.length s < n)%nat → ∃ x, ReadFull n (mkStream s e) = (Err x, mkStream EmptyString e).
Proof.
  intros Hl. unfold ReadFull. cbn [s_bytes s_end]. rewrite (proj2 (Nat.leb_gt _ _)) by done.
  destruct e; [case_bool_decide|..]; eauto.
Qed.

(** A frame cut short is not read as a message. *)
Lemma ReadMessage_cut m f n e : frame m = Ok f → (n < String.length f)%nat →
  ∃ x r, ReadMessage (mkStream (take_s n f) e) = (Err x, r).
Proof.
  intros (p & Hp & ->)%frame_Ok Hn. pose proof (marshal_size m p Hp) as Hs. rewrite length_app_s, length_put_uint32 in Hn.
  unfold ReadMessage. destruct (decide (n < 4)%nat) as [H4|H4].
  - destruct (ReadFull_short frameHeaderSize (take_s n (put_uint32 (slen p) +:+ p)) e) as [x ->]; [|eauto].
    rewrite length_take_s. unfold frameHeaderSize. lia.
  - replace n with (String.length (put_uint32 (slen p)) + (n - 4))%nat by (rewrite length_put_uint32; lia).
    rewrite take_s_app_ge, ReadFull_app by apply length_put_uint32.
    rewrite <- (app_nil_r_s (put_uint32 (slen p))), get_put_uint32 by lia. unfold MaxFrameSize.
    rewrite (proj2 (Z.eqb_neq _ _)), (proj2 (Z.ltb_ge _ _)) by lia.
    destruct (ReadFull_short (Z.to_nat (slen p)) (take_s (n - 4) p) e) as [x ->]; [|eauto].
    rewrite length_take_s. unfold slen. lia.
Qed.

Section Streams.
Context `{LibHost H E} {F W WE : Type} `{!Writer W WE}.

Lemma handleStream_ok (b : Node H F) m f remote e : frame m = Ok f → utf8_message m = true →
  handleStream (E:=E) None remote (mkStream f e) b =
  mkIn (match nd_handler b with Some h => [(h, m, remote)] | None => [] end) false.
Proof.
  intros Hf Hu. unfold handleStream. rewrite <- (app_nil_r_s f), (wire_one m f) by done. by destruct (nd_handler b).
Qed.

Lemma handleStream_cut (b : Node H F) m f n remote e : frame m = Ok f → utf8_message m = true →
  handleStream (E:=E) None remote (mkStream (take_s n f) e) b = mkIn [] true ∨
  handleStream (E:=E) None remote (mkStream (take_s n f) e) b =
    mkIn (match nd_handler b with Some h => [(h, m, remote)] | None => [] end) false.
Proof.
  intros Hf Hu. destruct (decide (n < String.length f)%nat) as [Hn|Hn].
  - left. destruct (ReadMessage_cut m f n e Hf Hn) as (x & r & Hr). unfold handleStream. by rewrite Hr.
  - right. rewrite take_s_all by lia. by apply handleStream_ok.
Qed.

End Streams.

(** How the bytes of a stream end for the receiver. *)
Definition stream_of {W WE} `{!Writer W WE} (o : OutStream W) : stream :=
  mkStream (written (os_writer o)) (if os_reset o then ReadFailed else EOF).

(** The calls of the receiving node's handler for a stream of the sender. *)
Definition received {H E} `{LibHost H E} {F W WE} `{!Writer W WE} (a b : Node H F) (o : OutStream W) :
    list (F * Message * string) :=
  is_calls (handleStream (E:=E) None (ID a) (stream_of o) b).

(** A stream that was sent in full. *)
Lemma sent_received {H E} `{LibHost H E} {F W WE} `{!Writer W WE} (a b : Node H F) (s : W) deadline h msg o :
  written s = EmptyString → utf8_message msg = true → nd_handler b = Some h →
  SendMessage (Ok s) deadline (ID b) msg a = (Some o, Ok ()) → received a b o = [(h, msg, ID a)].
Proof.
  intros Hs Hu Hb. unfold SendMessage, received, stream_of. case_decide; [done|]. destruct deadline; [done|].
  destruct (WriteMessage s msg) as [w' [[]|e]] eqn:Ew; [|done]. apply WriteMessage_spec in Ew as (f & Hf & Hw).
  intros [= <-]. cbn [os_writer os_reset]. rewrite Hw, Hs, app_nil_l_s, (handleStream_ok b msg f) by done. by rewrite Hb.
Qed.

(** C24: from one node to another, over a fresh stream of any conforming writer, for
    a message whose texts are valid UTF-8: a send that reports success makes the
    receiver call its handler once, with the very message and the sender's
    authenticated ID; a send that fails makes it call it at most once, with nothing
    else; and a message is never sent to oneself. *)
Theorem SendMessage_delivers {H E} `{LibHost H E} {F W WE} `{!Writer W WE}
    (a b : Node H F) (s : W) deadline h msg o r :
  written s = EmptyString → utf8_message msg = true → nd_handler b = Some h →
  SendMessage (Ok s) deadline (ID b) msg a = (Some o, r) →
  ID a ≠ ID b ∧
  match r with
  | Ok _ => received a b o = [(h, msg, ID a)]
  | Err _ => os_reset o = true ∧ (received a b o = [] ∨ received a b o = [(h, msg, ID a)])
  end.
Proof.
  intros Hs Hu Hb. unfold SendMessage, received, stream_of. destruct (decide (ID b = _)) as [|Hne]; [done|].
  assert (Hcut : ∀ n f, frame msg = Ok f → 
    is_calls (handleStream (E:=E) None (ID a) (mkStream (take_s n f) ReadFailed) b) = [] ∨
    is_calls (handleStream (E:=E) None (ID a) (mkStream (take_s n f) ReadFailed) b) = [(h, msg, ID a)]).
  { intros n f Hf. destruct (handleStream_cut (E:=E) b msg f n (ID a) ReadFailed Hf Hu) as [-> | ->]; rewrite ?Hb; auto. }
  assert (Hempty : is_calls (handleStream (E:=E) None (ID a) (mkStream EmptyString ReadFailed) b) = []) by done.
  destruct deadline as [e|].
  { intros [= <- <-]. split; [exact (not_eq_sym Hne)|]. cbn. rewrite Hs. auto. }
  destruct (WriteMessage s msg) as [w' [[]|e]] eqn:Ew; apply WriteMessage_spec in Ew; intros [= <- <-];
    (split; [exact (not_eq_sym Hne)|]); cbn [os_writer os_reset].
  - destruct Ew as (f & Hf & ->). rewrite Hs, app_nil_l_s, (handleStream_ok b msg f) by done. by rewrite Hb.
  - split; [done|]. destruct e as [e|[]]; [|done| |done].
    + destruct Ew as [_ ->]. rewrite Hs. auto.
    + destruct Ew as (f & n & Hf & ->). rewrite Hs, app_nil_l_s. auto.
Qed.

(** A host that is its ID and the peers it is connected to. *)
#[global] Instance small_host : LibHost (string * list string) string := {|
  host_ID := fst; host_Addrs _ := []; host_Peers := snd;
  host_Connect h pi := ((h.1, h.2 ++ [ai_ID pi]), None); host_Close h := ((h.1, []), None)
|}.

Lemma SendMessage_delivers_witness :
  let a := newNode (F:=nat) ("12D3a", []) in let b := SetMessageHandler (Some 7%nat) (newNode ("12D3b", [])) in
  ∃ o, SendMessage (Ok (mkLimited EmptyString 1000)) None "12D3b" sample_message a = (Some o, Ok ()) ∧
    received a b o = [(7%nat, sample_message, "12D3a")].
Proof.
  cbn zeta. set (a := newNode _). set (b := SetMessageHandler _ _).
  destruct (SendMessage (Ok (mkLimited EmptyString 1000)) None "12D3b" sample_message a) as [o r] eqn:E0.
  destruct o as [o|]; [|vm_compute in E0; discriminate E0].
  assert (r = Ok ()) as -> by (vm_compute in E0; injection E0 as _ <-; reflexivity).
  exists o. split; [reflexivity|].
  refine (proj2 (SendMessage_delivers a b (mkLimited EmptyString 1000) None 7%nat sample_message o (Ok ()) _ _ _ _));
    [reflexivity|vm_compute; reflexivity|reflexivity|exact E0].
Defined.

(** ** Building *)

Section Building.
Context `{LibHost H E} {F K : Type}.
Implicit Types (env : BuildEnv (H:=H) (E:=E) (K:=K)) (opts : NodeOptions).

Lemma parseAdvertised_spec addrs l : parseAdvertised (E:=E) addrs = Ok l ↔ Forall2 (λ raw m, NewMultiaddr raw = Some m) addrs l.
Proof.
  revert l. induction addrs as [|raw addrs IH]; intros l; cbn.
  - split; [intros [= <-]; constructor|]. by intros ->%Forall2_nil_inv_l.
  - destruct (NewMultiaddr raw) as [m|] eqn:Em.
    + split.
      * destruct (parseAdvertised addrs) as [l'|]; [|done]. intros [= <-]. constructor; [done|]. by apply IH.
      * intros (m' & l' & Hm & Hl & ->)%Forall2_cons_inv_l. apply IH in Hl. rewrite Hl. rewrite Em in Hm. by injection Hm as ->.
    + split; [done|]. intros (m' & l' & Hm & _)%Forall2_cons_inv_l. congruence.
Qed.

(** A build that fails leaves no host open: either none was created, or the
    start of mDNS failed and the host was closed; the error is returned. *)
Lemma BuildNode_no_leak env opts :
  match BuildNodeWithOptions (F:=F) env opts with
  | Ok n => nd_handler n = None ∧ (is_Some (nd_mdnsSvc n) ↔ no_EnableMDNS opts = true) ∧
      ∃ key l, be_key env = Ok key ∧ libp2pOpts (E:=E) key opts = Ok l ∧ be_new env l = Ok (nd_host n)
  | Err (e, Some closed) => no_EnableMDNS opts = true ∧ (∃ x, be_mdns env = Some x ∧ e = StartMDNS x) ∧
      ∃ key l h, be_key env = Ok key ∧ libp2pOpts (E:=E) key opts = Ok l ∧ be_new env l = Ok h ∧ closed = (host_Close h).1
  | Err (_, None) => ∀ key l, be_key env = Ok key → libp2pOpts (E:=E) key opts = Ok l → is_ok (be_new env l) = false
  end.
Proof.
  unfold BuildNodeWithOptions. destruct (be_key env) as [key|e] eqn:Ek; [|by intros].
  destruct (libp2pOpts (E:=E) key opts) as [l|e] eqn:El; [|congruence].
  destruct (be_new env l) as [h|e] eqn:Eh; [|intros ?? [= <-] E1; rewrite El in E1; injection E1 as <-; by rewrite Eh].
  destruct (no_EnableMDNS opts) eqn:Em; [destruct (be_mdns env) as [e|] eqn:Es|]; cbn.
  - split_and!; [done|by eauto|]. by exists key, l, h.
  - split_and!; [done|by split; [|eauto]|]. by exists key, l.
  - split_and!; [done|by split; [intros []|]|]. by exists key, l.
Qed.

(** Relays are asked for either by the static peers or at random, never both, and
    the listen addresses are never empty. *)
Lemma libp2pOpts_listen key opts l : libp2pOpts (E:=E) (K:=K) key opts = Ok l →
  ∃ a rest, l = OptIdentity key :: ListenAddrStrings a :: rest ∧ a ≠ [].
Proof.
  unfold libp2pOpts. intros Hl. assert (Ha : match no_ListenAddrs opts with [] => DefaultListenAddrs | l => l end ≠ [])
    by (by destruct (no_ListenAddrs opts)).
  destruct (no_AdvertisedAddrs opts).
  - injection Hl as <-. eauto.
  - apply bind_ok_iff in Hl as (adv & _ & [= <-]). eexists _, _. split; [reflexivity|done].
Qed.

End Building.
