(* ===== verification/Dht.v ===== *)
(** * Rendezvous and routing

    [internal/network/p2p/dht.go]: the routing table with the XOR metric, the
    provider records with their expiry, the messages and their JSON, the stream
    handler, and the discovery cycle.  The methods are those of a manager that is
    not nil; on a nil one, which [NewDHTManager] returns when the mode is
    disabled, each returns at once.  The clock, the peers of the host and the
    answers of the network are inputs. *)

From Stdlib Require Import Zbitwise.
From S2P Require Import Prelude GoStrings GoTime GoCrypto GoFloat Json JsonObject JsonTree Protocol Addr Node.
Import Addr.

Open Scope Z_scope.

(** The JSON of an address: [MarshalJSON] and [UnmarshalJSON] of
    [peer.AddrInfo]. *)
Class AddrInfoJson `{PeerLib} : Type := {
  info_json : AddrInfo → option json;
  info_of_json : json → option AddrInfo
}.

(** Their documented behaviour: an address whose ID can be printed and decoded
    is read back. *)
Class AddrInfoJsonLaws `{AddrInfoJson} : Prop := {
  info_json_written a v d : info_json a = Some v → d ≤ 10 → written_json d v;
  info_json_decoded a v : info_json a = Some v → Decode (id_String (ai_ID a)) = Some (ai_ID a) → info_of_json v = Some a
}.

Module Dht.

Definition DHTProtocolID : string := "/skall/kad/1.0.0".
Definition DefaultDHTNamespace : string := "skall.rendezvous.v2".
Definition DHTModeAuto : string := "auto".
Definition DHTModeClient : string := "client".
Definition DHTModeServer : string := "server".
Definition DHTModeDisabled : string := "disabled".
Definition DefaultKBucketSize : Z := 20.

Definition DHTMsgPing : string := "PING".
Definition DHTMsgPong : string := "PONG".
Definition DHTMsgFindNode : string := "FIND_NODE".
Definition DHTMsgFindNodeResp : string := "FIND_NODE_RESP".
Definition DHTMsgAdvertise : string := "ADVERTISE".
Definition DHTMsgFindProviders : string := "FIND_PROVIDERS".
Definition DHTMsgFindProvidersResp : string := "FIND_PROVIDERS_RESP".

(** ** Distances *)

(** The bytes of [a] and [b], xored. *)
Fixpoint xor_bytes (a b : string) : string :=
  match a, b with
  | String x a, String y b => String (Z_byte (Z.lxor (byte_Z x) (byte_Z y))) (xor_bytes a b)
  | _, _ => EmptyString
  end.

(** [big.Int.SetBytes]: big-endian. *)
Fixpoint be_int (acc : Z) (s : string) : Z :=
  match s with EmptyString => acc | String a s => be_int (acc * 256 + byte_Z a) s end.

Definition XORKeyDistance (a b : string) : Z := be_int 0 (xor_bytes (sha256 a) (sha256 b)).

(** ** Configuration *)

Record DHTConfig : Type := mkConfig {
  dc_Mode : string; dc_ProtocolPrefix : string; dc_Namespace : string; dc_PollInterval : Z; dc_RecordTTL : Z
}.

Definition DefaultDHTConfig : DHTConfig :=
  mkConfig DHTModeAuto DHTProtocolID DefaultDHTNamespace (30 * second) (15 * minute).

Section Dht.
Context `{AddrInfoJson}.

(** ** State *)

Record providerRecord : Type := mkProvider { pr_info : AddrInfo; pr_expiresAt : Time }.

Record DHTManager : Type := mkManager {
  dm_cfg : DHTConfig;
  dm_routingTable : gmap string AddrInfo;
  dm_providers : gmap string (gmap string providerRecord);
  dm_closed : bool
}.

Inductive dht_error : Type := UnknownMode (mode : string).

(** [Ok None] is the nil manager. *)
Definition NewDHTManager (cfg : DHTConfig) : result dht_error (option DHTManager) :=
  if EqualFold (dc_Mode cfg) DHTModeDisabled then Ok None else
  let mode := ToLower (TrimSpace (dc_Mode cfg)) in
  let mode := if bool_decide (mode = EmptyString) then DHTModeAuto else mode in
  if negb (bool_decide (mode ∈ [DHTModeAuto; DHTModeClient; DHTModeServer; DHTModeDisabled]))
  then Err (UnknownMode (dc_Mode cfg)) else
  let cfg := mkConfig mode
    (if bool_decide (dc_ProtocolPrefix cfg = EmptyString) then DHTProtocolID else dc_ProtocolPrefix cfg)
    (if bool_decide (dc_Namespace cfg = EmptyString) then DefaultDHTNamespace else dc_Namespace cfg)
    (if dc_PollInterval cfg <=? 0 then 30 * second else dc_PollInterval cfg)
    (if dc_RecordTTL cfg <=? 0 then 15 * minute else dc_RecordTTL cfg) in
  Ok (Some (mkManager cfg ∅ ∅ false)).

Definition Config (dm : option DHTManager) : DHTConfig :=
  match dm with None => mkConfig DHTModeDisabled EmptyString EmptyString 0 0 | Some dm => dm_cfg dm end.

(** ** The routing table *)

Definition AddPeer (self : string) (pi : AddrInfo) (dm : DHTManager) : DHTManager :=
  if bool_decide (ai_ID pi = self) || bool_decide (ai_Addrs pi = []) then dm
  else mkManager (dm_cfg dm) (<[ai_ID pi := pi]> (dm_routingTable dm)) (dm_providers dm) (dm_closed dm).

Definition RemovePeer (pid : string) (dm : DHTManager) : DHTManager :=
  mkManager (dm_cfg dm) (delete pid (dm_routingTable dm)) (delete pid <$> dm_providers dm) (dm_closed dm).

Definition RoutingTableSize (dm : DHTManager) : Z := Z.of_nat (size (dm_routingTable dm)).

Record peerDist : Type := mkDist { pd_info : AddrInfo; pd_dist : Z }.

(** Go's [sort.Slice] may exchange peers at the same distance, and so may this
    sort of a map in no fixed order. *)
Definition dist_le (x y : peerDist) : Prop := pd_dist x ≤ pd_dist y.
#[global] Instance dist_le_dec x y : Decision (dist_le x y) := Z.le_dec _ _.

Definition ClosestPeers (targetID : string) (count : Z) (dm : DHTManager) : list AddrInfo :=
  if count <=? 0 then [] else
  let dists := (λ kv, mkDist kv.2 (XORKeyDistance targetID (ai_ID kv.2))) <$> map_to_list (dm_routingTable dm) in
  let dists := merge_sort dist_le dists in
  let dists := if count <? Z.of_nat (length dists) then take (Z.to_nat count) dists else dists in
  pd_info <$> dists.

(** ** Provider records *)

Definition storeProvider (now : Time) (ns : string) (pi : AddrInfo) (ttl : Z) (dm : DHTManager) : DHTManager :=
  if bool_decide (ns = EmptyString) || bool_decide (ai_ID pi = EmptyString) || bool_decide (ai_Addrs pi = []) then dm else
  let bucket := default ∅ (dm_providers dm !! ns) in
  mkManager (dm_cfg dm) (dm_routingTable dm)
    (<[ns := <[ai_ID pi := mkProvider pi (now + ttl)]> bucket]> (dm_providers dm)) (dm_closed dm).

Definition expired (now : Time) (rec : providerRecord) : bool := pr_expiresAt rec <? now.

(** The records that have not expired, in any order; the others are dropped. *)
Definition getLocalProviders (now : Time) (ns : string) (dm : DHTManager) : list AddrInfo * DHTManager :=
  match dm_providers dm !! ns with
  | None => ([], dm)
  | Some bucket =>
      let fresh := filter (λ kv, expired now kv.2 = false) bucket in
      (pr_info ∘ snd <$> map_to_list fresh,
       mkManager (dm_cfg dm) (dm_routingTable dm) (<[ns := fresh]> (dm_providers dm)) (dm_closed dm))
  end.

(** ** Messages *)

Record DHTMessage : Type := mkDHTMessage {
  dh_Type : string; dh_Sender : AddrInfo; dh_Target : string; dh_Namespace : string;
  dh_Peers : list AddrInfo; dh_Timestamp : Time; dh_TTLSec : Z
}.

Definition zeroInfo : AddrInfo := mkInfo EmptyString [].
Definition zeroDHT : DHTMessage := mkDHTMessage EmptyString zeroInfo EmptyString EmptyString [] zeroTime 0.

Definition str_member (name s : string) : list (string * json) :=
  if bool_decide (s = EmptyString) then [] else [(name, JStr (enc_str s))].

(** What [json.Marshal] writes, empty fields omitted as they are tagged. *)
Definition dht_json (m : DHTMessage) : option json :=
  sender ← info_json (dh_Sender m);
  peers ← mapM info_json (dh_Peers m);
  _ ← marshal_time (dh_Timestamp m);
  Some (JObj ([("type", JStr (enc_str (dh_Type m))); ("sender", sender)]
    ++ str_member "target" (dh_Target m) ++ str_member "namespace" (dh_Namespace m)
    ++ (if bool_decide (dh_Peers m = []) then [] else [("peers", JArr peers)])
    ++ [("timestamp", JStr (formatRFC3339Nano (dh_Timestamp m)))]
    ++ (if dh_TTLSec m =? 0 then [] else [("ttl_sec", JNum (Itoa (dh_TTLSec m)))]))).

Definition marshal_dht (m : DHTMessage) : option string := json_text false 0 <$> dht_json m.

Definition with_Type v m := mkDHTMessage v (dh_Sender m) (dh_Target m) (dh_Namespace m) (dh_Peers m) (dh_Timestamp m) (dh_TTLSec m).
Definition with_Sender v m := mkDHTMessage (dh_Type m) v (dh_Target m) (dh_Namespace m) (dh_Peers m) (dh_Timestamp m) (dh_TTLSec m).
Definition with_Target v m := mkDHTMessage (dh_Type m) (dh_Sender m) v (dh_Namespace m) (dh_Peers m) (dh_Timestamp m) (dh_TTLSec m).
Definition with_Namespace v m := mkDHTMessage (dh_Type m) (dh_Sender m) (dh_Target m) v (dh_Peers m) (dh_Timestamp m) (dh_TTLSec m).
Definition with_Peers v m := mkDHTMessage (dh_Type m) (dh_Sender m) (dh_Target m) (dh_Namespace m) v (dh_Timestamp m) (dh_TTLSec m).
Definition with_Timestamp v m := mkDHTMessage (dh_Type m) (dh_Sender m) (dh_Target m) (dh_Namespace m) (dh_Peers m) v (dh_TTLSec m).
Definition with_TTLSec v m := mkDHTMessage (dh_Type m) (dh_Sender m) (dh_Target m) (dh_Namespace m) (dh_Peers m) (dh_Timestamp m) v.

(** A list of addresses; [null] makes it empty. *)
Definition dec_infos (v : json) : option (option (list AddrInfo)) :=
  match v with
  | JArr l => Some <$> mapM info_of_json l
  | JNull => Some (Some [])
  | _ => None
  end.

Definition dht_fields : list (string * (json → DHTMessage → option DHTMessage)) :=
  [("type", λ v, assign with_Type (dec_string v));
   ("sender", λ v, assign with_Sender (Some <$> info_of_json v));
   ("target", λ v, assign with_Target (dec_string v));
   ("namespace", λ v, assign with_Namespace (dec_string v));
   ("peers", λ v, assign with_Peers (dec_infos v));
   ("timestamp", λ v, assign with_Timestamp (dec_time v));
   ("ttl_sec", λ v, assign with_TTLSec (dec_int v))].

Definition unmarshal_dht (data : string) : option DHTMessage := unmarshal_struct dht_fields data zeroDHT.

(** The frame a message travels in. *)
Definition wire_message (self : string) (now : Time) (data : string) : Message :=
  mkMessage Version ("dht-" +:+ Itoa (wrap64 (now - unix_epoch))) TypeSystem (id_String self) EmptyString EmptyString now data.

(** ** The stream handler *)

Section Streams.
Context {HH E W WE : Type} `{!LibHost HH E} `{!Writer W WE}.
Implicit Types (h : HH) (now : Time).

Definition my_info h : AddrInfo := mkInfo (host_ID h) (host_Addrs h).

Definition writeResponse h now (resp : DHTMessage) (s : W) : W :=
  match marshal_dht resp with
  | None => s
  | Some data => (WriteMessage s (wire_message (host_ID h) now data)).1
  end.

(** What a decoded request does, and its answer. *)
Definition handle_request h now (req : DHTMessage) (dm : DHTManager) : DHTManager * option DHTMessage :=
  let dm := if bool_decide (ai_Addrs (dh_Sender req) = []) then dm else AddPeer (host_ID h) (dh_Sender req) dm in
  if bool_decide (dh_Type req = DHTMsgPing) then
    (dm, Some (mkDHTMessage DHTMsgPong (my_info h) EmptyString EmptyString [] now 0))
  else if bool_decide (dh_Type req = DHTMsgAdvertise) then
    let ttl := wrap64 (dh_TTLSec req * second) in
    let ttl := if ttl <=? 0 then dc_RecordTTL (dm_cfg dm) else ttl in
    (storeProvider now (dh_Namespace req) (dh_Sender req) ttl dm, None)
  else if bool_decide (dh_Type req = DHTMsgFindProviders) then
    let '(providers, dm) := getLocalProviders now (dh_Namespace req) dm in
    (dm, Some (mkDHTMessage DHTMsgFindProvidersResp (my_info h) EmptyString (dh_Namespace req) providers now 0))
  else if bool_decide (dh_Type req = DHTMsgFindNode) then
    (dm, Some (mkDHTMessage DHTMsgFindNodeResp (my_info h) (dh_Target req) EmptyString
      (ClosestPeers (dh_Target req) DefaultKBucketSize dm) now 0))
  else (dm, None).

(** The bytes of the stream, and the writer of its answer. *)
Definition handleStream h now (r : stream) (s : W) (dm : DHTManager) : DHTManager * W :=
  match ReadMessage r with
  | (Err _, _) => (dm, s)
  | (Ok msg, _) =>
      match unmarshal_dht (msg_Body msg) with
      | None => (dm, s)
      | Some req =>
          match handle_request h now req dm with
          | (dm, Some resp) => (dm, writeResponse h now resp s)
          | (dm, None) => (dm, s)
          end
      end
  end.

(** ** Requests *)

Inductive rpc_error : Type :=
  | RpcOpen (e : E) | RpcMarshal | RpcWrite (e : write_error (E:=WE)) | RpcRead (e : frame_error) | RpcDecode.

(** [answer] is the stream that comes back for what was written; [Ok None] is
    no response. *)
Definition sendDHTMessage (open : result E W) h now (req : DHTMessage) (wait : bool) (answer : W → stream) :
    option W * result rpc_error (option DHTMessage) :=
  match open with
  | Err e => (None, Err (RpcOpen e))
  | Ok s =>
      match marshal_dht req with
      | None => (Some s, Err RpcMarshal)
      | Some data =>
          match WriteMessage s (wire_message (host_ID h) now data) with
          | (s, Err e) => (Some s, Err (RpcWrite e))
          | (s, Ok _) =>
              if negb wait then (Some s, Ok None) else
              match ReadMessage (answer s) with
              | (Err (FrameRead EOF), _) => (Some s, Ok None)
              | (Err e, _) => (Some s, Err (RpcRead e))
              | (Ok resMsg, _) =>
                  match unmarshal_dht (msg_Body resMsg) with
                  | Some resp => (Some s, Ok (Some resp))
                  | None => (Some s, Err RpcDecode)
                  end
              end
          end
      end
  end.

(** ** Advertising and finding *)

(** [Duration.Seconds] of a positive duration, as an [int64]. *)
Definition seconds (out : float64 → Z) (d : Z) : Z :=
  int_of_float out (float_add (float_of_int (d `div` second))
    (float_div (float_of_int (d `mod` second)) (float_of_int second))).

(** The messages to send, with their targets, and the manager with the own
    record. *)
Definition Advertise (out : float64 → Z) h now (namespace : string) (ttl : Z) (dm : DHTManager) :
    list (string * DHTMessage) * DHTManager :=
  let namespace := if bool_decide (namespace = EmptyString) then dc_Namespace (dm_cfg dm) else namespace in
  let ttl := if ttl <=? 0 then dc_RecordTTL (dm_cfg dm) else ttl in
  let myInfo := my_info h in
  let msg := mkDHTMessage DHTMsgAdvertise myInfo EmptyString namespace [] now (seconds out ttl) in
  ((λ target, (target, msg)) <$> filter (λ pid, pid ≠ host_ID h) (host_Peers h),
   storeProvider now namespace myInfo ttl dm).

End Streams.

(** The provider cache, until the limit is reached; [sent n] is whether the
    [n]-th send comes before the end of the context.  The result is what was
    sent, the set of seen IDs and whether the search goes on. *)
Fixpoint find_local (sent : nat → bool) (limit : Z) (locals : list AddrInfo) (out : list AddrInfo) (seen : gset string) :
    list AddrInfo * gset string * bool :=
  match locals with
  | [] => (out, seen, true)
  | pi :: locals =>
      if bool_decide (ai_ID pi ∈ seen) then find_local sent limit locals out seen else
      let seen := {[ai_ID pi]} ∪ seen in
      if sent (length out) then
        let out := out ++ [pi] in
        if limit <=? Z.of_nat (size seen) - 1 then (out, seen, false)
        else find_local sent limit locals out seen
      else (out, seen, false)
  end.

(** The peers of one answer; the goroutine ends with the context. *)
Fixpoint find_answer (sent : nat → bool) (found : list AddrInfo) (out : list AddrInfo) (seen : gset string) :
    list AddrInfo * gset string :=
  match found with
  | [] => (out, seen)
  | pi :: found =>
      if bool_decide (ai_ID pi ∈ seen) || bool_decide (ai_Addrs pi = []) then find_answer sent found out seen else
      let seen := {[ai_ID pi]} ∪ seen in
      if sent (length out) then find_answer sent found (out ++ [pi]) seen else (out, seen)
  end.

Definition answer_peers (resp : option DHTMessage) : list AddrInfo :=
  match resp with
  | Some m => if bool_decide (dh_Type m = DHTMsgFindProvidersResp) then dh_Peers m else []
  | None => []
  end.

(** [FindPeers]: what its channel carries.  The answers are in the order the
    goroutines take the lock; a failed request is [None]. *)
Definition FindPeers (sent : nat → bool) (self : string) (limit : Z) (locals : list AddrInfo)
    (answers : list (option DHTMessage)) : list AddrInfo :=
  let limit := if limit <=? 0 then DefaultKBucketSize else limit in
  match find_local sent limit locals [] {[self]} with
  | (out, _, false) => out
  | (out, seen, true) =>
      (foldl (λ st resp, find_answer sent (answer_peers resp) st.1 st.2) (out, seen) answers).1
  end.

(** The peers [discoverOnce] hands to its callback, and the manager after it. *)
Fixpoint discover (self : string) (ch : list AddrInfo) (dm : DHTManager) : list AddrInfo * DHTManager :=
  match ch with
  | [] => ([], dm)
  | pi :: ch =>
      if bool_decide (ai_ID pi = self) || bool_decide (ai_Addrs pi = []) then discover self ch dm
      else let '(l, dm) := discover self ch (AddPeer self pi dm) in (pi :: l, dm)
  end.

Section Loop.
Context {HH E : Type} `{!LibHost HH E}.

(** What a cycle takes from outside: the host, the clock at its two readings,
    the answers and the context. *)
Record Cycle : Type := mkCycle {
  cy_host : HH; cy_now : Time; cy_now' : Time; cy_answers : list (option DHTMessage); cy_sent : nat → bool
}.

(** One round of [loop]: advertise, then discover. *)
Definition cycle (out : float64 → Z) (c : Cycle) (dm : DHTManager) :
    list (string * DHTMessage) * list AddrInfo * DHTManager :=
  let '(msgs, dm) := Advertise out (cy_host c) (cy_now c) (dc_Namespace (dm_cfg dm)) (dc_RecordTTL (dm_cfg dm)) dm in
  let '(locals, dm) := getLocalProviders (cy_now' c) (dc_Namespace (dm_cfg dm)) dm in
  let ch := FindPeers (cy_sent c) (host_ID (cy_host c)) DefaultKBucketSize locals (cy_answers c) in
  let '(found, dm) := discover (host_ID (cy_host c)) ch dm in
  (msgs, found, dm).

(** What wakes [loop] between its rounds. *)
Inductive wake : Type := Fires (c : Cycle) | CtxDone.

(** The [for] of [loop]: what each round sent and found, and the manager, with
    whether the loop has returned. *)
Fixpoint rounds (out : float64 → Z) (events : list wake) (dm : DHTManager) :
    list (list (string * DHTMessage) * list AddrInfo) * DHTManager * bool :=
  match events with
  | [] => ([], dm, false)
  | CtxDone :: _ => ([], dm, true)
  | Fires c :: events =>
      let '(msgs, found, dm) := cycle out c dm in
      let '(l, dm, ended) := rounds out events dm in ((msgs, found) :: l, dm, ended)
  end.

(** [loop], with no stream handled in between ([dht_step] has them). *)
Definition loop (out : float64 → Z) (first : Cycle) (events : list wake) (dm : DHTManager) :
    list (list (string * DHTMessage) * list AddrInfo) * DHTManager * bool :=
  rounds out (Fires first :: events) dm.

(** [StartDiscovery]: nothing is launched where there is no manager. *)
Definition StartDiscovery (out : float64 → Z) (first : Cycle) (events : list wake) (dm : option DHTManager) :
    option (list (list (string * DHTMessage) * list AddrInfo) * DHTManager * bool) :=
  loop out first events <$> dm.

End Loop.

(** Whether [Close] cancels, unregisters and waits, and the manager after it. *)
Definition Close (dm : DHTManager) : bool * DHTManager :=
  if dm_closed dm then (false, dm)
  else (true, mkManager (dm_cfg dm) (dm_routingTable dm) (dm_providers dm) true).

End Dht.

(** ** Specification *)

Section Spec.
Context `{AddrInfoJson} {HH E W WE : Type} `{!LibHost HH E} `{!Writer W WE}.

(** What a host with the ID [self] makes its manager do. *)
Inductive dht_step (self : string) : DHTManager → DHTManager → Prop :=
  | step_stream h now r (s : W) dm : host_ID h = self → dht_step self dm (handleStream h now r s dm).1
  | step_advertise out h now ns ttl dm : host_ID h = self → dht_step self dm (Advertise out h now ns ttl dm).2
  | step_local now ns dm : dht_step self dm (getLocalProviders now ns dm).2
  | step_add pi dm : dht_step self dm (AddPeer self pi dm)
  | step_remove pid dm : dht_step self dm (RemovePeer pid dm)
  | step_cycle out c dm : host_ID (cy_host c) = self → dht_step self dm (cycle out c dm).2
  | step_close dm : dht_step self dm (Close dm).2.

Definition dht_init (cfg : DHTConfig) (dm : DHTManager) : Prop := NewDHTManager cfg = Ok (Some dm).

(** The configuration has no empty field, peers are filed under their own ID
    and have addresses, and the own ID is not in the routing table. *)
Record dht_wf (self : string) (dm : DHTManager) : Prop := mkWf {
  wf_cfg : dc_Namespace (dm_cfg dm) ≠ EmptyString ∧ dc_ProtocolPrefix (dm_cfg dm) ≠ EmptyString ∧
    0 < dc_PollInterval (dm_cfg dm) ∧ 0 < dc_RecordTTL (dm_cfg dm) ∧
    dc_Mode (dm_cfg dm) ∈ [DHTModeAuto; DHTModeClient; DHTModeServer; DHTModeDisabled];
  wf_routing : ∀ id pi, dm_routingTable dm !! id = Some pi → ai_ID pi = id ∧ id ≠ self ∧ ai_Addrs pi ≠ [];
  wf_providers : ∀ ns bucket, dm_providers dm !! ns = Some bucket → ns ≠ EmptyString ∧
    ∀ id rec, bucket !! id = Some rec → ai_ID (pr_info rec) = id ∧ id ≠ EmptyString ∧ ai_Addrs (pr_info rec) ≠ []
}.

End Spec.

End Dht.

Import Dht.

(** ** Distances *)

Lemma be_int_app acc s t : be_int acc (s +:+ t) = be_int (be_int acc s) t.
Proof. revert acc. induction s as [|a s IH]; intros acc; [done|]. rewrite app_cons_s. apply IH. Qed.

Lemma be_int_shift acc s : be_int acc s = acc * 256 ^ slen s + be_int 0 s.
Proof.
  revert acc. induction s as [|a s IH]; intros acc; cbn [be_int].
  - change (slen EmptyString) with 0. rewrite Z.pow_0_r. ring.
  - rewrite (IH (acc * 256 + byte_Z a)), (IH (0 * 256 + byte_Z a)). unfold slen. cbn [String.length].
    rewrite Nat2Z.inj_succ, Z.pow_succ_r by lia. ring.
Qed.

Lemma be_int_bound s : 0 ≤ be_int 0 s < 256 ^ slen s.
Proof.
  induction s as [|a s IH]; [done|]. cbn [be_int]. rewrite be_int_shift. unfold slen in *. cbn [String.length].
  rewrite Nat2Z.inj_succ, Z.pow_succ_r by lia. pose proof (byte_Z_range a). nia.
Qed.

(** The bits below and above a boundary. *)
Lemma testbit_low a n x i : 0 ≤ n → 0 ≤ x < 2 ^ n → i < n → Z.testbit (a * 2 ^ n + x) i = Z.testbit x i.
Proof.
  intros Hn Hx Hi. rewrite <- (Z.mod_pow2_bits_low (a * 2 ^ n + x) n i) by done.
  by rewrite Z.add_comm, Z.mod_add, Z.mod_small by lia.
Qed.

Lemma testbit_high a n x i : 0 ≤ n → 0 ≤ x < 2 ^ n → n ≤ i → Z.testbit (a * 2 ^ n + x) i = Z.testbit a (i - n).
Proof.
  intros Hn Hx Hi. replace i with (i - n + n) at 1 by lia. rewrite <- Z.div_pow2_bits by lia.
  by rewrite Z.div_add_l, Z.div_small, Z.add_0_r by lia.
Qed.

Lemma lxor_bound n x y : 0 ≤ n → 0 ≤ x < 2 ^ n → 0 ≤ y < 2 ^ n → 0 ≤ Z.lxor x y < 2 ^ n.
Proof.
  intros Hn Hx Hy. assert (H0 : 0 ≤ Z.lxor x y) by (apply Z.lxor_nonneg; lia). split; [done|].
  assert (Z.lxor x y `mod` 2 ^ n = Z.lxor x y) as <-; [|apply Z.mod_pos_bound; lia].
  apply Z.bits_inj'. intros i Hi. destruct (Z.lt_ge_cases i n).
  - by rewrite Z.mod_pow2_bits_low by done.
  - rewrite Z.mod_pow2_bits_high by lia. rewrite Z.lxor_spec.
    pose proof (testbit_high 0 n x i Hn Hx ltac:(done)) as E1. pose proof (testbit_high 0 n y i Hn Hy ltac:(done)) as E2.
    rewrite Z.mul_0_l, Z.add_0_l, Z.testbit_0_l in E1, E2. by rewrite E1, E2.
Qed.

Lemma lxor_shift a b n x y : 0 ≤ n → 0 ≤ x < 2 ^ n → 0 ≤ y < 2 ^ n →
  Z.lxor (a * 2 ^ n + x) (b * 2 ^ n + y) = Z.lxor a b * 2 ^ n + Z.lxor x y.
Proof.
  intros Hn Hx Hy. pose proof (lxor_bound n x y Hn Hx Hy). apply Z.bits_inj'. intros i Hi.
  rewrite Z.lxor_spec. destruct (Z.lt_ge_cases i n).
  - by rewrite !testbit_low, Z.lxor_spec by done.
  - by rewrite !testbit_high, Z.lxor_spec by done.
Qed.

Lemma be_int_xor s t : String.length s = String.length t → be_int 0 (xor_bytes s t) = Z.lxor (be_int 0 s) (be_int 0 t).
Proof.
  revert t. induction s as [|a s IH]; intros [|b t]; try done. cbn [xor_bytes be_int String.length]. intros [= Hl].
  assert (Hx : slen (xor_bytes s t) = slen s).
  { unfold slen. f_equal. clear IH. revert t Hl. induction s as [|c s IH]; intros [|e t]; try done. cbn. intros [= Hl]. f_equal. auto. }
  assert (Ht : slen t = slen s) by (unfold slen; by rewrite Hl).
  rewrite !(be_int_shift (0 * 256 + _)), IH, Hx, Ht, byte_Z_byte by done.
  pose proof (be_int_bound s) as Bs. pose proof (be_int_bound t) as Bt. rewrite Ht in Bt.
  assert (H256 : 256 ^ slen s = 2 ^ (8 * slen s)) by (rewrite Z.pow_mul_r by (unfold slen; lia); done).
  rewrite H256 in *. rewrite lxor_shift by (unfold slen in *; lia). cbn [Z.mul Z.add].
  rewrite Z.mod_small; [done|]. apply (lxor_bound 8); [lia|apply byte_Z_range..].
Qed.

(** The distance is the XOR of the hashes as numbers. *)
Lemma XORKeyDistance_lxor a b : XORKeyDistance a b = Z.lxor (be_int 0 (sha256 a)) (be_int 0 (sha256 b)).
Proof. apply be_int_xor. by rewrite !length_sha256. Qed.

Lemma be_int_inj s t : String.length s = String.length t → be_int 0 s = be_int 0 t → s = t.
Proof.
  revert t. induction s as [|a s IH]; intros [|b t]; try done. cbn [be_int String.length]. intros [= Hl].
  rewrite !(be_int_shift (0 * 256 + _)). assert (Ht : slen t = slen s) by (unfold slen; by rewrite Hl). rewrite Ht.
  pose proof (be_int_bound s) as Bs. pose proof (be_int_bound t) as Bt. rewrite Ht in Bt. intros E.
  assert (Hab : byte_Z a = byte_Z b) by nia. rewrite Hab in E. f_equal; [by apply byte_Z_inj|]. apply IH; [done|lia].
Qed.

Lemma lxor_triangle x y z : 0 ≤ x → 0 ≤ y → 0 ≤ z → Z.lxor x z ≤ Z.lxor x y + Z.lxor y z.
Proof.
  intros Hx Hy Hz. assert (Z.lxor x z = Z.lxor (Z.lxor x y) (Z.lxor y z)) as ->.
  { rewrite Z.lxor_assoc, <- (Z.lxor_assoc y y z), Z.lxor_nilpotent, Z.lxor_0_l. done. }
  pose proof (Z.add_lxor_2land (Z.lxor x y) (Z.lxor y z)).
  assert (0 ≤ Z.land (Z.lxor x y) (Z.lxor y z)) by (apply Z.land_nonneg; left; apply Z.lxor_nonneg; lia). lia.
Qed.

(** ** Closest peers *)

Section Closest.
Context `{AddrInfoJson}.

#[global] Instance dist_le_total : Total dist_le.
Proof. intros x y. unfold dist_le. lia. Qed.
#[global] Instance dist_le_trans : Transitive dist_le.
Proof. intros x y z. unfold dist_le. lia. Qed.

Definition distances (targetID : string) (dm : DHTManager) : list peerDist :=
  (λ kv, mkDist kv.2 (XORKeyDistance targetID (ai_ID kv.2))) <$> map_to_list (dm_routingTable dm).

Lemma ClosestPeers_take targetID count dm : 0 < count →
  ClosestPeers targetID count dm = pd_info <$> take (Z.to_nat count) (merge_sort dist_le (distances targetID dm)).
Proof.
  intros Hc. unfold ClosestPeers. rewrite (proj2 (Z.leb_gt _ _)) by done. fold (distances targetID dm).
  destruct (Z.ltb_spec count (Z.of_nat (length (merge_sort dist_le (distances targetID dm))))); [done|].
  by rewrite take_ge by lia.
Qed.

Lemma distances_spec targetID dm d : d ∈ distances targetID dm ↔
  ∃ id pi, dm_routingTable dm !! id = Some pi ∧ d = mkDist pi (XORKeyDistance targetID (ai_ID pi)).
Proof.
  unfold distances. rewrite list_elem_of_fmap. split.
  - intros ([id pi] & -> & Hin%elem_of_map_to_list). by exists id, pi.
  - intros (id & pi & Hin & ->). exists (id, pi). split; [done|]. by apply elem_of_map_to_list.
Qed.

Lemma length_distances targetID dm : length (distances targetID dm) = size (dm_routingTable dm).
Proof. unfold distances. by rewrite length_fmap, length_map_to_list. Qed.

(** In a sorted list the first elements are below the others. *)
Lemma sorted_take n (l : list peerDist) x y : Sorted dist_le l → x ∈ take n l → y ∈ drop n l → dist_le x y.
Proof.
  intros Hs%Sorted_StronglySorted Hx Hy; [|apply dist_le_trans]. rewrite <- (take_drop n l) in Hs.
  by eapply StronglySorted_app_1_elem_of.
Qed.

End Closest.

(** ** The codec *)

Section Codec.
Context `{AddrInfoJsonLaws}.

(** The messages that survive the way: texts are UTF-8, IDs can be decoded. *)
Record sendable (m : DHTMessage) : Prop := mkSendable {
  sd_utf8 : utf8_valid (dh_Type m) = true ∧ utf8_valid (dh_Target m) = true ∧ utf8_valid (dh_Namespace m) = true;
  sd_ids : Forall (λ a, Decode (id_String (ai_ID a)) = Some (ai_ID a)) (dh_Sender m :: dh_Peers m);
  sd_ttl : int64 (dh_TTLSec m)
}.

Lemma infos_written l vs d : mapM info_json l = Some vs → d ≤ 10 → Forall (written_json d) vs.
Proof.
  intros Hl Hd. apply mapM_Some in Hl. induction Hl as [|a v l vs Ha _ IH]; constructor; [|done].
  by eapply info_json_written.
Qed.

Lemma infos_decoded l vs : mapM info_json l = Some vs →
  Forall (λ a, Decode (id_String (ai_ID a)) = Some (ai_ID a)) l → mapM info_of_json vs = Some l.
Proof.
  intros Hl Hd. apply mapM_Some in Hl. apply mapM_Some. induction Hl as [|a v l vs Ha _ IH]; constructor.
  - apply info_json_decoded; [done|]. by apply Forall_cons in Hd as [? _].
  - apply IH. by apply Forall_cons in Hd as [_ ?].
Qed.

Ltac one_member := apply Forall_singleton; split; [by apply raw_plain|]; cbn [snd].

Lemma dht_json_written m v : dht_json m = Some v → written_json 0 v ∧ ∃ l, v = JObj l.
Proof.
  unfold dht_json. destruct (info_json (dh_Sender m)) as [sender|] eqn:Es; [|done].
  destruct (mapM info_json (dh_Peers m)) as [peers|] eqn:Ep; [|done].
  destruct (marshal_time (dh_Timestamp m)) as [ts|] eqn:Et; [|done]. cbn [mbind option_bind]. intros [= <-].
  apply marshal_time_Some in Et as [Hr _]. split; [|by eexists]. apply w_obj; [done|].
  assert (Hstr : ∀ s, written_json (0 + 1) (JStr (enc_str s))) by (intros; apply w_str, raw_enc).
  assert (Hopt : ∀ n s, plain n = true → all_bytes rune1 n = true → Forall (λ m, raw_str m.1 ∧ written_json (0 + 1) m.2) (str_member n s)).
  { intros n s Hn Ha. unfold str_member. case_bool_decide; [constructor|]. one_member. apply Hstr. }
  cbn [app]. apply Forall_cons. split; [split; [by apply raw_plain|apply Hstr]|].
  apply Forall_cons. split; [split; [by apply raw_plain|eapply info_json_written; [done|lia]]|].
  rewrite !Forall_app. split_and!.
  - by apply Hopt.
  - by apply Hopt.
  - case_bool_decide; [constructor|]. one_member. apply w_arr; [done|]. eapply infos_written; [done|lia].
  - apply Forall_cons. split; [split; [by apply raw_plain|]|].
    { apply w_str, raw_plain; [by apply ascii_format|by apply plain_format]. }
    destruct (dh_TTLSec m =? 0); [constructor|]. one_member. apply w_num, raw_Itoa.
Qed.

(** A sendable message that was marshalled is unmarshalled to itself. *)
Lemma dht_roundtrip m s : marshal_dht m = Some s → sendable m → unmarshal_dht s = Some m.
Proof.
  unfold marshal_dht. destruct (dht_json m) as [v|] eqn:Ev; [|done]. intros [= <-] [(Ut & Ug & Un) Hids Httl].
  destruct (dht_json_written m v Ev) as [Hw [l ->]]. unfold unmarshal_dht, unmarshal_struct.
  rewrite <- (app_nil_r_s (json_text _ _ _)), parse_object_text by done. cbn [mbind option_bind].
  unfold dht_json in Ev. destruct (info_json (dh_Sender m)) as [sender|] eqn:Es; [|done].
  destruct (mapM info_json (dh_Peers m)) as [peers|] eqn:Ep; [|done].
  destruct (marshal_time (dh_Timestamp m)) as [ts|] eqn:Et; [|done]. cbn [mbind option_bind] in Ev. injection Ev as <-.
  apply marshal_time_Some in Et as [Hr _]. apply Forall_cons in Hids as [Hsid Hpids].
  apply utf8_valid_eq in Ut, Ug, Un. cbn [app].
  erewrite set_members_cons; [|reflexivity|cbn -[dec_string]; rewrite dec_string_enc; reflexivity].
  erewrite set_members_cons; [|reflexivity|cbn -[dec_string]; rewrite (info_json_decoded _ _ Es Hsid); reflexivity].
  unfold str_member. rewrite <- ?app_assoc.
  erewrite set_members_omit; [|reflexivity|cbn -[dec_string]; rewrite dec_string_enc; reflexivity|
    intros Hb%bool_decide_eq_true; rewrite Hb; reflexivity].
  erewrite set_members_omit; [|reflexivity|cbn -[dec_string]; rewrite dec_string_enc; reflexivity|
    intros Hb%bool_decide_eq_true; rewrite Hb; reflexivity].
  erewrite set_members_omit; [|reflexivity|cbn -[dec_string mapM]; rewrite (infos_decoded _ _ Ep Hpids); reflexivity|
    intros Hb%bool_decide_eq_true; rewrite Hb; reflexivity].
  cbn [app]. erewrite set_members_cons; [|reflexivity|cbn -[dec_time formatRFC3339Nano]; rewrite dec_time_format by done; reflexivity].
  rewrite <- (app_nil_r (if dh_TTLSec m =? 0 then _ else _)).
  erewrite set_members_omit; [|reflexivity|cbn -[Atoi Itoa]; rewrite Atoi_Itoa by exact Httl; reflexivity|
    intros Hb%Z.eqb_eq; rewrite Hb; reflexivity].
  cbn. rewrite Ut, Ug, Un. by destruct m.
Qed.

End Codec.

(** ** The invariant *)

Section Invariant.
Context `{AddrInfoJson} {HH E W WE : Type} `{!LibHost HH E} `{!Writer W WE}.
Implicit Types (dm : DHTManager).

Lemma wf_new self cfg dm : NewDHTManager cfg = Ok (Some dm) → dht_wf self dm.
Proof.
  unfold NewDHTManager. destruct (EqualFold _ _); [done|].
  set (mode := if bool_decide _ then _ else _). case_bool_decide as Hmode; [|done]. intros [= <-]. split; cbn.
  - split_and!; try done.
    + by case_bool_decide.
    + by case_bool_decide.
    + destruct (Z.leb_spec (dc_PollInterval cfg) 0); [unfold second; lia|done].
    + destruct (Z.leb_spec (dc_RecordTTL cfg) 0); [unfold minute, second; lia|done].
  - intros id pi. by rewrite lookup_empty.
  - intros ns b. by rewrite lookup_empty.
Qed.

Lemma wf_AddPeer self pi dm : dht_wf self dm → dht_wf self (AddPeer self pi dm).
Proof.
  intros [Hc Hr Hp]. unfold AddPeer. case_bool_decide; [done|]. case_bool_decide; [done|]. cbn. split; cbn; [done| |done].
  intros id q. destruct (decide (ai_ID pi = id)) as [<-|Hne].
  - rewrite lookup_insert_eq. by intros [= <-].
  - rewrite lookup_insert_ne by done. apply Hr.
Qed.

Lemma wf_RemovePeer self pid dm : dht_wf self dm → dht_wf self (RemovePeer pid dm).
Proof.
  intros [Hc Hr Hp]. split; cbn; [done| |].
  - intros id q [_ Hq]%lookup_delete_Some. by apply Hr.
  - intros ns b. rewrite lookup_fmap. destruct (dm_providers dm !! ns) as [b0|] eqn:Eb; [|done]. intros [= <-].
    destruct (Hp _ _ Eb) as [Hn Hb]. split; [done|]. intros id rec [_ Hrec]%lookup_delete_Some. by apply Hb.
Qed.

Lemma wf_storeProvider self now ns pi ttl dm : dht_wf self dm → dht_wf self (storeProvider now ns pi ttl dm).
Proof.
  intros [Hc Hr Hp]. unfold storeProvider. case_bool_decide; [done|]. case_bool_decide; [done|].
  case_bool_decide; [done|]. cbn. split; cbn; [done|done|]. intros ns' b. destruct (decide (ns = ns')) as [<-|Hne].
  - rewrite lookup_insert_eq. intros [= <-]. split; [done|]. intros id rec. destruct (decide (ai_ID pi = id)) as [<-|Hne].
    + rewrite lookup_insert_eq. by intros [= <-].
    + rewrite lookup_insert_ne by done. destruct (dm_providers dm !! ns) as [b|] eqn:Eb; cbn; [|by rewrite lookup_empty].
      by apply (Hp _ _ Eb).
  - rewrite lookup_insert_ne by done. apply Hp.
Qed.

Lemma wf_getLocal self now ns dm : dht_wf self dm → dht_wf self (getLocalProviders now ns dm).2.
Proof.
  intros [Hc Hr Hp]. unfold getLocalProviders. destruct (dm_providers dm !! ns) as [b0|] eqn:Eb; [|done].
  split; cbn; [done|done|]. intros ns' b. destruct (decide (ns = ns')) as [<-|Hne].
  - rewrite lookup_insert_eq. intros [= <-]. destruct (Hp _ _ Eb) as [Hn Hb]. split; [done|].
    intros id rec [Hrec _]%map_lookup_filter_Some. by apply Hb.
  - rewrite lookup_insert_ne by done. apply Hp.
Qed.

Lemma wf_request self (h : HH) now req dm : host_ID h = self → dht_wf self dm → dht_wf self (handle_request h now req dm).1.
Proof.
  intros Hh Hw. unfold handle_request.
  set (dm1 := if bool_decide _ then dm else _).
  assert (Hw1 : dht_wf self dm1) by (unfold dm1; case_bool_decide; [done|]; rewrite Hh; by apply wf_AddPeer).
  case_bool_decide; [done|]. case_bool_decide; [by apply wf_storeProvider|]. case_bool_decide.
  - pose proof (wf_getLocal self now (dh_Namespace req) dm1 Hw1) as Hl.
    by destruct (getLocalProviders now (dh_Namespace req) dm1).
  - by case_bool_decide.
Qed.

Lemma wf_discover self ch dm : dht_wf self dm → dht_wf self (discover self ch dm).2.
Proof.
  revert dm. induction ch as [|pi ch IH]; intros dm Hw; [done|]. cbn [discover]. destruct (_ || _); [auto|].
  specialize (IH _ (wf_AddPeer self pi dm Hw)). by destruct (discover self ch (AddPeer self pi dm)).
Qed.

Lemma wf_step self dm dm' : dht_wf self dm → dht_step (W:=W) (HH:=HH) self dm dm' → dht_wf self dm'.
Proof.
  intros Hw Hs. destruct Hs as [h now r s dm Hh|out h now ns ttl dm Hh|now ns dm|pi dm|pid dm|out c dm Hh|dm].
  - unfold handleStream. destruct (ReadMessage r) as [[msg|] r']; [|done].
    destruct (unmarshal_dht (msg_Body msg)) as [req|]; [|done].
    pose proof (wf_request self h now req dm Hh Hw) as Hq.
    by destruct (handle_request h now req dm) as [dm' [resp|]].
  - by apply wf_storeProvider.
  - by apply wf_getLocal.
  - by apply wf_AddPeer.
  - by apply wf_RemovePeer.
  - unfold cycle. destruct (Advertise out (cy_host c) _ _ _ dm) as [msgs dm1] eqn:Ea.
    assert (Hw1 : dht_wf self dm1) by (injection Ea as _ <-; by apply wf_storeProvider).
    pose proof (wf_getLocal self (cy_now' c) (dc_Namespace (dm_cfg dm1)) dm1 Hw1) as Hl.
    destruct (getLocalProviders (cy_now' c) (dc_Namespace (dm_cfg dm1)) dm1) as [locals dm2]. cbn in Hl. rewrite Hh.
    pose proof (wf_discover self (FindPeers (cy_sent c) self DefaultKBucketSize locals (cy_answers c)) dm2 Hl) as Hd.
    by destruct (discover _ _ dm2).
  - unfold Close. destruct (dm_closed dm); [done|]. by destruct Hw.
Qed.

(** Who [discover] reports. *)
Definition dialable (self : string) (pi : AddrInfo) : Prop := ai_ID pi ≠ self ∧ ai_Addrs pi ≠ [].

Lemma discover_dialable self ch dm : Forall (dialable self) (discover self ch dm).1.
Proof.
  revert dm. induction ch as [|pi ch IH]; intros dm; cbn [discover]; [constructor|].
  destruct (bool_decide (ai_ID pi = self) || bool_decide (ai_Addrs pi = [])) eqn:Eb; [apply IH|].
  specialize (IH (AddPeer self pi dm)). destruct (discover self ch (AddPeer self pi dm)).
  apply orb_false_iff in Eb as [E1%bool_decide_eq_false E2%bool_decide_eq_false]. by constructor.
Qed.

Lemma cycle_dialable out (c : Cycle (HH:=HH)) dm : Forall (dialable (host_ID (cy_host c))) (cycle out c dm).1.2.
Proof.
  unfold cycle. destruct (Advertise _ _ _ _ _ _) as [msgs dm1]. destruct (getLocalProviders _ _ _) as [locals dm2].
  match goal with |- context [discover ?a ?b ?c] => pose proof (discover_dialable a b c) as H'; destruct (discover a b c) end.
  exact H'.
Qed.

(** The rounds of a host, whatever wakes them. *)
Definition of_host (self : string) (ev : wake (HH:=HH)) : Prop :=
  match ev with Fires c => host_ID (cy_host c) = self | CtxDone => True end.

Lemma rounds_spec self out events dm : Forall (of_host self) events → dht_wf self dm →
  let '(l, dm', ended) := rounds out events dm in
  dht_wf self dm' ∧ Forall (λ r, Forall (dialable self) r.2) l ∧ (ended = true ↔ CtxDone ∈ events).
Proof.
  intros He. revert dm. induction He as [|[c|] events Hc He IH]; intros dm Hw; cbn [rounds].
  - split_and!; [done..|]. set_solver.
  - pose proof (wf_step self dm _ Hw (step_cycle self out c dm Hc)) as Hw1. pose proof (cycle_dialable out c dm) as Hd.
    cbn [of_host] in Hc. rewrite Hc in Hd. destruct (cycle out c dm) as [[msgs found] dm1].
    specialize (IH dm1 Hw1). destruct (rounds out events dm1) as [[l dm2] ended]. destruct IH as (H1 & H2 & H3).
    split_and!; [done|by constructor|]. rewrite H3. set_solver.
  - split_and!; [done..|]. split; [intros _; by left|done].
Qed.

End Invariant.

(** ** Requests and answers *)

Section Rpc.
Context `{PeerLibLaws} `{!AddrInfoJson, !AddrInfoJsonLaws} {HH E W WE : Type} `{!LibHost HH E} `{!Writer W WE}.

Lemma marshal_dht_clean m s : marshal_dht m = Some s → clean s.
Proof.
  unfold marshal_dht. destruct (dht_json m) as [v|] eqn:Ev; [|done]. intros [= <-].
  apply dht_json_written in Ev as [Hw _]. by eapply clean_text.
Qed.

(** Printed IDs and numbers do not change on the way. *)
Lemma wire_message_utf8 self now data : Decode (id_String self) = Some self → clean data →
  utf8_message (wire_message self now data) = true.
Proof.
  intros Hs Hd. unfold utf8_message, wire_message. cbn -[utf8_valid wrap64 Itoa].
  rewrite (Decode_utf8 _ _ Hs), (clean_utf8 data Hd), andb_true_r.
  assert (utf8_valid ("dht-" +:+ Itoa (wrap64 (now - unix_epoch))) = true) as ->; [|done].
  apply clean_utf8, clean_app; [by apply clean_ascii|]. apply utf8_clean, raw_Itoa.
Qed.

(** A frame that was written is served as the request it carries. *)
Lemma handleStream_request h now f req dm (s : W) self t data e :
  Decode (id_String self) = Some self → marshal_dht req = Some data → sendable req →
  frame (wire_message self t data) = Ok f →
  handleStream h now (mkStream f e) s dm =
  match handle_request h now req dm with
  | (dm, Some resp) => (dm, writeResponse h now resp s)
  | (dm, None) => (dm, s)
  end.
Proof.
  intros Hid Hm Hs Hf. unfold handleStream. rewrite <- (app_nil_r_s f).
  rewrite (wire_one _ _ _ _ Hf) by (apply wire_message_utf8; [done|by eapply marshal_dht_clean]).
  cbn [msg_Body wire_message]. by rewrite (dht_roundtrip _ _ Hm Hs).
Qed.

(** A request that was sent stands on the stream as one frame. *)
Lemma sendDHTMessage_frame (w w' : W) h now req wait ans r :
  sendDHTMessage (Ok w) h now req wait ans = (Some w', Ok r) → written w = EmptyString →
  ∃ data, marshal_dht req = Some data ∧ frame (wire_message (host_ID h) now data) = Ok (written w') ∧
    (wait = false → r = None) ∧
    (∀ resp, wait = true → r = Some resp → ∃ m rest, ReadMessage (ans w') = (Ok m, rest) ∧ unmarshal_dht (msg_Body m) = Some resp).
Proof.
  unfold sendDHTMessage. intros Hs Hw. destruct (marshal_dht req) as [data|]; [|done]. exists data.
  destruct (WriteMessage w _) as [w1 [[]|]] eqn:Ew; [|done]. apply WriteMessage_spec in Ew as (f & Hf & Hw1).
  rewrite Hw, app_nil_l_s in Hw1. destruct wait; cbn [negb] in Hs.
  - destruct (ReadMessage (ans w1)) as [[m|e] rest] eqn:Er.
    + destruct (unmarshal_dht (msg_Body m)) as [resp|] eqn:Eu; [|done]. injection Hs as <- <-. rewrite Hw1.
      split_and!; [done|done|done|]. intros resp' _ [= <-]. eauto.
    + assert (w1 = w' ∧ r = None) as [<- ->] by (destruct e as [[]| | |]; by simplify_eq).
      rewrite Hw1. split_and!; done.
  - injection Hs as <- <-. rewrite Hw1. split_and!; done.
Qed.

(** An answer that was read is the response that was written. *)
Lemma writeResponse_read h now resp (s : W) m rest resp' :
  written s = EmptyString → Decode (id_String (host_ID h)) = Some (host_ID h) → sendable resp →
  ReadMessage (mkStream (written (writeResponse h now resp s)) EOF) = (Ok m, rest) →
  unmarshal_dht (msg_Body m) = Some resp' → resp' = resp.
Proof.
  intros Hs Hid Hsend. unfold writeResponse. destruct (marshal_dht resp) as [data|] eqn:Em; [|rewrite Hs; done].
  destruct (WriteMessage s _) as [w r] eqn:Ew. apply WriteMessage_spec in Ew. cbn [fst].
  assert (Hu : utf8_message (wire_message (host_ID h) now data) = true)
    by (apply wire_message_utf8; [done|by eapply marshal_dht_clean]).
  assert (Hgo : ∀ f, frame (wire_message (host_ID h) now data) = Ok f → ReadMessage (mkStream f EOF) = (Ok m, rest) →
    unmarshal_dht (msg_Body m) = Some resp' → resp' = resp).
  { intros f Hf. rewrite <- (app_nil_r_s f), (wire_one _ _ _ _ Hf Hu). intros [= <- _].
    cbn [msg_Body wire_message]. rewrite (dht_roundtrip _ _ Em Hsend). congruence. }
  destruct r as [[]|[e|[]]].
  - destruct Ew as (f & Hf & ->). rewrite Hs, app_nil_l_s. by apply Hgo.
  - destruct Ew as [_ ->]. rewrite Hs. done.
  - done.
  - destruct Ew as (f & n & Hf & ->). rewrite Hs, app_nil_l_s. destruct (decide (n < String.length f)%nat) as [Hn|Hn].
    + destruct (ReadMessage_cut _ _ _ EOF Hf Hn) as (x & r & ->). done.
    + rewrite take_s_all by lia. by apply Hgo.
  - done.
Qed.

End Rpc.

(** ** Finding peers *)

Section Finding.
Context `{AddrInfoJson}.
Implicit Types (sent : nat → bool) (out locals found : list AddrInfo) (seen : gset string).

(** What was sent so far: distinct peers other than oneself, all seen. *)
Record finding (self : string) (from : AddrInfo → Prop) out seen : Prop := mkFinding {
  fd_nodup : NoDup (ai_ID <$> out);
  fd_self : self ∈ seen;
  fd_out : ∀ pi, pi ∈ out → ai_ID pi ∈ seen ∧ ai_ID pi ≠ self ∧ from pi
}.

Lemma finding_send self from out seen pi : finding self from out seen → ai_ID pi ∉ seen → from pi →
  finding self from (out ++ [pi]) ({[ai_ID pi]} ∪ seen).
Proof.
  intros [Hn Hs Ho] Hpi Hf. split.
  - rewrite fmap_app. apply NoDup_app. split_and!; [done| |apply NoDup_singleton].
    intros id (q & -> & Hq)%list_elem_of_fmap Hid%list_elem_of_singleton. cbn in Hid. apply Hpi. rewrite <- Hid. by apply Ho.
  - set_solver.
  - intros q [Hq| ->%list_elem_of_singleton]%elem_of_app; [destruct (Ho q Hq) as (?&?&?); set_solver|].
    split_and!; [set_solver| |done]. intros Heq. apply Hpi. by rewrite Heq.
Qed.

Lemma find_local_finding self from sent limit locals out seen :
  (∀ pi, pi ∈ locals → from pi) → finding self from out seen →
  let '(out', seen', go) := find_local sent limit locals out seen in
  NoDup (ai_ID <$> out') ∧ (∀ pi, pi ∈ out' → ai_ID pi ≠ self ∧ from pi) ∧ (go = true → finding self from out' seen').
Proof.
  revert out seen. induction locals as [|pi locals IH]; intros out seen Hl Hf; cbn [find_local].
  - split_and!; [apply Hf|intros q Hq; by apply Hf|done].
  - case_bool_decide as Hseen; [apply IH; [intros; apply Hl; by right|done]|].
    destruct (sent (length out)); [|split_and!; [apply Hf|intros q Hq; by apply Hf|done]].
    assert (Hf' := finding_send self from out seen pi Hf Hseen ltac:(apply Hl; by left)).
    destruct (limit <=? _); [split_and!; [apply Hf'|intros q Hq; by apply Hf'|done]|].
    apply IH; [intros; apply Hl; by right|done].
Qed.

Lemma find_answer_finding self from sent found out seen :
  (∀ pi, pi ∈ found → ai_Addrs pi ≠ [] → from pi) → finding self from out seen →
  let '(out', seen') := find_answer sent found out seen in
  NoDup (ai_ID <$> out') ∧ (∀ pi, pi ∈ out' → ai_ID pi ≠ self ∧ from pi ∧ ai_ID pi ∈ seen') ∧ self ∈ seen' .
Proof.
  revert out seen. induction found as [|pi found IH]; intros out seen Hl Hf; cbn [find_answer].
  - split_and!; [apply Hf|intros q Hq; destruct (fd_out _ _ _ _ Hf q Hq) as (?&?&?); done|apply Hf].
  - case_bool_decide as Hseen; [apply IH; [intros; apply Hl; [by right|done]|done]|]. cbn [orb].
    case_bool_decide as Haddr; [apply IH; [intros; apply Hl; [by right|done]|done]|].
    destruct (sent (length out)).
    + apply IH; [intros; apply Hl; [by right|done]|]. apply finding_send; [done..|]. apply Hl; [by left|done].
    + split_and!; [apply Hf| |apply elem_of_union_r, Hf].
      intros q Hq. destruct (fd_out _ _ _ _ Hf q Hq) as (?&?&?). split_and!; [done..|]. by apply elem_of_union_r.
Qed.

Lemma finding_answers self from sent answers out seen :
  (∀ resp pi, resp ∈ answers → pi ∈ answer_peers resp → ai_Addrs pi ≠ [] → from pi) → finding self from out seen →
  let st := foldl (λ st resp, find_answer sent (answer_peers resp) st.1 st.2) (out, seen) answers in
  finding self from st.1 st.2.
Proof.
  revert out seen. induction answers as [|resp answers IH]; intros out seen Hl Hf; [done|]. cbn [foldl fst snd].
  pose proof (find_answer_finding self from sent (answer_peers resp) out seen
    ltac:(intros; eapply Hl; [by left|done|done]) Hf) as Hs.
  destruct (find_answer sent (answer_peers resp) out seen) as [out' seen']. destruct Hs as (Hn & Ho & Hself).
  apply IH; [intros; eapply Hl; [by right|done|done]|]. split; [done|done|]. intros q Hq. destruct (Ho q Hq) as (?&?&?). done.
Qed.

(** While nothing is cut short, what was seen was sent. *)
Definition all_sent (self : string) out seen : Prop := ∀ id, id ∈ seen → id = self ∨ ∃ q, q ∈ out ∧ ai_ID q = id.

Lemma all_sent_send self out seen pi : all_sent self out seen → all_sent self (out ++ [pi]) ({[ai_ID pi]} ∪ seen).
Proof.
  intros Ha id [->%elem_of_singleton|Hid]%elem_of_union.
  - right. exists pi. split; [|done]. apply elem_of_app. right. by apply list_elem_of_singleton.
  - destruct (Ha id Hid) as [?|(q & Hq & ?)]; [by left|]. right. exists q. split; [|done]. apply elem_of_app. by left.
Qed.

Lemma size_seen self from out seen : finding self from out seen → all_sent self out seen →
  size seen = S (length out).
Proof.
  intros [Hn Hs Ho] Ha.
  assert (seen = {[self]} ∪ list_to_set (ai_ID <$> out)) as ->.
  { apply set_eq. intros id. rewrite elem_of_union, elem_of_singleton, elem_of_list_to_set, list_elem_of_fmap. split.
    - intros Hid. destruct (Ha id Hid) as [?|(q & ? & ?)]; [by left|right]. by exists q.
    - intros [->|(q & -> & Hq)]; [done|by apply Ho]. }
  assert (Hd : {[self]} ## (list_to_set (ai_ID <$> out) : gset string)).
  { intros id ->%elem_of_singleton Hid%elem_of_list_to_set. apply list_elem_of_fmap in Hid as (q & Hq & Hin).
    destruct (Ho q Hin) as (_ & Hne & _). congruence. }
  rewrite size_union, size_singleton, size_list_to_set by done. by rewrite length_fmap.
Qed.

Lemma find_local_all self from limit locals out seen :
  (∀ pi, pi ∈ locals → from pi) → finding self from out seen → all_sent self out seen →
  (Z.of_nat (length out + length locals) < limit) →
  ∃ out' seen', find_local (λ _, true) limit locals out seen = (out', seen', true) ∧ finding self from out' seen' ∧
    all_sent self out' seen' ∧ (∀ pi, pi ∈ locals → ai_ID pi ∈ seen') ∧ seen ⊆ seen'.
Proof.
  revert out seen. induction locals as [|pi locals IH]; intros out seen Hl Hf Ha Hn; cbn [find_local].
  - exists out, seen. split_and!; [done..| |done]. intros q Hq. by apply elem_of_nil in Hq.
  - cbn [length] in Hn. case_bool_decide as Hseen.
    + destruct (IH out seen) as (o & sn & E' & Hf' & Ha' & Hin & Hsub); [intros; apply Hl; by right|done|done|lia|].
      exists o, sn. split_and!; [done..| |done]. intros q [->|Hq]%elem_of_cons; [by apply Hsub|by apply Hin].
    + assert (Hf1 := finding_send self from out seen pi Hf Hseen ltac:(apply Hl; by left)).
      assert (Ha1 := all_sent_send self out seen pi Ha). rewrite (size_seen _ _ _ _ Hf1 Ha1), length_app. cbn [length].
      rewrite (proj2 (Z.leb_gt _ _)) by lia.
      destruct (IH _ _ ltac:(intros; apply Hl; by right) Hf1 Ha1) as (o & sn & E' & Hf' & Ha' & Hin & Hsub).
      { rewrite length_app. cbn [length]. lia. }
      exists o, sn. split_and!; [done..| |set_solver]. intros q [->|Hq]%elem_of_cons; [apply Hsub; set_solver|by apply Hin].
Qed.

Lemma find_answer_all self found out seen : all_sent self out seen →
  let '(out', seen') := find_answer (λ _, true) found out seen in
  all_sent self out' seen' ∧ seen ⊆ seen' ∧ ∀ pi, pi ∈ found → ai_Addrs pi ≠ [] → ai_ID pi ∈ seen'.
Proof.
  revert out seen. induction found as [|pi found IH]; intros out seen Ha; cbn [find_answer].
  - split_and!; [done|done|]. intros q Hq. by apply elem_of_nil in Hq.
  - assert (Hskip : ai_ID pi ∈ seen ∨ ai_Addrs pi = [] →
      let '(out', seen') := find_answer (λ _, true) found out seen in
      all_sent self out' seen' ∧ seen ⊆ seen' ∧ ∀ q, q ∈ pi :: found → ai_Addrs q ≠ [] → ai_ID q ∈ seen').
    { intros Hs. specialize (IH out seen Ha). destruct (find_answer _ found out seen) as [o sn]. destruct IH as (? & Hsub & Hin).
      split_and!; [done|done|]. intros q [->|Hq]%elem_of_cons Hne; [destruct Hs; [by apply Hsub|done]|by apply Hin]. }
    case_bool_decide; [apply Hskip; by left|]. case_bool_decide; [apply Hskip; by right|]. cbn [orb].
    specialize (IH _ _ (all_sent_send self out seen pi Ha)).
    destruct (find_answer _ found (out ++ [pi]) _) as [o sn]. destruct IH as (? & Hsub & Hin).
    split_and!; [done|set_solver|]. intros q [->|Hq]%elem_of_cons Hne; [apply Hsub; set_solver|by apply Hin].
Qed.

Lemma answers_all self answers out seen : all_sent self out seen →
  let st := foldl (λ st resp, find_answer (λ _, true) (answer_peers resp) st.1 st.2) (out, seen) answers in
  all_sent self st.1 st.2 ∧ seen ⊆ st.2 ∧
  ∀ resp pi, resp ∈ answers → pi ∈ answer_peers resp → ai_Addrs pi ≠ [] → ai_ID pi ∈ st.2.
Proof.
  revert out seen. induction answers as [|resp answers IH]; intros out seen Ha; cbn [foldl fst snd].
  - split_and!; [done|done|]. intros ? ? Hq. by apply elem_of_nil in Hq.
  - pose proof (find_answer_all self (answer_peers resp) out seen Ha) as Hs.
    destruct (find_answer _ (answer_peers resp) out seen) as [o sn]. destruct Hs as (Ha' & Hsub & Hin).
    destruct (IH o sn Ha') as (Ha2 & Hsub2 & Hin2). split_and!; [done|set_solver|].
    intros resp' pi [->|Hr]%elem_of_cons Hpi Hne; [apply Hsub2; by apply Hin|by eapply Hin2].
Qed.

End Finding.

(** ** A small instance *)

(** Addresses as objects of texts, as the library writes them. *)
Definition text_info_json (a : @AddrInfo TextLib) : option json :=
  if utf8_valid (ai_ID a) && forallb utf8_valid (ai_Addrs a)
  then Some (JObj [("Addrs", JArr (JStr ∘ enc_str <$> ai_Addrs a)); ("ID", JStr (enc_str (ai_ID a)))]) else None.

Definition text_of_json (v : json) : option string := match v with JStr raw => unquote raw | _ => None end.

Definition text_info_of_json (v : json) : option (@AddrInfo TextLib) :=
  match v with
  | JObj [(_, JArr l); (_, JStr raw)] =>
      match mapM text_of_json l, unquote raw ≫= text_id with
      | Some addrs, Some id => Some (@mkInfo TextLib id addrs)
      | _, _ => None
      end
  | _ => None
  end.

#[global] Instance TextJson : AddrInfoJson := {| info_json := text_info_json; info_of_json := text_info_of_json |}.

Lemma text_addrs (l : list string) : forallb utf8_valid l = true → mapM text_of_json (JStr ∘ enc_str <$> l) = Some l.
Proof.
  induction l as [|s l IH]; [done|]. cbn [forallb]. intros [Es%utf8_valid_eq El]%andb_true_iff.
  cbn. rewrite unquote_enc_str, Es. cbn. by rewrite IH.
Qed.

#[global] Instance TextJson_laws : AddrInfoJsonLaws.
Proof.
  split; cbn; unfold text_info_json.
  - intros a v d Hv Hd. destruct (_ && _); [|done]. injection Hv as <-. apply w_obj; [unfold max_depth; lia|].
    constructor; [split; [by apply raw_plain|]|constructor; [split; [by apply raw_plain|]|constructor]]; cbn [snd].
    + apply w_arr; [unfold max_depth; lia|]. apply Forall_forall. intros j (s & -> & _)%list_elem_of_fmap. apply w_str, raw_enc.
    + apply w_str, raw_enc.
  - intros a v Hv Hid. destruct (utf8_valid (ai_ID a)) eqn:Eu; [|done]. destruct (forallb utf8_valid (ai_Addrs a)) eqn:Ea; [|done].
    injection Hv as <-. cbn [text_info_of_json].
    match goal with |- context [mapM ?f ?x] => replace (mapM f x) with (Some (ai_Addrs a)) by (symmetry; exact (text_addrs _ Ea)) end.
    rewrite unquote_enc_str. apply utf8_valid_eq in Eu. rewrite Eu. cbn [mbind option_bind].
    unfold id in Hid. rewrite Hid. by destruct a.
Qed.

(** A host is its ID, its addresses and its peers. *)
#[global] Instance list_host : LibHost (string * list string * list string) string := {|
  host_ID h := h.1.1; host_Addrs h := h.1.2; host_Peers h := h.2;
  host_Connect h pi := ((h.1, h.2 ++ [ai_ID pi]), None); host_Close h := ((h.1, []), None)
|}.

Definition demo_host (id addr : string) (peers : list string) : string * list string * list string := ((id, [addr]), peers).

Definition demo_manager : DHTManager := mkManager DefaultDHTConfig ∅ ∅ false.

(** ** Properties *)

(** Hashes are compared, not computed, from here on. *)
#[local] Opaque XORKeyDistance.

(** The distance is Kademlia's XOR metric on the hashes: symmetric, zero
    exactly between keys with the same hash, with the triangle inequality, and
    below [2^256]. *)
Theorem XORKeyDistance_metric a b c :
  XORKeyDistance a b = Z.lxor (be_int 0 (sha256 a)) (be_int 0 (sha256 b)) ∧
  XORKeyDistance a b = XORKeyDistance b a ∧ (XORKeyDistance a b = 0 ↔ sha256 a = sha256 b) ∧
  XORKeyDistance a c ≤ XORKeyDistance a b + XORKeyDistance b c ∧ 0 ≤ XORKeyDistance a b < 2 ^ 256.
Proof.
  rewrite !XORKeyDistance_lxor.
  assert (Hb : ∀ s, 0 ≤ be_int 0 (sha256 s) < 2 ^ 256).
  { intros s. pose proof (be_int_bound (sha256 s)) as B. unfold slen in B. by rewrite length_sha256 in B. }
  split_and!; [done|apply Z.lxor_comm| |apply lxor_triangle; apply Hb|by apply (lxor_bound 256)..].
  rewrite Z.lxor_eq_0_iff. split; [|by intros ->]. intros E. apply be_int_inj; [by rewrite !length_sha256|done].
Qed.

(** C33: [ClosestPeers] returns as many peers of the routing table as were asked
    for, or all of them, sorted by their distance, and no peer it leaves out is
    closer than one it returns. *)
Theorem ClosestPeers_closest `{AddrInfoJson} self targetID count dm : dht_wf self dm → 0 < count →
  let dist pi := XORKeyDistance targetID (ai_ID pi) in
  let l := ClosestPeers targetID count dm in
  Z.of_nat (length l) = Z.min count (RoutingTableSize dm) ∧ StronglySorted (λ p q, dist p ≤ dist q) l ∧
  (∀ p, p ∈ l → dm_routingTable dm !! ai_ID p = Some p) ∧
  (∀ p id q, p ∈ l → dm_routingTable dm !! id = Some q → q ∉ l → dist p ≤ dist q).
Proof.
  intros Hw Hc dist l. set (ds := merge_sort dist_le (distances targetID dm)).
  assert (Hl : l = pd_info <$> take (Z.to_nat count) ds) by (by apply ClosestPeers_take).
  assert (Hsorted : Sorted dist_le ds) by (apply Sorted_merge_sort, _).
  assert (Hperm : ds ≡ₚ distances targetID dm) by apply merge_sort_Permutation.
  assert (Hd : ∀ x, x ∈ ds → pd_dist x = dist (pd_info x) ∧ dm_routingTable dm !! ai_ID (pd_info x) = Some (pd_info x)).
  { intros x. rewrite Hperm. intros (id & pi & Hin & ->)%distances_spec. split; [done|]. cbn [pd_info].
    by destruct (wf_routing _ _ Hw _ _ Hin) as [-> _]. }
  assert (Htake : ∀ x, x ∈ take (Z.to_nat count) ds → x ∈ ds).
  { intros x Hx. rewrite <- (take_drop (Z.to_nat count) ds). apply elem_of_app. by left. }
  split_and!.
  - rewrite Hl, length_fmap, length_take, Hperm, length_distances. unfold RoutingTableSize. lia.
  - rewrite Hl. assert (Hss : StronglySorted dist_le (take (Z.to_nat count) ds)).
    { apply Sorted_StronglySorted in Hsorted; [|apply dist_le_trans].
      rewrite <- (take_drop (Z.to_nat count) ds) in Hsorted. by apply StronglySorted_app_1_l in Hsorted. }
    revert Htake Hss. generalize (take (Z.to_nat count) ds) as k. induction k as [|x k IH]; intros Htake Hss; [constructor|].
    apply StronglySorted_inv in Hss as [Hk Hx]. cbn. constructor; [apply IH; [intros; apply Htake; by right|done]|].
    apply Forall_forall. intros p (y & -> & Hy)%list_elem_of_fmap. rewrite Forall_forall in Hx. specialize (Hx y Hy).
    unfold dist_le in Hx. destruct (Hd x (Htake x ltac:(by left))) as [<- _].
    by destruct (Hd y (Htake y ltac:(by right))) as [<- _].
  - rewrite Hl. intros p (x & -> & Hx)%list_elem_of_fmap. by apply Hd, Htake.
  - intros p id q Hp Hq Hnq. rewrite Hl in Hp, Hnq. apply list_elem_of_fmap in Hp as (x & -> & Hx).
    set (y := mkDist q (dist q)).
    assert (Hy : y ∈ ds) by (rewrite Hperm; apply distances_spec; by exists id, q).
    assert (Hy' : y ∈ drop (Z.to_nat count) ds).
    { rewrite <- (take_drop (Z.to_nat count) ds) in Hy. apply elem_of_app in Hy as [Hy|Hy]; [|done].
      destruct Hnq. apply list_elem_of_fmap. by exists y. }
    pose proof (sorted_take _ _ _ _ Hsorted Hx Hy') as Hle. unfold dist_le in Hle.
    destruct (Hd x (Htake x Hx)) as [E _]. rewrite E in Hle. cbn [pd_dist y] in Hle.
    clearbody dist. exact Hle.
Qed.

Lemma ClosestPeers_closest_witness :
  let dm := AddPeer "12D3z" (mkInfo "12D3b" ["/ip4/10.0.0.2/tcp/1"])
    (AddPeer "12D3z" (mkInfo "12D3a" ["/ip4/10.0.0.1/tcp/1"]) demo_manager) in
  length (ClosestPeers "12D3c" 1 dm) = 1%nat.
Proof.
  cbn zeta. set (dm := AddPeer _ _ _).
  assert (Hw : dht_wf "12D3z" dm).
  { apply wf_AddPeer, wf_AddPeer. by apply (wf_new _ DefaultDHTConfig). }
  destruct (ClosestPeers_closest "12D3z" "12D3c" 1 dm Hw ltac:(lia)) as [Hl _].
  apply Nat2Z.inj. rewrite Hl. reflexivity.
Defined.

(** C32: under every sequence of inbound streams with any bytes, advertisements,
    lookups, cycles and removals, the tables stay well-formed: peers and providers
    are filed under their own ID with addresses, the routing table never holds the
    node itself, and the configuration stays complete.  (The records of providers
    can hold the node itself, which [Advertise] puts there.) *)
Theorem dht_invariant `{AddrInfoJson} {HH E W WE : Type} `{!LibHost HH E} `{!Writer W WE} self cfg dm :
  reachable (dht_init cfg) (dht_step (W:=W) (HH:=HH) self) dm → dht_wf self dm.
Proof.
  apply reachable_invariant. split; [intros s; apply wf_new|]. intros s s'. apply wf_step.
Qed.

Lemma dht_invariant_witness : dht_wf "12D3z" (AddPeer "12D3z" (mkInfo "12D3a" ["/ip4/10.0.0.1/tcp/1"]) demo_manager).
Proof.
  apply (dht_invariant (HH:=string * list string * list string) (W:=limited) "12D3z" DefaultDHTConfig).
  eapply reachable_step; [by apply reachable_init|]. constructor.
Defined.

(** The background discovery of a host: it returns exactly when one of its two
    contexts ends, every peer it reports is another one and has an address, and
    the tables stay well-formed. *)
Theorem StartDiscovery_safe `{AddrInfoJson} {HH E W WE : Type} `{!LibHost HH E} `{!Writer W WE} self out (first : Cycle (HH:=HH)) events dm l dm' ended :
  host_ID (cy_host first) = self → Forall (of_host self) events → dht_wf self dm →
  StartDiscovery out first events (Some dm) = Some (l, dm', ended) →
  dht_wf self dm' ∧ Forall (λ r, Forall (dialable self) r.2) l ∧ (ended = true ↔ CtxDone ∈ events).
Proof.
  intros Hf He Hw [= Hl]. unfold loop in Hl.
  pose proof (rounds_spec (W:=W) self out (Fires first :: events) dm) as H'. rewrite Hl in H'.
  destruct H' as (H1 & H2 & H3); [by constructor|done|]. split_and!; [done..|]. rewrite H3. set_solver.
Qed.

(** C11: rendezvous: a node that advertises to another is in the answer the other
    gives to whoever asks it next for the namespace, at any time until the time to
    live is over: the other handles no stream in between, the two exchanges go
    through, and the peer IDs are canonical. *)
Theorem rendezvous `{PeerLibLaws} `{!AddrInfoJson, !AddrInfoJsonLaws} {HH E W WE : Type} `{!LibHost HH E} `{!Writer W WE}
    out (hA hB hC : HH) (wA wA' wC wC' sB sB' : W) dmA dmB t0 t1 t2 t3 ns ttl adv e resp :
  Decode (id_String (host_ID hA)) = Some (host_ID hA) → Decode (id_String (host_ID hB)) = Some (host_ID hB) →
  Decode (id_String (host_ID hC)) = Some (host_ID hC) →
  (host_ID hB, adv) ∈ (Advertise out hA t0 ns ttl dmA).1 → sendable adv →
  dh_Namespace adv ≠ EmptyString → host_ID hA ≠ EmptyString → host_Addrs hA ≠ [] →
  written wA = EmptyString → written wC = EmptyString → written sB' = EmptyString →
  sendDHTMessage (Ok wA) hA t0 adv false (λ _, mkStream EmptyString EOF) = (Some wA', Ok None) →
  let dmB' := (handleStream hB t1 (mkStream (written wA') e) sB dmB).1 in
  let req := mkDHTMessage DHTMsgFindProviders (my_info hC) EmptyString (dh_Namespace adv) [] t2 0 in
  (∀ pi, pi ∈ (getLocalProviders t3 (dh_Namespace adv) dmB').1 → Decode (id_String (ai_ID pi)) = Some (ai_ID pi)) →
  sendDHTMessage (Ok wC) hC t2 req true
    (λ w, mkStream (written (handleStream hB t3 (mkStream (written w) EOF) sB' dmB').2) EOF) = (Some wC', Ok (Some resp)) →
  t3 ≤ t1 + (let t := wrap64 (dh_TTLSec adv * second) in if t <=? 0 then dc_RecordTTL (dm_cfg dmB) else t) →
  my_info hA ∈ answer_peers (Some resp).
Proof.
  intros HA HB HC Hadv Hsend Hns Hid Haddr HwA HwC HsB Hreq dmB' req Hdec Hask Ht.
  destruct (sendDHTMessage_frame _ _ _ _ _ _ _ _ Hreq HwA) as (d1 & Hd1 & Hf1 & _).
  assert (Hadv' : adv = mkDHTMessage DHTMsgAdvertise (my_info hA) EmptyString (dh_Namespace adv) [] t0 (dh_TTLSec adv)).
  { unfold Advertise in Hadv. cbn [fst] in Hadv. by apply list_elem_of_fmap in Hadv as (x & [= _ ->] & _). }
  set (ttlB := let t := wrap64 (dh_TTLSec adv * second) in if t <=? 0 then dc_RecordTTL (dm_cfg dmB) else t) in Ht.
  assert (Hrec : ∃ b, dm_providers dmB' !! dh_Namespace adv = Some b ∧ b !! host_ID hA = Some (mkProvider (my_info hA) (t1 + ttlB))).
  { unfold dmB'. rewrite (handleStream_request hB t1 _ _ dmB sB _ _ _ e HA Hd1 Hsend Hf1).
    rewrite Hadv'. unfold handle_request. cbn [dh_Type dh_Sender dh_Namespace dh_TTLSec].
    set (dm1 := if bool_decide _ then dmB else _).
    assert (Hcfg : dm_cfg dm1 = dm_cfg dmB) by (unfold dm1, AddPeer; by repeat case_match).
    change (bool_decide (DHTMsgAdvertise = DHTMsgPing)) with false.
    change (bool_decide (DHTMsgAdvertise = DHTMsgAdvertise)) with true. cbv iota. rewrite Hcfg. fold ttlB.
    cbn [fst]. unfold storeProvider.
    rewrite !bool_decide_eq_false_2 by done. cbn [orb dm_providers]. eexists. rewrite lookup_insert_eq.
    split; [done|]. by rewrite lookup_insert_eq. }
  destruct Hrec as (b & Hb & Hba).
  assert (Hin : my_info hA ∈ (getLocalProviders t3 (dh_Namespace adv) dmB').1).
  { unfold getLocalProviders. rewrite Hb. cbn [fst]. apply list_elem_of_fmap. exists (host_ID hA, mkProvider (my_info hA) (t1 + ttlB)).
    split; [done|]. apply elem_of_map_to_list, map_lookup_filter_Some. split; [done|]. unfold expired. cbn. by apply Z.ltb_ge. }
  destruct (sendDHTMessage_frame _ _ _ _ _ _ _ _ Hask HwC) as (d2 & Hd2 & Hf2 & _ & Hresp).
  destruct (Hresp resp eq_refl eq_refl) as (m & rest & Hread & Hun).
  assert (Hreqs : sendable req).
  { split; cbn; [|by constructor|by unfold int64]. split_and!; [done..|]. by destruct (sd_utf8 adv Hsend) as (_ & _ & ?). }
  rewrite (handleStream_request hB t3 _ _ dmB' sB' _ _ _ EOF HC Hd2 Hreqs Hf2) in Hread.
  unfold handle_request in Hread. cbn [dh_Type dh_Sender dh_Namespace req] in Hread.
  set (dm2 := if bool_decide _ then dmB' else _) in Hread.
  assert (Hprov : (getLocalProviders t3 (dh_Namespace adv) dm2).1 = (getLocalProviders t3 (dh_Namespace adv) dmB').1).
  { assert (dm_providers dm2 = dm_providers dmB') as E2 by (unfold dm2, AddPeer; by repeat case_match).
    unfold getLocalProviders. rewrite E2. by destruct (dm_providers dmB' !! _). }
  change (bool_decide (DHTMsgFindProviders = DHTMsgPing)) with false in Hread.
  change (bool_decide (DHTMsgFindProviders = DHTMsgAdvertise)) with false in Hread.
  change (bool_decide (DHTMsgFindProviders = DHTMsgFindProviders)) with true in Hread. cbv iota in Hread.
  destruct (getLocalProviders t3 (dh_Namespace adv) dm2) as [provs dm3] eqn:Ep. cbn [fst] in Hprov. cbn [snd] in Hread.
  eapply (writeResponse_read hB t3 _ sB' m rest resp HsB HB) in Hread as ->; [|split|done].
  - unfold answer_peers. cbn [dh_Type dh_Peers]. rewrite bool_decide_eq_true_2 by done. by rewrite Hprov.
  - cbn. split_and!; [done..|]. by destruct (sd_utf8 adv Hsend) as (_ & _ & ?).
  - cbn. constructor; [done|]. rewrite Hprov. apply Forall_forall. exact Hdec.
  - by unfold int64.
Qed.

Definition demo_A := demo_host "12D3a" "/ip4/10.0.0.1/tcp/1" ["12D3b"].
Definition demo_B := demo_host "12D3b" "/ip4/10.0.0.2/tcp/1" ["12D3a"; "12D3c"].
Definition demo_C := demo_host "12D3c" "/ip4/10.0.0.3/tcp/1" ["12D3b"].
Definition demo_stream : limited := mkLimited EmptyString 2000.
Definition demo_adv : DHTMessage :=
  mkDHTMessage DHTMsgAdvertise (my_info demo_A) EmptyString DefaultDHTNamespace [] unix_epoch 900.
Definition demo_sent : option limited * result (rpc_error (E:=string) (WE:=read_error)) (option DHTMessage) :=
  sendDHTMessage (Ok demo_stream) demo_A unix_epoch demo_adv false (λ _, mkStream EmptyString EOF).
Definition demo_B_later : DHTManager :=
  (handleStream demo_B (unix_epoch + second) (mkStream (written (default demo_stream demo_sent.1)) EOF) demo_stream demo_manager).1.
Definition demo_asked : option limited * result (rpc_error (E:=string) (WE:=read_error)) (option DHTMessage) :=
  sendDHTMessage (Ok demo_stream) demo_C (unix_epoch + 10 * minute)
    (mkDHTMessage DHTMsgFindProviders (my_info demo_C) EmptyString DefaultDHTNamespace [] (unix_epoch + 10 * minute) 0) true
    (λ s, mkStream (written (handleStream demo_B (unix_epoch + 11 * minute) (mkStream (written s) EOF) demo_stream demo_B_later).2) EOF).

Lemma demo_advertised : (Advertise (λ _, 0) demo_A unix_epoch EmptyString 0 demo_manager).1 = [("12D3b", demo_adv)].
Proof.
  assert (Hs : seconds (λ _, 0) (15 * minute) = 900) by (vm_compute; reflexivity).
  unfold Advertise. cbn -[seconds minute]. by rewrite Hs.
Qed.

Lemma rendezvous_witness : ∃ resp, demo_asked.2 = Ok (Some resp) ∧ my_info demo_A ∈ answer_peers (Some resp).
Proof.
  assert (B1 : match demo_sent with (Some _, Ok None) => true | _ => false end = true) by (vm_compute; reflexivity).
  assert (B2 : match demo_asked with (Some _, Ok (Some _)) => true | _ => false end = true) by (vm_compute; reflexivity).
  assert (B3 : forallb (λ pi, bool_decide (Decode (id_String (ai_ID pi)) = Some (ai_ID pi)))
    (getLocalProviders (unix_epoch + 11 * minute) DefaultDHTNamespace demo_B_later).1 = true) by (vm_compute; reflexivity).
  destruct demo_sent as [[wA'|] [[r1|]|]] eqn:E1; try discriminate B1.
  destruct demo_asked as [[wC'|] [[resp|]|]] eqn:E2; try discriminate B2.
  exists resp. split; [reflexivity|].
  assert (HB : demo_B_later = (handleStream demo_B (unix_epoch + second) (mkStream (written wA') EOF) demo_stream demo_manager).1)
    by (unfold demo_B_later; rewrite E1; reflexivity).
  unfold demo_asked in E2. rewrite HB in E2, B3.
  refine (rendezvous (λ _, 0) demo_A demo_B demo_C demo_stream wA' demo_stream wC' demo_stream demo_stream demo_manager demo_manager
    unix_epoch (unix_epoch + second) (unix_epoch + 10 * minute) (unix_epoch + 11 * minute) EmptyString 0 demo_adv EOF resp
    _ _ _ _ _ _ _ _ _ _ _ E1 _ E2 _).
  - reflexivity.
  - reflexivity.
  - reflexivity.
  - rewrite demo_advertised. left.
  - constructor.
    + split; [reflexivity|split; reflexivity].
    + constructor; [reflexivity|constructor].
    + unfold int64. cbn [dh_TTLSec demo_adv]. lia.
  - discriminate.
  - discriminate.
  - discriminate.
  - reflexivity.
  - reflexivity.
  - reflexivity.
  - intros pi Hpi. apply list_elem_of_In in Hpi. rewrite forallb_forall in B3. by apply B3, bool_decide_eq_true in Hpi.
  - by vm_compute.
Defined.

(** What [FindPeers] sends is distinct peers other than oneself, all from the
    cache or, with an address, from an answer; and unless the cache alone
    reaches the limit or the context ends, everything answered is found. *)
Theorem FindPeers_finds `{AddrInfoJson} sent self limit locals answers :
  let found := FindPeers sent self limit locals answers in
  NoDup (ai_ID <$> found) ∧ (∀ pi, pi ∈ found → ai_ID pi ≠ self ∧
    (pi ∈ locals ∨ ai_Addrs pi ≠ [] ∧ ∃ resp, resp ∈ answers ∧ pi ∈ answer_peers resp)) ∧
  (sent = (λ _, true) → Z.of_nat (length locals) < (if limit <=? 0 then DefaultKBucketSize else limit) →
   ∀ pi, ai_ID pi ≠ self →
     pi ∈ locals ∨ (ai_Addrs pi ≠ [] ∧ ∃ resp, resp ∈ answers ∧ pi ∈ answer_peers resp) →
     ∃ q, q ∈ found ∧ ai_ID q = ai_ID pi).
Proof.
  cbn zeta. unfold FindPeers. set (lim := if limit <=? 0 then _ else _).
  set (from := λ pi, pi ∈ locals ∨ ai_Addrs pi ≠ [] ∧ ∃ resp, resp ∈ answers ∧ pi ∈ answer_peers resp).
  assert (Hinit : finding self from [] {[self]}).
  { split; [constructor|set_solver|]. intros pi Hpi. by apply elem_of_nil in Hpi. }
  assert (Hfa : ∀ o sn, finding self from o sn → let st := foldl (λ st resp, find_answer sent (answer_peers resp) st.1 st.2) (o, sn) answers in
    finding self from st.1 st.2).
  { intros o sn Hf. apply finding_answers; [|done]. intros resp pi Hr Hpi Hne. right. eauto. }
  split; [|split].
  - pose proof (find_local_finding self from sent lim locals [] {[self]} ltac:(by left) Hinit) as Hl.
    destruct (find_local sent lim locals [] {[self]}) as [[o sn] []]; destruct Hl as (Hn & Ho & Hgo); [|done].
    by apply Hfa, Hgo.
  - pose proof (find_local_finding self from sent lim locals [] {[self]} ltac:(by left) Hinit) as Hl.
    destruct (find_local sent lim locals [] {[self]}) as [[o sn] []]; destruct Hl as (Hn & Ho & Hgo); [|done].
    intros pi Hpi. by apply (fd_out _ _ _ _ (Hfa _ _ (Hgo eq_refl))).
  - intros Hsent Hlim pi Hself Hpi. rewrite Hsent in *.
    destruct (find_local_all self from lim locals [] {[self]}) as (o & sn & -> & Hf & Ha & Hin & _); [by left|done| |cbn [length]; lia|].
    { intros id ->%elem_of_singleton. by left. }
    destruct (answers_all self answers o sn Ha) as (Ha2 & Hsub & Hans).
    assert (Hseen : ai_ID pi ∈ (foldl (λ st resp, find_answer (λ _, true) (answer_peers resp) st.1 st.2) (o, sn) answers).2).
    { destruct Hpi as [Hpi|(Hne & resp & Hr & Hpi)]; [by apply Hsub, Hin|by eapply Hans]. }
    destruct (Ha2 _ Hseen) as [?|(q & Hq & Hid)]; [done|]. by exists q.
Qed.

Lemma FindPeers_finds_witness : ∃ q,
  q ∈ FindPeers (λ _, true) "12D3z" 1 [] [None; Some (with_Peers [@mkInfo TextLib "12D3a" ["/ip4/10.0.0.1/tcp/1"]; @mkInfo TextLib "12D3b" ["/ip4/10.0.0.2/tcp/1"]]
    (with_Type DHTMsgFindProvidersResp zeroDHT))] ∧ ai_ID q = "12D3b".
Proof.
  eapply (FindPeers_finds (λ _, true) "12D3z" 1 []) with (pi := @mkInfo TextLib "12D3b" ["/ip4/10.0.0.2/tcp/1"]);
    [reflexivity|reflexivity|discriminate|right; split; [discriminate|]].
  eexists. split; [right; left|right; left].
Defined.

(** The limit holds for the cache only. *)
Example FindPeers_over_limit :
  length (FindPeers (λ _, true) "12D3z" 1 [] [Some (with_Peers [@mkInfo TextLib "12D3a" ["/ip4/10.0.0.1/tcp/1"]; @mkInfo TextLib "12D3b" ["/ip4/10.0.0.2/tcp/1"]]
    (with_Type DHTMsgFindProvidersResp zeroDHT))]) = 2%nat.
Proof. reflexivity. Qed.

(** ** Limits *)

(** A response whose JSON exceeds the body limit is not sent at all. *)
Lemma writeResponse_oversize `{AddrInfoJson} {HH E W WE : Type} `{!LibHost HH E} `{!Writer W WE} (h : HH) now resp data (s : W) :
  marshal_dht resp = Some data → MaxBodyLen < slen data → writeResponse h now resp s = s.
Proof.
  intros Hm Hl. unfold writeResponse. rewrite Hm. destruct (WriteMessage s _) as [w r] eqn:Ew.
  apply WriteMessage_spec in Ew. cbn [fst].
  assert (Hno : ∀ f, frame (wire_message (host_ID h) now data) ≠ Ok f).
  { intros f (p & [Hv _]%MarshalMessage_Ok & _)%frame_Ok. apply vm_body_len in Hv. cbn [msg_Body wire_message] in Hv.
    unfold MaxBodyLen in Hl. lia. }
  destruct r as [[]|[e|[]]]; [|by destruct Ew|done| |done].
  - destruct Ew as (f & Hf & _). by destruct (Hno f).
  - destruct Ew as (f & n & Hf & _). by destruct (Hno f).
Qed.

(** A mode that is disabled up to white space starts a manager. *)
Example disabled_with_spaces :
  match NewDHTManager (mkConfig " disabled " EmptyString EmptyString 0 0) with
  | Ok (Some dm) => dc_Mode (dm_cfg dm) = DHTModeDisabled
  | _ => False
  end.
Proof. reflexivity. Qed.

(** A time to live below a second is sent as none, and the receiver keeps the
    record for its own. *)
Example subsecond_ttl : seconds (λ _, 0) (second / 2) = 0.
Proof. vm_compute. reflexivity. Qed.

(** The time to live of a message is converted without a check: a large one wraps
    around. *)
Example ttl_wraps : wrap64 (18446744074 * second) = 290448384.
Proof. reflexivity. Qed.

(** An advertisement is stored for the sender named in its body, whoever sent
    it. *)
Lemma advertise_unauthenticated `{AddrInfoJson} {HH E : Type} `{!LibHost HH E} (h : HH) now req dm :
  dh_Type req = DHTMsgAdvertise → dh_Namespace req ≠ EmptyString → ai_ID (dh_Sender req) ≠ EmptyString →
  ai_Addrs (dh_Sender req) ≠ [] →
  ∃ b rec, dm_providers (handle_request h now req dm).1 !! dh_Namespace req = Some b ∧
    b !! ai_ID (dh_Sender req) = Some rec ∧ pr_info rec = dh_Sender req.
Proof.
  intros Ht Hn Hi Ha. unfold handle_request. rewrite Ht.
  change (bool_decide (DHTMsgAdvertise = DHTMsgPing)) with false.
  change (bool_decide (DHTMsgAdvertise = DHTMsgAdvertise)) with true. cbn [fst]. unfold storeProvider.
  rewrite !bool_decide_eq_false_2 by done. cbn [orb dm_providers].
  do 2 eexists. rewrite lookup_insert_eq. split; [done|]. rewrite lookup_insert_eq. done.
Qed.
