(* ===== verification/Config.v ===== *)
(** * Configuration

    [internal/config/config.go]: defaults, validation, and the JSON file over the
    file systems of [Identity].  The environment and the multiaddress library are
    inputs; the texts of errors matter in one place, where [LoadOrCreate] looks
    into them, and are modelled for it. *)

From S2P Require Import Prelude GoStrings GoPath GoTime Json JsonObject JsonTree Addr Node Dht.
From S2P Require Import Identity.
Import Addr.

Open Scope Z_scope.

Module Config.

(** ** Data *)

Record NetworkConfig : Type := mkNetwork {
  nc_ListenAddrs : list string; nc_AdvertisedAddrs : list string; nc_EnableMDNS : bool;
  nc_BootstrapPeers : list string; nc_EnableRelay : bool; nc_EnableHolePunch : bool; nc_EnableAutoNAT : bool;
  nc_DHTMode : string; nc_DHTNamespace : string
}.

Record UIConfig : Type := mkUI { ui_Theme : string; ui_ShowTimestamps : bool }.

Record Config : Type := mkConfig {
  cf_DataDir : string; cf_Username : string; cf_DisplayName : string; cf_Network : NetworkConfig; cf_UI : UIConfig
}.

Definition default_listen : list string := ["/ip4/0.0.0.0/tcp/0"].
Definition default_namespace : string := "skall.rendezvous.v2".

Definition DefaultConfig (e : PathEnv) : Config :=
  let dataDir := TrimSpace (pe_SKALL_DATA_DIR e) in
  let dataDir :=
    if bool_decide (dataDir = EmptyString) then
      let configDir := default EmptyString (pe_UserConfigDir e) in
      if bool_decide (configDir = EmptyString) then ".skall" else JoinPath [configDir; "skall"]
    else dataDir in
  mkConfig dataDir EmptyString EmptyString
    (mkNetwork default_listen [] true [] false false false "auto" default_namespace) (mkUI "default" true).

Definition DefaultConfigPath (e : PathEnv) : option string :=
  let override := TrimSpace (pe_SKALL_CONFIG_PATH e) in
  if negb (bool_decide (override = EmptyString)) then Some override
  else configDir ← pe_UserConfigDir e; Some (JoinPath [configDir; "skall"; "config.json"]).

(** ** Validation *)

Inductive config_error : Type :=
  | InvalidListen (addr : string) (e : addr_error)
  | InvalidAdvertisedAddr (addr : string) (e : addr_error)
  | InvalidMode (raw : string)
  | ReadConfig (e : Identity.os_error)
  | DecodeConfig
  | WriteConfig (e : Identity.os_error).

Section Config.
Context `{PeerLib}.

Fixpoint validate_addrs (err : string → addr_error → config_error) (addrs : list string) : result config_error () :=
  match addrs with
  | [] => Ok ()
  | addr :: addrs => match ValidateMultiaddr addr with Err e => Err (err addr e) | Ok _ => validate_addrs err addrs end
  end.

(** [Validate] changes the configuration it is called on; here it returns it.
    What it has changed before it fails is lost with the caller's copy. *)
Definition Validate (e : PathEnv) (c : Config) : result config_error Config :=
  let override := TrimSpace (pe_SKALL_DATA_DIR e) in
  let dir := TrimSpace (if bool_decide (override = EmptyString) then cf_DataDir c else override) in
  let dir := if bool_decide (dir = EmptyString) then JoinPath ["."; ".skall"] else dir in
  let n := cf_Network c in
  let listen := match nc_ListenAddrs n with [] => default_listen | l => l end in
  _ ← validate_addrs InvalidListen listen;
  _ ← validate_addrs InvalidAdvertisedAddr (nc_AdvertisedAddrs n);
  let mode := ToLower (TrimSpace (nc_DHTMode n)) in
  if negb (bool_decide (mode ∈ [EmptyString; "auto"; "client"; "server"; "disabled"])) then Err (InvalidMode (nc_DHTMode n)) else
  let dhtMode := if bool_decide (mode = EmptyString) then "auto" else nc_DHTMode n in
  let dhtMode := if bool_decide (dhtMode = EmptyString) then "auto" else dhtMode in
  let ns := if bool_decide (nc_DHTNamespace n = EmptyString) then default_namespace else nc_DHTNamespace n in
  let theme := if bool_decide (ui_Theme (cf_UI c) = EmptyString) then "default" else ui_Theme (cf_UI c) in
  Ok (mkConfig dir (cf_Username c) (cf_DisplayName c)
    (mkNetwork listen (nc_AdvertisedAddrs n) (nc_EnableMDNS n) (nc_BootstrapPeers n) (nc_EnableRelay n)
      (nc_EnableHolePunch n) (nc_EnableAutoNAT n) dhtMode ns)
    (mkUI theme (ui_ShowTimestamps (cf_UI c)))).

End Config.

(** ** The JSON of the file *)

Definition str (s : string) : json := JStr (enc_str s).
Definition strs (l : list string) : json := JArr (str <$> l).

(** A member left out when it is empty. *)
Definition omit (c : bool) (k : string) (v : json) : list (string * json) := if c then [] else [(k, v)].

Definition network_json (n : NetworkConfig) : json := JObj (
  [("listen_addresses", strs (nc_ListenAddrs n))]
  ++ omit (bool_decide (nc_AdvertisedAddrs n = [])) "advertised_addresses" (strs (nc_AdvertisedAddrs n))
  ++ [("enable_mdns", JBool (nc_EnableMDNS n))]
  ++ omit (bool_decide (nc_BootstrapPeers n = [])) "bootstrap_peers" (strs (nc_BootstrapPeers n))
  ++ [("enable_relay", JBool (nc_EnableRelay n)); ("enable_hole_punch", JBool (nc_EnableHolePunch n));
      ("enable_autonat", JBool (nc_EnableAutoNAT n)); ("dht_mode", str (nc_DHTMode n))]
  ++ omit (bool_decide (nc_DHTNamespace n = EmptyString)) "dht_namespace" (str (nc_DHTNamespace n))).

Definition ui_json (u : UIConfig) : json :=
  JObj [("theme", str (ui_Theme u)); ("show_timestamps", JBool (ui_ShowTimestamps u))].

Definition config_json (c : Config) : json := JObj (
  [("data_dir", str (cf_DataDir c))]
  ++ omit (bool_decide (cf_Username c = EmptyString)) "username" (str (cf_Username c))
  ++ omit (bool_decide (cf_DisplayName c = EmptyString)) "display_name" (str (cf_DisplayName c))
  ++ [("network", network_json (cf_Network c)); ("ui", ui_json (cf_UI c))]).

(** [json.MarshalIndent(cfg, "", "  ")], for a list of listen addresses that is
    not nil, as it is after [Validate]. *)
Definition MarshalIndent (c : Config) : string := json_text true 0 (config_json c).

Definition with_ListenAddrs v n := mkNetwork v (nc_AdvertisedAddrs n) (nc_EnableMDNS n) (nc_BootstrapPeers n)
  (nc_EnableRelay n) (nc_EnableHolePunch n) (nc_EnableAutoNAT n) (nc_DHTMode n) (nc_DHTNamespace n).
Definition with_AdvertisedAddrs v n := mkNetwork (nc_ListenAddrs n) v (nc_EnableMDNS n) (nc_BootstrapPeers n)
  (nc_EnableRelay n) (nc_EnableHolePunch n) (nc_EnableAutoNAT n) (nc_DHTMode n) (nc_DHTNamespace n).
Definition with_EnableMDNS v n := mkNetwork (nc_ListenAddrs n) (nc_AdvertisedAddrs n) v (nc_BootstrapPeers n)
  (nc_EnableRelay n) (nc_EnableHolePunch n) (nc_EnableAutoNAT n) (nc_DHTMode n) (nc_DHTNamespace n).
Definition with_BootstrapPeers v n := mkNetwork (nc_ListenAddrs n) (nc_AdvertisedAddrs n) (nc_EnableMDNS n) v
  (nc_EnableRelay n) (nc_EnableHolePunch n) (nc_EnableAutoNAT n) (nc_DHTMode n) (nc_DHTNamespace n).
Definition with_EnableRelay v n := mkNetwork (nc_ListenAddrs n) (nc_AdvertisedAddrs n) (nc_EnableMDNS n)
  (nc_BootstrapPeers n) v (nc_EnableHolePunch n) (nc_EnableAutoNAT n) (nc_DHTMode n) (nc_DHTNamespace n).
Definition with_EnableHolePunch v n := mkNetwork (nc_ListenAddrs n) (nc_AdvertisedAddrs n) (nc_EnableMDNS n)
  (nc_BootstrapPeers n) (nc_EnableRelay n) v (nc_EnableAutoNAT n) (nc_DHTMode n) (nc_DHTNamespace n).
Definition with_EnableAutoNAT v n := mkNetwork (nc_ListenAddrs n) (nc_AdvertisedAddrs n) (nc_EnableMDNS n)
  (nc_BootstrapPeers n) (nc_EnableRelay n) (nc_EnableHolePunch n) v (nc_DHTMode n) (nc_DHTNamespace n).
Definition with_DHTMode v n := mkNetwork (nc_ListenAddrs n) (nc_AdvertisedAddrs n) (nc_EnableMDNS n)
  (nc_BootstrapPeers n) (nc_EnableRelay n) (nc_EnableHolePunch n) (nc_EnableAutoNAT n) v (nc_DHTNamespace n).
Definition with_DHTNamespace v n := mkNetwork (nc_ListenAddrs n) (nc_AdvertisedAddrs n) (nc_EnableMDNS n)
  (nc_BootstrapPeers n) (nc_EnableRelay n) (nc_EnableHolePunch n) (nc_EnableAutoNAT n) (nc_DHTMode n) v.
Definition with_Theme v u := mkUI v (ui_ShowTimestamps u).
Definition with_ShowTimestamps v u := mkUI (ui_Theme u) v.
Definition with_DataDir v c := mkConfig v (cf_Username c) (cf_DisplayName c) (cf_Network c) (cf_UI c).
Definition with_Username v c := mkConfig (cf_DataDir c) v (cf_DisplayName c) (cf_Network c) (cf_UI c).
Definition with_DisplayName v c := mkConfig (cf_DataDir c) (cf_Username c) v (cf_Network c) (cf_UI c).
Definition with_Network v c := mkConfig (cf_DataDir c) (cf_Username c) (cf_DisplayName c) v (cf_UI c).
Definition with_UI v c := mkConfig (cf_DataDir c) (cf_Username c) (cf_DisplayName c) (cf_Network c) v.

(** The elements of an array into the slice [old]: a [null] leaves what the
    slice has at its place. *)
Fixpoint dec_elems (l : list json) (old : list string) : option (list string) :=
  match l with
  | [] => Some []
  | v :: l =>
      o ← dec_string v;
      rest ← dec_elems l (tail old);
      Some (default (default EmptyString (head old)) o :: rest)
  end.

(** Into a slice of strings: [null] makes it nil. *)
Definition dec_strings (v : json) (old : list string) : option (list string) :=
  match v with
  | JArr l => dec_elems l old
  | JNull => Some []
  | _ => None
  end.

(** Into a struct that is a field: its members replace what it has. *)
Definition dec_struct {R} (fields : list (string * (json → R → option R))) (v : json) (r : R) : option R :=
  match v with
  | JObj l => set_members fields l r
  | JNull => Some r
  | _ => None
  end.

Definition network_fields : list (string * (json → NetworkConfig → option NetworkConfig)) :=
  [("listen_addresses", λ v n, l ← dec_strings v (nc_ListenAddrs n); Some (with_ListenAddrs l n));
   ("advertised_addresses", λ v n, l ← dec_strings v (nc_AdvertisedAddrs n); Some (with_AdvertisedAddrs l n));
   ("enable_mdns", λ v, assign with_EnableMDNS (dec_bool v));
   ("bootstrap_peers", λ v n, l ← dec_strings v (nc_BootstrapPeers n); Some (with_BootstrapPeers l n));
   ("enable_relay", λ v, assign with_EnableRelay (dec_bool v));
   ("enable_hole_punch", λ v, assign with_EnableHolePunch (dec_bool v));
   ("enable_autonat", λ v, assign with_EnableAutoNAT (dec_bool v));
   ("dht_mode", λ v, assign with_DHTMode (dec_string v));
   ("dht_namespace", λ v, assign with_DHTNamespace (dec_string v))].

Definition ui_fields : list (string * (json → UIConfig → option UIConfig)) :=
  [("theme", λ v, assign with_Theme (dec_string v));
   ("show_timestamps", λ v, assign with_ShowTimestamps (dec_bool v))].

Definition config_fields : list (string * (json → Config → option Config)) :=
  [("data_dir", λ v, assign with_DataDir (dec_string v));
   ("username", λ v, assign with_Username (dec_string v));
   ("display_name", λ v, assign with_DisplayName (dec_string v));
   ("network", λ v c, n ← dec_struct network_fields v (cf_Network c); Some (with_Network n c));
   ("ui", λ v c, u ← dec_struct ui_fields v (cf_UI c); Some (with_UI u c))].

(** ** The file *)

Section Store.
Context `{PeerLib} {F : Type} `{!Identity.FileSystem F}.

Definition Load (e : PathEnv) (path : string) (f : F) : result config_error Config :=
  match Identity.ReadFile path f with
  | Err x => Err (ReadConfig x)
  | Ok data =>
      match unmarshal_struct config_fields data (DefaultConfig e) with
      | None => Err DecodeConfig
      | Some cfg => Validate e cfg
      end
  end.

Definition Save (e : PathEnv) (path : string) (cfg : Config) (f : F) : F * result config_error () :=
  match Validate e cfg with
  | Err x => (f, Err x)
  | Ok cfg =>
      match Identity.MkdirAll (Dir path) f with
      | (f, Err x) => (f, Err (WriteConfig x))
      | (f, Ok _) =>
          match Identity.WriteFile path (MarshalIndent cfg) f with
          | (f, Err x) => (f, Err (WriteConfig x))
          | (f, Ok _) =>
              match Identity.Chmod path f with
              | (f, Err x) => if decide (x = Identity.ErrPermission) then (f, Ok ()) else (f, Err (WriteConfig x))
              | (f, Ok _) => (f, Ok ())
              end
          end
      end
  end.

(** [strconv.Quote], as far as a search for ASCII text sees it: characters
    beyond ASCII are left, escaped or not, since an escape begins with a
    backslash and the digits in it are not searched for. *)
Fixpoint quote_ascii (s : string) : string :=
  match s with
  | EmptyString => EmptyString
  | String a s =>
      let z := byte_Z a in
      let esc c := String backslash (String c EmptyString) in
      (if (z =? 34) || (z =? 92) then esc a
       else if z =? 7 then esc "a"%char else if z =? 8 then esc "b"%char else if z =? 12 then esc "f"%char
       else if z =? 10 then esc "n"%char else if z =? 13 then esc "r"%char else if z =? 9 then esc "t"%char
       else if z =? 11 then esc "v"%char
       else if (z <? 32) || (z =? 127)
         then String backslash ("x" +:+ String (hex_digit (z `div` 16)) (String (hex_digit (z `mod` 16)) EmptyString))
       else String a EmptyString) +:+ quote_ascii s
  end.

(** [err.Error()]; [lib] is the text of an error that quotes texts of the
    operating system or of a library. *)
Definition error_text (lib : config_error → string) (x : config_error) : string :=
  match x with
  | InvalidMode raw => "invalid dht_mode " +:+ String quote (quote_ascii raw) +:+ String quote
      ": must be auto, client, server, or disabled"
  | _ => lib x
  end.

(** [errors.Is(err, os.ErrNotExist)]. *)
Definition is_not_exist (x : config_error) : bool :=
  match x with ReadConfig Identity.ErrNotExist => true | _ => false end.

(** [LoadOrCreate]: a missing file, and every error whose text mentions [no such
    file], makes it write the default configuration. *)
Definition LoadOrCreate (lib : config_error → string) (e : PathEnv) (f : F) : F * result config_error Config :=
  match DefaultConfigPath e with
  | None => (f, Ok (DefaultConfig e))
  | Some path =>
      match Load e path f with
      | Ok cfg => (f, Ok cfg)
      | Err x =>
          if negb (is_not_exist x) && negb (Contains (error_text lib x) "no such file")
          then (f, Err x)
          else ((Save e path (DefaultConfig e) f).1, Ok (DefaultConfig e))
      end
  end.

End Store.

(** ** Specification *)

(** What a validated configuration is. *)
Record valid_config `{PeerLib} (e : PathEnv) (c : Config) : Prop := mkValid {
  vc_dir : cf_DataDir c ≠ EmptyString ∧ TrimSpace (cf_DataDir c) = cf_DataDir c;
  vc_override : TrimSpace (pe_SKALL_DATA_DIR e) ≠ EmptyString → cf_DataDir c = TrimSpace (pe_SKALL_DATA_DIR e);
  vc_listen : nc_ListenAddrs (cf_Network c) ≠ [] ∧
    Forall (λ a, ∃ m, NewMultiaddr (TrimSpace a) = Some m) (nc_ListenAddrs (cf_Network c));
  vc_advertised : Forall (λ a, ∃ m, NewMultiaddr (TrimSpace a) = Some m) (nc_AdvertisedAddrs (cf_Network c));
  vc_mode : ToLower (TrimSpace (nc_DHTMode (cf_Network c))) ∈ ["auto"; "client"; "server"; "disabled"];
  vc_namespace : nc_DHTNamespace (cf_Network c) ≠ EmptyString;
  vc_theme : ui_Theme (cf_UI c) ≠ EmptyString
}.

(** Every text is UTF-8. *)
Definition utf8_config (c : Config) : bool :=
  utf8_valid (cf_DataDir c) && utf8_valid (cf_Username c) && utf8_valid (cf_DisplayName c) &&
  forallb utf8_valid (nc_ListenAddrs (cf_Network c)) && forallb utf8_valid (nc_AdvertisedAddrs (cf_Network c)) &&
  forallb utf8_valid (nc_BootstrapPeers (cf_Network c)) && utf8_valid (nc_DHTMode (cf_Network c)) &&
  utf8_valid (nc_DHTNamespace (cf_Network c)) && utf8_valid (ui_Theme (cf_UI c)).

End Config.

Import Config.

(** ** Validation *)

Section Validation.
Context `{PeerLib}.
Implicit Types (e : PathEnv) (c : Config).

Lemma validate_addrs_Ok err l : validate_addrs err l = Ok () ↔ Forall (λ a, ValidateMultiaddr a = Ok ()) l.
Proof.
  induction l as [|a l IH]; cbn; [split; [constructor|done]|]. rewrite Forall_cons.
  destruct (ValidateMultiaddr a) as [[]|x] eqn:E; [rewrite IH; tauto|]. split; [done|by intros [? _]].
Qed.

Lemma ValidateMultiaddr_Ok a : ValidateMultiaddr a = Ok () → ∃ m, NewMultiaddr (TrimSpace a) = Some m.
Proof. unfold ValidateMultiaddr. case_decide; [done|]. destruct (NewMultiaddr (TrimSpace a)); [eauto|done]. Qed.

Lemma Validate_fields e c c' : Validate e c = Ok c' →
  Forall (λ a, ValidateMultiaddr a = Ok ()) (nc_ListenAddrs (cf_Network c')) ∧
  Forall (λ a, ValidateMultiaddr a = Ok ()) (nc_AdvertisedAddrs (cf_Network c')) ∧
  valid_config e c'.
Proof.
  unfold Validate. set (n := cf_Network c).
  set (dir := if bool_decide (TrimSpace (if bool_decide (TrimSpace _ = EmptyString) then _ else _) = EmptyString) then _ else _).
  set (listen := match nc_ListenAddrs n with [] => _ | _ => _ end). intros Hv.
  apply bind_ok_iff in Hv as ([] & Hl & Hv). apply bind_ok_iff in Hv as ([] & Ha & Hv).
  apply validate_addrs_Ok in Hl, Ha. destruct (negb _) eqn:Em; [done|]. injection Hv as <-. cbn [cf_Network nc_ListenAddrs nc_AdvertisedAddrs].
  apply negb_false_iff, bool_decide_eq_true in Em.
  split; [done|]. split; [done|].
  assert (Hdir : dir ≠ EmptyString ∧ TrimSpace dir = dir).
  { unfold dir. case_bool_decide as Hd; [by vm_compute|]. split; [done|]. apply TrimSpace_idem. }
  split; cbn.
  - exact Hdir.
  - intros Ho. unfold dir. rewrite (bool_decide_eq_false_2 (TrimSpace (pe_SKALL_DATA_DIR e) = EmptyString)) by done.
    by rewrite TrimSpace_idem, bool_decide_eq_false_2.
  - split; [unfold listen; by destruct (nc_ListenAddrs n)|]. eapply Forall_impl; [exact Hl|]. apply ValidateMultiaddr_Ok.
  - eapply Forall_impl; [exact Ha|]. apply ValidateMultiaddr_Ok.
  - destruct (decide (ToLower (TrimSpace (nc_DHTMode n)) = EmptyString)) as [Hm|Hm].
    + rewrite (bool_decide_eq_true_2 _ Hm). by left.
    + rewrite (bool_decide_eq_false_2 _ Hm), bool_decide_eq_false_2; [|intros E0; apply Hm; by rewrite E0].
      by apply elem_of_cons in Em as [?|Em].
  - by case_bool_decide.
  - by case_bool_decide.
Qed.

(** Validating again changes nothing. *)
Lemma Validate_again e c c' : Validate e c = Ok c' → Validate e c' = Ok c'.
Proof.
  intros Hv. destruct (Validate_fields e c c' Hv) as (Hl & Ha & [[Hd Ht] Ho [Hln _] _ Hm Hn Hth]).
  unfold Validate.
  assert ((match nc_ListenAddrs (cf_Network c') with [] => default_listen | l => l end) = nc_ListenAddrs (cf_Network c')) as ->
    by (by destruct (nc_ListenAddrs (cf_Network c'))).
  rewrite (proj2 (validate_addrs_Ok InvalidListen _) Hl), (proj2 (validate_addrs_Ok InvalidAdvertisedAddr _) Ha). cbn [mbind result_bind].
  rewrite (bool_decide_eq_true_2 (ToLower _ ∈ [EmptyString; "auto"; "client"; "server"; "disabled"])) by (by right). cbn [negb].
  assert (Hm0 : ToLower (TrimSpace (nc_DHTMode (cf_Network c'))) ≠ EmptyString).
  { intros E0. rewrite E0 in Hm. repeat (apply elem_of_cons in Hm as [Hm|Hm]; [done|]).
    by apply elem_of_nil in Hm. }
  rewrite (bool_decide_eq_false_2 (ToLower _ = EmptyString)) by done.
  rewrite (bool_decide_eq_false_2 (nc_DHTMode _ = EmptyString)) by (intros E0; rewrite E0 in Hm0; done).
  rewrite (bool_decide_eq_false_2 (nc_DHTNamespace _ = EmptyString)), (bool_decide_eq_false_2 (ui_Theme _ = EmptyString)) by done.
  assert (TrimSpace (if bool_decide (TrimSpace (pe_SKALL_DATA_DIR e) = EmptyString) then cf_DataDir c' else TrimSpace (pe_SKALL_DATA_DIR e)) = cf_DataDir c') as ->.
  { case_bool_decide as Hov; [done|]. rewrite TrimSpace_idem. symmetry. by apply Ho. }
  rewrite (bool_decide_eq_false_2 (cf_DataDir c' = EmptyString)) by done. by destruct c' as [? ? ? [] []].
Qed.

End Validation.

(** ** The file *)

Section File.
Implicit Types (c : Config) (n : NetworkConfig) (u : UIConfig).

Lemma str_written d s : written_json d (str s).
Proof. apply w_str, raw_enc. Qed.

Lemma strs_written d l : d < max_depth → written_json d (strs l).
Proof. intros Hd. apply w_arr; [done|]. apply Forall_forall. intros v (s & -> & _)%list_elem_of_fmap. apply str_written. Qed.

Lemma member_written d k v : all_bytes rune1 k = true → plain k = true → written_json d v →
  Forall (λ m, raw_str m.1 ∧ written_json d m.2) [(k, v)].
Proof. intros Ha Hp Hv. apply Forall_singleton. split; [by apply raw_plain|done]. Qed.

Lemma omit_written b d k v : all_bytes rune1 k = true → plain k = true → written_json d v →
  Forall (λ m, raw_str m.1 ∧ written_json d m.2) (omit b k v).
Proof. intros. unfold omit. destruct b; [constructor|by apply member_written]. Qed.

Lemma cons_written d k v l : all_bytes rune1 k = true → plain k = true → written_json d v →
  Forall (λ m, raw_str m.1 ∧ written_json d m.2) l → Forall (λ m, raw_str m.1 ∧ written_json d m.2) ((k, v) :: l).
Proof. intros Ha Hp Hv Hl. apply Forall_cons. split; [split; [by apply raw_plain|done]|done]. Qed.

(** An object whose members are strings, lists of strings and truth values. *)
Ltac written :=
  lazymatch goal with
  | |- written_json _ (JObj _) => apply w_obj; [done|]; written
  | |- Forall _ (_ ++ _) => apply Forall_app; split; written
  | |- Forall _ (omit _ _ _) => apply omit_written; [done|done|]; written
  | |- Forall _ ((_, _) :: _) => apply cons_written; [done|done| |]; written
  | |- Forall _ [] => apply Forall_nil_2
  | |- written_json _ (str _) => apply str_written
  | |- written_json _ (strs _) => by apply strs_written
  | |- written_json _ (JBool _) => apply w_bool
  | |- _ => idtac
  end.

Lemma config_written c : written_json 0 (config_json c).
Proof. unfold config_json. written; [unfold network_json; written|unfold ui_json; written]. Qed.

Lemma dec_string_utf8 s : utf8_valid s = true → dec_string (str s) = Some (Some s).
Proof. intros Hs%utf8_valid_eq. unfold str. by rewrite dec_string_enc, Hs. Qed.

Lemma dec_elems_strs l old : forallb utf8_valid l = true → dec_elems (str <$> l) old = Some l.
Proof.
  revert old. induction l as [|s l IH]; intros old; [done|]. cbn [forallb fmap list_fmap].
  intros [Hs Hl]%andb_true_iff. cbn [dec_elems]. rewrite (dec_string_utf8 s) by done.
  cbn [mbind option_bind]. rewrite IH by done. done.
Qed.

(** A field of the struct is set by its member, or left out and empty. *)
Ltac set_one H :=
  first [erewrite set_members_cons; [|reflexivity|at_field; rewrite ?H; reflexivity]
        |unfold omit at 1; erewrite set_members_omit; [|reflexivity|at_field; rewrite ?H; reflexivity|]].

Lemma network_decoded n base :
  forallb utf8_valid (nc_ListenAddrs n) = true → forallb utf8_valid (nc_AdvertisedAddrs n) = true →
  forallb utf8_valid (nc_BootstrapPeers n) = true → utf8_valid (nc_DHTMode n) = true → utf8_valid (nc_DHTNamespace n) = true →
  nc_DHTNamespace n ≠ EmptyString → nc_AdvertisedAddrs base = [] → nc_BootstrapPeers base = [] →
  dec_struct network_fields (network_json n) base = Some n.
Proof.
  intros Ul Ua Ub Um Un Hns Ba Bb. unfold network_json. cbn [dec_struct].
  assert (Hl : ∀ l old, forallb utf8_valid l = true → dec_strings (strs l) old = Some l) by (intros; by apply dec_elems_strs).
  rewrite <- ?app_assoc. cbn [app].
  set_one (λ old, Hl (nc_ListenAddrs n) old Ul).
  set_one (λ old, Hl (nc_AdvertisedAddrs n) old Ua).
  2:{ intros Hb%bool_decide_eq_true. rewrite Hb. destruct base. cbn in Ba. by rewrite Ba. }
  cbn [app]. set_one tt. rewrite <- ?app_assoc.
  set_one (λ old, Hl (nc_BootstrapPeers n) old Ub).
  2:{ intros Hb%bool_decide_eq_true. rewrite Hb. destruct base. cbn in Bb. by rewrite Bb. }
  cbn [app]. do 3 set_one tt. set_one (dec_string_utf8 _ Um).
  rewrite (bool_decide_eq_false_2 (nc_DHTNamespace n = EmptyString)) by done. unfold omit.
  set_one (dec_string_utf8 _ Un). cbn [set_members]. by destruct n.
Qed.

Lemma ui_decoded u base : utf8_valid (ui_Theme u) = true → dec_struct ui_fields (ui_json u) base = Some u.
Proof.
  intros Ut. unfold ui_json. cbn [dec_struct]. set_one (dec_string_utf8 _ Ut). set_one tt. by destruct u.
Qed.

(** The file of a configuration, read over the defaults, is the configuration. *)
Lemma config_decoded e c : utf8_config c = true → nc_DHTNamespace (cf_Network c) ≠ EmptyString →
  unmarshal_struct config_fields (MarshalIndent c) (DefaultConfig e) = Some c.
Proof.
  unfold utf8_config. rewrite !andb_true_iff. intros ((((((((Ud & Uu) & Un) & Ul) & Ua) & Ub) & Um) & Uns) & Ut) Hns.
  unfold unmarshal_struct, MarshalIndent.
  pose proof (parse_object_text true _ EmptyString (config_written c) eq_refl) as Hp. rewrite app_nil_r_s in Hp.
  change (parse_json (json_text true 0 (config_json c)) = Some (config_json c)) in Hp. rewrite Hp.
  cbn [mbind option_bind]. unfold config_json. rewrite <- ?app_assoc. cbn [app].
  set_one (dec_string_utf8 _ Ud).
  set_one (dec_string_utf8 _ Uu). 2:{ intros Hb%bool_decide_eq_true. rewrite Hb. reflexivity. }
  set_one (dec_string_utf8 _ Un). 2:{ intros Hb%bool_decide_eq_true. rewrite Hb. reflexivity. }
  erewrite set_members_cons; [|reflexivity|]. 
  2:{ at_field. rewrite network_decoded; [reflexivity|done..]. }
  erewrite set_members_cons; [|reflexivity|]. 
  2:{ at_field. rewrite ui_decoded; [reflexivity|done]. }
  cbn [set_members]. by destruct c.
Qed.

End File.

(** ** Properties *)

(** C21: a configuration that passes [Validate] is sane — directory, listen
    addresses, mode, namespace and theme are set, every address parses, and the
    environment's data directory wins — and validating it again changes nothing. *)
Theorem Validate_sanitizes `{PeerLib} e c c' : Validate e c = Ok c' →
  valid_config e c' ∧ Validate e c' = Ok c'.
Proof. intros Hv. split; [by eapply Validate_fields|by eapply Validate_again]. Qed.

Definition demo_env : PathEnv := mkPathEnv " /srv/skall " EmptyString EmptyString EmptyString (Some "/home/u/.config").

Definition empty_config : Config :=
  mkConfig EmptyString EmptyString EmptyString (mkNetwork [] [] false [] false false false EmptyString EmptyString) (mkUI EmptyString false).

Lemma Validate_sanitizes_witness : ∃ c', Validate demo_env empty_config = Ok c' ∧ cf_DataDir c' = "/srv/skall" ∧
  Validate demo_env c' = Ok c'.
Proof.
  destruct (Validate demo_env empty_config) as [c'|] eqn:E0; [|by vm_compute in E0].
  destruct (Validate_sanitizes _ _ _ E0) as [Hv Ha]. exists c'. split; [done|]. split; [|exact Ha].
  apply (vc_override _ _ Hv). by vm_compute.
Defined.

(** C25: a configuration that was saved is loaded again as [Validate] left it: the
    members that were omitted are the defaults. *)
Theorem config_roundtrip `{PeerLib} {F} `{!Identity.FileSystem F} e path c c' (f f' : F) :
  Validate e c = Ok c' → utf8_config c' = true → Save e path c f = (f', Ok ()) → Load e path f' = Ok c'.
Proof.
  intros Hv Hu. unfold Save. rewrite Hv. destruct (Identity.MkdirAll (Dir path) f) as [f1 [|]]; [|done].
  destruct (Identity.WriteFile path (MarshalIndent c') f1) as [f2 [[]|]] eqn:Ew; [|done].
  assert (H2 : Identity.ReadFile path f2 = Ok (MarshalIndent c')).
  { pose proof (Identity.WriteFile_read path (MarshalIndent c') f1) as Hw. rewrite Ew in Hw. by apply Hw. }
  pose proof (Identity.Chmod_read path f2) as Hc. intros Hs.
  assert (Hr : Identity.ReadFile path f' = Ok (MarshalIndent c')).
  { destruct (Identity.Chmod path f2) as [f3 [|x]]; cbn [fst] in Hc; [by injection Hs as <-; rewrite Hc|].
    destruct (decide (x = Identity.ErrPermission)); [|done]. injection Hs as <-. by rewrite Hc. }
  unfold Load. rewrite Hr, config_decoded; [by eapply Validate_again|done|].
  by apply (Validate_fields e c c' Hv).
Qed.

Lemma config_roundtrip_witness : ∃ c',
  Load demo_env "/home/u/c.json" (Save demo_env "/home/u/c.json" (DefaultConfig demo_env) (∅ : Identity.mem_fs)).1 = Ok c'.
Proof.
  destruct (Validate demo_env (DefaultConfig demo_env)) as [c'|] eqn:E0; [|by vm_compute in E0].
  exists c'. apply (config_roundtrip demo_env "/home/u/c.json" (DefaultConfig demo_env) c' (∅ : Identity.mem_fs)); [exact E0| |].
  - assert (c' = match Validate demo_env (DefaultConfig demo_env) with Ok c => c | Err _ => c' end) as -> by (by rewrite E0).
    vm_compute. reflexivity.
  - unfold Save. rewrite E0. reflexivity.
Defined.

(** [LoadOrCreate] destroys a file it could have reported: a configuration
    whose mode is invalid and mentions [no such file] is replaced by the
    defaults, without an error. *)
Theorem LoadOrCreate_overwrites `{PeerLib} {F} `{!Identity.FileSystem F} lib e path (f : F) data c raw d :
  DefaultConfigPath e = Some path → Identity.ReadFile path f = Ok data →
  unmarshal_struct config_fields data (DefaultConfig e) = Some c → Validate e c = Err (InvalidMode raw) →
  Contains (error_text lib (InvalidMode raw)) "no such file" = true → Validate e (DefaultConfig e) = Ok d →
  (Save e path (DefaultConfig e) f).2 = Ok () → 
  let '(f', r) := LoadOrCreate lib e f in
  r = Ok (DefaultConfig e) ∧ Identity.ReadFile path f' = Ok (MarshalIndent d).
Proof.
  intros Hp Hr Hu Hv Hc Hd Hs. unfold LoadOrCreate. rewrite Hp. unfold Load. rewrite Hr, Hu, Hv. cbn [is_not_exist negb andb].
  rewrite Hc. cbn [negb]. split; [done|]. unfold Save in Hs |- *. rewrite Hd in Hs |- *.
  destruct (Identity.MkdirAll (Dir path) f) as [f1 [|]]; [|done].
  destruct (Identity.WriteFile path (MarshalIndent d) f1) as [f2 [[]|]] eqn:Ew; [|done].
  assert (H2 : Identity.ReadFile path f2 = Ok (MarshalIndent d)).
  { pose proof (Identity.WriteFile_read path (MarshalIndent d) f1) as Hw. rewrite Ew in Hw. by apply Hw. }
  pose proof (Identity.Chmod_read path f2) as Hcm.
  destruct (Identity.Chmod path f2) as [f3 [|x]]; cbn [fst] in Hcm; [cbn [fst]; by rewrite Hcm|].
  destruct (decide (x = Identity.ErrPermission)); cbn [fst]; by rewrite Hcm.
Qed.

(** A file with such a mode. *)
Definition bad_file : string :=
  "{" +:+ json_key "network" +:+ "{" +:+ json_key "dht_mode" +:+ marshal_string "no such file" +:+ "}}".

Lemma LoadOrCreate_overwrites_witness : ∃ d,
  (LoadOrCreate (λ _, EmptyString) demo_env ({[ "/home/u/.config/skall/config.json" := bad_file ]} : Identity.mem_fs)).1
    !! "/home/u/.config/skall/config.json" = Some (MarshalIndent d).
Proof.
  set (path := "/home/u/.config/skall/config.json"). set (f := {[ path := bad_file ]} : Identity.mem_fs).
  destruct (Validate demo_env (DefaultConfig demo_env)) as [d|] eqn:Ed; [|by vm_compute in Ed].
  destruct (unmarshal_struct config_fields bad_file (DefaultConfig demo_env)) as [c|] eqn:Ec; [|by vm_compute in Ec].
  assert (Hm : Validate demo_env c = Err (InvalidMode "no such file")).
  { assert (Hc : Some c = unmarshal_struct config_fields bad_file (DefaultConfig demo_env)) by done.
    vm_compute in Hc. injection Hc as ->. vm_compute. reflexivity. }
  exists d.
  pose proof (LoadOrCreate_overwrites (λ _, EmptyString) demo_env path f bad_file c "no such file" d
    ltac:(reflexivity) ltac:(reflexivity) Ec Hm ltac:(vm_compute; reflexivity) Ed
    ltac:(unfold Save; rewrite Ed; reflexivity)) as Hl.
  destruct (LoadOrCreate (λ _, EmptyString) demo_env f) as [f' r]. destruct Hl as [_ Hl]. cbn [fst].
  change (from_option_err Identity.ErrNotExist (f' !! path) = Ok (MarshalIndent d)) in Hl.
  destruct (f' !! path); [|discriminate Hl]. by injection Hl as ->.
Defined.
