(* ===== verification/Cli.v ===== *)
(** * The command line

    [cmd/skall/main.go]: the dispatch of arguments, the choice of files, the
    local identity at start-up over the files of [Identity] and the tables of
    [Storage], and the network services over [Node], [Bootstrap] and [Dht].
    What is printed is in [Output]; signals and the terminal are left out; what opening, dialling and
    the libraries answer are inputs. *)

From S2P Require Import Prelude GoStrings GoPath GoTime GoNet GoFloat Json Protocol Addr Backoff Bootstrap Node Dht Config.
From S2P Require Import Identity Storage.
Import Addr.

Open Scope Z_scope.

Module Cli.

(** ** Arguments *)

Definition parseListenAddr (raw : string) : string :=
  let raw := TrimSpace raw in
  if bool_decide (raw = EmptyString) then "/ip4/0.0.0.0/tcp/0"
  else if HasPrefix raw "/" then raw
  else match Atoi raw with
       | Some _ => "/ip4/0.0.0.0/tcp/" +:+ raw
       | None => raw
       end.

(** The loops over [--listen] and [--peer]; [positional] is whether another
    word without a dash is a listen address, as for [p2p]. *)
Fixpoint parse_flags (positional : bool) (args : list string) (listenAddr : string) (peerAddrs : list string) :
    string * list string :=
  match args with
  | [] => (listenAddr, peerAddrs)
  | a :: rest =>
      let word := if positional && negb (HasPrefix a "-") then parseListenAddr a else listenAddr in
      match rest with
      | v :: rest' =>
          if bool_decide (a = "--listen") || bool_decide (a = "-l")
          then parse_flags positional rest' (parseListenAddr v) peerAddrs
          else if bool_decide (a = "--peer") || bool_decide (a = "-p")
          then parse_flags positional rest' listenAddr (peerAddrs ++ [v])
          else parse_flags positional rest word peerAddrs
      | [] => (word, peerAddrs)
      end
  end.

Inductive command : Type :=
  | RunTUI (listenAddr : string) (peerAddrs : list string)
  | ShowVersion | ShowHelp
  | IdentityCommand (args : list string)
  | PeersCommand
  | ConnectCommand (args : list string)
  | ConnectUsage
  | GroupsCommand (args : list string)
  | ConfigCommand (args : list string)
  | StartServer (address : string) | StartClient (address : string) | RunDiscover (address : string)
  | RunP2P (listenAddr : string) (peerAddrs : list string)
  | UnknownCommand (name : string).

Definition argument (default : string) (args : list string) : string := match args with a :: _ => a | [] => default end.

(** [runCLI]: what the arguments ask for. *)
Definition runCLI (args : list string) : command :=
  match args with
  | [] => RunTUI EmptyString []
  | name :: rest =>
      if bool_decide (name ∈ ["version"; "--version"; "-v"]) then ShowVersion
      else if bool_decide (name ∈ ["help"; "--help"; "-h"]) then ShowHelp
      else if bool_decide (name = "identity") then IdentityCommand rest
      else if bool_decide (name = "peers") then PeersCommand
      else if bool_decide (name = "connect") then match rest with [] => ConnectUsage | _ => ConnectCommand rest end
      else if bool_decide (name = "chat") then
        let target := argument EmptyString rest in
        RunTUI EmptyString (if HasPrefix target "/" then [target] else [])
      else if bool_decide (name = "groups") then GroupsCommand rest
      else if bool_decide (name = "config") then ConfigCommand rest
      else if bool_decide (name = "server") then StartServer (argument "localhost:4000" rest)
      else if bool_decide (name = "client") then StartClient (argument "localhost:4000" rest)
      else if bool_decide (name = "discover") then RunDiscover (argument "0.0.0.0:4000" rest)
      else if bool_decide (name = "p2p") then
        let '(l, p) := parse_flags true rest EmptyString [] in RunP2P l p
      else if bool_decide (name = "tui") then
        let '(l, p) := parse_flags false rest EmptyString [] in RunTUI l p
      else if HasPrefix name "-" then
        let '(l, p) := parse_flags false args EmptyString [] in RunTUI l p
      else UnknownCommand name
  end.

(** ** Files *)

(** The path [openStore] opens, and the one [openIdentityStore] uses. *)
Definition store_path (e : PathEnv) (cfg : Config.Config) : option string :=
  let override := TrimSpace (pe_SKALL_DB_PATH e) in
  if negb (bool_decide (override = EmptyString)) then Some override else
  let dataDir := TrimSpace (pe_SKALL_DATA_DIR e) in
  if negb (bool_decide (dataDir = EmptyString)) then Some (JoinPath [dataDir; "skall.db"])
  else if negb (bool_decide (Config.cf_DataDir cfg = EmptyString)) then Some (JoinPath [Config.cf_DataDir cfg; "skall.db"])
  else storage_DefaultPath e.

Definition identity_path (e : PathEnv) (cfg : Config.Config) : option string :=
  let override := TrimSpace (pe_SKALL_IDENTITY_PATH e) in
  if negb (bool_decide (override = EmptyString)) then Some override else
  let dataDir := TrimSpace (pe_SKALL_DATA_DIR e) in
  if negb (bool_decide (dataDir = EmptyString)) then Some (JoinPath [dataDir; "identity.json"])
  else if negb (bool_decide (Config.cf_DataDir cfg = EmptyString)) then Some (JoinPath [Config.cf_DataDir cfg; "identity.json"])
  else identity_DefaultPath e.

(** ** The local identity *)

Inductive cli_error : Type :=
  | NoConfigDir
  | EmptyDisplayName
  | IdentityStore (e : Identity.store_error)
  | OpenStore
  | StoreError (e : Storage.db_error).

Section LocalIdentity.
Context {F : Type} `{!Identity.FileSystem F}.

(** [storage.Open] of the path of [openStore] succeeds if [opens] does. *)
Definition openStore (e : PathEnv) (cfg : Config.Config) (opens : string → bool) : bool :=
  match store_path e cfg with Some path => opens path | None => false end.

(** A name of the configuration replaces the identity's, in memory and, if it
    can be saved, in the file. *)
Definition override_name (path name : string) (get : Identity.Identity → string)
    (set : string → Identity.Identity → Identity.Identity) (f : F) (i : Identity.Identity) : F * Identity.Identity :=
  if negb (bool_decide (name = EmptyString)) && negb (bool_decide (name = get i))
  then let i := set name i in ((Identity.Save path (Dir path) i f).1, i)
  else (f, i).

(** [keys] and [now] are for a new identity; the tables are those of the store
    that is opened. *)
Definition loadLocalIdentity (e : PathEnv) (cfg : Config.Config) (opens : string → bool)
    (keys : option (string * string)) (now : Time) (f : F) (se : Storage.Env) (w : Storage.World) :
    F * Storage.World * result cli_error Identity.Identity :=
  match identity_path e cfg with
  | None => (f, w, Err NoConfigDir)
  | Some path =>
      match Identity.LoadOrCreate path (Dir path) keys now f with
      | (f, Err x) => (f, w, Err (IdentityStore x))
      | (f, Ok i) =>
          let '(f, i) := override_name path (Config.cf_DisplayName cfg) Identity.id_DisplayName Identity.set_DisplayName f i in
          let '(f, i) := override_name path (Config.cf_Username cfg) Identity.id_Username Identity.set_Username f i in
          if negb (openStore e cfg opens) then (f, w, Err OpenStore) else
          match Storage.UpsertIdentityMetadata i se w with
          | (Err x, w) => (f, w, Err (StoreError x))
          | (Ok _, w) => (f, w, Ok i)
          end
      end
  end.

(** [skall identity set-name]: the words of the name; the tables are updated if
    they can be. *)
Definition set_name (e : PathEnv) (cfg : Config.Config) (opens : string → bool) (words : list string)
    (localID : Identity.Identity) (f : F) (se : Storage.Env) (w : Storage.World) :
    F * Storage.World * result cli_error () :=
  let newName := TrimSpace (Join words " ") in
  if bool_decide (newName = EmptyString) then (f, w, Err EmptyDisplayName) else
  match identity_path e cfg with
  | None => (f, w, Err NoConfigDir)
  | Some path =>
      let localID := Identity.set_DisplayName newName localID in
      match Identity.Save path (Dir path) localID f with
      | (f, Err x) => (f, w, Err (IdentityStore x))
      | (f, Ok _) =>
          let w := if openStore e cfg opens then (Storage.UpsertIdentityMetadata localID se w).2 else w in
          (f, w, Ok ())
      end
  end.

(** [handleIdentityCommand]: [None] only shows the identity. *)
Definition handleIdentityCommand (e : PathEnv) (cfg : Config.Config) (opens : string → bool) (args : list string)
    (localID : Identity.Identity) (f : F) (se : Storage.Env) (w : Storage.World) :
    F * Storage.World * option (result cli_error ()) :=
  match args with
  | sub :: (_ :: _) as words =>
      if bool_decide (sub = "set-name") then
        let '(f, w, r) := set_name e cfg opens (tail args) localID f se w in (f, w, Some r)
      else (f, w, None)
  | _ => (f, w, None)
  end.

End LocalIdentity.

(** [skall groups create]: the group is written to the tables; any other
    arguments list them. *)
Definition handleGroupsCommand (args : list string) (now : Time) : Storage.DB (option (list Storage.Group)) :=
  match args with
  | sub :: groupID :: rest =>
      if bool_decide (sub = "create") then
        let groupName := match rest with [] => groupID | _ => Join rest " " end in
        _ ← Storage.UpsertGroup groupID groupName now; mret None
      else l ← Storage.ListGroups; mret (Some l)
  | _ => l ← Storage.ListGroups; mret (Some l)
  end.

Definition handlePeersCommand : Storage.DB (list Storage.Peer) := Storage.ListPeers.

(** [skall config]: the path, the file of defaults, or the configuration. *)
Inductive config_answer : Type :=
  | ConfigPath (r : option string)
  | ConfigInit (r : option (result Config.config_error ()))
  | ConfigShow (data : string).

Definition handleConfigCommand `{PeerLib} {F} `{!Identity.FileSystem F} (e : PathEnv) (args : list string)
    (cfg : Config.Config) (f : F) : F * config_answer :=
  let sub := argument "show" args in
  if bool_decide (sub = "path") then (f, ConfigPath (Config.DefaultConfigPath e))
  else if bool_decide (sub = "init") then
    match Config.DefaultConfigPath e with
    | None => (f, ConfigInit None)
    | Some path => let '(f, r) := Config.Save e path (Config.DefaultConfig e) f in (f, ConfigInit (Some r))
    end
  else (f, ConfigShow (Config.MarshalIndent cfg)).

(** ** Network services *)

Section Network.
Context `{PeerLib}.

Definition node_options (cfg : Config.Config) (listenAddr : string) : Node.NodeOptions :=
  let n := Config.cf_Network cfg in
  Node.mkOptions (if bool_decide (listenAddr = EmptyString) then Config.nc_ListenAddrs n else [listenAddr])
    (Config.nc_EnableMDNS n) true (Config.nc_EnableAutoNAT n) (Config.nc_EnableRelay n) (Config.nc_EnableHolePunch n)
    (Config.nc_AdvertisedAddrs n) [].

Definition buildNodeFromConfig {HH E F K} `{!LibHost HH E} (env : Node.BuildEnv (H:=HH) (E:=E) (K:=K))
    (cfg : Config.Config) (listenAddr : string) : result (Node.build_error (E:=E) * option HH) (Node.Node HH F) :=
  Node.BuildNodeWithOptions env (node_options cfg listenAddr).

Definition dht_config (cfg : Config.Config) : Dht.DHTConfig :=
  Dht.mkConfig (Config.nc_DHTMode (Config.cf_Network cfg)) EmptyString (Config.nc_DHTNamespace (Config.cf_Network cfg))
    (30 * second) (15 * minute).

(** [networkRuntime]: the services that run, the bootstrap loop included. *)
Record networkRuntime : Type := mkRuntime {
  nr_bootstrap : option Bootstrap.BootstrapManager; nr_dht : option (Dht.DHTManager)
}.

Inductive network_error : Type :=
  | StartBootstrap (e : Bootstrap.boot_error)
  | StartDHT (e : Dht.dht_error).

(** [startNetworkServices] on a node with the ID [self], with the schedule and
    the outcomes of the first dials: the bootstrap manager it started, and the
    services it returns. *)
Definition startNetworkServices {E} (self : string) (sched : list nat) (w : nat → option E * Z) (cfg : Config.Config) :
    option Bootstrap.BootstrapManager * result network_error networkRuntime :=
  let go (bm : option Bootstrap.BootstrapManager) :=
    (bm, match Dht.NewDHTManager (dht_config cfg) with
         | Err e => Err (StartDHT e)
         | Ok dm => Ok (mkRuntime bm dm)
         end) in
  match Config.nc_BootstrapPeers (Config.cf_Network cfg) with
  | [] => go None
  | addrs =>
      match Bootstrap.NewBootstrapManager (Some self) addrs Backoff.DefaultBackoffConfig with
      | Err e => (None, Err (StartBootstrap e))
      | Ok bm => go (snd <$> Bootstrap.ConnectAll sched w bm)
      end
  end.

(** [networkRuntime.Close] of a runtime that is not nil. *)
Definition Close (r : networkRuntime) : networkRuntime :=
  mkRuntime (snd ∘ Bootstrap.Close <$> nr_bootstrap r) (snd ∘ Dht.Close <$> nr_dht r).

(** [connectPeerTargets]: the addresses that are dialled, in order. *)
Fixpoint connectPeerTargets {HH E F} `{!LibHost HH E} (peerAddrs : list string) (n : Node.Node HH F) :
    Node.Node HH F * list (string * option E) :=
  match peerAddrs with
  | [] => (n, [])
  | peerAddr :: peerAddrs =>
      match ParsePeerAddr peerAddr EmptyString with
      | Err _ => connectPeerTargets peerAddrs n
      | Ok pi =>
          let '(n, err) := Node.Connect pi n in
          let '(n, l) := connectPeerTargets peerAddrs n in (n, (ai_ID pi, err) :: l)
      end
  end.

(** A line of [runP2P]: the message and the peers it is sent to. *)
Definition p2p_line (localID : Identity.Identity) (now : Time) (connected : list string) (text : string) :
    list (string * Message) :=
  let line := TrimSpace text in
  if bool_decide (line = EmptyString) then []
  else (λ pid, (pid, NewChatMessage now (Identity.id_PeerID localID) EmptyString EmptyString line)) <$> connected.

Inductive connect_error {HH E : Type} : Type :=
  | TargetRequired
  | ParseTarget (e : addr_error)
  | BuildConnectNode (e : Node.build_error (E:=E) * option HH)
  | ConnectTo (e : E).
Arguments connect_error : clear implicits.

(** [skall connect]: a node of its own dials the target; the peer is recorded
    if the tables can be opened, and the node is closed in any case. *)
Definition handleConnectCommand {HH E F K} `{!LibHost HH E} (env : Node.BuildEnv (H:=HH) (E:=E) (K:=K)) (e : PathEnv)
    (cfg : Config.Config) (opens : string → bool) (args : list string) (now : Time) (se : Storage.Env) (w : Storage.World) :
    Storage.World * option (Node.Node HH F) * result (connect_error HH E) AddrInfo :=
  match args with
  | [] => (w, None, Err TargetRequired)
  | target :: rest =>
      match ParsePeerAddr (TrimSpace target) (TrimSpace (argument EmptyString rest)) with
      | Err x => (w, None, Err (ParseTarget x))
      | Ok pi =>
          match Node.BuildNodeWithOptions env
                  (Node.mkOptions ["/ip4/0.0.0.0/tcp/0"] false false false false false [] []) with
          | Err x => (w, None, Err (BuildConnectNode x))
          | Ok n =>
              let '(n, err) := Node.Connect pi n in
              match err with
              | Some x => (w, Some (Node.Close n).1, Err (ConnectTo x))
              | None =>
                  let w := if openStore e cfg opens
                    then (Storage.UpsertPeer (id_String (ai_ID pi)) (id_String (ai_ID pi)) now se w).2 else w in
                  (w, Some (Node.Close n).1, Ok pi)
              end
          end
      end
  end.

End Network.

(** The port [runDiscover] announces, from the address the server listens on. *)
Definition discover_port (addr : string) : option Z :=
  match SplitHostPort addr with
  | Err _ => None
  | Ok (_, portStr) => port ← Atoi portStr; if port =? 0 then None else Some port
  end.

End Cli.

Import Cli.

(** ** Arguments *)

(** Options as they are given on the command line. *)
Inductive cli_option : Type := OptListen (long : bool) (v : string) | OptPeer (long : bool) (v : string).

Definition option_words (o : cli_option) : list string :=
  match o with
  | OptListen long v => [if long then "--listen" else "-l"; v]
  | OptPeer long v => [if long then "--peer" else "-p"; v]
  end.

Definition apply_option (st : string * list string) (o : cli_option) : string * list string :=
  match o with
  | OptListen _ v => (parseListenAddr v, st.2)
  | OptPeer _ v => (st.1, st.2 ++ [v])
  end.

Lemma parse_flags_options positional os l p :
  parse_flags positional (concat (map option_words os)) l p = foldl apply_option (l, p) os.
Proof.
  revert l p. induction os as [|o os IH]; intros l p; [done|]. cbn [map concat foldl].
  destruct o as [[] v|[] v]; cbn [option_words app parse_flags]; rewrite ?andb_false_r; apply IH.
Qed.

(** The options of [tui] and of a bare command line are all taken, in any
    number and order: the last listen address counts, and the peers are in the
    order given, even if a value looks like an option. *)
Theorem options_taken os : runCLI ("tui" :: concat (map option_words os)) =
    (let '(l, p) := foldl apply_option (EmptyString, []) os in RunTUI l p) ∧
  (os ≠ [] → runCLI (concat (map option_words os)) = runCLI ("tui" :: concat (map option_words os))) ∧
  runCLI ("p2p" :: concat (map option_words os)) =
    (let '(l, p) := foldl apply_option (EmptyString, []) os in RunP2P l p).
Proof.
  assert (Htui : runCLI ("tui" :: concat (map option_words os)) = (let '(l, p) := foldl apply_option (EmptyString, []) os in RunTUI l p)).
  { rewrite <- (parse_flags_options false). reflexivity. }
  split_and!; [exact Htui| |rewrite <- (parse_flags_options true); reflexivity].
  intros Hne. rewrite Htui. rewrite <- (parse_flags_options false). by destruct os as [|[[] v|[] v] os].
Qed.

Lemma options_taken_witness :
  runCLI ["-p"; "/ip4/10.0.0.1/tcp/1"; "--listen"; "9001"; "-p"; "-x"; "-l"; "9002"] =
  RunTUI "/ip4/0.0.0.0/tcp/9002" ["/ip4/10.0.0.1/tcp/1"; "-x"].
Proof.
  destruct (options_taken [OptPeer false "/ip4/10.0.0.1/tcp/1"; OptListen true "9001"; OptPeer false "-x"; OptListen false "9002"]) as (Ht & Hb & _).
  exact (eq_trans (Hb ltac:(discriminate)) Ht).
Defined.

(** ** The local identity *)

Section Identities.
Context {F : Type} `{!Identity.FileSystem F}.

Lemma LoadOrCreate_valid path dir keys now (f f' : F) i :
  Identity.LoadOrCreate path dir keys now f = (f', Ok i) → Identity.Validate i = Ok ().
Proof.
  unfold Identity.LoadOrCreate. destruct (Identity.Load path f) as [i0|x] eqn:E0.
  - intros [= _ <-]. unfold Identity.Load in E0. destruct (Identity.ReadFile path f) as [data|]; [|done].
    destruct (unmarshal_struct _ data _) as [i|]; [|done].
    destruct (Identity.Validate i) as [[]|] eqn:Ev; [|done]. by injection E0 as <-.
  - destruct x as [[]| | | |]; try done. unfold Identity.Generate. destruct keys as [[pub priv]|]; [|done].
    destruct (Identity.Validate (Identity.new_identity pub priv now)) as [[]|] eqn:Ev; [|done].
    destruct (Identity.Save _ _ _ f) as [f1 [|]]; [|done]. by intros [= _ <-].
Qed.

Lemma override_name_get path name get set (f : F) i : (∀ n i, get (set n i) = n) → name ≠ EmptyString →
  get (override_name path name get set f i).2 = name.
Proof. intros Hg Hn. unfold override_name. rewrite bool_decide_eq_false_2 by done. case_bool_decide; cbn; [done|apply Hg]. Qed.

Lemma override_name_keep (other : Identity.Identity → string) path name get set (f : F) i :
  (∀ n i, other (set n i) = other i) → other (override_name path name get set f i).2 = other i.
Proof. intros Ho. unfold override_name. destruct (_ && _); [apply Ho|done]. Qed.

Lemma recorded_valid i se w w' : Storage.UpsertIdentityMetadata i se w = (Ok (), w') → Identity.Validate i = Ok ().
Proof. unfold Storage.UpsertIdentityMetadata. by destruct (Identity.Validate i) as [[]|]. Qed.

(** The names of the identity a start ends with. *)
Lemma load_names e cfg opens keys now (f f' : F) se w w' i :
  loadLocalIdentity e cfg opens keys now f se w = (f', w', Ok i) →
  Identity.Validate i = Ok () ∧
  (Config.cf_DisplayName cfg ≠ EmptyString → Identity.id_DisplayName i = Config.cf_DisplayName cfg) ∧
  (Config.cf_Username cfg ≠ EmptyString → Identity.id_Username i = Config.cf_Username cfg).
Proof.
  unfold loadLocalIdentity. destruct (identity_path e cfg) as [path|]; [|done].
  destruct (Identity.LoadOrCreate path (Dir path) keys now f) as [f1 [i1|]]; [|done].
  destruct (override_name path (Config.cf_DisplayName cfg) _ _ f1 i1) as [f2 i2] eqn:E1.
  destruct (override_name path (Config.cf_Username cfg) _ _ f2 i2) as [f3 i3] eqn:E2.
  destruct (negb (openStore e cfg opens)); [done|].
  destruct (Storage.UpsertIdentityMetadata i3 se w) as [[[]|] w1] eqn:Eu; [|done]. intros [= _ _ <-].
  apply recorded_valid in Eu as Ev.
  assert (H2 : i2 = (override_name path (Config.cf_DisplayName cfg) Identity.id_DisplayName Identity.set_DisplayName f1 i1).2) by (by rewrite E1).
  assert (H3 : i3 = (override_name path (Config.cf_Username cfg) Identity.id_Username Identity.set_Username f2 i2).2) by (by rewrite E2).
  split_and!; [done| |].
  - intros Hd. rewrite H3, (override_name_keep Identity.id_DisplayName), H2 by done. by apply override_name_get.
  - intros Hu. rewrite H3. by apply override_name_get.
Qed.

End Identities.

(** A name set on the command line does not outlive a configured one: after
    [identity set-name] has succeeded the file holds the new name, and the next
    start that succeeds has the configured name again. *)
Theorem set_name_reverted {F} `{!Identity.FileSystem F} e cfg opens words localID (f f1 f2 : F) se w w1 se' w2 keys now path i :
  identity_path e cfg = Some path → Identity.utf8_identity (Identity.set_DisplayName (TrimSpace (Join words " ")) localID) = true →
  set_name e cfg opens words localID f se w = (f1, w1, Ok ()) →
  loadLocalIdentity e cfg opens keys now f1 se' w1 = (f2, w2, Ok i) → Config.cf_DisplayName cfg ≠ EmptyString →
  Identity.Load path f1 = Ok (Identity.set_DisplayName (TrimSpace (Join words " ")) localID) ∧
  Identity.id_DisplayName i = Config.cf_DisplayName cfg.
Proof.
  intros Hp Hu Hs Hl Hd. split; [|by apply (load_names e cfg opens keys now f1 f2 se' w1 w2 i Hl)].
  unfold set_name in Hs. case_bool_decide; [done|]. rewrite Hp in Hs.
  destruct (Identity.Save path (Dir path) _ f) as [f' [[]|]] eqn:Es; [|done]. injection Hs as <- _.
  eapply Load_Save; [exact Hu|exact Es].
Qed.

Definition demo_env : PathEnv := mkPathEnv "/srv/skall" EmptyString EmptyString EmptyString None.
Definition demo_config (name mode : string) (advertised : list string) : Config.Config :=
  Config.mkConfig "/srv/skall" EmptyString name
    (Config.mkNetwork Config.default_listen advertised false [] false false false mode "ns") (Config.mkUI "default" true).
Definition quiet : Storage.Env := Storage.calm.
Definition no_rows : Storage.World := Storage.mkWorld Storage.emptyDatabase 0.

Lemma set_name_reverted_witness : ∃ f1 w1 f2 w2 i,
  set_name demo_env (demo_config "Configured" "auto" []) (λ _, true) ["New"; "Name"] Identity.sample_identity
    (∅ : Identity.mem_fs) quiet no_rows = (f1, w1, Ok ()) ∧
  loadLocalIdentity demo_env (demo_config "Configured" "auto" []) (λ _, true) None 0 f1 quiet w1 = (f2, w2, Ok i) ∧
  Identity.id_DisplayName i = "Configured".
Proof.
  set (cfg := demo_config "Configured" "auto" []).
  destruct (set_name demo_env cfg (λ _, true) ["New"; "Name"] Identity.sample_identity (∅ : Identity.mem_fs) quiet no_rows)
    as [[f1 w1] r1] eqn:E1.
  destruct (loadLocalIdentity demo_env cfg (λ _, true) None 0 f1 quiet w1) as [[f2 w2] r2] eqn:E2.
  assert (B : (let '(f1, w1, r1) := set_name demo_env cfg (λ _, true) ["New"; "Name"] Identity.sample_identity (∅ : Identity.mem_fs) quiet no_rows in
    is_ok r1 && is_ok (loadLocalIdentity demo_env cfg (λ _, true) None 0 f1 quiet w1).2) = true) by (vm_compute; reflexivity).
  rewrite E1, E2 in B. cbn [snd] in B. apply andb_true_iff in B as [B1 B2].
  destruct r1 as [[]|]; [|discriminate B1]. destruct r2 as [i|]; [|discriminate B2].
  exists f1, w1, f2, w2, i. split; [reflexivity|]. split; [exact E2|].
  refine (proj2 (set_name_reverted demo_env cfg (λ _, true) ["New"; "Name"] Identity.sample_identity ∅ f1 f2 quiet no_rows w1 quiet w2
    None 0 "/srv/skall/identity.json" i _ _ E1 E2 _)); [reflexivity|vm_compute; reflexivity|discriminate].
Defined.

(** A configuration may be valid and still stop every command: with a display
    name of white space alone [Validate] succeeds and no start ever does,
    whatever the files and tables hold. *)
Theorem blank_name_fatal `{PeerLib} {F} `{!Identity.FileSystem F} e c cfg opens keys now (f : F) se w :
  Config.Validate e c = Ok cfg → Config.cf_DisplayName c ≠ EmptyString → TrimSpace (Config.cf_DisplayName c) = EmptyString →
  is_ok (loadLocalIdentity e cfg opens keys now f se w).2 = false.
Proof.
  intros Hv Hne Hb. assert (Hc : Config.cf_DisplayName cfg = Config.cf_DisplayName c).
  { unfold Config.Validate in Hv. apply bind_ok_iff in Hv as ([] & _ & Hv). apply bind_ok_iff in Hv as ([] & _ & Hv).
    destruct (negb _); [done|]. by injection Hv as <-. }
  destruct (loadLocalIdentity e cfg opens keys now f se w) as [[f' w'] [i|]] eqn:El; [|done].
  destruct (load_names _ _ _ _ _ _ _ _ _ _ _ El) as (Hi & Hd & _). rewrite Hc in Hd. specialize (Hd Hne).
  apply Validate_valid, Identity.vi_display in Hi. by rewrite Hd, Hb in Hi.
Qed.

Lemma blank_name_fatal_witness : ∃ cfg, Config.Validate demo_env (demo_config "  " "auto" []) = Ok cfg ∧
  is_ok (loadLocalIdentity demo_env cfg (λ _, true) (Some Identity.sample_keys) unix_epoch (∅ : Identity.mem_fs) quiet no_rows).2 = false.
Proof.
  destruct (Config.Validate demo_env (demo_config "  " "auto" [])) as [cfg|] eqn:E0; [|vm_compute in E0; discriminate E0].
  exists cfg. split; [reflexivity|].
  apply (blank_name_fatal demo_env (demo_config "  " "auto" []) cfg); [exact E0|discriminate|reflexivity].
Defined.

(** ** Network services *)

Section Services.
Context `{PeerLib} {E : Type}.

(** A validated configuration never fails in the DHT, so that no bootstrap loop is
    left behind. *)
Lemma validated_dht e c cfg : Config.Validate e c = Ok cfg → ∃ dm, Dht.NewDHTManager (dht_config cfg) = Ok dm.
Proof.
  intros Hv. apply Validate_fields in Hv as (_ & _ & Hv). apply Config.vc_mode in Hv.
  unfold Dht.NewDHTManager, dht_config. cbn [Dht.dc_Mode]. destruct (EqualFold _ _); [by eexists|].
  rewrite (bool_decide_eq_false_2 (ToLower _ = EmptyString)).
  - rewrite bool_decide_eq_true_2 by exact Hv. by eexists.
  - intros E0. rewrite E0 in Hv. repeat (apply elem_of_cons in Hv as [Hv|Hv]; [done|]). by apply elem_of_nil in Hv.
Qed.

End Services.

(** C27: the services start on every validated configuration whose bootstrap
    addresses parse.  Under any interleaving of the first dials the manager that
    runs has the outcome of every configured peer but oneself, as if they had been
    dialled one after the other, and counts those that succeeded; and the DHT runs
    unless its mode is [disabled]. *)
Theorem services_start `{PeerLib} {E} e c cfg self sched (w : nat → option E * Z) bm :
  Config.Validate e c = Ok cfg → Config.nc_BootstrapPeers (Config.cf_Network cfg) ≠ [] →
  Bootstrap.NewBootstrapManager (Some self) (Config.nc_BootstrapPeers (Config.cf_Network cfg)) Backoff.DefaultBackoffConfig = Ok bm →
  sched ≡ₚ seq 0 (length (Bootstrap.bm_peers bm)) ++ seq 0 (length (Bootstrap.bm_peers bm)) →
  ∃ bm' r, startNetworkServices self sched w cfg = (Some bm', Ok r) ∧ nr_bootstrap r = Some bm' ∧
    Bootstrap.ConnectAll sched w bm = Some (Bootstrap.all_results bm w, bm') ∧
    bm' = Bootstrap.mkManager (Bootstrap.bm_peers bm) Backoff.DefaultBackoffConfig false
            (wrap64 (Bootstrap.successes (Bootstrap.all_results bm w))) false ∧
    (∀ pi, pi ∈ Bootstrap.bm_peers bm → ai_ID pi ≠ self) ∧
    (∀ raw, raw ∈ Config.nc_BootstrapPeers (Config.cf_Network cfg) → raw ≠ EmptyString →
       ∃ pi, ParsePeerAddr raw EmptyString = Ok pi ∧ (pi ∈ Bootstrap.bm_peers bm ∨ ai_ID pi = self)) ∧
    (nr_dht r = None ↔ EqualFold (Config.nc_DHTMode (Config.cf_Network cfg)) "disabled" = true).
Proof.
  intros Hv Hne Hb Hs. destruct (validated_dht e c cfg Hv) as [dm Hdm]. unfold startNetworkServices.
  destruct (Config.nc_BootstrapPeers (Config.cf_Network cfg)) as [|a l] eqn:Ea; [done|]. rewrite Hb, Hdm.
  unfold Bootstrap.NewBootstrapManager in Hb. apply bind_ok_iff in Hb as (ps & Hps & [= <-]).
  rewrite connect_all_spec by done. destruct (parsePeers_spec _ _ _ Hps) as [Hself Hall].
  eexists _, (mkRuntime (Some _) dm). split_and!; [reflexivity|reflexivity|reflexivity|reflexivity|exact Hself|exact Hall|].
  cbn [nr_dht]. unfold Dht.NewDHTManager, dht_config in Hdm. cbn [Dht.dc_Mode] in Hdm.
  change Dht.DHTModeDisabled with "disabled" in Hdm.
  destruct (EqualFold _ _); [split; [done|by injection Hdm as <-]|].
  destruct (negb _); [done|]. injection Hdm as <-. by split.
Qed.

Lemma services_start_witness : ∃ bm' r,
  startNetworkServices "12D3me" [0; 1; 0; 1]%nat (λ _, (@None string, 5))
    (Config.with_Network (Config.with_BootstrapPeers
      ["/ip4/10.0.0.1/tcp/1/p2p/12D3a"; "/ip4/10.0.0.9/tcp/1/p2p/12D3me"; "/ip4/10.0.0.2/tcp/1/p2p/12D3b"]
      (Config.cf_Network (demo_config EmptyString "auto" []))) (demo_config EmptyString "auto" [])) = (Some bm', Ok r) ∧ nr_dht r ≠ None.
Proof.
  set (cfg := Config.with_Network _ _).
  destruct (Bootstrap.NewBootstrapManager (Some "12D3me") (Config.nc_BootstrapPeers (Config.cf_Network cfg)) Backoff.DefaultBackoffConfig)
    as [bm|] eqn:Eb; [|vm_compute in Eb; discriminate Eb].
  assert (Hn : length (Bootstrap.bm_peers bm) = 2%nat).
  { assert (B : match Bootstrap.NewBootstrapManager (Some "12D3me") (Config.nc_BootstrapPeers (Config.cf_Network cfg)) Backoff.DefaultBackoffConfig with
      | Ok bm => (length (Bootstrap.bm_peers bm) =? 2)%nat | Err _ => false end = true) by (vm_compute; reflexivity).
    rewrite Eb in B. by apply Nat.eqb_eq. }
  assert (Hv : Config.Validate demo_env cfg = Ok cfg) by reflexivity.
  destruct (services_start demo_env cfg cfg "12D3me" [0; 1; 0; 1]%nat (λ _, (@None string, 5)) bm Hv ltac:(discriminate) Eb)
    as (bm' & r & Hs & _ & _ & _ & _ & _ & Hd); [by rewrite Hn|].
  exists bm', r. split; [exact Hs|]. intros Hr%Hd. discriminate Hr.
Defined.

(** The mode [disabled] with white space around it passes validation and does
    not disable: the DHT manager runs, in the mode [disabled]. *)
Theorem disabled_dht_runs `{PeerLib} {E} e c cfg self sched (w : nat → option E * Z) :
  Config.Validate e c = Ok cfg → Config.nc_BootstrapPeers (Config.cf_Network cfg) = [] →
  ToLower (TrimSpace (Config.nc_DHTMode (Config.cf_Network cfg))) = "disabled" →
  EqualFold (Config.nc_DHTMode (Config.cf_Network cfg)) "disabled" = false →
  ∃ r dm, startNetworkServices self sched w cfg = (None, Ok r) ∧ nr_dht r = Some dm ∧
    Dht.dc_Mode (Dht.dm_cfg dm) = Dht.DHTModeDisabled.
Proof.
  intros Hv Hb Ht Hf. unfold startNetworkServices. rewrite Hb. unfold Dht.NewDHTManager, dht_config.
  cbn [Dht.dc_Mode Dht.dc_ProtocolPrefix Dht.dc_Namespace Dht.dc_PollInterval Dht.dc_RecordTTL].
  change Dht.DHTModeDisabled with "disabled" at 1. rewrite Hf, Ht. do 2 eexists. split; [reflexivity|]. done.
Qed.

Lemma disabled_dht_runs_witness : ∃ r dm,
  startNetworkServices "12D3me" [] (λ _, (@None string, 5)) (demo_config EmptyString " disabled " []) = (None, Ok r) ∧
  nr_dht r = Some dm ∧ Dht.dc_Mode (Dht.dm_cfg dm) = Dht.DHTModeDisabled.
Proof.
  apply (disabled_dht_runs demo_env (demo_config EmptyString " disabled " []) (demo_config EmptyString " disabled " []));
    reflexivity.
Defined.

(** Validation accepts an advertised address with white space before it, and
    the node is then refused: such a configuration passes and never builds. *)
Theorem padded_address_refused `{PeerLibLaws} {HH E F K} `{!LibHost HH E} (env : Node.BuildEnv (H:=HH) (E:=E) (K:=K)) e c cfg listen a key :
  Config.Validate e c = Ok cfg → a ∈ Config.nc_AdvertisedAddrs (Config.cf_Network cfg) → HasPrefix a "/" = false →
  Node.be_key env = Ok key →
  is_ok (Addr.ValidateMultiaddr a) = true ∧
  ∃ raw, buildNodeFromConfig (F:=F) env cfg listen = Err (Node.InvalidAdvertised raw, None).
Proof.
  intros Hv Ha Hp Hk. apply Validate_fields in Hv as (_ & Hadv & _). split.
  { rewrite Forall_forall in Hadv. by rewrite (Hadv a Ha). }
  unfold buildNodeFromConfig, Node.BuildNodeWithOptions. rewrite Hk. unfold Node.libp2pOpts. cbn [Node.no_AdvertisedAddrs node_options].
  destruct (Config.nc_AdvertisedAddrs (Config.cf_Network cfg)) as [|x l] eqn:El; [by apply elem_of_nil in Ha|].
  assert (Hparse : ∃ raw, Node.parseAdvertised (E:=E) (x :: l) = Err (Node.InvalidAdvertised raw)).
  { clear El Hadv. revert Ha. generalize (x :: l) as k. induction k as [|y k IH]; intros Ha; [by apply elem_of_nil in Ha|].
    cbn [Node.parseAdvertised]. destruct (NewMultiaddr y) as [m|] eqn:Ey; [|by eexists].
    apply elem_of_cons in Ha as [->|Ha].
    - apply NewMultiaddr_slash in Ey. congruence.
    - destruct (IH Ha) as [raw ->]. by exists raw. }
  destruct Hparse as [raw ->]. by exists raw.
Qed.

Lemma padded_address_refused_witness : ∃ raw,
  buildNodeFromConfig (F:=nat) (Node.mkBuildEnv (Ok 1%nat) (λ _, Ok ("12D3me", @nil string)) None None)
    (demo_config EmptyString "auto" [" /ip4/203.0.113.5/tcp/9001"]) EmptyString = Err (Node.InvalidAdvertised raw, None).
Proof.
  refine (proj2 (padded_address_refused (Node.mkBuildEnv (Ok 1%nat) (λ _, Ok ("12D3me", @nil string)) None None) demo_env
    (demo_config EmptyString "auto" [" /ip4/203.0.113.5/tcp/9001"]) (demo_config EmptyString "auto" [" /ip4/203.0.113.5/tcp/9001"])
    EmptyString " /ip4/203.0.113.5/tcp/9001" 1%nat _ _ _ _)); [reflexivity|left|reflexivity|reflexivity].
Defined.
