(* ===== verification/Output.v ===== *)
(** * What the command line prints

    The texts of [cmd/skall/main.go] and [internal/identity/identity.go]: the help,
    the identity with its libp2p peer ID, and the tables of peers and groups.  The
    conversion of keys is libp2p's and a parameter.  Texts that quote an argument
    with [%q] are left out. *)

From S2P Require Import Prelude GoStrings GoTime Json GoRunes Protocol Version Identity Storage Cli.

Open Scope Z_scope.

Module Output.

(** ** Formats *)

(** [%-ns]: padded on the right to [n] runes. *)
Definition pad (n : nat) (s : string) : string := s +:+ repeat_s (n - length (runes s)) " ".

(** [t.Format("2006-01-02 15:04:05")] and [t.Format(time.RFC3339)] of a time in
    UTC: [sep] and [zone] are what they differ in. *)
Definition format_seconds (sep zone : string) (t : Time) : string :=
  let '(y, m, d) := civil (t / day) in
  let r := t `mod` day in
  appendInt y 4 +:+ "-" +:+ digits 2 m +:+ "-" +:+ digits 2 d +:+ sep +:+
  digits 2 (r / hour) +:+ ":" +:+ digits 2 ((r / minute) `mod` 60) +:+ ":" +:+ digits 2 ((r / second) `mod` 60) +:+ zone.
Definition DateTime : Time → string := format_seconds " " EmptyString.
Definition RFC3339 : Time → string := format_seconds "T" "Z".

Definition line (s : string) : string := s +:+ newline.
Definition text (l : list string) : string := of_runes (line <$> l).

(** ** The identity *)

Definition Summary (i : Identity.Identity) : string :=
  "Peer ID: " +:+ Identity.id_PeerID i +:+ newline +:+ "Username: " +:+ Identity.id_Username i +:+ newline +:+
  "Display Name: " +:+ Identity.id_DisplayName i +:+ newline +:+ "Created At: " +:+ RFC3339 (Identity.id_CreatedAt i).

(** [KeyPairFromStdKey] and [IDFromPrivateKey] of libp2p. *)
Class KeyLib (K E : Type) := { KeyPairFromStdKey : string → result E K; IDFromPrivateKey : K → result E string }.

Inductive key_error (E : Type) : Type := NoPrivateKey | ConvertIdentity (e : E) | DerivePeerID (e : E).
Arguments NoPrivateKey {E}.
Arguments ConvertIdentity {E} e.
Arguments DerivePeerID {E} e.

Section Keys.
Context {K E : Type} `{!KeyLib K E}.

Definition LibP2PPrivKey (i : Identity.Identity) : result (key_error E) K :=
  if bool_decide (Identity.id_PrivateKey i = EmptyString) then Err NoPrivateKey
  else map_err ConvertIdentity (KeyPairFromStdKey (Identity.id_PrivateKey i)).

Definition LibP2PPeerID (i : Identity.Identity) : result (key_error E) string :=
  k ← LibP2PPrivKey i; map_err DerivePeerID (IDFromPrivateKey k).

(** What [handleIdentityCommand] shows, without the encoding of the ID. *)
Definition show_identity (i : Identity.Identity) : string :=
  line (Summary i) +:+
  match LibP2PPeerID i with
  | Err _ => EmptyString
  | Ok id => text ["libp2p Peer ID: " +:+ id; "Sample Multiaddr (port 9001): /ip4/127.0.0.1/tcp/9001/p2p/" +:+ id]
  end.

End Keys.

(** ** Tables *)

Definition columns (w : list nat) (l : list string) : string := Join (zip_with pad w l) "  ".

Definition peer_line (p : Storage.Peer) : string :=
  let shortID := Storage.peer_PeerID p in
  let shortID := if 16 <? slen shortID then take_s 16 shortID else shortID in
  let lastSeen := DateTime (Storage.peer_LastSeen p) in
  let lastSeen := if IsZero (Storage.peer_LastSeen p) then "never" else lastSeen in
  columns [16; 20; 24]%nat [shortID; Storage.peer_DisplayName p; lastSeen].

(** What [handlePeersCommand] prints. *)
Definition peers_lines (peers : list Storage.Peer) : list string :=
  match peers with
  | [] => ["No known peers found in local store."]
  | _ => columns [16; 20; 24]%nat ["PEER ID"; "DISPLAY NAME"; "LAST SEEN"] ::
         columns [16; 20; 24]%nat ["----------------"; "--------------------"; "------------------------"] ::
         (peer_line <$> peers)
  end.

Definition group_line (g : Storage.Group) : string :=
  columns [16; 24; 24]%nat [Storage.sg_GroupID g; Storage.sg_Name g; DateTime (Storage.sg_CreatedAt g)].

(** What [handleGroupsCommand] lists. *)
Definition groups_lines (groups : list Storage.Group) : list string :=
  match groups with
  | [] => ["No groups found. Create one with: skall groups create <id> [name]"]
  | _ => columns [16; 24; 24]%nat ["GROUP ID"; "NAME"; "CREATED AT"] ::
         columns [16; 24; 24]%nat ["----------------"; "------------------------"; "------------------------"] ::
         (group_line <$> groups)
  end.

(** ** The help *)

Definition tab : string := String "009"%char EmptyString.

Definition help_lines : list string :=
  [
     "";
     "Usage:";
     "  skall [flags]                             Launch interactive TUI (default)";
     "  skall <command> [arguments...]";
     "";
     "Commands:";
     "  identity                                  Show local cryptographic identity & peer IDs";
     "  identity set-name <display-name>          Update your display name";
     "  peers                                     List known and connected peers";
     tab +:+ "connect <multiaddr|peer-id|host:port>     Test and establish peer connection";
     "  chat [peer-id|multiaddr]                  Start chat session targeting a peer";
     "  groups [list]                             List all known groups";
     "  groups create <id> [name]                 Create a new chat group";
     "  config show                               Display active configuration";
     "  config path                               Display path to config file";
     "  config init                               Initialize default config file on disk";
     "  version, --version, -v                    Print version information";
     "  help, --help, -h                          Show this help message";
     "";
     "Options:";
     "  -l, --listen <port|multiaddr>             Specify listen address (e.g. 9001 or /ip4/0.0.0.0/tcp/9001)";
     tab +:+ "-p, --peer <multiaddr|peer-id>            Connect to peer on startup (repeatable)";
     "";
     "Diagnostics / Advanced:";
     "  p2p [--listen PORT] [--peer MULTIADDR]    CLI-only peer broadcast session";
     "  server [address]                          Legacy TCP server";
     "  client [address]                          Legacy TCP client";
     "  discover [address]                        Legacy mDNS discovery daemon"
  ].

Definition printHelp (v : Version.Stamp) : string :=
  text (("SKALL — Secure, Decentralized P2P Chat (" +:+ Version.Short v +:+ ")") :: help_lines).

(** ** Specification *)

Definition one_line (s : string) : bool := all_bytes (λ a, negb (bool_decide (a = "010"%char))) s.

Fixpoint before_comma (s : string) : string :=
  match s with
  | EmptyString => EmptyString
  | String a s => if bool_decide (a = ","%char) then EmptyString else String a (before_comma s)
  end.

(** The word a line of the help is about. *)
Definition help_word (l : string) : option string :=
  match Fields l with
  | w :: _ =>
      if bool_decide (w ∈ ["Usage:"; "skall"; "Commands:"; "Options:"; "Diagnostics"]) then None
      else Some (before_comma w)
  | [] => None
  end.

End Output.

Import Cli Output.

(** ** Lines *)

Lemma lines_from_line s cur r : one_line s = true → lines_from (s +:+ String "010"%char r) cur = (rev_s cur +:+ s) :: lines_from r EmptyString.
Proof.
  revert cur. induction s as [|a s IH]; intros cur.
  - intros _. by rewrite app_nil_r_s.
  - unfold one_line. cbn [all_bytes]. intros [Ha Hs]%andb_true_iff. apply negb_true_iff, bool_decide_eq_false in Ha.
    rewrite app_cons_s. cbn [lines_from]. rewrite decide_False by done. rewrite IH by done. f_equal.
    by rewrite rev_cons_s, app_assoc_s.
Qed.

Lemma text_cons s l : text (s :: l) = s +:+ String "010"%char (text l).
Proof. unfold text. change (line <$> s :: l) with (line s :: (line <$> l)). rewrite of_runes_cons. unfold line, newline. by rewrite app_assoc_s. Qed.

(** A text that was printed line by line falls into those lines. *)
Lemma SplitLines_text l : Forall (λ s, one_line s = true) l → SplitLines (text l) = l ++ [EmptyString].
Proof.
  unfold SplitLines. induction 1 as [|s l Hs _ IH]; [done|]. rewrite text_cons, lines_from_line by done.
  change (rev_s EmptyString +:+ s) with s. cbn [app]. by rewrite IH.
Qed.

Lemma one_line_app a b : one_line (a +:+ b) = one_line a && one_line b.
Proof. apply all_bytes_app. Qed.

Lemma one_line_graphic s : all_bytes graphic s = true → one_line s = true.
Proof. apply all_bytes_impl. intros a Ha. apply negb_true_iff, bool_decide_eq_false. by intros ->. Qed.

Lemma all_bytes_take p n s : all_bytes p s = true → all_bytes p (take_s n s) = true.
Proof.
  revert s. induction n as [|n IH]; intros [|a s]; try done. cbn [all_bytes take_s].
  intros [-> Hs]%andb_true_iff. by apply IH.
Qed.

Lemma one_line_spaces n : one_line (repeat_s n " ") = true.
Proof. induction n as [|n IH]; [done|]. cbn [repeat_s]. by rewrite one_line_app, IH. Qed.

Lemma one_line_columns w l : Forall (λ s, one_line s = true) l → one_line (columns w l) = true.
Proof.
  unfold columns. intros Hl. revert w. induction Hl as [|s l Hs _ IH]; intros [|n w]; try done. cbn [zip_with].
  assert (Hp : one_line (pad n s) = true) by (unfold pad; by rewrite one_line_app, Hs, one_line_spaces).
  specialize (IH w). destruct (zip_with pad w l); [done|]. cbn [Join] in *. by rewrite !one_line_app, Hp, IH.
Qed.

Lemma one_line_DateTime t : one_line (DateTime t) = true.
Proof.
  assert (Hd : ∀ w z, one_line (digits w z) = true).
  { intros w. induction w as [|w IH]; intros z; [done|]. cbn [digits]. rewrite one_line_app, IH. apply one_line_graphic.
    cbn [all_bytes]. unfold digit_char. rewrite andb_true_r. unfold graphic. rewrite byte_Z_byte.
    rewrite andb_true_iff, !Z.leb_le. div_lia. }
  unfold DateTime, format_seconds. destruct (civil _) as [[y m] d]. rewrite !one_line_app, !Hd. unfold appendInt.
  rewrite one_line_app. by destruct (y <? 0); case_match; rewrite ?Hd, ?(one_line_graphic (Itoa _) (Itoa_graphic _)).
Qed.

(** ** Properties *)

(** Every command and option the help lists is one [runCLI] knows, whatever
    arguments follow. *)
Theorem help_understood l w args : l ∈ help_lines → help_word l = Some w → runCLI (w :: args) ≠ UnknownCommand w.
Proof.
  assert (H : Forall (λ l, match help_word l with Some w => ∀ args, runCLI (w :: args) ≠ UnknownCommand w | None => True end) help_lines).
  { unfold help_lines. repeat (apply Forall_cons; split); [..|by apply Forall_nil].
    all: match goal with |- context[help_word ?l] => let x := eval vm_compute in (help_word l) in change (help_word l) with x end.
    all: try done; intros a; unfold runCLI; repeat (rewrite bool_decide_eq_false_2 by (by vm_compute) || rewrite bool_decide_eq_true_2 by (by vm_compute)).
    all: repeat case_match; done. }
  rewrite Forall_forall in H. intros Hl Hw. specialize (H l Hl). by rewrite Hw in H.
Qed.

Example help_words : omap help_word help_lines =
  ["identity"; "identity"; "peers"; "connect"; "chat"; "groups"; "groups"; "config"; "config"; "config"; "version"; "help";
   "-l"; "-p"; "p2p"; "server"; "client"; "discover"].
Proof. vm_compute. reflexivity. Qed.

(** [skall peers] prints a table with one line for every peer of the store, below
    two lines of heading, or says that there is none. *)
Theorem peers_shown e w : Storage.no_fault e →
  ∃ peers w', handlePeersCommand e w = (Ok peers, w') ∧
    Storage.peer_PeerID <$> peers ≡ₚ elements (dom (Storage.db_peers (Storage.w_db w))) ∧
    (Forall (λ p, one_line (Storage.peer_PeerID p) = true ∧ one_line (Storage.peer_DisplayName p) = true) peers →
     SplitLines (text (peers_lines peers)) = peers_lines peers ++ [EmptyString]) ∧
    length (peers_lines peers) = match peers with [] => 1 | _ => 2 + length peers end%nat.
Proof.
  intros He. unfold handlePeersCommand, Storage.ListPeers, mbind, Storage.DB_bind. rewrite query_calm by done.
  eexists _, _. split; [reflexivity|]. set (rows := Storage.order_by _ _).
  assert (Hp : rows ≡ₚ map_to_list (Storage.db_peers (Storage.w_db w))) by apply merge_sort_Permutation.
  split; [|split].
  - rewrite <- list_fmap_compose. change (Storage.peer_PeerID ∘ Storage.scanPeer) with (@fst string Storage.peer_row).
    rewrite Hp. apply NoDup_Permutation; [apply NoDup_fst_map_to_list|apply NoDup_elements|]. intros k.
    rewrite elem_of_elements, elem_of_dom, list_elem_of_fmap. split.
    + intros ([k' v] & -> & H%elem_of_map_to_list). by exists v.
    + intros [v H]. exists (k, v). split; [done|]. by apply elem_of_map_to_list.
  - intros Hl. apply SplitLines_text. destruct (Storage.scanPeer <$> rows) as [|p l]; [by repeat constructor|].
    unfold peers_lines. constructor; [vm_compute; reflexivity|]. constructor; [vm_compute; reflexivity|]. apply Forall_fmap.
    eapply Forall_impl; [exact Hl|]. intros q [Hi Hn]. unfold peer_line, compose. apply one_line_columns.
    constructor; [|constructor; [done|constructor; [|done]]].
    + destruct (_ <? _); [|done]. by apply all_bytes_take.
    + destruct (IsZero _); [done|]. apply one_line_DateTime.
  - unfold peers_lines. destruct (Storage.scanPeer <$> rows); [done|]. cbn. by rewrite length_fmap.
Qed.

(** With a valid identity only libp2p can refuse the key. *)
Theorem valid_identity_key {K E} `{!KeyLib K E} i : Identity.Validate i = Ok () →
  LibP2PPeerID (K:=K) i = (k ← map_err ConvertIdentity (KeyPairFromStdKey (Identity.id_PrivateKey i)); map_err DerivePeerID (IDFromPrivateKey k)).
Proof.
  intros Hv%Validate_valid. unfold LibP2PPeerID, LibP2PPrivKey. rewrite bool_decide_eq_false_2; [done|].
  intros E0. apply Identity.vi_private in Hv. by rewrite E0 in Hv.
Qed.
