(* ===== verification/Broadcast.v ===== *)
(** * The broadcast session

    [runP2P] of [cmd/skall/main.go]: the node and its services of [Cli], the texts
    it prints, and the loop that sends each line of input to the peers connected
    then.  Signals, and the moment the node's streams are opened, are inputs. *)

From S2P Require Import Prelude GoStrings GoTime Json JsonObject Protocol Identity Addr Bootstrap Node Dht Config Cli Output.
Import Addr.

Open Scope Z_scope.

Module Broadcast.

Section Broadcast.
Context `{PeerLib} {HH E F K KE : Type} `{!LibHost HH E} `{!Output.KeyLib K KE}.

Inductive p2p_error : Type :=
  | P2pBuild (e : Node.build_error (E:=E) * option HH)
  | P2pServices (e : Cli.network_error)
  | P2pPeerID (e : Output.key_error KE).

(** What [runP2P] prints once it runs. *)
Definition banner (localID : Identity.Identity) (lp2pID : string) (cfg : Config.Config) (addrs : list Multiaddr) : list string :=
  let n := Config.cf_Network cfg in
  ["SKALL p2p node started"; "  SKALL peer ID  : " +:+ Identity.id_PeerID localID; "  libp2p peer ID : " +:+ id_String lp2pID;
   "  Display name   : " +:+ Identity.id_DisplayName localID; "  Listen addrs   :"] ++
  ((λ addr, "    " +:+ maddr_String addr +:+ "/p2p/" +:+ id_String lp2pID) <$> addrs) ++
  (if Config.nc_EnableMDNS n then ["mDNS discovery active. Peers on the same LAN will connect automatically."] else []) ++
  (if Config.nc_EnableRelay n || Config.nc_EnableHolePunch n || Config.nc_EnableAutoNAT n
   then ["Relay and NAT traversal features are enabled for this node."] else []) ++
  ["Type a message and press Enter to broadcast. Press Ctrl+C to quit."].

(** [runP2P] up to its loop: the node and the services as they are then, or as the
    deferred calls leave them, and the text printed. *)
Definition runP2P (env : Node.BuildEnv (H:=HH) (E:=E) (K:=K)) (cfg : Config.Config) (sched : list nat)
    (dial : nat → option E * Z) (handler : F) (localID : Identity.Identity) (listenAddr : string) (peerAddrs : list string) :
    option (Node.Node HH F) * option Cli.networkRuntime * result p2p_error (list string) :=
  match Cli.buildNodeFromConfig env cfg listenAddr with
  | Err x => (None, None, Err (P2pBuild x))
  | Ok node =>
      match Cli.startNetworkServices (Node.ID node) sched dial cfg with
      | (_, Err x) => (Some (Node.Close node).1, None, Err (P2pServices x))
      | (_, Ok runtime) =>
          match Output.LibP2PPeerID (K:=K) localID with
          | Err x => (Some (Node.Close node).1, Some (Cli.Close runtime), Err (P2pPeerID x))
          | Ok lp2pID =>
              let '(node, _) := Cli.connectPeerTargets peerAddrs node in
              let printed := banner localID lp2pID cfg (Node.Addrs node) in
              (Some (Node.SetMessageHandler (Some handler) node), Some runtime, Ok printed)
          end
      end
  end.

(** The end of [runP2P], on a signal or the end of the input. *)
Definition finish (node : Node.Node HH F) (runtime : Cli.networkRuntime) : Node.Node HH F * Cli.networkRuntime :=
  let runtime := Cli.Close runtime in ((Node.Close node).1, runtime).

(** One line: [ConnectedPeers] is read once, and the message goes to each of them
    over a stream of its own; [open] and [deadline] answer for each peer. *)
Definition say {W WE} `{!Writer W WE} (open : string → result E W) (deadline : string → option E) (localID : Identity.Identity)
    (now : Time) (text : string) (node : Node.Node HH F) :
    list (string * Message * (option (Node.OutStream W) * result (Node.send_error (E:=E) (WE:=WE)) ())) :=
  (λ '(pid, msg), (pid, msg, Node.SendMessage (open pid) (deadline pid) pid msg node)) <$>
    Cli.p2p_line localID now (Node.ConnectedPeers node) text.

End Broadcast.
End Broadcast.

Import Broadcast.

(** ** What a line does *)

Lemma p2p_message_utf8 localID now body : Identity.Validate localID = Ok () → utf8_valid body = true →
  utf8_message (NewChatMessage now (Identity.id_PeerID localID) EmptyString EmptyString body) = true.
Proof.
  intros Hv Hb. apply Validate_valid, Identity.vi_peer in Hv. unfold utf8_message, NewChatMessage.
  cbn [msg_ID msg_SenderID msg_RecipientID msg_GroupID msg_Body]. rewrite Hv, Hb.
  rewrite !(λ s Hs, proj2 (utf8_valid_eq s) (graphic_valid s Hs)) by (apply hex_graphic || apply Itoa_graphic). done.
Qed.

(** ** Property *)

(** A line that is typed goes to every connected peer: one message, with the
    identity's peer ID and the trimmed text, is sent to each of them once and in
    order, and each node to which the send reports success calls its handler
    exactly once, with that message and the sender's authenticated ID. *)
Theorem line_reaches {HH E F W WE} `{LibHost HH E} `{!Writer W WE} open deadline localID now text (a : Node.Node HH F) :
  Identity.Validate localID = Ok () → utf8_valid (TrimSpace text) = true → TrimSpace text ≠ EmptyString →
  (∀ pid s, open pid = Ok s → written s = EmptyString) →
  let m := NewChatMessage now (Identity.id_PeerID localID) EmptyString EmptyString (TrimSpace text) in
  let sent := say open deadline localID now text a in
  (λ x, (x.1.1, x.1.2)) <$> sent = (λ pid, (pid, m)) <$> Node.ConnectedPeers a ∧
  ∀ pid o b h, (pid, m, (Some o, Ok ())) ∈ sent → Node.ID b = pid → Node.nd_handler b = Some h → received a b o = [(h, m, Node.ID a)].
Proof.
  intros Hv Hu Hne Hopen m sent. unfold sent, say, Cli.p2p_line. rewrite bool_decide_eq_false_2 by done.
  rewrite <- !list_fmap_compose. split; [by apply list_fmap_ext|].
  intros pid o b h (x & He & _)%list_elem_of_fmap Hb Hh. unfold compose in He. fold m in He.
  assert (x = pid) as -> by congruence.
  assert (Hs : Node.SendMessage (open pid) (deadline pid) pid m a = (Some o, Ok ())) by congruence. clear He.
  assert (Hm : utf8_message m = true) by by apply p2p_message_utf8.
  unfold Node.SendMessage in Hs. destruct (decide _); [done|]. destruct (open pid) as [s|] eqn:Eo; [|done].
  apply Hopen in Eo. destruct (deadline pid); [done|]. destruct (WriteMessage s m) as [s' [[]|]] eqn:Ew; [|done].
  injection Hs as <-. apply WriteMessage_spec in Ew as (f & Hf & Hw).
  unfold received, stream_of. cbn [Node.os_writer Node.os_reset]. rewrite Hw, Eo, app_nil_l_s.
  rewrite (handleStream_ok b m f) by done. by rewrite Hh.
Qed.

Lemma line_reaches_witness :
  let a := Node.newNode (F:=nat) ("12D3a", ["12D3b"; "12D3c"]) in
  let b := Node.SetMessageHandler (Some 7%nat) (Node.newNode ("12D3b", [])) in
  let m := NewChatMessage unix_epoch (Identity.id_PeerID Identity.sample_identity) EmptyString EmptyString "hello" in
  ∃ o, (("12D3b", m, (Some o, Ok ())) ∈ say (λ _, Ok (mkLimited EmptyString 1000)) (λ _, None) Identity.sample_identity unix_epoch " hello " a) ∧
    received a b o = [(7%nat, m, "12D3a")].
Proof.
  cbn zeta. set (a := Node.newNode _). set (b := Node.SetMessageHandler _ _). set (m := NewChatMessage _ _ _ _ _).
  destruct (Node.SendMessage (Ok (mkLimited EmptyString 1000)) None "12D3b" m a) as [[o|] r] eqn:E0; [|vm_compute in E0; discriminate E0].
  assert (r = Ok ()) as -> by (vm_compute in E0; injection E0 as _ <-; reflexivity).
  assert (Hin : ("12D3b", m, (Some o, Ok ())) ∈ say (λ _, Ok (mkLimited EmptyString 1000)) (λ _, None) Identity.sample_identity unix_epoch " hello " a).
  { unfold say, Cli.p2p_line. change (TrimSpace " hello ") with "hello". rewrite bool_decide_eq_false_2 by discriminate.
    change (Node.ConnectedPeers a) with ["12D3b"; "12D3c"]. fold m. rewrite <- E0. left. }
  exists o. split; [exact Hin|].
  refine (proj2 (line_reaches (λ _, Ok (mkLimited EmptyString 1000)) (λ _, None) Identity.sample_identity unix_epoch " hello " a _ _ _ _)
    "12D3b" o b 7%nat Hin eq_refl eq_refl); [vm_compute; reflexivity|vm_compute; reflexivity|vm_compute; discriminate|].
  intros pid s [= <-]. reflexivity.
Defined.
