(* ===== verification/Client.v ===== *)
(** * The TCP client

    [StartClient] of [internal/network/client.go]: how it starts, and what it does
    with messages from the server and with lines of input, over the store and its
    table of peer names.  Once it has started, errors of the store are only
    reported, so they change nothing but the tables; printing is not modelled. *)

From S2P Require Import Prelude GoStrings GoPath GoTime Json Protocol Identity Storage Opening.

Open Scope Z_scope.

Module Client.

(** ** State *)

Record Client : Type := mkClient {
  cl_world : Storage.World;
  cl_peers : gmap string string;
  cl_written : list Message
}.

Definition with_world (w : Storage.World) c := mkClient w (cl_peers c) (cl_written c).
Definition with_names f c := mkClient (cl_world c) (f (cl_peers c)) (cl_written c).
Definition with_written m c := mkClient (cl_world c) (cl_peers c) (cl_written c ++ [m]).

Definition Op (A : Type) : Type := Storage.Env → Client → A * Client.

#[global] Instance Op_ret : MRet Op := λ A a e c, (a, c).
#[global] Instance Op_bind : MBind Op := λ A B f m e c, let '(a, c) := m e c in f a e c.

(** A call of the store whose error is only printed. *)
Definition warn (m : Storage.DB ()) : Op () := λ e c, ((), with_world (m e (cl_world c)).2 c).

(** [time.Now().UTC()]. *)
Definition clock : Op Time := λ e c,
  (Storage.env_clock e (Storage.w_step (cl_world c)),
   with_world (Storage.mkWorld (Storage.w_db (cl_world c)) (S (Storage.w_step (cl_world c)))) c).

Definition name_of (peerID : string) : Op string := λ e c, (default EmptyString (cl_peers c !! peerID), c).
Definition set_names (f : gmap string string → gmap string string) : Op () := λ e c, ((), with_names f c).

(** [writer.WriteMessage]; [net] tells whether the connection takes the bytes. *)
Definition write (net : bool) (m : Message) : Op bool := λ e c,
  match MarshalMessage m with
  | Ok _ => if net then (true, with_written m c) else (false, c)
  | Err _ => (false, c)
  end.

(** ** Sending *)

(** [persistOutbound]; false is the error of writing. *)
Definition persistOutbound (net : bool) (payload : Message) : Op bool :=
  _ ← warn (Storage.InsertMessage payload Storage.DirectionOutbound Storage.StatusPending);
  written ← write net payload;
  if written : bool then
    _ ← warn (Storage.UpdateMessageStatus (msg_ID payload) Storage.StatusSent);
    mret true
  else
    _ ← warn (Storage.UpdateMessageStatus (msg_ID payload) Storage.StatusFailed);
    mret false.

Definition new_message (kind senderID recipientID body : string) (now : Time) : Message :=
  mkMessage Version (Itoa (wrap64 (now - unix_epoch))) kind senderID recipientID EmptyString now body.

(** The announcement after connecting. *)
Definition announce (net : bool) (local : Identity.Identity) : Op bool :=
  now ← clock;
  persistOutbound net (new_message TypeJoin (Identity.id_PeerID local) EmptyString (Identity.id_DisplayName local) now).

(** ** Receiving *)

Definition receive (message : Message) : Op () :=
  let sender := msg_SenderID message in
  let insert := warn (Storage.InsertMessage message Storage.DirectionInbound Storage.StatusReceived) in
  if decide (msg_Type message = TypeJoin) then
    _ ← set_names <[sender := msg_Body message]>;
    _ ← warn (Storage.UpsertPeer sender (msg_Body message) (msg_Timestamp message));
    insert
  else if decide (msg_Type message = TypeLeave) then
    _ ← set_names (delete sender);
    _ ← warn (Storage.UpsertPeer sender sender (msg_Timestamp message));
    insert
  else if decide (msg_Type message = TypeSystem) then
    let status := if Contains (ToLower (msg_Body message)) "delivery failed"
                  then Storage.StatusFailed else Storage.StatusReceived in
    warn (Storage.InsertMessage message Storage.DirectionInbound status)
  else
    name ← name_of sender;
    let name := if decide (name = EmptyString) then sender else name in
    _ ← warn (Storage.UpsertPeer sender name (msg_Timestamp message));
    insert.

(** ** Lines of input *)

Inductive outcome : Type :=
  | Continue      (* the next line is read *)
  | Stop          (* the client returns the error of writing *)
  | Panic.        (* a slice out of range *)

(** [s[n:]]. *)
Definition slice_from (n : nat) (s : string) : option string :=
  if (n <=? String.length s)%nat then Some (drop_s n s) else None.

Definition after (ok : bool) : outcome := if ok then Continue else Stop.

(** [/msg] with at least three fields. *)
Definition msg_command (net : bool) (senderID line part0 peer : string) : Op outcome :=
  match slice_from (String.length part0 + 1 + String.length peer) line with
  | None => mret Panic
  | Some tail =>
      let body := TrimSpace tail in
      if decide (body = EmptyString) then mret Continue else
      now ← clock;
      _ ← warn (Storage.UpsertPeer peer peer now);
      ok ← persistOutbound net (new_message TypeChat senderID peer body now);
      mret (after ok)
  end.

Definition handle_line (net : bool) (senderID text : string) : Op outcome :=
  let line := TrimSpace text in
  if decide (line = EmptyString) then mret Continue else
  if HasPrefix line "/" then
    match Fields line with
    | [] => mret Panic
    | part0 :: parts =>
        if decide (part0 = "/msg") then
          match parts with
          | peer :: _ :: _ => msg_command net senderID line part0 peer
          | _ => mret Continue
          end
        else mret Continue
    end
  else
    now ← clock;
    ok ← persistOutbound net (new_message TypeChat senderID EmptyString line now);
    mret (after ok).

(** The loop over the lines of input, each with whether the connection takes what
    it sends; [Continue] at the end of the input. *)
Fixpoint read_input (senderID : string) (lines : list (string * bool)) : Op outcome :=
  match lines with
  | [] => mret Continue
  | (text, net) :: lines =>
      o ← handle_line net senderID text;
      match o with Continue => read_input senderID lines | _ => mret o end
  end.

(** ** Starting *)

Inductive start_error : Type :=
  | StartOpen (e : Opening.open_error)
  | StartIdentity (e : Storage.db_error)
  | StartDial (text : string)
  | StartAnnounce.

(** [StartClient] up to its loops: the store it has opened, if it has, and the
    client.  [dial] is the error of [net.Dial]; on every return the store is
    closed. *)
Definition StartClient {F} (open : F → Storage.Env → Storage.World →
      F * Storage.World * result Opening.open_error Opening.Store) (dial : option string) (net : bool)
    (local : Identity.Identity) (f : F) (e : Storage.Env) (w : Storage.World) :
    F * Storage.World * option Opening.Store * result start_error Client :=
  match open f e w with
  | (f, w, Err x) => (f, w, None, Err (StartOpen x))
  | (f, w, Ok db) =>
      let closed := Some (Opening.Close None db).1 in
      match Storage.UpsertIdentityMetadata local e w with
      | (Err x, w) => (f, w, closed, Err (StartIdentity x))
      | (Ok _, w) =>
          match dial with
          | Some text => (f, w, closed, Err (StartDial text))
          | None =>
              let '(ok, c) := announce net local e (mkClient w ∅ []) in
              if ok then (f, cl_world c, Some db, Ok c) else (f, cl_world c, closed, Err StartAnnounce)
          end
      end
  end.

(** ** Specification *)

(** The text after [/msg], the peer, and a byte, with the client's clock. *)
Definition command_line (peer rest : string) : string := "/msg " +:+ peer +:+ " " +:+ rest.

Definition sample_client : Client := mkClient (Storage.mkWorld Storage.emptyDatabase 0) ∅ [].

(** What the client has written since, by recipient and body. *)
Definition sent_texts (c : Client) : list (string * string) :=
  (λ m, (msg_RecipientID m, msg_Body m)) <$> cl_written c.

End Client.

Import Client.

(** ** Input *)

Lemma Fields_trimmed s : trimmed s → s ≠ EmptyString → Fields s ≠ [].
Proof.
  intros Ht Hs. unfold Fields. assert (E : TrimLeft s = s) by (rewrite <- Ht; apply TrimLeft_TrimSpace).
  cbn [fields_go]. rewrite E, decide_False by done.
  by destruct (split_word s).
Qed.

Lemma lead_space r : lead space1 space2 space3 (String " " r) = true.
Proof. by destruct r as [|a [|b r]]. Qed.

Lemma TrimLeft_graphic a s : graphic a = true → TrimLeft (String a s) = String a s.
Proof.
  intros Ha. unfold TrimLeft. apply drop_seqs_id.
  destruct s as [|b [|c s]]; cbn [lead];
    by repeat first [rewrite (proj1 (graphic_spaces a "a" "a" Ha)) | destruct (graphic_spaces a b "a" Ha) as (_ & -> & _)
      | destruct (graphic_spaces a b c Ha) as (_ & _ & ->)].
Qed.

Lemma fields_word n w r : all_bytes graphic w = true → w ≠ EmptyString →
  lead space1 space2 space3 r = true ∨ r = EmptyString → fields_go (S n) (w +:+ r) = w :: fields_go n r.
Proof.
  intros Hw Hne Hr. cbn [fields_go]. destruct w as [|a w]; [done|]. pose proof Hw as Hw'.
  cbn [all_bytes] in Hw'. apply andb_true_iff in Hw' as [Ha _]. rewrite app_cons_s, TrimLeft_graphic by done.
  rewrite decide_False by done. rewrite <- app_cons_s, split_word_graphic by done. done.
Qed.

Lemma fields_space n r : fields_go n (String " " r) = fields_go n r.
Proof. by destruct n. Qed.

Lemma fields_some n r : TrimSpace r ≠ EmptyString → ∃ w l, fields_go (S n) r = w :: l.
Proof.
  intros Hr. cbn [fields_go]. rewrite decide_False; [destruct (split_word (TrimLeft r)); by eexists _, _|].
  intros E. apply Hr. unfold TrimSpace. by rewrite E.
Qed.

Lemma Fields_command peer rest : all_bytes graphic peer = true → peer ≠ EmptyString → TrimSpace rest ≠ EmptyString →
  ∃ w l, Fields (command_line peer rest) = "/msg" :: peer :: w :: l.
Proof.
  intros Hp Hne Hr. unfold Fields, command_line.
  change ("/msg " +:+ peer +:+ " " +:+ rest) with ("/msg" +:+ String " " (peer +:+ String " " rest)).
  set (n := String.length _). assert (n = (5 + String.length (peer +:+ String " " rest))%nat) as -> by reflexivity.
  rewrite length_app_s. cbn [String.length]. rewrite (Nat.add_succ_r (String.length peer)).
  set (k := (String.length peer + String.length rest)%nat). cbn [Nat.add].
  rewrite fields_word by (try done; left; apply lead_space). rewrite fields_space.
  rewrite fields_word by (try done; left; apply lead_space). rewrite fields_space.
  destruct (fields_some (4 + k) rest Hr) as (w & l & H).
  exists w, l. by rewrite <- H.
Qed.

(** ** Properties *)

(** No line of input makes the client slice out of range. *)
Lemma handle_line_safe net senderID text e c : (handle_line net senderID text e c).1 ≠ Panic.
Proof.
  assert (Ha : ∀ ok, after ok ≠ Panic) by by intros [].
  unfold handle_line. case_decide as Hl; [done|]. case_match.
  - destruct (Fields (TrimSpace text)) as [|part0 parts] eqn:E.
    { by destruct (Fields_trimmed (TrimSpace text) (TrimSpace_idem text) Hl). }
    case_decide; [|done]. destruct parts as [|peer [|w l]]; [done..|].
    pose proof (Fields_two _ _ _ _ E) as Hlen. unfold msg_command, slice_from.
    rewrite (proj2 (Nat.leb_le _ _)) by done. case_decide; [done|].
    unfold mbind, Op_bind, clock, warn. destruct (persistOutbound _ _ _ _) as [ok c']. apply Ha.
  - unfold mbind, Op_bind, clock. destruct (persistOutbound _ _ _ _) as [ok c']. apply Ha.
Qed.

(** Nor do several. *)
Theorem read_input_safe senderID lines e c : (read_input senderID lines e c).1 ≠ Panic.
Proof.
  revert c. induction lines as [|[text net] lines IH]; intros c; [done|]. cbn [read_input]. unfold mbind, Op_bind.
  pose proof (handle_line_safe net senderID text e c) as H. destruct (handle_line net senderID text e c) as [[| |] c']; [apply IH|done..].
Qed.

(** The command line [/msg peer text], with single spaces before and after
    the peer, sends exactly the trimmed text to exactly that peer. *)
Theorem msg_command_sends net senderID text peer rest e c :
  TrimSpace text = command_line peer rest → all_bytes graphic peer = true → peer ≠ EmptyString →
  TrimSpace rest ≠ EmptyString →
  handle_line net senderID text e c =
  (now ← clock;
   _ ← warn (Storage.UpsertPeer peer peer now);
   ok ← persistOutbound net (new_message TypeChat senderID peer (TrimSpace rest) now);
   mret (after ok)) e c.
Proof.
  intros Ht Hp Hne Hr. unfold handle_line. rewrite Ht, decide_False by done.
  destruct (Fields_command peer rest Hp Hne Hr) as (w & l & ->). rewrite decide_True by done.
  assert (Hs : slice_from (String.length "/msg" + 1 + String.length peer) (command_line peer rest) = Some (" " +:+ rest)).
  { unfold slice_from, command_line. change ("/msg " +:+ peer +:+ " " +:+ rest) with ("/msg " +:+ (peer +:+ (" " +:+ rest))).
    rewrite <- app_assoc_s, (proj2 (Nat.leb_le _ _)) by (rewrite !length_app_s; cbn [String.length]; lia).
    f_equal. replace (String.length "/msg" + 1 + String.length peer)%nat with (String.length ("/msg " +:+ peer))
      by (rewrite length_app_s; cbn [String.length]; lia). apply drop_app_s. }
  cbn [HasPrefix]. unfold msg_command. rewrite Hs. change (TrimSpace (" " +:+ rest)) with (TrimSpace rest).
  by rewrite decide_False.
Qed.

Lemma msg_command_sends_witness :
  sent_texts (handle_line true "alice" " /msg bob  hello world" Storage.calm sample_client).2 = [("bob", "hello world")].
Proof.
  rewrite (msg_command_sends true "alice" " /msg bob  hello world" "bob" " hello world"); vm_compute; done.
Defined.

(** A second space before the peer moves the end of its ID into the text. *)
Lemma extra_space :
  sent_texts (handle_line true "alice" "/msg  bob hello" Storage.calm sample_client).2 = [("bob", "b hello")].
Proof. vm_compute. reflexivity. Qed.

(** An outbound message that is valid and whose ID is new is stored with the
    outcome of writing it: sent exactly when it was written to the server,
    failed otherwise. *)
Theorem persistOutbound_status net m e c : Storage.no_fault e → Validate m = Ok () → trimmed (msg_ID m) →
  Storage.db_messages (Storage.w_db (cl_world c)) !! msg_ID m = None →
  let '(ok, c') := persistOutbound net m e c in
  ok = net && is_ok (MarshalMessage m) ∧
  cl_written c' = cl_written c ++ (if ok then [m] else []) ∧
  ∃ row, Storage.db_messages (Storage.w_db (cl_world c')) !! msg_ID m = Some row ∧
    Storage.row_status row = (if ok then Storage.StatusSent else Storage.StatusFailed) ∧
    Storage.row_direction row = Storage.DirectionOutbound ∧ Storage.row_body row = msg_Body m.
Proof.
  intros He Hv Ht Hn. destruct (persistOutbound net m e c) as [ok c'] eqn:E. revert E.
  assert (Hne : msg_ID m ≠ EmptyString).
  { intros Hi. unfold Validate in Hv. rewrite Hi in Hv. by destruct (negb _). }
  unfold persistOutbound, warn, mbind, Op_bind. rewrite InsertMessage_calm by done. rewrite Hv, Hn.
  set (c1 := with_world _ c).
  assert (Hup : ∀ st, st ≠ EmptyString → ∀ c2, cl_world c2 = cl_world c1 →
    let w' := (Storage.UpdateMessageStatus (msg_ID m) st e (cl_world c2)).2 in
    ∃ row, Storage.db_messages (Storage.w_db w') !! msg_ID m = Some row ∧ Storage.row_status row = st ∧
      Storage.row_direction row = Storage.DirectionOutbound ∧ Storage.row_body row = msg_Body m).
  { intros st Hst c2 ->. edestruct (UpdateMessageStatus_calm e He (msg_ID m) st (cl_world c1)) as (w' & t & -> & Hd);
      [done..|by apply lookup_insert_eq|]. cbn [snd]. rewrite Hd, lookup_insert_eq. by eexists. }
  unfold write. destruct (MarshalMessage m); [destruct net|]; intros [= <- <-]; cbn [andb is_ok].
  - split; [done|]. split; [done|]. exact (Hup Storage.StatusSent ltac:(done) (with_written m c1) eq_refl).
  - split; [done|]. split; [by rewrite app_nil_r|]. exact (Hup Storage.StatusFailed ltac:(done) c1 eq_refl).
  - rewrite andb_false_r. split; [done|]. split; [by rewrite app_nil_r|]. exact (Hup Storage.StatusFailed ltac:(done) c1 eq_refl).
Qed.

Lemma persistOutbound_status_witness :
  let '(ok, c') := persistOutbound true Storage.first_message Storage.calm sample_client in
  ok = true ∧ cl_written c' = [Storage.first_message].
Proof.
  pose proof (persistOutbound_status true Storage.first_message Storage.calm sample_client) as H.
  destruct (persistOutbound true Storage.first_message Storage.calm sample_client) as [ok c'] eqn:E.
  destruct H as (Hok & Hw & _); [done|by vm_compute..|].
  assert (ok = true) as -> by (rewrite Hok; vm_compute; reflexivity). done.
Defined.
