(* ===== verification/Relay.v ===== *)
(** * A message from client to client

    [internal/network/client.go] and [tcp.go] put together: a line typed at one
    client of [Client], the frame of [Protocol] it becomes, the server of
    [TcpServer] that routes it, and the tables of the client that receives it. *)

From S2P Require Import Prelude GoStrings GoTime GoCrypto GoPath Json JsonObject Protocol TcpServer Identity Storage Opening Config Cli Client.
Import TcpServer Client.

Open Scope Z_scope.

Module Relay.

(** A peer ID the line of a command can name. *)
Record plain_id (p : string) : Prop := {
  pi_graphic : all_bytes graphic p = true;
  pi_nonempty : p ≠ EmptyString;
  pi_length : slen p ≤ MaxSenderIDLen
}.

(** A text that can be sent. *)
Record sendable (body : string) : Prop := {
  se_nonempty : TrimSpace body ≠ EmptyString;
  se_utf8 : utf8_valid body = true;
  se_length : slen body ≤ MaxBodyLen
}.

(** A time that can be marshalled. *)
Definition ordinary (t : Time) : Prop := in_year_range t ∧ t ≠ 0.

(** The clock a client reads next. *)
Definition next_clock (e : Storage.Env) (c : Client) : Time := Storage.env_clock e (Storage.w_step (cl_world c)).

(** The ID of a message made at an instant. *)
Definition message_id (now : Time) : string := Itoa (wrap64 (now - unix_epoch)).

Definition stored (m : Message) (c : Client) : option Storage.message_row :=
  Storage.db_messages (Storage.w_db (cl_world c)) !! msg_ID m.

(** The reader of [a] reads the message and routes it, and the writer of [c]
    empties its channel. *)
Definition routed (a c : nat) (m : Message) (ch : Choice) (waiting : nat) : list event :=
  EvRead a (Some m) :: replicate 3 (EvRun (Reader a) ch) ++ replicate (S waiting) (EvWrite c true).

End Relay.

Import Relay.

(** ** Texts *)

Lemma pretty_N_go_length k x s : (x < 10 ^ N.of_nat k)%N → (String.length (pretty_N_go x s) ≤ k + String.length s)%nat.
Proof.
  revert x s. induction k as [|k IH]; intros x s Hx.
  - assert (x = 0%N) as -> by (change (10 ^ N.of_nat 0)%N with 1%N in Hx; lia). by rewrite pretty_N_go_0.
  - destruct (decide (x = 0)%N) as [->|H0]; [rewrite pretty_N_go_0; lia|]. rewrite pretty_N_go_step by lia.
    etrans; [apply IH|cbn [String.length]; lia]. apply N.Div0.div_lt_upper_bound.
    by rewrite <- N.pow_succ_r', <- Nat2N.inj_succ.
Qed.

Lemma Itoa_length z : - 2 ^ 63 ≤ z < 2 ^ 63 → slen (Itoa z) ≤ 20.
Proof.
  intros Hz. assert (Hp : ∀ n, (Z.pos n ≤ 2 ^ 63) → (String.length (Itoa (Z.pos n)) ≤ 19)%nat).
  { intros n Hn. change (Itoa (Z.pos n)) with (pretty (N.pos n)). unfold pretty, pretty_N. rewrite decide_False by done.
    etrans; [apply (pretty_N_go_length 19)|cbn; lia]. change (10 ^ N.of_nat 19)%N with 10000000000000000000%N. lia. }
  unfold slen. destruct z as [|n|n]; [cbn; lia|specialize (Hp n); lia|].
  change (Itoa (Z.neg n)) with ("-" +:+ Itoa (Z.pos n)). specialize (Hp n). rewrite length_app_s. cbn [String.length]. lia.
Qed.

Lemma graphic_utf8 s : all_bytes graphic s = true → utf8_valid s = true.
Proof. intros H. apply utf8_valid_eq. by apply graphic_valid. Qed.

Lemma plain_trimmed p : plain_id p → TrimSpace p ≠ EmptyString.
Proof. intros [Hg Hn _]. by rewrite graphic_trimmed. Qed.

(** ** The message *)

Section Message.
Context (kind sender peer body : string) (now : Time).
Context (Hk : kind ∈ [TypeChat; TypeJoin]) (Hs : plain_id sender) (Hp : all_bytes graphic peer = true) (Hpl : slen peer ≤ MaxSenderIDLen)
  (Hb : sendable body) (Ht : ordinary now).

Let m := new_message kind sender peer body now.

Lemma said_valid : valid_message m.
Proof.
  assert (Hi : TrimSpace (msg_ID m) ≠ EmptyString) by (cbn [msg_ID m new_message]; rewrite graphic_trimmed by apply Itoa_graphic; apply Itoa_nonempty).
  assert (Hl : slen (msg_ID m) ≤ 20) by (apply Itoa_length, wrap64_range).
  destruct Hs, Hb, Ht. split; try done; cbn [m new_message msg_SenderID msg_Type]; [by apply plain_trimmed|set_solver|lia].
Qed.

Lemma said_framed : ∃ f, frame m = Ok f ∧ ∀ t r, ReadMessage (mkStream (f +:+ t) r) = (Ok m, mkStream t r).
Proof.
  pose proof said_valid as Hv. destruct (marshal_message_json m) as [s|] eqn:Ej.
  - assert (Hf : frame m = Ok (put_uint32 (slen s) +:+ s)) by (apply frame_Ok; exists s; split; [by apply MarshalMessage_Ok|done]).
    exists (put_uint32 (slen s) +:+ s). split; [done|]. intros t r. apply wire_one; [done|].
    unfold utf8_message. cbn. destruct Hs, Hb.
    by rewrite !graphic_utf8, se_utf8 by (done || apply Itoa_graphic).
  - exfalso. unfold marshal_message_json in Ej. assert (Hm := proj2 (marshal_time_Some (msg_Timestamp m) _) (conj (proj1 Ht) eq_refl)).
    by rewrite Hm in Ej.
Qed.

Lemma said_marshals : is_ok (MarshalMessage m) = true.
Proof. destruct said_framed as (f & (p & -> & _)%frame_Ok & _). done. Qed.

End Message.

(** ** At the sender *)

Lemma UpsertPeer_messages p n t e w :
  Storage.db_messages (Storage.w_db (Storage.UpsertPeer p n t e w).2) = Storage.db_messages (Storage.w_db w).
Proof.
  assert (K : Storage.keeps (λ d, Storage.db_messages d = Storage.db_messages (Storage.w_db w)) (Storage.UpsertPeer p n t))
    by (unfold Storage.UpsertPeer; repeat keeps_step; done).
  by apply K.
Qed.

(** Storing an outbound message and writing it. *)
Lemma persistOutbound_sent e c m : Storage.no_fault e → valid_message m → trimmed (msg_ID m) →
  is_ok (MarshalMessage m) = true → stored m c = None →
  ∃ c', persistOutbound true m e c = (true, c') ∧ cl_written c' = cl_written c ++ [m] ∧
    ∃ row, stored m c' = Some row ∧ Storage.row_status row = Storage.StatusSent.
Proof.
  intros He Hv Ht Hm Hn. unfold stored in Hn. unfold persistOutbound, warn, mbind, Op_bind.
  assert (Hne : msg_ID m ≠ EmptyString) by (intros Hi; destruct Hv as [_ Hid]; by rewrite Hi in Hid).
  apply Validate_spec in Hv. rewrite InsertMessage_calm by done. rewrite Hv, Hn. unfold write.
  destruct (MarshalMessage m); [|done].
  set (c1 := with_written m _).
  edestruct (UpdateMessageStatus_calm e He (msg_ID m) Storage.StatusSent (cl_world c1)) as (w' & t & Hu & Hd);
    [done..|by apply lookup_insert_eq|].
  rewrite Hu. eexists. split; [reflexivity|]. split; [done|]. unfold stored. cbn [with_world cl_world snd].
  rewrite Hd, lookup_insert_eq. by eexists.
Qed.

Lemma line_sends e c sender peer rest text : Storage.no_fault e → TrimSpace text = command_line peer rest →
  plain_id sender → plain_id peer → sendable (TrimSpace rest) → ordinary (next_clock e c) →
  let m := new_message TypeChat sender peer (TrimSpace rest) (next_clock e c) in
  stored m c = None →
  ∃ c', handle_line true sender text e c = (Continue, c') ∧ cl_written c' = cl_written c ++ [m] ∧
    ∃ row, stored m c' = Some row ∧ Storage.row_status row = Storage.StatusSent.
Proof.
  intros He Hl Hs Hp Hb Ht m Hn.
  assert (Hr : TrimSpace rest ≠ EmptyString) by (intros E; apply Hb; by rewrite E).
  rewrite (msg_command_sends true sender text peer rest) by (done || apply Hp).
  unfold mbind, Op_bind, clock, warn. fold (next_clock e c). fold m.
  set (c1 := with_world _ (with_world _ c)).
  destruct (persistOutbound_sent e c1 m) as (c' & -> & Hw & Hrow); [done|by apply said_valid; try apply Hp; try left| |by apply said_marshals; try apply Hp; try left| |].
  - apply graphic_trimmed, Itoa_graphic.
  - unfold stored, c1. cbn [with_world cl_world]. by rewrite UpsertPeer_messages.
  - by exists c'.
Qed.

(** ** In the server *)

Lemma writes_out c q : ∀ s, sv_panicked s = false → sv_threads s !! Writer c = Some [] →
  c ∈ dom (sv_conns s) → cc_writeCh (get_conn s c) = q →
  ∃ s', play (replicate (length q) (EvWrite c true)) s = Some s' ∧ cc_writeCh (get_conn s' c) = [] ∧
    cc_conn (get_conn s' c) = cc_conn (get_conn s c) ++ q.
Proof.
  induction q as [|m q IH]; intros s Hp Ht Hd Hq; cbn [length replicate play].
  - exists s. by rewrite app_nil_r.
  - unfold step. rewrite Hp, Hq. unfold resume. rewrite Ht. cbn [mbind option_bind].
    set (s0 := with_threads _ s).
    destruct (IH (with_conns (alter (pop m q true) c) s0)) as (s' & -> & He & Hc).
    + done.
    + by apply lookup_insert_eq.
    + cbn. by rewrite dom_alter_L.
    + by rewrite get_conn_eq.
    + exists s'. split; [done|]. split; [done|]. rewrite Hc, get_conn_eq by done. cbn [pop cc_conn].
      change (get_conn s0 c) with (get_conn s c). by rewrite <- app_assoc.
Qed.

Lemma step_exec ch o s ops s1 b t : sv_panicked s = false → sv_threads s !! t = Some (o :: ops) → o ≠ OpExit →
  exec ch o s = Some (s1, b) → step (EvRun t ch) s = Some (with_threads <[t := b ++ ops]> s1).
Proof. intros Hp Ht Hne He. unfold step. rewrite Hp, Ht. destruct o; try done; by rewrite He. Qed.

Lemma routes s a c m ch : srv_reachable s → no_closing s → sv_panicked s = false →
  sv_threads s !! Reader a = Some [] → sv_threads s !! Writer c = Some [] → accepts s a = true → accepts s c = true →
  Validate m = Ok () → msg_Type m ≠ TypeJoin → TrimSpace (msg_RecipientID m) ≠ EmptyString →
  sv_peers s !! msg_RecipientID m = Some c →
  ∃ s', play (routed a c m ch (length (cc_writeCh (get_conn s c)))) s = Some s' ∧ cc_writeCh (get_conn s' c) = [] ∧
    cc_conn (get_conn s' c) = cc_conn (get_conn s c) ++ cc_writeCh (get_conn s c) ++ [m].
Proof.
  intros Hr Hn Hp Hra Hwc Ha Hc Hv Hj Hm Hpeer. pose proof (unhurried_reachable s Hr Hn) as Hu.
  assert (Hopen : ∀ i, accepts s i = true → cc_closedN (get_conn s i) = false ∧ cc_chClosed (get_conn s i) = false).
  { intros i [Hi _]%andb_true_iff. apply negb_true_iff in Hi. by destruct (Hu i) as [(_ & ? & ?)|(_ & _ & ?)]; [|congruence]. }
  destruct (Hopen a Ha) as [_ Hca]. destruct (Hopen c Hc) as [Hnc Hcc].
  assert (Hd : c ∈ dom (sv_conns s)) by (apply wf_srv_reachable, wf_live in Hr; by eapply lv_peers).
  apply andb_true_iff in Hc as [_ Hroom].
  unfold routed. cbn [app replicate].
  set (t0 := with_threads <[Reader a := [OpLookup a m]]> s).
  assert (E0 : step (EvRead a (Some m)) s = Some t0).
  { unfold step, resume, received, broadcast. rewrite Hp, Hca, Hra, Hv, decide_False, decide_True by done. done. }
  set (t1 := with_threads <[Reader a := [OpLoad c m (FailNotify a m)]]> t0).
  assert (E1 : step (EvRun (Reader a) ch) t0 = Some t1).
  { apply (step_exec _ (OpLookup a m) _ [] t0 [OpLoad c m (FailNotify a m)]); [done|by apply lookup_insert_eq|done|]. cbn. by rewrite Hpeer. }
  set (t2 := with_threads <[Reader a := [OpSend c m (FailNotify a m)]]> t1).
  assert (E2 : step (EvRun (Reader a) ch) t1 = Some t2).
  { apply (step_exec _ (OpLoad c m (FailNotify a m)) _ [] t1 [OpSend c m (FailNotify a m)]); [done|by apply lookup_insert_eq|done|].
    cbn [exec]. change (get_conn t1 c) with (get_conn s c). by rewrite Hnc. }
  set (s1 := with_threads <[Reader a := []]> (with_conns (alter (push m) c) t2)).
  assert (E3 : step (EvRun (Reader a) ch) t2 = Some s1).
  { apply (step_exec _ (OpSend c m (FailNotify a m)) _ [] (with_conns (alter (push m) c) t2) []); [done|by apply lookup_insert_eq|done|].
    cbn [exec]. change (get_conn t2 c) with (get_conn s c). by rewrite Hcc, Hroom. }
  cbn [play]. rewrite E0. cbn [mbind option_bind play]. rewrite E1. cbn [mbind option_bind play].
  rewrite E2. cbn [mbind option_bind play]. rewrite E3. cbn [mbind option_bind].
  assert (Hq : cc_writeCh (get_conn s1 c) = cc_writeCh (get_conn s c) ++ [m]).
  { unfold s1. change (get_conn (with_threads _ ?x) c) with (get_conn x c). rewrite get_conn_eq by done. done. }
  destruct (writes_out c (cc_writeCh (get_conn s c) ++ [m]) s1) as (s' & Hs' & He & Ho).
  - done.
  - unfold s1. cbn. by rewrite !lookup_insert_ne by done.
  - unfold s1. cbn. by rewrite dom_alter_L.
  - done.
  - rewrite length_app, Nat.add_1_r in Hs'. exists s'. split; [exact Hs'|]. split; [done|]. rewrite Ho. f_equal.
    unfold s1. change (get_conn (with_threads _ ?x) c) with (get_conn x c). by rewrite get_conn_eq.
Qed.

(** ** At the receiver *)

Lemma receive_stores e c m : Storage.no_fault e → Validate m = Ok () → msg_Type m = TypeChat → stored m c = None →
  ∃ t, stored m (receive m e c).2 = Some (Storage.message_to_row m Storage.DirectionInbound Storage.StatusReceived t).
Proof.
  intros He Hv Ht Hn. unfold receive. rewrite !decide_False by (rewrite Ht; done).
  unfold mbind, Op_bind, name_of, warn. set (c1 := with_world _ c).
  rewrite InsertMessage_calm, Hv by done. unfold stored in *.
  assert (Hm : Storage.db_messages (Storage.w_db (cl_world c1)) = Storage.db_messages (Storage.w_db (cl_world c)))
    by apply UpsertPeer_messages.
  rewrite Hm, Hn. cbn [with_world cl_world snd Storage.w_db Storage.with_messages Storage.db_messages].
  rewrite Hm, lookup_insert_eq. by eexists.
Qed.

(** ** Joining *)

Lemma identity_plain i : Identity.Validate i = Ok () → plain_id (Identity.id_PeerID i).
Proof.
  intros [_ _ _ _ _ _ Hp]%Validate_valid. rewrite Hp. split; [apply hex_graphic| |].
  - intros E. apply (hex_nonempty (sha256 (Identity.id_PublicKey i)) (sha256_nonempty _)). by rewrite E.
  - unfold slen. rewrite length_hex_encode, length_sha256. done.
Qed.

Lemma UpsertIdentity_messages i e w : Storage.no_fault e → Identity.Validate i = Ok () →
  ∃ w', Storage.UpsertIdentityMetadata i e w = (Ok (), w') ∧
    Storage.db_messages (Storage.w_db w') = Storage.db_messages (Storage.w_db w).
Proof.
  intros He Hv. unfold Storage.UpsertIdentityMetadata. rewrite Hv. unfold mbind, Storage.DB_bind.
  rewrite nowUTC_eq, exec_calm by done. by eexists.
Qed.

(** The server reads a join and registers the client. *)
Lemma registers s k m ch : sv_panicked s = false → sv_threads s !! Reader k = Some [] → cc_chClosed (get_conn s k) = false →
  Validate m = Ok () → msg_Type m = TypeJoin →
  ∃ s', play [EvRead k (Some m); EvRun (Reader k) ch; EvRun (Reader k) ch] s = Some s' ∧ sv_peers s' !! msg_SenderID m = Some k.
Proof.
  intros Hp Ht Hc Hv Hj. cbn [play].
  assert (E0 : step (EvRead k (Some m)) s = Some (with_threads <[Reader k := OpJoin k m :: OpRegister k (msg_SenderID m) :: broadcast k m]> s)).
  { unfold step, resume, received. by rewrite Hp, Hc, Ht, Hv, decide_True. }
  rewrite E0. cbn [mbind option_bind]. set (t0 := with_threads _ s).
  erewrite (step_exec ch (OpJoin k m) t0) by (done || by apply lookup_insert_eq). cbn [mbind option_bind app].
  set (t1 := with_threads _ _).
  erewrite (step_exec ch (OpRegister k (msg_SenderID m)) t1) by (done || by apply lookup_insert_eq). cbn [mbind option_bind app].
  eexists. split; [reflexivity|]. by apply lookup_insert_eq.
Qed.

(** C29: a client that starts is reachable: with a valid identity whose name can be
    sent and a store that opens, refuses nothing and holds no message under the ID
    of a time the clock gives, [StartClient] gets to its loops having written one
    join, stored as sent, whose frame reads back as that join,
    and a server that reads it registers the connection under the identity's peer
    ID. *)
Theorem client_joins {F} (open : F → Storage.Env → Storage.World → F * Storage.World * result Opening.open_error Opening.Store)
    local f f1 e w w1 db :
  open f e w = (f1, w1, Ok db) → Identity.Validate local = Ok () → sendable (Identity.id_DisplayName local) →
  Storage.no_fault e → (∀ n, ordinary (Storage.env_clock e n)) →
  (∀ n, Storage.db_messages (Storage.w_db w1) !! message_id (Storage.env_clock e n) = None) →
  ∃ c join, StartClient open None true local f e w = (f1, cl_world c, Some db, Ok c) ∧ cl_written c = [join] ∧
    (∃ row, stored join c = Some row ∧ Storage.row_status row = Storage.StatusSent) ∧
    (∃ fr, frame join = Ok fr ∧ ∀ t r, ReadMessage (mkStream (fr +:+ t) r) = (Ok join, mkStream t r)) ∧
    ∀ s k ch, sv_panicked s = false → sv_threads s !! Reader k = Some [] → cc_chClosed (get_conn s k) = false →
      ∃ s', play [EvRead k (Some join); EvRun (Reader k) ch; EvRun (Reader k) ch] s = Some s' ∧
        sv_peers s' !! Identity.id_PeerID local = Some k.
Proof.
  intros Ho Hv Hd He Ht Hn. destruct (UpsertIdentity_messages local e w1 He Hv) as (w2 & Hu & Hm).
  pose proof (identity_plain local Hv) as Hid. unfold StartClient. rewrite Ho, Hu.
  set (c0 := mkClient w2 ∅ []). set (join := new_message TypeJoin (Identity.id_PeerID local) EmptyString (Identity.id_DisplayName local) (next_clock e c0)).
  assert (Hk : TypeJoin ∈ [TypeChat; TypeJoin]) by (right; left).
  assert (Hl : slen EmptyString ≤ MaxSenderIDLen) by discriminate.
  assert (Hnow : ordinary (next_clock e c0)) by apply Ht.
  assert (Hvm : valid_message join) by (by apply said_valid).
  unfold announce, mbind, Op_bind, clock. fold (next_clock e c0). fold join. set (c1 := with_world _ c0).
  destruct (persistOutbound_sent e c1 join) as (c & -> & Hw & Hrow);
    [done|done|apply graphic_trimmed, Itoa_graphic|by apply said_marshals|unfold stored; cbn; rewrite Hm; apply Hn|].
  exists c, join. split; [done|]. split; [done|]. split; [done|]. split; [by apply said_framed|].
  intros s k ch Hp Hr Hc. by apply registers; [..|apply Validate_spec|].
Qed.

(** A clock that stands still. *)
Definition stopped_clock : Storage.Env := Storage.mkEnv (λ _, unix_epoch) (λ _, None).

Lemma client_joins_witness : ∃ c join,
  StartClient (Opening.Open (λ _, None) "ok" (λ _ _, true) "/data/skall.db") None true Identity.sample_identity (∅ : Identity.mem_fs)
    stopped_clock (Storage.mkWorld Storage.emptyDatabase 0) = (∅, cl_world c, Some (Opening.mkStore "/data/skall.db" false), Ok c) ∧
  cl_written c = [join].
Proof.
  assert (H : ∃ w1, Opening.Open (λ _, None) "ok" (λ _ _, true) "/data/skall.db" (∅ : Identity.mem_fs) stopped_clock (Storage.mkWorld Storage.emptyDatabase 0) =
    (∅, w1, Ok (Opening.mkStore "/data/skall.db" false)) ∧ Storage.db_messages (Storage.w_db w1) = ∅)
    by (eexists; split; [vm_compute; reflexivity|vm_compute; reflexivity]).
  destruct H as (w1 & Ho & Hn).
  assert (Hv : Identity.Validate Identity.sample_identity = Ok ()) by (vm_compute; reflexivity).
  assert (Hd : sendable (Identity.id_DisplayName Identity.sample_identity))
    by (split; [vm_compute; discriminate|vm_compute; reflexivity|vm_compute; discriminate]).
  assert (Ht : ∀ n, ordinary (Storage.env_clock stopped_clock n))
    by (intros n; split; [vm_compute; split; [discriminate|reflexivity]|vm_compute; discriminate]).
  assert (Hn' : ∀ n, Storage.db_messages (Storage.w_db w1) !! message_id (Storage.env_clock stopped_clock n) = None)
    by (intros n; rewrite Hn; apply lookup_empty).
  destruct (client_joins (Opening.Open (λ _, None) "ok" (λ _ _, true) "/data/skall.db") Identity.sample_identity ∅ ∅ stopped_clock (Storage.mkWorld Storage.emptyDatabase 0) w1
    (Opening.mkStore "/data/skall.db" false) Ho Hv Hd (λ _, eq_refl) Ht Hn') as (c & join & Hs & Hw & _).
  exists c, join. exact (conj Hs Hw).
Defined.

(** The store of the client is not in the configured data directory, where the
    documentation of [DataDir] says stores reside and every other command keeps
    them. *)
Example client_other_store :
  let e := mkPathEnv EmptyString EmptyString EmptyString EmptyString (Some "/home/u/.config") in
  let cfg := Config.with_DataDir "/srv/skall" (Config.DefaultConfig e) in
  Cli.store_path e cfg = Some "/srv/skall/skall.db" ∧ storage_DefaultPath e = Some "/home/u/.config/skall/skall.db".
Proof. split; vm_compute; reflexivity. Qed.

(** ** Property *)

(** C8: a direct message arrives, when the stores of both clients refuse no statement
    and have no message under its ID: the line [/msg peer text] typed at a client
    becomes one frame, stored as sent; read from any stream that begins with the
    frame it is the same message; the server, in any reachable state in which the
    sender is connected, the peer has joined, both channels have room and nobody
    is being removed, puts it after whatever waits for the peer, and the peer's
    writer sends it last; and the peer's client then holds it as received, with the
    sender's ID and the trimmed text. *)
Theorem message_arrives e e' sender peer rest text A B s a b ch :
  plain_id sender → plain_id peer → sendable (TrimSpace rest) → TrimSpace text = command_line peer rest →
  Storage.no_fault e → Storage.no_fault e' → ordinary (next_clock e A) →
  srv_reachable s → no_closing s → sv_panicked s = false → sv_peers s !! peer = Some b →
  sv_threads s !! Reader a = Some [] → sv_threads s !! Writer b = Some [] → accepts s a = true → accepts s b = true →
  let m := new_message TypeChat sender peer (TrimSpace rest) (next_clock e A) in
  stored m A = None → stored m B = None →
  (∃ A', handle_line true sender text e A = (Continue, A') ∧ cl_written A' = cl_written A ++ [m] ∧
     ∃ row, stored m A' = Some row ∧ Storage.row_status row = Storage.StatusSent) ∧
  (∃ f, frame m = Ok f ∧ ∀ t r, ReadMessage (mkStream (f +:+ t) r) = (Ok m, mkStream t r)) ∧
  (∃ s', play (routed a b m ch (length (cc_writeCh (get_conn s b)))) s = Some s' ∧ cc_writeCh (get_conn s' b) = [] ∧
     cc_conn (get_conn s' b) = cc_conn (get_conn s b) ++ cc_writeCh (get_conn s b) ++ [m]) ∧
  ∃ row, stored m (receive m e' B).2 = Some row ∧ Storage.row_sender_id row = sender ∧
    Storage.row_recipient_id row = Some peer ∧ Storage.row_body row = TrimSpace rest ∧
    Storage.row_direction row = Storage.DirectionInbound ∧ Storage.row_status row = Storage.StatusReceived.
Proof.
  intros Hs Hp Hb Hl He He' Ht Hr Hnc Hpan Hpeer Hra Hwb Ha Hab m HA HB.
  assert (Hv : Validate m = Ok ()) by (by apply Validate_spec, said_valid; try apply Hp; try left).
  split; [by eapply line_sends|]. split; [by apply said_framed; try apply Hp; try left|]. split.
  - apply routes; try done. by apply plain_trimmed.
  - destruct (receive_stores e' B m) as [t Hrow]; [done..|]. rewrite Hrow. eexists. split; [reflexivity|].
    cbn [Storage.message_to_row Storage.row_sender_id Storage.row_recipient_id Storage.row_body Storage.row_direction Storage.row_status].
    split_and!; try done. unfold Storage.nullIfEmpty. cbn [m new_message msg_RecipientID].
    rewrite decide_False by (by apply plain_trimmed). by rewrite (graphic_trimmed peer) by apply Hp.
Qed.

Lemma message_arrives_witness : ∃ s s' m,
  play two_clients NewServer = Some s ∧ msg_Body m = "hello  bob" ∧ play (routed 0 1 m (any_choice 7) 1) s = Some s' ∧
  cc_conn (get_conn s' 1) = [join_message "alice"; m].
Proof.
  destruct two_clients_reached as (s & Hs & Hr & Hn & _ & Hb & _ & Hq1 & Ha0 & Ha1).
  assert (Ht : ∃ s, play two_clients NewServer = Some s ∧ sv_panicked s = false ∧ sv_threads s !! Reader 0 = Some [] ∧
    sv_threads s !! Writer 1 = Some [] ∧ cc_conn (get_conn s 1) = [])
    by (eexists; split; [vm_compute; reflexivity|split_and!; vm_compute; reflexivity]).
  destruct Ht as (s0 & Hs0 & Hp & Hra & Hwb & Hc). rewrite Hs in Hs0. injection Hs0 as <-.
  assert (Hid : plain_id "alice" ∧ plain_id "bob") by (split; split; [reflexivity|discriminate|discriminate|reflexivity|discriminate|discriminate]).
  assert (Hsend : sendable (TrimSpace " hello  bob")) by (split; [vm_compute; discriminate|vm_compute; reflexivity|vm_compute; discriminate]).
  assert (Hl : TrimSpace "/msg bob  hello  bob " = command_line "bob" " hello  bob") by (vm_compute; reflexivity).
  assert (Hord : ordinary (next_clock Storage.calm sample_client))
    by (split; [vm_compute; split; [discriminate|reflexivity]|vm_compute; discriminate]).
  assert (Hno : ∀ m, stored m sample_client = None) by (intros m; apply lookup_empty).
  destruct (message_arrives Storage.calm Storage.calm "alice" "bob" " hello  bob" "/msg bob  hello  bob " sample_client sample_client
    s 0 1 (any_choice 7) (proj1 Hid) (proj2 Hid) Hsend Hl (λ _, eq_refl) (λ _, eq_refl) Hord Hr Hn Hp Hb Hra Hwb Ha0 Ha1
    (Hno _) (Hno _)) as (_ & _ & (s' & Hplay & _ & Ho) & _).
  rewrite Hq1 in Hplay, Ho. rewrite Hc in Ho. exists s, s'. eexists. split; [exact Hs|]. split; [|split; [exact Hplay|exact Ho]].
  vm_compute. reflexivity.
Defined.
