(* ===== verification/Groups.v ===== *)
(** * The group manager

    [internal/groups/group.go]: the in-memory groups with their members, and
    the sets of message IDs already routed.  An operation takes the manager
    and the current time where the code reads the clock, and returns the new
    manager with the result; the mutex makes each critical section atomic, and
    an operation is modelled as one uninterrupted call.

    A Go map iterates in an unspecified order: [pruneSeen] takes that order as
    an argument.  Writing to a [nil] map panics: the model returns
    [GroupPanic] there. *)

From S2P Require Import Prelude GoStrings GoTime Json Protocol.

Open Scope Z_scope.

(** ** State *)

Record GroupMember : Type := mkMember {
  gm_PeerID : string;
  gm_JoinedAt : Time;
  gm_Active : bool;
  gm_LastSeen : Time
}.

Record Group : Type := mkGroup {
  g_ID : string;
  g_Name : string;
  g_Members : gmap string GroupMember;
  g_CreatedAt : Time;
  g_UpdatedAt : Time
}.

Record Manager : Type := mkManager {
  mgr_groups : gmap string Group;
  mgr_seen : gmap string (gset string)
}.

Inductive group_error : Type :=
  | ErrGroupNotFound (id : string)
  | ErrGroupAlreadyExists (id : string)
  | ErrInvalidGroupID
  | ErrInvalidGroupName
  | ErrInvalidPeerID
  | ErrMemberAlreadyAdded (peer : string)
  | ErrMemberNotFound (peer : string)
  | ErrDuplicateMessage (id : string)
  | ErrMessageIDRequired
  | ErrBodyRequired
  | GroupPanic.

#[global] Instance GroupMember_eq_dec : EqDecision GroupMember.
Proof. solve_decision. Defined.
#[global] Instance Group_eq_dec : EqDecision Group.
Proof. solve_decision. Defined.
#[global] Instance Manager_eq_dec : EqDecision Manager.
Proof. solve_decision. Defined.
#[global] Instance group_error_eq_dec : EqDecision group_error.
Proof. solve_decision. Defined.

Definition maxSeenPerGroup : Z := 10000.

Definition NewManager : Manager := mkManager ∅ ∅.

Definition set_group (id : string) (g : Group) (m : Manager) : Manager :=
  mkManager (<[id := g]> (mgr_groups m)) (mgr_seen m).
Definition set_seen (id : string) (s : gset string) (m : Manager) : Manager :=
  mkManager (mgr_groups m) (<[id := s]> (mgr_seen m)).
Definition with_members (mem : gmap string GroupMember) (now : Time) (g : Group) : Group :=
  mkGroup (g_ID g) (g_Name g) mem (g_CreatedAt g) now.

(** ** Operations *)

Definition CreateGroup (now : Time) (groupID name : string) (m : Manager)
  : Manager * result group_error Group :=
  let groupID := TrimSpace groupID in
  let name := TrimSpace name in
  if decide (groupID = EmptyString) then (m, Err ErrInvalidGroupID) else
  if decide (name = EmptyString) then (m, Err ErrInvalidGroupName) else
  match mgr_groups m !! groupID with
  | Some _ => (m, Err (ErrGroupAlreadyExists groupID))
  | None =>
      let group := mkGroup groupID name ∅ now now in
      (set_seen groupID ∅ (set_group groupID group m), Ok group)
  end.

Definition GetGroup (groupID : string) (m : Manager) : option Group :=
  mgr_groups m !! TrimSpace groupID.

Definition AddMember (now : Time) (groupID peerID : string) (m : Manager)
  : Manager * result group_error () :=
  let groupID := TrimSpace groupID in
  let peerID := TrimSpace peerID in
  if decide (groupID = EmptyString) then (m, Err ErrInvalidGroupID) else
  if decide (peerID = EmptyString) then (m, Err ErrInvalidPeerID) else
  match mgr_groups m !! groupID with
  | None => (m, Err (ErrGroupNotFound groupID))
  | Some group =>
      match g_Members group !! peerID with
      | Some _ => (m, Err (ErrMemberAlreadyAdded peerID))
      | None =>
          let members := <[peerID := mkMember peerID now true now]> (g_Members group) in
          (set_group groupID (with_members members now group) m, Ok ())
      end
  end.

Definition removeMember (now : Time) (groupID peerID : string) (m : Manager)
  : Manager * result group_error () :=
  let groupID := TrimSpace groupID in
  let peerID := TrimSpace peerID in
  if decide (groupID = EmptyString) then (m, Err ErrInvalidGroupID) else
  if decide (peerID = EmptyString) then (m, Err ErrInvalidPeerID) else
  match mgr_groups m !! groupID with
  | None => (m, Err (ErrGroupNotFound groupID))
  | Some group =>
      match g_Members group !! peerID with
      | None => (m, Err (ErrMemberNotFound peerID))
      | Some _ =>
          (set_group groupID (with_members (delete peerID (g_Members group)) now group) m, Ok ())
      end
  end.

Definition RemoveMember := removeMember.
Definition LeaveGroup := removeMember.

Definition DeleteGroup (groupID : string) (m : Manager) : Manager * result group_error () :=
  let groupID := TrimSpace groupID in
  if decide (groupID = EmptyString) then (m, Err ErrInvalidGroupID) else
  match mgr_groups m !! groupID with
  | None => (m, Err (ErrGroupNotFound groupID))
  | Some _ => (mkManager (delete groupID (mgr_groups m)) (delete groupID (mgr_seen m)), Ok ())
  end.

Definition keys {A} (m : gmap string A) : list string := (map_to_list m).*1.

Definition ViewMembers (groupID : string) (m : Manager) : result group_error (list string) :=
  let groupID := TrimSpace groupID in
  if decide (groupID = EmptyString) then Err ErrInvalidGroupID else
  match mgr_groups m !! groupID with
  | None => Err (ErrGroupNotFound groupID)
  | Some group => Ok (sort_strings (keys (g_Members group)))
  end.

Definition ListGroups (m : Manager) : list string := sort_strings (keys (mgr_groups m)).

Definition IsMember (groupID peerID : string) (m : Manager) : bool :=
  let groupID := TrimSpace groupID in
  let peerID := TrimSpace peerID in
  if decide (groupID = EmptyString ∨ peerID = EmptyString) then false else
  match mgr_groups m !! groupID with
  | None => false
  | Some group => bool_decide (is_Some (g_Members group !! peerID))
  end.

Definition SendGroupMessage (now : Time) (groupID senderID body : string) (m : Manager)
  : result group_error Message :=
  let groupID := TrimSpace groupID in
  let senderID := TrimSpace senderID in
  if decide (groupID = EmptyString) then Err ErrInvalidGroupID else
  if decide (senderID = EmptyString) then Err ErrInvalidPeerID else
  match mgr_groups m !! groupID with
  | None => Err (ErrGroupNotFound groupID)
  | Some group =>
      match g_Members group !! senderID with
      | None => Err (ErrMemberNotFound senderID)
      | Some _ =>
          if blank body then Err ErrBodyRequired
          else Ok (NewChatMessage now senderID EmptyString groupID body)
      end
  end.

(** The orders in which a Go map can be iterated. *)
Definition map_order (order : gset string → list string) : Prop :=
  ∀ s, order s ≡ₚ elements s.

(** [pruneSeen] on one set: above the cap, the first half of the keys the
    iteration meets are deleted. *)
Definition prune (order : gset string → list string) (s : gset string) : gset string :=
  if Z.of_nat (size s) <=? maxSeenPerGroup then s
  else s ∖ list_to_set (take (Z.to_nat (Z.of_nat (size s) / 2)) (order s)).

Definition pruneSeen (order : gset string → list string) (groupID : string) (m : Manager)
  : Manager :=
  match mgr_seen m !! groupID with
  | Some s => set_seen groupID (prune order s) m
  | None => m
  end.

Section Route.
(** The state of the delivery callback, which reports whether it succeeded. *)
Context {D : Type}.

(** The loop of [RouteGroupMessage] over the members; [connected] and
    [deliver] may be nil. *)
Fixpoint route_to (message : Message) (connected : option (gmap string bool))
    (deliver : option (D → Message → string → D * bool)) (members : list string) (d : D)
  : D * list string :=
  match members with
  | [] => (d, [])
  | peerID :: rest =>
      let skip := route_to message connected deliver rest d in
      if decide (peerID = msg_SenderID message) then skip else
      if match connected with Some c => negb (default false (c !! peerID)) | None => false end
      then skip else
      match deliver with
      | None => skip
      | Some f =>
          let '(d', ok) := f d message peerID in
          let '(d'', delivered) := route_to message connected deliver rest d' in
          (d'', if ok : bool then peerID :: delivered else delivered)
      end
  end.

Definition RouteGroupMessage (order : gset string → list string) (message : Message)
    (connected : option (gmap string bool)) (deliver : option (D → Message → string → D * bool))
    (d : D) (m : Manager) : Manager * D * result group_error (list string) :=
  if blank (msg_GroupID message) then (m, d, Err ErrInvalidGroupID) else
  if blank (msg_ID message) then (m, d, Err ErrMessageIDRequired) else
  if blank (msg_SenderID message) then (m, d, Err ErrInvalidPeerID) else
  match mgr_groups m !! msg_GroupID message with
  | None => (m, d, Err (ErrGroupNotFound (msg_GroupID message)))
  | Some _ =>
      let seen := mgr_seen m !! msg_GroupID message in
      if decide (msg_ID message ∈ default ∅ seen)
      then (m, d, Err (ErrDuplicateMessage (msg_ID message))) else
      match seen with
      | None => (m, d, Err GroupPanic)
      | Some s =>
          let m := set_seen (msg_GroupID message) ({[msg_ID message]} ∪ s) m in
          let m := pruneSeen order (msg_GroupID message) m in
          match ViewMembers (msg_GroupID message) m with
          | Err e => (m, d, Err e)
          | Ok members =>
              let '(d, delivered) := route_to message connected deliver members d in
              (m, d, Ok delivered)
          end
      end
  end.

End Route.

Definition MarkMessageSeen (order : gset string → list string) (groupID messageID : string)
    (m : Manager) : Manager * result group_error () :=
  let groupID := TrimSpace groupID in
  let messageID := TrimSpace messageID in
  if decide (groupID = EmptyString) then (m, Err ErrInvalidGroupID) else
  if decide (messageID = EmptyString) then (m, Err ErrMessageIDRequired) else
  match mgr_groups m !! groupID with
  | None => (m, Err (ErrGroupNotFound groupID))
  | Some _ =>
      let s := default ∅ (mgr_seen m !! groupID) in
      (pruneSeen order groupID (set_seen groupID ({[messageID]} ∪ s) m), Ok ())
  end.

Definition IsDuplicate (groupID messageID : string) (m : Manager) : bool :=
  let groupID := TrimSpace groupID in
  let messageID := TrimSpace messageID in
  if decide (groupID = EmptyString ∨ messageID = EmptyString) then false else
  match mgr_seen m !! groupID with
  | None => false
  | Some s => bool_decide (messageID ∈ s)
  end.

(** ** Histories of calls *)

(** The calls that change the manager; a [RouteGroupMessage] is recorded with
    the message only, since the delivery does not touch the manager. *)
Inductive call : Type :=
  | CallCreate (now : Time) (groupID name : string)
  | CallAdd (now : Time) (groupID peerID : string)
  | CallRemove (now : Time) (groupID peerID : string)
  | CallDelete (groupID : string)
  | CallRoute (order : gset string → list string) (message : Message)
  | CallMark (order : gset string → list string) (groupID messageID : string).

Definition legal_call (c : call) : Prop :=
  match c with
  | CallRoute order _ | CallMark order _ _ => map_order order
  | _ => True
  end.

Definition exec (m : Manager) (c : call) : Manager * result group_error () :=
  match c with
  | CallCreate now g n => let '(m, r) := CreateGroup now g n m in (m, _ ← r; Ok ())
  | CallAdd now g p => AddMember now g p m
  | CallRemove now g p => removeMember now g p m
  | CallDelete g => DeleteGroup g m
  | CallRoute order msg =>
      let '(m, _, r) := RouteGroupMessage (D:=()) order msg None None () m in (m, _ ← r; Ok ())
  | CallMark order g i => MarkMessageSeen order g i m
  end.

Definition mgr_step (m m' : Manager) : Prop := ∃ c, legal_call c ∧ m' = (exec m c).1.
Definition mgr_reachable : Manager → Prop := reachable (λ m, m = NewManager) mgr_step.

(** ** Specifications *)

Record wf_member (p : string) (mem : GroupMember) : Prop := {
  wfm_id : gm_PeerID mem = p;
  wfm_trim : trimmed p;
  wfm_nonempty : p ≠ EmptyString;
  wfm_active : gm_Active mem = true
}.

Record wf_group (id : string) (g : Group) : Prop := {
  wfg_id : g_ID g = id;
  wfg_trim : trimmed id;
  wfg_nonempty : id ≠ EmptyString;
  wfg_name : trimmed (g_Name g) ∧ g_Name g ≠ EmptyString;
  wfg_members : map_Forall wf_member (g_Members g)
}.

Record wf_manager (m : Manager) : Prop := {
  wf_groups : map_Forall wf_group (mgr_groups m);
  wf_dom : dom (mgr_seen m) = dom (mgr_groups m);
  wf_seen : map_Forall (λ _ s, Z.of_nat (size s) ≤ maxSeenPerGroup) (mgr_seen m)
}.

(** The abstract state: the set of members of each group. *)
Notation roster := (gmap string (gset string)) (only parsing).

Definition roster_of (g : Group) : gset string := dom (g_Members g).

Definition abs (m : Manager) : roster := roster_of <$> mgr_groups m.

(** What a call does to the rosters, and whether it succeeds; routing and
    marking leave them alone. *)
Definition abs_exec (r : roster) (c : call) : roster * bool :=
  match c with
  | CallCreate _ g n =>
      let g := TrimSpace g in
      if decide (g = EmptyString ∨ TrimSpace n = EmptyString ∨ g ∈ dom r) then (r, false)
      else (<[g := ∅]> r, true)
  | CallAdd _ g p =>
      let g := TrimSpace g in let p := TrimSpace p in
      match r !! g with
      | Some s => if decide (g = EmptyString ∨ p = EmptyString ∨ p ∈ s) then (r, false)
                  else (<[g := {[p]} ∪ s]> r, true)
      | None => (r, false)
      end
  | CallRemove _ g p =>
      let g := TrimSpace g in let p := TrimSpace p in
      match r !! g with
      | Some s => if decide (g = EmptyString ∨ p = EmptyString ∨ p ∉ s) then (r, false)
                  else (<[g := s ∖ {[p]}]> r, true)
      | None => (r, false)
      end
  | CallDelete g =>
      let g := TrimSpace g in
      if decide (g ≠ EmptyString ∧ g ∈ dom r) then (delete g r, true) else (r, false)
  | CallRoute _ _ | CallMark _ _ _ => (r, true)
  end.

Definition changes_roster (c : call) : bool :=
  match c with CallRoute _ _ | CallMark _ _ _ => false | _ => true end.

(** The members a routed message is offered to. *)
Definition is_recipient (message : Message) (connected : option (gmap string bool)) (p : string)
  : bool :=
  bool_decide (p ≠ msg_SenderID message) &&
  match connected with Some c => default false (c !! p) | None => true end.

Definition recipients (message : Message) (connected : option (gmap string bool))
    (members : list string) : list string :=
  filter (λ p, is_recipient message connected p = true) members.

(** Histories of calls, with the outcome of each call that may change a roster. *)
Fixpoint exec_all (m : Manager) (cs : list call) : Manager * list (option bool) :=
  match cs with
  | [] => (m, [])
  | c :: cs =>
      let '(m1, r) := exec m c in
      let '(m2, rs) := exec_all m1 cs in
      (m2, (if changes_roster c then Some (is_ok r) else None) :: rs)
  end.

Fixpoint abs_exec_all (r : roster) (cs : list call) : roster * list (option bool) :=
  match cs with
  | [] => (r, [])
  | c :: cs =>
      let '(r1, b) := abs_exec r c in
      let '(r2, bs) := abs_exec_all r1 cs in
      (r2, (if changes_roster c then Some b else None) :: bs)
  end.

(** A callback that records the calls it gets and reports [ok] for each peer. *)
Definition logging (ok : string → bool) (log : list (Message * string)) (message : Message)
    (p : string) : list (Message * string) * bool := (log ++ [(message, p)], ok p).

(** A manager with one group of three members. *)
Definition sample_calls : list call :=
  [CallCreate 1 " room " "Room"; CallAdd 2 "room" "carol"; CallAdd 3 "room" "alice";
   CallAdd 4 "room" " bob"].
Definition sample_manager : Manager := (exec_all NewManager sample_calls).1.
Definition sample_group_message : Message :=
  mkMessage 1 "m1" TypeChat "alice" EmptyString "room" (unix_epoch + 5) "hello".

(** The IDs of a full set, for the pruning example. *)
Definition full_id (n : nat) : string := String "m" (pretty n).

(** ** Keys *)

Lemma elem_of_keys {A} (m : gmap string A) k : k ∈ keys m ↔ k ∈ dom m.
Proof.
  unfold keys. rewrite list_elem_of_fmap, elem_of_dom. split.
  - intros ([k' v] & -> & H%elem_of_map_to_list). by exists v.
  - intros [v H]. exists (k, v). by rewrite elem_of_map_to_list.
Qed.

Lemma NoDup_keys {A} (m : gmap string A) : NoDup (keys m).
Proof. apply NoDup_fst_map_to_list. Qed.

Lemma NoDup_sort_strings l : NoDup l → NoDup (sort_strings l).
Proof. by rewrite sort_strings_perm. Qed.

(** ** Pruning *)

Lemma prune_subset order s : prune order s ⊆ s.
Proof. unfold prune. destruct (_ <=? _); set_solver. Qed.

Lemma prune_small order s : Z.of_nat (size s) ≤ maxSeenPerGroup → prune order s = s.
Proof. intros H. unfold prune. by rewrite (proj2 (Z.leb_le _ _)). Qed.

Lemma prune_size order s : map_order order → maxSeenPerGroup < Z.of_nat (size s) →
  size (prune order s) = (size s - size s / 2)%nat.
Proof.
  intros Ho Hs. unfold prune. rewrite (proj2 (Z.leb_gt _ _)) by done.
  set (n := Z.to_nat (Z.of_nat (size s) / 2)).
  assert (Hn : n = (size s / 2)%nat) by (unfold n; rewrite <- (Nat2Z.inj_div _ 2); lia).
  assert (Hnd : NoDup (order s)) by (rewrite (Ho s); apply NoDup_elements).
  rewrite size_difference.
  - rewrite size_list_to_set by (rewrite <- (take_drop n (order s)) in Hnd; by apply NoDup_app in Hnd as [? _]).
    rewrite length_take, (Ho s). change (length (elements s)) with (size s).
    assert (size s / 2 ≤ size s)%nat by (apply Nat.Div0.div_le_upper_bound; lia). lia.
  - intros x. rewrite elem_of_list_to_set. intros H%elem_of_take.
    destruct H as (i & H & _). apply list_elem_of_lookup_2 in H. rewrite (Ho s) in H.
    by apply elem_of_elements.
Qed.

Lemma prune_bound order s : map_order order → Z.of_nat (size s) ≤ maxSeenPerGroup + 1 →
  Z.of_nat (size (prune order s)) ≤ maxSeenPerGroup.
Proof.
  intros Ho Hs. destruct (decide (Z.of_nat (size s) ≤ maxSeenPerGroup)) as [H|H].
  - by rewrite prune_small.
  - rewrite prune_size by (done || lia). unfold maxSeenPerGroup in *.
    assert (Z.of_nat (size s / 2) = Z.of_nat (size s) / 2) as Hd by (by rewrite (Nat2Z.inj_div _ 2)).
    div_lia.
Qed.

Lemma size_add_bound (i : string) (s : gset string) :
  Z.of_nat (size ({[i]} ∪ s)) ≤ Z.of_nat (size s) + 1.
Proof. rewrite size_union_alt, size_singleton. pose proof (subseteq_size (s ∖ {[i]}) s). set_solver by lia. Qed.

(** ** Every call keeps the manager well formed *)

Lemma wf_NewManager : wf_manager NewManager.
Proof. split; simpl; [apply map_Forall_empty|by rewrite !dom_empty_L|apply map_Forall_empty]. Qed.

Lemma wf_set_group id g m : wf_manager m → is_Some (mgr_groups m !! id) → wf_group id g →
  wf_manager (set_group id g m).
Proof.
  intros [Hg Hd Hs] Hid Hwf. split; simpl; [by apply map_Forall_insert_2| |done].
  rewrite dom_insert_L, Hd. apply elem_of_dom in Hid. set_solver.
Qed.

Lemma wf_set_seen id s m : wf_manager m → is_Some (mgr_groups m !! id) →
  Z.of_nat (size s) ≤ maxSeenPerGroup → wf_manager (set_seen id s m).
Proof.
  intros [Hg Hd Hs] Hid Hsz. split; simpl; [done| |by apply map_Forall_insert_2].
  rewrite dom_insert_L, Hd. apply elem_of_dom in Hid. set_solver.
Qed.

Lemma wf_lookup id g m : wf_manager m → mgr_groups m !! id = Some g → wf_group id g.
Proof. intros [Hg _ _] H. by apply (Hg id). Qed.

Lemma wf_seen_lookup id g m : wf_manager m → mgr_groups m !! id = Some g →
  ∃ s, mgr_seen m !! id = Some s ∧ Z.of_nat (size s) ≤ maxSeenPerGroup.
Proof.
  intros [_ Hd Hs] H. assert (id ∈ dom (mgr_seen m)) as [s Hl]%elem_of_dom
    by (rewrite Hd; by apply elem_of_dom_2 in H).
  exists s. split; [done|]. by apply (Hs id).
Qed.

Lemma wf_add_seen order id i m : map_order order → wf_manager m → is_Some (mgr_groups m !! id) →
  wf_manager (pruneSeen order id (set_seen id ({[i]} ∪ default ∅ (mgr_seen m !! id)) m)).
Proof.
  intros Ho Hm Hid. unfold pruneSeen. simpl. rewrite lookup_insert_eq.
  destruct Hid as [g Hg]. destruct (wf_seen_lookup _ _ _ Hm Hg) as (s & -> & Hs).
  unfold set_seen. simpl. rewrite insert_insert_eq.
  apply (wf_set_seen id _ m Hm); [by exists g|]. apply prune_bound; [done|].
  simpl. pose proof (size_add_bound i s). lia.
Qed.

(** The guards at the head of an operation: whatever they refuse leaves the
    manager as it was. *)
Ltac guards := repeat (case_decide; [by intros [= <- <-]|]).

Lemma wf_CreateGroup now g n m m' r : CreateGroup now g n m = (m', r) →
  wf_manager m → wf_manager m'.
Proof.
  unfold CreateGroup. guards. destruct (mgr_groups m !! _) eqn:E; [by intros [= <- <-]|].
  intros [= <- <-] [Hg Hd Hs]. split; simpl.
  - apply map_Forall_insert_2; [|done]. split; simpl; auto with skall. apply map_Forall_empty.
  - by rewrite !dom_insert_L, Hd.
  - apply map_Forall_insert_2; [|done]. rewrite size_empty. by vm_compute.
Qed.

Lemma wf_AddMember now g p m m' r : AddMember now g p m = (m', r) →
  wf_manager m → wf_manager m'.
Proof.
  unfold AddMember. guards. destruct (mgr_groups m !! _) as [grp|] eqn:E; [|by intros [= <- <-]].
  destruct (g_Members grp !! _) eqn:Ep; [by intros [= <- <-]|]. intros [= <- <-] Hm.
  destruct (wf_lookup _ _ _ Hm E). apply wf_set_group; [done|by exists grp|].
  split; simpl; [done..|]. apply map_Forall_insert_2; [|done].
  split; simpl; auto with skall.
Qed.

Lemma wf_removeMember now g p m m' r : removeMember now g p m = (m', r) →
  wf_manager m → wf_manager m'.
Proof.
  unfold removeMember. guards. destruct (mgr_groups m !! _) as [grp|] eqn:E; [|by intros [= <- <-]].
  destruct (g_Members grp !! _) eqn:Ep; [|by intros [= <- <-]]. intros [= <- <-] Hm.
  destruct (wf_lookup _ _ _ Hm E). apply wf_set_group; [done|by exists grp|].
  split; simpl; [done..|]. by apply map_Forall_delete.
Qed.

Lemma wf_DeleteGroup g m m' r : DeleteGroup g m = (m', r) → wf_manager m → wf_manager m'.
Proof.
  unfold DeleteGroup. guards. destruct (mgr_groups m !! _) eqn:E; [|by intros [= <- <-]].
  intros [= <- <-] [Hg Hd Hs]. split; simpl; [by apply map_Forall_delete| |by apply map_Forall_delete].
  by rewrite !dom_delete_L, Hd.
Qed.

Lemma wf_RouteGroupMessage {D} order msg conn deliver (d d' : D) m m' r :
  map_order order → RouteGroupMessage order msg conn deliver d m = (m', d', r) →
  wf_manager m → wf_manager m'.
Proof.
  intros Ho. unfold RouteGroupMessage.
  repeat (case_match; [by intros [= <- <- <-]|]).
  destruct (mgr_groups m !! _) as [grp|] eqn:E; [|by intros [= <- <- <-]].
  case_decide; [by intros [= <- <- <-]|].
  destruct (mgr_seen m !! _) as [s|] eqn:Es; [|by intros [= <- <- <-]].
  intros Heq Hm.
  pose proof (wf_add_seen order (msg_GroupID msg) (msg_ID msg) m Ho Hm) as Hwf.
  rewrite E, Es in Hwf. specialize (Hwf (mk_is_Some _ _ eq_refl)).
  revert Heq. case_match; [|by intros [= <- <- <-]].
  destruct (route_to _ _ _ _ _). by intros [= <- <- <-].
Qed.

Lemma wf_MarkMessageSeen order g i m m' r : map_order order →
  MarkMessageSeen order g i m = (m', r) → wf_manager m → wf_manager m'.
Proof.
  intros Ho. unfold MarkMessageSeen. guards.
  destruct (mgr_groups m !! _) as [grp|] eqn:E; [|by intros [= <- <-]].
  intros [= <- <-] Hm. by apply wf_add_seen.
Qed.

Lemma wf_exec m c : legal_call c → wf_manager m → wf_manager (exec m c).1.
Proof.
  destruct c; simpl; intros Hl Hm.
  - destruct (CreateGroup _ _ _ _) eqn:E; simpl. by eapply wf_CreateGroup.
  - destruct (AddMember _ _ _ _) eqn:E; simpl. by eapply wf_AddMember.
  - destruct (removeMember _ _ _ _) eqn:E; simpl. by eapply wf_removeMember.
  - destruct (DeleteGroup _ _) eqn:E; simpl. by eapply wf_DeleteGroup.
  - destruct (RouteGroupMessage _ _ _ _ _ _) as [[? ?] ?] eqn:E; simpl.
    by eapply wf_RouteGroupMessage.
  - destruct (MarkMessageSeen _ _ _ _) eqn:E; simpl. by eapply wf_MarkMessageSeen.
Qed.

Lemma wf_reachable m : mgr_reachable m → wf_manager m.
Proof.
  apply reachable_invariant. split.
  - intros ? ->. apply wf_NewManager.
  - intros ? ? Hm (c & Hc & ->). by apply wf_exec.
Qed.

(** ** Calls act on the rosters as specified *)

Lemma abs_lookup m g : abs m !! g = roster_of <$> mgr_groups m !! g.
Proof. unfold abs. apply lookup_fmap. Qed.

Lemma abs_dom m : dom (abs m) = dom (mgr_groups m).
Proof. unfold abs. apply dom_fmap_L. Qed.

Lemma abs_set_group id g m : abs (set_group id g m) = <[id := roster_of g]> (abs m).
Proof. unfold abs. simpl. apply fmap_insert. Qed.

Lemma abs_set_seen id s m : abs (set_seen id s m) = abs m.
Proof. done. Qed.

Lemma abs_pruneSeen order id m : abs (pruneSeen order id m) = abs m.
Proof. unfold pruneSeen. by destruct (_ !! _). Qed.

Lemma abs_CreateGroup now g n m : let '(m', r) := CreateGroup now g n m in
  abs_exec (abs m) (CallCreate now g n) = (abs m', is_ok r).
Proof.
  unfold CreateGroup, abs_exec. rewrite abs_dom.
  destruct (decide (TrimSpace g = EmptyString)); [by rewrite decide_True by tauto|].
  destruct (decide (TrimSpace n = EmptyString)); [by rewrite decide_True by tauto|].
  destruct (mgr_groups m !! _) as [grp|] eqn:E.
  - rewrite decide_True; [done|]. right; right. by apply elem_of_dom_2 in E.
  - rewrite decide_False; [|by intros [?|[?|?%elem_of_dom]]; [..|rewrite E in *; destruct H]].
    by rewrite abs_set_seen, abs_set_group.
Qed.

Lemma abs_AddMember now g p m : let '(m', r) := AddMember now g p m in
  abs_exec (abs m) (CallAdd now g p) = (abs m', is_ok r).
Proof.
  unfold AddMember, abs_exec. rewrite abs_lookup.
  destruct (decide (TrimSpace g = EmptyString)).
  { destruct (_ <$> _); [|done]. by rewrite decide_True by tauto. }
  destruct (decide (TrimSpace p = EmptyString)).
  { destruct (_ <$> _); [|done]. by rewrite decide_True by tauto. }
  destruct (mgr_groups m !! _) as [grp|] eqn:E; [|done]. cbn [fmap option_fmap option_map].
  destruct (g_Members grp !! _) as [mem|] eqn:Ep.
  - rewrite decide_True; [done|]. right; right. by apply elem_of_dom_2 in Ep.
  - apply not_elem_of_dom in Ep. rewrite decide_False by tauto.
    rewrite abs_set_group. unfold roster_of. simpl. by rewrite dom_insert_L.
Qed.

Lemma abs_removeMember now g p m : let '(m', r) := removeMember now g p m in
  abs_exec (abs m) (CallRemove now g p) = (abs m', is_ok r).
Proof.
  unfold removeMember, abs_exec. rewrite abs_lookup.
  destruct (decide (TrimSpace g = EmptyString)).
  { destruct (_ <$> _); [|done]. by rewrite decide_True by tauto. }
  destruct (decide (TrimSpace p = EmptyString)).
  { destruct (_ <$> _); [|done]. by rewrite decide_True by tauto. }
  destruct (mgr_groups m !! _) as [grp|] eqn:E; [|done]. cbn [fmap option_fmap option_map].
  destruct (g_Members grp !! _) as [mem|] eqn:Ep.
  - apply elem_of_dom_2 in Ep. rewrite decide_False by tauto.
    rewrite abs_set_group. unfold roster_of. simpl. by rewrite dom_delete_L.
  - rewrite decide_True; [done|]. right; right. by apply not_elem_of_dom.
Qed.

Lemma abs_DeleteGroup g m : let '(m', r) := DeleteGroup g m in
  abs_exec (abs m) (CallDelete g) = (abs m', is_ok r).
Proof.
  unfold DeleteGroup, abs_exec. rewrite abs_dom.
  destruct (decide (TrimSpace g = EmptyString)); [by rewrite decide_False by tauto|].
  destruct (mgr_groups m !! _) as [grp|] eqn:E.
  - rewrite decide_True by (split; [done|]; by apply elem_of_dom_2 in E).
    unfold abs. simpl. by rewrite fmap_delete.
  - apply not_elem_of_dom in E. by rewrite decide_False by tauto.
Qed.

Lemma abs_RouteGroupMessage {D} order msg conn deliver (d : D) m :
  abs (RouteGroupMessage order msg conn deliver d m).1.1 = abs m.
Proof.
  unfold RouteGroupMessage. do 3 (case_match; [done|]).
  destruct (mgr_groups m !! _); [|done]. case_decide; [done|].
  destruct (mgr_seen m !! _); [|done].
  destruct (ViewMembers _ _); [destruct (route_to _ _ _ _ _)|]; simpl; by rewrite abs_pruneSeen.
Qed.

Lemma abs_MarkMessageSeen order g i m : abs (MarkMessageSeen order g i m).1 = abs m.
Proof.
  unfold MarkMessageSeen. do 2 (case_decide; [done|]).
  destruct (mgr_groups m !! _); [|done]. simpl. by rewrite abs_pruneSeen.
Qed.

Lemma abs_exec_spec m c :
  abs (exec m c).1 = (abs_exec (abs m) c).1 ∧
  (changes_roster c = true → is_ok (exec m c).2 = (abs_exec (abs m) c).2).
Proof.
  destruct c; cbn [exec changes_roster].
  - pose proof (abs_CreateGroup now groupID name m) as H. destruct (CreateGroup _ _ _ _) as [m' r].
    rewrite H. split; [done|]. by destruct r.
  - pose proof (abs_AddMember now groupID peerID m) as H. destruct (AddMember _ _ _ _) as [m' r].
    by rewrite H.
  - pose proof (abs_removeMember now groupID peerID m) as H. destruct (removeMember _ _ _ _) as [m' r].
    by rewrite H.
  - pose proof (abs_DeleteGroup groupID m) as H. destruct (DeleteGroup _ _) as [m' r]. by rewrite H.
  - split; [|done]. pose proof (abs_RouteGroupMessage (D:=()) order message None None () m) as H.
    by destruct (RouteGroupMessage _ _ _ _ _ _) as [[m' d] r].
  - split; [|done]. apply abs_MarkMessageSeen.
Qed.

(** ** Routing *)

Lemma is_recipient_eq msg conn p : is_recipient msg conn p = true ↔
  p ≠ msg_SenderID msg ∧ match conn with Some c => default false (c !! p) = true | None => True end.
Proof.
  unfold is_recipient. rewrite andb_true_iff, bool_decide_eq_true. destruct conn; tauto.
Qed.

Lemma route_to_recipients {D} msg conn (f : D → Message → string → D * bool) members d :
  route_to msg conn (Some f) members d =
  route_to msg None (Some f) (recipients msg conn members) d.
Proof.
  revert d. induction members as [|p members IH]; intros d; [done|].
  unfold recipients. rewrite filter_cons. fold (recipients msg conn members).
  case_decide as H; cbn [route_to].
  - apply is_recipient_eq in H as [Hp Hc]. rewrite !decide_False by done.
    destruct conn as [c|]; [rewrite Hc; cbn [negb]|]; destruct (f d msg p); by rewrite IH.
  - rewrite is_recipient_eq in H. case_decide; [apply IH|].
    destruct conn as [c|]; [|tauto]. destruct (default false (c !! p)); [tauto|apply IH].
Qed.

(** A callback that logs its calls sees the recipients in order, and what it
    reports decides who is listed. *)
Lemma route_to_log msg (ok : string → bool) l log :
  Forall (λ p, p ≠ msg_SenderID msg) l →
  route_to msg None (Some (logging ok)) l log =
  (log ++ ((λ p, (msg, p)) <$> l), filter (λ p, ok p = true) l).
Proof.
  revert log. induction l as [|p l IH]; intros log Hl; [by rewrite app_nil_r|].
  apply Forall_cons in Hl as [Hp Hl]. cbn [route_to]. rewrite decide_False by done.
  change (logging ok log msg p) with (log ++ [(msg, p)], ok p). cbv beta iota.
  rewrite IH by done. rewrite filter_cons, <- app_assoc. cbn [fmap list_fmap app].
  destruct (ok p); [by rewrite decide_True|by rewrite decide_False].
Qed.

Lemma recipients_not_sender msg conn l : Forall (λ p, p ≠ msg_SenderID msg) (recipients msg conn l).
Proof.
  apply Forall_forall. intros p [H _]%list_elem_of_filter. unfold is_recipient in H.
  apply andb_true_iff in H as [H _]. by apply bool_decide_eq_true in H.
Qed.

Lemma ViewMembers_pruneSeen order id m : trimmed id → id ≠ EmptyString →
  ViewMembers id (pruneSeen order id m) = ViewMembers id m.
Proof. intros Ht Hi. unfold ViewMembers, pruneSeen. by destruct (mgr_seen m !! id). Qed.

(** What a first routing of a message does, on a well-formed manager. *)
Lemma RouteGroupMessage_first {D} order msg conn (f : D → Message → string → D * bool) d m g s :
  wf_manager m → mgr_groups m !! msg_GroupID msg = Some g →
  mgr_seen m !! msg_GroupID msg = Some s → msg_ID msg ∉ s →
  blank (msg_ID msg) = false → blank (msg_SenderID msg) = false →
  RouteGroupMessage order msg conn (Some f) d m =
  let '(d', l) := route_to msg None (Some f)
                    (recipients msg conn (sort_strings (keys (g_Members g)))) d in
  (set_seen (msg_GroupID msg) (prune order ({[msg_ID msg]} ∪ s)) m, d', Ok l).
Proof.
  intros Hm Hg Hs Hi Hb1 Hb2. destruct (wf_lookup _ _ _ Hm Hg) as [_ Ht Hne _ _].
  unfold RouteGroupMessage. rewrite (proj2 (blank_false _)) by (by rewrite Ht).
  rewrite Hb1, Hb2, Hg, Hs. cbn [default]. rewrite decide_False by done.
  unfold pruneSeen. cbn [mgr_seen set_seen]. rewrite lookup_insert_eq.
  unfold ViewMembers. rewrite Ht, decide_False by done. cbn [mgr_groups set_seen]. rewrite Hg.
  rewrite route_to_recipients. destruct (route_to _ _ _ _ _).
  unfold set_seen. cbn [mgr_seen mgr_groups]. by rewrite insert_insert_eq.
Qed.

Lemma RouteGroupMessage_Ok {D} order msg conn deliver (d d' : D) m m' l :
  wf_manager m → RouteGroupMessage order msg conn deliver d m = (m', d', Ok l) →
  ∃ s, mgr_seen m !! msg_GroupID msg = Some s ∧ msg_ID msg ∉ s ∧
    blank (msg_GroupID msg) = false ∧ blank (msg_ID msg) = false ∧
    m' = set_seen (msg_GroupID msg) (prune order ({[msg_ID msg]} ∪ s)) m ∧
    is_Some (mgr_groups m !! msg_GroupID msg).
Proof.
  intros Hm. unfold RouteGroupMessage. do 3 (case_match; [done|]).
  destruct (mgr_groups m !! _) as [g|] eqn:Eg; [|done]. case_decide as Hd; [done|].
  destruct (mgr_seen m !! _) as [s|] eqn:Es; [|done]. intros Heq. exists s.
  split; [done|]. split; [exact Hd|]. do 2 (split; [done|]).
  revert Heq. unfold pruneSeen. cbn [mgr_seen set_seen].
  rewrite lookup_insert_eq. destruct (ViewMembers _ _); [|done].
  destruct (route_to _ _ _ _ _). intros [= <- <- <-].
  split; [|by exists g]. unfold set_seen. cbn [mgr_seen mgr_groups]. by rewrite insert_insert_eq.
Qed.

Lemma exec_no_panic m c : wf_manager m → (exec m c).2 ≠ Err GroupPanic.
Proof.
  intros Hm. destruct c; cbn [exec].
  - unfold CreateGroup. repeat (case_decide; [done|]). by destruct (mgr_groups m !! _).
  - unfold AddMember. repeat (case_decide; [done|]).
    destruct (mgr_groups m !! _) as [g|]; [|done]. by destruct (g_Members g !! _).
  - unfold removeMember. repeat (case_decide; [done|]).
    destruct (mgr_groups m !! _) as [g|]; [|done]. by destruct (g_Members g !! _).
  - unfold DeleteGroup. repeat (case_decide; [done|]). by destruct (mgr_groups m !! _).
  - unfold RouteGroupMessage. do 3 (destruct (blank _); [done|]).
    destruct (mgr_groups m !! _) as [g|] eqn:E; [|done]. case_decide; [done|].
    destruct (wf_seen_lookup _ _ _ Hm E) as (s & -> & _).
    unfold ViewMembers. case_decide; [done|].
    destruct (mgr_groups _ !! TrimSpace _); [|done]. by destruct (route_to _ _ _ _ _).
  - unfold MarkMessageSeen. repeat (case_decide; [done|]). by destruct (mgr_groups m !! _).
Qed.

(** ** Properties *)

Lemma exec_all_reachable cs m : Forall legal_call cs → mgr_reachable m →
  mgr_reachable (exec_all m cs).1.
Proof.
  revert m. induction cs as [|c cs IH]; intros m Hcs Hm; [done|].
  apply Forall_cons in Hcs as [Hc Hcs]. cbn [exec_all].
  pose proof (IH (exec m c).1 Hcs (reachable_step _ _ _ _ Hm (ex_intro _ c (conj Hc eq_refl)))) as H.
  destruct (exec m c) as [m1 r]. cbn [fst] in H. by destruct (exec_all m1 cs).
Qed.

Lemma sample_reachable : mgr_reachable sample_manager.
Proof. apply exec_all_reachable; [repeat constructor|by apply reachable_init]. Qed.

(** Every manager a history of calls can produce is well formed: groups and
    members carry the trimmed, non-empty IDs they are stored under, every group
    has its set of seen messages, and no such set exceeds the cap. *)
Theorem manager_invariant m : mgr_reachable m → wf_manager m.
Proof. apply wf_reachable. Qed.

Lemma manager_invariant_witness : wf_manager sample_manager.
Proof. apply (manager_invariant sample_manager), sample_reachable. Defined.

(** C3: the manager implements the specification by rosters: over any history of
    calls the sets of members evolve as specified, and the calls that may change
    them succeed exactly when the specification says. *)
Theorem manager_refines cs m :
  let '(m', rs) := exec_all m cs in abs_exec_all (abs m) cs = (abs m', rs).
Proof.
  revert m. induction cs as [|c cs IH]; intros m; [done|]. cbn [exec_all abs_exec_all].
  destruct (abs_exec_spec m c) as [H1 H2]. destruct (exec m c) as [m1 r].
  destruct (abs_exec (abs m) c) as [r1 b]. simpl in H1, H2. subst r1. specialize (IH m1).
  destruct (exec_all m1 cs) as [m2 rs]. rewrite IH.
  destruct (changes_roster c); [by rewrite H2|done].
Qed.

(** No history of calls makes the manager write to a [nil] map. *)
Theorem manager_no_panic m c : mgr_reachable m → (exec m c).2 ≠ Err GroupPanic.
Proof. intros Hm%wf_reachable. by apply exec_no_panic. Qed.

Lemma manager_no_panic_witness :
  (exec sample_manager (CallRoute elements sample_group_message)).2 ≠ Err GroupPanic.
Proof. apply (manager_no_panic sample_manager), sample_reachable. Defined.

(** C18: the first routing of a message calls the delivery callback once for each
    member other than the sender that is connected, in the order of their IDs,
    reports the members it succeeded for, and records the message as seen. *)
Theorem routing_delivers order m g s msg conn ok log :
  mgr_reachable m → mgr_groups m !! msg_GroupID msg = Some g →
  mgr_seen m !! msg_GroupID msg = Some s → msg_ID msg ∉ s →
  blank (msg_ID msg) = false → blank (msg_SenderID msg) = false →
  let to := recipients msg conn (sort_strings (keys (g_Members g))) in
  RouteGroupMessage order msg conn (Some (logging ok)) log m =
    (set_seen (msg_GroupID msg) (prune order ({[msg_ID msg]} ∪ s)) m,
     log ++ ((λ p, (msg, p)) <$> to), Ok (filter (λ p, ok p = true) to)) ∧
  (∀ p, p ∈ to ↔ is_Some (g_Members g !! p) ∧ is_recipient msg conn p = true) ∧ NoDup to.
Proof.
  intros Hm Hg Hs Hi Hb1 Hb2 to. apply wf_reachable in Hm. split; [|split].
  - rewrite (RouteGroupMessage_first _ _ _ _ _ _ g s) by done. fold to.
    rewrite route_to_log; [done|]. apply recipients_not_sender.
  - intros p. unfold to, recipients. rewrite list_elem_of_filter, sort_strings_perm, elem_of_keys.
    rewrite elem_of_dom. tauto.
  - apply NoDup_filter, NoDup_sort_strings, NoDup_keys.
Qed.

Lemma routing_delivers_witness :
  let conn : gmap string bool := {["bob" := true]} in
  (RouteGroupMessage elements sample_group_message (Some conn) (Some (logging (λ _, true))) []
     sample_manager).1.2 = [(sample_group_message, "bob")].
Proof.
  intros conn.
  destruct (mgr_groups sample_manager !! "room") as [g|] eqn:Eg; [|by vm_compute in Eg].
  edestruct (routing_delivers elements sample_manager g ∅ sample_group_message (Some conn)
    (λ _, true) []) as [H _];
    [apply sample_reachable|exact Eg|by vm_compute|set_solver|done|done|].
  rewrite H. cbn [fst snd app]. injection Eg as <-. by vm_compute.
Defined.

(** A message routed once is refused as a duplicate as long as its ID is
    kept, which it is while the group's set is below the cap. *)
Theorem routing_once {D} order order' msg conn conn' deliver deliver' (d d' d'' : D) m m' l s :
  mgr_reachable m → mgr_seen m !! msg_GroupID msg = Some s →
  Z.of_nat (size s) < maxSeenPerGroup →
  RouteGroupMessage order msg conn deliver d m = (m', d', Ok l) →
  RouteGroupMessage order' msg conn' deliver' d'' m' =
    (m', d'', Err (ErrDuplicateMessage (msg_ID msg))).
Proof.
  intros Hm Hs Hsz Hr. apply wf_reachable in Hm.
  assert (blank (msg_SenderID msg) = false) as Hb3.
  { revert Hr. unfold RouteGroupMessage. do 2 (destruct (blank _); [done|]). by destruct (blank _). }
  destruct (RouteGroupMessage_Ok _ _ _ _ _ _ _ _ _ Hm Hr)
    as (s' & Hs' & Hi & Hb1 & Hb2 & -> & [g Hg]).
  rewrite Hs in Hs'. injection Hs' as <-.
  pose proof (size_add_bound (msg_ID msg) s).
  rewrite prune_small by (unfold maxSeenPerGroup in *; lia).
  unfold RouteGroupMessage. rewrite Hb1, Hb2, Hb3. cbn [mgr_groups mgr_seen set_seen].
  rewrite Hg, lookup_insert_eq. cbn [default]. rewrite decide_True by set_solver. done.
Qed.

Lemma routing_once_witness :
  let m := (exec sample_manager (CallRoute elements sample_group_message)).1 in
  RouteGroupMessage (D:=()) elements sample_group_message None None () m =
    (m, (), Err (ErrDuplicateMessage "m1")).
Proof.
  eapply (routing_once elements elements sample_group_message None None None None () ()
    () sample_manager _ _ ∅ sample_reachable); by vm_compute.
Defined.

(** The cap bounds the memory of a group but not its protection against
    duplicates: when a full set is pruned after an insertion, which half goes is
    the map's choice, and it can include the message just routed. *)
Theorem prune_may_forget i s : Z.of_nat (size s) = maxSeenPerGroup → i ∉ s →
  ∃ order, map_order order ∧ i ∉ prune order ({[i]} ∪ s) ∧
    Z.of_nat (size (prune order ({[i]} ∪ s))) = 5001.
Proof.
  intros Hs Hi. set (t := {[i]} ∪ s).
  assert (Hsz : Z.of_nat (size t) = 10001).
  { unfold t. rewrite size_union, size_singleton by set_solver. unfold maxSeenPerGroup in Hs. lia. }
  set (order := λ u : gset string, if decide (u = t) then i :: elements s else elements u).
  assert (Ho : map_order order).
  { intros u. unfold order. case_decide as E; [|done]. rewrite E. unfold t.
    by rewrite elements_union_singleton. }
  exists order. split; [done|]. split.
  - unfold prune. rewrite Hsz. change (10001 <=? maxSeenPerGroup) with false. cbv iota.
    change (Z.to_nat (10001 / 2)) with (S (Z.to_nat 4999)). unfold order.
    rewrite decide_True by done. rewrite firstn_cons. cbn [list_to_set]. set_solver.
  - rewrite prune_size by (done || (unfold maxSeenPerGroup; lia)).
    assert (Z.of_nat (size t / 2) = 10001 / 2) by (by rewrite (Nat2Z.inj_div _ 2), Hsz).
    change (10001 / 2) with 5000 in *. lia.
Qed.

Lemma length_full_set : Z.of_nat (length (seq 0 (Z.to_nat 10000))) = maxSeenPerGroup.
Proof. rewrite length_seq. reflexivity. Qed.

#[local] Instance full_id_inj : Inj eq eq full_id.
Proof. intros n k [= H]. by apply (inj pretty) in H. Qed.

Lemma prune_may_forget_witness : ∃ s i order, map_order order ∧ i ∉ prune order ({[i]} ∪ s).
Proof.
  set (s := list_to_set (C:=gset string) (full_id <$> seq 0 (Z.to_nat 10000))).
  destruct (prune_may_forget EmptyString s) as (order & Ho & Hx & _).
  - unfold s. rewrite size_list_to_set; [rewrite length_fmap; apply length_full_set|].
    apply (NoDup_fmap_2 _), NoDup_seq.
  - unfold s. rewrite elem_of_list_to_set, list_elem_of_fmap. by intros (n & H & _).
  - by exists s, EmptyString, order.
Defined.
