(* ===== verification/Persistence.v ===== *)
(** * Restoring the groups

    [internal/groups/persistence.go]: the manager is filled from the tables at
    start-up.  A failure to list the members of one group is logged and leaves
    that group empty. *)

From S2P Require Import Prelude GoStrings GoTime Json Protocol Groups Identity Storage.

Open Scope Z_scope.

(** ** Operations *)

(** [mgr.groups[sg.GroupID] = &Group{...}] with its empty set of seen messages. *)
Definition restore_group (sg : Storage.Group) (m : Manager) : Manager :=
  set_seen (Storage.sg_GroupID sg) ∅
    (set_group (Storage.sg_GroupID sg)
       (mkGroup (Storage.sg_GroupID sg) (Storage.sg_Name sg) ∅ (Storage.sg_CreatedAt sg)
          (Storage.sg_UpdatedAt sg)) m).

(** One turn of the loop over the memberships. *)
Definition restore_member (groupID : string) (mgr : Manager) (m : Storage.GroupMembership) : Manager :=
  if negb (Storage.gms_Active m) then mgr else
  match mgr_groups mgr !! groupID with
  | None => mgr
  | Some group =>
      match g_Members group !! Storage.gms_PeerID m with
      | Some _ => mgr
      | None =>
          set_group groupID
            (mkGroup (g_ID group) (g_Name group)
               (<[Storage.gms_PeerID m := mkMember (Storage.gms_PeerID m) (Storage.gms_JoinedAt m) true
                    (Storage.gms_LastSeen m)]> (g_Members group))
               (g_CreatedAt group) (g_UpdatedAt group)) mgr
      end
  end.

(** The outcome of an operation as a value. *)
Definition attempt {A} (m : Storage.DB A) : Storage.DB (result Storage.db_error A) :=
  λ e w, let '(r, w) := m e w in (Ok r, w).

Fixpoint load_groups (groups : list Storage.Group) (mgr : Manager) : Storage.DB Manager :=
  match groups with
  | [] => mret mgr
  | sg :: rest =>
      match GetGroup (Storage.sg_GroupID sg) mgr with
      | Some _ => load_groups rest mgr
      | None =>
          let mgr := restore_group sg mgr in
          r ← attempt (Storage.ListGroupMembers (Storage.sg_GroupID sg));
          match r with
          | Err _ => load_groups rest mgr
          | Ok members => load_groups rest (foldl (restore_member (Storage.sg_GroupID sg)) mgr members)
          end
      end
  end.

Definition LoadFromStore (mgr : Manager) : Storage.DB Manager :=
  groups ← Storage.ListGroups; load_groups groups mgr.

(** ** Specification *)

(** The active members of a stored group. *)
Definition active_members (d : Storage.Database) (g : string) : gset string :=
  list_to_set (Storage.gms_PeerID <$>
    filter (λ m, Storage.gms_Active m = true) (Storage.scanMembership <$> Storage.member_rows g d)).

(** The rosters after a restart: what the manager had, and the stored groups. *)
Definition restored (d : Storage.Database) (r : roster) : roster :=
  r ∪ set_to_map (λ g, (g, active_members d g)) (dom (Storage.db_groups d)).

Notation wf_db := Storage.wf_database.

(** ** Lemmas *)

Lemma wf_one_group : wf_db (Storage.w_db Storage.one_group).
Proof.
  assert (Storage.keeps wf_db (_ ← Storage.UpsertGroup "room" "Room" 5;
    Storage.SetGroupMembership "room" "bob" 6 true 7)) as H.
  { apply keeps_bind; [apply (wf_run_op (Storage.OpUpsertGroup _ _ _))|].
    intros []. apply (wf_run_op (Storage.OpSetGroupMembership _ _ _ _ _)). }
  apply H. apply wf_empty.
Qed.

Lemma ListGroupMembers_calm e w g : Storage.no_fault e → trimmed g → g ≠ EmptyString →
  ∃ w', Storage.ListGroupMembers g e w =
    (Ok (Storage.scanMembership <$> Storage.member_rows g (Storage.w_db w)), w') ∧
  Storage.w_db w' = Storage.w_db w.
Proof.
  intros He Ht Hg. unfold Storage.ListGroupMembers. rewrite Ht, decide_False by done.
  unfold mbind, Storage.DB_bind. rewrite query_calm by done. by eexists.
Qed.

Lemma elem_of_active_members d g p : p ∈ active_members d g ↔
  ∃ r, Storage.db_memberships d !! (g, p) = Some r ∧ Storage.mr_active r = 1.
Proof.
  unfold active_members. rewrite elem_of_list_to_set, list_elem_of_fmap. split.
  - intros (m & -> & [Ha Hm]%list_elem_of_filter). apply list_elem_of_fmap in Hm as ([[g' q] r] & -> & Hm).
    unfold Storage.member_rows, Storage.order_by in Hm. rewrite merge_sort_Permutation in Hm.
    apply list_elem_of_filter in Hm as [Hg Hm%elem_of_map_to_list]. simpl in Hg. subst g'.
    exists r. split; [done|]. by apply Z.eqb_eq.
  - intros (r & Hr & Ha). exists (Storage.scanMembership ((g, p), r)). split; [done|].
    apply list_elem_of_filter. split; [by apply Z.eqb_eq|]. apply list_elem_of_fmap.
    exists ((g, p), r). split; [done|]. unfold Storage.member_rows, Storage.order_by.
    rewrite merge_sort_Permutation. apply list_elem_of_filter. split; [done|].
    by apply elem_of_map_to_list.
Qed.

Lemma abs_restore_group sg m : abs (restore_group sg m) = <[Storage.sg_GroupID sg := ∅]> (abs m).
Proof.
  unfold restore_group. rewrite abs_set_seen, abs_set_group. unfold roster_of. simpl.
  by rewrite dom_empty_L.
Qed.

Definition active_ids (l : list Storage.GroupMembership) : gset string :=
  list_to_set (Storage.gms_PeerID <$> filter (λ m, Storage.gms_Active m = true) l).

Lemma abs_restore_member g mgr m s : abs mgr !! g = Some s →
  abs (restore_member g mgr m) =
  <[g := (if Storage.gms_Active m then {[Storage.gms_PeerID m]} else ∅) ∪ s]> (abs mgr).
Proof.
  intros Hs. unfold restore_member. destruct (Storage.gms_Active m); cbn [negb].
  - rewrite abs_lookup in Hs. destruct (mgr_groups mgr !! g) as [grp|] eqn:Eg; [|done].
    injection Hs as <-. destruct (g_Members grp !! Storage.gms_PeerID m) eqn:Em.
    + symmetry. apply insert_id. rewrite abs_lookup, Eg. simpl. f_equal. unfold roster_of.
      apply elem_of_dom_2 in Em. set_solver.
    + rewrite abs_set_group. unfold roster_of. simpl. by rewrite dom_insert_L.
  - symmetry. apply insert_id. by rewrite union_empty_l_L.
Qed.

Lemma abs_restore_members g l mgr s : abs mgr !! g = Some s →
  abs (foldl (restore_member g) mgr l) = <[g := active_ids l ∪ s]> (abs mgr).
Proof.
  revert mgr s. induction l as [|m l IH]; intros mgr s Hs; cbn [foldl].
  - symmetry. apply insert_id. rewrite Hs. f_equal. unfold active_ids. set_solver.
  - pose proof (abs_restore_member g mgr m s Hs) as H1.
    rewrite (IH _ ((if Storage.gms_Active m then {[Storage.gms_PeerID m]} else ∅) ∪ s))
      by (by rewrite H1, lookup_insert_eq).
    rewrite H1, insert_insert_eq. f_equal. unfold active_ids. rewrite filter_cons.
    destruct (Storage.gms_Active m); [rewrite decide_True by done|rewrite decide_False by done]; set_solver.
Qed.

(** The rosters the loop over the groups produces. *)
Definition add_group (d : Storage.Database) (r : roster) (g : string) : roster :=
  if decide (g ∈ dom r) then r else <[g := active_members d g]> r.

Lemma load_groups_abs e w l mgr : Storage.no_fault e →
  Forall (λ sg, Storage.key_ok (Storage.sg_GroupID sg)) l →
  ∃ mgr' w', load_groups l mgr e w = (Ok mgr', w') ∧ Storage.w_db w' = Storage.w_db w ∧
    abs mgr' = foldl (add_group (Storage.w_db w)) (abs mgr) (Storage.sg_GroupID <$> l).
Proof.
  intros He. revert w mgr. induction l as [|sg l IH]; intros w mgr Hl.
  - by exists mgr, w.
  - apply Forall_cons in Hl as [[Ht Hne] Hl]. cbn [load_groups fmap list_fmap foldl].
    unfold GetGroup. rewrite Ht. unfold add_group at 2. rewrite abs_dom.
    destruct (mgr_groups mgr !! Storage.sg_GroupID sg) as [g|] eqn:Eg.
    + rewrite decide_True by (by apply elem_of_dom_2 in Eg). by apply IH.
    + rewrite decide_False by (by apply not_elem_of_dom).
      destruct (ListGroupMembers_calm e w (Storage.sg_GroupID sg) He Ht Hne) as (w1 & H1 & Hd1).
      unfold mbind, Storage.DB_bind, attempt. rewrite H1.
      destruct (IH w1 (foldl (restore_member (Storage.sg_GroupID sg)) (restore_group sg mgr)
        (Storage.scanMembership <$> Storage.member_rows (Storage.sg_GroupID sg) (Storage.w_db w))) Hl)
        as (mgr' & w' & H2 & Hd2 & Ha). rewrite H2.
      exists mgr', w'. split; [done|]. split; [by rewrite Hd2|]. rewrite Ha, Hd1. f_equal.
      rewrite (abs_restore_members _ _ _ ∅), abs_restore_group, insert_insert_eq.
      2: by rewrite abs_restore_group, lookup_insert_eq.
      f_equal. unfold active_ids, active_members. set_solver.
Qed.

Lemma foldl_add_group d l r :
  ∀ g, foldl (add_group d) r l !! g =
    match r !! g with
    | Some s => Some s
    | None => if decide (g ∈ l) then Some (active_members d g) else None
    end.
Proof.
  revert r. induction l as [|x l IH]; intros r g; cbn [foldl].
  - by destruct (r !! g).
  - rewrite IH. unfold add_group. case_decide as Hx.
    + destruct (r !! g) eqn:Eg; [done|].
      assert (g ≠ x) by (intros ->; apply elem_of_dom in Hx as [? Hx]; by rewrite Eg in Hx).
      destruct (decide (g ∈ l)); [rewrite decide_True by set_solver|rewrite decide_False by set_solver]; done.
    + destruct (decide (g = x)) as [->|Hne].
      * rewrite lookup_insert_eq. apply not_elem_of_dom in Hx. rewrite Hx.
        by rewrite decide_True by set_solver.
      * rewrite lookup_insert_ne by done. destruct (r !! g); [done|].
        destruct (decide (g ∈ l)); [rewrite decide_True by set_solver|rewrite decide_False by set_solver]; done.
Qed.

Lemma lookup_restored d r g : restored d r !! g =
  match r !! g with
  | Some s => Some s
  | None => if decide (g ∈ dom (Storage.db_groups d)) then Some (active_members d g) else None
  end.
Proof.
  unfold restored. rewrite lookup_union.
  assert (set_to_map (C:=gset string) (λ g, (g, active_members d g)) (dom (Storage.db_groups d)) !! g =
    (if decide (g ∈ dom (Storage.db_groups d)) then Some (active_members d g) else None)) as ->.
  { apply option_eq. intros s. rewrite lookup_set_to_map by done. case_decide; naive_solver. }
  destruct (r !! g); [apply union_Some_l|]. by rewrite (left_id_L None _).
Qed.

Lemma ListGroups_calm e w : Storage.no_fault e →
  ∃ w' l, Storage.ListGroups e w = (Ok l, w') ∧ Storage.w_db w' = Storage.w_db w ∧
    ∀ g, g ∈ Storage.sg_GroupID <$> l ↔ g ∈ dom (Storage.db_groups (Storage.w_db w)).
Proof.
  intros He. unfold Storage.ListGroups, mbind, Storage.DB_bind. rewrite query_calm by done.
  eexists _, _. split; [done|]. split; [done|]. intros g.
  rewrite <- list_fmap_compose, list_elem_of_fmap, elem_of_dom. unfold Storage.order_by.
  split.
  - intros ([g' r] & -> & H). rewrite merge_sort_Permutation in H.
    apply elem_of_map_to_list in H. by exists r.
  - intros [r H]. exists (g, r). split; [done|]. rewrite merge_sort_Permutation. by apply elem_of_map_to_list.
Qed.

(** ** Well-formedness, also when statements are refused *)

Lemma query_Ok {A} o i (f : Storage.Database → list A) e w l w' :
  Storage.query o i f e w = (Ok l, w') →
  l = f (Storage.w_db w) ∧ Storage.w_db w' = Storage.w_db w.
Proof.
  unfold Storage.query. intros (l1 & w1 & H1%exec_Ok & ([] & w2 & H2%exec_Ok & H3)%bind_Ok)%bind_Ok.
  injection H1 as <- H1. injection H2 as H2. injection H3 as <- <-. by rewrite <- H2, <- H1.
Qed.

Lemma ListGroupMembers_rows g e w r w' : Storage.ListGroupMembers g e w = (r, w') →
  Storage.w_db w' = Storage.w_db w ∧
  match r with
  | Ok l => l = Storage.scanMembership <$> Storage.member_rows (TrimSpace g) (Storage.w_db w)
  | Err _ => True
  end.
Proof.
  intros H. assert (Hd : Storage.w_db w' = Storage.w_db w).
  { change w' with (r, w').2. rewrite <- H. apply reads_keeps. intros P. apply queries_read. }
  split; [done|]. destruct r as [l|]; [|done]. revert H. unfold Storage.ListGroupMembers.
  case_decide; [done|]. intros (rows & w1 & H1%query_Ok & H2)%bind_Ok. injection H2 as <- _.
  by destruct H1 as [-> _].
Qed.

Lemma scanned_groups_ok d l : wf_db d → l = Storage.scanGroup <$> Storage.order_by fst (map_to_list (Storage.db_groups d)) →
  Forall (λ sg, Storage.key_ok (Storage.sg_GroupID sg) ∧ Storage.key_ok (Storage.sg_Name sg)) l.
Proof.
  intros Hd ->. apply Forall_forall. intros sg ([g r] & -> & H)%list_elem_of_fmap.
  unfold Storage.order_by in H. rewrite merge_sort_Permutation in H. apply elem_of_map_to_list in H.
  simpl. by apply (Storage.wfd_groups _ Hd).
Qed.

Lemma scanned_members_ok d g : wf_db d →
  Forall (λ m, Storage.key_ok (Storage.gms_PeerID m)) (Storage.scanMembership <$> Storage.member_rows g d).
Proof.
  intros Hd. apply Forall_forall. intros m ([[g' p] r] & -> & H)%list_elem_of_fmap.
  unfold Storage.member_rows, Storage.order_by in H. rewrite merge_sort_Permutation in H.
  apply list_elem_of_filter in H as [_ H%elem_of_map_to_list]. simpl.
  destruct (Storage.wfd_members _ Hd _ _ _ H) as (_ & [q Hq] & _).
  exact (proj1 (Storage.wfd_peers _ Hd _ _ Hq)).
Qed.

Lemma wf_restore_group sg m : wf_manager m → Storage.key_ok (Storage.sg_GroupID sg) →
  Storage.key_ok (Storage.sg_Name sg) → wf_manager (restore_group sg m).
Proof.
  intros [Hg Hd Hs] [Ht Hne] [Htn Hnn]. split; simpl.
  - apply map_Forall_insert_2; [|done]. split; simpl; done || apply map_Forall_empty.
  - by rewrite !dom_insert_L, Hd.
  - apply map_Forall_insert_2; [|done]. rewrite size_empty. by vm_compute.
Qed.

Lemma wf_restore_members g l m : wf_manager m → Forall (λ x, Storage.key_ok (Storage.gms_PeerID x)) l →
  wf_manager (foldl (restore_member g) m l).
Proof.
  intros Hm Hl. revert m Hm. induction Hl as [|x l [Ht Hne] Hl IH]; intros m Hm; [done|].
  cbn [foldl]. apply IH. unfold restore_member. destruct (Storage.gms_Active x); [|done].
  destruct (mgr_groups m !! g) as [grp|] eqn:Eg; [|done].
  destruct (g_Members grp !! _) eqn:Em; [done|]. cbn [negb].
  destruct (wf_lookup _ _ _ Hm Eg). apply wf_set_group; [done|by exists grp|].
  split; simpl; try done. by apply map_Forall_insert_2.
Qed.

Lemma load_groups_wf e w l mgr mgr' w' : wf_db (Storage.w_db w) → wf_manager mgr →
  Forall (λ sg, Storage.key_ok (Storage.sg_GroupID sg) ∧ Storage.key_ok (Storage.sg_Name sg)) l →
  load_groups l mgr e w = (Ok mgr', w') → wf_manager mgr'.
Proof.
  intros Hd Hm Hl. revert w mgr Hd Hm. induction Hl as [|sg l [Hk Hn] Hl IH]; intros w mgr Hd Hm.
  - by intros [= <- _].
  - cbn [load_groups]. destruct (GetGroup _ mgr); [by apply IH|].
    unfold mbind, Storage.DB_bind, attempt.
    destruct (Storage.ListGroupMembers (Storage.sg_GroupID sg) e w) as [r w1] eqn:E.
    apply ListGroupMembers_rows in E as [Hw1 E]. pose proof (wf_restore_group sg mgr Hm Hk Hn) as Hr.
    destruct r as [ms|]; [|apply IH; [by rewrite Hw1|done]].
    apply IH; [by rewrite Hw1|]. apply wf_restore_members; [done|]. rewrite E.
    by apply scanned_members_ok.
Qed.

Lemma load_groups_known e w l mgr :
  Forall (λ sg, Storage.key_ok (Storage.sg_GroupID sg) ∧ Storage.sg_GroupID sg ∈ dom (abs mgr)) l →
  load_groups l mgr e w = (Ok mgr, w).
Proof.
  induction 1 as [|sg l [[Ht _] Hd] _ IH]; [done|]. cbn [load_groups]. unfold GetGroup. rewrite Ht.
  rewrite abs_dom in Hd. apply elem_of_dom in Hd as [g ->]. exact IH.
Qed.

Lemma LoadFromStore_calm e w mgr : Storage.no_fault e → wf_db (Storage.w_db w) →
  ∃ mgr' w', LoadFromStore mgr e w = (Ok mgr', w') ∧ Storage.w_db w' = Storage.w_db w ∧
    abs mgr' = restored (Storage.w_db w) (abs mgr).
Proof.
  intros He Hwf. destruct (ListGroups_calm e w He) as (w1 & l & H1 & Hd1 & Hl).
  assert (Hk : Forall (λ sg, Storage.key_ok (Storage.sg_GroupID sg)) l).
  { apply Forall_forall. intros sg Hsg.
    assert (Storage.sg_GroupID sg ∈ dom (Storage.db_groups (Storage.w_db w))) as [r Hr]%elem_of_dom
      by (apply Hl, list_elem_of_fmap; by exists sg).
    by apply (Storage.wfd_groups _ Hwf) in Hr as [? _]. }
  destruct (load_groups_abs e w1 l mgr He Hk) as (mgr' & w' & H2 & Hd2 & Ha).
  exists mgr', w'. unfold LoadFromStore, mbind, Storage.DB_bind. rewrite H1.
  split; [done|]. split; [by rewrite Hd2|]. apply map_eq. intros g.
  rewrite Ha, foldl_add_group, lookup_restored, Hd1. destruct (abs mgr !! g); [done|].
  destruct (decide (g ∈ dom (Storage.db_groups (Storage.w_db w)))) as [Hg|Hg].
  - by rewrite decide_True by (by apply Hl).
  - by rewrite decide_False by (by rewrite Hl).
Qed.

(** ** Properties *)

(** After a restart the manager has, besides the groups it had, every stored
    group with exactly its active members. *)
Theorem restart_restores e w mgr : Storage.no_fault e → wf_db (Storage.w_db w) →
  ∃ mgr' w', LoadFromStore mgr e w = (Ok mgr', w') ∧ Storage.w_db w' = Storage.w_db w ∧
    (∀ g p, (∃ s, abs mgr' !! g = Some s ∧ p ∈ s) ↔
       (∃ s, abs mgr !! g = Some s ∧ p ∈ s) ∨
       (abs mgr !! g = None ∧ ∃ r, Storage.db_memberships (Storage.w_db w) !! (g, p) = Some r ∧
          Storage.mr_active r = 1)) ∧
    dom (abs mgr') = dom (abs mgr) ∪ dom (Storage.db_groups (Storage.w_db w)).
Proof.
  intros He Hwf. destruct (LoadFromStore_calm e w mgr He Hwf) as (mgr' & w' & H & Hd & Ha).
  exists mgr', w'. split; [done|]. split; [done|]. split.
  - intros g p. rewrite Ha, lookup_restored. destruct (abs mgr !! g) as [s|] eqn:E.
    { split; [by left|]. intros [?|[? _]]; done. }
    split.
    + intros (s & Hs & Hp). right. split; [done|]. case_decide; [|done]. injection Hs as <-.
      by apply elem_of_active_members.
    + intros [(s & Hs & _)|(_ & r & Hr & Hact)]; [done|].
      assert (g ∈ dom (Storage.db_groups (Storage.w_db w))).
      { apply elem_of_dom. by destruct (Storage.wfd_members _ Hwf _ _ _ Hr). }
      rewrite decide_True by done. eexists. split; [done|]. apply elem_of_active_members. eauto.
  - apply set_eq. intros g. rewrite elem_of_union, !elem_of_dom, Ha, lookup_restored.
    destruct (abs mgr !! g); [naive_solver|]. case_decide as Hg; [apply elem_of_dom in Hg; naive_solver|].
    rewrite elem_of_dom in Hg. naive_solver.
Qed.

Lemma restart_restores_witness : ∃ mgr',
  (LoadFromStore NewManager Storage.calm Storage.one_group).1 = Ok mgr' ∧
  ∃ s, abs mgr' !! "room" = Some s ∧ "bob" ∈ s.
Proof.
  destruct (restart_restores Storage.calm Storage.one_group NewManager) as (mgr' & w' & H & _ & Hm & _).
  - done.
  - apply wf_one_group.
  - exists mgr'. rewrite H. split; [done|]. apply Hm. right. split; [done|].
    eexists. split; vm_compute; reflexivity.
Defined.

(** Restoring keeps the manager well formed whatever statements the driver
    refuses, and restoring a second time changes nothing. *)
Theorem restart_wf_idempotent e e' w w' mgr mgr' : wf_db (Storage.w_db w) → wf_manager mgr →
  LoadFromStore mgr e w = (Ok mgr', w') →
  wf_manager mgr' ∧
  (Storage.no_fault e → Storage.no_fault e' → (LoadFromStore mgr' e' w').1 = Ok mgr').
Proof.
  intros Hwf Hm H. split.
  - unfold LoadFromStore in H. apply bind_Ok in H as (l & w1 & H1 & H2).
    unfold Storage.ListGroups in H1. apply bind_Ok in H1 as (rows & w2 & H1 & H3).
    apply query_Ok in H1 as [Hrows Hd]. injection H3 as <- <-.
    eapply (load_groups_wf e w2); [by rewrite Hd|done| |done].
    apply (scanned_groups_ok (Storage.w_db w)); [done|by rewrite Hrows].
  - intros He He'. destruct (LoadFromStore_calm e w mgr He Hwf) as (m1 & w1 & H1 & Hd & Ha).
    rewrite H in H1. injection H1 as <- <-.
    destruct (ListGroups_calm e' w' He') as (w2 & l & H2 & Hd2 & Hl).
    unfold LoadFromStore, mbind, Storage.DB_bind. rewrite H2.
    rewrite load_groups_known; [done|]. apply Forall_forall. intros sg Hsg.
    assert (Hg : Storage.sg_GroupID sg ∈ dom (Storage.db_groups (Storage.w_db w))).
    { rewrite <- Hd. apply Hl, list_elem_of_fmap. by exists sg. }
    split.
    + apply elem_of_dom in Hg as [r Hr]. by apply (Storage.wfd_groups _ Hwf) in Hr as [? _].
    + apply elem_of_dom. rewrite Ha, lookup_restored. destruct (abs mgr !! _); [eauto|].
      rewrite decide_True by done. eauto.
Qed.

Lemma restart_wf_idempotent_witness : ∃ mgr' w',
  LoadFromStore NewManager Storage.calm Storage.one_group = (Ok mgr', w') ∧ wf_manager mgr'.
Proof.
  destruct (LoadFromStore_calm Storage.calm Storage.one_group NewManager) as (mgr' & w' & H & _);
    [done|apply wf_one_group|].
  exists mgr', w'. split; [done|].
  exact (proj1 (restart_wf_idempotent Storage.calm Storage.calm _ w' NewManager mgr'
    wf_one_group wf_NewManager H)).
Defined.
