(* ===== verification/Chat.v ===== *)
(** * The chat service

    [internal/chat]: the service between the user interface and the network,
    the store and the group manager.  An operation is a function on the state
    of the service; the environment gives the clock and the refusals of the
    database, the peers that are connected, and the outcome of each send.  The
    libp2p peer ID codec and the local libp2p ID are parameters. *)

From S2P Require Import Prelude GoStrings GoTime Json Protocol Identity Storage Groups Persistence.

Open Scope Z_scope.

Module Chat.

(** ** Types ([types.go], [events.go]) *)

Inductive ConversationType : Type := ConversationDirect | ConversationGroup.

Record Conversation : Type := mkConversation {
  cv_ID : string; cv_Name : string; cv_Type : ConversationType;
  cv_LastMessage : string; cv_LastAt : Time
}.

Record DisplayMessage : Type := mkDisplay {
  dm_ID : string; dm_SenderID : string; dm_SenderName : string; dm_Body : string;
  dm_Timestamp : Time; dm_IsOutbound : bool
}.

Record Peer : Type := mkChatPeer {
  cp_PeerID : string; cp_DisplayName : string; cp_Connected : bool; cp_LastSeen : Time
}.

Record GroupInfo : Type := mkGroupInfo {
  gi_GroupID : string; gi_Name : string; gi_MemberCount : nat; gi_CreatedAt : Time
}.

Inductive ConnectionStatus : Type := StatusDisconnected | StatusConnecting | StatusConnected.

Definition status_String (s : ConnectionStatus) : string :=
  match s with
  | StatusConnecting => "Connecting"
  | StatusConnected => "Connected"
  | StatusDisconnected => "Disconnected"
  end.

(** The service itself publishes new messages, connected peers and changes of
    status. *)
Inductive Event : Type :=
  | EventNewMessage (conversationID : string) (message : DisplayMessage)
  | EventPeerConnected
  | EventPeerDisconnected
  | EventStatusChanged (status : ConnectionStatus)
  | EventError (err : option string).

#[global] Instance ConnectionStatus_eq_dec : EqDecision ConnectionStatus.
Proof. solve_decision. Defined.
#[global] Instance DisplayMessage_eq_dec : EqDecision DisplayMessage.
Proof. solve_decision. Defined.
#[global] Instance Event_eq_dec : EqDecision Event.
Proof. solve_decision. Defined.

Inductive service_error : Type :=
  | SvGroup (e : group_error)
  | SvStore (op : string) (e : Storage.db_error)
  | SvResolve (peerID : string)
  | SvSend
  | ErrTooManySubscribers.

(** ** State ([p2p_service.go]) *)

Definition subscriberBuf : nat := 64.
Definition maxSubs : nat := 16.
Definition maxPeerIDLen : Z := 512.

(** A Go channel of events: what waits in its buffer, and whether it is closed. *)
Record Chan : Type := mkChan { ch_buf : list Event; ch_closed : bool }.

Record Service : Type := mkService {
  sv_groups : Manager;
  sv_world : Storage.World;
  sv_names : gmap string string;
  sv_chans : gmap nat Chan;
  sv_subs : list nat;
  sv_status : ConnectionStatus;
  sv_lastCount : nat;
  sv_sent : list (string * Message);
  (** a send on a closed channel has happened *)
  sv_panic : bool
}.

Record SEnv : Type := mkSEnv {
  se_env : Storage.Env;
  (** the local identity, and the text of its libp2p ID if it has one *)
  se_local : Identity.Identity;
  se_lp2p : option string;
  (** [libp2ppeer.Decode], as the text of the ID it yields *)
  se_decode : string → option string;
  (** the connected peers, and whether a send succeeds, at each step *)
  se_connected : nat → list string;
  se_send : nat → bool
}.

Definition with_manager f s := mkService (f (sv_groups s)) (sv_world s) (sv_names s) (sv_chans s)
  (sv_subs s) (sv_status s) (sv_lastCount s) (sv_sent s) (sv_panic s).
Definition with_world w s := mkService (sv_groups s) w (sv_names s) (sv_chans s)
  (sv_subs s) (sv_status s) (sv_lastCount s) (sv_sent s) (sv_panic s).
Definition with_names f s := mkService (sv_groups s) (sv_world s) (f (sv_names s)) (sv_chans s)
  (sv_subs s) (sv_status s) (sv_lastCount s) (sv_sent s) (sv_panic s).
Definition with_chans c l s := mkService (sv_groups s) (sv_world s) (sv_names s) c
  l (sv_status s) (sv_lastCount s) (sv_sent s) (sv_panic s).
Definition with_status x n s := mkService (sv_groups s) (sv_world s) (sv_names s) (sv_chans s)
  (sv_subs s) x n (sv_sent s) (sv_panic s).
Definition with_sent f s := mkService (sv_groups s) (sv_world s) (sv_names s) (sv_chans s)
  (sv_subs s) (sv_status s) (sv_lastCount s) (f (sv_sent s)) (sv_panic s).
Definition with_panic b s := mkService (sv_groups s) (sv_world s) (sv_names s) (sv_chans s)
  (sv_subs s) (sv_status s) (sv_lastCount s) (sv_sent s) (b || sv_panic s).

Definition NewP2PService (w : Storage.World) (m : Manager) : Service :=
  mkService m w ∅ ∅ [] StatusConnecting 0 [] false.

(** ** The service monad *)

Definition SV (A : Type) : Type := SEnv → Service → A * Service.

#[global] Instance SV_ret : MRet SV := λ A a e s, (a, s).
#[global] Instance SV_bind : MBind SV := λ A B f m e s, let '(a, s) := m e s in f a e s.

(** Advances the step that indexes the environment. *)
Definition tick (w : Storage.World) : Storage.World :=
  Storage.mkWorld (Storage.w_db w) (S (Storage.w_step w)).
Definition step_of (s : Service) : nat := Storage.w_step (sv_world s).

Definition store {A} (m : Storage.DB A) : SV (result Storage.db_error A) := λ e s,
  let '(r, w) := m (se_env e) (sv_world s) in (r, with_world w s).

(** [time.Now().UTC()]. *)
Definition clock : SV Time := λ e s,
  (Storage.env_clock (se_env e) (step_of s), with_world (tick (sv_world s)) s).

(** A call of the group manager at the current time. *)
Definition manager {R} (f : Time → Manager → Manager * R) : SV R := λ e s,
  let t := Storage.env_clock (se_env e) (step_of s) in
  let '(m, r) := f t (sv_groups s) in
  (r, with_manager (λ _, m) (with_world (tick (sv_world s)) s)).

Definition asks {A} (f : SEnv → Service → A) : SV A := λ e s, (f e s, s).

Definition ConnectedPeers : SV (list string) := λ e s,
  (se_connected e (step_of s), with_world (tick (sv_world s)) s).

(** [s.host.SendMessage(s.ctx, libID, msg)]. *)
Definition host_send (libID : string) (m : Message) : SV bool := λ e s,
  let ok := se_send e (step_of s) in
  (ok, with_world (tick (sv_world s)) (if ok then with_sent (λ l, l ++ [(libID, m)]) s else s)).

(** ** Subscribers *)

(** [select { case ch <- ev: default: }] on each subscriber.  A send on a closed
    channel panics, which the state records. *)
Definition offer (ev : Event) (c : Chan) : Chan :=
  if (length (ch_buf c) <? subscriberBuf)%nat then mkChan (ch_buf c ++ [ev]) (ch_closed c) else c.

Fixpoint publish_to (ev : Event) (subs : list nat) (chans : gmap nat Chan) : gmap nat Chan * bool :=
  match subs with
  | [] => (chans, false)
  | i :: rest =>
      match chans !! i with
      | None => publish_to ev rest chans
      | Some c => if ch_closed c then (chans, true) else publish_to ev rest (<[i := offer ev c]> chans)
      end
  end.

Definition publish (ev : Event) : SV () := λ e s,
  let '(chans, panic) := publish_to ev (sv_subs s) (sv_chans s) in
  ((), with_panic panic (with_chans chans (sv_subs s) s)).

(** A fresh channel. *)
Definition new_chan (s : Service) : nat := fresh (dom (sv_chans s) : gset nat).

(** [Subscribe] returns a channel, closed at once when the cap is reached. *)
Definition Subscribe : SV nat := λ e s,
  let i := new_chan s in
  if (maxSubs <=? length (sv_subs s))%nat
  then (i, with_chans (<[i := mkChan [] true]> (sv_chans s)) (sv_subs s) s)
  else (i, with_chans (<[i := mkChan [] false]> (sv_chans s)) (sv_subs s ++ [i]) s).

Definition SubscribeE : SV (result service_error nat) := λ e s,
  let i := new_chan s in
  if (maxSubs <=? length (sv_subs s))%nat then (Err ErrTooManySubscribers, s)
  else (Ok i, with_chans (<[i := mkChan [] false]> (sv_chans s)) (sv_subs s ++ [i]) s).

Definition close_chan (c : Chan) : Chan := mkChan (ch_buf c) true.

(** The first occurrence of the channel is removed and the channel closed. *)
Fixpoint remove_first (i : nat) (l : list nat) : list nat :=
  match l with
  | [] => []
  | j :: l => if decide (j = i) then l else j :: remove_first i l
  end.

Definition Unsubscribe (i : nat) : SV () := λ e s,
  if decide (i ∈ sv_subs s)
  then ((), with_chans (alter close_chan i (sv_chans s)) (remove_first i (sv_subs s)) s)
  else ((), s).

Definition Close : SV () := λ e s,
  ((), with_chans (foldr (alter close_chan) (sv_chans s) (sv_subs s)) [] s).

(** A receive by the subscriber, and what it gets: an event, nothing yet, or the
    end of a closed channel. *)
Inductive received : Type := Received (ev : Event) | Blocked | ChanClosed.

Definition receive (i : nat) : SV received := λ e s,
  match sv_chans s !! i with
  | None => (Blocked, s)
  | Some c =>
      match ch_buf c with
      | ev :: rest => (Received ev, with_chans (<[i := mkChan rest (ch_closed c)]> (sv_chans s)) (sv_subs s) s)
      | [] => (if ch_closed c then ChanClosed else Blocked, s)
      end
  end.

(** ** Names *)

Definition shortID (id : string) : string :=
  if slen id <=? 8 then id else take_s 8 id +:+ "…".

Definition displayName (peerID storedName : string) : string :=
  if decide (storedName ≠ EmptyString ∧ storedName ≠ peerID) then storedName else shortID peerID.

Definition getPeerName (peerID : string) (s : Service) : string :=
  match sv_names s !! peerID with
  | Some name => if decide (name = EmptyString) then shortID peerID else name
  | None => shortID peerID
  end.

Definition setPeerName (peerID name : string) : SV () := λ e s, ((), with_names <[peerID := name]> s).

Definition local_id (e : SEnv) : string := Identity.id_PeerID (se_local e).

(** The ID messages are sent under: the libp2p ID when there is one. *)
Definition sender_id (e : SEnv) : string := default (local_id e) (se_lp2p e).

Definition storedToDisplay (e : SEnv) (s : Service) (sm : Storage.StoredMessage) : DisplayMessage :=
  let m := Storage.stored_Message sm in
  let own := bool_decide (msg_SenderID m = local_id e) ||
             match se_lp2p e with
             | Some id => negb (bool_decide (id = EmptyString)) && bool_decide (msg_SenderID m = id)
             | None => false
             end in
  mkDisplay (msg_ID m) (msg_SenderID m) (if own then "You" else getPeerName (msg_SenderID m) s)
    (msg_Body m) (msg_Timestamp m)
    (bool_decide (Storage.stored_Direction sm = Storage.DirectionOutbound)).

Definition toDisplayMessages (l : list Storage.StoredMessage) : SV (list DisplayMessage) :=
  asks (λ e s, storedToDisplay e s <$> l).

Definition ConnectedPeerCount : SV nat := l ← ConnectedPeers; mret (length l).

Definition ConnectionStatus_sv : SV ConnectionStatus := asks (λ _ s, sv_status s).

Definition LocalIdentity : SV Identity.Identity := asks (λ e _, se_local e).

Definition connectedSet : SV (gset string) := l ← ConnectedPeers; mret (list_to_set l).

Definition skallToLibP2P (skallPeerID : string) : SV (option string) :=
  asks (λ e _, se_decode e skallPeerID).

(** ** Queries *)

Definition last_of (msgs : list Storage.StoredMessage) (at_ : Time) : string * Time :=
  match msgs with
  | [] => (EmptyString, at_)
  | sm :: _ => (msg_Body (Storage.stored_Message sm), msg_Timestamp (Storage.stored_Message sm))
  end.

Definition result_list {E A} (r : result E (list A)) : list A :=
  match r with Ok l => l | Err _ => [] end.

Fixpoint direct_conversations (peers : list Storage.Peer) : SV (list Conversation) :=
  match peers with
  | [] => mret []
  | p :: rest =>
      ids ← asks (λ e _, (local_id e, default EmptyString (se_lp2p e)));
      let '(local, myLibPID) := ids in
      if decide (Storage.peer_PeerID p = local ∨
                 (myLibPID ≠ EmptyString ∧ Storage.peer_PeerID p = myLibPID))
      then direct_conversations rest else
      r ← store (Storage.ListDirectConversation myLibPID (Storage.peer_PeerID p) 1);
      msgs ← (if decide (result_list r = [] ∧ myLibPID ≠ local)
              then r2 ← store (Storage.ListDirectConversation local (Storage.peer_PeerID p) 1);
                   mret (result_list r2)
              else mret (result_list r));
      let '(lastMsg, lastAt) := last_of msgs (Storage.peer_LastSeen p) in
      convs ← direct_conversations rest;
      mret (mkConversation (Storage.peer_PeerID p)
              (displayName (Storage.peer_PeerID p) (Storage.peer_DisplayName p))
              ConversationDirect lastMsg lastAt :: convs)
  end.

Fixpoint group_conversations (ids : list string) : SV (list Conversation) :=
  match ids with
  | [] => mret []
  | gID :: rest =>
      og ← asks (λ _ s, GetGroup gID (sv_groups s));
      match og with
      | None => group_conversations rest
      | Some g =>
          r ← store (Storage.ListGroupConversation gID 1);
          let '(lastMsg, lastAt) := last_of (result_list r) (g_CreatedAt g) in
          convs ← group_conversations rest;
          mret (mkConversation gID (g_Name g) ConversationGroup lastMsg lastAt :: convs)
      end
  end.

Definition ListConversations : SV (result service_error (list Conversation)) :=
  r ← store Storage.ListPeers;
  match r with
  | Err x => mret (Err (SvStore "list peers" x))
  | Ok peers =>
      direct ← direct_conversations peers;
      grpIDs ← asks (λ _ s, ListGroups (sv_groups s));
      group ← group_conversations grpIDs;
      mret (Ok (direct ++ group))
  end.

Definition group_info (m : Manager) (id : string) : option GroupInfo :=
  g ← GetGroup id m;
  Some (mkGroupInfo (g_ID g) (g_Name g) (size (g_Members g)) (g_CreatedAt g)).

Definition ListGroups_sv : SV (result service_error (list GroupInfo)) :=
  asks (λ _ s, Ok (omap (group_info (sv_groups s)) (ListGroups (sv_groups s)))).

Definition ListPeers_sv : SV (result service_error (list Peer)) :=
  r ← store Storage.ListPeers;
  match r with
  | Err x => mret (Err (SvStore EmptyString x))
  | Ok stored =>
      connected ← connectedSet;
      local ← asks (λ e _, local_id e);
      mret (Ok ((λ p, mkChatPeer (Storage.peer_PeerID p)
                        (displayName (Storage.peer_PeerID p) (Storage.peer_DisplayName p))
                        (bool_decide (Storage.peer_PeerID p ∈ connected)) (Storage.peer_LastSeen p))
                <$> filter (λ p, Storage.peer_PeerID p ≠ local) stored))
  end.

Definition GetMessages (conversationID : string) (limit : Z)
  : SV (result service_error (list DisplayMessage)) :=
  let limit := if limit <=? 0 then 100 else limit in
  og ← asks (λ _ s, GetGroup conversationID (sv_groups s));
  match og with
  | Some _ =>
      r ← store (Storage.ListGroupConversation conversationID limit);
      match r with
      | Err x => mret (Err (SvStore EmptyString x))
      | Ok msgs => l ← toDisplayMessages msgs; mret (Ok l)
      end
  | None =>
      ids ← asks (λ e _, (local_id e, sender_id e));
      let '(local, myID) := ids in
      r ← store (Storage.ListDirectConversation myID conversationID limit);
      msgs ← (if decide (result_list r = [] ∧ myID ≠ local)
              then r2 ← store (Storage.ListDirectConversation local conversationID limit);
                   mret (result_list r2)
              else mret (result_list r));
      match r, msgs with
      | Err x, [] => mret (Err (SvStore EmptyString x))
      | _, _ => l ← toDisplayMessages msgs; mret (Ok l)
      end
  end.

(** ** Sending *)

(** The error of persisting an outgoing message is only logged. *)
Definition SendDirect (peerID body : string) : SV (result service_error ()) :=
  senderID ← asks (λ e _, sender_id e);
  t ← clock;
  let msg := NewChatMessage t senderID peerID EmptyString body in
  _ ← store (Storage.InsertMessage msg Storage.DirectionOutbound Storage.StatusPending);
  _ ← setPeerName peerID peerID;
  o ← skallToLibP2P peerID;
  match o with
  | None =>
      _ ← store (Storage.UpdateMessageStatus (msg_ID msg) Storage.StatusFailed);
      mret (Err (SvResolve peerID))
  | Some libID =>
      ok ← host_send libID msg;
      if ok : bool then
        _ ← store (Storage.UpdateMessageStatus (msg_ID msg) Storage.StatusSent);
        dm ← asks (λ e s, storedToDisplay e s (Storage.mkStoredMessage msg
                     Storage.DirectionOutbound Storage.StatusSent zeroTime zeroTime));
        _ ← publish (EventNewMessage peerID dm);
        mret (Ok ())
      else
        _ ← store (Storage.UpdateMessageStatus (msg_ID msg) Storage.StatusFailed);
        mret (Err SvSend)
  end.

Fixpoint fan_out (local : string) (connected : gset string) (msg : Message) (members : list string)
  : SV () :=
  match members with
  | [] => mret ()
  | memberID :: rest =>
      if decide (memberID = local) then fan_out local connected msg rest else
      o ← skallToLibP2P memberID;
      match o with
      | None => fan_out local connected msg rest
      | Some libID =>
          if decide (memberID ∉ connected) then fan_out local connected msg rest else
          _ ← host_send libID msg;
          fan_out local connected msg rest
      end
  end.

Definition SendGroup (groupID body : string) : SV (result service_error ()) :=
  local ← asks (λ e _, local_id e);
  r ← manager (λ t m, (m, SendGroupMessage t groupID local body m));
  match r with
  | Err x => mret (Err (SvGroup x))
  | Ok msg =>
      _ ← store (Storage.InsertMessage msg Storage.DirectionOutbound Storage.StatusPending);
      members ← asks (λ _ s, result_list (ViewMembers groupID (sv_groups s)));
      connected ← connectedSet;
      _ ← fan_out local connected msg members;
      _ ← store (Storage.UpdateMessageStatus (msg_ID msg) Storage.StatusSent);
      dm ← asks (λ e s, storedToDisplay e s (Storage.mkStoredMessage msg
                   Storage.DirectionOutbound Storage.StatusSent zeroTime zeroTime));
      _ ← publish (EventNewMessage groupID dm);
      mret (Ok ())
  end.

(** ** Groups, in memory and in the store *)

Definition persisted (op : string) (r : result Storage.db_error ()) : result service_error () :=
  match r with Ok _ => Ok () | Err x => Err (SvStore op x) end.

Definition CreateGroup_sv (groupID name : string) : SV (result service_error ()) :=
  r ← manager (λ t, CreateGroup t groupID name);
  match r with
  | Err x => mret (Err (SvGroup x))
  | Ok g =>
      r ← store (Storage.UpsertGroup (g_ID g) (g_Name g) (g_CreatedAt g));
      mret (persisted "persist group" r)
  end.

Definition JoinGroup (groupID peerID : string) : SV (result service_error ()) :=
  t ← clock;
  r ← manager (λ t, AddMember t groupID peerID);
  match r with
  | Ok _ | Err (ErrMemberAlreadyAdded _) =>
      r ← store (Storage.SetGroupMembership groupID peerID t true t);
      mret (persisted "persist membership" r)
  | Err x => mret (Err (SvGroup x))
  end.

Definition LeaveGroup_sv (groupID peerID : string) : SV (result service_error ()) :=
  r ← manager (λ t, LeaveGroup t groupID peerID);
  match r with
  | Ok _ | Err (ErrMemberNotFound _) =>
      t ← clock;
      r ← store (Storage.SetGroupMembership groupID peerID t false t);
      mret (persisted "persist leave membership" r)
  | Err x => mret (Err (SvGroup x))
  end.

Definition DeleteGroup_sv (groupID : string) : SV (result service_error ()) :=
  r ← manager (λ _, DeleteGroup groupID);
  match r with
  | Ok _ | Err (ErrGroupNotFound _) =>
      r ← store (Storage.DeleteGroup groupID);
      mret (persisted "delete group from store" r)
  | Err x => mret (Err (SvGroup x))
  end.

(** ** The background work *)

(** [handleInbound]: [from] is the authenticated peer. *)
Definition handleInbound (msg : Message) (from : string) : SV () :=
  let senderID := from in
  if maxPeerIDLen <? slen senderID then mret () else
  t ← clock;
  _ ← store (Storage.UpsertPeer senderID senderID t);
  _ ← store (Storage.InsertMessage msg Storage.DirectionInbound Storage.StatusReceived);
  let convID := if decide (msg_GroupID msg ≠ EmptyString) then msg_GroupID msg else senderID in
  name ← asks (λ _ s, getPeerName senderID s);
  _ ← publish (EventNewMessage convID
        (mkDisplay (msg_ID msg) senderID name (msg_Body msg) (msg_Timestamp msg) false));
  mret ().

Fixpoint upsert_connected (peers : list string) : SV () :=
  match peers with
  | [] => mret ()
  | pid :: rest =>
      t ← clock;
      _ ← store (Storage.UpsertPeer pid pid t);
      upsert_connected rest
  end.

(** One tick of [monitorPeers]. *)
Definition monitorPeers : SV () :=
  connectedPeers ← ConnectedPeers;
  let count := length connectedPeers in
  _ ← upsert_connected connectedPeers;
  let newStatus := if (0 <? count)%nat then StatusConnected else StatusConnecting in
  old ← asks (λ _ s, (sv_status s, sv_lastCount s));
  _ ← (λ e s, ((), with_status newStatus count s)) : SV ();
  _ ← (if decide (old.1 ≠ newStatus) then publish (EventStatusChanged newStatus) else mret ());
  _ ← (if decide (old.2 ≠ count) then publish EventPeerConnected else mret ());
  mret ().

(** ** Histories *)

(** What can happen to a running service. *)
Inductive op : Type :=
  | OpSubscribe | OpSubscribeE | OpUnsubscribe (i : nat) | OpReceive (i : nat) | OpClose
  | OpSendDirect (peerID body : string) | OpSendGroup (groupID body : string)
  | OpCreateGroup (groupID name : string) | OpJoinGroup (groupID peerID : string)
  | OpLeaveGroup (groupID peerID : string) | OpDeleteGroup (groupID : string)
  | OpInbound (msg : Message) (from : string) | OpMonitor.

Definition ignore {A} (m : SV A) : SV () := _ ← m; mret ().

Definition run_op (o : op) : SV () :=
  match o with
  | OpSubscribe => ignore Subscribe
  | OpSubscribeE => ignore SubscribeE
  | OpUnsubscribe i => Unsubscribe i
  | OpReceive i => ignore (receive i)
  | OpClose => Close
  | OpSendDirect p b => ignore (SendDirect p b)
  | OpSendGroup g b => ignore (SendGroup g b)
  | OpCreateGroup g n => ignore (CreateGroup_sv g n)
  | OpJoinGroup g p => ignore (JoinGroup g p)
  | OpLeaveGroup g p => ignore (LeaveGroup_sv g p)
  | OpDeleteGroup g => ignore (DeleteGroup_sv g)
  | OpInbound m from => handleInbound m from
  | OpMonitor => monitorPeers
  end.

Fixpoint run_ops (ops : list op) : SV () :=
  match ops with [] => mret () | o :: ops => _ ← run_op o; run_ops ops end.

(** ** Specifications *)

(** The rosters a restart would restore. *)
Definition stored_rosters (d : Storage.Database) : roster := restored d ∅.

(** Memory and store agree. *)
Record in_sync (s : Service) : Prop := {
  is_manager : wf_manager (sv_groups s);
  is_tables : Storage.wf_database (Storage.w_db (sv_world s));
  is_rosters : abs (sv_groups s) = stored_rosters (Storage.w_db (sv_world s))
}.

(** An operation that keeps a property of the state, in environment [e]. *)
Definition holds {A} (e : SEnv) (I : Service → Prop) (m : SV A) : Prop := ∀ s, I s → I (m e s).2.

(** The part of the tables the rosters depend on, and the manager. *)
Definition group_state (s : Service) :=
  (abs (sv_groups s), Storage.db_groups (Storage.w_db (sv_world s)),
   Storage.db_memberships (Storage.w_db (sv_world s))).

(** The channels as the service relies on them: subscribers are open and
    distinct, at most sixteen, and no buffer overflows. *)
Record wf_subs (s : Service) : Prop := {
  ws_open : ∀ i, i ∈ sv_subs s → ∃ c, sv_chans s !! i = Some c ∧ ch_closed c = false;
  ws_nodup : NoDup (sv_subs s);
  ws_cap : (length (sv_subs s) ≤ maxSubs)%nat;
  ws_buf : ∀ i c, sv_chans s !! i = Some c → (length (ch_buf c) ≤ subscriberBuf)%nat;
  ws_safe : sv_panic s = false
}.

(** Alice's service, with a group from which a third member has left. *)
Definition sample_env : SEnv :=
  mkSEnv Storage.calm
    (Identity.mkIdentity 1 "alice" "alice" "Alice" unix_epoch EmptyString EmptyString) None
    (λ p, Some p) (λ _, ["bob"; "carol"]) (λ _, true).
Definition empty_service : Service :=
  NewP2PService (Storage.mkWorld Storage.emptyDatabase 0) NewManager.
Definition sample_ops : list op :=
  [OpCreateGroup "room" "Room"; OpJoinGroup "room" "alice"; OpJoinGroup "room" " bob";
   OpJoinGroup "room" "dave"; OpLeaveGroup "room" "dave"].
Definition room_service : Service := (run_ops sample_ops sample_env empty_service).2.

End Chat.

Import Chat.

(** ** Stored rosters *)

Section Rosters.
Context (e : Storage.Env) (He : Storage.no_fault e).

Lemma lookup_stored d g : stored_rosters d !! g =
  if decide (g ∈ dom (Storage.db_groups d)) then Some (active_members d g) else None.
Proof. unfold stored_rosters. by rewrite lookup_restored, lookup_empty. Qed.

Lemma active_members_ext d d' g : 
  (∀ p, Storage.db_memberships d !! (g, p) = Storage.db_memberships d' !! (g, p)) →
  active_members d g = active_members d' g.
Proof. intros H. apply set_eq. intros p. rewrite !elem_of_active_members. by setoid_rewrite H. Qed.

Lemma stored_ext d d' : Storage.db_groups d = Storage.db_groups d' →
  Storage.db_memberships d = Storage.db_memberships d' → stored_rosters d = stored_rosters d'.
Proof.
  intros Hg Hm. apply map_eq. intros g. rewrite !lookup_stored, Hg.
  case_decide; [|done]. f_equal. apply active_members_ext. by rewrite Hm.
Qed.

Lemma active_members_absent d g : Storage.wf_database d → Storage.db_groups d !! g = None →
  active_members d g = ∅.
Proof.
  intros Hd Hg. apply set_eq. intros p. rewrite elem_of_active_members. split; [|set_solver].
  intros (r & Hr & _). destruct (Storage.wfd_members _ Hd _ _ _ Hr) as [[? H] _]. by rewrite Hg in H.
Qed.

Lemma stored_UpsertGroup g n t w : Storage.wf_database (Storage.w_db w) →
  Storage.key_ok g → Storage.key_ok n → Storage.db_groups (Storage.w_db w) !! g = None →
  ∃ w', Storage.UpsertGroup g n t e w = (Ok (), w') ∧
    stored_rosters (Storage.w_db w') = <[g := ∅]> (stored_rosters (Storage.w_db w)).
Proof.
  intros Hd [Hg Hg'] [Hn Hn'] Hnone. unfold Storage.UpsertGroup.
  rewrite Hg, Hn, !decide_False by done. unfold mbind, Storage.DB_bind.
  destruct (or_now_eq e t w) as (t' & k & ->). rewrite nowUTC_eq, exec_calm by done.
  eexists. split; [done|]. cbn [Storage.w_db]. apply map_eq. intros x.
  rewrite lookup_stored. destruct (decide (x = g)) as [->|Hx].
  - rewrite lookup_insert_eq, decide_True.
    + f_equal. exact (active_members_absent (Storage.w_db w) g Hd Hnone).
    + apply elem_of_dom. cbn. rewrite upsert_lookup_eq. eauto.
  - rewrite lookup_insert_ne, lookup_stored by done.
    assert (x ∈ dom (Storage.upsert g
      (Storage.mkGroupRow n (Storage.formatTime t') (Storage.formatTime (Storage.env_clock e k)))
      (λ old, Storage.mkGroupRow n (Storage.gr_created_at old) (Storage.formatTime (Storage.env_clock e k)))
      (Storage.db_groups (Storage.w_db w))) ↔ x ∈ dom (Storage.db_groups (Storage.w_db w))) as Hdom.
    { rewrite !elem_of_dom. by rewrite upsert_lookup_ne. }
    cbn [Storage.with_groups Storage.db_groups Storage.w_step Storage.w_db].
    destruct (decide (x ∈ dom (Storage.db_groups (Storage.w_db w)))) as [Hin|Hin].
    + rewrite decide_True by (by apply Hdom). done.
    + rewrite decide_False by (by rewrite Hdom). done.
Qed.

Lemma SetGroupMembership_peer_calm g p j l w : TrimSpace g ≠ EmptyString → TrimSpace p ≠ EmptyString →
  ∃ x w', Storage.SetGroupMembership_peer g p j l e w = (Ok x, w').
Proof.
  intros Hg Hp. unfold Storage.SetGroupMembership_peer. rewrite !decide_False by done.
  unfold mbind, Storage.DB_bind. destruct (or_now_eq e j w) as (j' & k & ->).
  unfold Storage.UpsertPeer. rewrite TrimSpace_idem, decide_False by done. unfold mbind, Storage.DB_bind.
  destruct (or_now_eq e (if IsZero l then j' else l) (Storage.mkWorld (Storage.w_db w) k)) as (l' & k' & ->).
  rewrite nowUTC_eq, exec_calm by done. eauto.
Qed.

Lemma stored_SetGroupMembership_row g p j (a : bool) l w :
  is_Some (Storage.db_groups (Storage.w_db w) !! TrimSpace g) →
  ∃ w' s, Storage.SetGroupMembership_row g p j a l e w = (Ok (), w') ∧
    stored_rosters (Storage.w_db w) !! TrimSpace g = Some s ∧
    stored_rosters (Storage.w_db w') =
      <[TrimSpace g := if a then {[TrimSpace p]} ∪ s else s ∖ {[TrimSpace p]}]>
        (stored_rosters (Storage.w_db w)).
Proof.
  intros [row Hrow]. unfold Storage.SetGroupMembership_row, mbind, Storage.DB_bind.
  rewrite nowUTC_eq, exec_calm by done. cbn [Storage.w_db Storage.w_step]. rewrite Hrow.
  eexists _, (active_members (Storage.w_db w) (TrimSpace g)). split; [done|]. split.
  { rewrite lookup_stored, decide_True; [done|]. by apply elem_of_dom. }
  cbn [Storage.w_db]. apply map_eq. intros x. rewrite lookup_stored.
  cbn [Storage.with_memberships Storage.db_groups].
  destruct (decide (x = TrimSpace g)) as [->|Hx].
  - rewrite lookup_insert_eq, decide_True by (by apply elem_of_dom). f_equal.
    apply set_eq. intros q. rewrite elem_of_active_members. cbn [Storage.with_memberships Storage.db_memberships].
    destruct (decide (q = TrimSpace p)) as [->|Hq].
    + rewrite upsert_lookup_eq. destruct (Storage.db_memberships (Storage.w_db w) !! _), a; simpl;
        (split; [intros (r & [= <-] & Hr); set_solver|set_solver]).
    + rewrite upsert_lookup_ne by congruence. rewrite <- elem_of_active_members. destruct a; set_solver.
  - rewrite lookup_insert_ne, lookup_stored by done.
    destruct (decide (x ∈ dom (Storage.db_groups (Storage.w_db w)))); [|done]. f_equal.
    apply active_members_ext. intros q. cbn [Storage.with_memberships Storage.db_memberships].
    by rewrite upsert_lookup_ne by congruence.
Qed.

Lemma stored_SetGroupMembership g p j (a : bool) l w :
  TrimSpace g ≠ EmptyString → TrimSpace p ≠ EmptyString →
  is_Some (Storage.db_groups (Storage.w_db w) !! TrimSpace g) →
  ∃ w' s, Storage.SetGroupMembership g p j a l e w = (Ok (), w') ∧
    stored_rosters (Storage.w_db w) !! TrimSpace g = Some s ∧
    stored_rosters (Storage.w_db w') =
      <[TrimSpace g := if a then {[TrimSpace p]} ∪ s else s ∖ {[TrimSpace p]}]>
        (stored_rosters (Storage.w_db w)).
Proof.
  intros Hg Hp Hs. rewrite SetGroupMembership_split.
  destruct (SetGroupMembership_peer_calm g p j l w Hg Hp) as ([j' l'] & w1 & E). rewrite E.
  destruct (SetGroupMembership_peer_Ok _ _ _ _ _ _ _ _ E) as (_ & Hgr & Hmr).
  rewrite <- (stored_ext _ _ Hgr Hmr). apply stored_SetGroupMembership_row. by rewrite Hgr.
Qed.

Lemma stored_DeleteGroup g w : TrimSpace g ≠ EmptyString →
  ∃ r w', Storage.DeleteGroup g e w = (r, w') ∧
    stored_rosters (Storage.w_db w') = delete (TrimSpace g) (stored_rosters (Storage.w_db w)).
Proof.
  intros Hg. rewrite DeleteGroup_calm by done. eexists _, _. split; [done|]. cbn [Storage.w_db].
  unfold Storage.delete_group_row. destruct (Storage.db_groups (Storage.w_db w) !! TrimSpace g) as [row|] eqn:E; cbn [snd].
  - apply map_eq. intros x. rewrite lookup_stored.
    cbn. destruct (decide (x = TrimSpace g)) as [->|Hx].
    + rewrite lookup_delete_eq, decide_False; [done|]. rewrite dom_delete_L. set_solver.
    + rewrite lookup_delete_ne, lookup_stored by done. rewrite dom_delete_L.
      destruct (decide (x ∈ dom (Storage.db_groups (Storage.w_db w)))).
      * rewrite decide_True by set_solver. f_equal. apply active_members_ext. intros p.
        apply option_eq. intros r. simpl. rewrite map_lookup_filter_Some. simpl. naive_solver.
      * rewrite decide_False by set_solver. done.
  - symmetry. apply delete_id. rewrite lookup_stored.
    rewrite decide_False; [done|]. by apply not_elem_of_dom.
Qed.

End Rosters.

(** ** Operations that leave the groups alone *)

Section Frame.
Context (e : SEnv) (M : Manager) (P : Storage.Database → Prop).

(** The manager is [M] and the tables satisfy [P]. *)
Definition framed (s : Service) : Prop := sv_groups s = M ∧ P (Storage.w_db (sv_world s)).

Lemma holds_ret {A} (a : A) : holds e framed (mret a).
Proof. intros s H. exact H. Qed.

Lemma holds_bind {A B} (m : SV A) (f : A → SV B) : holds e framed m → (∀ a, holds e framed (f a)) →
  holds e framed (m ≫= f).
Proof.
  intros Hm Hf s Hs. unfold mbind, SV_bind. specialize (Hm s Hs). destruct (m e s) as [a s'].
  by apply Hf.
Qed.

Lemma holds_asks {A} (f : SEnv → Service → A) : holds e framed (asks f).
Proof. intros s H. exact H. Qed.

Lemma holds_clock : holds e framed clock.
Proof. intros s H. exact H. Qed.

Lemma holds_connected : holds e framed ConnectedPeers.
Proof. intros s H. exact H. Qed.

Lemma holds_send l m : holds e framed (host_send l m).
Proof. intros s H. unfold host_send. by destruct (se_send e (step_of s)). Qed.

Lemma holds_name p n : holds e framed (setPeerName p n).
Proof. intros s H. exact H. Qed.

Lemma holds_status x n : holds e framed (λ e s, ((), with_status x n s)).
Proof. intros s H. exact H. Qed.

Lemma holds_publish ev : holds e framed (publish ev).
Proof. intros s H. unfold publish. by destruct (publish_to _ _ _). Qed.

Lemma holds_store {A} (m : Storage.DB A) : Storage.keeps P m → holds e framed (store m).
Proof.
  intros Hm s [Hg Hs]. unfold store. specialize (Hm (se_env e) (sv_world s) Hs).
  destruct (m (se_env e) (sv_world s)) as [r w]. by split.
Qed.

Lemma holds_manager {R} (f : Time → Manager → Manager * R) : (∀ t, (f t M).1 = M) →
  holds e framed (manager f).
Proof.
  intros Hf s [Hg Hs]. unfold manager. rewrite Hg. specialize (Hf (Storage.env_clock (se_env e) (step_of s))).
  destruct (f _ M) as [m r]. simpl in Hf. subst m. by split.
Qed.

Lemma holds_subs :
  holds e framed Subscribe ∧ holds e framed SubscribeE ∧ (∀ i, holds e framed (Unsubscribe i)) ∧
  holds e framed Close ∧ (∀ i, holds e framed (receive i)).
Proof.
  repeat split; intros; unfold Subscribe, SubscribeE, Unsubscribe, Close, receive in *; simpl;
    repeat case_match; apply H.
Qed.

End Frame.

Ltac holds_step :=
  first [ apply holds_ret | apply holds_asks | apply holds_clock | apply holds_connected
        | apply holds_send | apply holds_name | apply holds_status | apply holds_publish
        | apply holds_store | apply holds_manager
        | (apply holds_bind; [|intros ?]) | case_decide | case_match ].

(** What the frame asks of the tables: the groups and memberships given. *)
Definition same_groups (d0 d : Storage.Database) : Prop :=
  Storage.wf_database d ∧ Storage.db_groups d = Storage.db_groups d0 ∧
  Storage.db_memberships d = Storage.db_memberships d0.

Lemma keeps_and {A} (P Q : Storage.Database → Prop) (m : Storage.DB A) :
  Storage.keeps P m → Storage.keeps Q m → Storage.keeps (λ d, P d ∧ Q d) m.
Proof. intros HP HQ e w [H1 H2]. split; [by apply HP|by apply HQ]. Qed.

Lemma same_UpsertPeer d0 p n t : Storage.keeps (same_groups d0) (Storage.UpsertPeer p n t).
Proof.
  apply keeps_and; [apply (wf_run_op (Storage.OpUpsertPeer p n t))|].
  unfold Storage.UpsertPeer. repeat keeps_step; done.
Qed.

Lemma same_InsertMessage d0 m d st : Storage.keeps (same_groups d0) (Storage.InsertMessage m d st).
Proof.
  apply keeps_and; [apply (wf_run_op (Storage.OpInsertMessage m d st))|].
  unfold Storage.InsertMessage. destruct (Validate m); [|apply keeps_throw].
  repeat keeps_step; simplify_eq/=; done.
Qed.

Lemma same_UpdateMessageStatus d0 i st : Storage.keeps (same_groups d0) (Storage.UpdateMessageStatus i st).
Proof.
  apply keeps_and; [apply (wf_run_op (Storage.OpUpdateMessageStatus i st))|].
  unfold Storage.UpdateMessageStatus. repeat keeps_step; simplify_eq/=; done.
Qed.

Definition frame_of (s : Service) : Service → Prop :=
  framed (sv_groups s) (same_groups (Storage.w_db (sv_world s))).

Definition leaves_groups (o : op) : Prop :=
  match o with OpCreateGroup _ _ | OpJoinGroup _ _ | OpLeaveGroup _ _ | OpDeleteGroup _ => False
  | _ => True end.

Lemma fan_out_frame e M P local c msg l : holds e (framed M P) (fan_out local c msg l).
Proof. induction l as [|x l IH]; cbn [fan_out]; unfold skallToLibP2P; repeat (holds_step || apply IH). Qed.

Lemma upsert_connected_frame e M d0 l : holds e (framed M (same_groups d0)) (upsert_connected l).
Proof.
  induction l as [|x l IH]; cbn [upsert_connected];
    repeat first [apply same_UpsertPeer | apply IH | holds_step].
Qed.

Lemma frame_op e M d0 o : leaves_groups o → holds e (framed M (same_groups d0)) (run_op o).
Proof.
  destruct o; intros Ho; try done; cbn [run_op]; unfold ignore;
    try (apply holds_bind; [|intros; apply holds_ret]); try apply holds_subs.
  - unfold SendDirect, skallToLibP2P. repeat first
      [apply same_InsertMessage | apply same_UpdateMessageStatus | holds_step].
  - unfold SendGroup, connectedSet. repeat first
      [apply same_InsertMessage | apply same_UpdateMessageStatus | apply fan_out_frame | holds_step]; done.
  - unfold handleInbound. repeat first
      [apply same_InsertMessage | apply same_UpsertPeer | holds_step].
  - unfold monitorPeers. repeat first [apply upsert_connected_frame | holds_step].
Qed.

(** The queries do too. *)

Section QueryFrame.
Context (e : SEnv) (M : Manager) (d0 : Storage.Database).

Notation frame := (framed M (same_groups d0)).

Lemma keeps_peer_rows P : Storage.keeps P Storage.ListPeers.
Proof. unfold Storage.ListPeers. repeat first [apply keeps_query | keeps_step]. Qed.
Lemma keeps_direct P l r n : Storage.keeps P (Storage.ListDirectConversation l r n).
Proof. unfold Storage.ListDirectConversation. repeat first [apply keeps_query | keeps_step]. Qed.
Lemma keeps_group P g n : Storage.keeps P (Storage.ListGroupConversation g n).
Proof. unfold Storage.ListGroupConversation. repeat first [apply keeps_query | keeps_step]. Qed.

Ltac frame_step := first [apply keeps_peer_rows | apply keeps_direct | apply keeps_group | holds_step].

Lemma frame_conversations : holds e frame ListConversations.
Proof.
  assert (Hd : ∀ l, holds e frame (direct_conversations l)).
  { induction l as [|x l IH]; cbn [direct_conversations]; repeat first [apply IH | frame_step]. }
  assert (Hg : ∀ l, holds e frame (group_conversations l)).
  { induction l as [|x l IH]; cbn [group_conversations]; repeat first [apply IH | frame_step]. }
  unfold ListConversations. repeat first [apply Hd | apply Hg | frame_step].
Qed.

Lemma frame_peers : holds e frame ListPeers_sv.
Proof. unfold ListPeers_sv, connectedSet. repeat frame_step. Qed.

Lemma frame_messages id n : holds e frame (GetMessages id n).
Proof. unfold GetMessages, toDisplayMessages. repeat frame_step. Qed.

Lemma frame_count : holds e frame ConnectedPeerCount.
Proof. unfold ConnectedPeerCount. repeat frame_step. Qed.

End QueryFrame.

Lemma holds_ignored {A} e (I : Service → Prop) (m : SV A) : holds e I (ignore m) → holds e I m.
Proof.
  intros Hm s Hs. specialize (Hm s Hs). unfold ignore, mbind, SV_bind in Hm. by destruct (m e s).
Qed.

(** ** Memory and store stay in step *)

Section Sync.
Context (e : SEnv) (He : Storage.no_fault (se_env e)).

Lemma sync_frame o : leaves_groups o → holds e in_sync (run_op o).
Proof.
  intros Ho s [Hm Hd Hr].
  destruct (frame_op e (sv_groups s) (Storage.w_db (sv_world s)) o Ho s) as (H1 & H2 & H3 & H4);
    [by split; [|split]|].
  split; [by rewrite H1|done|]. rewrite H1, Hr. symmetry. by apply stored_ext.
Qed.

Lemma store_wf (o : Storage.op) w : Storage.wf_database (Storage.w_db w) →
  ∀ r w', Storage.run_op o (se_env e) w = (r, w') → Storage.wf_database (Storage.w_db w').
Proof. intros Hd r w' H. pose proof (wf_run_op o (se_env e) w Hd) as Hk. by rewrite H in Hk. Qed.

(** The group that the manager has created is new to the tables. *)
Lemma created_stored g n s t m grp w : in_sync s → Groups.CreateGroup t g n (sv_groups s) = (m, Ok grp) →
  Storage.w_db w = Storage.w_db (sv_world s) →
  ∃ w', Storage.UpsertGroup (g_ID grp) (g_Name grp) (g_CreatedAt grp) (se_env e) w = (Ok (), w') ∧
    abs m = stored_rosters (Storage.w_db w').
Proof.
  intros [Hm Hd Hr] Hc Hw. pose proof (abs_CreateGroup t g n (sv_groups s)) as Habs. rewrite Hc in Habs.
  revert Hc Habs. unfold Groups.CreateGroup, abs_exec. do 2 (case_decide; [done|]).
  destruct (mgr_groups (sv_groups s) !! TrimSpace g) eqn:Eg; [done|]. intros [= <- <-].
  rewrite decide_False; [intros [= <-]|intros [?|[?|Hx]]; try done; rewrite abs_dom in Hx; by apply not_elem_of_dom in Eg].
  cbn [g_ID g_Name g_CreatedAt].
  destruct (stored_UpsertGroup (se_env e) He (TrimSpace g) (TrimSpace n) t w) as (w' & Hup & Hst);
    rewrite ?Hw; [done|by apply key_ok_TrimSpace|by apply key_ok_TrimSpace| |].
  - assert (Hn : abs (sv_groups s) !! TrimSpace g = None) by (by rewrite abs_lookup, Eg).
    rewrite Hr, lookup_stored in Hn. case_decide as Hx; [done|]. by apply not_elem_of_dom in Hx.
  - exists w'. split; [done|]. by rewrite Hst, Hw, Hr.
Qed.

Lemma sync_CreateGroup g n : holds e in_sync (run_op (OpCreateGroup g n)).
Proof.
  intros s Hs. cbn [run_op]. unfold ignore, CreateGroup_sv, mbind, SV_bind, manager.
  set (t := Storage.env_clock _ _). pose proof (abs_CreateGroup t g n (sv_groups s)) as Habs.
  destruct (CreateGroup t g n (sv_groups s)) as [m r] eqn:Ec. destruct r as [grp|x].
  - destruct (created_stored g n s t m grp (tick (sv_world s)) Hs Ec eq_refl) as (w' & Hw & Ha).
    destruct Hs as [Hm Hd Hr]. unfold store. cbn [sv_world with_manager with_world]. rewrite Hw.
    split; cbn; [by eapply wf_CreateGroup| |done].
    exact (store_wf (Storage.OpUpsertGroup _ _ _) (tick (sv_world s)) Hd _ _ Hw).
  - destruct Hs as [Hm Hd Hr]. split; cbn; [by eapply wf_CreateGroup|done|].
    unfold abs_exec in Habs. case_decide; [|done]. by injection Habs as <-.
Qed.

Lemma sync_membership (o : Storage.op) g p a j l w m m' :
  o = Storage.OpSetGroupMembership g p j a l →
  Storage.wf_database (Storage.w_db w) → abs m = stored_rosters (Storage.w_db w) →
  TrimSpace g ≠ EmptyString → TrimSpace p ≠ EmptyString →
  (∃ s, abs m !! TrimSpace g = Some s ∧
     abs m' = <[TrimSpace g := if a then {[TrimSpace p]} ∪ s else s ∖ {[TrimSpace p]}]> (abs m)) →
  ∃ w', Storage.SetGroupMembership g p j a l (se_env e) w = (Ok (), w') ∧
    Storage.wf_database (Storage.w_db w') ∧ abs m' = stored_rosters (Storage.w_db w').
Proof.
  intros -> Hd Hr Hg Hp (s & Hs & Hm').
  destruct (stored_SetGroupMembership (se_env e) He g p j a l w) as (w' & s' & Hw & Hs' & Hst);
    [done|done| |].
  { rewrite Hr, lookup_stored in Hs. case_decide as Hx; [|done]. by apply elem_of_dom in Hx. }
  exists w'. split; [done|]. split.
  { exact (store_wf (Storage.OpSetGroupMembership _ _ _ _ _) w Hd _ _ Hw). }
  rewrite Hr in Hs. rewrite Hs in Hs'. injection Hs' as <-. by rewrite Hm', Hst, Hr.
Qed.

Lemma sync_JoinGroup g p : holds e in_sync (run_op (OpJoinGroup g p)).
Proof.
  intros s [Hm Hd Hr]. cbn [run_op]. unfold ignore, JoinGroup, mbind, SV_bind, clock, manager.
  cbn [with_world sv_groups sv_world]. set (t := Storage.env_clock _ (step_of s)).
  match goal with |- context [AddMember ?t1 g p] => set (t' := t1) end.
  pose proof (abs_AddMember t' g p (sv_groups s)) as Habs.
  destruct (AddMember t' g p (sv_groups s)) as [m r] eqn:Ec.
  pose proof (wf_AddMember _ _ _ _ _ _ Ec Hm) as Hm'. revert Ec. unfold AddMember.
  case_decide as Hg; [intros [= <- <-]; by split|].
  case_decide as Hp; [intros [= <- <-]; by split|].
  destruct (mgr_groups (sv_groups s) !! TrimSpace g) as [grp|] eqn:Eg; [|intros [= <- <-]; by split].
  intros Ec. match goal with |- context [tick (tick (sv_world s))] => set (w := tick (tick (sv_world s))) end.
  destruct (sync_membership _ g p true t t w (sv_groups s) m eq_refl Hd Hr Hg Hp) as (w' & Hw & Hd' & Hr').
  { exists (roster_of grp). split; [by rewrite abs_lookup, Eg|].
    destruct (g_Members grp !! TrimSpace p) eqn:Em.
    - injection Ec as <- _. symmetry. apply insert_id. rewrite abs_lookup, Eg. cbn. f_equal.
      apply elem_of_dom_2 in Em. unfold roster_of. set_solver.
    - injection Ec as <- _. rewrite abs_set_group. f_equal. unfold roster_of. cbn. by rewrite dom_insert_L. }
  assert (r = Ok () ∨ ∃ x, r = Err (ErrMemberAlreadyAdded x)) as Hres.
  { destruct (g_Members grp !! TrimSpace p); injection Ec as _ <-; eauto. }
  destruct Hres as [->|[x ->]]; unfold store; cbn [sv_world with_manager with_world];
    change (tick (tick (sv_world s))) with w; rewrite Hw; cbn; by split.
Qed.

Lemma sync_LeaveGroup g p : holds e in_sync (run_op (OpLeaveGroup g p)).
Proof.
  intros s [Hm Hd Hr]. cbn [run_op]. unfold ignore, LeaveGroup_sv, LeaveGroup, mbind, SV_bind, clock, manager.
  match goal with |- context [removeMember ?t1 g p] => set (t' := t1) end.
  destruct (removeMember t' g p (sv_groups s)) as [m r] eqn:Ec.
  pose proof (wf_removeMember _ _ _ _ _ _ Ec Hm) as Hm'. revert Ec. unfold removeMember.
  case_decide as Hg; [intros [= <- <-]; by split|].
  case_decide as Hp; [intros [= <- <-]; by split|].
  destruct (mgr_groups (sv_groups s) !! TrimSpace g) as [grp|] eqn:Eg; [|intros [= <- <-]; by split].
  intros Ec. set (w := tick (tick (sv_world s))). set (t := Storage.env_clock (se_env e) (S (step_of s))).
  destruct (sync_membership _ g p false t t w (sv_groups s) m eq_refl Hd Hr Hg Hp) as (w' & Hw & Hd' & Hr').
  { exists (roster_of grp). split; [by rewrite abs_lookup, Eg|].
    destruct (g_Members grp !! TrimSpace p) eqn:Em.
    - injection Ec as <- _. rewrite abs_set_group. f_equal. unfold roster_of. cbn. by rewrite dom_delete_L.
    - injection Ec as <- _. symmetry. apply insert_id. rewrite abs_lookup, Eg. cbn. f_equal.
      apply not_elem_of_dom in Em. unfold roster_of. set_solver. }
  assert (r = Ok () ∨ ∃ x, r = Err (ErrMemberNotFound x)) as Hres.
  { destruct (g_Members grp !! TrimSpace p); injection Ec as _ <-; eauto. }
  destruct Hres as [->|[x ->]]; unfold store; cbn [sv_world with_manager with_world];
    change (tick (tick (sv_world s))) with w;
    match goal with |- context [Storage.SetGroupMembership g p ?a false ?a] => change a with t end;
    rewrite Hw; cbn; by split.
Qed.

Lemma sync_DeleteGroup g : holds e in_sync (run_op (OpDeleteGroup g)).
Proof.
  intros s [Hm Hd Hr]. cbn [run_op]. unfold ignore, DeleteGroup_sv, mbind, SV_bind, manager.
  destruct (DeleteGroup g (sv_groups s)) as [m r] eqn:Ec.
  pose proof (wf_DeleteGroup _ _ _ _ Ec Hm) as Hm'.
  pose proof (abs_DeleteGroup g (sv_groups s)) as Habs. rewrite Ec in Habs. revert Ec. unfold DeleteGroup.
  case_decide as Hg; [intros [= <- <-]; by split|].
  intros Ec. assert (abs m = delete (TrimSpace g) (abs (sv_groups s))) as Ha.
  { unfold abs_exec in Habs. revert Habs. case_decide as Hx; [by intros [= -> _]|].
    intros [= Habs _]. rewrite <- Habs. symmetry. apply delete_id. apply not_elem_of_dom. tauto. }
  destruct (stored_DeleteGroup (se_env e) He g (tick (sv_world s)) Hg) as (rr & w' & Hw & Hst).
  assert (r = Ok () ∨ ∃ x, r = Err (ErrGroupNotFound x)) as Hres.
  { destruct (mgr_groups (sv_groups s) !! TrimSpace g); injection Ec as _ <-; eauto. }
  destruct Hres as [->|[x ->]]; unfold store; cbn [sv_world with_manager with_world];
    rewrite Hw; cbn; (split; cbn; [done| |by rewrite Ha, Hst, Hr]);
    exact (store_wf (Storage.OpDeleteGroup g) (tick (sv_world s)) Hd _ _ Hw).
Qed.

Lemma sync_op o : holds e in_sync (run_op o).
Proof.
  destruct o; try (by apply sync_frame);
    [apply sync_CreateGroup|apply sync_JoinGroup|apply sync_LeaveGroup|apply sync_DeleteGroup].
Qed.

Lemma sync_ops ops : holds e in_sync (run_ops ops).
Proof.
  induction ops as [|o ops IH]; intros s Hs; [done|]. cbn [run_ops]. unfold mbind, SV_bind.
  pose proof (sync_op o s Hs) as H. destruct (run_op o e s) as [[] s']. by apply IH.
Qed.

End Sync.

(** ** Subscribers *)

Ltac cap_lia := unfold subscriberBuf, maxSubs in *; cbn in *; lia.

Lemma offer_buf ev c : (length (ch_buf c) ≤ subscriberBuf)%nat →
  (length (ch_buf (offer ev c)) ≤ subscriberBuf)%nat ∧ ch_closed (offer ev c) = ch_closed c.
Proof.
  intros H. unfold offer. destruct (Nat.ltb_spec (length (ch_buf c)) subscriberBuf); [|done].
  cbn. rewrite length_app. split; [cap_lia|done].
Qed.

(** What a fan-out does to open subscribers. *)
Lemma publish_to_spec ev subs chans : NoDup subs →
  (∀ i, i ∈ subs → ∃ c, chans !! i = Some c ∧ ch_closed c = false) →
  ∃ chans', publish_to ev subs chans = (chans', false) ∧
    ∀ i, chans' !! i = if decide (i ∈ subs) then offer ev <$> chans !! i else chans !! i.
Proof.
  revert chans. induction subs as [|j subs IH]; intros chans Hnd Ho; cbn [publish_to].
  - by exists chans.
  - apply NoDup_cons in Hnd as [Hj Hnd]. destruct (Ho j) as (c & Hc & Hcl); [set_solver|].
    rewrite Hc, Hcl. destruct (IH (<[j := offer ev c]> chans)) as (chans' & Hp & Hs); [done| |].
    { intros i Hi. rewrite lookup_insert_ne by set_solver. apply Ho. set_solver. }
    exists chans'. split; [done|]. intros i. rewrite Hs. destruct (decide (i = j)) as [->|Hij].
    + rewrite decide_False, decide_True by set_solver. by rewrite lookup_insert_eq, Hc.
    + rewrite lookup_insert_ne by done.
      destruct (decide (i ∈ subs)); [rewrite decide_True by set_solver|rewrite decide_False by set_solver]; done.
Qed.

Section SubsFrame.
Context (e : SEnv).

Lemma subs_ret {A} (a : A) : holds e wf_subs (mret a).
Proof. intros s H. exact H. Qed.

Lemma subs_bind {A B} (m : SV A) (f : A → SV B) : holds e wf_subs m → (∀ a, holds e wf_subs (f a)) →
  holds e wf_subs (m ≫= f).
Proof.
  intros Hm Hf s Hs. unfold mbind, SV_bind. specialize (Hm s Hs). destruct (m e s) as [a s'].
  by apply Hf.
Qed.

(** An operation that leaves the channels alone. *)
Definition quiet {A} (m : SV A) : Prop :=
  ∀ s, sv_chans (m e s).2 = sv_chans s ∧ sv_subs (m e s).2 = sv_subs s ∧ sv_panic (m e s).2 = sv_panic s.

Lemma subs_quiet {A} (m : SV A) : quiet m → holds e wf_subs m.
Proof. intros Hq s [H1 H2 H3 H4 H5]. destruct (Hq s) as (Ec & Es & Ep). split; by rewrite ?Ec, ?Es, ?Ep. Qed.

Lemma quiet_store {A} (m : Storage.DB A) : quiet (store m).
Proof. intros s. unfold store. by destruct (m _ _). Qed.

Lemma quiet_manager {R} (f : Time → Manager → Manager * R) : quiet (manager f).
Proof. intros s. unfold manager. by destruct (f _ _). Qed.

Lemma quiet_send l m : quiet (host_send l m).
Proof. intros s. unfold host_send. by destruct (se_send e (step_of s)). Qed.

Lemma subs_publish ev : holds e wf_subs (publish ev).
Proof.
  intros s [Ho Hn Hc Hb Hp]. unfold publish.
  destruct (publish_to_spec ev (sv_subs s) (sv_chans s) Hn Ho) as (chans' & -> & Hs).
  split; cbn; try done.
  - intros i Hi. destruct (Ho i Hi) as (c & Hci & Hcl). exists (offer ev c).
    rewrite Hs, decide_True, Hci by done. split; [done|].
    by destruct (offer_buf ev c (Hb i c Hci)) as [_ ->].
  - intros i c. rewrite Hs. case_decide; [|apply Hb].
    destruct (sv_chans s !! i) as [c0|] eqn:E; [|done]. intros [= <-].
    by apply offer_buf, (Hb i).
Qed.

Lemma new_chan_fresh s : sv_chans s !! new_chan s = None.
Proof. apply (not_elem_of_dom (D:=gset nat)). unfold new_chan. apply is_fresh. Qed.

Lemma wf_add_sub s : wf_subs s → (length (sv_subs s) < maxSubs)%nat →
  wf_subs (with_chans (<[new_chan s := mkChan [] false]> (sv_chans s)) (sv_subs s ++ [new_chan s]) s).
Proof.
  intros [Ho Hn Hc Hb Hp] Hl. pose proof (new_chan_fresh s) as Hf.
  assert (Hni : new_chan s ∉ sv_subs s).
  { intros Hi. destruct (Ho _ Hi) as (c & Hci & _). by rewrite Hf in Hci. }
  clear Hf. revert Hni. generalize (new_chan s). intros n Hni. split; cbn; try done.
  - intros i [Hi|Hi%list_elem_of_singleton]%elem_of_app.
    + rewrite lookup_insert_ne by (by intros ->). by apply Ho.
    + subst i. rewrite lookup_insert_eq. by eexists.
  - apply NoDup_app. split; [done|]. split; [|apply NoDup_singleton]. set_solver.
  - rewrite length_app. cbn. cap_lia.
  - intros i c [[<- <-]|[_ H]]%lookup_insert_Some; [cbn; cap_lia|by apply (Hb i)].
Qed.

Lemma remove_first_subseteq i l : remove_first i l ⊆ l.
Proof. induction l as [|j l IH]; cbn; [done|]. case_decide; set_solver. Qed.

Lemma remove_first_spec i l : NoDup l →
  NoDup (remove_first i l) ∧ i ∉ remove_first i l ∧ (length (remove_first i l) ≤ length l)%nat.
Proof.
  induction 1 as [|j l Hj Hl (H1 & H2 & H3)]; cbn; [split_and!; [constructor|set_solver|done]|].
  case_decide as E; [subst; split_and!; [done|done|cap_lia]|].
  split_and!; [|set_solver|cbn; cap_lia]. constructor; [|done].
  intros Hin. apply Hj. by apply (remove_first_subseteq i l).
Qed.

Lemma subs_Unsubscribe i : holds e wf_subs (Unsubscribe i).
Proof.
  intros s [Ho Hn Hc Hb Hp]. unfold Unsubscribe. case_decide; [|by split].
  destruct (remove_first_spec i _ Hn) as (H1 & H2 & H3). split; cbn; try done; [|cap_lia|].
  - intros j Hj. rewrite lookup_alter_ne by (intros ->; done).
    apply Ho. by apply (remove_first_subseteq i).
  - intros j c. destruct (decide (j = i)) as [->|Hji].
    + rewrite lookup_alter_eq. destruct (sv_chans s !! i) eqn:E; [|done]. intros [= <-]. cbn. by apply (Hb i).
    + rewrite lookup_alter_ne by done. apply Hb.
Qed.

Lemma subs_receive i : holds e wf_subs (receive i).
Proof.
  intros s [Ho Hn Hc Hb Hp]. unfold receive. destruct (sv_chans s !! i) as [c|] eqn:E; [|by split].
  destruct (ch_buf c) as [|ev rest] eqn:Er; [by split|]. split; cbn; try done.
  - intros j Hj. destruct (Ho j Hj) as (cj & Hcj & Hcl). destruct (decide (j = i)) as [->|Hji].
    + rewrite lookup_insert_eq. rewrite E in Hcj. injection Hcj as <-. by eexists.
    + rewrite lookup_insert_ne by done. eauto.
  - intros j c' [[<- <-]|[_ H]]%lookup_insert_Some; [|by apply (Hb j)].
    specialize (Hb i c E). rewrite Er in Hb. cbn in *. cap_lia.
Qed.

Lemma subs_Close : holds e wf_subs Close.
Proof.
  intros s [Ho Hn Hc Hb Hp]. split; cbn; try done; [set_solver|constructor|cap_lia|].
  clear Ho Hn Hc. induction (sv_subs s) as [|j l IH]; [done|]. cbn [foldr].
  intros i c. destruct (decide (i = j)) as [->|Hij].
  - rewrite lookup_alter_eq. destruct (foldr _ _ l !! j) eqn:E; [|done]. intros [= <-]. cbn. by apply (IH j).
  - rewrite lookup_alter_ne by done. apply IH.
Qed.

End SubsFrame.

(** ** What the operations that only publish keep

    A property that publishing keeps, and everything that touches neither
    channels nor subscribers, is kept by every query and every send. *)

Section Speaking.
Context (e : SEnv) (I : Service → Prop).
Context (Iquiet : ∀ A (m : SV A), quiet e m → holds e I m) (Ipublish : ∀ ev, holds e I (publish ev)).

Lemma speak_bind {A B} (m : SV A) (f : A → SV B) : holds e I m → (∀ a, holds e I (f a)) → holds e I (m ≫= f).
Proof.
  intros Hm Hf s Hs. unfold mbind, SV_bind. specialize (Hm s Hs). destruct (m e s) as [a s']. by apply Hf.
Qed.

Lemma speak_asks {A} (f : SEnv → Service → A) : holds e I (asks f).
Proof. by apply Iquiet. Qed.

Ltac speak_step :=
  first [ apply speak_asks | apply Ipublish
        | (apply Iquiet; first [by intros ?|apply quiet_store|apply quiet_manager|apply quiet_send])
        | (apply speak_bind; [|intros ?]) | case_decide | case_match ].
Ltac speak := repeat speak_step.

Lemma speaks_fan_out local c msg l : holds e I (fan_out local c msg l).
Proof. induction l as [|x l IH]; cbn [fan_out]; unfold skallToLibP2P; repeat first [apply IH | speak_step]. Qed.

Lemma speaks_upsert l : holds e I (upsert_connected l).
Proof. induction l as [|x l IH]; cbn [upsert_connected]; repeat first [apply IH | speak_step]. Qed.

Lemma speaks_direct l : holds e I (direct_conversations l).
Proof. induction l as [|x l IH]; cbn [direct_conversations]; repeat first [apply IH | speak_step]. Qed.

Lemma speaks_group l : holds e I (group_conversations l).
Proof. induction l as [|x l IH]; cbn [group_conversations]; repeat first [apply IH | speak_step]. Qed.

Lemma speaks_ListConversations : holds e I ListConversations.
Proof. unfold ListConversations. repeat first [apply speaks_direct | apply speaks_group | speak_step]. Qed.

Lemma speaks_ListPeers : holds e I ListPeers_sv.
Proof. unfold ListPeers_sv, connectedSet. speak. Qed.

Lemma speaks_GetMessages id n : holds e I (GetMessages id n).
Proof. unfold GetMessages, toDisplayMessages. speak. Qed.

Lemma speaks_ConnectedPeerCount : holds e I ConnectedPeerCount.
Proof. unfold ConnectedPeerCount. speak. Qed.

Lemma speaks_SendDirect p b : holds e I (SendDirect p b).
Proof. unfold SendDirect, skallToLibP2P. speak. Qed.

Lemma speaks_SendGroup g b : holds e I (SendGroup g b).
Proof. unfold SendGroup, connectedSet, skallToLibP2P. repeat first [apply speaks_fan_out | speak_step]. Qed.

(** The operations on groups and the background work. *)
Lemma speaks_op o : match o with
  | OpSubscribe | OpSubscribeE | OpUnsubscribe _ | OpReceive _ | OpClose => True
  | _ => holds e I (run_op o)
  end.
Proof.
  destruct o; try done; cbn [run_op]; unfold ignore, CreateGroup_sv, JoinGroup, LeaveGroup_sv, DeleteGroup_sv,
    handleInbound, monitorPeers;
    repeat first [apply speaks_SendDirect | apply speaks_SendGroup | apply speaks_upsert | speak_step].
Qed.

End Speaking.

Lemma subs_op e o : holds e wf_subs (run_op o).
Proof.
  pose proof (speaks_op e wf_subs (λ A, subs_quiet e) (subs_publish e) o) as Hspeak.
  destruct o; try exact Hspeak; cbn [run_op]; unfold ignore;
    try (apply subs_bind; [|intros; apply subs_ret]).
  - intros s Hs. unfold Subscribe. destruct (Nat.leb_spec maxSubs (length (sv_subs s))) as [Hl|Hl].
    + destruct Hs as [Ho Hn Hc Hb Hp]. pose proof (new_chan_fresh s) as Hf.
      revert Hf. generalize (new_chan s). intros n Hf. split; cbn; try done.
      * intros i Hi. destruct (Ho i Hi) as (c & Hci & Hcl). exists c.
        rewrite lookup_insert_ne by (intros <-; by rewrite Hf in Hci). done.
      * intros i c [[<- <-]|[_ H]]%lookup_insert_Some; [cbn; cap_lia|by apply (Hb i)].
    + by apply wf_add_sub.
  - intros s Hs. unfold SubscribeE. destruct (Nat.leb_spec maxSubs (length (sv_subs s))) as [Hl|Hl]; [done|].
    by apply wf_add_sub.
  - apply subs_Unsubscribe.
  - apply subs_receive.
  - apply subs_Close.
Qed.

Lemma subs_ops e ops s : wf_subs s → wf_subs (run_ops ops e s).2.
Proof.
  revert s. induction ops as [|o ops IH]; intros s Hs; [done|]. cbn [run_ops]. unfold mbind, SV_bind.
  pose proof (subs_op e o s Hs) as Ho. destruct (run_op o e s) as [[] s']. by apply IH.
Qed.

Lemma subs_new w m : wf_subs (NewP2PService w m).
Proof.
  split; cbn; [set_solver|apply NoDup_nil_2|unfold maxSubs; lia| |done]. intros i c. by rewrite lookup_empty.
Qed.

Lemma room_in_sync : in_sync room_service ∧ wf_subs room_service.
Proof.
  split; [|apply subs_ops, subs_new].
  apply (sync_ops sample_env (λ _, eq_refl) sample_ops empty_service). split; [apply wf_NewManager|apply wf_empty|].
  vm_compute. reflexivity.
Qed.

(** ** Sending *)

(** The members a group message is handed to the host for. *)
Definition target (local : string) (connected : gset string) (decode : string → option string)
    (memberID : string) : option string :=
  if decide (memberID = local ∨ memberID ∉ connected) then None else decode memberID.

Lemma fan_out_spec e local c msg l s : (∀ n, se_send e n = true) →
  sv_sent (fan_out local c msg l e s).2 =
  sv_sent s ++ ((λ libID, (libID, msg)) <$> omap (target local c (se_decode e)) l).
Proof.
  intros Hok. revert s. induction l as [|x l IH]; intros s; cbn [fan_out omap list_omap].
  { by rewrite app_nil_r. }
  unfold target at 1. destruct (decide (x = local)) as [Hx|Hx].
  { rewrite decide_True by (by left). apply IH. }
  unfold skallToLibP2P, asks, mbind, SV_bind. destruct (se_decode e x) as [libID|] eqn:Ed.
  - destruct (decide (x ∉ c)) as [Hc|Hc].
    + rewrite decide_True by (by right). apply IH.
    + rewrite decide_False by tauto. unfold host_send. rewrite Hok. rewrite IH. cbn.
      by rewrite <- app_assoc.
  - destruct (decide (x = local ∨ x ∉ c)); apply IH.
Qed.

Lemma store_sent {A} (m : Storage.DB A) e s : sv_sent (store m e s).2 = sv_sent s.
Proof. unfold store. by destruct (m _ _). Qed.

Lemma store_groups {A} (m : Storage.DB A) e s : sv_groups (store m e s).2 = sv_groups s.
Proof. unfold store. by destruct (m _ _). Qed.

(** ** Properties *)

(** C4: memory and store agree after any use of the service, so a restart brings
    back exactly the groups and members the service had.  The calls come one after
    the other, manager and tables agree when the service is made, as the restore
    leaves them, and the driver refuses no statement, neither then nor at the
    restart ([Concurrent.overlapping_calls]: calls that overlap can leave them
    apart; so can a refused statement, since memory is changed first). *)
Theorem service_restart e ops s : Storage.no_fault (se_env e) → in_sync s →
  let s' := (run_ops ops e s).2 in
  in_sync s' ∧
  ∀ e', Storage.no_fault e' → ∃ m' w', LoadFromStore NewManager e' (sv_world s') = (Ok m', w') ∧
    abs m' = abs (sv_groups s').
Proof.
  intros He Hs s'. pose proof (sync_ops e He ops s Hs) as Hs'. fold s' in Hs'. split; [done|].
  intros e' He'. destruct Hs' as [_ Hd Hr].
  destruct (LoadFromStore_calm e' (sv_world s') NewManager He' Hd) as (m' & w' & H & _ & Ha).
  exists m', w'. split; [done|]. by rewrite Ha, Hr.
Qed.

Lemma service_restart_witness : ∃ m' w',
  LoadFromStore NewManager Storage.calm
    (sv_world (run_ops sample_ops sample_env empty_service).2) = (Ok m', w') ∧
  abs m' !! "room" = Some {["alice"; "bob"]}.
Proof.
  destruct (service_restart sample_env sample_ops empty_service) as [_ H].
  - done.
  - split; [apply wf_NewManager|apply wf_empty|]. vm_compute. reflexivity.
  - destruct (H Storage.calm) as (m' & w' & Hl & Ha); [done|].
    exists m', w'. split; [exact Hl|]. rewrite Ha. vm_compute. reflexivity.
Defined.

(** Over any history of the service no event is sent on a closed channel,
    at most sixteen subscribers exist, all of them open and distinct, and no
    buffer holds more than 64 events. *)
Theorem subscribers_safe e ops w m : wf_subs (run_ops ops e (NewP2PService w m)).2.
Proof. apply subs_ops, subs_new. Qed.

(** Publishing reaches every subscriber that has room, behind what it has not
    read yet; a full one misses the event, and nobody else's channel changes. *)
Theorem publish_delivers e ev s : wf_subs s →
  let s' := (publish ev e s).2 in
  (∀ i c, i ∈ sv_subs s → sv_chans s !! i = Some c →
     sv_chans s' !! i = Some (mkChan (if (length (ch_buf c) <? subscriberBuf)%nat
                                      then ch_buf c ++ [ev] else ch_buf c) false)) ∧
  (∀ i, i ∉ sv_subs s → sv_chans s' !! i = sv_chans s !! i).
Proof.
  intros [Ho Hn Hc Hb Hp]. unfold publish.
  destruct (publish_to_spec ev (sv_subs s) (sv_chans s) Hn Ho) as (chans' & -> & Hs).
  cbn [snd with_panic with_chans sv_chans]. split.
  - intros i c Hi Hci. rewrite Hs, decide_True, Hci by done. cbn [fmap option_fmap option_map].
    destruct (Ho i Hi) as (c' & Hci' & Hcl). rewrite Hci in Hci'. injection Hci' as <-.
    unfold offer. rewrite Hcl. destruct (Nat.ltb _ _); [done|]. by rewrite <- Hcl; destruct c.
  - intros i Hi. by rewrite Hs, decide_False.
Qed.

Lemma publish_delivers_witness :
  sv_chans (publish EventPeerConnected sample_env (Subscribe sample_env empty_service).2).2 !!
    new_chan empty_service = Some (mkChan [EventPeerConnected] false).
Proof.
  destruct (publish_delivers sample_env EventPeerConnected (Subscribe sample_env empty_service).2) as [H _].
  - apply (subscribers_safe sample_env [OpSubscribe] (Storage.mkWorld Storage.emptyDatabase 0) NewManager).
  - refine (H (new_chan empty_service) (mkChan [] false) _ _); vm_compute; [left|reflexivity].
Defined.

(** What an inbound message leaves behind: a row, and an event for each subscriber
    that has room. *)
Definition inbound_event (msg : Message) (from : string) (s : Service) : Event :=
  EventNewMessage (if decide (msg_GroupID msg ≠ EmptyString) then msg_GroupID msg else from)
    (mkDisplay (msg_ID msg) from (getPeerName from s) (msg_Body msg) (msg_Timestamp msg) false).

Lemma handleInbound_spec e msg from s : Storage.no_fault (se_env e) → wf_subs s →
  slen from ≤ maxPeerIDLen → Validate msg = Ok () →
  let s' := (handleInbound msg from e s).2 in
  sv_groups s' = sv_groups s ∧ sv_names s' = sv_names s ∧ sv_subs s' = sv_subs s ∧
  (∃ t, Storage.db_messages (Storage.w_db (sv_world s')) =
    match Storage.db_messages (Storage.w_db (sv_world s)) !! msg_ID msg with
    | Some _ => Storage.db_messages (Storage.w_db (sv_world s))
    | None => <[msg_ID msg := Storage.message_to_row msg Storage.DirectionInbound Storage.StatusReceived t]>
                (Storage.db_messages (Storage.w_db (sv_world s)))
    end) ∧
  ∀ i c, i ∈ sv_subs s → sv_chans s !! i = Some c → (length (ch_buf c) < subscriberBuf)%nat →
     sv_chans s' !! i = Some (mkChan (ch_buf c ++ [inbound_event msg from s]) false).
Proof.
  intros He Hs Hl Hv. cbn zeta. destruct (handleInbound msg from e s) as [u s'] eqn:E.
  revert E. unfold handleInbound. rewrite (proj2 (Z.ltb_ge _ _)) by done.
  unfold mbind at 1, SV_bind. unfold clock. unfold mbind at 1, SV_bind.
  unfold store at 1. cbn [sv_world with_world]. set (t := Storage.env_clock _ _).
  destruct (Storage.UpsertPeer from from t (se_env e) (tick (sv_world s))) as [r1 w1] eqn:E1.
  assert (Hm1 : Storage.db_messages (Storage.w_db w1) = Storage.db_messages (Storage.w_db (sv_world s))).
  { assert (Storage.keeps (λ d, Storage.db_messages d = Storage.db_messages (Storage.w_db (sv_world s)))
      (Storage.UpsertPeer from from t)) as Hk by (unfold Storage.UpsertPeer; repeat keeps_step; done).
    specialize (Hk (se_env e) (tick (sv_world s)) eq_refl). by rewrite E1 in Hk. }
  unfold mbind at 1, SV_bind. unfold store at 1. cbn [sv_world with_world].
  assert (∃ o w2 t', Storage.InsertMessage msg Storage.DirectionInbound Storage.StatusReceived (se_env e) w1 = (o, w2) ∧
    Storage.db_messages (Storage.w_db w2) = match Storage.db_messages (Storage.w_db (sv_world s)) !! msg_ID msg with
      | Some _ => Storage.db_messages (Storage.w_db (sv_world s))
      | None => <[msg_ID msg := Storage.message_to_row msg Storage.DirectionInbound Storage.StatusReceived t']>
                  (Storage.db_messages (Storage.w_db (sv_world s))) end) as (o & w2 & t' & -> & Hm2).
  { rewrite InsertMessage_calm, Hv, Hm1 by done. destruct (_ !! msg_ID msg); [eexists _, _, EmptyString|eexists _, _, _];
      (split; [done|]); cbn; by rewrite Hm1. }
  unfold mbind, SV_bind, asks, publish. cbn [sv_subs sv_chans with_world].
  destruct Hs as [Ho Hnd Hc Hb Hp].
  match goal with |- context [publish_to ?ev _ _] => change ev with (inbound_event msg from s);
    destruct (publish_to_spec (inbound_event msg from s) (sv_subs s) (sv_chans s) Hnd Ho) as (chans' & -> & Hsp) end.
  intros [= <- <-]. cbn [mret SV_ret snd with_panic with_chans with_world sv_chans sv_world sv_groups sv_names sv_subs Storage.w_db
    Storage.with_messages Storage.db_messages]. split_and!; [done|done|done|by exists t'|].
  intros i c Hi Hci Hlen. rewrite Hsp, decide_True, Hci by done.
  cbn [fmap option_fmap option_map]. unfold offer. rewrite (proj2 (Nat.ltb_lt _ _)) by done.
  destruct (Ho i Hi) as (c' & Hci' & Hcl). rewrite Hci in Hci'. injection Hci' as <-. by rewrite Hcl.
Qed.

(** C16: when the store refuses nothing, a valid inbound message with a new ID is
    announced to every subscriber that has room under the authenticated peer,
    whatever sender it claims, but it is stored under the claimed one. *)
Theorem inbound_attribution e msg from s : Storage.no_fault (se_env e) → wf_subs s →
  slen from ≤ maxPeerIDLen → Validate msg = Ok () →
  Storage.db_messages (Storage.w_db (sv_world s)) !! msg_ID msg = None →
  let s' := (handleInbound msg from e s).2 in
  (∀ i c, i ∈ sv_subs s → sv_chans s !! i = Some c → (length (ch_buf c) < subscriberBuf)%nat →
     ∃ conv name, sv_chans s' !! i = Some (mkChan (ch_buf c ++
       [EventNewMessage conv (mkDisplay (msg_ID msg) from name (msg_Body msg) (msg_Timestamp msg) false)])
       false)) ∧
  ∃ row, Storage.db_messages (Storage.w_db (sv_world s')) !! msg_ID msg = Some row ∧
    Storage.row_sender_id row = msg_SenderID msg.
Proof.
  intros He Hs Hl Hv Hn. destruct (handleInbound_spec e msg from s He Hs Hl Hv) as (_ & _ & _ & [t Hrow] & Hev).
  rewrite Hn in Hrow.
  cbn zeta. split; [intros; by eexists _, _; apply Hev|]. rewrite Hrow, lookup_insert_eq. by eexists.
Qed.

(** A message from mallory in the name of alice. *)
Lemma inbound_attribution_witness : ∃ row,
  Storage.db_messages (Storage.w_db (sv_world
    (handleInbound Storage.first_message "mallory" sample_env empty_service).2)) !! "m1" = Some row ∧
  Storage.row_sender_id row = "alice".
Proof.
  destruct (inbound_attribution sample_env Storage.first_message "mallory" empty_service)
    as [_ (row & Hr & Hs)]; [done| |by vm_compute|by vm_compute|by vm_compute|].
  - apply (subscribers_safe sample_env [] (Storage.mkWorld Storage.emptyDatabase 0) NewManager).
  - exists row. split; [exact Hr|exact Hs].
Defined.



(** The row and the message of a direct send. *)
Definition message_row_of (e : SEnv) (s : Service) (msg : Message) : Storage.message_row :=
  Storage.message_to_row msg Storage.DirectionOutbound Storage.StatusPending
    (Storage.formatTime (Storage.env_clock (se_env e) (S (step_of s)))).

Definition direct_message (e : SEnv) (s : Service) (peerID body : string) : Message :=
  NewChatMessage (Storage.env_clock (se_env e) (step_of s)) (sender_id e) peerID EmptyString body.

(** What a direct send does to the row with the ID of the message, which is the
    new one unless the ID was taken. *)
Lemma SendDirect_row e s peerID body : Storage.no_fault (se_env e) →
  let msg := direct_message e s peerID body in
  Validate msg = Ok () →
  let row := default (message_row_of e s msg) (Storage.db_messages (Storage.w_db (sv_world s)) !! msg_ID msg) in
  let '(r, s') := SendDirect peerID body e s in
  ∃ t, Storage.db_messages (Storage.w_db (sv_world s')) !! msg_ID msg =
      Some (Storage.set_status (if is_ok r then Storage.StatusSent else Storage.StatusFailed) t row) ∧
    match r with
    | Ok _ => ∃ libID, se_decode e peerID = Some libID ∧ sv_sent s' = sv_sent s ++ [(libID, msg)]
    | Err _ => sv_sent s' = sv_sent s
    end.
Proof.
  intros He msg Hv row.
  assert (Ht : trimmed (msg_ID msg)) by (apply graphic_trimmed, Itoa_graphic).
  assert (Hne : msg_ID msg ≠ EmptyString) by apply Itoa_nonempty.
  destruct (SendDirect peerID body e s) as [r s'] eqn:E. revert E. unfold SendDirect.
  unfold mbind at 1, SV_bind, asks at 1. unfold mbind at 1, SV_bind, clock.
  change (NewChatMessage _ (sender_id e) peerID EmptyString body) with msg.
  unfold mbind at 1, SV_bind. unfold store at 1. cbn [sv_world with_world].
  assert (∃ o w1, Storage.InsertMessage msg Storage.DirectionOutbound Storage.StatusPending (se_env e) (tick (sv_world s))
    = (o, w1) ∧ Storage.db_messages (Storage.w_db w1) !! msg_ID msg = Some row) as (o & w1 & -> & Hrow).
  { rewrite InsertMessage_calm, Hv by done. cbn [Storage.w_db tick]. unfold row.
    destruct (Storage.db_messages (Storage.w_db (sv_world s)) !! msg_ID msg) as [old|] eqn:Ho.
    - eexists _, _. by split.
    - eexists _, _. split; [done|]. by apply lookup_insert_eq. }
  unfold mbind at 1, SV_bind, setPeerName. unfold mbind at 1, SV_bind, skallToLibP2P, asks at 1.
  assert (Hup : ∀ st w, st ≠ EmptyString → Storage.db_messages (Storage.w_db w) !! msg_ID msg = Some row →
    ∃ w' t, Storage.UpdateMessageStatus (msg_ID msg) st (se_env e) w = (Ok (), w') ∧
      Storage.db_messages (Storage.w_db w') !! msg_ID msg = Some (Storage.set_status st t row)).
  { intros st w Hst Hw. destruct (UpdateMessageStatus_calm (se_env e) He (msg_ID msg) st w row) as (w' & t & H & Hd);
      [done..|]. exists w', t. by rewrite H, Hd, lookup_insert_eq. }
  destruct (se_decode e peerID) as [libID|] eqn:Ed.
  - unfold mbind at 1, SV_bind, host_send. destruct (se_send e _); unfold mbind at 1, SV_bind; unfold store at 1;
      cbn [sv_world with_world with_sent with_names].
    + destruct (Hup Storage.StatusSent (tick w1)) as (w' & t & -> & Hd); [done..|].
      unfold mbind, SV_bind, asks, publish. destruct (publish_to _ _ _). intros [= <- <-].
      cbn [sv_world sv_sent with_panic with_chans with_world with_sent]. eauto.
    + destruct (Hup Storage.StatusFailed (tick w1)) as (w' & t & -> & Hd); [done..|].
      intros [= <- <-]. cbn [sv_world with_world]. eauto.
  - unfold mbind at 1, SV_bind. unfold store at 1. cbn [sv_world with_world with_sent with_names].
    destruct (Hup Storage.StatusFailed w1) as (w' & t & -> & Hd); [done..|].
    intros [= <- <-]. cbn [sv_world with_world]. eauto.
Qed.

(** A direct message that is stored ends up with the status of its delivery:
    sent exactly when the host accepted it, failed when the peer could not be
    resolved or the send failed, and then nothing was handed over. *)
Theorem SendDirect_status e s peerID body : Storage.no_fault (se_env e) →
  let msg := direct_message e s peerID body in
  Validate msg = Ok () →
  Storage.db_messages (Storage.w_db (sv_world s)) !! msg_ID msg = None →
  let '(r, s') := SendDirect peerID body e s in
  ∃ row, Storage.db_messages (Storage.w_db (sv_world s')) !! msg_ID msg = Some row ∧
    match r with
    | Ok _ => Storage.row_status row = Storage.StatusSent ∧
        ∃ libID, se_decode e peerID = Some libID ∧ sv_sent s' = sv_sent s ++ [(libID, msg)]
    | Err _ => Storage.row_status row = Storage.StatusFailed ∧ sv_sent s' = sv_sent s
    end.
Proof.
  intros He msg Hv Hn. pose proof (SendDirect_row e s peerID body He Hv) as H. cbv zeta in H.
  destruct (SendDirect peerID body e s) as [r s']. destruct H as (t & Hrow & Hr).
  eexists. split; [exact Hrow|]. by destruct r.
Qed.

(** The ID of a message is the time in nanoseconds.  When a stored message has it
    already, of the same instant or chosen by a peer, the new one is sent but not
    stored, and the status of its delivery goes to the other. *)
Theorem taken_id_not_stored e s peerID body row : Storage.no_fault (se_env e) →
  let msg := direct_message e s peerID body in
  Validate msg = Ok () →
  Storage.db_messages (Storage.w_db (sv_world s)) !! msg_ID msg = Some row →
  let '(r, s') := SendDirect peerID body e s in
  ∃ t, Storage.db_messages (Storage.w_db (sv_world s')) !! msg_ID msg =
      Some (Storage.set_status (if is_ok r then Storage.StatusSent else Storage.StatusFailed) t row) ∧
    (r = Ok () → ∃ libID, sv_sent s' = sv_sent s ++ [(libID, msg)]).
Proof.
  intros He msg Hv Hn. pose proof (SendDirect_row e s peerID body He Hv) as H. cbv zeta in H. fold msg in H.
  rewrite Hn in H. destruct (SendDirect peerID body e s) as [r s']. destruct H as (t & Hrow & Hr).
  exists t. split; [exact Hrow|]. intros ->. destruct Hr as (libID & _ & H). eauto.
Qed.

(** A peer sends a message with the ID of the next one. *)
Definition foreseen : Message := mkMessage 1 "5" TypeChat "mallory" EmptyString EmptyString unix_epoch "first".

Lemma taken_id_not_stored_witness : ∃ row,
  Storage.db_messages (Storage.w_db (sv_world (SendDirect "bob" "hi" sample_env
    (handleInbound foreseen "mallory" sample_env empty_service).2).2)) !! "5" = Some row ∧
  Storage.row_body row = "first" ∧ Storage.row_status row = Storage.StatusSent.
Proof.
  destruct (Storage.db_messages (Storage.w_db (sv_world (handleInbound foreseen "mallory" sample_env empty_service).2))
    !! "5") as [row|] eqn:E; [|vm_compute in E; discriminate E].
  assert (Hb : Storage.row_body row = "first") by (vm_compute in E; by injection E as <-).
  pose proof (taken_id_not_stored sample_env (handleInbound foreseen "mallory" sample_env empty_service).2 "bob" "hi" row
    (λ _, eq_refl)) as H.
  destruct (SendDirect "bob" "hi" sample_env (handleInbound foreseen "mallory" sample_env empty_service).2) as [r s'] eqn:Es.
  assert (r = Ok ()) as ->.
  { change r with (r, s').1. rewrite <- Es. vm_compute. reflexivity. }
  destruct H as (t & Hr & _); [by vm_compute|exact E|].
  exists (Storage.set_status Storage.StatusSent t row). split; [exact Hr|]. by split.
Defined.

Lemma SendDirect_status_witness : ∃ row,
  Storage.db_messages (Storage.w_db (sv_world (SendDirect "bob" "hi" sample_env empty_service).2)) !! "0"
    = Some row ∧ Storage.row_status row = Storage.StatusSent.
Proof.
  pose proof (SendDirect_status sample_env empty_service "bob" "hi" (λ _, eq_refl)) as H.
  destruct (SendDirect "bob" "hi" sample_env empty_service) as [r s'] eqn:E.
  assert (r = Ok ()) as ->.
  { change r with (r, s').1. rewrite <- E. vm_compute. reflexivity. }
  destruct H as (row & Hr & Hs & _); [by vm_compute|by vm_compute|].
  exists row. split; [exact Hr|exact Hs].
Defined.
