(* ===== verification/Concurrent.v ===== *)
(** * The chat service called concurrently

    [ChatService] ([internal/chat/service.go]) says that its methods may be called
    concurrently.  In [Chat] an operation is one function; here it is a program of
    the actions that are atomic in the code and of the locks around them: those of
    the service and of the group manager, and the database connection, of which
    there is one, so that an SQL statement waits for the one before it.  [publish]
    sends to one subscriber after the other while it holds the list of them.  A
    subscriber that receives waits for an event.  What the code calls outside, the
    host and the driver, returns.  The clock is read with the statement that
    stores the time.

    Two methods hold no lock where they could: [SetGroupMembership] runs two
    statements, and [SendGroupMessage] looks at the members of a group after it has
    released the lock of the manager.  The state records who is in such a look; a
    write to the same map meanwhile is a data race, which ends a Go program. *)

From S2P Require Import Prelude Threads GoStrings GoTime Json Protocol Identity Storage Groups Persistence Chat.

Open Scope Z_scope.

Module Concurrent.

(** ** State *)

Record Shared : Type := mkShared {
  sh_sv : Chat.Service;
  (** the calls inside the unlocked look at a group's members *)
  sh_reading : gmap nat string;
  (** a map was written while it was being read *)
  sh_race : bool
}.

Definition readers (g : string) (s : Shared) : gset nat :=
  dom (filter (λ x, x.2 = g) (sh_reading s)).

Definition with_sv (sv : Chat.Service) (s : Shared) : Shared := mkShared sv (sh_reading s) (sh_race s).

Definition NewShared (sv : Chat.Service) : Shared := mkShared sv ∅ false.

(** ** Locks *)

(** [subsMu], [statusMu] and [peerNamesMu] of the service, [mu] of the manager,
    and the connection that [SetMaxOpenConns(1)] leaves. *)
Inductive lock : Type := SubsMu | StatusMu | PeerNamesMu | GroupsMu | Conn.

#[global] Instance lock_eq_dec : EqDecision lock.
Proof. solve_decision. Defined.

Abbreviation calling := (prog lock Shared).

(** ** Calls *)

Section Calls.
Context (e : Chat.SEnv).

Definition atom {A} (m : Chat.SV A) : calling A :=
  act (λ s, let '(r, sv) := m e (sh_sv s) in (r, with_sv sv s)).

(** A statement on the one connection. *)
Definition sql {A} (m : Storage.DB A) : calling (result Storage.db_error A) :=
  locked Writing Conn (atom (Chat.store m)).

(** [select { case ch <- ev: default: }] on the [n]th subscriber, and whether it
    panics, which ends the loop.  The list is the one the loop began with, since
    the lock is held. *)
Definition offer_nth (ev : Chat.Event) (n : nat) : Chat.SV bool := λ _ s,
  match i ← Chat.sv_subs s !! n; c ← Chat.sv_chans s !! i; Some (i, c) with
  | None => (false, s)
  | Some (i, c) =>
      if Chat.ch_closed c then (true, Chat.with_panic true s)
      else (false, Chat.with_chans (<[i := Chat.offer ev c]> (Chat.sv_chans s)) (Chat.sv_subs s) s)
  end.
Definition send_or_drop (ev : Chat.Event) (n : nat) : calling bool := atom (offer_nth ev n).

Fixpoint send_each (ev : Chat.Event) (l : list nat) : calling () :=
  match l with
  | [] => mret ()
  | n :: l => panics ← send_or_drop ev n; if panics : bool then mret () else send_each ev l
  end.

Definition publish (ev : Chat.Event) : calling () :=
  locked Writing SubsMu
    (n ← atom (Chat.asks (λ _ s, length (Chat.sv_subs s)));
     send_each ev (seq 0 n)).

(** A receive waits until there is an event or the channel is closed; on a channel
    that nobody made, for ever. *)
Definition has_event (i : nat) (s : Shared) : bool :=
  match Chat.sv_chans (sh_sv s) !! i with
  | None => false
  | Some c => Chat.ch_closed c || negb (bool_decide (Chat.ch_buf c = []))
  end.
Definition receive (i : nat) : calling Chat.received :=
  await (has_event i) (λ s, let '(r, sv) := Chat.receive i e (sh_sv s) in (r, with_sv sv s)).

Definition Subscribe : calling nat := locked Writing SubsMu (atom Chat.Subscribe).
Definition SubscribeE : calling (result Chat.service_error nat) := locked Writing SubsMu (atom Chat.SubscribeE).
Definition Unsubscribe (i : nat) : calling () := locked Writing SubsMu (atom (Chat.Unsubscribe i)).
Definition Close : calling () := locked Writing SubsMu (atom Chat.Close).

Definition setPeerName (peerID name : string) : calling () :=
  locked Writing PeerNamesMu (atom (Chat.setPeerName peerID name)).
Definition getPeerName (peerID : string) : calling string :=
  locked Reading PeerNamesMu (atom (Chat.asks (λ _ s, Chat.getPeerName peerID s))).
(** Only the name is looked up under a lock. *)
Definition storedToDisplay (sm : Storage.StoredMessage) : calling Chat.DisplayMessage :=
  locked Reading PeerNamesMu (atom (Chat.asks (λ e s, Chat.storedToDisplay e s sm))).

(** A section under the manager's lock. *)
Definition managed {A} (f : Time → Manager → Manager * A) : calling A :=
  locked Writing GroupsMu (atom (Chat.manager f)).
Definition ViewMembers (groupID : string) : calling (list string) :=
  locked Reading GroupsMu (atom (Chat.asks (λ _ s, Chat.result_list (Groups.ViewMembers groupID (Chat.sv_groups s))))).

(** One that writes the members of a group when it succeeds. *)
Definition member_call (groupID : string) (f : Time → Manager → Manager * result group_error ())
  : calling (result group_error ()) :=
  locked Writing GroupsMu (act (λ s, let '(r, sv) := Chat.manager f e (sh_sv s) in
    (r, mkShared sv (sh_reading s)
          (sh_race s || is_ok r && negb (bool_decide (readers (TrimSpace groupID) s = ∅)))))).

(** A deleted group is still the one its readers look at, and nobody writes to it
    any more. *)
Definition delete_call (groupID : string) : calling (result group_error ()) :=
  locked Writing GroupsMu (act (λ s, let '(r, sv) := Chat.manager (λ _, DeleteGroup groupID) e (sh_sv s) in
    (r, mkShared sv (if is_ok r then filter (λ x, x.2 ≠ TrimSpace groupID) (sh_reading s)
                     else sh_reading s) (sh_race s)))).

(** The look at the members goes on when the lock is released. *)
Definition begin_look (groupID : string) : calling (nat * option Group) :=
  locked Reading GroupsMu (act (λ s, let i := fresh (dom (sh_reading s)) in
    match mgr_groups (Chat.sv_groups (sh_sv s)) !! groupID with
    | None => ((i, None), s)
    | Some group => ((i, Some group), mkShared (sh_sv s) (<[i := groupID]> (sh_reading s)) (sh_race s))
    end)).
Definition end_look (i : nat) : calling () :=
  act (λ s, ((), mkShared (sh_sv s) (delete i (sh_reading s)) (sh_race s))).

(** What it sees is the group it found, unless there was a race. *)
Definition find_sender (groupID senderID : string) : calling (result group_error ()) :=
  if decide (groupID = EmptyString) then mret (Err ErrInvalidGroupID) else
  if decide (senderID = EmptyString) then mret (Err ErrInvalidPeerID) else
  '(i, og) ← begin_look groupID;
  match og with
  | None => mret (Err (ErrGroupNotFound groupID))
  | Some group =>
      _ ← end_look i;
      match g_Members group !! senderID with
      | None => mret (Err (ErrMemberNotFound senderID))
      | Some _ => mret (Ok ())
      end
  end.

Definition SendGroupMessage (groupID senderID body : string) : calling (result group_error Message) :=
  let groupID := TrimSpace groupID in
  let senderID := TrimSpace senderID in
  r ← find_sender groupID senderID;
  t ← atom Chat.clock;
  mret (match r with
        | Err x => Err x
        | Ok _ => if blank body then Err ErrBodyRequired
                  else Ok (NewChatMessage t senderID EmptyString groupID body)
        end).

Definition SetGroupMembership (groupID peerID : string) (joinedAt : Time) (active : bool) (lastSeen : Time)
  : calling (result Storage.db_error ()) :=
  r ← sql (Storage.SetGroupMembership_peer groupID peerID joinedAt lastSeen);
  match r with
  | Err x => mret (Err x)
  | Ok (joinedAt, lastSeen) => sql (Storage.SetGroupMembership_row groupID peerID joinedAt active lastSeen)
  end.

Definition SendDirect (peerID body : string) : calling (result Chat.service_error ()) :=
  senderID ← atom (Chat.asks (λ e _, Chat.sender_id e));
  t ← atom Chat.clock;
  let msg := NewChatMessage t senderID peerID EmptyString body in
  _ ← sql (Storage.InsertMessage msg Storage.DirectionOutbound Storage.StatusPending);
  _ ← setPeerName peerID peerID;
  o ← atom (Chat.skallToLibP2P peerID);
  match o with
  | None =>
      _ ← sql (Storage.UpdateMessageStatus (msg_ID msg) Storage.StatusFailed);
      mret (Err (Chat.SvResolve peerID))
  | Some libID =>
      ok ← atom (Chat.host_send libID msg);
      if ok : bool then
        _ ← sql (Storage.UpdateMessageStatus (msg_ID msg) Storage.StatusSent);
        dm ← storedToDisplay (Storage.mkStoredMessage msg
                     Storage.DirectionOutbound Storage.StatusSent zeroTime zeroTime);
        _ ← publish (Chat.EventNewMessage peerID dm);
        mret (Ok ())
      else
        _ ← sql (Storage.UpdateMessageStatus (msg_ID msg) Storage.StatusFailed);
        mret (Err Chat.SvSend)
  end.

Fixpoint fan_out (local : string) (connected : gset string) (msg : Message) (members : list string)
  : calling () :=
  match members with
  | [] => mret ()
  | memberID :: rest =>
      if decide (memberID = local) then fan_out local connected msg rest else
      o ← atom (Chat.skallToLibP2P memberID);
      match o with
      | None => fan_out local connected msg rest
      | Some libID =>
          if decide (memberID ∉ connected) then fan_out local connected msg rest else
          _ ← atom (Chat.host_send libID msg);
          fan_out local connected msg rest
      end
  end.

Definition SendGroup (groupID body : string) : calling (result Chat.service_error ()) :=
  local ← atom (Chat.asks (λ e _, Chat.local_id e));
  r ← SendGroupMessage groupID local body;
  match r with
  | Err x => mret (Err (Chat.SvGroup x))
  | Ok msg =>
      _ ← sql (Storage.InsertMessage msg Storage.DirectionOutbound Storage.StatusPending);
      members ← ViewMembers groupID;
      connected ← atom Chat.connectedSet;
      _ ← fan_out local connected msg members;
      _ ← sql (Storage.UpdateMessageStatus (msg_ID msg) Storage.StatusSent);
      dm ← storedToDisplay (Storage.mkStoredMessage msg
                   Storage.DirectionOutbound Storage.StatusSent zeroTime zeroTime);
      _ ← publish (Chat.EventNewMessage groupID dm);
      mret (Ok ())
  end.

Definition CreateGroup (groupID name : string) : calling (result Chat.service_error ()) :=
  r ← managed (λ t, Groups.CreateGroup t groupID name);
  match r with
  | Err x => mret (Err (Chat.SvGroup x))
  | Ok g =>
      r ← sql (Storage.UpsertGroup (g_ID g) (g_Name g) (g_CreatedAt g));
      mret (Chat.persisted "persist group" r)
  end.

Definition JoinGroup (groupID peerID : string) : calling (result Chat.service_error ()) :=
  t ← atom Chat.clock;
  r ← member_call groupID (λ t, AddMember t groupID peerID);
  match r with
  | Ok _ | Err (ErrMemberAlreadyAdded _) =>
      r ← SetGroupMembership groupID peerID t true t;
      mret (Chat.persisted "persist membership" r)
  | Err x => mret (Err (Chat.SvGroup x))
  end.

Definition LeaveGroup (groupID peerID : string) : calling (result Chat.service_error ()) :=
  r ← member_call groupID (λ t, Groups.LeaveGroup t groupID peerID);
  match r with
  | Ok _ | Err (ErrMemberNotFound _) =>
      t ← atom Chat.clock;
      r ← SetGroupMembership groupID peerID t false t;
      mret (Chat.persisted "persist leave membership" r)
  | Err x => mret (Err (Chat.SvGroup x))
  end.

Definition DeleteGroup (groupID : string) : calling (result Chat.service_error ()) :=
  r ← delete_call groupID;
  match r with
  | Ok _ | Err (ErrGroupNotFound _) =>
      r ← sql (Storage.DeleteGroup groupID);
      mret (Chat.persisted "delete group from store" r)
  | Err x => mret (Err (Chat.SvGroup x))
  end.

Definition handleInbound (msg : Message) (from : string) : calling () :=
  let senderID := from in
  if Chat.maxPeerIDLen <? slen senderID then mret () else
  t ← atom Chat.clock;
  _ ← sql (Storage.UpsertPeer senderID senderID t);
  _ ← sql (Storage.InsertMessage msg Storage.DirectionInbound Storage.StatusReceived);
  let convID := if decide (msg_GroupID msg ≠ EmptyString) then msg_GroupID msg else senderID in
  name ← getPeerName senderID;
  _ ← publish (Chat.EventNewMessage convID
        (Chat.mkDisplay (msg_ID msg) senderID name (msg_Body msg) (msg_Timestamp msg) false));
  mret ().

Fixpoint upsert_connected (peers : list string) : calling () :=
  match peers with
  | [] => mret ()
  | pid :: rest =>
      t ← atom Chat.clock;
      _ ← sql (Storage.UpsertPeer pid pid t);
      upsert_connected rest
  end.

(** A tick of the one monitor of the service; the count is its own variable. *)
Definition monitorPeers : calling () :=
  connectedPeers ← atom Chat.ConnectedPeers;
  let count := length connectedPeers in
  _ ← upsert_connected connectedPeers;
  let newStatus := if (0 <? count)%nat then Chat.StatusConnected else Chat.StatusConnecting in
  old ← locked Writing StatusMu (atom (λ _ s, ((Chat.sv_status s, Chat.sv_lastCount s), Chat.with_status newStatus count s)));
  _ ← (if decide (old.1 ≠ newStatus) then publish (Chat.EventStatusChanged newStatus) else mret ());
  _ ← (if decide (old.2 ≠ count) then publish Chat.EventPeerConnected else mret ());
  mret ().

Definition ignore {A} (p : calling A) : calling () := _ ← p; mret ().

Definition call (o : Chat.op) : calling () :=
  match o with
  | Chat.OpSubscribe => ignore Subscribe
  | Chat.OpSubscribeE => ignore SubscribeE
  | Chat.OpUnsubscribe i => Unsubscribe i
  | Chat.OpReceive i => ignore (receive i)
  | Chat.OpClose => Close
  | Chat.OpSendDirect p b => ignore (SendDirect p b)
  | Chat.OpSendGroup g b => ignore (SendGroup g b)
  | Chat.OpCreateGroup g n => ignore (CreateGroup g n)
  | Chat.OpJoinGroup g p => ignore (JoinGroup g p)
  | Chat.OpLeaveGroup g p => ignore (LeaveGroup g p)
  | Chat.OpDeleteGroup g => ignore (DeleteGroup g)
  | Chat.OpInbound m from => handleInbound m from
  | Chat.OpMonitor => monitorPeers
  end.

End Calls.

(** ** Which calls keep apart *)

Inductive key : Type := KGroup (g : string) | KMonitor.

#[global] Instance key_eq_dec : EqDecision key.
Proof. solve_decision. Defined.

(** The service has one monitor.  The other calls may run side by side in any
    number. *)
Definition one_monitor (o : Chat.op) : option key :=
  match o with Chat.OpMonitor => Some KMonitor | _ => None end.

(** Callers that take care not to use a group from two places at a time. *)
Definition one_per_group (o : Chat.op) : option key :=
  match o with
  | Chat.OpSendGroup g _ | Chat.OpCreateGroup g _ | Chat.OpJoinGroup g _ | Chat.OpLeaveGroup g _
  | Chat.OpDeleteGroup g => Some (KGroup (TrimSpace g))
  | _ => one_monitor o
  end.

Definition Calls : Type := Pool (L := lock) (St := Shared) (C := Chat.op).

(** What happened to a pool that starts with the service [sv]. *)
Definition play (owns : Chat.op → option key) e evs sv : option Calls :=
  pool_run (call e) owns evs (start_pool (NewShared sv)).

(** Memory and tables agree on a group. *)
Definition agree (g : string) (s : Shared) : Prop :=
  abs (Chat.sv_groups (sh_sv s)) !! g = Chat.stored_rosters (Storage.w_db (Chat.sv_world (sh_sv s))) !! g.

End Concurrent.

Import Chat Concurrent.

Abbreviation calling := (prog lock Shared).

(** ** A call that nothing interrupts is the operation of [Chat] *)

Section Alone.
Context (e : SEnv).

Definition does {A} (p : calling A) (m : SV A) : Prop :=
  ∀ s, (run p s).1 = (m e (sh_sv s)).1 ∧ sh_sv (run p s).2 = (m e (sh_sv s)).2.

Lemma does_ret {A} (a : A) : does (mret a) (mret a).
Proof. done. Qed.

Lemma does_bind {A B} p m (f : A → calling B) (g : A → SV B) :
  does p m → (∀ a, does (f a) (g a)) → does (p ≫= f) (m ≫= g).
Proof.
  intros Hp Hf s. rewrite run_bind. unfold mbind, SV_bind. destruct (Hp s) as [H1 H2].
  destruct (run p s) as [a s1]. destruct (m e (sh_sv s)) as [a' sv]. cbn in H1, H2. subst. apply Hf.
Qed.

Lemma does_act {A} ready (f : Shared → A * Shared) (m : SV A) :
  (∀ s, (f s).1 = (m e (sh_sv s)).1 ∧ sh_sv (f s).2 = (m e (sh_sv s)).2) → does (await ready f) m.
Proof. intros H s. cbn. specialize (H s). by destruct (f s). Qed.

Lemma does_locked {A} md l (p : calling A) m : does p m → does (locked md l p) m.
Proof. intros H s. rewrite run_locked. apply H. Qed.

Lemma does_atom {A} (m : SV A) : does (atom e m) m.
Proof. apply (does_act always). intros s. by destruct (m e (sh_sv s)). Qed.

Lemma does_receive i : does (receive e i) (Chat.receive i).
Proof. apply does_act. intros s. by destruct (Chat.receive i e (sh_sv s)). Qed.

Lemma does_member g f : does (member_call e g f) (manager f).
Proof. apply does_locked, (does_act always). intros s. by destruct (manager f e (sh_sv s)). Qed.

Lemma does_delete g : does (delete_call e g) (manager (λ _, Groups.DeleteGroup g)).
Proof. apply does_locked, (does_act always). intros s. by destruct (manager _ e (sh_sv s)). Qed.

(** The sends to the subscribers from the [k]th on. *)
Lemma run_send_each ev l : ∀ k s, drop k (sv_subs (sh_sv s)) = l →
  sh_sv (run (send_each e ev (seq k (length l))) s).2 =
    let '(chans, panic) := publish_to ev l (sv_chans (sh_sv s)) in
    with_panic panic (with_chans chans (sv_subs (sh_sv s)) (sh_sv s)).
Proof.
  induction l as [|i l IH]; intros k s Hl; cbn [length seq send_each publish_to]; [cbn; by destruct (sh_sv s)|].
  assert (Hi : sv_subs (sh_sv s) !! k = Some i) by (by rewrite <- (Nat.add_0_r k), <- lookup_drop, Hl).
  assert (Hd : drop (S k) (sv_subs (sh_sv s)) = l) by (by rewrite <- Nat.add_1_r, <- drop_drop, Hl).
  rewrite run_bind. unfold send_or_drop, atom, act, offer_nth. cbn [run]. rewrite Hi. cbn.
  destruct (sv_chans (sh_sv s) !! i) as [c|] eqn:Ec; cbn; [|rewrite IH; cbn; done].
  destruct (ch_closed c); cbn; [by destruct (sh_sv s)|].
  rewrite IH; cbn; [|exact Hd]. by destruct (publish_to ev l _).
Qed.

Lemma does_publish ev : does (publish e ev) (Chat.publish ev).
Proof.
  intros s. unfold publish. rewrite run_locked, run_bind. cbn [run atom act asks].
  split; [by destruct (run _ _) as [[]]; unfold Chat.publish; destruct (publish_to _ _ _)|].
  unfold Chat.publish. cbn. rewrite (run_send_each ev (sv_subs (sh_sv s)) 0) by done. cbn.
  by destruct (publish_to _ _ _).
Qed.

Lemma does_SendGroupMessage g p b :
  does (SendGroupMessage e g p b) (manager (λ t m, (m, Groups.SendGroupMessage t g p b m))).
Proof.
  intros s. unfold SendGroupMessage, find_sender, manager, Groups.SendGroupMessage. rewrite !run_bind.
  case_decide; [done|]. case_decide; [done|]. cbn.
  destruct (mgr_groups _ !! TrimSpace g) as [grp|]; [|done]. cbn.
  destruct (g_Members grp !! TrimSpace p); [|done]. cbn. by destruct (blank b).
Qed.

Lemma does_SetGroupMembership g p j a l :
  does (SetGroupMembership e g p j a l) (store (Storage.SetGroupMembership g p j a l)).
Proof.
  intros s. unfold SetGroupMembership. rewrite run_bind. unfold sql. rewrite run_locked. unfold atom, act. cbn. unfold store.
  rewrite SetGroupMembership_split. destruct (Storage.SetGroupMembership_peer g p j l _ _) as [[[j' l']|x] w]; [|done].
  cbn. unfold store. cbn. by destruct (Storage.SetGroupMembership_row g p j' a l' _ _).
Qed.

Ltac does_step := first
  [ apply does_ret | apply does_atom | apply does_member | apply does_delete | apply does_SendGroupMessage
  | apply does_SetGroupMembership | apply does_receive | apply does_publish
  | (apply does_locked; apply does_atom)
  | (apply does_bind; [|intros ?]) | case_decide | case_match ].

Lemma does_fan_out local c msg l : does (fan_out e local c msg l) (Chat.fan_out local c msg l).
Proof.
  induction l as [|x l IH]; cbn [fan_out Chat.fan_out]; [apply does_ret|].
  repeat first [apply IH | does_step].
Qed.

Lemma does_upsert_connected l : does (upsert_connected e l) (Chat.upsert_connected l).
Proof.
  induction l as [|x l IH]; cbn [upsert_connected Chat.upsert_connected]; [apply does_ret|].
  repeat first [apply IH | does_step].
Qed.

Lemma does_call o : does (call e o) (run_op o).
Proof.
  destruct o; cbn [call run_op]; unfold ignore, Chat.ignore;
    try (apply does_bind; [|intros; apply does_ret]); try (apply does_locked, does_atom); try apply does_receive.
  - unfold SendDirect, Chat.SendDirect. repeat does_step.
  - unfold SendGroup, Chat.SendGroup. repeat first [does_step | apply does_fan_out].
  - unfold CreateGroup, CreateGroup_sv. repeat does_step.
  - unfold JoinGroup, Chat.JoinGroup. repeat does_step.
  - unfold LeaveGroup, LeaveGroup_sv. repeat does_step.
  - unfold DeleteGroup, DeleteGroup_sv. repeat does_step.
  - unfold handleInbound, Chat.handleInbound. repeat does_step.
  - unfold monitorPeers, Chat.monitorPeers. apply does_bind; [does_step|intros l].
    apply does_bind; [apply does_upsert_connected|intros _]. cbn zeta.
    generalize (if (0 <? length l)%nat then StatusConnected else StatusConnecting). intros st.
    match goal with |- does ?p (asks ?a ≫= λ old, (?w ≫= ?g)) => change (does p ((λ en s, (a en s, (w en s).2)) ≫= λ old, g ())) end.
    repeat does_step.
Qed.

End Alone.

(** ** Peers are never forgotten *)

Definition peers_of (s : Shared) : gset string := dom (Storage.db_peers (Storage.w_db (sv_world (sh_sv s)))).
Definition le_peers (s s' : Shared) : Prop := peers_of s ⊆ peers_of s'.

#[global] Instance le_peers_preorder : PreOrder le_peers.
Proof. split; [intros x|intros x y z]; unfold le_peers; set_solver. Qed.

Definition has_peers (D : gset string) (d : Storage.Database) : Prop := D ⊆ dom (Storage.db_peers d).

Lemma peers_refl s : has_peers (peers_of s) (Storage.w_db (sv_world (sh_sv s))).
Proof. unfold has_peers, peers_of. set_solver. Qed.

Lemma dom_upsert {V} k v (f : V → V) (m : gmap string V) D : D ⊆ dom m → D ⊆ dom (Storage.upsert k v f m).
Proof.
  intros H x Hx. apply elem_of_dom. apply H, elem_of_dom in Hx. destruct (decide (x = k)) as [->|Hk].
  - rewrite upsert_lookup_eq. by destruct (m !! k).
  - by rewrite upsert_lookup_ne.
Qed.

Lemma peers_UpsertPeer D p n t : Storage.keeps (has_peers D) (Storage.UpsertPeer p n t).
Proof. unfold Storage.UpsertPeer. repeat keeps_step; by apply dom_upsert. Qed.

Lemma peers_UpsertGroup D g n t : Storage.keeps (has_peers D) (Storage.UpsertGroup g n t).
Proof. unfold Storage.UpsertGroup. repeat keeps_step; done. Qed.

Lemma peers_DeleteGroup D g : Storage.keeps (has_peers D) (Storage.DeleteGroup g).
Proof.
  unfold Storage.DeleteGroup, Storage.delete_group_row. repeat keeps_step; simplify_eq/=; try done; by case_match; simplify_eq/=.
Qed.

Lemma peers_InsertMessage D m d st : Storage.keeps (has_peers D) (Storage.InsertMessage m d st).
Proof.
  unfold Storage.InsertMessage. destruct (Validate m); [|apply keeps_throw]. repeat keeps_step; simplify_eq/=; done.
Qed.

Lemma peers_UpdateMessageStatus D i st : Storage.keeps (has_peers D) (Storage.UpdateMessageStatus i st).
Proof. unfold Storage.UpdateMessageStatus. repeat keeps_step; simplify_eq/=; done. Qed.

Lemma peers_SetGroupMembership_peer D g p j l : Storage.keeps (has_peers D) (Storage.SetGroupMembership_peer g p j l).
Proof. apply keeps_SetGroupMembership_peer. intros. apply peers_UpsertPeer. Qed.

Lemma peers_SetGroupMembership_row D g p j a l : Storage.keeps (has_peers D) (Storage.SetGroupMembership_row g p j a l).
Proof. unfold Storage.SetGroupMembership_row. repeat keeps_step; simplify_eq/=; done. Qed.

(** ** Calls that leave the groups alone *)

Section Calm.
Context (e : SEnv).

(** An action that changes no group and forgets no peer, nor breaks a channel. *)
Definition keeps_groups (d0 : Storage.Database) (D : gset string) (d : Storage.Database) : Prop :=
  same_groups d0 d ∧ has_peers D d.
Record calm {A} (m : SV A) : Prop := {
  ca_groups : ∀ M d0 D, holds e (framed M (keeps_groups d0 D)) m;
  ca_subs : holds e wf_subs m
}.

Lemma calm_quiet {A} (m : SV A) : (∀ M P, holds e (framed M P) m) → quiet e m → calm m.
Proof. intros H1 H2. split; [intros; apply H1|by apply subs_quiet]. Qed.

Lemma calm_store {A} (m : Storage.DB A) : (∀ d0 D, Storage.keeps (keeps_groups d0 D) m) → calm (store m).
Proof. intros H. split; [intros M d0 D; by apply holds_store|apply subs_quiet, quiet_store]. Qed.

Lemma calm_offer ev n : calm (offer_nth ev n).
Proof.
  split.
  - intros M d0 D s H. unfold offer_nth. destruct (_ ≫= _) as [[i c]|]; [|exact H]. by destruct (ch_closed c).
  - intros s [Ho Hn Hc Hb Hp]. unfold offer_nth. destruct (sv_subs s !! n) as [i|] eqn:Ei; [|by split]. cbn.
    destruct (Ho i) as (c & Ec & Hcl); [by eapply list_elem_of_lookup_2|]. rewrite Ec. cbn. rewrite Hcl.
    split; cbn; try done.
    + intros j Hj. destruct (offer_buf ev c (Hb i c Ec)) as [_ Hof]. destruct (decide (j = i)) as [->|Hji].
      * rewrite lookup_insert_eq. exists (offer ev c). by rewrite Hof.
      * rewrite lookup_insert_ne by done. by apply Ho.
    + intros j c' [[<- <-]|[_ H]]%lookup_insert_Some; [|by apply (Hb j)]. by apply offer_buf, (Hb i).
Qed.

Lemma calm_asks {A} (f : SEnv → Service → A) : calm (asks f).
Proof. apply calm_quiet; [intros; apply holds_asks|done]. Qed.

Lemma calm_send l m : calm (host_send l m).
Proof. apply calm_quiet; [intros; apply holds_send|apply quiet_send]. Qed.

Lemma calm_clock : calm clock.
Proof. apply calm_quiet; [intros M P s H; exact H|done]. Qed.

Lemma calm_connected : calm ConnectedPeers ∧ calm connectedSet.
Proof. split; (apply calm_quiet; [intros M P s H; exact H|done]). Qed.

Lemma calm_name p n : calm (Chat.setPeerName p n).
Proof. apply calm_quiet; [intros M P s H; exact H|done]. Qed.

Lemma calm_status n st : calm (λ _ s, ((sv_status s, sv_lastCount s), with_status st n s)).
Proof. apply calm_quiet; [intros M P s H; exact H|done]. Qed.

Lemma calm_subs : calm Chat.Subscribe ∧ calm Chat.SubscribeE ∧ (∀ i, calm (Chat.Unsubscribe i)) ∧ calm Chat.Close ∧
  (∀ i, calm (Chat.receive i)).
Proof.
  split_and!; [| |intros i| |intros i]; (split; [intros; apply holds_subs|]);
    [apply holds_ignored, (subs_op e OpSubscribe)|apply holds_ignored, (subs_op e OpSubscribeE)
    |apply (subs_op e (OpUnsubscribe i))|apply (subs_op e OpClose)
    |apply holds_ignored, (subs_op e (OpReceive i))].
Qed.

Lemma calm_tables : (∀ p n t, calm (store (Storage.UpsertPeer p n t))) ∧
  (∀ m d st, calm (store (Storage.InsertMessage m d st))) ∧
  (∀ i st, calm (store (Storage.UpdateMessageStatus i st))).
Proof.
  split_and!; intros; apply calm_store; intros d0 D; apply keeps_and;
    auto using same_UpsertPeer, same_InsertMessage, same_UpdateMessageStatus,
      peers_UpsertPeer, peers_InsertMessage, peers_UpdateMessageStatus.
Qed.

(** For any account of the state that calm actions do not touch. *)
Context {V : Type} (view : key → Shared → V) (ok : Shared → Prop).
Context (still_calm : ∀ A ready (m : SV A), calm m → still view ok le_peers
  (await ready (λ s, let '(r, sv) := m e (sh_sv s) in (r, with_sv sv s)) : calling A)).
Local Notation still := (still view ok le_peers).

Lemma still_atom {A} (m : SV A) : calm m → still (atom e m).
Proof. apply (still_calm _ always). Qed.

Ltac calm_action := first [ apply calm_asks | apply calm_clock | apply calm_connected | apply calm_offer
  | apply calm_send | apply calm_name | apply calm_status | apply calm_tables | apply calm_subs ].

Lemma still_publish ev : still (publish e ev).
Proof.
  apply still_locked, (still_bind view ok le_peers); [apply still_atom, calm_asks|]. intros n.
  induction (seq 0 n) as [|k l IH]; cbn [send_each]; [apply (still_ret view ok le_peers)|].
  apply (still_bind view ok le_peers); [apply still_atom, calm_offer|].
  intros []; [apply (still_ret view ok le_peers)|exact IH].
Qed.

Ltac still_step := first
  [ apply (still_ret view ok le_peers) | apply still_publish
  | (apply still_atom; calm_action) | (apply still_locked, still_atom; calm_action)
  | (apply (still_bind view ok le_peers); [|intros ?]) | case_decide | case_match ].

Lemma still_fan_out local c msg l : still (fan_out e local c msg l).
Proof. induction l as [|x l IH]; cbn [fan_out]; repeat first [apply IH | still_step]. Qed.

Lemma still_upsert l : still (upsert_connected e l).
Proof. induction l as [|x l IH]; cbn [upsert_connected]; repeat first [apply IH | still_step]. Qed.

Lemma still_SendDirect p b : still (SendDirect e p b).
Proof. unfold SendDirect. repeat still_step. Qed.

(** [SendGroup] once the message is made. *)
Lemma still_send_rest (g local : string) (r : result group_error Message) : still
  (match r with
  | Err x => mret (Err (SvGroup x))
  | Ok msg =>
      _ ← sql e (Storage.InsertMessage msg Storage.DirectionOutbound Storage.StatusPending);
      members ← ViewMembers e g;
      connected ← atom e connectedSet;
      _ ← fan_out e local connected msg members;
      _ ← sql e (Storage.UpdateMessageStatus (msg_ID msg) Storage.StatusSent);
      dm ← storedToDisplay e (Storage.mkStoredMessage msg
                   Storage.DirectionOutbound Storage.StatusSent zeroTime zeroTime);
      _ ← publish e (EventNewMessage g dm);
      mret (Ok ())
  end : calling (result service_error ())).
Proof. destruct r; repeat first [apply still_fan_out | still_step]. Qed.

Lemma still_call o : leaves_groups o → (∀ g b, o ≠ OpSendGroup g b) → still (call e o).
Proof.
  destruct o; intros Ho Hs; try done; cbn [call]; unfold ignore;
    try (apply (still_bind view ok le_peers); [|intros; apply (still_ret view ok le_peers)]); 
    try (apply still_locked, still_atom; apply calm_subs); try (apply still_calm; apply calm_subs).
  - apply still_SendDirect.
  - by destruct (Hs groupID body).
  - unfold handleInbound. repeat still_step.
  - unfold monitorPeers. repeat first [apply still_upsert | still_step].
Qed.

End Calm.

(** ** Any calls side by side *)

Section AnyCalls.
Context (e : SEnv).

(** The channels, the manager and the tables are well formed. *)
Record wf_shared (s : Shared) : Prop := {
  wh_subs : wf_subs (sh_sv s);
  wh_manager : wf_manager (sv_groups (sh_sv s));
  wh_tables : Storage.wf_database (Storage.w_db (sv_world (sh_sv s)))
}.

Definition blind (k : key) (s : Shared) : () := ().
Local Notation quietly := (still (L := lock) blind wf_shared le_peers).

Lemma any_act {A} ready (f : Shared → A * Shared) :
  (∀ s, wf_shared s → wf_shared (f s).2 ∧ le_peers s (f s).2) → quietly (await ready f).
Proof. intros H. apply still_act; [apply _|]. intros s Hs. destruct (H s Hs) as [H1 H2]. by split_and!. Qed.

Lemma any_same {A} (f : Shared → A * Shared) : (∀ s, sh_sv (f s).2 = sh_sv s) → quietly (act f).
Proof.
  intros H. apply (any_act always). intros s [H1 H2 H3]. split; [split; by rewrite H|].
  unfold le_peers, peers_of. by rewrite H.
Qed.

Lemma wf_calm {A} (m : SV A) s : calm e m → wf_shared s →
  wf_shared (with_sv (m e (sh_sv s)).2 s) ∧ le_peers s (with_sv (m e (sh_sv s)).2 s).
Proof.
  intros [Hg Hc] [H1 H2 H3].
  destruct (Hg (sv_groups (sh_sv s)) (Storage.w_db (sv_world (sh_sv s))) (peers_of s) (sh_sv s))
    as (Hm & (Hd & _) & Hp); [split; [done|split; [by split_and!|apply peers_refl]]|].
  split; [|exact Hp]. split; [exact (Hc _ H1)|cbn; by rewrite Hm|exact Hd].
Qed.

Lemma any_calm {A} ready (m : SV A) : calm e m →
  quietly (await ready (λ s, let '(r, sv) := m e (sh_sv s) in (r, with_sv sv s))).
Proof.
  intros Hm. apply any_act. intros s Hs. pose proof (wf_calm m s Hm Hs) as H. by destruct (m e (sh_sv s)).
Qed.

(** A store operation, with what is known of the tables after it. *)
Lemma wf_store {A} (m : Storage.DB A) s : Storage.keeps (has_peers (peers_of s)) m → wf_shared s →
  Storage.wf_database (Storage.w_db (sv_world (store m e (sh_sv s)).2)) →
  wf_shared (with_sv (store m e (sh_sv s)).2 s) ∧ le_peers s (with_sv (store m e (sh_sv s)).2 s).
Proof.
  intros Hp [H1 H2 H3] Hd. split; [split; cbn|].
  - by apply (subs_quiet e (store m) (quiet_store e m)).
  - by rewrite store_groups.
  - done.
  - apply (holds_store e (sv_groups (sh_sv s)) (has_peers (peers_of s)) m Hp (sh_sv s)). split; [done|apply peers_refl].
Qed.

Lemma any_store {A} (m : Storage.DB A) : (∀ D, Storage.keeps (has_peers D) m) → Storage.keeps Storage.wf_database m →
  quietly (sql e m).
Proof.
  intros Hp Hm. apply still_locked, (any_act always). intros s Hs. pose proof (wf_store m s (Hp _) Hs) as H.
  unfold store in *. specialize (Hm (se_env e) (sv_world (sh_sv s)) (wh_tables s Hs)).
  destruct (m (se_env e) (sv_world (sh_sv s))). by apply H.
Qed.

(** A section under the lock of the manager. *)
Lemma wf_manager_call {R} (f : Time → Manager → Manager * R) s :
  (∀ t m, wf_manager m → wf_manager (f t m).1) → wf_shared s →
  wf_shared (with_sv (manager f e (sh_sv s)).2 s) ∧
  Storage.w_db (sv_world (manager f e (sh_sv s)).2) = Storage.w_db (sv_world (sh_sv s)).
Proof.
  intros Hf [H1 H2 H3]. pose proof (subs_quiet e _ (quiet_manager e f) (sh_sv s) H1) as Hs.
  unfold manager in *. specialize (Hf (Storage.env_clock (se_env e) (step_of (sh_sv s))) _ H2).
  destruct (f _ _) as [m r]. split; [by split|done].
Qed.

Lemma any_manager {A} (g : Shared → A * Shared) (f : Time → Manager → Manager * A) :
  (∀ t m, wf_manager m → wf_manager (f t m).1) →
  (∀ s, sh_sv (g s).2 = (manager f e (sh_sv s)).2) → quietly (act g).
Proof.
  intros Hf Hg. apply (any_act always). intros s Hs. destruct (wf_manager_call f s Hf Hs) as [[H1 H2 H3] Hd].
  split; [split; by rewrite Hg|]. unfold le_peers, peers_of. by rewrite Hg, Hd.
Qed.

Lemma any_managers : (∀ A (f : Time → Manager → Manager * A), (∀ t m, wf_manager m → wf_manager (f t m).1) →
    quietly (managed e f)) ∧
  (∀ g f, (∀ t m, wf_manager m → wf_manager (f t m).1) → quietly (member_call e g f)) ∧
  (∀ g, (∀ t m, wf_manager m → wf_manager ((λ _ : Time, Groups.DeleteGroup g) t m).1) → quietly (delete_call e g)).
Proof.
  split_and!; [intros A f Hf|intros g f Hf|intros g Hf]; apply still_locked; (eapply any_manager; [exact Hf|]); intros s;
    by destruct (manager _ e (sh_sv s)).
Qed.

Lemma any_SetGroupMembership g p j a l : quietly (SetGroupMembership e g p j a l).
Proof.
  intros own x s0 Q HQ. unfold SetGroupMembership. apply wp_bind, wp_locked.
  intros s Hs Hl Hx. unfold store.
  assert (Storage.keeps Storage.wf_database (Storage.SetGroupMembership_peer g p j l)) as Hk
    by (apply keeps_SetGroupMembership_peer; intros; apply wf_UpsertPeer).
  pose proof (wf_store (Storage.SetGroupMembership_peer g p j l) s (peers_SetGroupMembership_peer _ _ _ _ _) Hs) as H.
  unfold store in H. specialize (Hk (se_env e) (sv_world (sh_sv s)) (wh_tables s Hs)).
  destruct (Storage.SetGroupMembership_peer g p j l (se_env e) (sv_world (sh_sv s))) as [r w] eqn:E.
  destruct (H Hk) as [Hs' Hl']. split_and!; [done|done|done|].
  assert (Hx' : seen blind own (with_sv (with_world w (sh_sv s)) s) = x) by (by rewrite <- Hx).
  rewrite Hx'. cbn [wp]. destruct r as [[j' l']|err]; [|apply HQ; by etrans].
  apply SetGroupMembership_peer_Ok in E as (Hp & _). apply wp_locked. intros s1 Hs1 Hl1 Hx1. unfold store.
  pose proof (wf_store (Storage.SetGroupMembership_row g p j' a l') s1 (peers_SetGroupMembership_row _ _ _ _ _ _) Hs1) as H1.
  pose proof (wf_SetGroupMembership_row g p j' a l' (se_env e) (sv_world (sh_sv s1))) as Hk1. unfold store in H1.
  destruct (Storage.SetGroupMembership_row g p j' a l' (se_env e) (sv_world (sh_sv s1))) as [r1 w1].
  destruct H1 as [Hs2 Hl2].
  { apply Hk1. split; [apply Hs1|]. apply elem_of_dom. apply Hl1. by apply elem_of_dom. }
  split_and!; [done|done|done|]. 
  assert (Hx2 : seen blind own (with_sv (with_world w1 (sh_sv s1)) s1) = x) by (by rewrite <- Hx1).
  rewrite Hx2. apply HQ. etrans; [exact Hl|]. etrans; [exact Hl'|]. by etrans.
Qed.

Lemma wf_member_calls t m : wf_manager m →
  (∀ g n, wf_manager (Groups.CreateGroup t g n m).1) ∧ (∀ g p, wf_manager (AddMember t g p m).1) ∧
  (∀ g p, wf_manager (removeMember t g p m).1) ∧ (∀ g, wf_manager (Groups.DeleteGroup g m).1).
Proof.
  intros Hm. split_and!; intros; [destruct (Groups.CreateGroup _ _ _ _) eqn:E; by eapply wf_CreateGroup
    |destruct (AddMember _ _ _ _) eqn:E; by eapply wf_AddMember
    |destruct (removeMember _ _ _ _) eqn:E; by eapply wf_removeMember
    |destruct (Groups.DeleteGroup _ _) eqn:E; by eapply wf_DeleteGroup].
Qed.

Lemma any_SendGroupMessage g p b : quietly (SendGroupMessage e g p b).
Proof.
  unfold SendGroupMessage, find_sender. apply still_bind; [apply _| |intros r].
  - case_decide; [apply (still_ret blind wf_shared le_peers)|]. case_decide; [apply (still_ret blind wf_shared le_peers)|].
    apply still_bind; [apply _| |intros [i [grp|]]; [|apply (still_ret blind wf_shared le_peers)]].
    + apply still_locked, any_same. intros s. by destruct (mgr_groups _ !! _).
    + apply still_bind; [apply _|by apply any_same|intros _]. destruct (g_Members grp !! _); apply (still_ret blind wf_shared le_peers).
  - apply still_bind; [apply _|apply (any_calm always), calm_clock|intros t]. apply (still_ret blind wf_shared le_peers).
Qed.

Ltac any_step := first
  [ apply (still_ret blind wf_shared le_peers) | apply any_SetGroupMembership
  | apply any_SendGroupMessage | apply (any_calm always), calm_clock | apply (any_calm always), calm_asks
  | apply (still_send_rest e blind wf_shared (λ A, any_calm))
  | (apply any_managers; intros t m Hm; apply (wf_member_calls t m Hm))
  | (apply any_store; [intros; apply peers_UpsertGroup|apply (wf_run_op (Storage.OpUpsertGroup _ _ _))])
  | (apply any_store; [intros; apply peers_DeleteGroup|apply (wf_run_op (Storage.OpDeleteGroup _))])
  | (apply (still_bind blind wf_shared le_peers); [|intros ?]) | case_match ].

Lemma any_call o : quietly (call e o).
Proof.
  destruct o; try (apply (still_call e blind wf_shared (λ A, any_calm)); done); cbn [call]; unfold ignore.
  - unfold SendGroup. repeat any_step.
  - unfold CreateGroup. repeat any_step.
  - unfold JoinGroup. repeat any_step.
  - unfold LeaveGroup, Groups.LeaveGroup. repeat any_step.
  - unfold DeleteGroup. repeat any_step.
Qed.

Lemma any_play owns evs sv p : play owns e evs sv = Some p → wf_shared (NewShared sv) → wf_shared (p_state p).
Proof.
  intros Hp Hs. assert (pool_safe owns blind (λ _ _, True) wf_shared le_peers p) as [H _ _ _]; [|exact H].
  eapply pool_safe_run; [apply _| |apply pool_safe_start|exact Hp]; [|done|done].
  intros c x s _. apply any_call. intros _ s' _. by destruct (owns c), x.
Qed.

End AnyCalls.

(** ** Calls that keep to a group of their own *)

Section OnePerGroup.
Context (e : SEnv) (He : Storage.no_fault (se_env e)).

(** A group in memory, the same group in the tables, and who looks at it. *)
Definition account (k : key) (s : Shared) : option (gset string) * option (gset string) * gset nat :=
  match k with
  | KGroup g => (abs (sv_groups (sh_sv s)) !! g,
                 stored_rosters (Storage.w_db (sv_world (sh_sv s))) !! g, readers g s)
  | KMonitor => (None, None, ∅)
  end.
Definition balanced (k : key) (v : option (gset string) * option (gset string) * gset nat) : Prop :=
  v.1.1 = v.1.2 ∧ v.2 = ∅.
Definition raceless (s : Shared) : Prop := wf_shared s ∧ sh_race s = false.

Local Notation wp := (wp (L := lock) account raceless le_peers).
Local Notation still := (still (L := lock) account raceless le_peers).

Lemma elem_of_readers i g s : i ∈ readers g s ↔ sh_reading s !! i = Some g.
Proof.
  unfold readers. rewrite elem_of_dom. split.
  - intros [x Hx]. apply map_lookup_filter_Some in Hx as [Hx Hg]. cbn in Hg. by subst.
  - intros H. exists g. by apply map_lookup_filter_Some.
Qed.

Lemma account_ext s s' : sv_groups (sh_sv s') = sv_groups (sh_sv s) →
  stored_rosters (Storage.w_db (sv_world (sh_sv s'))) = stored_rosters (Storage.w_db (sv_world (sh_sv s))) →
  sh_reading s' = sh_reading s → ∀ k, account k s' = account k s.
Proof. intros H1 H2 H3 [g|]; [|done]. unfold account, readers. by rewrite H1, H2, H3. Qed.

Lemma keyed_calm {A} ready (m : SV A) : calm e m →
  still (await ready (λ s, let '(r, sv) := m e (sh_sv s) in (r, with_sv sv s))).
Proof.
  intros Hm. apply still_act; [apply _|]. intros s [Hs Hr]. destruct (wf_calm e m s Hm Hs) as [H1 H2].
  destruct (ca_groups e m Hm (sv_groups (sh_sv s)) (Storage.w_db (sv_world (sh_sv s))) (peers_of s) (sh_sv s))
    as (Hg & (_ & Hd1 & Hd2) & _).
  { split; [done|split; [split_and!; [apply Hs|done|done]|apply peers_refl]]. }
  destruct (m e (sh_sv s)) as [r sv]. split_and!; [by split|done|].
  apply account_ext; [exact Hg|by apply stored_ext|done].
Qed.

(** A section under the lock of the manager, for the group that is owned. *)
Lemma own_manager {A} (f : Shared → A * Shared) (F : Time → Manager → Manager * A) g a b Q s0 :
  (∀ t m, wf_manager m → wf_manager (F t m).1) →
  (∀ s, (f s).1 = (manager F e (sh_sv s)).1 ∧ sh_sv (f s).2 = (manager F e (sh_sv s)).2) →
  (∀ s, readers g s = ∅ →
     (∀ g', readers g' (f s).2 = readers g' s) ∧ sh_race (f s).2 = sh_race s) →
  (∀ t m, abs m !! g = a → (∀ g', g' ≠ g → abs (F t m).1 !! g' = abs m !! g') ∧
     ∀ s, Q (F t m).2 (Some (abs (F t m).1 !! g, b, ∅)) s) →
  wp (Some (KGroup g)) (locked Writing GroupsMu (act f)) Q (Some (a, b, ∅)) s0.
Proof.
  intros HF Hf Hrd HQ. apply wp_locked, wp_own. intros s [Hs Hr] Hl. cbn [account]. intros [= Ha Hb He0].
  destruct (Hf s) as [H1 H2]. destruct (Hrd s He0) as [H3 H4].
  destruct (wf_manager_call e F s HF Hs) as [[W1 W2 W3] Hd].
  destruct (HQ (Storage.env_clock (se_env e) (step_of (sh_sv s))) (sv_groups (sh_sv s)) Ha) as [Ho Hq].
  destruct (f s) as [r s']. cbn [fst snd] in *. subst r.
  assert (Hg : sv_groups (sh_sv s') = (F (Storage.env_clock (se_env e) (step_of (sh_sv s))) (sv_groups (sh_sv s))).1).
  { rewrite H2. unfold manager. by destruct (F _ _). }
  assert (Hr' : (manager F e (sh_sv s)).1 = (F (Storage.env_clock (se_env e) (step_of (sh_sv s))) (sv_groups (sh_sv s))).2).
  { unfold manager. by destruct (F _ _). }
  rewrite Hr'. split_and!.
  - split; [split; by rewrite H2|by rewrite H4].
  - unfold le_peers, peers_of. by rewrite H2, Hd.
  - intros [g'|]; [|done]. intros Hg'. cbn [account]. rewrite H3, H2, Hd, <- H2, Hg. f_equal. f_equal.
    apply Ho. by intros ->.
  - cbn [account]. rewrite H3, He0, Hg. rewrite H2, Hd, Hb. apply Hq.
Qed.

(** A store operation on the group that is owned. *)
Lemma own_store {A} (m : Storage.DB A) g a b Q s0 : (∀ D, Storage.keeps (has_peers D) m) →
  (∀ w, Storage.wf_database (Storage.w_db w) → has_peers (peers_of s0) (Storage.w_db w) →
     stored_rosters (Storage.w_db w) !! g = b →
     let w' := (m (se_env e) w).2 in
     Storage.wf_database (Storage.w_db w') ∧
     (∀ g', g' ≠ g → stored_rosters (Storage.w_db w') !! g' = stored_rosters (Storage.w_db w) !! g') ∧
     ∀ s, peers_of s = dom (Storage.db_peers (Storage.w_db w')) →
       Q (m (se_env e) w).1 (Some (a, stored_rosters (Storage.w_db w') !! g, ∅)) s) →
  wp (Some (KGroup g)) (sql e m) Q (Some (a, b, ∅)) s0.
Proof.
  intros Hp HQ. apply wp_locked, wp_own. intros s [Hs Hr] Hl. cbn [account]. intros [= Ha Hb He0].
  destruct (HQ (sv_world (sh_sv s)) (wh_tables s Hs) Hl Hb) as (Hd & Ho & Hq).
  pose proof (wf_store e m s (Hp _) Hs) as Hw. unfold store in *.
  destruct (m (se_env e) (sv_world (sh_sv s))) as [r w]. cbn [fst snd] in *.
  destruct (Hw Hd) as [Hw1 Hw2]. split_and!; [by split|done| |].
  - intros [g'|]; [|done]. intros Hg'. cbn [account]. unfold readers. cbn. f_equal. f_equal.
    apply Ho. by intros ->.
  - cbn [account]. change (readers g (with_sv (with_world w (sh_sv s)) s)) with (readers g s).
    rewrite He0. cbn. rewrite Ha. by apply Hq.
Qed.

(** The call leaves its group in order. *)
Definition leaves_order {A} (g : string) (_ : A) (y : option (option (gset string) * option (gset string) * gset nat))
  (_ : Shared) : Prop := ∃ b, y = Some (b, b, ∅).

Lemma order_ret {A} g (r : A) b s0 :
  wp (Some (KGroup g)) (mret r) (leaves_order g) (Some (b, b, ∅)) s0.
Proof. by exists b. Qed.

Lemma keyed_CreateGroup g n a s0 :
  wp (Some (KGroup (TrimSpace g))) (CreateGroup e g n) (leaves_order (TrimSpace g)) (Some (a, a, ∅)) s0.
Proof.
  unfold CreateGroup. apply wp_bind.
  apply (own_manager _ (λ t, Groups.CreateGroup t g n)); [|by intros s; destruct (manager _ e (sh_sv s))| |].
  { intros t m Hm. apply (wf_member_calls t m Hm). }
  { intros s _. by destruct (manager _ e (sh_sv s)). }
  intros t m Ha. pose proof (abs_CreateGroup t g n m) as Habs. revert Habs. unfold Groups.CreateGroup, abs_exec.
  destruct (decide (TrimSpace g = EmptyString)) as [Hg|Hg]; [intros _; split; [done|]; intros; cbn [fst snd]; rewrite Ha; apply order_ret|].
  destruct (decide (TrimSpace n = EmptyString)) as [Hn|Hn]; [intros _; split; [done|]; intros; cbn [fst snd]; rewrite Ha; apply order_ret|].
  rewrite abs_dom. destruct (mgr_groups m !! TrimSpace g) as [grp|] eqn:Eg.
  { intros _. split; [done|]. intros. cbn [fst snd]. rewrite Ha. apply order_ret. }
  rewrite decide_False; [|intros [?|[?|H]]; try done; by apply elem_of_dom in H as [? H']; rewrite Eg in H'].
  intros [= Habs]. cbn [fst snd]. rewrite <- Habs. split; [by intros; rewrite lookup_insert_ne|].
  intros s. rewrite lookup_insert_eq. apply wp_bind.
  assert (a = None) as -> by (by rewrite <- Ha, abs_lookup, Eg).
  apply own_store; [intros; apply peers_UpsertGroup|]. intros w Hd _ Hw. cbn [g_ID g_Name g_CreatedAt].
  destruct (stored_UpsertGroup (se_env e) He (TrimSpace g) (TrimSpace n) t w Hd) as (w' & E & Hst);
    [by apply key_ok_TrimSpace|by apply key_ok_TrimSpace| |].
  { rewrite lookup_stored in Hw. case_decide as Hx; [done|]. by apply not_elem_of_dom in Hx. }
  rewrite E. cbn [fst snd]. rewrite Hst. split_and!.
  - exact (store_wf e (Storage.OpUpsertGroup _ _ _) w Hd _ _ E).
  - intros. by rewrite lookup_insert_ne.
  - intros s' _. rewrite lookup_insert_eq. apply order_ret.
Qed.

(** Setting a membership of a group that exists. *)
Lemma own_SetGroupMembership {A} g p j (act : bool) l a mem (K : result Storage.db_error () → calling A) s0 :
  TrimSpace g ≠ EmptyString → TrimSpace p ≠ EmptyString →
  (∀ s, wp (Some (KGroup (TrimSpace g))) (K (Ok ())) (leaves_order (TrimSpace g))
     (Some (a, Some (if act then {[TrimSpace p]} ∪ mem else mem ∖ {[TrimSpace p]}), ∅)) s) →
  wp (Some (KGroup (TrimSpace g))) (SetGroupMembership e g p j act l ≫= K) (leaves_order (TrimSpace g))
    (Some (a, Some mem, ∅)) s0.
Proof.
  intros Hg Hp HK. apply wp_bind. unfold SetGroupMembership. apply wp_bind.
  apply own_store; [intros; apply peers_SetGroupMembership_peer|]. intros w Hd _ Hw.
  destruct (SetGroupMembership_peer_calm (se_env e) He g p j l w Hg Hp) as ([j' l'] & w' & E).
  assert (Storage.keeps Storage.wf_database (Storage.SetGroupMembership_peer g p j l)) as Hk
    by (apply keeps_SetGroupMembership_peer; intros; apply wf_UpsertPeer).
  specialize (Hk (se_env e) w Hd). rewrite E in Hk |- *. cbn [fst snd] in *.
  apply SetGroupMembership_peer_Ok in E as (Hpeer & E1 & E2).
  rewrite (stored_ext _ _ E1 E2). split_and!; [done|done|]. intros s Hs. rewrite Hw.
  apply own_store; [intros; apply peers_SetGroupMembership_row|]. intros w1 Hd1 Hl Hw1.
  destruct (stored_SetGroupMembership_row (se_env e) He g p j' act l' w1) as (w2 & mem' & E' & Hm & Hst).
  { rewrite lookup_stored in Hw1. case_decide as Hx; [|done]. by apply elem_of_dom in Hx. }
  pose proof (wf_SetGroupMembership_row g p j' act l' (se_env e) w1) as Hk1. rewrite E' in Hk1 |- *. cbn [fst snd] in *.
  rewrite Hst. split_and!.
  - apply Hk1. split; [done|]. apply elem_of_dom, Hl. rewrite Hs. by apply elem_of_dom.
  - intros. by rewrite lookup_insert_ne.
  - intros s' _. rewrite lookup_insert_eq. rewrite Hw1 in Hm. injection Hm as <-. apply HK.
Qed.

(** The section of [JoinGroup] or [LeaveGroup] under the lock. *)
Lemma own_member {A} g F a Q s0 (K : result group_error () → calling A) :
  (∀ t m, wf_manager m → wf_manager (F t m).1) →
  (∀ t m, abs m !! g = a → (∀ g', g' ≠ g → abs (F t m).1 !! g' = abs m !! g') ∧
     ∀ s, wp (Some (KGroup g)) (K (F t m).2) Q (Some (abs (F t m).1 !! g, a, ∅)) s) →
  TrimSpace g = g →
  wp (Some (KGroup g)) (member_call e g F ≫= K) Q (Some (a, a, ∅)) s0.
Proof.
  intros HF HQ Hg. apply wp_bind. apply (own_manager _ F); [done| | |exact HQ].
  - intros s. by destruct (manager _ e (sh_sv s)).
  - intros s Hs. rewrite Hg. destruct (manager _ e (sh_sv s)) as [r sv]. split; [done|]. cbn.
    rewrite (bool_decide_eq_true_2 (readers g s = ∅)) by done. by rewrite andb_false_r, orb_false_r.
Qed.

Lemma member_call_trim g F : member_call e g F = member_call e (TrimSpace g) F.
Proof. unfold member_call. by rewrite TrimSpace_idem. Qed.

Lemma keyed_JoinGroup g p a s0 :
  wp (Some (KGroup (TrimSpace g))) (JoinGroup e g p) (leaves_order (TrimSpace g)) (Some (a, a, ∅)) s0.
Proof.
  unfold JoinGroup. apply wp_bind, keyed_calm; [apply calm_clock|]. intros t0 s1 _. rewrite member_call_trim.
  apply own_member; [intros t m Hm; apply (wf_member_calls t m Hm)| |apply TrimSpace_idem].
  intros t m Ha. unfold AddMember.
  destruct (decide (TrimSpace g = EmptyString)); [split; [done|]; intros; cbn [fst snd]; rewrite Ha; apply order_ret|].
  destruct (decide (TrimSpace p = EmptyString)); [split; [done|]; intros; cbn [fst snd]; rewrite Ha; apply order_ret|].
  rewrite abs_lookup in Ha. destruct (mgr_groups m !! TrimSpace g) as [grp|] eqn:Eg.
  2:{ split; [done|]. intros; cbn [fst snd]. rewrite abs_lookup, Eg, <- Ha. apply order_ret. }
  cbn in Ha. subst a. destruct (g_Members grp !! TrimSpace p) as [mem|] eqn:Em; cbn [fst snd].
  - split; [done|]. intros s. rewrite abs_lookup, Eg. cbn [fmap option_fmap option_map].
    apply own_SetGroupMembership; [done..|]. intros s'.
    replace ({[TrimSpace p]} ∪ roster_of grp) with (roster_of grp); [apply order_ret|].
    apply elem_of_dom_2 in Em. unfold roster_of. set_solver.
  - rewrite abs_set_group. split; [by intros; rewrite lookup_insert_ne|]. intros s. rewrite lookup_insert_eq.
    unfold roster_of at 1. cbn [g_Members with_members]. rewrite dom_insert_L.
    apply own_SetGroupMembership; [done..|]. intros s'. apply order_ret.
Qed.

Lemma keyed_LeaveGroup g p a s0 :
  wp (Some (KGroup (TrimSpace g))) (LeaveGroup e g p) (leaves_order (TrimSpace g)) (Some (a, a, ∅)) s0.
Proof.
  unfold LeaveGroup, Groups.LeaveGroup. rewrite member_call_trim.
  apply own_member; [intros t m Hm; apply (wf_member_calls t m Hm)| |apply TrimSpace_idem].
  intros t m Ha. unfold removeMember.
  destruct (decide (TrimSpace g = EmptyString)); [split; [done|]; intros; cbn [fst snd]; rewrite Ha; apply order_ret|].
  destruct (decide (TrimSpace p = EmptyString)); [split; [done|]; intros; cbn [fst snd]; rewrite Ha; apply order_ret|].
  rewrite abs_lookup in Ha. destruct (mgr_groups m !! TrimSpace g) as [grp|] eqn:Eg.
  2:{ split; [done|]. intros; cbn [fst snd]. rewrite abs_lookup, Eg, <- Ha. apply order_ret. }
  cbn in Ha. subst a. destruct (g_Members grp !! TrimSpace p) as [mem|] eqn:Em; cbn [fst snd].
  - rewrite abs_set_group. split; [by intros; rewrite lookup_insert_ne|]. intros s. rewrite lookup_insert_eq.
    unfold roster_of at 1. cbn [g_Members with_members]. rewrite dom_delete_L.
    apply wp_bind, keyed_calm; [apply calm_clock|]. intros t1 s1 _.
    apply own_SetGroupMembership; [done..|]. intros s'. apply order_ret.
  - split; [done|]. intros s. rewrite abs_lookup, Eg. cbn [fmap option_fmap option_map].
    apply wp_bind, keyed_calm; [apply calm_clock|]. intros t1 s1 _.
    apply own_SetGroupMembership; [done..|]. intros s'.
    replace (roster_of grp ∖ {[TrimSpace p]}) with (roster_of grp); [apply order_ret|].
    apply not_elem_of_dom in Em. unfold roster_of. set_solver.
Qed.

Lemma keyed_DeleteGroup g a s0 :
  wp (Some (KGroup (TrimSpace g))) (DeleteGroup e g) (leaves_order (TrimSpace g)) (Some (a, a, ∅)) s0.
Proof.
  unfold DeleteGroup. apply wp_bind.
  apply (own_manager _ (λ _, Groups.DeleteGroup g)); [intros t m Hm; apply (wf_member_calls t m Hm)| | |].
  - intros s. by destruct (manager _ e (sh_sv s)).
  - intros s Hs. destruct (manager _ e (sh_sv s)) as [r sv]. split; [|done]. intros g'. apply set_eq. intros i.
    rewrite !elem_of_readers. cbn. destruct (is_ok r); [|done]. rewrite map_lookup_filter_Some. cbn.
    split; [by intros []|]. intros Hi. split; [done|]. intros ->.
    assert (i ∈ readers (TrimSpace g) s) as H by (by apply elem_of_readers). rewrite Hs in H. set_solver.
  - intros t m Ha. unfold Groups.DeleteGroup.
    destruct (decide (TrimSpace g = EmptyString)) as [Hg|Hg];
      [split; [done|]; intros; cbn [fst snd]; rewrite Ha; apply order_ret|].
    assert (Hdel : ∀ b s, wp (Some (KGroup (TrimSpace g)))
      (r ← sql e (Storage.DeleteGroup g); mret (persisted "delete group from store" r))
      (leaves_order (TrimSpace g)) (Some (None, b, ∅)) s).
    { intros b s. apply wp_bind, own_store; [intros; apply peers_DeleteGroup|]. intros w Hd _ Hw.
      destruct (stored_DeleteGroup (se_env e) He g w Hg) as (r & w' & E & Hst). rewrite E. cbn [fst snd]. rewrite Hst.
      split_and!; [exact (store_wf e (Storage.OpDeleteGroup g) w Hd _ _ E)|by intros; rewrite lookup_delete_ne|].
      intros s' _. rewrite lookup_delete_eq. apply order_ret. }
    rewrite abs_lookup in Ha. destruct (mgr_groups m !! TrimSpace g) as [grp|] eqn:Eg; cbn [fst snd].
    + split; [intros g' Hg'; unfold abs; cbn; by rewrite !lookup_fmap, lookup_delete_ne|].
      intros s. unfold abs. cbn. rewrite lookup_fmap, lookup_delete_eq. apply Hdel.
    + split; [done|]. intros s. rewrite abs_lookup, Eg. apply Hdel.
Qed.

(** The look at the members begins and ends while the group is owned. *)
Lemma readers_begin i g s : sh_reading s !! i = None → ∀ g',
  readers g' (mkShared (sh_sv s) (<[i := g]> (sh_reading s)) (sh_race s)) =
    if decide (g' = g) then {[i]} ∪ readers g s else readers g' s.
Proof.
  intros Hi g'. apply set_eq. intros j. case_decide as Hg; [subst g'|];
    rewrite ?elem_of_union, ?elem_of_singleton, !elem_of_readers; cbn; rewrite lookup_insert_Some;
    split; intros H; destruct (decide (i = j)); naive_solver.
Qed.

Lemma readers_end i g s : sh_reading s !! i = Some g → ∀ g',
  readers g' (mkShared (sh_sv s) (delete i (sh_reading s)) (sh_race s)) =
    if decide (g' = g) then readers g s ∖ {[i]} else readers g' s.
Proof.
  intros Hi g'. apply set_eq. intros j. case_decide as Hg; [subst g'|];
    rewrite ?elem_of_difference, ?elem_of_singleton, !elem_of_readers; cbn; rewrite lookup_delete_Some;
    split; intros H; destruct (decide (i = j)); naive_solver.
Qed.

Lemma raceless_look f s : raceless s → raceless (mkShared (sh_sv s) f (sh_race s)) ∧
  le_peers s (mkShared (sh_sv s) f (sh_race s)).
Proof. intros [[? ? ?] ?]. split; [split; [by split|done]|]. unfold le_peers, peers_of. cbn. set_solver. Qed.

Lemma keyed_find_sender g p a b s0 (Q : result group_error () → _ → Shared → Prop) :
  (∀ r s, Q r (Some (a, b, ∅)) s) → wp (Some (KGroup g)) (find_sender g p) Q (Some (a, b, ∅)) s0.
Proof.
  intros HQ. unfold find_sender. case_decide; [apply HQ|]. case_decide; [apply HQ|].
  apply wp_bind, wp_locked, wp_own. intros s Hs Hl. cbn [account]. intros [= Ha Hb He0].
  destruct (mgr_groups (sv_groups (sh_sv s)) !! g) as [grp|].
  2:{ split_and!; [done|done|done|]. cbn [account]. rewrite Ha, Hb, He0. apply HQ. }
  assert (Hi : sh_reading s !! fresh (dom (sh_reading s)) = None).
  { apply (not_elem_of_dom (D := gset nat)). apply is_fresh. }
  revert Hi. generalize (fresh (dom (sh_reading s)) : nat). intros i Hi.
  destruct (raceless_look (<[i := g]> (sh_reading s)) s Hs) as [H1 H2]. split_and!; [done|done| |].
  - intros [g'|] Hg'; [|done]. cbn [account]. rewrite readers_begin by done.
    by rewrite decide_False by (by intros ->).
  - cbn [account]. rewrite readers_begin, decide_True by done. cbn [sh_sv]. rewrite Ha, Hb, He0.
    apply wp_bind, wp_own. intros s1 Hs1 _. cbn [account]. intros [= Ha1 Hb1 He1].
    assert (Hi1 : sh_reading s1 !! i = Some g) by (apply elem_of_readers; set_solver).
    destruct (raceless_look (delete i (sh_reading s1)) s1 Hs1) as [H3 H4]. split_and!; [done|done| |].
    + intros [g'|] Hg'; [|done]. cbn [account]. rewrite (readers_end i g) by done.
      by rewrite decide_False by (by intros ->).
    + cbn [account]. rewrite (readers_end i g), decide_True by done. cbn [sh_sv]. rewrite Ha1, Hb1, He1.
      replace (({[i]} ∪ ∅) ∖ {[i]} : gset nat) with (∅ : gset nat) by set_solver.
      destruct (g_Members grp !! p); apply HQ.
Qed.

Lemma keyed_SendGroup g body a s0 :
  wp (Some (KGroup (TrimSpace g))) (SendGroup e g body) (leaves_order (TrimSpace g)) (Some (a, a, ∅)) s0.
Proof.
  unfold SendGroup. apply wp_bind, (keyed_calm always); [apply calm_asks|]. intros local s1 _.
  apply wp_bind. unfold SendGroupMessage. apply wp_bind, keyed_find_sender. intros r s2.
  apply wp_bind, (keyed_calm always); [apply calm_clock|]. intros t s3 _.
  apply (still_send_rest e account raceless (λ A, keyed_calm)). intros. by exists a.
Qed.

Lemma wp_unseen {A} k (q : calling A) Q s0 : (∀ r s, Q r None s) → wp (Some k) q Q None s0.
Proof.
  intros HQ. induction q as [a|R ready f q _|m l q IH|l q IH]; cbn; [apply HQ| |exact IH..]. by intros s _ _ [=].
Qed.

Lemma keyed_call o x s0 : in_order balanced (one_per_group o) x →
  wp (one_per_group o) (call e o) (λ _ y _, in_order balanced (one_per_group o) y) x s0.
Proof.
  intros Hx.
  assert (Hk : ∀ A (q : calling A) g, one_per_group o = Some (KGroup (TrimSpace g)) →
    (∀ a, wp (Some (KGroup (TrimSpace g))) q (leaves_order (TrimSpace g)) (Some (a, a, ∅)) s0) →
    wp (one_per_group o) (ignore q) (λ _ y _, in_order balanced (one_per_group o) y) x s0).
  { intros A q g Ho Hq. rewrite Ho in Hx |- *. destruct x as [[[a b] rd]|]; [|by apply wp_unseen].
    destruct Hx as [Hab Hrd]. cbn in Hab, Hrd. subst. apply wp_bind.
    eapply wp_mono; [|apply Hq]. by intros r y s (c & ->). }
  destruct o; try (apply (still_call e account raceless (λ A, keyed_calm)); done).
  - apply (Hk _ _ groupID); [done|]. intros. apply keyed_SendGroup.
  - apply (Hk _ _ groupID); [done|]. intros. apply keyed_CreateGroup.
  - apply (Hk _ _ groupID); [done|]. intros. apply keyed_JoinGroup.
  - apply (Hk _ _ groupID); [done|]. intros. apply keyed_LeaveGroup.
  - apply (Hk _ _ groupID); [done|]. intros. apply keyed_DeleteGroup.
Qed.

Lemma keyed_play evs sv p : in_sync sv → wf_subs sv → play one_per_group e evs sv = Some p →
  pool_safe one_per_group account balanced raceless le_peers p.
Proof.
  intros [Hm Hd Hr] Hs. apply pool_safe_run; [apply _|intros; by apply keyed_call|].
  apply pool_safe_start; [by split|]. intros [g|]; [|done]. split; cbn; [by rewrite Hr|].
  apply set_eq. intros i. rewrite elem_of_readers. cbn. rewrite lookup_empty. set_solver.
Qed.

End OnePerGroup.

(** ** Locks *)

(** Only a receive waits for something else than a lock. *)
Definition waits_of (o : op) (ready : Shared → bool) : Prop :=
  match o with OpReceive i => ready = has_event i | _ => False end.

Section Orderly.
Context (e : SEnv).

Lemma orderly_ret {A} W h (a : A) : orderly (L := lock) (St := Shared) W h (mret a) h.
Proof. done. Qed.

Lemma orderly_atom {A} W h (m : SV A) : orderly W h (atom e m) h.
Proof. apply orderly_act. Qed.

(** A section of one action. *)
Lemma orderly_section {A} W md l (f : Shared → A * Shared) : orderly (L := lock) W None (locked md l (act f)) None.
Proof. apply orderly_locked, orderly_act. Qed.

Lemma orderly_publish W ev : orderly W None (publish e ev) None.
Proof.
  apply orderly_locked, (orderly_bind _ _ (Some SubsMu)); [apply orderly_atom|]. intros n.
  induction (seq 0 n) as [|k l IH]; cbn [send_each]; [done|].
  apply (orderly_bind _ _ (Some SubsMu)); [apply orderly_atom|]. by intros [].
Qed.

Ltac orderly_step := first
  [ (apply (orderly_bind _ _ None); [|intros ?]) | apply orderly_ret | apply orderly_publish
  | apply orderly_section | apply orderly_act | case_decide | case_match ].

Lemma orderly_fan_out W local c msg l : orderly W None (fan_out e local c msg l) None.
Proof. induction l as [|x l IH]; cbn [fan_out]; repeat first [apply IH | orderly_step]. Qed.

Lemma orderly_upsert W l : orderly W None (upsert_connected e l) None.
Proof. induction l as [|x l IH]; cbn [upsert_connected]; repeat first [apply IH | orderly_step]. Qed.

Lemma orderly_call o : orderly (waits_of o) None (call e o) None.
Proof.
  destruct o; cbn [call]; unfold ignore;
    unfold SendDirect, SendGroup, CreateGroup, JoinGroup, LeaveGroup, DeleteGroup, handleInbound, monitorPeers,
      SendGroupMessage, find_sender, SetGroupMembership;
    repeat first [apply orderly_fan_out | apply orderly_upsert | by apply orderly_await | orderly_step].
Qed.

Lemma event_receive o q (p : Calls) : wants_event waits_of o q p →
  ∃ ch, o = OpReceive ch ∧ has_event ch (p_state p) = false.
Proof. destruct q as [|R ready f k| |]; try done. intros [Hw Hr]. destruct o; try done. cbn in Hw. subst. eauto. Qed.

(** A call other than a receive never waits when it is alone. *)
Lemma orderly_alone o : (∀ i, o ≠ OpReceive i) → orderly (λ _, False) None (call e o) None.
Proof. intros Ho. pose proof (orderly_call o) as H. destruct o; try exact H. by destruct (Ho i). Qed.

End Orderly.

(** ** One call after the other *)

Lemma ops_run (owns : op → option key) e ops s : Forall (λ o, ∀ i, o ≠ OpReceive i) ops →
  ∃ evs s', pool_run (call e) owns evs (start_pool s) = Some (start_pool s') ∧
  sh_sv s' = (run_ops ops e (sh_sv s)).2.
Proof.
  intros Hops. revert s. induction Hops as [|o ops Ho _ IH]; intros s; [by exists [], s|].
  destruct (go_run (call e) owns 0 o None (call e o) s [] (orderly_alone e o Ho) eq_refl) as [n Hn].
  destruct (IH (run (call e o) s).2) as (evs & s' & Hr & Hs).
  exists (Call 0 o :: repeat (Go 0) n ++ evs), s'. split.
  - cbn. rewrite lookup_empty. unfold allowed. rewrite bool_decide_eq_true_2 by apply map_Forall_empty. cbn.
    rewrite pool_run_app. change (<[0%nat:=(o, call e o)]> ∅) with ({[0%nat := (o, call e o)]} : gmap nat (op * calling ())).
    rewrite Hn. exact Hr.
  - rewrite Hs. cbn. unfold mbind, SV_bind. destruct (does_call e o s) as [_ H]. rewrite H.
    by destruct (run_op o e (sh_sv s)).
Qed.

(** ** Samples *)

(** Two groups, and a message to a third one, at the same time. *)
Definition side_by_side : list (event (C := op)) :=
  [Call 0 (OpCreateGroup "den" "Den"); Call 1 (OpJoinGroup "room" "carol"); Call 2 (OpSendDirect "bob" "hi")] ++
  (Go <$> [0; 1; 2; 0; 2; 0; 1; 2; 1; 2; 1; 2; 0; 2; 0; 2; 0; 1; 2; 0; 1; 2; 1; 2; 1; 1; 1; 2; 1; 2; 2; 2; 2; 2; 2; 2; 2; 2]%nat).

(** A subscriber that receives, and a message that is sent while another call holds
    the connection. *)
Definition busy : list (event (C := op)) :=
  Call 0 OpSubscribe :: repeat (Go 0) 4 ++ [Call 0 (OpReceive 0); Call 1 (OpSendDirect "bob" "hi"); Go 1; Go 1; Go 1;
    Call 2 (OpInbound (mkMessage 1 "m1" TypeChat "bob" "alice" EmptyString unix_epoch "hello") "bob"); Go 2].

(** A leave that overtakes a join between its two parts. *)
Definition overtaken_join : list (event (C := op)) :=
  Call 0 (OpJoinGroup "room" "carol") :: repeat (Go 0) 4 ++
  Call 1 (OpLeaveGroup "room" "carol") :: repeat (Go 1) 11 ++ repeat (Go 0) 7.
(** A deletion that overtakes a creation. *)
Definition overtaken_create : list (event (C := op)) :=
  Call 0 (OpCreateGroup "den" "Den") :: repeat (Go 0) 3 ++ Call 1 (OpDeleteGroup "den") :: repeat (Go 1) 7 ++ repeat (Go 0) 4.
(** A join while a message is sent. *)
Definition join_while_sending : list (event (C := op)) :=
  Call 0 (OpSendGroup "room" "hi") :: repeat (Go 0) 4 ++ Call 1 (OpJoinGroup "room" "carol") :: repeat (Go 1) 3.

(** The members of a group in memory and in the tables, at the end of a run that
    leaves no call in flight. *)
Definition both (g : string) (p : Calls) : option (gset string) * option (gset string) :=
  (abs (sv_groups (sh_sv (p_state p))) !! g, stored_rosters (Storage.w_db (sv_world (sh_sv (p_state p)))) !! g).

(** A run with a checked end. *)
Lemma play_checks (P : Calls → bool) (o : option Calls) :
  match o with Some p => P p | None => false end = true → ∃ p, o = Some p ∧ P p = true.
Proof. destruct o as [p|]; [|done]. by exists p. Qed.

Lemma play_ends (P : Calls → bool) (o : option Calls) :
  match o with Some p => bool_decide (dom (p_calls p) = ∅) && P p | None => false end = true →
  ∃ p, o = Some p ∧ p_calls p = ∅ ∧ P p = true.
Proof.
  destruct o as [p|]; [|done]. intros [H%bool_decide_eq_true_1 HP]%andb_prop. exists p.
  split_and!; [done| |done]. by apply dom_empty_inv_L in H.
Qed.

(** ** Properties *)

(** C5: calls that address different groups may run side by side in any number and
    in any interleaving, next to sends, inbound messages, subscribers and the
    monitor.  When the driver refuses no statement and manager and tables agree at
    the start, no map is read while it is written, and every group that no call is
    at work on is the same in memory and in the tables; so once all calls have
    returned, memory and store agree. *)
Theorem concurrent_groups e evs sv p : Storage.no_fault (se_env e) → in_sync sv → wf_subs sv →
  play one_per_group e evs sv = Some p →
  sh_race (p_state p) = false ∧
  (∀ g, ¬ owned one_per_group (KGroup g) p → agree g (p_state p)) ∧
  (p_calls p = ∅ → in_sync (sh_sv (p_state p))).
Proof.
  intros He Hs Hsub Hp. destruct (keyed_play e He evs sv p Hs Hsub Hp) as [[Hw Hr] _ _ Hrest].
  assert (Ha : ∀ g, ¬ owned one_per_group (KGroup g) p → agree g (p_state p))
    by (intros g Hg; apply (Hrest (KGroup g) Hg)).
  split_and!; [done|done|]. intros He0. split; [apply Hw..|]. apply map_eq. intros g. apply Ha.
  intros (i & o & q & Hi & _). by rewrite He0, lookup_empty in Hi.
Qed.

Lemma concurrent_groups_witness : ∃ p, play one_per_group sample_env side_by_side room_service = Some p ∧
  both "room" p = (Some {["alice"; "bob"; "carol"]}, Some {["alice"; "bob"; "carol"]}) ∧
  in_sync (sh_sv (p_state p)).
Proof.
  destruct (play_ends (λ p, bool_decide (both "room" p = (Some {["alice"; "bob"; "carol"]}, Some {["alice"; "bob"; "carol"]})))
    (play one_per_group sample_env side_by_side room_service)) as (p & Hp & He & Hb); [vm_compute; reflexivity|].
  exists p. split_and!; [exact Hp|exact (bool_decide_eq_true_1 _ Hb)|].
  apply (concurrent_groups sample_env side_by_side room_service p (λ _, eq_refl)
    (proj1 room_in_sync) (proj2 room_in_sync) Hp). exact He.
Defined.

(** C15: the calls of the service do not block each other, whatever they are and
    however they interleave.  No event is sent on a closed channel, and manager and
    tables stay well formed.  A call in flight can go on, or it is a receive on a
    channel that has nothing yet, or it waits for a lock that another call holds
    which can go on.  If no new calls start, all of them come to rest after finitely
    many steps, and then no lock is held and only such receives are left.  What a
    call asks of the host or the driver is taken to return. *)
Theorem calls_return e evs w m p : wf_manager m → Storage.wf_database (Storage.w_db w) →
  play one_monitor e evs (NewP2PService w m) = Some p →
  wf_shared (p_state p) ∧
  (∀ i o q, p_calls p !! i = Some (o, q) → can_go (call e) one_monitor i p ∨
     (∃ ch, o = OpReceive ch ∧ has_event ch (p_state p) = false) ∨ wants_lock (call e) one_monitor i q p) ∧
  Acc (flip (goes (call e) one_monitor)) p ∧
  ∀ p', rtc (goes (call e) one_monitor) p p' → (∀ i, ¬ can_go (call e) one_monitor i p') →
    p_held p' = [] ∧
    ∀ i o q, p_calls p' !! i = Some (o, q) → ∃ ch, o = OpReceive ch ∧ has_event ch (p_state p') = false.
Proof.
  intros Hm Hd Hp.
  assert (Hs : lock_safe waits_of p) 
    by (eapply (lock_safe_run (call e) one_monitor); [apply orderly_call|apply lock_safe_start|exact Hp]).
  split_and!; [|intros i o q Hi|apply goes_end|intros p' Hr Hn].
  - apply (any_play e one_monitor evs _ p Hp). split; [apply subs_new|done|done].
  - destruct (go_or_wait (call e) one_monitor _ i o q p Hs Hi) as [H|[H|H]]; eauto using event_receive.
  - assert (Hs' : lock_safe waits_of p').
    { clear Hn Hp. induction Hr as [|p p1 p' [i Hi] _ IH]; [done|]. apply IH. eapply (lock_safe_step (call e) one_monitor); [apply orderly_call|done|exact Hi]. }
    destruct (at_rest (call e) one_monitor _ p' Hs' Hn) as [H1 H2].
    split; [done|]. intros. eapply event_receive, H2. done.
Qed.

(** The inbound message waits for the connection, which the send holds. *)
Lemma calls_return_witness : ∃ p, play one_monitor sample_env busy (NewP2PService (Storage.mkWorld Storage.emptyDatabase 0) NewManager) = Some p ∧
  dom (p_calls p) = {[0%nat; 1%nat; 2%nat]} ∧ wf_shared (p_state p).
Proof.
  destruct (play_checks (λ p, bool_decide (dom (p_calls p) = {[0%nat; 1%nat; 2%nat]} :> gset nat)) (play one_monitor sample_env busy
    (NewP2PService (Storage.mkWorld Storage.emptyDatabase 0) NewManager))) as (p & Hp & Hb); [vm_compute; reflexivity|].
  exists p. split; [exact Hp|]. split; [exact (bool_decide_eq_true_1 _ Hb)|].
  exact (proj1 (calls_return sample_env _ (Storage.mkWorld Storage.emptyDatabase 0) NewManager p
    wf_NewManager wf_empty Hp)).
Defined.

(** Every history of calls that do not wait is one of the interleavings, with the
    same outcome. *)
Theorem history_scheduled e ops sv : Forall (λ o, ∀ i, o ≠ OpReceive i) ops →
  ∃ evs p, play one_per_group e evs sv = Some p ∧ p_calls p = ∅ ∧ sh_sv (p_state p) = (run_ops ops e sv).2.
Proof.
  intros Ho. destruct (ops_run one_per_group e ops (NewShared sv) Ho) as (evs & s & H1 & H2).
  exists evs, (start_pool s). by split_and!.
Qed.

(** Calls on the same group are not safe to run side by side.  A leave between
    the two parts of a join leaves a member in the tables who is not in memory; a
    deletion between those of a creation leaves a group there that was deleted;
    and a join while a message is sent writes a map that is being read. *)
Theorem overlapping_calls :
  (∃ p, play one_monitor sample_env overtaken_join room_service = Some p ∧ p_calls p = ∅ ∧
     both "room" p = (Some {["alice"; "bob"]}, Some {["alice"; "bob"; "carol"]})) ∧
  (∃ p, play one_monitor sample_env overtaken_create room_service = Some p ∧ p_calls p = ∅ ∧
     both "den" p = (None, Some ∅)) ∧
  (∃ p, play one_monitor sample_env join_while_sending room_service = Some p ∧ sh_race (p_state p) = true).
Proof.
  split_and!.
  - destruct (play_ends (λ p, bool_decide (both "room" p = (Some {["alice"; "bob"]}, Some {["alice"; "bob"; "carol"]})))
      (play one_monitor sample_env overtaken_join room_service)) as (p & Hp & He & Hb); [vm_compute; reflexivity|].
    exists p. split_and!; [exact Hp|exact He|exact (bool_decide_eq_true_1 _ Hb)].
  - destruct (play_ends (λ p, bool_decide (both "den" p = (None, Some ∅)))
      (play one_monitor sample_env overtaken_create room_service)) as (p & Hp & He & Hb); [vm_compute; reflexivity|].
    exists p. split_and!; [exact Hp|exact He|exact (bool_decide_eq_true_1 _ Hb)].
  - destruct (play_checks (λ p, sh_race (p_state p)) (play one_monitor sample_env join_while_sending room_service))
      as (p & Hp & Hb); [vm_compute; reflexivity|].
    exists p. split; [exact Hp|exact Hb].
Qed.
