(* ===== verification/Service.v ===== *)
(** * The interface of the chat service

    [ChatService] ([internal/chat/service.go]) is what the user interface is
    written against.  Here it is a class of operations on a state; [ChatLaws] are
    the promises of its comments that a client can rely on, stated with the groups
    and members of the service as the only view of its state.  [P2P] implements
    it by the operations of [Chat], and [P2PService_lawful] discharges the laws;
    [lawful_history] is a client's theorem, proved from the laws alone.

    Three promises are not laws, since the implementation does not keep them: the
    order of [ListConversations], the choice of [GetMessages], and that concurrent
    calls are safe ([Concurrent.overlapping_calls]). *)

From S2P Require Import Prelude GoStrings GoTime Json Protocol Identity Storage Groups Persistence Chat.

Open Scope Z_scope.

Module Service.

Class ChatService (St : Type) : Type := {
  LocalIdentity : St → Identity.Identity * St;
  ConnectionStatus : St → Chat.ConnectionStatus * St;
  ConnectedPeerCount : St → nat * St;
  ListConversations : St → result Chat.service_error (list Chat.Conversation) * St;
  ListGroups : St → result Chat.service_error (list Chat.GroupInfo) * St;
  ListPeers : St → result Chat.service_error (list Chat.Peer) * St;
  GetMessages : string → Z → St → result Chat.service_error (list Chat.DisplayMessage) * St;
  SendDirect : string → string → St → result Chat.service_error () * St;
  SendGroup : string → string → St → result Chat.service_error () * St;
  CreateGroup : string → string → St → result Chat.service_error () * St;
  JoinGroup : string → string → St → result Chat.service_error () * St;
  LeaveGroup : string → string → St → result Chat.service_error () * St;
  DeleteGroup : string → St → result Chat.service_error () * St;
  Subscribe : St → nat * St;
  Close : St → () * St
}.

(** ** Requests of a client *)

Inductive request : Type :=
  | ReqIdentity | ReqStatus | ReqCount | ReqConversations | ReqGroups | ReqPeers
  | ReqMessages (conversationID : string) (limit : Z)
  | ReqSendDirect (peerID body : string) | ReqSendGroup (groupID body : string)
  | ReqSubscribe | ReqClose
  | ReqCreate (groupID name : string) | ReqJoin (groupID peerID : string)
  | ReqLeave (groupID peerID : string) | ReqDelete (groupID : string).

(** Those that ask for a change of the groups. *)
Definition changes (r : request) : bool :=
  match r with ReqCreate _ _ | ReqJoin _ _ | ReqLeave _ _ | ReqDelete _ => true | _ => false end.

Definition perform `{ChatService St} (r : request) (s : St) : bool * St :=
  match r with
  | ReqIdentity => (true, (LocalIdentity s).2)
  | ReqStatus => (true, (ConnectionStatus s).2)
  | ReqCount => (true, (ConnectedPeerCount s).2)
  | ReqConversations => let '(x, s) := ListConversations s in (is_ok x, s)
  | ReqGroups => let '(x, s) := ListGroups s in (is_ok x, s)
  | ReqPeers => let '(x, s) := ListPeers s in (is_ok x, s)
  | ReqMessages c n => let '(x, s) := GetMessages c n s in (is_ok x, s)
  | ReqSendDirect p b => let '(x, s) := SendDirect p b s in (is_ok x, s)
  | ReqSendGroup g b => let '(x, s) := SendGroup g b s in (is_ok x, s)
  | ReqSubscribe => (true, (Subscribe s).2)
  | ReqClose => (true, (Close s).2)
  | ReqCreate g n => let '(x, s) := CreateGroup g n s in (is_ok x, s)
  | ReqJoin g p => let '(x, s) := JoinGroup g p s in (is_ok x, s)
  | ReqLeave g p => let '(x, s) := LeaveGroup g p s in (is_ok x, s)
  | ReqDelete g => let '(x, s) := DeleteGroup g s in (is_ok x, s)
  end.

Fixpoint perform_all `{ChatService St} (rs : list request) (s : St) : list bool * St :=
  match rs with
  | [] => ([], s)
  | r :: rs => let '(b, s) := perform r s in let '(bs, s) := perform_all rs s in (b :: bs, s)
  end.

(** ** What the comments promise of groups *)

(** The members of each group. *)
Notation roster := (gmap string (gset string)) (only parsing).

(** Creation fails when the group exists; joining and leaving a group that exists
    succeed, whoever is a member; a group that is not there cannot be deleted. *)
Definition promised (r : request) (R : roster) : roster * bool :=
  match r with
  | ReqCreate g n =>
      if decide (TrimSpace g = EmptyString ∨ TrimSpace n = EmptyString ∨ TrimSpace g ∈ dom R) then (R, false)
      else (<[TrimSpace g := ∅]> R, true)
  | ReqJoin g p =>
      if decide (TrimSpace p = EmptyString) then (R, false) else
      match R !! TrimSpace g with
      | None => (R, false)
      | Some members => (<[TrimSpace g := {[TrimSpace p]} ∪ members]> R, true)
      end
  | ReqLeave g p =>
      if decide (TrimSpace p = EmptyString) then (R, false) else
      match R !! TrimSpace g with
      | None => (R, false)
      | Some members => (<[TrimSpace g := members ∖ {[TrimSpace p]}]> R, true)
      end
  | ReqDelete g => (delete (TrimSpace g) R, bool_decide (TrimSpace g ∈ dom R))
  | _ => (R, true)
  end.

Definition promised_all (rs : list request) (R : roster) : roster := foldl (λ R r, (promised r R).1) R rs.

Class ChatLaws (St : Type) `{ChatService St} (Inv : St → Prop) (groups : St → roster) (channels : St → gset nat)
    : Prop := {
  (** Nothing breaks the service. *)
  law_inv : ∀ r s, Inv s → Inv (perform r s).2;
  (** Requests for groups do what is promised. *)
  law_groups : ∀ r s, Inv s → changes r = true → (groups (perform r s).2, (perform r s).1) = promised r (groups s);
  (** The others leave the groups alone. *)
  law_others : ∀ r s, Inv s → changes r = false → groups (perform r s).2 = groups s;
  (** The list of groups is complete, with the number of members of each. *)
  law_list : ∀ s, Inv s → ∃ l, (ListGroups s).1 = Ok l ∧ (Chat.gi_GroupID <$> l) ≡ₚ elements (dom (groups s)) ∧
    ∀ x, x ∈ l → size <$> groups s !! Chat.gi_GroupID x = Some (Chat.gi_MemberCount x);
  (** Each call returns a new channel. *)
  law_subscribe : ∀ s, Inv s → (Subscribe s).1 ∉ channels s
}.

(** ** The implementation *)

#[global] Instance P2P (e : Chat.SEnv) : ChatService Chat.Service := {
  LocalIdentity := Chat.LocalIdentity e;
  ConnectionStatus := Chat.ConnectionStatus_sv e;
  ConnectedPeerCount := Chat.ConnectedPeerCount e;
  ListConversations := Chat.ListConversations e;
  ListGroups := Chat.ListGroups_sv e;
  ListPeers := Chat.ListPeers_sv e;
  GetMessages := λ c n, Chat.GetMessages c n e;
  SendDirect := λ p b, Chat.SendDirect p b e;
  SendGroup := λ g b, Chat.SendGroup g b e;
  CreateGroup := λ g n, Chat.CreateGroup_sv g n e;
  JoinGroup := λ g p, Chat.JoinGroup g p e;
  LeaveGroup := λ g p, Chat.LeaveGroup_sv g p e;
  DeleteGroup := λ g, Chat.DeleteGroup_sv g e;
  Subscribe := Chat.Subscribe e;
  Close := Chat.Close e
}.

(** What a client sees of the groups and channels of the implementation. *)
Definition groups_of (s : Chat.Service) : roster := abs (Chat.sv_groups s).
Definition channels_of (s : Chat.Service) : gset nat := dom (Chat.sv_chans s).

End Service.

Import Chat Service.

(** ** It keeps the promises *)

Section Lawful.
Context (e : SEnv) (He : Storage.no_fault (se_env e)).

Lemma create_promised g n s : in_sync s →
  (groups_of (perform (H := P2P e) (ReqCreate g n) s).2, (perform (H := P2P e) (ReqCreate g n) s).1)
  = promised (ReqCreate g n) (groups_of s).
Proof.
  intros Hs. cbn [perform CreateGroup P2P promised]. unfold groups_of, CreateGroup_sv, mbind, SV_bind, manager.
  set (t := Storage.env_clock _ _). pose proof (abs_CreateGroup t g n (sv_groups s)) as Habs.
  destruct (Groups.CreateGroup t g n (sv_groups s)) as [m [grp|x]] eqn:Ec; cbn [abs_exec is_ok] in Habs.
  - destruct (created_stored e He g n s t m grp (tick (sv_world s)) Hs Ec eq_refl) as (w' & Hw & _).
    unfold store. cbn [sv_world with_manager with_world]. rewrite Hw. cbn. by rewrite Habs.
  - cbn. by rewrite Habs.
Qed.

(** Once the manager is done with a membership, the store accepts it. *)
Lemma membership_accepted g p j a l s w members : in_sync s → abs (sv_groups s) !! TrimSpace g = Some members →
  TrimSpace p ≠ EmptyString → Storage.w_db w = Storage.w_db (sv_world s) →
  ∃ w', Storage.SetGroupMembership g p j a l (se_env e) w = (Ok (), w').
Proof.
  intros [Hm Hd Hr] Hg Hp Hw.
  assert (TrimSpace g ≠ EmptyString).
  { rewrite abs_lookup in Hg. apply fmap_Some in Hg as (grp & Hg & _).
    apply (wfg_nonempty _ _ (wf_groups _ Hm _ _ Hg)). }
  rewrite Hr, lookup_stored in Hg. case_decide as Hx; [|done]. apply elem_of_dom in Hx.
  destruct (stored_SetGroupMembership (se_env e) He g p j a l w) as (w' & _ & H1 & _); [done..|by rewrite Hw|by exists w'].
Qed.

Lemma join_promised g p s : in_sync s →
  (groups_of (perform (H := P2P e) (ReqJoin g p) s).2, (perform (H := P2P e) (ReqJoin g p) s).1)
  = promised (ReqJoin g p) (groups_of s).
Proof.
  intros Hs. cbn [perform Service.JoinGroup P2P promised]. unfold groups_of, Chat.JoinGroup, mbind, SV_bind, clock, manager.
  cbn [with_world sv_groups sv_world]. set (t := Storage.env_clock _ (step_of s)).
  match goal with |- context [AddMember ?t1 g p] => set (t' := t1) end.
  pose proof (membership_accepted g p t true t s (tick (tick (sv_world s)))) as Hset.
  unfold AddMember. destruct (mgr_groups (sv_groups s) !! TrimSpace g) as [grp|] eqn:Eg.
  2:{ rewrite abs_lookup, Eg. case_decide; case_decide; done. }
  assert (Hg : TrimSpace g ≠ EmptyString) by apply (wfg_nonempty _ _ (wf_groups _ (is_manager _ Hs) _ _ Eg)).
  rewrite (decide_False (P := TrimSpace g = EmptyString)) by done. case_decide as Hp; [done|].
  destruct (Hset (roster_of grp)) as [w' Hw]; [done|by rewrite abs_lookup, Eg|done|done|]. unfold store.
  rewrite abs_lookup, Eg. destruct (g_Members grp !! TrimSpace p) as [mem|] eqn:Em;
    cbn [sv_world with_manager with_world]; rewrite Hw; cbn; f_equal.
  - symmetry. apply insert_id. rewrite abs_lookup, Eg. cbn. f_equal. apply elem_of_dom_2 in Em. unfold roster_of. set_solver.
  - rewrite fmap_insert. unfold roster_of at 1. cbn. by rewrite dom_insert_L.
Qed.

Lemma leave_promised g p s : in_sync s →
  (groups_of (perform (H := P2P e) (ReqLeave g p) s).2, (perform (H := P2P e) (ReqLeave g p) s).1)
  = promised (ReqLeave g p) (groups_of s).
Proof.
  intros Hs. cbn [perform Service.LeaveGroup P2P promised].
  unfold groups_of, LeaveGroup_sv, Groups.LeaveGroup, mbind, SV_bind, clock, manager.
  match goal with |- context [removeMember ?t1 g p] => set (t' := t1) end.
  set (t := Storage.env_clock (se_env e) (S (step_of s))).
  pose proof (membership_accepted g p t false t s (tick (tick (sv_world s)))) as Hset.
  unfold removeMember. destruct (mgr_groups (sv_groups s) !! TrimSpace g) as [grp|] eqn:Eg.
  2:{ rewrite abs_lookup, Eg. case_decide; case_decide; done. }
  assert (Hg : TrimSpace g ≠ EmptyString) by apply (wfg_nonempty _ _ (wf_groups _ (is_manager _ Hs) _ _ Eg)).
  rewrite (decide_False (P := TrimSpace g = EmptyString)) by done. case_decide as Hp; [done|].
  destruct (Hset (roster_of grp)) as [w' Hw]; [done|by rewrite abs_lookup, Eg|done|done|]. unfold store.
  rewrite abs_lookup, Eg. destruct (g_Members grp !! TrimSpace p) as [mem|] eqn:Em;
    cbn [sv_world with_manager with_world];
    match goal with |- context [Storage.SetGroupMembership g p ?a false ?a] => change a with t end;
    rewrite Hw; cbn; f_equal.
  - rewrite fmap_insert. unfold roster_of at 1. cbn. by rewrite dom_delete_L.
  - symmetry. apply insert_id. rewrite abs_lookup, Eg. cbn. f_equal. apply not_elem_of_dom in Em. unfold roster_of. set_solver.
Qed.

Lemma delete_promised g s : in_sync s →
  (groups_of (perform (H := P2P e) (ReqDelete g) s).2, (perform (H := P2P e) (ReqDelete g) s).1)
  = promised (ReqDelete g) (groups_of s).
Proof.
  intros [Hm Hd Hr]. cbn [perform Service.DeleteGroup P2P promised].
  unfold groups_of, DeleteGroup_sv, mbind, SV_bind, manager, Groups.DeleteGroup.
  assert (Hdom : TrimSpace g ∈ dom (abs (sv_groups s)) ↔ is_Some (mgr_groups (sv_groups s) !! TrimSpace g))
    by (rewrite abs_dom; apply elem_of_dom).
  destruct (decide (TrimSpace g = EmptyString)) as [Hg|Hg].
  { assert (Hn : mgr_groups (sv_groups s) !! TrimSpace g = None).
    { destruct (_ !! _) as [grp|] eqn:E; [|done]. by destruct (wfg_nonempty _ _ (wf_groups _ Hm _ _ E)). }
    cbn. f_equal; [|by rewrite bool_decide_eq_false_2 by (rewrite Hdom, Hn; by intros [])].
    symmetry. apply delete_id. by rewrite abs_lookup, Hn. }
  assert (Hst : Storage.db_groups (Storage.w_db (sv_world s)) !! TrimSpace g = None ↔
    mgr_groups (sv_groups s) !! TrimSpace g = None).
  { rewrite <- (not_elem_of_dom (D := gset string) (Storage.db_groups _)).
    assert (Hl : abs (sv_groups s) !! TrimSpace g = stored_rosters (Storage.w_db (sv_world s)) !! TrimSpace g) by (by rewrite Hr).
    rewrite abs_lookup, lookup_stored in Hl. case_decide; destruct (mgr_groups (sv_groups s) !! TrimSpace g); naive_solver. }
  unfold store.
  destruct (mgr_groups (sv_groups s) !! TrimSpace g) as [grp|] eqn:Eg;
    cbn [sv_world with_manager with_world tick Storage.w_db]; rewrite DeleteGroup_calm by done; cbn [tick Storage.w_db].
  - rewrite decide_True by (destruct (Storage.db_groups _ !! _); [by eexists|discriminate (proj1 Hst eq_refl)]).
    cbn. unfold abs. cbn. rewrite fmap_delete. f_equal. symmetry. apply bool_decide_eq_true_2, Hdom. by eexists.
  - rewrite (proj2 Hst eq_refl), decide_False by (by intros []). cbn.
    rewrite bool_decide_eq_false_2 by (rewrite Hdom; by intros []).
    f_equal. symmetry. apply delete_id. by rewrite abs_lookup, Eg.
Qed.

(** The requests that change no group. *)
Lemma sync_others {A} (m : SV A) s : (∀ M d0, holds e (framed M (same_groups d0)) m) → in_sync s →
  in_sync (m e s).2 ∧ groups_of (m e s).2 = groups_of s.
Proof.
  intros Hm [H1 H2 H3]. destruct (Hm (sv_groups s) (Storage.w_db (sv_world s)) s) as (Hg & Hd & Hgr & Hmr);
    [by split; [|split]|].
  split; [|by unfold groups_of; rewrite Hg]. split; [by rewrite Hg|done|].
  rewrite Hg, H3. symmetry. by apply stored_ext.
Qed.

Lemma others_frame o M d0 : leaves_groups o → holds e (framed M (same_groups d0)) (run_op o).
Proof. intros Ho. by apply frame_op. Qed.

Lemma perform_others r s : in_sync s → changes r = false →
  in_sync (perform (H := P2P e) r s).2 ∧ groups_of (perform (H := P2P e) r s).2 = groups_of s.
Proof.
  intros Hs Hr.
  assert (Hpair : ∀ A (m : SV (result service_error A)), (∀ M d0, holds e (framed M (same_groups d0)) m) →
    in_sync (let '(x, s) := m e s in (is_ok x, s)).2 ∧ groups_of (let '(x, s) := m e s in (is_ok x, s)).2 = groups_of s).
  { intros A m Hm. pose proof (sync_others m s Hm Hs). by destruct (m e s). }
  destruct r; try discriminate Hr; cbn [perform P2P Service.LocalIdentity Service.ConnectionStatus Service.ConnectedPeerCount
    Service.ListConversations Service.ListGroups Service.ListPeers Service.GetMessages Service.SendDirect
    Service.SendGroup Service.Subscribe Service.Close].
  - by split.
  - by split.
  - apply (sync_others Chat.ConnectedPeerCount s); [|done]. intros. apply frame_count.
  - apply Hpair. intros. apply frame_conversations.
  - apply Hpair. intros. apply holds_asks.
  - apply Hpair. intros. apply frame_peers.
  - apply Hpair. intros. apply frame_messages.
  - apply Hpair. intros. apply holds_ignored. by apply (frame_op e M d0 (OpSendDirect peerID body)).
  - apply Hpair. intros. apply holds_ignored. by apply (frame_op e M d0 (OpSendGroup groupID body)).
  - apply (sync_others Chat.Subscribe s); [|done]. intros. apply holds_subs.
  - apply (sync_others Chat.Close s); [|done]. intros. apply holds_subs.
Qed.

Lemma perform_changes r s : in_sync s → changes r = true →
  in_sync (perform (H := P2P e) r s).2 ∧
  (groups_of (perform (H := P2P e) r s).2, (perform (H := P2P e) r s).1) = promised r (groups_of s).
Proof.
  intros Hs Hr. assert (Hop : ∀ A (m : SV (result service_error A)), holds e in_sync (Chat.ignore m) →
    in_sync (let '(x, s) := m e s in (is_ok x, s)).2).
  { intros A m Hm. pose proof (holds_ignored e in_sync m Hm s Hs). by destruct (m e s). }
  destruct r; try discriminate Hr; (split; [apply Hop|]).
  - apply (sync_op e He (OpCreateGroup groupID name)).
  - by apply create_promised.
  - apply (sync_op e He (OpJoinGroup groupID peerID)).
  - by apply join_promised.
  - apply (sync_op e He (OpLeaveGroup groupID peerID)).
  - by apply leave_promised.
  - apply (sync_op e He (OpDeleteGroup groupID)).
  - by apply delete_promised.
Qed.

(** The list of groups. *)
Lemma omap_infos (f : string → option GroupInfo) (ids : list string) : (∀ id, id ∈ ids → ∃ x, f id = Some x ∧ gi_GroupID x = id) →
  gi_GroupID <$> omap f ids = ids.
Proof.
  induction ids as [|id ids IH]; intros Hf; [done|]. destruct (Hf id) as (x & Hx & Hid); [set_solver|].
  cbn. rewrite Hx. cbn. rewrite Hid. f_equal. apply IH. set_solver.
Qed.

Lemma list_complete s : in_sync s → ∃ l, (ListGroups_sv e s).1 = Ok l ∧
  (gi_GroupID <$> l) ≡ₚ elements (dom (groups_of s)) ∧
  ∀ x, x ∈ l → size <$> groups_of s !! gi_GroupID x = Some (gi_MemberCount x).
Proof.
  intros [Hm _ _]. eexists. split; [done|].
  assert (Hkeys : ∀ id, id ∈ Groups.ListGroups (sv_groups s) ↔ is_Some (mgr_groups (sv_groups s) !! id)).
  { intros id. unfold Groups.ListGroups. by rewrite elem_of_sort_strings, elem_of_keys, elem_of_dom. }
  assert (Hinfo : ∀ id g, mgr_groups (sv_groups s) !! id = Some g →
    group_info (sv_groups s) id = Some (mkGroupInfo id (g_Name g) (size (g_Members g)) (g_CreatedAt g))).
  { intros id g Hg. destruct (wf_groups _ Hm _ _ Hg) as [Hid Ht _ _ _]. unfold group_info, GetGroup.
    cbn. rewrite Ht, Hg. cbn. by rewrite Hid. }
  split.
  - rewrite omap_infos.
    2:{ intros id [g Hg]%Hkeys. eexists. split; [by apply Hinfo|done]. }
    apply NoDup_Permutation; [|apply NoDup_elements|].
    + unfold Groups.ListGroups. apply NoDup_sort_strings, NoDup_keys.
    + intros id. rewrite Hkeys, elem_of_elements. unfold groups_of. by rewrite abs_dom, elem_of_dom.
  - intros x (id & Hid & Hx)%list_elem_of_omap. apply Hkeys in Hid as [g Hg]. rewrite (Hinfo id g Hg) in Hx.
    injection Hx as <-. unfold groups_of. cbn. rewrite abs_lookup, Hg. cbn. f_equal. unfold roster_of. apply size_dom.
Qed.

Lemma P2P_laws : ChatLaws (H := P2P e) Service in_sync groups_of channels_of.
Proof.
  split.
  - intros r s Hs. destruct (changes r) eqn:E; [apply perform_changes|apply perform_others]; done.
  - intros r s Hs Hr. by apply perform_changes.
  - intros r s Hs Hr. by apply perform_others.
  - intros s Hs. by apply list_complete.
  - intros s _. assert (Hn : new_chan s ∉ channels_of s) by (apply (is_fresh (channels_of s))).
    cbn [Service.Subscribe P2P]. unfold Chat.Subscribe. destruct (Nat.leb _ _); exact Hn.
Qed.

End Lawful.

(** ** Properties *)

(** C14: [P2PService] keeps these promises of [ChatService], as long as the database
    refuses no statement and calls come one after the other: it stays consistent
    whatever is asked of it, requests for groups succeed exactly when they should
    and do what is promised, sends and queries leave the groups alone, the list of
    groups is complete and counts the members, and every subscription gets a new
    channel.  Not among them are the order of the conversations, which messages a
    limit leaves out, and calls that overlap, which it does not keep. *)
Theorem P2PService_lawful e : Storage.no_fault (se_env e) →
  ChatLaws (H := P2P e) Service in_sync groups_of channels_of.
Proof.
  apply P2P_laws.
Qed.

(** A client of any service that keeps the promises: after any sequence of
    requests the groups and members are those that its requests for groups lead
    to, whatever else it asked for in between. *)
Theorem lawful_history `{L : ChatLaws St Inv groups channels} rs s : Inv s →
  Inv (perform_all rs s).2 ∧ groups (perform_all rs s).2 = promised_all rs (groups s).
Proof.
  revert s. induction rs as [|r rs IH]; intros s Hs; [done|]. unfold promised_all. cbn [perform_all foldl].
  pose proof (law_inv r s Hs) as Hi.
  assert (Hg : groups (perform r s).2 = (promised r (groups s)).1).
  { destruct (changes r) eqn:E; [by rewrite <- (law_groups r s Hs E)|].
    rewrite (law_others r s Hs E). by destruct r. }
  destruct (perform r s) as [b s1]. cbn [snd] in *. rewrite <- Hg. destruct (IH s1 Hi) as [H1 H2].
  by destruct (perform_all rs s1).
Qed.

(** A client that fills another room than the one with alice and bob. *)
Definition fill_den : list request :=
  [ReqCreate "den" "Den"; ReqSubscribe; ReqJoin " den" "carol"; ReqSendDirect "bob" "hi"; ReqJoin "den" "carol";
   ReqConversations; ReqLeave "room" "bob"; ReqCreate "den" "Again"].

Lemma P2PService_lawful_witness : groups_of (perform (H := P2P sample_env) (ReqJoin "room" "bob") room_service).2 =
  groups_of room_service.
Proof.
  pose proof (law_groups (ChatLaws := P2PService_lawful sample_env (λ _, eq_refl)) (ReqJoin "room" "bob") room_service
    (proj1 room_in_sync) eq_refl) as H.
  apply (f_equal fst) in H. etransitivity; [exact H|]. vm_compute. reflexivity.
Defined.

Lemma lawful_history_witness :
  groups_of (perform_all (H := P2P sample_env) fill_den room_service).2 = {["den" := {["carol"]}; "room" := {["alice"]}]}.
Proof.
  destruct (lawful_history (L := P2P_laws sample_env (λ _, eq_refl)) fill_den room_service (proj1 room_in_sync)) as [_ H].
  rewrite H. vm_compute. reflexivity.
Defined.
