(* ===== verification/Conversation.v ===== *)
(** * A direct message over libp2p

    The chat services of two nodes, end to end: [SendDirect] of one ([Chat]), the
    stream between the hosts ([Node]), [handleInbound] of the other, the event
    its subscribers get, and what both see when they open the conversation
    ([GetMessages]). *)

From S2P Require Import Prelude GoStrings GoTime Json Protocol Identity Storage Client Relay Groups Persistence Chat Addr Node.
Import Addr.

Open Scope Z_scope.

Module Conversation.

(** The calls a stream leads to at the receiver, whose handler is [handleInbound]
    of its service. *)
Definition handle_calls {F} (calls : list (F * Message * string)) : Chat.SV () :=
  foldr (λ c rest, _ ← Chat.handleInbound c.1.2 c.2; rest) (mret ()) calls.

(** The calls for a stream from node [a] to node [b]. *)
Definition calls_of {H E} `{LibHost H E} {F W WE} `{!Writer W WE} (a b : Node.Node H F) (o : Node.OutStream W) :
  list (F * Message * string) := received (E:=E) a b o.

(** What a list of displayed messages says. *)
Definition shows (id sender body : string) (outbound : bool) (l : list Chat.DisplayMessage) : Prop :=
  ∃ m, m ∈ l ∧ Chat.dm_ID m = id ∧ Chat.dm_SenderID m = sender ∧ Chat.dm_Body m = body ∧
    Chat.dm_IsOutbound m = outbound.

(** The messages two peers exchanged, as the tables have them. *)
Definition exchanged (a b : string) (s : Chat.Service) : list (string * Storage.message_row) :=
  filter (λ row, Storage.is_direct a b row.2 = true) (map_to_list (Storage.db_messages (Storage.w_db (Chat.sv_world s)))).

(** The messages posted to a group. *)
Definition posted (g : string) (s : Chat.Service) : list (string * Storage.message_row) :=
  filter (λ row, Storage.in_group g row.2 = true) (map_to_list (Storage.db_messages (Storage.w_db (Chat.sv_world s)))).

(** [GetMessages] shows at most that many. *)
Definition shown_limit (limit : Z) : nat := Z.to_nat (if limit <=? 0 then 100 else limit).

(** A service whose own ID on the network is [id]. *)
Record runs_as (e : Chat.SEnv) (id : string) : Prop := {
  ra_calm : Storage.no_fault (Chat.se_env e);
  ra_id : Chat.se_lp2p e = Some id;
  ra_plain : Relay.plain_id id
}.

End Conversation.

Import Chat Relay Node Conversation.

(** ** Opening a conversation *)

Section Opening.
Context (e : SEnv) (He : Storage.no_fault (se_env e)).

Lemma default_limit_shown limit : Z.to_nat (Storage.default_limit (if limit <=? 0 then 100 else limit)) = shown_limit limit.
Proof. unfold Storage.default_limit, shown_limit. destruct (Z.leb_spec limit 0) as [|H]; [done|]. by rewrite (proj2 (Z.leb_gt _ _)). Qed.

(** A row is among those selected when there are not too many. *)
Lemma selected p limit d i row : Storage.db_messages d !! i = Some row → p row = true →
  (length (filter (λ row, p row.2 = true) (map_to_list (Storage.db_messages d))) ≤ shown_limit limit)%nat →
  (i, row) ∈ Storage.select_messages p (Storage.default_limit (if limit <=? 0 then 100 else limit)) d.
Proof.
  intros Hrow Hp Hlen. unfold Storage.select_messages. rewrite take_ge.
  - rewrite merge_sort_Permutation. apply list_elem_of_filter. split; [done|]. by apply elem_of_map_to_list.
  - rewrite merge_sort_Permutation. by rewrite default_limit_shown.
Qed.

Lemma displayed i row rows s : (i, row) ∈ rows →
  shows i (Storage.row_sender_id row) (Storage.row_body row)
    (bool_decide (Storage.row_direction row = Storage.DirectionOutbound))
    (storedToDisplay e s <$> (Storage.scanStoredMessage <$> rows)).
Proof.
  intros Hin. exists (storedToDisplay e s (Storage.scanStoredMessage (i, row))). split; [|by split_and!].
  apply list_elem_of_fmap. eexists. split; [done|]. apply list_elem_of_fmap. by exists (i, row).
Qed.

Lemma conversation_shows id peer limit s i row : sender_id e = id → trimmed id → id ≠ EmptyString →
  trimmed peer → peer ≠ EmptyString → GetGroup peer (sv_groups s) = None →
  Storage.db_messages (Storage.w_db (sv_world s)) !! i = Some row → Storage.is_direct id peer row = true →
  (length (exchanged id peer s) ≤ shown_limit limit)%nat →
  ∃ l, (GetMessages peer limit e s).1 = Ok l ∧
    shows i (Storage.row_sender_id row) (Storage.row_body row)
      (bool_decide (Storage.row_direction row = Storage.DirectionOutbound)) l.
Proof.
  intros Hid Hti Hni Htp Hnp Hg Hrow Hd Hlen. unfold GetMessages. unfold mbind at 1, SV_bind. unfold asks at 1. rewrite Hg.
  unfold mbind at 1, SV_bind. unfold asks at 1. cbn beta iota. rewrite Hid. unfold mbind at 1, SV_bind. unfold store at 1.
  set (limit' := if limit <=? 0 then 100 else limit).
  assert (Hin : (i, row) ∈ Storage.select_messages (Storage.is_direct id peer) (Storage.default_limit limit')
    (Storage.w_db (sv_world s))) by (by apply selected).
  unfold Storage.ListDirectConversation. rewrite Hti, Htp, decide_False by tauto.
  unfold mbind at 1, Storage.DB_bind. rewrite query_calm by done. cbn [mret Storage.DB_ret].
  set (rows := Storage.select_messages (Storage.is_direct id peer) (Storage.default_limit limit') (Storage.w_db (sv_world s))) in *.
  assert (Hne : Storage.scanStoredMessage <$> rows ≠ []) by (destruct rows; [set_solver|done]).
  unfold mbind at 1, SV_bind. cbn [result_list]. rewrite decide_False by (intros [? _]; done). cbn [mret SV_ret].
  unfold mbind, SV_bind, toDisplayMessages, asks. cbn [mret SV_ret fst]. eexists. split; [done|].
  by apply displayed.
Qed.

(** The same for a group that is known. *)
Lemma group_shows g limit s i row grp : trimmed g → g ≠ EmptyString → GetGroup g (sv_groups s) = Some grp →
  Storage.db_messages (Storage.w_db (sv_world s)) !! i = Some row → Storage.in_group g row = true →
  (length (posted g s) ≤ shown_limit limit)%nat →
  ∃ l, (GetMessages g limit e s).1 = Ok l ∧
    shows i (Storage.row_sender_id row) (Storage.row_body row)
      (bool_decide (Storage.row_direction row = Storage.DirectionOutbound)) l.
Proof.
  intros Ht Hn Hg Hrow Hd Hlen. unfold GetMessages. unfold mbind at 1, SV_bind. unfold asks at 1. rewrite Hg.
  unfold mbind at 1, SV_bind. unfold store at 1. unfold Storage.ListGroupConversation. rewrite Ht, decide_False by done.
  unfold mbind at 1, Storage.DB_bind. rewrite query_calm by done. cbn [mret Storage.DB_ret].
  unfold mbind, SV_bind, toDisplayMessages, asks. cbn [mret SV_ret fst]. eexists. split; [done|].
  by apply displayed, selected.
Qed.

End Opening.

(** ** Both ends *)

Lemma SendDirect_accepted e p body s libID : se_decode e p = Some libID → (∀ n, se_send e n = true) →
  (SendDirect p body e s).1 = Ok ().
Proof.
  intros Hd Hs. unfold SendDirect, mbind, SV_bind, asks, clock, setPeerName, skallToLibP2P, store, host_send.
  destruct (Storage.InsertMessage _ _ _ _ _) as [r1 w1]. cbn. rewrite Hd, Hs. cbn.
  destruct (Storage.UpdateMessageStatus _ _ _ _) as [r2 w2]. cbn. unfold publish. by destruct (publish_to _ _ _).
Qed.

Lemma sender_of e id : runs_as e id → sender_id e = id.
Proof. intros [_ H _]. unfold sender_id. by rewrite H. Qed.

Lemma plain_row id peer body t dir st t' : plain_id id → plain_id peer →
  let row := Storage.message_to_row (Client.new_message TypeChat id peer body t) dir st t' in
  Storage.is_direct id peer row = true ∧ Storage.is_direct peer id row = true.
Proof.
  intros Hi Hp. cbn zeta. rewrite (is_direct_sym peer id).
  assert (H : Storage.is_direct id peer (Storage.message_to_row (Client.new_message TypeChat id peer body t) dir st t') = true); [|done].
  unfold Storage.is_direct. cbn [Storage.message_to_row Client.new_message Storage.row_group_id Storage.row_sender_id
    Storage.row_recipient_id msg_GroupID msg_SenderID msg_RecipientID].
  assert (Hn : Storage.nullIfEmpty peer = Some peer).
  { unfold Storage.nullIfEmpty. rewrite (graphic_trimmed peer) by apply Hp. rewrite decide_False by apply Hp. done. }
  rewrite Hn, (bool_decide_eq_true_2 (id = id ∧ Some peer = Some peer)) by done.
  by rewrite bool_decide_eq_true_2.
Qed.

(** ** Properties *)

(** C6: a direct message over libp2p, end to end, between two nodes whose stores
    refuse no statement and have no message under its ID.  When the host of one
    node accepts the message that its service makes of a text, the handler of the
    other node gets it once; every subscriber there that has room hears of it under
    the sender's authenticated ID; and whoever opens the conversation, on either
    side, finds the text under the sender's ID, inbound at one end and outbound at
    the other, provided that no group has the ID of the other peer and that no more
    messages were exchanged than the limit shows. *)
Theorem message_read {H E} `{LibHost H E} {F W WE} `{!Writer W WE} (a b : Node H F) (w : W) h body eA eB sA sB o :
  runs_as eA (ID a) → runs_as eB (ID b) → se_decode eA (ID b) = Some (ID b) → (∀ n, se_send eA n = true) →
  sendable body → ordinary (Storage.env_clock (se_env eA) (step_of sA)) → wf_subs sB →
  written w = EmptyString → nd_handler b = Some h →
  let msg := direct_message eA sA (ID b) body in
  SendMessage (Ok w) None (ID b) msg a = (Some o, Ok ()) →
  Storage.db_messages (Storage.w_db (sv_world sA)) !! msg_ID msg = None →
  Storage.db_messages (Storage.w_db (sv_world sB)) !! msg_ID msg = None →
  let '(r, sA') := SendDirect (ID b) body eA sA in
  let sB' := (handle_calls (calls_of a b o) eB sB).2 in
  r = Ok () ∧ calls_of a b o = [(h, msg, ID a)] ∧
  (∀ i c, i ∈ sv_subs sB → sv_chans sB !! i = Some c → (length (ch_buf c) < subscriberBuf)%nat →
     sv_chans sB' !! i = Some (mkChan (ch_buf c ++ [EventNewMessage (ID a)
       (mkDisplay (msg_ID msg) (ID a) (getPeerName (ID a) sB) body (msg_Timestamp msg) false)]) false)) ∧
  (∀ limit, GetGroup (ID a) (sv_groups sB') = None → (length (exchanged (ID b) (ID a) sB') ≤ shown_limit limit)%nat →
     ∃ l, (GetMessages (ID a) limit eB sB').1 = Ok l ∧ shows (msg_ID msg) (ID a) body false l) ∧
  (∀ limit, GetGroup (ID b) (sv_groups sA') = None → (length (exchanged (ID a) (ID b) sA') ≤ shown_limit limit)%nat →
     ∃ l, (GetMessages (ID b) limit eA sA').1 = Ok l ∧ shows (msg_ID msg) (ID a) body true l).
Proof.
  intros HA HB Hdec Hacc Hb Ht Hs Hw Hh msg Hsend HnA HnB.
  set (t := Storage.env_clock (se_env eA) (step_of sA)) in *.
  assert (Hm : msg = Client.new_message TypeChat (ID a) (ID b) body t) by (unfold msg, direct_message; by rewrite (sender_of _ _ HA)).
  assert (Hv : Validate msg = Ok ()).
  { rewrite Hm. apply Validate_spec. destruct (ra_plain _ _ HB). by apply said_valid; [set_solver|apply HA|..]. }
  assert (Hu : utf8_message msg = true).
  { rewrite Hm. unfold utf8_message. cbn. destruct (ra_plain _ _ HA), (ra_plain _ _ HB), Hb.
    by rewrite !graphic_utf8, se_utf8 by (done || apply Itoa_graphic). }
  pose proof (SendDirect_row eA sA (ID b) body (ra_calm _ _ HA) Hv) as Hrow. cbv zeta in Hrow. fold msg in Hrow.
  rewrite HnA in Hrow. pose proof (SendDirect_accepted eA (ID b) body sA (ID b) Hdec Hacc) as Hr.
  destruct (SendDirect (ID b) body eA sA) as [r sA']. cbn [fst] in Hr. subst r. destruct Hrow as (tu & Hrow & _).
  unfold calls_of. rewrite (sent_received a b w None h msg o Hw Hu Hh Hsend). split; [done|]. split; [done|].
  cbn [handle_calls foldr fst snd]. unfold mbind, SV_bind.
  destruct (handleInbound_spec eB msg (ID a) sB (ra_calm _ _ HB) Hs (pi_length _ (ra_plain _ _ HA)) Hv)
    as (Hg & _ & _ & (tb & Hmb) & Hev).
  rewrite HnB in Hmb.
  destruct (handleInbound msg (ID a) eB sB) as [[] sB']. cbn [mret SV_ret fst snd] in *.
  assert (Hplain : ∀ e id, runs_as e id → trimmed id ∧ id ≠ EmptyString).
  { intros e id [_ _ Hp]. split; [by apply graphic_trimmed, Hp|apply Hp]. }
  clearbody msg.
  destruct (Hplain _ _ HA) as [HA1 HA2]. destruct (Hplain _ _ HB) as [HB1 HB2]. split_and!.
  - intros i c Hi Hc Hlen. rewrite (Hev i c Hi Hc Hlen). unfold inbound_event. rewrite Hm. cbn.
    by rewrite decide_False by (intros X; by apply X).
  - intros limit Hgr Hlen. rewrite Hm in Hmb |- *.
    match type of Hmb with _ = <[?i := ?row]> ?m =>
      assert (HrowB : Storage.db_messages (Storage.w_db (sv_world sB')) !! i = Some row) by (rewrite Hmb; apply lookup_insert_eq) end.
    destruct (conversation_shows eB (ra_calm _ _ HB) (ID b) (ID a) limit sB' _ _ (sender_of _ _ HB) HB1 HB2 HA1 HA2 Hgr HrowB
      (proj2 (plain_row (ID a) (ID b) _ _ _ _ _ (ra_plain _ _ HA) (ra_plain _ _ HB))) Hlen) as (l & Hl & Hsh).
    exists l. split; [exact Hl|exact Hsh].
  - intros limit Hgr Hlen. rewrite Hm in Hrow |- *.
    destruct (conversation_shows eA (ra_calm _ _ HA) (ID a) (ID b) limit sA' _ _ (sender_of _ _ HA) HA1 HA2 HB1 HB2 Hgr Hrow
      (proj1 (plain_row (ID a) (ID b) _ _ _ _ _ (ra_plain _ _ HA) (ra_plain _ _ HB))) Hlen) as (l & Hl & Hsh).
    exists l. split; [exact Hl|exact Hsh].
Qed.

(** A message for a group that the receiver knows is announced and shown there,
    under the sender it claims; that its peer or its claimed sender is a member is
    asked nowhere. *)
Theorem group_message_shown e msg from s grp limit : Storage.no_fault (se_env e) → wf_subs s →
  slen from ≤ maxPeerIDLen → Validate msg = Ok () → trimmed (msg_GroupID msg) → msg_GroupID msg ≠ EmptyString →
  GetGroup (msg_GroupID msg) (sv_groups s) = Some grp →
  Storage.db_messages (Storage.w_db (sv_world s)) !! msg_ID msg = None →
  let s' := (handleInbound msg from e s).2 in
  (length (posted (msg_GroupID msg) s') ≤ shown_limit limit)%nat →
  ∃ l, (GetMessages (msg_GroupID msg) limit e s').1 = Ok l ∧ shows (msg_ID msg) (msg_SenderID msg) (msg_Body msg) false l.
Proof.
  intros He Hs Hl Hv Ht Hne Hg Hn. cbn zeta. intros Hlen.
  destruct (handleInbound_spec e msg from s He Hs Hl Hv) as (Hgr & _ & _ & [t Hrow] & _). rewrite Hn in Hrow.
  match type of Hrow with _ = <[?i := ?row]> ?m =>
    assert (HrowB : Storage.db_messages (Storage.w_db (sv_world (handleInbound msg from e s).2)) !! i = Some row)
      by (rewrite Hrow; apply lookup_insert_eq) end.
  rewrite <- Hgr in Hg.
  destruct (group_shows e He (msg_GroupID msg) limit _ _ _ grp Ht Hne Hg HrowB) as (l & Hl' & Hsh); [|done|].
  - unfold Storage.in_group. cbn [Storage.message_to_row Storage.row_group_id].
    unfold Storage.nullIfEmpty. rewrite Ht, decide_False by done. by apply bool_decide_eq_true_2.
  - exists l. split; [exact Hl'|exact Hsh].
Qed.

(** Mallory, who is no member, posts to the room in the name of alice. *)
Definition posing : Message := mkMessage 1 "9" TypeChat "alice" EmptyString "room" unix_epoch "hi".

Lemma group_message_shown_witness : IsMember "room" "mallory" (sv_groups room_service) = false ∧
  ∃ l, (GetMessages "room" 0 sample_env (handleInbound posing "mallory" sample_env room_service).2).1 = Ok l ∧
    shows "9" "alice" "hi" false l.
Proof.
  split; [vm_compute; reflexivity|].
  destruct (GetGroup "room" (sv_groups room_service)) as [grp|] eqn:E; [|vm_compute in E; discriminate E].
  refine (group_message_shown sample_env posing "mallory" room_service grp 0 (λ _, eq_refl) (proj2 room_in_sync) _ _ _ _ E _ _).
  - vm_compute. discriminate.
  - vm_compute. reflexivity.
  - vm_compute. reflexivity.
  - discriminate.
  - vm_compute. reflexivity.
  - apply Nat.leb_le. vm_compute. reflexivity.
Defined.

(** A message that arrives again is not stored again, but it is announced again. *)
Theorem replay_announced e msg from s i c : Storage.no_fault (se_env e) → wf_subs s →
  slen from ≤ maxPeerIDLen → Validate msg = Ok () →
  i ∈ sv_subs s → sv_chans s !! i = Some c → (S (length (ch_buf c)) < subscriberBuf)%nat →
  let s1 := (handleInbound msg from e s).2 in
  let s2 := (handleInbound msg from e s1).2 in
  Storage.db_messages (Storage.w_db (sv_world s2)) = Storage.db_messages (Storage.w_db (sv_world s1)) ∧
  sv_chans s2 !! i = Some (mkChan (ch_buf c ++ [inbound_event msg from s; inbound_event msg from s]) false).
Proof.
  intros He Hs Hl Hv Hi Hc Hlen. cbn zeta.
  destruct (handleInbound_spec e msg from s He Hs Hl Hv) as (_ & Hn1 & Hsub & [t1 Hr1] & Hev1).
  specialize (Hev1 i c Hi Hc ltac:(lia)).
  pose proof (subs_op e (OpInbound msg from) s Hs) as Hs1. cbn [run_op] in Hs1.
  set (s1 := (handleInbound msg from e s).2) in *.
  destruct (handleInbound_spec e msg from s1 He Hs1 Hl Hv) as (_ & _ & _ & [t2 Hr2] & Hev2). split.
  - rewrite Hr2. destruct (Storage.db_messages (Storage.w_db (sv_world s1)) !! msg_ID msg) eqn:E; [done|].
    exfalso. rewrite Hr1 in E. destruct (_ !! msg_ID msg) eqn:E0; [by rewrite E0 in E|]. by rewrite lookup_insert_eq in E.
  - assert (Hsame : inbound_event msg from s1 = inbound_event msg from s)
      by (unfold inbound_event, getPeerName; by rewrite Hn1).
    rewrite (Hev2 i (mkChan (ch_buf c ++ [inbound_event msg from s]) false)); cbn [ch_buf].
    + by rewrite Hsame, <- app_assoc.
    + by rewrite Hsub.
    + done.
    + rewrite length_app. cbn. lia.
Qed.

(** Two nodes with empty stores, and a subscriber at the second. *)
Definition peer_env (peerID name libID : string) : SEnv :=
  mkSEnv Storage.calm (Identity.mkIdentity 1 peerID peerID name unix_epoch EmptyString EmptyString) (Some libID)
    (λ p, Some p) (λ _, []) (λ _, true).
Definition alice_env : SEnv := peer_env "alice" "Alice" "12D3a".
Definition bob_env : SEnv := peer_env "bob" "Bob" "12D3b".
Definition alice_node := newNode (E := string) (F := nat) ("12D3a", @nil string).
Definition bob_node := Node.SetMessageHandler (Some 7%nat) (newNode (E := string) ("12D3b", @nil string)).
Definition bob_service : Service := (Chat.Subscribe bob_env empty_service).2.

Lemma runs_as_sample : runs_as alice_env "12D3a" ∧ runs_as bob_env "12D3b".
Proof. split; (split; [by intros n|done|]); (split; [by vm_compute|done|by vm_compute]). Qed.

Lemma message_read_witness : ∃ o l,
  SendMessage (Ok (mkLimited EmptyString 1000)) None "12D3b" (direct_message alice_env empty_service "12D3b" "hi") alice_node
    = (Some o, Ok ()) ∧
  (GetMessages "12D3a" 0 bob_env (handle_calls (calls_of alice_node bob_node o) bob_env bob_service).2).1 = Ok l ∧
  shows "0" "12D3a" "hi" false l.
Proof.
  destruct (SendMessage (Ok (mkLimited EmptyString 1000)) None "12D3b"
    (direct_message alice_env empty_service "12D3b" "hi") alice_node) as [o r] eqn:E0.
  destruct o as [o|]; [|vm_compute in E0; discriminate E0].
  assert (r = Ok ()) as -> by (vm_compute in E0; injection E0 as _ <-; reflexivity).
  pose proof (message_read alice_node bob_node (mkLimited EmptyString 1000) 7%nat "hi" alice_env bob_env empty_service
    bob_service o (proj1 runs_as_sample) (proj2 runs_as_sample) eq_refl (λ _, eq_refl)) as Hm.
  destruct (SendDirect (ID bob_node) "hi" alice_env empty_service) as [r sA'].
  destruct Hm as (_ & Hcalls & _ & Hread & _).
  - split; [vm_compute; discriminate|vm_compute; reflexivity|vm_compute; discriminate].
  - split; [vm_compute; split; [discriminate|reflexivity]|vm_compute; discriminate].
  - apply (subs_op bob_env OpSubscribe empty_service), subs_new.
  - reflexivity.
  - reflexivity.
  - exact E0.
  - vm_compute. reflexivity.
  - vm_compute. reflexivity.
  - destruct (Hread 0) as (l & Hl & Hs).
    + rewrite Hcalls. vm_compute. reflexivity.
    + rewrite Hcalls. apply Nat.leb_le. vm_compute. reflexivity.
    + exists o, l. split; [reflexivity|]. split; [exact Hl|exact Hs].
Defined.
