(* ===== verification/Terminal.v ===== *)
(** * The terminal libraries

    The interface draws with Bubble Tea, its text input and viewport, and
    lipgloss.  Here they are an interface: the types and functions the program
    uses, and what it relies on.  The styles of [internal/ui/styles.go] are
    names here; [Styles] says what they are. *)

From S2P Require Import Prelude GoStrings GoTime.

Open Scope Z_scope.

Inductive style : Type :=
  | panelStyle | panelFocusStyle
  | statusBarStyle | statusDotOnline | statusDotOffline | statusDotPending | statusAppName | statusText
  | sidebarTabActive | sidebarTabInactive | sidebarItemStyle | sidebarItemSelected | sidebarItemMuted | sidebarDot
  | chatHeaderStyle | msgTimestamp | msgSenderSelf | msgSenderOther | msgBodyStyle | msgEmptyStyle
  | inputPrompt | inputBorder | inputBorderFocus
  | helpOverlayStyle | helpTitleStyle | helpKeyStyle | helpDescStyle | errorBannerStyle.

(** Layout constants. *)
Definition sidebarWidth : Z := 22.
Definition statusHeight : Z := 1.
Definition inputHeight : Z := 3.
Definition minChatWidth : Z := 30.

Class Terminal : Type := {
  (** [tea.KeyMsg], its text and the bytes it types; whether Alt is held with it,
      and whether it is pasted text; mouse messages *)
  Key : Type;
  key_String : Key → string;
  key_Runes : Key → string;
  key_Alt : Key → bool;
  key_Paste : Key → bool;
  Mouse : Type;
  (** [textinput.Model], made with a placeholder and a limit of characters *)
  TextInput : Type;
  ti_New : string → Z → TextInput;
  ti_Value : TextInput → string;
  ti_View : TextInput → string;
  ti_Update : Key → TextInput → TextInput;
  ti_Reset : TextInput → TextInput;
  ti_Focus : TextInput → TextInput;
  ti_Blur : TextInput → TextInput;
  ti_Focused : TextInput → bool;
  (** [viewport.Model]; [vp_SetSize] sets its fields [Width] and [Height] *)
  Viewport : Type;
  vp_New : Z → Z → Viewport;
  vp_SetContent : string → Viewport → Viewport;
  vp_SetSize : Z → Z → Viewport → Viewport;
  vp_GotoBottom : Viewport → Viewport;
  vp_HalfViewUp : Viewport → Viewport;
  vp_HalfViewDown : Viewport → Viewport;
  vp_Update : Key + Mouse → Viewport → Viewport;
  vp_View : Viewport → string;
  (** lipgloss: [Render] with the width and height set, and the text of a style
      that has one *)
  Render : style → option Z → option Z → string → string;
  style_String : style → string;
  Width : string → Z;
  Height : string → Z;
  JoinHorizontal : list string → string;
  JoinVertical : list string → string;
  (** a timestamp in the format [15:04] of its own location *)
  clock_text : Time → string
}.

(** What the program relies on: the text of a key that types something, without
    Alt and not pasted, is what it types; the focus of a text input is what was set last,
    its value is emptied by a reset, and a key adds only bytes it types, or spaces
    for tabs and newlines. *)
Class TerminalLaws `{Terminal} : Prop := {
  key_String_plain k : key_Alt k = false → key_Paste k = false → key_Runes k ≠ EmptyString → key_String k = key_Runes k;
  ti_Focused_Focus t : ti_Focused (ti_Focus t) = true;
  ti_Focused_Blur t : ti_Focused (ti_Blur t) = false;
  ti_Focused_Reset t : ti_Focused (ti_Reset t) = ti_Focused t;
  ti_Focused_Update k t : ti_Focused (ti_Update k t) = ti_Focused t;
  ti_Value_New p n : ti_Value (ti_New p n) = EmptyString;
  ti_Value_Reset t : ti_Value (ti_Reset t) = EmptyString;
  ti_Value_Focus t : ti_Value (ti_Focus t) = ti_Value t;
  ti_Value_Blur t : ti_Value (ti_Blur t) = ti_Value t;
  ti_Value_Update p k t : p " "%char = true → all_bytes p (ti_Value t) = true → all_bytes p (key_Runes k) = true →
    all_bytes p (ti_Value (ti_Update k t)) = true
}.

(** ** A plain terminal

    Texts without styles; a key is the character it types, or a name; with Alt its
    text says so; pasted text is in brackets.  The input only appends. *)

Record plain_input : Type := mkPlain { pl_value : string; pl_focused : bool }.

Inductive plain_key : Type := Typed (a : ascii) | Alt (a : ascii) | Pasted (text : string) | Named (name : string).

Definition plain_runes (k : plain_key) : string :=
  match k with Typed a | Alt a => String a EmptyString | Pasted text => text | Named _ => EmptyString end.
Definition plain_text (k : plain_key) : string :=
  match k with
  | Typed a => String a EmptyString
  | Alt a => "alt+" +:+ String a EmptyString
  | Pasted text => "[" +:+ text +:+ "]"
  | Named name => name
  end.

#[export] Instance PlainTerminal : Terminal := {
  Key := plain_key; key_String := plain_text; key_Runes := plain_runes; Mouse := unit;
  key_Alt := λ k, match k with Alt _ => true | _ => false end;
  key_Paste := λ k, match k with Pasted _ => true | _ => false end;
  TextInput := plain_input; ti_New := λ _ _, mkPlain EmptyString false;
  ti_Value := pl_value; ti_View := pl_value;
  ti_Update := λ k t, if pl_focused t then mkPlain (pl_value t +:+ plain_runes k) true else t;
  ti_Reset := λ t, mkPlain EmptyString (pl_focused t);
  ti_Focus := λ t, mkPlain (pl_value t) true; ti_Blur := λ t, mkPlain (pl_value t) false;
  ti_Focused := pl_focused;
  Viewport := string; vp_New := λ _ _, EmptyString; vp_SetContent := λ s _, s; vp_SetSize := λ _ _ v, v;
  vp_GotoBottom := λ v, v; vp_HalfViewUp := λ v, v; vp_HalfViewDown := λ v, v;
  vp_Update := λ _ v, v; vp_View := λ v, v;
  Render := λ _ _ _ s, s; style_String := λ _, "*"; Width := slen; Height := λ _, 1;
  JoinHorizontal := λ l, Join l "|"; JoinVertical := λ l, Join l (String "010"%char EmptyString);
  clock_text := λ _, "12:00"
}.

#[export] Instance PlainTerminalLaws : TerminalLaws.
Proof.
  split; try done.
  - by intros [].
  - intros k t. cbn. by destruct (pl_focused t) eqn:E.
  - intros p k t _ Ht Hk. cbn in *. destruct (pl_focused t); [|done]. cbn. by rewrite all_bytes_app, Ht, Hk.
Qed.
