(* ===== verification/Panels.v ===== *)
(** * The panels of the interface

    [internal/ui]: the status bar, the sidebar with its three lists, the chat
    view and the help screen, each with its updates and what it draws.  A view
    is [None] where the code panics. *)

From S2P Require Import Prelude GoStrings GoTime Json GoRunes Protocol Identity Storage Groups Chat Terminal.

Open Scope Z_scope.

Module Panels.

Section Panels.
Context `{Terminal}.

(** ** The status bar ([statusbar.go]) *)

Record statusBarModel : Type := mkStatusBar {
  sb_status : Chat.ConnectionStatus; sb_peerCount : Z; sb_width : Z; sb_errMsg : string
}.

Definition newStatusBar : statusBarModel := mkStatusBar Chat.StatusConnecting 0 0 EmptyString.

Definition set_status (status : Chat.ConnectionStatus) (peerCount : Z) (m : statusBarModel) : statusBarModel :=
  mkStatusBar status peerCount (sb_width m) (sb_errMsg m).

(** [MsgError]: the text of the error, nothing for [nil]. *)
Definition set_error (err : option string) (m : statusBarModel) : statusBarModel :=
  mkStatusBar (sb_status m) (sb_peerCount m) (sb_width m) (default EmptyString err).

Definition SetWidth (w : Z) (m : statusBarModel) : statusBarModel :=
  mkStatusBar (sb_status m) (sb_peerCount m) w (sb_errMsg m).

Definition status_label (status : Chat.ConnectionStatus) : style * string :=
  match status with
  | Chat.StatusConnected => (statusDotOnline, "Connected")
  | Chat.StatusDisconnected => (statusDotOffline, "Disconnected")
  | Chat.StatusConnecting => (statusDotPending, "Connecting")
  end.

Definition statusBar_View (m : statusBarModel) : option string :=
  let '(dot, statusLabel) := status_label (sb_status m) in
  let left := style_String statusAppName +:+ "  " +:+ style_String dot +:+ "  " +:+ Render statusText None None statusLabel in
  let right :=
    if bool_decide (sb_errMsg m = EmptyString)
    then Render statusText None None (Itoa (sb_peerCount m) +:+ " peer(s)")
    else Render errorBannerStyle None None (" ⚠ " +:+ sb_errMsg m) in
  let gap := sb_width m - Width left - Width right in
  let gap := if gap <? 0 then 0 else gap in
  spaces ← Repeat " " gap;
  Some (Render statusBarStyle (Some (sb_width m)) None (left +:+ spaces +:+ right)).

(** ** The sidebar ([sidebar.go]) *)

Definition sidebarTab : Type := Z.
Definition tabConversations : sidebarTab := 0.
Definition tabGroups : sidebarTab := 1.
Definition tabPeers : sidebarTab := 2.
Definition tabCount : sidebarTab := 3.

Definition tab_String (t : sidebarTab) : string :=
  if t =? tabConversations then "Chats"
  else if t =? tabGroups then "Groups"
  else if t =? tabPeers then "Peers"
  else EmptyString.

Record sidebarModel : Type := mkSidebar {
  sd_conversations : list Chat.Conversation; sd_groups : list Chat.GroupInfo; sd_peers : list Chat.Peer;
  sd_activeTab : sidebarTab; sd_cursor : Z; sd_focused : bool; sd_width : Z; sd_height : Z
}.

Definition newSidebar : sidebarModel := mkSidebar [] [] [] tabConversations 0 true 0 0.

Definition with_lists c g p (m : sidebarModel) : sidebarModel :=
  mkSidebar c g p (sd_activeTab m) (sd_cursor m) (sd_focused m) (sd_width m) (sd_height m).
Definition with_row (tab : sidebarTab) (cursor : Z) (m : sidebarModel) : sidebarModel :=
  mkSidebar (sd_conversations m) (sd_groups m) (sd_peers m) tab cursor (sd_focused m) (sd_width m) (sd_height m).
Definition sidebar_SetFocused (f : bool) (m : sidebarModel) : sidebarModel :=
  mkSidebar (sd_conversations m) (sd_groups m) (sd_peers m) (sd_activeTab m) (sd_cursor m) f (sd_width m) (sd_height m).
Definition sidebar_SetSize (w h : Z) (m : sidebarModel) : sidebarModel :=
  mkSidebar (sd_conversations m) (sd_groups m) (sd_peers m) (sd_activeTab m) (sd_cursor m) (sd_focused m) w h.

Definition listLen (m : sidebarModel) : Z :=
  if sd_activeTab m =? tabConversations then Z.of_nat (length (sd_conversations m))
  else if sd_activeTab m =? tabGroups then Z.of_nat (length (sd_groups m))
  else if sd_activeTab m =? tabPeers then Z.of_nat (length (sd_peers m))
  else 0.

Definition clampCursor (m : sidebarModel) : sidebarModel :=
  let l := listLen m in
  let cursor := if (l <=? sd_cursor m) && (0 <? l) then l - 1 else sd_cursor m in
  with_row (sd_activeTab m) (if cursor <? 0 then 0 else cursor) m.

(** A key for the sidebar. *)
Definition sidebar_key (k : string) (m : sidebarModel) : sidebarModel :=
  if negb (sd_focused m) then m
  else if bool_decide (k = "tab") then with_row (Z.rem (sd_activeTab m + 1) tabCount) 0 m
  else if bool_decide (k = "shift+tab") then with_row (Z.rem (sd_activeTab m + tabCount - 1) tabCount) 0 m
  else if bool_decide (k ∈ ["up"; "k"]) then
    if 0 <? sd_cursor m then with_row (sd_activeTab m) (sd_cursor m - 1) m else m
  else if bool_decide (k ∈ ["down"; "j"]) then
    if sd_cursor m <? listLen m - 1 then with_row (sd_activeTab m) (sd_cursor m + 1) m else m
  else m.

(** An element of a slice; the outer [None] is the panic of an index out of
    range. *)
Definition index {A} (l : list A) (i : Z) : option A := if i <? 0 then None else l !! Z.to_nat i.

Definition selected {A} (tab : sidebarTab) (l : list A) (m : sidebarModel) : option (option A) :=
  if negb (sd_activeTab m =? tab) || bool_decide (length l = 0%nat) then Some None
  else if Z.of_nat (length l) <=? sd_cursor m then Some None
  else Some <$> index l (sd_cursor m).

Definition SelectedConversation (m : sidebarModel) : option (option Chat.Conversation) :=
  selected tabConversations (sd_conversations m) m.
Definition SelectedGroupID (m : sidebarModel) : option string :=
  default EmptyString <$> (fmap Chat.gi_GroupID <$> selected tabGroups (sd_groups m) m).
Definition SelectedPeer (m : sidebarModel) : option (option Chat.Peer) :=
  selected tabPeers (sd_peers m) m.

(** The rows of a list; [row] draws the one with the index and tells it whether
    the cursor is there. *)
Definition rows {A} (cursor : Z) (row : bool → A → string) (l : list A) : string :=
  Join (imap (λ i x, row (bool_decide (Z.of_nat i = cursor)) x +:+ newline) l) EmptyString.

Definition item (sel : bool) (text : string) : string :=
  if sel then Render sidebarItemSelected None None ("> " +:+ text)
  else Render sidebarItemStyle None None ("  " +:+ text).

Definition conversation_row (width : Z) (sel : bool) (c : Chat.Conversation) : string :=
  let name := truncate (Chat.cv_Name c) (width - 5) in
  item sel (match Chat.cv_Type c with Chat.ConversationGroup => "# " +:+ name | Chat.ConversationDirect => name end).

Definition group_row (width : Z) (sel : bool) (g : Chat.GroupInfo) : string :=
  item sel (truncate ("# " +:+ Chat.gi_Name g) (width - 5) +:+
            " [" +:+ Itoa (Z.of_nat (Chat.gi_MemberCount g)) +:+ "]").

Definition peer_row (width : Z) (sel : bool) (p : Chat.Peer) : string :=
  let name := truncate (Chat.cp_DisplayName p) (width - 6) in
  let dot := if Chat.cp_Connected p then Render sidebarDot None None "●" else " " in
  Render (if sel then sidebarItemSelected else sidebarItemStyle) None None (dot +:+ " " +:+ name).

Definition list_text {A} (none : string) (cursor : Z) (row : bool → A → string) (l : list A) : string :=
  (match l with [] => Render sidebarItemMuted None None none | _ => EmptyString end) +:+ rows cursor row l.

Definition renderList (m : sidebarModel) : string :=
  if sd_activeTab m =? tabConversations
  then list_text "(no conversations)" (sd_cursor m) (conversation_row (sd_width m)) (sd_conversations m)
  else if sd_activeTab m =? tabGroups
  then list_text "(no groups)" (sd_cursor m) (group_row (sd_width m)) (sd_groups m)
  else if sd_activeTab m =? tabPeers
  then list_text "(no peers)" (sd_cursor m) (peer_row (sd_width m)) (sd_peers m)
  else EmptyString.

(** The lines of a text, cut or padded to a height. *)
Definition fit (height : nat) (lines : list string) : list string :=
  take height lines ++ replicate (height - length lines) EmptyString.

Definition tab_label (active t : sidebarTab) : string :=
  Render (if t =? active then sidebarTabActive else sidebarTabInactive) None None (tab_String t).

Definition sidebar_View (m : sidebarModel) : string :=
  let tabs := tab_label (sd_activeTab m) <$> [tabConversations; tabGroups; tabPeers] in
  let tabRow := " " +:+ Join tabs (Render sidebarTabInactive None None " │ ") in
  let listHeight := sd_height m - 2 - 2 in
  let listHeight := if listHeight <? 0 then 0 else listHeight in
  let lines := fit (Z.to_nat listHeight) (SplitLines (renderList m)) in
  Render (if sd_focused m then panelFocusStyle else panelStyle) (Some (sd_width m - 2)) (Some (sd_height m - 2))
    (tabRow +:+ newline +:+ Join lines newline).

(** ** The chat view ([chatview.go]) *)

Record chatViewModel : Type := mkChatView {
  ct_title : string; ct_conversationID : string; ct_messages : list Chat.DisplayMessage;
  ct_vp : Viewport; ct_input : TextInput; ct_focused : bool; ct_width : Z; ct_height : Z; ct_contentDirty : bool
}.

Definition newChatView : chatViewModel :=
  mkChatView EmptyString EmptyString [] (vp_SetContent EmptyString (vp_New 0 0)) (ti_New "Type a message…" 2000)
    false 0 0 true.

Definition with_vp f m := mkChatView (ct_title m) (ct_conversationID m) (ct_messages m) (f (ct_vp m)) (ct_input m)
  (ct_focused m) (ct_width m) (ct_height m) (ct_contentDirty m).
Definition with_input f m := mkChatView (ct_title m) (ct_conversationID m) (ct_messages m) (ct_vp m) (f (ct_input m))
  (ct_focused m) (ct_width m) (ct_height m) (ct_contentDirty m).
Definition with_messages l m := mkChatView (ct_title m) (ct_conversationID m) l (ct_vp m) (ct_input m)
  (ct_focused m) (ct_width m) (ct_height m) true.

(** A line of the history. *)
Definition message_line (msg : Chat.DisplayMessage) : string :=
  let ts := Render msgTimestamp None None (clock_text (Chat.dm_Timestamp msg)) in
  let sender := if Chat.dm_IsOutbound msg then Render msgSenderSelf None None "You"
                else Render msgSenderOther None None (Chat.dm_SenderName msg) in
  ts +:+ "  " +:+ sender +:+ ": " +:+ Render msgBodyStyle None None (Chat.dm_Body msg) +:+ newline.

Definition buildContent (m : chatViewModel) : string :=
  match ct_messages m with
  | [] => Render msgEmptyStyle None None "No messages yet. Say hello!"
  | l => Join (message_line <$> l) EmptyString
  end.

Definition show_content (m : chatViewModel) : chatViewModel :=
  with_vp (λ vp, vp_GotoBottom (vp_SetContent (buildContent m) vp)) m.

Definition rebuildViewport (m : chatViewModel) : chatViewModel :=
  let vpH := ct_height m - 2 - 2 - 1 - 1 - inputHeight - 1 in
  let vpH := if vpH <? 1 then 1 else vpH in
  let vpW := ct_width m - 4 in
  let vpW := if vpW <? 1 then 1 else vpW in
  let m := with_vp (vp_SetSize vpW vpH) m in
  if ct_contentDirty m then show_content m else m.

Definition LoadConversation (id title : string) (messages : list Chat.DisplayMessage) (m : chatViewModel) : chatViewModel :=
  let m := mkChatView title id messages (ct_vp m) (ti_Reset (ct_input m)) (ct_focused m) (ct_width m) (ct_height m) true in
  with_vp vp_GotoBottom (rebuildViewport m).

Definition AppendMessage (msg : Chat.DisplayMessage) (m : chatViewModel) : chatViewModel :=
  show_content (with_messages (ct_messages m ++ [msg]) m).

Definition chatView_SetSize (w h : Z) (m : chatViewModel) : chatViewModel :=
  rebuildViewport (mkChatView (ct_title m) (ct_conversationID m) (ct_messages m) (ct_vp m) (ct_input m) (ct_focused m)
    w h (ct_contentDirty m)).

Definition chatView_SetFocused (f : bool) (m : chatViewModel) : chatViewModel :=
  mkChatView (ct_title m) (ct_conversationID m) (ct_messages m) (ct_vp m)
    ((if f then ti_Focus else ti_Blur) (ct_input m)) f (ct_width m) (ct_height m) (ct_contentDirty m).

(** A key for the chat view: the view after it, and the text to send if it asks
    for that. *)
Definition chatView_key (k : Key) (m : chatViewModel) : chatViewModel * option (string * string) :=
  if negb (ct_focused m) then (with_vp (vp_Update (inl k)) m, None)
  else if bool_decide (key_String k = "enter") then
    let body := TrimSpace (ti_Value (ct_input m)) in
    if bool_decide (body = EmptyString) then (m, None)
    else (with_input ti_Reset m, Some (ct_conversationID m, body))
  else if bool_decide (key_String k ∈ ["pgup"; "ctrl+b"]) then (with_vp vp_HalfViewUp m, None)
  else if bool_decide (key_String k ∈ ["pgdown"; "ctrl+f"]) then (with_vp vp_HalfViewDown m, None)
  else (with_input (ti_Update k) m, None).

(** A new message, and a mouse message, for the chat view. *)
Definition chatView_message (conversationID : string) (msg : Chat.DisplayMessage) (m : chatViewModel) : chatViewModel :=
  if bool_decide (conversationID = ct_conversationID m) then with_messages (ct_messages m ++ [msg]) m else m.
Definition chatView_mouse (e : Mouse) (m : chatViewModel) : chatViewModel := with_vp (vp_Update (inr e)) m.

Definition chatView_View (m : chatViewModel) : option string :=
  let style := if ct_focused m then panelFocusStyle else panelStyle in
  let draw := Render style (Some (ct_width m - 2)) (Some (ct_height m - 2)) in
  if bool_decide (ct_conversationID m = EmptyString) then
    Some (draw (Render msgEmptyStyle None None
      ("Select a conversation from the sidebar" +:+ newline +:+ "or press ? for help")))
  else
    let header := Render chatHeaderStyle (Some (ct_width m - 4)) None ("  " +:+ ct_title m) in
    let m := if ct_contentDirty m then show_content m else m in
    let vpView := vp_View (ct_vp m) in
    let inputStyle := if ct_focused m then inputBorderFocus else inputBorder in
    let input := (if ct_focused m then ti_Focus else ti_Blur) (ct_input m) in
    let inputBox := Render inputStyle (Some (ct_width m - 6)) None (Render inputPrompt None None "> " +:+ ti_View input) in
    sep ← Repeat "─" (ct_width m - 4);
    Some (draw (header +:+ newline +:+ sep +:+ newline +:+ vpView +:+ newline +:+ sep +:+ newline +:+ inputBox)).

(** ** The help screen ([helpview.go]) *)

Definition helpEntries : list (string * string) :=
  [("Tab / Shift+Tab", "Cycle sidebar tabs (Chats / Groups / Peers)");
   ("↑ / k", "Move selection up");
   ("↓ / j", "Move selection down");
   ("Enter (sidebar)", "Open selected conversation");
   ("→ / l", "Focus chat input");
   ("← / h", "Focus sidebar");
   ("Enter (input)", "Send message");
   ("PgUp / Ctrl+B", "Scroll messages up");
   ("PgDn / Ctrl+F", "Scroll messages down");
   ("?", "Toggle this help screen");
   ("Ctrl+C / q", "Quit SKALL")].

Record helpViewModel : Type := mkHelp { hv_width : Z; hv_height : Z }.
Definition newHelpView : helpViewModel := mkHelp 0 0.

Definition help_View (m : helpViewModel) : option string :=
  let title := Render helpTitleStyle None None "SKALL Keyboard Shortcuts" in
  let rows := (λ e, Render helpKeyStyle None None e.1 +:+ " " +:+ Render helpDescStyle None None e.2) <$> helpEntries in
  let footer := newline +:+ Render helpDescStyle None None "Press ? or Esc to close" in
  let overlay := Render helpOverlayStyle None None (title +:+ newline +:+ Join rows newline +:+ footer) in
  let padLeft := Z.quot (hv_width m - Width overlay) 2 in
  let padTop := Z.quot (hv_height m - Height overlay) 2 in
  let padLeft := if padLeft <? 0 then 0 else padLeft in
  let padTop := if padTop <? 0 then 0 else padTop in
  pad ← Repeat " " padLeft;
  Some (Join (replicate (Z.to_nat padTop) EmptyString ++ ((λ line, pad +:+ line) <$> SplitLines overlay)) newline).

End Panels.
Arguments rebuildViewport : simpl never.
End Panels.
