(* ===== verification/Styles.v ===== *)
(** * The styles

    [internal/ui/styles.go]: the palette, and what each style of [Terminal] is made
    of.  The builder of lipgloss is a record with one function per method; how it
    is drawn remains lipgloss' own, but the frame a style puts around a text is the
    sum of its border, padding and margin. *)

From S2P Require Import Prelude GoStrings GoTime Json GoRunes Terminal Panels.

Open Scope Z_scope.

Module Styles.

(** ** The palette *)

Definition Color := string.
Definition colorAccent : Color := "#7C6EF7".
Definition colorAccentDim : Color := "#4B4298".
Definition colorOnline : Color := "#3DDC84".
Definition colorOffline : Color := "#FF5370".
Definition colorPending : Color := "#FFB300".
Definition colorBgBase : Color := "#0F0F1A".
Definition colorBgPanel : Color := "#161625".
Definition colorBgSel : Color := "#23233A".
Definition colorBgInput : Color := "#1B1B2E".
Definition colorFgPrimary : Color := "#E2E0FF".
Definition colorFgMuted : Color := "#6E6E8A".
Definition colorFgSender : Color := "#A99FFF".
Definition colorFgSelf : Color := colorAccent.
Definition colorBorder : Color := "#2E2E50".
Definition colorBorderFocus : Color := colorAccent.

(** ** The builder *)

Record Style : Type := mkStyle {
  st_foreground : option Color; st_background : option Color;
  st_bold : bool; st_italic : bool; st_underline : bool;
  st_rounded_border : bool; st_border_foreground : option Color;
  (** vertical, horizontal *)
  st_padding : Z * Z; st_margin_bottom : Z; st_width : option Z; st_string : option string
}.

Definition NewStyle : Style := mkStyle None None false false false false None (0, 0) 0 None None.

Definition Foreground c s := mkStyle (Some c) (st_background s) (st_bold s) (st_italic s) (st_underline s) (st_rounded_border s)
  (st_border_foreground s) (st_padding s) (st_margin_bottom s) (st_width s) (st_string s).
Definition Background c s := mkStyle (st_foreground s) (Some c) (st_bold s) (st_italic s) (st_underline s) (st_rounded_border s)
  (st_border_foreground s) (st_padding s) (st_margin_bottom s) (st_width s) (st_string s).
Definition Bold b s := mkStyle (st_foreground s) (st_background s) b (st_italic s) (st_underline s) (st_rounded_border s)
  (st_border_foreground s) (st_padding s) (st_margin_bottom s) (st_width s) (st_string s).
Definition Italic b s := mkStyle (st_foreground s) (st_background s) (st_bold s) b (st_underline s) (st_rounded_border s)
  (st_border_foreground s) (st_padding s) (st_margin_bottom s) (st_width s) (st_string s).
Definition Underline b s := mkStyle (st_foreground s) (st_background s) (st_bold s) (st_italic s) b (st_rounded_border s)
  (st_border_foreground s) (st_padding s) (st_margin_bottom s) (st_width s) (st_string s).
Definition RoundedBorder s := mkStyle (st_foreground s) (st_background s) (st_bold s) (st_italic s) (st_underline s) true
  (st_border_foreground s) (st_padding s) (st_margin_bottom s) (st_width s) (st_string s).
Definition BorderForeground c s := mkStyle (st_foreground s) (st_background s) (st_bold s) (st_italic s) (st_underline s)
  (st_rounded_border s) (Some c) (st_padding s) (st_margin_bottom s) (st_width s) (st_string s).
Definition Padding v h s := mkStyle (st_foreground s) (st_background s) (st_bold s) (st_italic s) (st_underline s)
  (st_rounded_border s) (st_border_foreground s) (v, h) (st_margin_bottom s) (st_width s) (st_string s).
Definition MarginBottom n s := mkStyle (st_foreground s) (st_background s) (st_bold s) (st_italic s) (st_underline s)
  (st_rounded_border s) (st_border_foreground s) (st_padding s) n (st_width s) (st_string s).
Definition SetWidth n s := mkStyle (st_foreground s) (st_background s) (st_bold s) (st_italic s) (st_underline s)
  (st_rounded_border s) (st_border_foreground s) (st_padding s) (st_margin_bottom s) (Some n) (st_string s).
Definition SetString t s := mkStyle (st_foreground s) (st_background s) (st_bold s) (st_italic s) (st_underline s)
  (st_rounded_border s) (st_border_foreground s) (st_padding s) (st_margin_bottom s) (st_width s) (Some t).

Notation "s |> f" := (f s) (at level 50, left associativity, only parsing).

(** ** The styles *)

Definition docStyle : Style := NewStyle |> Background colorBgBase.
Definition panel : Style := NewStyle |> Background colorBgPanel |> RoundedBorder |> BorderForeground colorBorder.
Definition input : Style :=
  NewStyle |> RoundedBorder |> BorderForeground colorBorder |> Background colorBgInput |> Padding 0 1.

Definition style_of (s : style) : Style :=
  match s with
  | panelStyle => panel
  | panelFocusStyle => panel |> BorderForeground colorBorderFocus
  | statusBarStyle => NewStyle |> Background colorBgPanel |> Foreground colorFgPrimary |> Padding 0 1 |> Bold true
  | statusDotOnline => NewStyle |> Foreground colorOnline |> SetString "●"
  | statusDotOffline => NewStyle |> Foreground colorOffline |> SetString "●"
  | statusDotPending => NewStyle |> Foreground colorPending |> SetString "◌"
  | statusAppName => NewStyle |> Foreground colorAccent |> Bold true |> SetString "SKALL"
  | statusText => NewStyle |> Foreground colorFgMuted
  | sidebarTabActive => NewStyle |> Foreground colorAccent |> Bold true |> Underline true
  | sidebarTabInactive => NewStyle |> Foreground colorFgMuted
  | sidebarItemStyle => NewStyle |> Foreground colorFgPrimary |> Padding 0 1
  | sidebarItemSelected => NewStyle |> Background colorBgSel |> Foreground colorAccent |> Bold true |> Padding 0 1
  | sidebarItemMuted => NewStyle |> Foreground colorFgMuted |> Padding 0 1
  | sidebarDot => NewStyle |> Foreground colorOnline
  | chatHeaderStyle => NewStyle |> Foreground colorAccent |> Bold true |> Padding 0 1
  | msgTimestamp => NewStyle |> Foreground colorFgMuted
  | msgSenderSelf => NewStyle |> Foreground colorFgSelf |> Bold true
  | msgSenderOther => NewStyle |> Foreground colorFgSender |> Bold true
  | msgBodyStyle => NewStyle |> Foreground colorFgPrimary
  | msgEmptyStyle => NewStyle |> Foreground colorFgMuted |> Italic true |> Padding 1 2
  | inputPrompt => NewStyle |> Foreground colorAccent |> Bold true
  | inputBorder => input
  | inputBorderFocus => input |> BorderForeground colorBorderFocus
  | helpOverlayStyle =>
      NewStyle |> Background colorBgPanel |> RoundedBorder |> BorderForeground colorBorderFocus |> Padding 1 3
  | helpTitleStyle => NewStyle |> Foreground colorAccent |> Bold true |> MarginBottom 1
  | helpKeyStyle => NewStyle |> Foreground colorAccent |> Bold true |> SetWidth 16
  | helpDescStyle => NewStyle |> Foreground colorFgPrimary
  | errorBannerStyle => NewStyle |> Background colorOffline |> Foreground colorFgPrimary |> Padding 0 1
  end.

(** ** Specification *)

(** The rows and columns a style adds to a text. *)
Definition frame_rows (s : Style) : Z := (if st_rounded_border s then 2 else 0) + 2 * (st_padding s).1 + st_margin_bottom s.
Definition frame_columns (s : Style) : Z := (if st_rounded_border s then 2 else 0) + 2 * (st_padding s).2.

(** A colour of the palette: a hash and six hexadecimal digits. *)
Definition hex_digit (a : ascii) : bool := is_digit a || ((65 <=? byte_Z a) && (byte_Z a <=? 70)).
Definition hex_color (c : Color) : bool :=
  match c with String a s => bool_decide (a = "#"%char) && (String.length s =? 6)%nat && all_bytes hex_digit s | _ => false end.

End Styles.

Import Panels Styles.

(** ** Properties *)

(** The layout constants are what the styles take: the bar with one line of text is
    [statusHeight] rows high, the input with its line [inputHeight] rows, and the
    focus moves without moving anything, as the focused styles have the same frame
    and differ in the colour of the border alone. *)
Theorem layout_fits :
  frame_rows (style_of statusBarStyle) + 1 = statusHeight ∧
  frame_rows (style_of inputBorder) + 1 = inputHeight ∧
  (∀ a b, (a, b) ∈ [(panelStyle, panelFocusStyle); (inputBorder, inputBorderFocus)] →
     frame_rows (style_of a) = frame_rows (style_of b) ∧ frame_columns (style_of a) = frame_columns (style_of b) ∧
     style_of b = BorderForeground colorBorderFocus (style_of a)).
Proof.
  split; [done|]. split; [done|]. intros a b Hab. repeat (apply elem_of_cons in Hab as [[= -> ->]|Hab]; [by split_and!|]).
  by apply elem_of_nil in Hab.
Qed.

(** Every key of the help fits its column. *)
Theorem help_keys_fit : ∀ k d, (k, d) ∈ helpEntries →
  match st_width (style_of helpKeyStyle) with Some w => Z.of_nat (length (runes k)) < w | None => False end.
Proof.
  assert (H : forallb (λ '(k, _), Z.of_nat (length (runes k)) <? 16) helpEntries = true) by (vm_compute; reflexivity).
  intros k d Hk. rewrite forallb_forall in H. specialize (H (k, d)). apply Z.ltb_lt, H. by apply list_elem_of_In.
Qed.

(** Styles that draw text on a background of their own do not draw it in that
    colour, and all colours are well formed. *)
Theorem styles_readable s :
  (∀ c d, st_foreground (style_of s) = Some c → st_background (style_of s) = Some d → c ≠ d) ∧
  (∀ c, c ∈ [st_foreground (style_of s); st_background (style_of s); st_border_foreground (style_of s)] → from_option hex_color true c = true).
Proof.
  split; [by destruct s; intros c d [= <-] [= <-]|]. intros c Hc.
  repeat (apply elem_of_cons in Hc as [->|Hc]; [by destruct s|]). by apply elem_of_nil in Hc.
Qed.
