(* ===== verification/App.v ===== *)
(** * The interface

    [internal/ui/app.go] and [messages.go]: the model behind the terminal, its
    update function over keys, messages and service events, and what it draws.
    The service is the one of [Chat]: an update runs in its monad.  Bubble Tea
    runs the commands an update returns in goroutines of their own and feeds
    their messages back, in any order; the step relation says so. *)

From S2P Require Import Prelude GoStrings GoTime Json GoRunes Protocol Identity Storage Groups Chat Terminal Panels.

Open Scope Z_scope.

Module App.
Import Panels.

Section App.
Context `{Terminal}.
(** The text of an error of the service. *)
Variable error_text : Chat.service_error → string.

(** ** Messages and commands *)

(** An error is its text, [None] for nil. *)
Inductive Msg : Type :=
  | WindowSizeMsg (width height : Z)
  | QuitMsg
  | KeyMsg (k : Key)
  | MouseMsg (e : Mouse)
  | MsgNewMessage (conversationID : string) (message : Chat.DisplayMessage)
  | MsgPeersUpdated
  | MsgConversationsUpdated
  | MsgStatusChanged (status : Chat.ConnectionStatus) (peerCount : Z)
  | MsgError (err : option string)
  | MsgSendResult (err : option string)
  | msgSendRequest (conversationID body : string)
  | eventChannelMsg (ev : Chat.Event).

(** What an update asks Bubble Tea to run: to hand back a message, to wait for
    an event of a channel, to send, to quit.  Commands of the text input and
    the viewport give messages that [Update] ignores, and are left out. *)
Inductive Cmd : Type :=
  | CmdMsg (m : Msg)
  | CmdListen (ch : nat)
  | CmdSend (conversationID body : string)
  | CmdQuit.

(** ** The model *)

Inductive focusRegion : Type := focusSidebar | focusChat.
#[global] Instance focusRegion_eq_dec : EqDecision focusRegion.
Proof. solve_decision. Defined.

(** [am_done] is whether the context of the model is cancelled. *)
Record AppModel : Type := mkApp {
  am_done : bool;
  am_statusBar : statusBarModel; am_sidebar : sidebarModel; am_chatView : chatViewModel; am_helpView : helpViewModel;
  am_focus : focusRegion; am_showHelp : bool; am_quitting : bool; am_width : Z; am_height : Z
}.

Definition on_statusBar f m := mkApp (am_done m) (f (am_statusBar m)) (am_sidebar m) (am_chatView m) (am_helpView m)
  (am_focus m) (am_showHelp m) (am_quitting m) (am_width m) (am_height m).
Definition on_sidebar f m := mkApp (am_done m) (am_statusBar m) (f (am_sidebar m)) (am_chatView m) (am_helpView m)
  (am_focus m) (am_showHelp m) (am_quitting m) (am_width m) (am_height m).
Definition on_chatView f m := mkApp (am_done m) (am_statusBar m) (am_sidebar m) (f (am_chatView m)) (am_helpView m)
  (am_focus m) (am_showHelp m) (am_quitting m) (am_width m) (am_height m).
Definition with_showHelp b m := mkApp (am_done m) (am_statusBar m) (am_sidebar m) (am_chatView m) (am_helpView m)
  (am_focus m) b (am_quitting m) (am_width m) (am_height m).
(** [m.cancel()], and [m.quitting = true] before it for a quit message. *)
Definition stopped (q : bool) m := mkApp true (am_statusBar m) (am_sidebar m) (am_chatView m) (am_helpView m)
  (am_focus m) (am_showHelp m) (q || am_quitting m) (am_width m) (am_height m).

Definition setFocus (r : focusRegion) (m : AppModel) : AppModel :=
  mkApp (am_done m) (am_statusBar m) (sidebar_SetFocused (bool_decide (r = focusSidebar)) (am_sidebar m))
    (chatView_SetFocused (bool_decide (r = focusChat)) (am_chatView m)) (am_helpView m)
    r (am_showHelp m) (am_quitting m) (am_width m) (am_height m).

Definition New : AppModel :=
  mkApp false newStatusBar (sidebar_SetFocused true newSidebar) (chatView_SetFocused false newChatView) newHelpView
    focusSidebar false false 0 0.

(** The widths of sidebar and chat view for a width of the terminal. *)
Definition split_width (width : Z) : Z * Z :=
  let sw := sidebarWidth in
  let cw := width - sw in
  if cw <? minChatWidth then (width - minChatWidth, minChatWidth) else (sw, cw).

(** [tea.WindowSizeMsg] and [layout]. *)
Definition resize (width height : Z) (m : AppModel) : AppModel :=
  let '(sw, cw) := split_width width in
  let panelH := height - statusHeight in
  mkApp (am_done m) (SetWidth width (am_statusBar m)) (sidebar_SetSize sw panelH (am_sidebar m))
    (chatView_SetSize cw panelH (am_chatView m)) (mkHelp width height)
    (am_focus m) (am_showHelp m) (am_quitting m) width height.

(** ** Commands *)

Definition listenEvents : Chat.SV Cmd := ch ← Chat.Subscribe; mret (CmdListen ch).

Definition refreshAll : list Cmd := [CmdMsg MsgConversationsUpdated; CmdMsg MsgPeersUpdated].

Definition Init : Chat.SV (list Cmd) := c ← listenEvents; mret (c :: refreshAll).

Definition handleServiceEvent (ev : Chat.Event) : Chat.SV (list Cmd) :=
  match ev with
  | Chat.EventNewMessage conversationID message => mret [CmdMsg (MsgNewMessage conversationID message)]
  | Chat.EventPeerConnected | Chat.EventPeerDisconnected => mret [CmdMsg MsgPeersUpdated]
  | Chat.EventStatusChanged status =>
      count ← Chat.ConnectedPeerCount; mret [CmdMsg (MsgStatusChanged status (Z.of_nat count))]
  | Chat.EventError err => mret [CmdMsg (MsgError err)]
  end.

(** The command of [doSend]. *)
Definition doSend (conversationID body : string) : Chat.SV Msg :=
  grps ← Chat.ListGroups_sv;
  if existsb (λ g, bool_decide (Chat.gi_GroupID g = conversationID)) (Chat.result_list grps) then
    r ← Chat.SendGroup conversationID body;
    mret (MsgSendResult (match r with Ok _ => None | Err e => Some (error_text e) end))
  else
    r ← Chat.SendDirect conversationID body;
    mret (MsgSendResult (match r with Ok _ => None | Err e => Some ("send: " +:+ error_text e) end)).

(** ** Updates *)

Definition messages_of (r : result Chat.service_error (list Chat.DisplayMessage)) : list Chat.DisplayMessage :=
  Chat.result_list r.

(** Loads a conversation and gives its view the focus. *)
Definition open_conversation (id title : string) (m : AppModel) : Chat.SV AppModel :=
  r ← Chat.GetMessages id 100;
  mret (setFocus focusChat (on_chatView (LoadConversation id title (messages_of r)) m)).

(** What the sidebar has selected, as the ID and the title to open. *)
Definition selection (m : sidebarModel) : option (option (string * string)) :=
  match SelectedConversation m with
  | None => None
  | Some (Some c) => Some (Some (Chat.cv_ID c, Chat.cv_Name c))
  | Some None =>
      match SelectedGroupID m with
      | None => None
      | Some gID =>
          if negb (bool_decide (gID = EmptyString)) then Some (Some (gID, gID)) else
          match SelectedPeer m with
          | None => None
          | Some peer => Some ((λ p, (Chat.cp_PeerID p, Chat.cp_DisplayName p)) <$> peer)
          end
      end
  end.

(** The outer [None] of an update is a panic. *)
Definition openSelected (m : AppModel) : Chat.SV (option AppModel) :=
  match selection (am_sidebar m) with
  | None => mret None
  | Some None => mret (Some m)
  | Some (Some (id, title)) => m ← open_conversation id title m; mret (Some m)
  end.

(** Keys that are not global shortcuts, once help is closed. *)
Definition panel_key (k : Key) (m : AppModel) : Chat.SV (option (AppModel * list Cmd)) :=
  let s := key_String k in
  if bool_decide (s ∈ ["right"; "l"]) then mret (Some (setFocus focusChat m, []))
  else if bool_decide (s ∈ ["left"; "h"]) then mret (Some (setFocus focusSidebar m, []))
  else if bool_decide (s = "enter") && bool_decide (am_focus m = focusSidebar) then
    o ← openSelected m; mret ((λ m, (m, [])) <$> o)
  else match am_focus m with
  | focusSidebar => mret (Some (on_sidebar (sidebar_key s) m, []))
  | focusChat =>
      let '(chatView, request) := chatView_key k (am_chatView m) in
      mret (Some (on_chatView (λ _, chatView) m,
        match request with Some (id, body) => [CmdMsg (msgSendRequest id body)] | None => [] end))
  end.

Definition on_key (k : Key) (m : AppModel) : Chat.SV (option (AppModel * list Cmd)) :=
  let s := key_String k in
  if bool_decide (s = "ctrl+c") then mret (Some (stopped false m, [CmdQuit]))
  else if bool_decide (s = "q") && (negb (bool_decide (am_focus m = focusChat)) || negb (ti_Focused (ct_input (am_chatView m))))
  then mret (Some (stopped false m, [CmdQuit]))
  else if bool_decide (s = "?") then mret (Some (with_showHelp (negb (am_showHelp m)) m, []))
  else if bool_decide (s = "esc") && am_showHelp m then mret (Some (with_showHelp false m, []))
  else if am_showHelp m then mret (Some (m, []))
  else panel_key k m.

Definition Update (msg : Msg) (m : AppModel) : Chat.SV (option (AppModel * list Cmd)) :=
  match msg with
  | WindowSizeMsg width height => mret (Some (resize width height m, []))
  | QuitMsg => mret (Some (stopped true m, [CmdQuit]))
  | MsgStatusChanged status peerCount => mret (Some (on_statusBar (set_status status peerCount) m, []))
  | MsgError err => mret (Some (on_statusBar (set_error err) m, []))
  | MsgPeersUpdated =>
      r ← Chat.ListPeers_sv;
      let sidebar sd := match r with Ok peers => with_lists (sd_conversations sd) (sd_groups sd) peers sd | Err _ => sd end in
      mret (Some (on_sidebar sidebar m, []))
  | MsgConversationsUpdated =>
      r ← Chat.ListConversations;
      let convs sd := match r with Ok convs => with_lists convs (sd_groups sd) (sd_peers sd) sd | Err _ => sd end in
      r ← Chat.ListGroups_sv;
      let grps sd := match r with Ok grps => with_lists (sd_conversations sd) grps (sd_peers sd) sd | Err _ => sd end in
      mret (Some (on_sidebar (grps ∘ convs) m, []))
  | MsgNewMessage conversationID message =>
      let append cv := if bool_decide (conversationID = ct_conversationID cv) then AppendMessage message cv else cv in
      mret (Some (on_chatView append m, [CmdMsg MsgConversationsUpdated]))
  | msgSendRequest conversationID body => mret (Some (m, [CmdSend conversationID body]))
  | MsgSendResult err =>
      mret (Some (match err with Some _ => on_statusBar (set_error err) m | None => m end, []))
  | eventChannelMsg ev =>
      cmds ← handleServiceEvent ev;
      listen ← listenEvents;
      mret (Some (m, cmds ++ [listen]))
  | KeyMsg k => on_key k m
  | MouseMsg _ => mret (Some (m, []))
  end.

(** ** Drawing *)

Definition View (m : AppModel) : option string :=
  if am_quitting m then Some EmptyString
  else if am_showHelp m then help_View (am_helpView m)
  else
    statusBar ← statusBar_View (am_statusBar m);
    chatView ← chatView_View (am_chatView m);
    Some (JoinVertical [statusBar; JoinHorizontal [sidebar_View (am_sidebar m); chatView]]).

(** ** The program *)

(** The interface and its service, the commands under way and the messages not
    yet delivered; [pg_events] are the service events [Update] was given. *)
Record program : Type := mkProgram {
  pg_app : AppModel; pg_svc : Chat.Service; pg_cmds : list Cmd; pg_msgs : list Msg; pg_events : list Chat.Event
}.

(** A command that can end: with a message, or without. *)
Definition run_cmd (e : Chat.SEnv) (done : bool) (c : Cmd) (s : Chat.Service) : option (option Msg * Chat.Service) :=
  match c with
  | CmdMsg m => Some (Some m, s)
  | CmdListen ch =>
      match Chat.receive ch e s with
      | (Chat.Received ev, s) => Some (Some (eventChannelMsg ev), s)
      | (Chat.ChanClosed, s) => Some (None, s)
      | (Chat.Blocked, s) => if done then Some (None, s) else None
      end
  | CmdSend conversationID body => let '(m, s) := doSend conversationID body e s in Some (Some m, s)
  | CmdQuit => Some (None, s)
  end.

Definition event_of (msg : Msg) : list Chat.Event := match msg with eventChannelMsg ev => [ev] | _ => [] end.

(** What the terminal sends by itself. *)
Definition external (msg : Msg) : bool :=
  match msg with KeyMsg _ | MouseMsg _ | WindowSizeMsg _ _ => true | _ => false end.

(** What the service does in the background. *)
Definition background (o : Chat.op) : bool :=
  match o with Chat.OpInbound _ _ | Chat.OpMonitor => true | _ => false end.

Definition update (e : Chat.SEnv) (msg : Msg) (p : program) (msgs : list Msg) : option program :=
  let '(r, s) := Update msg (pg_app p) e (pg_svc p) in
  '(m, cmds) ← r;
  Some (mkProgram m s (pg_cmds p ++ cmds) msgs (pg_events p ++ event_of msg)).

(** One step, with keys of a kind. *)
Definition of_kind (keys : Key → Prop) (msg : Msg) : Prop := match msg with KeyMsg k => keys k | _ => True end.

Inductive step_with (keys : Key → Prop) (e : Chat.SEnv) : program → program → Prop :=
  | step_terminal msg p p' : external msg = true → of_kind keys msg →
      update e msg p (pg_msgs p) = Some p' → step_with keys e p p'
  | step_deliver l1 msg l2 p p' : pg_msgs p = l1 ++ msg :: l2 → update e msg p (l1 ++ l2) = Some p' → step_with keys e p p'
  | step_command l1 c l2 o s p : pg_cmds p = l1 ++ c :: l2 →
      run_cmd e (am_done (pg_app p)) c (pg_svc p) = Some (o, s) →
      step_with keys e p (mkProgram (pg_app p) s (l1 ++ l2) (pg_msgs p ++ option_list o) (pg_events p))
  | step_drop l1 ch l2 p : pg_cmds p = l1 ++ CmdListen ch :: l2 → am_done (pg_app p) = true →
      step_with keys e p (mkProgram (pg_app p) (pg_svc p) (l1 ++ l2) (pg_msgs p) (pg_events p))
  | step_service o p : background o = true →
      step_with keys e p (mkProgram (pg_app p) (Chat.run_op o e (pg_svc p)).2 (pg_cmds p) (pg_msgs p) (pg_events p)).

Definition step : Chat.SEnv → program → program → Prop := step_with (λ _, True).

(** A program that has just started, on a service with no other subscriber. *)
Definition started (e : Chat.SEnv) (p : program) : Prop := ∃ s, Chat.wf_subs s ∧ Chat.sv_subs s = [] ∧
  p = let '(cmds, s) := Init e s in mkProgram New s cmds [] [].

End App.
End App.

Import Panels App.

(** ** The state of the interface *)

(** Exactly the panel in focus has the focus, the row selected is not before
    the list, and the chat view has no width or a wide one. *)
Record ui_ok `{Terminal} (m : AppModel) : Prop := mkUiOk {
  uo_tab : 0 ≤ sd_activeTab (am_sidebar m) < tabCount;
  uo_cursor : 0 ≤ sd_cursor (am_sidebar m);
  uo_sidebar : sd_focused (am_sidebar m) = bool_decide (am_focus m = focusSidebar);
  uo_chat : ct_focused (am_chatView m) = bool_decide (am_focus m = focusChat);
  uo_input : ti_Focused (ct_input (am_chatView m)) = bool_decide (am_focus m = focusChat);
  uo_width : ct_width (am_chatView m) = 0 ∨ minChatWidth ≤ ct_width (am_chatView m)
}.

(** What drawing content and loading change of a chat view: neither focus nor
    size. *)
Lemma rebuild_frame `{Terminal} m : ct_focused (rebuildViewport m) = ct_focused m ∧ ct_width (rebuildViewport m) = ct_width m ∧
  ct_input (rebuildViewport m) = ct_input m ∧ ct_conversationID (rebuildViewport m) = ct_conversationID m.
Proof. unfold rebuildViewport. by destruct (ct_contentDirty _). Qed.

Ltac rebuilt :=
  repeat match goal with
  | |- context [rebuildViewport ?x] => destruct (rebuild_frame x) as (Hf & Hwd & Hin & Hid); rewrite ?Hf, ?Hwd, ?Hin, ?Hid;
      clear Hf Hwd Hin Hid
  end; cbn.

(** Evaluates a computation of the service monad in the goal. *)
Ltac run_sv :=
  unfold mbind, Chat.SV_bind, mret, Chat.SV_ret;
  repeat match goal with
  | |- context [let '(_, _) := ?x in _] => let E := fresh "E" in destruct x as [? ?] eqn:E
  | H : (let '(_, _) := ?x in _) = _ |- _ => let E := fresh "E" in destruct x as [? ?] eqn:E
  end; simplify_eq.

Section Invariant.
Context `{TerminalLaws} (error_text : Chat.service_error → string).

Lemma selected_total {A} tab (l : list A) m : 0 ≤ sd_cursor m → is_Some (selected tab l m).
Proof.
  intros Hc. unfold selected, index. case_match; [eauto|]. destruct (Z.leb_spec (Z.of_nat (length l)) (sd_cursor m)); [eauto|].
  destruct (Z.ltb_spec (sd_cursor m) 0); [lia|].
  destruct (lookup_lt_is_Some_2 l (Z.to_nat (sd_cursor m))) as [x ->]; [lia|eauto].
Qed.

Lemma selection_total m : 0 ≤ sd_cursor m → is_Some (selection m).
Proof.
  intros Hc. unfold selection, SelectedConversation, SelectedGroupID, SelectedPeer.
  destruct (selected_total tabConversations (sd_conversations m) m Hc) as [[c|] ->]; [eauto|].
  destruct (selected_total tabGroups (sd_groups m) m Hc) as [g ->].
  destruct (selected_total tabPeers (sd_peers m) m Hc) as [q ->]. cbn. case_match; eauto.
Qed.

Lemma setFocus_ok r m : ui_ok m → ui_ok (setFocus r m).
Proof.
  intros [Ht Hc Hs Hv Hi Hw]. split; cbn; try done. destruct r; cbn; [apply ti_Focused_Blur|apply ti_Focused_Focus].
Qed.

Lemma load_ok id title l m : ui_ok m → ui_ok (on_chatView (LoadConversation id title l) m).
Proof.
  intros [Ht Hc Hs Hv Hi Hw]. unfold LoadConversation. split; cbn; try done; rebuilt; try done.
  by rewrite ti_Focused_Reset.
Qed.

Lemma sidebar_key_ok k m : ui_ok m → ui_ok (on_sidebar (sidebar_key k) m).
Proof.
  intros [Ht Hc Hs Hv Hi Hw]. unfold on_sidebar, sidebar_key.
  assert (∀ z, 0 ≤ z → 0 ≤ Z.rem z tabCount < tabCount) as Hrem by (intros z Hz; unfold tabCount; by apply Z.rem_bound_pos).
  repeat case_match; split; cbn; try done; try (apply Hrem; unfold tabCount in *; lia); lia.
Qed.

Lemma chatView_key_ok k m : ui_ok m → ui_ok (on_chatView (λ _, (chatView_key k (am_chatView m)).1) m).
Proof.
  intros [Ht Hc Hs Hv Hi Hw]. unfold chatView_key.
  repeat case_match; split; cbn; rewrite ?ti_Focused_Reset, ?ti_Focused_Update; done.
Qed.

Lemma resize_ok w h m : ui_ok m → ui_ok (resize w h m) ∧ minChatWidth ≤ ct_width (am_chatView (resize w h m)).
Proof.
  intros [Ht Hc Hs Hv Hi Hw]. unfold resize, split_width.
  destruct (Z.ltb_spec (w - sidebarWidth) minChatWidth); cbn; unfold chatView_SetSize;
    (split; [split|]); cbn; try done; rebuilt; try done; unfold minChatWidth in *; lia.
Qed.

Lemma frame_ok m m' : ui_ok m → am_focus m' = am_focus m → am_chatView m' = am_chatView m →
  sd_activeTab (am_sidebar m') = sd_activeTab (am_sidebar m) → sd_cursor (am_sidebar m') = sd_cursor (am_sidebar m) →
  sd_focused (am_sidebar m') = sd_focused (am_sidebar m) → ui_ok m'.
Proof. intros [] Hf Hc Ht Hcu Hs. split; by rewrite ?Hf, ?Hc, ?Ht, ?Hcu, ?Hs. Qed.

Lemma append_ok msg m : ui_ok m → ui_ok (on_chatView (AppendMessage msg) m).
Proof. by intros []. Qed.

Lemma New_ok : ui_ok New.
Proof. split; cbn; try done; [apply ti_Focused_Blur|by left]. Qed.

Lemma panel_key_ok k m e s : ui_ok m →
  ∃ m' cmds s', panel_key k m e s = (Some (m', cmds), s') ∧ ui_ok m'.
Proof.
  intros Hm. unfold panel_key. case_match.
  { do 3 eexists. split; [done|]. by apply setFocus_ok. }
  case_match. { do 3 eexists. split; [done|]. by apply setFocus_ok. }
  case_match.
  { unfold openSelected. destruct (selection_total (am_sidebar m)) as [o Ho]; [apply Hm|].
    rewrite Ho. destruct o as [[id title]|].
    - unfold open_conversation. run_sv. do 3 eexists. split; [done|]. by apply setFocus_ok, load_ok.
    - by do 3 eexists. }
  destruct (am_focus m) eqn:Ef.
  - do 3 eexists. split; [done|]. by apply sidebar_key_ok.
  - pose proof (chatView_key_ok k m Hm) as Hk. destruct (chatView_key k (am_chatView m)) as [cv r].
    do 3 eexists. split; [done|]. exact Hk.
Qed.

Lemma Update_ok msg m e s : ui_ok m →
  ∃ m' cmds s', Update msg m e s = (Some (m', cmds), s') ∧ ui_ok m'.
Proof.
  intros Hm. destruct msg; cbn [Update]; unfold on_key;
    repeat (case_match; [by do 3 eexists; split; [done|apply (frame_ok m)]|]);
    try (by apply panel_key_ok); run_sv; do 3 eexists; (split; [done|]).
  all: try by apply (frame_ok m).
  - by apply resize_ok.
  - cbn. unfold on_chatView. case_match; [by apply append_ok|]. by apply (frame_ok m).
  - apply (frame_ok m); cbn; repeat case_match; done.
  - apply (frame_ok m); cbn; repeat case_match; done.
Qed.

End Invariant.


(** ** What the program makes of service events *)

Section Events.
Context `{TerminalLaws} (error_text : Chat.service_error → string) (e : Chat.SEnv).

(** A channel no event will ever come from. *)
Definition dead_chan (s : Chat.Service) (ch : nat) : Prop :=
  ch ∉ Chat.sv_subs s ∧ Chat.sv_chans s !! ch = Some (Chat.mkChan [] true).

(** From [s0] on the subscribers are the same, and dead channels stay dead. *)
Definition same_audience (s0 s : Chat.Service) : Prop :=
  Chat.wf_subs s ∧ Chat.sv_subs s = Chat.sv_subs s0 ∧ ∀ ch, dead_chan s0 ch → dead_chan s ch.

Lemma same_refl s : Chat.wf_subs s → same_audience s s.
Proof. intros Hs. by split; [|split]. Qed.

Lemma same_quiet s0 {A} (m : Chat.SV A) : quiet e m → Chat.holds e (same_audience s0) m.
Proof.
  intros Hq s (Hw & Hs & Hd). split_and!; [by apply subs_quiet| |]; destruct (Hq s) as (Hc & Hsub & _).
  - by rewrite Hsub.
  - intros ch Hch. unfold dead_chan. rewrite Hsub, Hc. by apply Hd.
Qed.

Lemma same_publish s0 ev : Chat.holds e (same_audience s0) (Chat.publish ev).
Proof.
  intros s (Hw & Hs & Hd). split; [by apply subs_publish|].
  unfold Chat.publish. destruct (publish_to_spec ev (Chat.sv_subs s) (Chat.sv_chans s)) as (ch' & E & Hl);
    [apply Hw..|]. rewrite E. cbn. split; [done|]. intros ch Hch. destruct (Hd ch Hch) as [Hn Hc].
  split; [done|]. cbn. by rewrite Hl, decide_False.
Qed.

(** Everything that only publishes keeps the audience. *)
Definition keeps_audience {A} (m : Chat.SV A) : Prop := ∀ s, Chat.wf_subs s → same_audience s (m e s).2.

Lemma keeps_speaks {A} (m : Chat.SV A) :
  (∀ I, (∀ B (n : Chat.SV B), quiet e n → Chat.holds e I n) → (∀ ev, Chat.holds e I (Chat.publish ev)) →
    Chat.holds e I m) → keeps_audience m.
Proof. intros Hm s Hs. apply (Hm (same_audience s)); [intros B n; apply same_quiet|apply same_publish|by apply same_refl]. Qed.

Lemma keeps_GetMessages id n : keeps_audience (Chat.GetMessages id n).
Proof. apply keeps_speaks. intros. by apply speaks_GetMessages. Qed.
Lemma keeps_ListPeers : keeps_audience Chat.ListPeers_sv.
Proof. apply keeps_speaks. intros. by apply speaks_ListPeers. Qed.
Lemma keeps_ListConversations : keeps_audience Chat.ListConversations.
Proof. apply keeps_speaks. intros. by apply speaks_ListConversations. Qed.
Lemma keeps_ConnectedPeerCount : keeps_audience Chat.ConnectedPeerCount.
Proof. apply keeps_speaks. intros. by apply speaks_ConnectedPeerCount. Qed.

Lemma same_trans s1 s2 s3 : same_audience s1 s2 → same_audience s2 s3 → same_audience s1 s3.
Proof. intros (H1 & H2 & H3) (H4 & H5 & H6). split; [done|split; [congruence|auto]]. Qed.

(** The commands that wait for an event, and the messages that carry one. *)
Definition msg_weight (m : Msg) : nat := match m with eventChannelMsg _ => 1 | _ => 0 end.
Definition cmd_carries (c : Cmd) : nat := match c with CmdMsg m => msg_weight m | _ => 0 end.
Definition cmd_waits (c : Cmd) : nat := match c with CmdListen _ => 1 | _ => 0 end.
Definition carried (p : program) : nat :=
  (sum_list_with cmd_carries (pg_cmds p) + sum_list_with msg_weight (pg_msgs p))%nat.
Definition waiting (p : program) : nat := sum_list_with cmd_waits (pg_cmds p).

(** Each event that is handled takes one subscription, of which there are
    sixteen; there is never more than one that is waited for or on its way. *)
Record hearing (p : program) : Prop := mkHearing {
  he_subs : Chat.wf_subs (pg_svc p);
  he_count : length (Chat.sv_subs (pg_svc p)) = (Chat.maxSubs `min` S (length (pg_events p)))%nat;
  he_bound : (length (pg_events p) ≤ Chat.maxSubs)%nat;
  he_one : (carried p + waiting p ≤ 1)%nat;
  he_last : length (pg_events p) = Chat.maxSubs → carried p = 0%nat ∧
    ∀ ch, CmdListen ch ∈ pg_cmds p → dead_chan (pg_svc p) ch
}.

Lemma Subscribe_spec s : Chat.wf_subs s → ∃ ch s', Chat.Subscribe e s = (ch, s') ∧ Chat.wf_subs s' ∧
  length (Chat.sv_subs s') = (Chat.maxSubs `min` S (length (Chat.sv_subs s)))%nat ∧
  (length (Chat.sv_subs s) = Chat.maxSubs → dead_chan s' ch).
Proof.
  intros Hs. pose proof (subs_op e Chat.OpSubscribe s Hs) as Hw. pose proof (Chat.ws_cap s Hs) as Hc.
  pose proof (new_chan_fresh s) as Hf. pose proof (Chat.ws_open s Hs (Chat.new_chan s)) as Hopen.
  cbn [Chat.run_op] in Hw. unfold Chat.ignore, mbind, Chat.SV_bind in Hw.
  unfold Chat.Subscribe in *. destruct (Nat.leb_spec Chat.maxSubs (length (Chat.sv_subs s))) as [Hl|Hl].
  - do 2 eexists. split; [done|]. split; [exact Hw|]. cbn [Chat.sv_subs Chat.with_chans]. split; [lia|]. intros _.
    split; cbn; [|apply lookup_insert_eq]. intros Hi. destruct (Hopen Hi) as (c & Hc' & _). congruence.
  - do 2 eexists. split; [done|]. split; [exact Hw|]. cbn [Chat.sv_subs Chat.with_chans]. rewrite length_app. cbn [length]. split; lia.
Qed.

(** Commands that carry no event and wait for none. *)
Definition silent (l : list Cmd) : Prop := sum_list_with cmd_carries l = 0%nat ∧ sum_list_with cmd_waits l = 0%nat.

Lemma panel_key_quiet k m s r s' : Chat.wf_subs s → panel_key k m e s = (r, s') →
  same_audience s s' ∧ ∀ m' cmds, r = Some (m', cmds) → silent cmds.
Proof.
  intros Hs. unfold panel_key.
  repeat (case_match; [intros [= <- <-]; split; [by apply same_refl|by intros ?? [= <- <-]]|]).
  case_match.
  - unfold openSelected. destruct (selection _) as [[[id title]|]|].
    + unfold open_conversation. pose proof (keeps_GetMessages id 100 s Hs) as Hk.
      run_sv. intros [= <- <-]. split; [exact Hk|by intros ?? [= <- <-]].
    + intros [= <- <-]. split; [by apply same_refl|by intros ?? [= <- <-]].
    + intros [= <- <-]. split; [by apply same_refl|done].
  - repeat case_match; intros [= <- <-]; (split; [by apply same_refl|by intros ?? [= <- <-]]).
Qed.

(** No message but a service event makes the interface subscribe. *)
Lemma Update_quiet msg m s r s' : Chat.wf_subs s → msg_weight msg = 0%nat → Update msg m e s = (r, s') →
  same_audience s s' ∧ ∀ m' cmds, r = Some (m', cmds) → silent cmds.
Proof.
  intros Hs Hmsg. destruct msg; cbn [Update]; try done; unfold on_key;
    repeat (case_match; [intros [= <- <-]; split; [by apply same_refl|by intros ?? [= <- <-]]|]);
    try (by apply panel_key_quiet); try (intros [= <- <-]; split; [by apply same_refl|by intros ?? [= <- <-]]).
  - pose proof (keeps_ListPeers s Hs) as Hk.
    run_sv. intros [= <- <-]. split; [exact Hk|by intros ?? [= <- <-]].
  - pose proof (keeps_ListConversations s Hs) as Hk.
    run_sv. intros [= <- <-]. split; [|by intros ?? [= <- <-]].
    unfold Chat.ListGroups_sv, Chat.asks in *. simplify_eq. exact Hk.
Qed.

Lemma doSend_keeps id body : keeps_audience (doSend error_text id body).
Proof.
  apply keeps_speaks. intros I Hq Hp. unfold doSend, Chat.ListGroups_sv.
  apply speak_bind; [by apply speak_asks|]. intros grps. case_match.
  - apply speak_bind; [by apply speaks_SendGroup|]. intros r. by apply Hq.
  - apply speak_bind; [by apply speaks_SendDirect|]. intros r. by apply Hq.
Qed.

Lemma doSend_result id body s : ∃ err, (doSend error_text id body e s).1 = MsgSendResult err.
Proof.
  unfold doSend, mbind, Chat.SV_bind. destruct (Chat.ListGroups_sv e s) as [g s1]. case_match;
    [destruct (Chat.SendGroup id body e s1)|destruct (Chat.SendDirect id body e s1)]; eexists; reflexivity.
Qed.

Lemma event_update ev m s : Chat.wf_subs s → ∃ cmds ch s',
  Update (eventChannelMsg ev) m e s = (Some (m, cmds ++ [CmdListen ch]), s') ∧ silent cmds ∧ Chat.wf_subs s' ∧
  length (Chat.sv_subs s') = (Chat.maxSubs `min` S (length (Chat.sv_subs s)))%nat ∧
  (length (Chat.sv_subs s) = Chat.maxSubs → dead_chan s' ch).
Proof.
  intros Hs. cbn [Update].
  assert (Hev : ∃ cmds s1, handleServiceEvent ev e s = (cmds, s1) ∧ silent cmds ∧ same_audience s s1).
  { destruct ev; cbn [handleServiceEvent]; try (do 2 eexists; split; [done|split; [done|by apply same_refl]]).
    pose proof (keeps_ConnectedPeerCount s Hs) as Hk.
    run_sv. do 2 eexists. split; [done|]. by split. }
  destruct Hev as (cmds & s1 & Hc & Hsil & Hs1 & Hsub & _).
  destruct (Subscribe_spec s1 Hs1) as (ch & s2 & Hsu & Hs2 & Hl & Hd). rewrite Hsub in Hl, Hd.
  exists cmds, ch, s2. unfold listenEvents, mbind, Chat.SV_bind. rewrite Hc, Hsu. done.
Qed.

Lemma dead_receive s ch : dead_chan s ch → Chat.receive ch e s = (Chat.ChanClosed, s).
Proof. intros [_ Hc]. unfold Chat.receive. by rewrite Hc. Qed.

Lemma receive_audience s ch : Chat.wf_subs s → same_audience s (Chat.receive ch e s).2.
Proof.
  intros Hs. split; [by apply subs_receive|]. unfold Chat.receive.
  destruct (Chat.sv_chans s !! ch) as [c|] eqn:Ec; [|by split]. destruct (Chat.ch_buf c) as [|ev rest] eqn:Eb; [by split|].
  split; [done|]. intros d [Hd Hdc]. split; [done|]. cbn. rewrite lookup_insert_ne; [done|].
  intros ->. rewrite Hdc in Ec. by simplify_eq.
Qed.

(** What the invariant needs of a step that leaves the events as they are. *)
Lemma hearing_same p app s cmds msgs : hearing p → same_audience (pg_svc p) s →
  let p' := mkProgram app s cmds msgs (pg_events p) in
  (carried p' + waiting p' ≤ carried p + waiting p)%nat → (length (pg_events p) = Chat.maxSubs → carried p = 0%nat → carried p' = 0%nat) →
  (∀ ch, CmdListen ch ∈ cmds → CmdListen ch ∈ pg_cmds p) → hearing p'.
Proof.
  intros [Hw Hc Hb Ho Hl] (Hw' & Hsub & Hd) p' Hle Hzero Hin. split; try done.
  { subst p'. cbn [pg_svc pg_events]. by rewrite Hsub. }
  { lia. }
  intros Hm. destruct (Hl Hm) as [Hz Hdead]. split; [auto|]. auto.
Qed.

Lemma silent_listen cmds ch : silent cmds → CmdListen ch ∉ cmds.
Proof. intros [_ Hs] (l1 & l2 & ->)%list_elem_of_split. rewrite sum_list_with_app in Hs. cbn in Hs. lia. Qed.

Lemma carried_split app s l1 c l2 msgs evs :
  carried (mkProgram app s (l1 ++ c :: l2) msgs evs) = (cmd_carries c + carried (mkProgram app s (l1 ++ l2) msgs evs))%nat ∧
  waiting (mkProgram app s (l1 ++ c :: l2) msgs evs) = (cmd_waits c + waiting (mkProgram app s (l1 ++ l2) msgs evs))%nat.
Proof. unfold carried, waiting. cbn. rewrite !sum_list_with_app. cbn. lia. Qed.

(** Handling a message: [rest] are the messages left. *)
Lemma hearing_update msg p rest p' : hearing p → update e msg p rest = Some p' →
  sum_list_with msg_weight (pg_msgs p) = (msg_weight msg + sum_list_with msg_weight rest)%nat → hearing p'.
Proof.
  intros Hp Hu Hrest. unfold update in Hu. destruct (Update msg (pg_app p) e (pg_svc p)) as [r s] eqn:E.
  destruct r as [[m cmds]|]; [|done]. cbn in Hu. injection Hu as <-.
  destruct (msg_weight msg) eqn:Ew.
  - destruct (Update_quiet msg (pg_app p) _ _ _ (he_subs _ Hp) Ew E) as [Ha Hsil].
    specialize (Hsil m cmds eq_refl). pose proof Hsil as [Hsc Hsw].
    assert (event_of msg = []) as -> by (by destruct msg). rewrite app_nil_r.
    apply (hearing_same p); [done..| | |]; unfold carried, waiting in *; cbn; rewrite ?sum_list_with_app; [lia..|].
    intros ch [Hi|Hi]%elem_of_app; [done|]. by apply silent_listen in Hi.
  - destruct msg as [| | | | | | | | | | |ev]; try done. cbn in Ew. injection Ew as <-.
    destruct Hp as [Hw Hc Hb Ho Hl].
    destruct (event_update ev (pg_app p) (pg_svc p) Hw) as (cmds' & ch & s' & Hu & [Hsc Hsw] & Hw' & Hlen & Hd).
    rewrite E in Hu. injection Hu as -> -> ->.
    assert (Hlt : (length (pg_events p) < Chat.maxSubs)%nat).
    { destruct (decide (length (pg_events p) = Chat.maxSubs)) as [Hm|]; [|lia].
      destruct (Hl Hm) as [Hz _]. unfold carried in Hz. rewrite Hrest in Hz. cbn in Hz. lia. }
    unfold carried, waiting in *. rewrite Hrest in *. cbn [msg_weight] in *.
    split; cbn [pg_svc pg_events pg_cmds pg_msgs event_of]; rewrite ?length_app; cbn [length]; unfold carried, waiting;
      cbn [pg_cmds pg_msgs]; rewrite ?sum_list_with_app; cbn [sum_list_with cmd_carries cmd_waits]; try done; try lia.
    intros Hm. split; [lia|]. intros d [Hi|[Hi|Hi]%elem_of_app]%elem_of_app.
    + exfalso. apply list_elem_of_split in Hi as (l1 & l2 & Hi). rewrite Hi, !sum_list_with_app in Ho. cbn in Ho. lia.
    + exfalso. by apply (silent_listen cmds' d).
    + apply list_elem_of_singleton in Hi as [= ->]. apply Hd. lia.
Qed.

Lemma hearing_step p p' : hearing p → step error_text e p p' → hearing p'.
Proof.
  intros Hp Hs. revert Hp.
  destruct Hs as [msg q q' Hext Hkind Hu|l1 msg l2 q q' Hm Hu|l1 c l2 o s q Hc Hr|l1 ch l2 q Hc _|o q Ho]; intros Hp.
  - apply (hearing_update msg q (pg_msgs q) q' Hp Hu). by destruct msg.
  - apply (hearing_update msg q (l1 ++ l2) q' Hp Hu). rewrite Hm, !sum_list_with_app. cbn. lia.
  - pose proof (carried_split (pg_app q) (pg_svc q) l1 c l2 (pg_msgs q) (pg_events q)) as [Hca Hwa].
    rewrite <- Hc in Hca, Hwa. pose proof (he_subs _ Hp) as Hw.
    assert (Hin : ∀ ch, CmdListen ch ∈ l1 ++ l2 → CmdListen ch ∈ pg_cmds q) by (rewrite Hc; set_solver).
    destruct c as [m|ch|id body|]; cbn [run_cmd] in Hr.
    + injection Hr as <- <-. apply (hearing_same q); [done|by apply same_refl| | |done];
        unfold carried, waiting in *; cbn in *; rewrite !sum_list_with_app in *; cbn; lia.
    + pose proof (receive_audience (pg_svc q) ch Hw) as Ha.
      destruct (Chat.receive ch e (pg_svc q)) as [r s'] eqn:Er. destruct r as [ev| |].
      * injection Hr as <- <-. destruct (decide (length (pg_events q) = Chat.maxSubs)) as [Hmax|Hmax].
        { destruct (he_last _ Hp Hmax) as [_ Hdead]. rewrite dead_receive in Er; [done|]. apply Hdead. rewrite Hc. set_solver. }
        apply (hearing_same q); [done..| | |done]; unfold carried, waiting in *; cbn in *; rewrite !sum_list_with_app in *; cbn; [lia|done].
      * destruct (am_done (pg_app q)); [|done]. injection Hr as <- <-.
        apply (hearing_same q); [done..| | |done]; unfold carried, waiting in *; cbn in *; rewrite app_nil_r; lia.
      * injection Hr as <- <-.
        apply (hearing_same q); [done..| | |done]; unfold carried, waiting in *; cbn in *; rewrite app_nil_r; lia.
    + pose proof (doSend_keeps id body (pg_svc q) Hw) as Ha.
      destruct (doSend error_text id body e (pg_svc q)) as [m s'] eqn:Em.
      injection Hr as <- <-. destruct (doSend_result id body (pg_svc q)) as [err Hm]. rewrite Em in Hm. cbn in Hm. subst m.
      apply (hearing_same q); [done..| | |done]; unfold carried, waiting in *; cbn in *; rewrite !sum_list_with_app in *; cbn; lia.
    + injection Hr as <- <-. apply (hearing_same q); [done|by apply same_refl| | |done];
        unfold carried, waiting in *; cbn in *; rewrite app_nil_r; lia.
  - pose proof (carried_split (pg_app q) (pg_svc q) l1 (CmdListen ch) l2 (pg_msgs q) (pg_events q)) as [Hca Hwa].
    rewrite <- Hc in Hca, Hwa. apply (hearing_same q); [done|apply same_refl, Hp| | |rewrite Hc; set_solver];
      unfold carried, waiting in *; cbn in *; lia.
  - assert (Ha : keeps_audience (Chat.run_op o)).
    { apply keeps_speaks. intros I Hq Hpub. pose proof (speaks_op e I Hq Hpub o) as Hop. by destruct o. }
    apply (hearing_same q); [done|apply Ha, Hp|done..].
Qed.

End Events.

(** ** What can be typed *)

(** A byte other than the three the interface keeps for itself. *)
Definition typeable (a : ascii) : bool := negb (bool_decide (a ∈ ["h"; "l"; "?"]%char)).

(** At most one character: a byte, or the bytes of one beyond ASCII. *)
Definition one_character (s : string) : bool :=
  match s with
  | EmptyString | String _ EmptyString => true
  | _ => all_bytes (λ a, (128 <=? nat_of_ascii a)%nat) s
  end.
(** A key by itself: without Alt, not pasted, and not read together with others. *)
Definition by_itself `{Terminal} (k : Key) : Prop :=
  key_Alt k = false ∧ key_Paste k = false ∧ one_character (key_Runes k) = true.

Lemma beyond_typeable s : all_bytes (λ a, (128 <=? nat_of_ascii a)%nat) s = true → all_bytes typeable s = true.
Proof.
  apply all_bytes_impl. intros a Ha%Nat.leb_le. unfold typeable. apply negb_true_iff, bool_decide_eq_false.
  rewrite !elem_of_cons, elem_of_nil. intros [->|[->|[->|[]]]]; vm_compute in Ha; lia.
Qed.

(** A key by itself is one of the three or types none of them. *)
Lemma itself_typeable `{TerminalLaws} k : by_itself k → key_String k ∉ ["h"; "l"; "?"] → all_bytes typeable (key_Runes k) = true.
Proof.
  intros (Ha & Hp & Hone) Hk. destruct (decide (key_Runes k = EmptyString)) as [->|Hne]; [done|].
  rewrite (key_String_plain k Ha Hp Hne) in Hk. destruct (key_Runes k) as [|a [|b s]]; [done| |by apply beyond_typeable].
  cbn. rewrite andb_true_r. unfold typeable. apply negb_true_iff, bool_decide_eq_false. intros Hin. apply Hk.
  rewrite !elem_of_cons, elem_of_nil in Hin. destruct Hin as [->|[->|[->|[]]]]; set_solver.
Qed.

Section Typing.
Context `{TerminalLaws} (error_text : Chat.service_error → string) (e : Chat.SEnv).

Definition input_typed (m : AppModel) : Prop := all_bytes typeable (ti_Value (ct_input (am_chatView m))) = true.
Definition msg_typed (msg : Msg) : Prop :=
  match msg with
  | msgSendRequest _ body => all_bytes typeable body = true
  | KeyMsg k => by_itself k
  | _ => True
  end.
Definition cmd_typed (c : Cmd) : Prop :=
  match c with CmdMsg msg => msg_typed msg | CmdSend _ body => all_bytes typeable body = true | _ => True end.

Record typed (p : program) : Prop := mkTyped {
  ty_input : input_typed (pg_app p);
  ty_cmds : Forall cmd_typed (pg_cmds p);
  ty_msgs : Forall msg_typed (pg_msgs p)
}.

Lemma typed_focus r m : input_typed m → input_typed (setFocus r m).
Proof.
  unfold input_typed. intros Hm.
  destruct r; [rewrite <- ti_Value_Blur in Hm|rewrite <- ti_Value_Focus in Hm]; exact Hm.
Qed.

Lemma typed_load id title l m : input_typed (on_chatView (LoadConversation id title l) m).
Proof.
  unfold input_typed, LoadConversation. cbn. rebuilt. by rewrite ti_Value_Reset.
Qed.

Lemma typed_key k m : by_itself k → key_String k ∉ ["h"; "l"; "?"] → input_typed m →
  let r := chatView_key k (am_chatView m) in
  input_typed (on_chatView (λ _, r.1) m) ∧ match r.2 with Some (_, body) => all_bytes typeable body = true | None => True end.
Proof.
  intros Hself Hk Hm. unfold chatView_key, input_typed in *.
  repeat case_match; cbn; (split; [|try done]); rewrite ?ti_Value_Reset; try done.
  - simplify_eq/=. by apply all_bytes_TrimSpace.
  - apply ti_Value_Update; [done..|]. by apply itself_typeable.
Qed.

Lemma typed_panel_key k m s m' cmds s' : by_itself k → key_String k ≠ "?" → input_typed m →
  panel_key k m e s = (Some (m', cmds), s') → input_typed m' ∧ Forall cmd_typed cmds.
Proof.
  intros Hself Hq Hm. unfold panel_key.
  destruct (bool_decide_reflect (key_String k ∈ ["right"; "l"])) as [|Hl]; [intros [= <- <- _]; split; [by apply typed_focus|done]|].
  destruct (bool_decide_reflect (key_String k ∈ ["left"; "h"])) as [|Hh]; [intros [= <- <- _]; split; [by apply typed_focus|done]|].
  case_match.
  - unfold openSelected. destruct (selection _) as [[[id title]|]|]; [|by intros [= <- <- _]|done].
    unfold open_conversation. run_sv. intros [= <- <- _]. split; [|done]. apply typed_focus, typed_load.
  - destruct (am_focus m); [by intros [= <- <- _]|].
    destruct (typed_key k m) as [Hi Hr]; [done|set_solver|done|].
    destruct (chatView_key k (am_chatView m)) as [cv [[id body]|]]; intros [= <- <- _]; (split; [exact Hi|]);
      [|constructor]. by repeat constructor.
Qed.

Ltac no_text := intros [= <- <- _]; split; [done|by repeat constructor].

Lemma typed_Update msg m s m' cmds s' : input_typed m → msg_typed msg → Update msg m e s = (Some (m', cmds), s') →
  input_typed m' ∧ Forall cmd_typed cmds.
Proof.
  intros Hm Hmsg. destruct msg as [w h| |k|ms|id mm| | |st n|er|er|id body|ev]; cbn [Update].
  - intros [= <- <- _]. split; [|done]. unfold input_typed, resize, split_width. case_match; cbn; unfold chatView_SetSize;
      rebuilt; exact Hm.
  - no_text.
  - unfold on_key. destruct (bool_decide_reflect (key_String k = "ctrl+c")); [no_text|].
    case_match; [no_text|].
    destruct (bool_decide_reflect (key_String k = "?")) as [|Hq]; [no_text|].
    repeat (case_match; [no_text|]). by apply typed_panel_key.
  - no_text.
  - intros [= <- <- _]. split; [|by repeat constructor]. unfold input_typed. cbn. by case_match.
  - run_sv. no_text.
  - run_sv. no_text.
  - no_text.
  - no_text.
  - intros [= <- <- _]. by destruct er.
  - intros [= <- <- _]. split; [done|]. by repeat constructor.
  - destruct ev; cbn [handleServiceEvent]; unfold listenEvents; run_sv; intros [= <- <- _];
      (split; [done|]); by repeat constructor.
Qed.

Lemma typed_step p p' : typed p → step_with error_text by_itself e p p' → typed p'.
Proof.
  assert (Hup : ∀ msg q rest q', typed q → msg_typed msg → Forall msg_typed rest → update e msg q rest = Some q' → typed q').
  { intros msg q rest q' [Hi Hc Hm] Hmsg Hrest. unfold update.
    destruct (Update msg (pg_app q) e (pg_svc q)) as [[[m cmds]|] s] eqn:E; [|done]. cbn. intros [= <-].
    destruct (typed_Update _ _ _ _ _ _ Hi Hmsg E) as [Hi' Hc']. split; cbn; [done|by apply Forall_app|done]. }
  intros Hp Hs. revert Hp.
  destruct Hs as [msg q q' Hext Hkind Hu|l1 msg l2 q q' Hm Hu|l1 c l2 o s q Hc Hr|l1 ch l2 q Hc _|o q Ho]; intros Hp.
  - apply (Hup msg q (pg_msgs q)); [done|by destruct msg|apply Hp|done].
  - pose proof (ty_msgs _ Hp) as Hf. rewrite Hm in Hf. apply Forall_app in Hf as [H1 [Hmsg H2]%Forall_cons].
    apply (Hup msg q (l1 ++ l2)); [done..|by apply Forall_app|done].
  - destruct Hp as [Hi Hf Hm]. rewrite Hc in Hf. apply Forall_app in Hf as [H1 [Hcmd H2]%Forall_cons].
    split; cbn; [done|by apply Forall_app|]. apply Forall_app. split; [done|].
    destruct c as [m|ch|id body|]; cbn [run_cmd] in Hr.
    + injection Hr as <- <-. by repeat constructor.
    + destruct (Chat.receive ch e (pg_svc q)) as [[ev| |] s']; [| |]; repeat case_match; simplify_eq; by repeat constructor.
    + destruct (doSend_result error_text e id body (pg_svc q)) as [err Hres].
      destruct (doSend error_text id body e (pg_svc q)) as [m s'] eqn:Em. injection Hr as <- <-.
      cbn in Hres. subst m. by repeat constructor.
    + injection Hr as <- <-. constructor.
  - destruct Hp as [Hi Hf Hm]. rewrite Hc in Hf. apply Forall_app in Hf as [H1 [Hcmd H2]%Forall_cons].
    split; cbn; [done|by apply Forall_app|done].
  - by destruct Hp.
Qed.
End Typing.

(** ** Schedules

    A step of the program by name, for runs on concrete inputs. *)

Section Schedules.
Context `{Terminal} (error_text : Chat.service_error → string) (e : Chat.SEnv).

Inductive action : Type := Terminal_ (msg : Msg) | Deliver (i : nat) | Run (i : nat) | Background (o : Chat.op).

Definition act (a : action) (p : program) : option program :=
  match a with
  | Terminal_ msg => if external msg then update e msg p (pg_msgs p) else None
  | Deliver i => msg ← pg_msgs p !! i; update e msg p (delete i (pg_msgs p))
  | Run i =>
      c ← pg_cmds p !! i;
      '(o, s) ← run_cmd error_text e (am_done (pg_app p)) c (pg_svc p);
      Some (mkProgram (pg_app p) s (delete i (pg_cmds p)) (pg_msgs p ++ option_list o) (pg_events p))
  | Background o =>
      if background o then Some (mkProgram (pg_app p) (Chat.run_op o e (pg_svc p)).2 (pg_cmds p) (pg_msgs p) (pg_events p))
      else None
  end.

Fixpoint acts (l : list action) (p : program) : option program :=
  match l with [] => Some p | a :: l => p ← act a p; acts l p end.

Definition act_of_kind (keys : Key → Prop) (a : action) : Prop :=
  match a with Terminal_ msg => of_kind keys msg | _ => True end.

Lemma act_step keys a p p' : act_of_kind keys a → act a p = Some p' → step_with error_text keys e p p'.
Proof.
  intros Hk. destruct a as [msg|i|i|o]; cbn [act].
  - destruct (external msg) eqn:E; [|done]. by apply step_terminal.
  - destruct (pg_msgs p !! i) as [msg|] eqn:E; [|done]. cbn. intros Hu.
    apply (step_deliver _ _ _ (take i (pg_msgs p)) msg (drop (S i) (pg_msgs p))); [by rewrite take_drop_middle|].
    by rewrite <- delete_take_drop.
  - destruct (pg_cmds p !! i) as [c|] eqn:E; [|done]. cbn.
    destruct (run_cmd _ _ _ _ _) as [[o s]|] eqn:Er; [|done]. cbn. intros [= <-].
    rewrite delete_take_drop. apply (step_command _ _ _ (take i (pg_cmds p)) c); [by rewrite take_drop_middle|done].
  - destruct (background o) eqn:E; [|done]. intros [= <-]. by apply step_service.
Qed.

Lemma acts_steps_with keys l p p' : Forall (act_of_kind keys) l → acts l p = Some p' → rtc (step_with error_text keys e) p p'.
Proof.
  intros Hl. revert p. induction Hl as [|a l Ha _ IH]; intros p; cbn [acts]; [by intros [= <-]|].
  destruct (act a p) as [q|] eqn:E; [|done]. cbn. intros Hl. eapply rtc_l; [by eapply act_step|by apply IH].
Qed.

Lemma acts_steps l p p' : acts l p = Some p' → rtc (step error_text e) p p'.
Proof. apply acts_steps_with. apply Forall_true. by intros [[]| | |]. Qed.

End Schedules.

Section Drawing.
Context `{Terminal}.

Lemma statusBar_draws m : is_Some (statusBar_View m).
Proof.
  unfold statusBar_View. destruct (status_label (sb_status m)) as [dot label].
  set (gap := sb_width m - _ - _). destruct (Repeat_total " " (if gap <? 0 then 0 else gap)) as [sp ->];
    [destruct (Z.ltb_spec gap 0); lia|by eexists].
Qed.

Lemma help_draws m : is_Some (help_View m).
Proof.
  unfold help_View. set (pad := Z.quot (hv_width m - _) 2).
  destruct (Repeat_total " " (if pad <? 0 then 0 else pad)) as [sp ->];
    [destruct (Z.ltb_spec pad 0); lia|by eexists].
Qed.

(** Only the separators of the chat view can fail to be drawn. *)
Lemma chatView_draws m : ct_width m = 0 ∨ minChatWidth ≤ ct_width m →
  chatView_View m = None ↔ ct_conversationID m ≠ EmptyString ∧ ct_width m = 0.
Proof.
  intros Hw. unfold chatView_View. case_bool_decide as Hid; [by split; [|intros [? _]]|].
  assert (Hm : ct_width (if ct_contentDirty m then show_content m else m) = ct_width m) by (by destruct (ct_contentDirty m)).
  rewrite Hm. unfold Repeat, minChatWidth in *. destruct (Z.ltb_spec (ct_width m - 4) 0); cbn.
  - split; [intros _; split; [done|lia]|done].
  - split; [done|]. intros [_ Hz]. lia.
Qed.

Lemma View_none m : ui_ok m → View m = None ↔
  am_quitting m = false ∧ am_showHelp m = false ∧ ct_conversationID (am_chatView m) ≠ EmptyString ∧ ct_width (am_chatView m) = 0.
Proof.
  intros Hm. rewrite <- (chatView_draws (am_chatView m)) by apply Hm. unfold View.
  destruct (am_quitting m); [by split; [|intros [? _]]|]. destruct (am_showHelp m).
  - destruct (help_draws (am_helpView m)) as [v ->]. by split; [|intros (_ & ? & _)].
  - destruct (statusBar_draws (am_statusBar m)) as [v ->]. cbn.
    destruct (chatView_View (am_chatView m)); cbn; by split; [|intros (_ & _ & ?)].
Qed.

End Drawing.

Lemma ui_reachable `{TerminalLaws} error_text e p : reachable (started e) (step error_text e) p → ui_ok (pg_app p).
Proof.
  intros Hr. revert p Hr. apply (reachable_invariant _ _ (λ p, ui_ok (pg_app p))). split.
  - intros p (s & _ & _ & ->). destruct (Init e s). apply New_ok.
  - assert (Hup : ∀ msg q rest q', ui_ok (pg_app q) → update e msg q rest = Some q' → ui_ok (pg_app q')).
    { intros msg q rest q' Hq. unfold update. destruct (Update_ok msg (pg_app q) e (pg_svc q) Hq) as (m & cmds & s & -> & Hm).
      cbn. by intros [= <-]. }
    intros p p' Hp Hs. destruct Hs; eauto.
Qed.

Lemma hearing_reachable `{TerminalLaws} error_text e p : reachable (started e) (step error_text e) p → hearing p.
Proof.
  intros Hr. revert p Hr. apply (reachable_invariant _ _ hearing). split.
  - intros p (s & Hs & Hsub & ->). unfold Init, listenEvents. destruct (Subscribe_spec e s Hs) as (ch & s' & E & Hs' & Hl & _).
    unfold mbind, Chat.SV_bind. rewrite E. cbn. rewrite Hsub in Hl.
    split; cbn [pg_svc pg_events length]; [done|done|lia|unfold carried, waiting; cbn; lia|]. intros [=].
  - intros p p'. apply hearing_step.
Qed.

Lemma typed_reachable `{TerminalLaws} error_text e p :
  reachable (started e) (step_with error_text by_itself e) p → typed p.
Proof.
  revert p. apply (reachable_invariant _ _ typed). split.
  - intros p (s & _ & _ & ->). unfold Init, listenEvents. run_sv. split; cbn; [|by repeat constructor|done].
    unfold input_typed. change (all_bytes typeable (ti_Value (ti_Blur (ti_New "Type a message…" 2000))) = true).
    by rewrite ti_Value_Blur, ti_Value_New.
  - intros p p'. by apply typed_step.
Qed.

(** ** Properties *)

(** C28: whatever is pressed and whatever arrives in whatever order, exactly the
    panel in focus has the focus, no update indexes a list out of range, and
    drawing panics in one situation only: a conversation was opened before the
    size of the terminal was known. *)
Theorem interface_safe `{TerminalLaws} error_text e p : reachable (started e) (step error_text e) p →
  ui_ok (pg_app p) ∧ (∀ msg s, is_Some (Update msg (pg_app p) e s).1) ∧
  (View (pg_app p) = None ↔
   am_quitting (pg_app p) = false ∧ am_showHelp (pg_app p) = false ∧
   ct_conversationID (am_chatView (pg_app p)) ≠ EmptyString ∧ ct_width (am_chatView (pg_app p)) = 0).
Proof.
  intros Hr%ui_reachable. split; [done|]. split; [|by apply View_none].
  intros msg s. destruct (Update_ok msg (pg_app p) e s Hr) as (m & cmds & s' & -> & _). eauto.
Qed.

(** C17: the interface hears at most sixteen service events in its life.  Each
    event it handles makes it subscribe once more, none is ever given back, and
    the seventeenth subscription is a closed channel. *)
Theorem sixteen_events `{TerminalLaws} error_text e p : reachable (started e) (step error_text e) p →
  (length (pg_events p) ≤ 16)%nat ∧
  (length (pg_events p) = 16%nat → ∀ ch, CmdListen ch ∈ pg_cmds p →
     Chat.receive ch e (pg_svc p) = (Chat.ChanClosed, pg_svc p)).
Proof.
  intros [_ _ Hb _ Hl]%hearing_reachable. split; [done|]. intros Hm ch Hch. apply dead_receive. by apply Hl.
Qed.

(** C23: some letters cannot be typed.  As long as keys arrive by themselves, one
    character each, without Alt and not pasted, no message sent from the interface
    contains an [h], an [l] or a question mark: these keys switch panels or open
    the help screen, even while text is typed.  ([letters_pasted]: with Alt or
    pasted they get in.) *)
Theorem letters_never_sent `{TerminalLaws} error_text e p :
  reachable (started e) (step_with error_text by_itself e) p →
  ∀ id body, CmdSend id body ∈ pg_cmds p → all_bytes typeable body = true.
Proof.
  intros Hr id body Hin. pose proof (ty_cmds _ (typed_reachable error_text e p Hr)) as Hf.
  rewrite Forall_forall in Hf. by apply (Hf (CmdSend id body)).
Qed.

(** ** Concrete runs *)

(** The interface on the plain terminal, just started on an empty service. *)
Definition demo_program : program :=
  let '(cmds, s) := Init Chat.sample_env Chat.empty_service in mkProgram New s cmds [] [].
Definition demo_text : Chat.service_error → string := λ _, "failed".

Lemma demo_started : started Chat.sample_env demo_program.
Proof.
  exists Chat.empty_service. split; [|by split]. split; cbn; [set_solver|constructor|unfold Chat.maxSubs; lia|done|done].
Qed.

Definition inbound : action := Background (Chat.OpInbound (NewChatMessage unix_epoch "bob" "" "" "hi") "bob").

(** The [k]-th event arrives and is handled: the command that listens comes
    first, later behind those of the events before. *)
Definition hear (k : nat) : list action := [inbound; Run (match k with O => 0 | _ => 2 + k end); Deliver 0].

Definition after (l : list action) : program := default demo_program (acts demo_text Chat.sample_env l demo_program).

Definition sixteen : list action := concat (hear <$> seq 0 16).
(** Text is typed and sent while no conversation is open. *)
Definition typing : list action :=
  (Terminal_ ∘ (KeyMsg (H := PlainTerminal)) <$> [Typed "l"%char; Typed "a"%char; Typed "b"%char; Named "enter"]) ++ [Run 3; Deliver 0].
Definition pasting : list action :=
  (Terminal_ ∘ (KeyMsg (H := PlainTerminal)) <$> [Typed "l"%char; Alt "h"%char; Pasted "ello?"; Named "enter"]) ++ [Run 3; Deliver 0].
(** Bob writes, the conversation appears and is opened. *)
Definition opening : list action := [inbound; Run 1; Deliver 0; Terminal_ (KeyMsg (Named "enter" : Key))].

Lemma demo_reachable l p : acts demo_text Chat.sample_env l demo_program = Some p →
  reachable (started Chat.sample_env) (step demo_text Chat.sample_env) p.
Proof. intros Hl. exists demo_program. split; [apply demo_started|by eapply acts_steps]. Qed.

Lemma demo_run l (P : program → bool) :
  match acts demo_text Chat.sample_env l demo_program with Some p => P p | None => false end = true →
  ∃ p, reachable (started Chat.sample_env) (step demo_text Chat.sample_env) p ∧ P p = true.
Proof.
  destruct (acts demo_text Chat.sample_env l demo_program) as [p|] eqn:E; [|done].
  intros HP. exists p. split; [|done]. by apply (demo_reachable l).
Qed.

Definition heard (n : nat) (p : program) : bool := (length (pg_events p) =? n)%nat.
Definition listening (p : program) : bool := existsb (λ c, match c with CmdListen _ => true | _ => false end) (pg_cmds p).

(** After sixteen messages the seventeenth reaches nobody: the command that
    listens ends, and nothing listens any more. *)
Example seventeenth_unheard :
  match acts demo_text Chat.sample_env (sixteen ++ [inbound; Run 18]) demo_program with
  | Some p => heard 16 p && negb (listening p)
  | None => false
  end = true.
Proof. by vm_compute. Qed.

(** Of two messages that arrive together only the first is heard: the second
    stays in the channel of the subscription that is given up. *)
Example second_unheard :
  match acts demo_text Chat.sample_env [inbound; inbound; Run 0; Deliver 0] demo_program with
  | Some p =>
      heard 1 p &&
      match pg_cmds p !! 3%nat, Chat.sv_chans (pg_svc p) !! 0%nat with
      | Some (CmdListen ch), Some c => negb (ch =? 0)%nat && (length (Chat.ch_buf c) =? 1)%nat
      | _, _ => false
      end
  | None => false
  end = true.
Proof. by vm_compute. Qed.

Lemma sixteen_events_witness :
  ∃ p, heard 16 p && listening p = true ∧ (length (pg_events p) ≤ 16)%nat.
Proof.
  destruct (demo_run (sixteen ++ [inbound]) (λ p, heard 16 p && listening p)) as (p & Hr & Hp); [by vm_compute|].
  exists p. split; [exact Hp|]. exact (proj1 (sixteen_events demo_text Chat.sample_env p Hr)).
Defined.

Definition sends (text : string) (p : program) : bool :=
  match pg_cmds p !! 3%nat with Some (CmdSend id body) => (id =? "")%string && (body =? text)%string | _ => false end.

Lemma letters_never_sent_witness : ∃ p, sends "ab" p = true ∧
  ∀ id body, CmdSend id body ∈ pg_cmds p → all_bytes typeable body = true.
Proof.
  destruct (acts demo_text Chat.sample_env typing demo_program) as [p|] eqn:E; [|by vm_compute in E].
  exists p. split.
  - change (sends "ab" (default demo_program (Some p)) = true). rewrite <- E. by vm_compute.
  - apply (letters_never_sent demo_text Chat.sample_env p). exists demo_program. split; [apply demo_started|].
    apply (acts_steps_with demo_text Chat.sample_env by_itself typing); [|exact E]. by repeat constructor.
Defined.

(** With Alt, and pasted, the letters reach the input: there the text of the key is
    not the letter. *)
Example letters_pasted : option_map (sends "hello?") (acts demo_text Chat.sample_env pasting demo_program) = Some true.
Proof. by vm_compute. Qed.

Definition opened_early (p : program) : bool :=
  negb (am_quitting (pg_app p)) && negb (am_showHelp (pg_app p)) &&
  (ct_conversationID (am_chatView (pg_app p)) =? "bob")%string && (ct_width (am_chatView (pg_app p)) =? 0).

Lemma interface_safe_witness : ∃ p, ui_ok (pg_app p) ∧ View (pg_app p) = None.
Proof.
  destruct (demo_run opening opened_early) as (p & Hr & Hp); [by vm_compute|].
  exists p. destruct (interface_safe demo_text Chat.sample_env p Hr) as (Hu & _ & Hv).
  split; [exact Hu|]. apply Hv. unfold opened_early in Hp. rewrite !andb_true_iff, !negb_true_iff in Hp.
  destruct Hp as [[[H1 H2] ->%String.eqb_eq] ->%Z.eqb_eq]. by rewrite H1, H2.
Defined.
