(* ===== verification/Daemon.v ===== *)
(** * The server and the discovery daemon

    [network.StartServer] and [runDiscover] of [cmd/skall/main.go]: the commands
    that run a TCP server, and the one that also announces it, looks for others
    and connects to them.  The daemon is the server of [TcpServer] and the
    discovery of [Finder] side by side, with the goroutine of [main] that stops
    them. *)

From S2P Require Import Prelude GoStrings GoTime GoNet GoCrypto Protocol Identity Connection Discovery Finder TcpServer Shutdown Cli.

Open Scope Z_scope.

Module Daemon.

(** ** Starting *)

(** [Server.Addr]: the address of the listener, once there is one. *)
Definition Addr (address : string) (listener : option string) : string := default address listener.

(** [Server.Listen]: [net.Listen] answers with the address it is bound to. *)
Definition Listen {NE} (listens : result NE string) : result NE (option string) := Some <$> listens.

Inductive discover_error {NE : Type} : Type :=
  | ErrListen (e : NE)
  | ErrListenPort
  | ErrAnnounce (e : Discovery.discovery_error)
  | PanicShortID
  | ErrStart (e : Discovery.discovery_error).
Arguments discover_error : clear implicits.

Section Daemon.
Context {M NE : Type} `{!Discovery.ConnectionManager M}.
Context (order : gmap string Discovery.PeerInfo → list (string * Discovery.PeerInfo)).

(** What [runDiscover] gets from outside before it waits: the listener, whether
    the announcement is registered, whether there is a resolver, and what the
    first scan answers. *)
Record Outside : Type := mkOutside {
  ou_listens : result NE string; ou_registers : bool; ou_factory : bool;
  ou_browse : option (list (option Discovery.ServiceEntry))
}.

Definition local_peer (localID : Identity.Identity) (port : Z) : Discovery.PeerInfo :=
  Discovery.mkPeerInfo (Identity.id_PeerID localID) (Identity.id_DisplayName localID) "localhost" port.

(** [runDiscover] up to its wait: the registration and the discovery with its
    connector.  [localID.PeerID[:8]] panics on a shorter ID. *)
Definition runDiscover (o : Outside) (localID : Identity.Identity) (address : string) (mgr : M) :
    result (discover_error NE) (Discovery.Registration * Finder.Finder M) :=
  match Listen (ou_listens o) with
  | Err e => Err (ErrListen e)
  | Ok listener =>
      match Cli.discover_port (Addr address listener) with
      | None => Err ErrListenPort
      | Some port =>
          let mdns := Discovery.NewMDNSDiscovery (local_peer localID port) Discovery.DefaultMDNSConfig in
          match Discovery.Announce (ou_registers o) port mdns with
          | Err e => Err (ErrAnnounce e)
          | Ok registration =>
              if slen (Identity.id_PeerID localID) <? 8 then Err PanicShortID else
              match Discovery.Start order (ou_factory o) (ou_browse o) mdns with
              | (_, Err e) => Err (ErrStart e)
              | (mdns, Ok _) => Ok (registration, Finder.mkFinder mdns mgr 0 0 1 false true)
              end
          end
      end
  end.

(** ** Running and stopping *)

(** The goroutine of [main]: it waits for the signal, is in [Shutdown], or has
    returned, the discovery closed. *)
Inductive stage : Type := Waiting | Stops | Returned.

Record Daemon : Type := mkDaemon { dm_server : TcpServer.Server; dm_finder : Finder.Finder M; dm_stage : stage }.

(** What the discovery does without [main]. *)
Definition background (a : Finder.act) : bool :=
  match a with Finder.Tick _ | Finder.LoopEnds | Finder.Takes | Finder.Works _ | Finder.ConnectorEnds => true | _ => false end.

(** What the server does without [main]. *)
Definition served (ev : TcpServer.event) : bool := match ev with TcpServer.EvStop => false | _ => true end.

(** [Shutdown] has returned when its goroutine is gone. *)
Definition shut_down (s : TcpServer.Server) : Prop := TcpServer.sv_threads s !! TcpServer.Stopping = None.

Inductive daemon_step : Daemon → Daemon → Prop :=
  | step_server ev s s' fi st : TcpServer.good_event ev → served ev = true → TcpServer.step ev s = Some s' →
      daemon_step (mkDaemon s fi st) (mkDaemon s' fi st)
  | step_finder a s fi fi' st : background a = true → Finder.roomy order fi a → Finder.step order a fi = Some fi' →
      daemon_step (mkDaemon s fi st) (mkDaemon s fi' st)
  | step_signal s fi fi' : Finder.step order Finder.Cancelled fi = Some fi' →
      daemon_step (mkDaemon s fi Waiting) (mkDaemon s fi' Waiting)
  | step_shutdown s s' fi : Finder.fi_done fi = true → TcpServer.step TcpServer.EvStop s = Some s' →
      daemon_step (mkDaemon s fi Waiting) (mkDaemon s' fi Stops)
  | step_return s fi fi' : shut_down s → Finder.step order Finder.CloseCalled fi = Some fi' →
      daemon_step (mkDaemon s fi Stops) (mkDaemon s fi' Returned).

Definition daemon_reachable (fi : Finder.Finder M) : Daemon → Prop :=
  reachable (λ d, d = mkDaemon TcpServer.NewServer fi Waiting) daemon_step.

End Daemon.
Arguments Outside : clear implicits.
Arguments Daemon : clear implicits.

(** [StartServer]: what ends its wait. *)
Inductive server_end {NE : Type} : Type := Served (r : option NE) | Signalled.
Arguments server_end : clear implicits.

(** [Serve] when [Accept] fails: nothing, if the listener was closed or the server
    is, the error otherwise. *)
Definition Serve_result {NE} (err_closed : bool) (s : TcpServer.Server) (err : NE) : option NE :=
  if err_closed then None else if TcpServer.sv_closed s then None else Some err.

(** Its result: an error of [Listen], of [Serve], of closing the listener. *)
Definition StartServer_result {NE} (listens : result NE string) (e : server_end NE) (closeErr serveErr : option NE) : option NE :=
  match listens with
  | Err x => Some x
  | Ok _ =>
      match e with
      | Served r => r
      | Signalled => match closeErr with Some x => Some x | None => serveErr end
      end
  end.

End Daemon.

Import Daemon.

(** ** How the discovery begins *)

Section Begin.
Context {M NE : Type} `{!Discovery.ConnectionManager M}.
Context (order : gmap string Discovery.PeerInfo → list (string * Discovery.PeerInfo)).

Implicit Types mgr : M.

(** [Start], as the steps of [Finder]. *)
Lemma Start_plays factory browse local config mgr mdns :
  Discovery.Start order factory browse (Discovery.NewMDNSDiscovery local config) = (mdns, Ok ()) →
  ∃ l, browse = Some l ∧
  Finder.play order [Finder.StartCalled; Finder.ResolverMade true; Finder.FirstScan browse] (Finder.initial local config mgr) =
    Some (Finder.mkFinder mdns mgr 0 0 1 false true).
Proof.
  unfold Discovery.Start. cbn [Discovery.start_check Discovery.NewMDNSDiscovery Discovery.d_started Discovery.d_closed].
  destruct factory; cbn [negb]; [|done]. intros Hs. destruct browse as [l|]; [|done]. exists l. split; [done|].
  cbn [Finder.play Finder.step Finder.start_called mbind option_bind].
  unfold Finder.first_scan_ends. cbn.
  cbn in Hs. by injection Hs as <-.
Qed.

(** What [runDiscover] starts from when it gets to its wait. *)
Lemma runDiscover_begins (o : Outside NE) localID address mgr reg fi :
  runDiscover order o localID address mgr = Ok (reg, fi) →
  let local := local_peer localID (Discovery.rg_Port reg) in
  0 < Discovery.rg_Port reg ∧
  Discovery.rg_Text reg = ["peer_id=" +:+ Identity.id_PeerID localID; "display_name=" +:+ TrimSpace (Identity.id_DisplayName localID)] ∧
  ∃ l, ou_browse o = Some l ∧
  Finder.play order [Finder.StartCalled; Finder.ResolverMade true; Finder.FirstScan (Some l)]
    (Finder.initial local Discovery.DefaultMDNSConfig mgr) = Some fi.
Proof.
  unfold runDiscover. destruct (Listen (ou_listens o)) as [listener|]; [|done].
  destruct (Cli.discover_port _) as [port|]; [|done].
  destruct (Discovery.Announce _ _ _) as [r|] eqn:Ea; [|done].
  destruct (slen _ <? 8); [done|].
  destruct (Discovery.Start _ _ _ _) as [mdns [[]|]] eqn:Es; [|done]. intros [= <- <-].
  unfold Discovery.Announce in Ea. destruct (Z.leb_spec port 0); [done|]. destruct (Discovery.blank _); [done|].
  destruct (ou_registers o); [|done]. injection Ea as <-. cbn [Discovery.rg_Port Discovery.rg_Text]. split; [lia|]. split; [done|].
  apply (Start_plays _ _ _ _ mgr) in Es as (l & Hl & Hp). exists l. split; [done|]. by rewrite <- Hl.
Qed.

End Begin.

(** ** The daemon is its two parts *)

Lemma once_step ev s s' : served ev = true → TcpServer.step ev s = Some s' →
  TcpServer.sv_shutdownOnce s' = TcpServer.sv_shutdownOnce s.
Proof.
  intros He Hs. unfold TcpServer.step in Hs. destruct (TcpServer.sv_panicked s); [done|].
  destruct ev as [| |c0 [m|]|c0 sent|c0| |t ch]; try discriminate He.
  - case_match; [|done]. by apply resume_inv in Hs as [_ ->].
  - by apply resume_inv in Hs as [_ ->].
  - case_match; [done|]. by apply resume_inv in Hs as [_ ->].
  - by apply resume_inv in Hs as [_ ->].
  - case_match; [done|]. by apply bind_Some in Hs as (s1 & [_ ->]%resume_inv & [= <-]).
  - case_match; [|done]. by apply resume_inv in Hs as [_ ->].
  - destruct (TcpServer.sv_threads s !! t) as [[|o ops]|]; [done| |done].
    destruct (op_exit o) as [->|Hne]; [by injection Hs as <-|].
    assert (Hx : TcpServer.exec ch o s ≫= (λ '(s, before), Some (TcpServer.with_threads <[t := before ++ ops]> s)) = Some s') by (by destruct o).
    apply bind_Some in Hx as ([s1 b] & Hex & [= <-]). cbn. by eapply exec_once.
Qed.

Section Parts.
Context {M NE : Type} `{!Discovery.ConnectionManager M}.
Context (order : gmap string Discovery.PeerInfo → list (string * Discovery.PeerInfo)).

Implicit Types fi : Finder.Finder M.

Lemma background_closed a fi fi' : background a = true → Finder.step order a fi = Some fi' →
  Discovery.d_closed (Finder.fi_disc fi') = Discovery.d_closed (Finder.fi_disc fi) ∧
  (Finder.fi_done fi = true → Finder.fi_done fi' = true).
Proof.
  destruct a as [|ok|browse|browse| | |w| | |]; try done; intros _; cbn [Finder.step].
  - unfold Finder.tick. case_match; [done|]. intros [= <-]. pose proof (fixed_scan order browse (Finder.fi_disc fi)) as [= _ _ E _ _].
    cbn. by rewrite E.
  - unfold Finder.loop_ends. case_match; [done|]. case_match; [|done]. by intros [= <-].
  - case_match; [|done]. unfold Finder.take. case_match; [done|]. by intros [= <-].
  - by intros [= <-].
  - case_match; [|done]. by intros [= <-].
Qed.

(** What each stage says of the two parts. *)
Definition staged (d : Daemon M) : Prop :=
  match dm_stage d with
  | Waiting => TcpServer.sv_shutdownOnce (dm_server d) = false ∧ Discovery.d_closed (Finder.fi_disc (dm_finder d)) = false
  | Stops => TcpServer.sv_shutdownOnce (dm_server d) = true ∧ Finder.fi_done (dm_finder d) = true ∧
      Discovery.d_closed (Finder.fi_disc (dm_finder d)) = false
  | Returned => TcpServer.sv_closed (dm_server d) = true ∧ TcpServer.sv_listening (dm_server d) = false ∧
      Finder.fi_done (dm_finder d) = true ∧ Discovery.d_closed (Finder.fi_disc (dm_finder d)) = true
  end.

(** The daemon after some actions of its discovery. *)
Record parts local config (mgr : M) (d : Daemon M) : Prop := {
  pt_server : TcpServer.srv_reachable (dm_server d);
  pt_finder : ∃ acts, Finder.roomy_runs order (Finder.initial local config mgr) acts (dm_finder d);
  pt_stage : staged d
}.

Lemma srv_reachable_step ev s s' : TcpServer.good_event ev → TcpServer.srv_reachable s → TcpServer.step ev s = Some s' → TcpServer.srv_reachable s'.
Proof. intros Hg Hr Hs. eapply reachable_step; [exact Hr|]. by exists ev. Qed.

Lemma parts_step local config mgr d d' : parts local config mgr d → daemon_step order d d' → parts local config mgr d'.
Proof.
  intros [Hs [acts Hf] Hst] Hstep.
  assert (Hact : ∀ a fi fi', Finder.roomy_runs order (Finder.initial local config mgr) acts fi → Finder.roomy order fi a →
    Finder.step order a fi = Some fi' → ∃ acts', Finder.roomy_runs order (Finder.initial local config mgr) acts' fi').
  { intros a fi fi' H1 H2 H3. exists (acts ++ [a]). by eapply Finder.roomy_act. }
  destruct Hstep as [ev s s' fi st Hg He Hev|a s fi fi' st Hb Hroom Ha|s fi fi' Ha|s s' fi Hd Hev|s fi fi' Hsd Ha];
    cbn [dm_server dm_finder dm_stage] in *.
  - split; cbn [dm_server dm_finder dm_stage]; [by eapply srv_reachable_step|by exists acts|].
    unfold staged in *. cbn [dm_server dm_finder dm_stage] in *.
    assert (Ho := once_step ev s s' He Hev). rewrite Ho. destruct st; [done|done|].
    destruct Hst as (H1 & H2 & H3 & H4). split_and!; [| |done|done]; [|by eapply listening_step].
    apply (steps_flag s s'); [apply phase_reachable in Hs as [[_ Hw] _]; exact Hw|by eapply step_steps|done].
  - split; cbn [dm_server dm_finder dm_stage]; [done|by eapply Hact|].
    destruct (background_closed a fi fi' Hb Ha) as [Hc Hdn]. unfold staged in *. cbn [dm_server dm_finder dm_stage] in *.
    rewrite Hc. destruct st; [done|naive_solver|naive_solver].
  - split; cbn [dm_server dm_finder dm_stage]; [done|eapply Hact; [done| |exact Ha]; done|]. by injection Ha as <-.
  - split; cbn [dm_server dm_finder dm_stage]; [by eapply (srv_reachable_step TcpServer.EvStop)|by exists acts|].
    unfold staged in *. cbn [dm_server dm_finder dm_stage] in *. split_and!; [|done|by destruct Hst].
    unfold TcpServer.step in Hev. destruct (TcpServer.sv_panicked s); [done|].
    destruct (TcpServer.sv_shutdownOnce s); [done|]. by injection Hev as <-.
  - split; cbn [dm_server dm_finder dm_stage]; [done|eapply Hact; [done| |exact Ha]; done|].
    unfold staged in *. cbn [dm_server dm_finder dm_stage] in *. destruct Hst as (H1 & H2 & H3).
    injection Ha as <-. cbn. destruct (phase_reachable s Hs) as [_ [[Ho _]|[_ [[Ht _]|[Hc [l Hl]]]]]].
    + congruence.
    + unfold shut_down in Hsd. by rewrite Hsd in Ht.
    + assert (Hli : TcpServer.sv_listening s = false).
      { destruct Hl as [(pre & Hp & _)|[_ [_ [Hl|Hl%elem_of_nil] _]]]; [unfold shut_down in Hsd; by rewrite Hsd in Hp|done|done]. }
      unfold Discovery.Close. rewrite H3. done.
Qed.

End Parts.

(** ** Finding an announced daemon *)

Lemma SplitN2_key k v : (∀ c, has_byte c k = true → c ≠ "="%char) → SplitN2 "=" (k +:+ String "="%char v) = (k, Some v).
Proof.
  induction k as [|a k IH]; intros Hk; [done|]. rewrite app_cons_s. cbn [SplitN2]. rewrite decide_False.
  - rewrite IH; [done|]. intros c Hc. apply Hk. cbn. by rewrite Hc, orb_true_r.
  - apply Hk. cbn. by rewrite bool_decide_eq_true_2.
Qed.

(** The entry of an announcement is read back as the peer. *)
Lemma announced_entry e id name port : trimmed id → id ≠ EmptyString →
  TrimSpace (Discovery.se_HostName e) ≠ EmptyString → Discovery.se_Port e = port → port ≠ 0 →
  Discovery.se_Text e = ["peer_id=" +:+ id; "display_name=" +:+ TrimSpace name] →
  Discovery.entryToPeerInfo e = Some (Discovery.mkPeerInfo id (TrimSpace name) (TrimSpace (Discovery.se_HostName e)) port).
Proof.
  intros Ht Hne Hh Hp Hp0 Htxt. unfold Discovery.entryToPeerInfo. rewrite (decide_False (P:=TrimSpace _ = EmptyString)) by done.
  rewrite Hp, (proj2 (Z.eqb_neq port 0)) by done. rewrite Htxt. cbn [Discovery.text_fields].
  change ("peer_id=" +:+ id) with ("peer_id" +:+ String "="%char id).
  change ("display_name=" +:+ TrimSpace name) with ("display_name" +:+ String "="%char (TrimSpace name)).
  rewrite !SplitN2_key; [|intros c Hc ->; vm_compute in Hc; discriminate Hc..].
  change (TrimSpace "peer_id") with "peer_id". change (TrimSpace "display_name") with "display_name".
  rewrite (decide_True (P:="peer_id" = "peer_id")), (decide_False (P:="display_name" = "peer_id")), (decide_True (P:="display_name" = "display_name")) by done.
  cbn [fst snd]. rewrite Ht, TrimSpace_idem. by rewrite decide_False.
Qed.

(** The answers of a browse with this peer among them. *)
Lemma collect_keeps l m e p : Some e ∈ l → Discovery.entryToPeerInfo e = Some p →
  ∃ e' p', Some e' ∈ l ∧ Discovery.entryToPeerInfo e' = Some p' ∧ Discovery.Key p' = Discovery.Key p ∧
    Discovery.collect l m !! Discovery.Key p = Some p'.
Proof.
  assert (Hlast : ∀ l m k p0, m !! k = Some p0 → Discovery.collect l m !! k = Some p0 ∨
    ∃ e' p', Some e' ∈ l ∧ Discovery.entryToPeerInfo e' = Some p' ∧ Discovery.Key p' = k ∧ Discovery.collect l m !! k = Some p').
  { clear. intros l. induction l as [|a l IH]; intros m k p0 Hk; [by left|]. cbn [Discovery.collect].
    destruct a as [e|]; cbn [mbind option_bind].
    - destruct (Discovery.entryToPeerInfo e) as [p|] eqn:Ee.
      + destruct (decide (Discovery.Key p = k)) as [Hkp|Hkp].
        * right. destruct (IH (<[Discovery.Key p := p]> m) k p) as [H|(e' & p' & H1 & H2 & H3 & H4)];
            [by rewrite Hkp, lookup_insert_eq|exists e, p; split_and!; [by left|done..]|].
          exists e', p'. split_and!; [by right|done..].
        * destruct (IH (<[Discovery.Key p := p]> m) k p0) as [H|(e' & p' & H1 & H2 & H3 & H4)];
            [by rewrite lookup_insert_ne|by left|right]. exists e', p'. split_and!; [by right|done..].
      + destruct (IH m k p0 Hk) as [H|(e' & p' & H1 & H2 & H3 & H4)]; [by left|right]. exists e', p'. split_and!; [by right|done..].
    - destruct (IH m k p0 Hk) as [H|(e' & p' & H1 & H2 & H3 & H4)]; [by left|right]. exists e', p'. split_and!; [by right|done..]. }
  revert m. induction l as [|a l IH]; intros m Hin He; [by apply elem_of_nil in Hin|].
  apply elem_of_cons in Hin as [<-|Hin].
  - cbn [Discovery.collect mbind option_bind]. rewrite He.
    destruct (Hlast l (<[Discovery.Key p := p]> m) (Discovery.Key p) p) as [H|(e' & p' & H1 & H2 & H3 & H4)];
      [apply lookup_insert_eq|exists e, p; split_and!; [by left|done..]|]. exists e', p'. split_and!; [by right|done..].
  - cbn [Discovery.collect]. destruct (a ≫= Discovery.entryToPeerInfo) as [q|].
    + destruct (IH (<[Discovery.Key q := q]> m) Hin He) as (e' & p' & H1 & H2 & H3 & H4). exists e', p'. split_and!; [by right|done..].
    + destruct (IH m Hin He) as (e' & p' & H1 & H2 & H3 & H4). exists e', p'. split_and!; [by right|done..].
Qed.

Lemma visible_announced order local l e p : Discovery.map_order order → Some e ∈ l → Discovery.entryToPeerInfo e = Some p →
  Discovery.pi_PeerID local ≠ Discovery.pi_PeerID p →
  (∀ e' p', Some e' ∈ l → Discovery.entryToPeerInfo e' = Some p' → Discovery.pi_PeerID p' = Discovery.pi_PeerID p →
    Discovery.IsValid p' = true) →
  Discovery.pi_PeerID p ∈ Discovery.visible local (Discovery.answered order l).
Proof.
  intros Ho Hin He Hl Hv. destruct (collect_keeps l ∅ e p Hin He) as (e' & p' & H1 & H2 & H3 & H4).
  assert (Hkey : ∀ e q, Discovery.entryToPeerInfo e = Some q → Discovery.Key q = Discovery.pi_PeerID q).
  { intros e0 q Hq. destruct (entryToPeerInfo_facts e0 q Hq) as (Ht & Hne & _). unfold Discovery.Key.
    unfold trimmed in Ht. rewrite Ht. by rewrite decide_True. }
  rewrite (Hkey e' p' H2), (Hkey e p He) in H3. unfold Discovery.visible. rewrite elem_of_list_to_set, list_elem_of_fmap.
  exists p'. split; [done|]. apply list_elem_of_filter. split; [split; [by eapply Hv|congruence]|].
  unfold Discovery.answered, Discovery.seenValues. apply list_elem_of_fmap. exists (Discovery.Key p, p'). split; [done|].
  rewrite (Ho (Discovery.collect l ∅)). by apply elem_of_map_to_list.
Qed.

(** The identifiers of valid identities. *)
Lemma valid_peer_id i : Identity.Validate i = Ok () → trimmed (Identity.id_PeerID i) ∧ Identity.id_PeerID i ≠ EmptyString.
Proof.
  intros Hv%Validate_valid. rewrite (Identity.vi_peer i Hv). split; [apply graphic_trimmed, hex_graphic|].
  intros He. assert (H' := length_hex_encode (sha256 (Identity.id_PublicKey i))). rewrite He, length_sha256 in H'. done.
Qed.

Lemma play_within_reached {M} `{!Discovery.ConnectionManager M} order acts (s s' : Finder.Finder M) :
  Finder.play_within order acts s = Some s' → Finder.roomy_runs order s acts s'.
Proof. intros Hp. exact (play_within_runs order acts s s' Hp s [] (Finder.roomy_none order s)). Qed.

(** ** Sample daemons *)

Definition sample_outside : Outside string := mkOutside (Ok "127.0.0.1:4001") true true (Some []).
Definition sample_entry (port : Z) (txt : list string) : Discovery.ServiceEntry :=
  Discovery.mkEntry "alice.local." [] [] port txt.

(** What the sample identity announces. *)
Definition sample_announcement : Discovery.ServiceEntry :=
  sample_entry 4001 ["peer_id=" +:+ Identity.id_PeerID Identity.sample_identity;
                     "display_name=" +:+ TrimSpace (Identity.id_DisplayName Identity.sample_identity)].
Definition sample_search : list Finder.act :=
  [Finder.StartCalled; Finder.ResolverMade true; Finder.FirstScan (Some []); Finder.Tick (Some [Some sample_announcement; None])].

(** ** Properties *)

(** The daemon is a server and a discovery side by side: whatever it does, its
    server is one [TcpServer] reaches and its manager is behind the last scan
    exactly by the events that wait; before the signal neither part is closed, and
    when the command returns the server is shut down, its listener closed, and
    the discovery closed. *)
Theorem daemon_session {M NE} `{!Discovery.ConnectionManager M} order (o : Outside NE) localID address (mgr : M) reg fi d :
  Discovery.map_order order → Discovery.mgr_tracked mgr = ∅ →
  runDiscover order o localID address mgr = Ok (reg, fi) →
  (∀ l, ou_browse o = Some l →
    (size (Discovery.visible (local_peer localID (Discovery.rg_Port reg)) (Discovery.answered order l)) ≤ Discovery.eventBuf)%nat) →
  daemon_reachable order fi d →
  TcpServer.srv_reachable (dm_server d) ∧
  (Finder.fi_connector (dm_finder d) = true → ∃ s',
    Finder.play order (replicate (length (Discovery.d_events (Finder.fi_disc (dm_finder d)))) Finder.Takes) (dm_finder d) = Some s' ∧
    Discovery.mgr_tracked (Finder.fi_mgr s') = dom (Discovery.d_entries (Finder.fi_disc (dm_finder d)))) ∧
  (dm_stage d = Waiting → TcpServer.sv_shutdownOnce (dm_server d) = false ∧ Discovery.d_closed (Finder.fi_disc (dm_finder d)) = false) ∧
  (dm_stage d = Returned → TcpServer.sv_closed (dm_server d) = true ∧ TcpServer.sv_listening (dm_server d) = false ∧
    Discovery.d_closed (Finder.fi_disc (dm_finder d)) = true).
Proof.
  intros Ho Ht Hr Hroom Hd. apply runDiscover_begins in Hr as (_ & _ & l & Hl & Hp).
  set (local := local_peer localID (Discovery.rg_Port reg)) in *.
  assert (Hparts : parts order local Discovery.DefaultMDNSConfig mgr d).
  { destruct Hd as (d0 & -> & Hsteps).
    assert (H0 : parts order local Discovery.DefaultMDNSConfig mgr (mkDaemon TcpServer.NewServer fi Waiting)).
    { split; cbn [dm_server dm_finder]; [by apply reachable_init| |].
      - exists ((([] ++ [Finder.StartCalled]) ++ [Finder.ResolverMade true]) ++ [Finder.FirstScan (Some l)]). eapply Finder.roomy_act; [eapply Finder.roomy_act; [eapply Finder.roomy_act; [apply Finder.roomy_none|intros ? [=]|reflexivity]|intros ? [=]|reflexivity]| |exact Hp].
        intros v [= <-]. cbn. rewrite map_size_empty. specialize (Hroom l Hl). lia.
      - unfold staged. cbn. split; [done|]. cbn in Hp. injection Hp as <-. cbn.
        by pose proof (fixed_applyDiff order (Discovery.answered order l) (Discovery.start_set (Discovery.NewMDNSDiscovery local Discovery.DefaultMDNSConfig)))
          as [= _ _ E _ _]. }
    clear -H0 Hsteps. induction Hsteps as [|d1 d2 d3 Hs _ IH]; [done|]. by apply IH, (parts_step order local _ mgr d1). }
  destruct Hparts as [Hsrv [acts Hruns] Hst]. split; [done|]. split; [|split].
  - destruct (following_tracks order local _ mgr acts _ Ho Ht Hruns) as [Hdom Hdrain]. by rewrite Hdom.
  - intros E. unfold staged in Hst. by rewrite E in Hst.
  - intros E. unfold staged in Hst. rewrite E in Hst. by destruct Hst as (? & ? & _ & ?).
Qed.

Lemma daemon_session_witness : ∃ reg fi, runDiscover map_to_list sample_outside Identity.sample_identity "127.0.0.1:4001" new_manager = Ok (reg, fi) ∧
  (∀ d, daemon_reachable map_to_list fi d → dm_stage d = Returned → TcpServer.sv_listening (dm_server d) = false).
Proof.
  destruct (runDiscover map_to_list sample_outside Identity.sample_identity "127.0.0.1:4001" new_manager) as [[reg fi]|] eqn:E;
    [|vm_compute in E; discriminate E].
  exists reg, fi. split; [reflexivity|]. intros d Hd Hs.
  assert (Hm : Discovery.map_order map_to_list) by (intros m; reflexivity).
  assert (He : Discovery.mgr_tracked new_manager = ∅) by (vm_compute; reflexivity).
  refine (proj1 (proj2 (proj2 (proj2 (proj2 (daemon_session map_to_list sample_outside Identity.sample_identity "127.0.0.1:4001"
    new_manager reg fi d Hm He E _ Hd))) Hs))).
  intros l [= <-]. vm_compute. lia.
Defined.

(** C12: two daemons find each other: what [runDiscover] announces for a valid
    identity is read back by another discovery as that peer.  Once a scan of the
    other has seen the announcement, unless a later scan misses it, its connector
    makes the manager track the peer ID, provided that every scan had room in the
    channel of events and that no other announcement claims this peer ID without
    being usable ([full_channel_loses_peer]: without room a peer is found and never
    tracked). *)
Theorem announced_found {M MA NE} `{!Discovery.ConnectionManager M, !Discovery.ConnectionManager MA}
    orderA (oA : Outside NE) idA addressA (mgrA : MA) reg fiA order local config (mgr : M) acts s l e :
  Identity.Validate idA = Ok () → runDiscover orderA oA idA addressA mgrA = Ok (reg, fiA) → Discovery.rg_Port reg ≤ 65535 →
  Discovery.map_order order → Discovery.mgr_tracked mgr = ∅ → Discovery.pi_PeerID local ≠ Identity.id_PeerID idA →
  Finder.roomy_runs order (Finder.initial local config mgr) acts s → Finder.fi_connector s = true →
  last (omap Finder.answers_of acts) = Some l → Some e ∈ l →
  TrimSpace (Discovery.se_HostName e) ≠ EmptyString → Discovery.se_Port e = Discovery.rg_Port reg → Discovery.se_Text e = Discovery.rg_Text reg →
  (∀ e' p, Some e' ∈ l → Discovery.entryToPeerInfo e' = Some p → Discovery.pi_PeerID p = Identity.id_PeerID idA → Discovery.IsValid p = true) →
  Discovery.entryToPeerInfo e = Some (Discovery.mkPeerInfo (Identity.id_PeerID idA) (TrimSpace (Identity.id_DisplayName idA))
    (TrimSpace (Discovery.se_HostName e)) (Discovery.rg_Port reg)) ∧
  ∃ s', Finder.play order (replicate (length (Discovery.d_events (Finder.fi_disc s))) Finder.Takes) s = Some s' ∧
    Identity.id_PeerID idA ∈ Discovery.mgr_tracked (Finder.fi_mgr s').
Proof.
  intros Hv Hrun Hport Ho Ht Hne Hruns Hc Hl He Hh Hep Het Hval.
  destruct (valid_peer_id idA Hv) as [Htr Hid]. apply runDiscover_begins in Hrun as (Hpos & Htxt & _).
  assert (Hent : Discovery.entryToPeerInfo e = Some (Discovery.mkPeerInfo (Identity.id_PeerID idA) (TrimSpace (Identity.id_DisplayName idA))
    (TrimSpace (Discovery.se_HostName e)) (Discovery.rg_Port reg))).
  { apply announced_entry; [done|done|done|done|lia|by rewrite Het]. }
  split; [exact Hent|]. destruct (following_tracks order local config mgr acts s Ho Ht Hruns) as [_ Hdrain].
  destruct (Hdrain Hc) as (s' & Hs' & Htr'). exists s'. split; [exact Hs'|].
  rewrite Htr', (last_seen_answers order local acts l Hl).
  exact (visible_announced order local l e _ Ho He Hent Hne Hval).
Qed.

Lemma announced_found_witness : ∃ s s', Finder.play_within map_to_list sample_search sample_finder = Some s ∧
  Finder.play map_to_list (replicate (length (Discovery.d_events (Finder.fi_disc s))) Finder.Takes) s = Some s' ∧
  Identity.id_PeerID Identity.sample_identity ∈ Discovery.mgr_tracked (Finder.fi_mgr s').
Proof.
  destruct (runDiscover map_to_list sample_outside Identity.sample_identity "127.0.0.1:4001" new_manager) as [[reg fi]|] eqn:E;
    [|vm_compute in E; discriminate E].
  assert (Hreg : Discovery.rg_Port reg = 4001 ∧ Discovery.rg_Text reg = Discovery.se_Text sample_announcement)
    by (vm_compute in E; injection E as <- _; split; vm_compute; reflexivity).
  destruct Hreg as [Hp Htx].
  assert (∃ s, Finder.play_within map_to_list sample_search sample_finder = Some s ∧ Finder.fi_connector s = true) as (s & Hs & Hc)
    by (eexists; split; vm_compute; reflexivity).
  assert (Hm : Discovery.map_order map_to_list) by (intros m; reflexivity).
  assert (He : Discovery.mgr_tracked new_manager = ∅) by (vm_compute; reflexivity).
  assert (Hv : Identity.Validate Identity.sample_identity = Ok ()) by (vm_compute; reflexivity).
  assert (Hread : match Discovery.entryToPeerInfo sample_announcement with Some p => Discovery.IsValid p | None => true end = true)
    by (vm_compute; reflexivity).
  destruct (announced_found map_to_list sample_outside Identity.sample_identity "127.0.0.1:4001" new_manager reg fi
    map_to_list Discovery.sample_local Discovery.DefaultMDNSConfig new_manager sample_search s [Some sample_announcement; None] sample_announcement)
    as [_ (s' & Hs' & Hin)]; [exact Hv|exact E|rewrite Hp; lia|exact Hm|exact He|vm_compute; discriminate|exact (play_within_reached _ _ _ _ Hs)
    |exact Hc|reflexivity|left|vm_compute; discriminate|by rewrite Hp|by rewrite Htx| |].
  - intros e' p Hin Hq _. apply elem_of_cons in Hin as [Hin|Hin].
    + apply (inj Some) in Hin. rewrite Hin in Hq. rewrite Hq in Hread. exact Hread.
    + apply elem_of_cons in Hin as [Hin|Hin]; [discriminate Hin|destruct (proj1 (elem_of_nil _) Hin)].
  - exists s, s'. split; [exact Hs|]. split; [exact Hs'|exact Hin].
Defined.
