(* ===== verification/Main.v ===== *)
(** * Starting the program

    [cmd/skall/main.go]: what [main] does before it runs a command, and [runTUI],
    which puts the parts together: the node and its network services, the
    tables and the groups restored from them, the chat service and the
    interface on top of it. *)

From S2P Require Import Prelude GoStrings GoTime GoPath Json Protocol Identity Storage Addr Bootstrap Node Dht Config Cli.
From S2P Require Import Groups Persistence Chat Terminal Panels App.

Open Scope Z_scope.

Module Main.

Section Main.
Context `{PeerLib} `{Terminal}.

(** [main] up to [runCLI]: the configuration, defaults if it cannot be loaded,
    and the local identity. *)
Definition start {FS} `{!Identity.FileSystem FS} (lib : Config.config_error → string) (e : PathEnv)
    (opens : string → bool) (keys : option (string * string)) (now : Time) (f : FS) (se : Storage.Env) (w : Storage.World) :
    FS * Storage.World * result Cli.cli_error (Config.Config * Identity.Identity) :=
  let '(f, r) := Config.LoadOrCreate lib e f in
  let cfg := match r with Ok cfg => cfg | Err _ => Config.DefaultConfig e end in
  let '(f, w, r) := Cli.loadLocalIdentity e cfg opens keys now f se w in
  (f, w, pair cfg <$> r).

Context {HH E F K : Type} `{!LibHost HH E}.

Inductive tui_error : Type :=
  | TuiBuild (e : Node.build_error (E:=E) * option HH)
  | TuiServices (e : Cli.network_error)
  | TuiStore.

(** How [runTUI] gets to the interface, or returns before: the node and the
    services, as they are then, and the program.  [handler] is the service's
    inbound handler, [sched] and [dial] the first dials to bootstrap peers, [w]
    the tables of the store that is opened. *)
Definition runTUI (env : Node.BuildEnv (H:=HH) (E:=E) (K:=K)) (e : PathEnv) (cfg : Config.Config) (opens : string → bool)
    (sched : list nat) (dial : nat → option E * Z) (handler : F) (listenAddr : string) (peerAddrs : list string)
    (senv : Chat.SEnv) (w : Storage.World) :
    option (Node.Node HH F) * option Cli.networkRuntime * result tui_error App.program :=
  match Cli.buildNodeFromConfig env cfg listenAddr with
  | Err x => (None, None, Err (TuiBuild x))
  | Ok node =>
      match Cli.startNetworkServices (Node.ID node) sched dial cfg with
      | (_, Err x) => (Some (Node.Close node).1, None, Err (TuiServices x))
      | (_, Ok runtime) =>
          let peerAddrs := peerAddrs ++ Config.nc_BootstrapPeers (Config.cf_Network cfg) in
          let '(node, _) := Cli.connectPeerTargets peerAddrs node in
          if negb (Cli.openStore e cfg opens)
          then (Some (Node.Close (Node.Close node).1).1, Some (Cli.Close runtime), Err TuiStore)
          else
            let '(r, w) := LoadFromStore NewManager (Chat.se_env senv) w in
            let grpMgr := match r with Ok m => m | Err _ => NewManager end in
            let node := Node.SetMessageHandler (Some handler) node in
            let '(cmds, svc) := App.Init senv (Chat.NewP2PService w grpMgr) in
            (Some node, Some runtime, Ok (App.mkProgram App.New svc cmds [] []))
      end
  end.

End Main.
End Main.

Import Main.

(** ** What the interface asks of the service leaves the groups alone *)

Section Session.
Context `{Terminal} (text : Chat.service_error → string) (e : Chat.SEnv) (M : Manager) (d0 : Storage.Database).

Notation frame := (framed M (same_groups d0)).

Lemma frame_listen : Chat.holds e frame App.listenEvents.
Proof. unfold App.listenEvents. apply holds_bind; [apply holds_subs|intros; apply holds_ret]. Qed.

Lemma frame_panel_key k m : Chat.holds e frame (App.panel_key k m).
Proof.
  unfold App.panel_key. do 2 (case_match; [apply holds_ret|]). case_match.
  - apply holds_bind; [|intros; apply holds_ret]. unfold App.openSelected.
    destruct (App.selection _) as [[[id title]|]|]; [|apply holds_ret..].
    unfold App.open_conversation.
    apply holds_bind; [|intros; apply holds_ret]. apply holds_bind; [apply frame_messages|intros; apply holds_ret].
  - destruct (App.am_focus m); [apply holds_ret|]. destruct (Panels.chatView_key k _). apply holds_ret.
Qed.

Lemma frame_Update msg m : Chat.holds e frame (App.Update msg m).
Proof.
  destruct msg as [w h| |k|ms|id mm| | |st n|er|er|id body|ev]; cbn [App.Update]; try apply holds_ret.
  - unfold App.on_key. repeat (case_match; [apply holds_ret|]). apply frame_panel_key.
  - apply holds_bind; [apply frame_peers|intros; apply holds_ret].
  - apply holds_bind; [apply frame_conversations|intros r].
    apply holds_bind; [apply holds_asks|intros; apply holds_ret].
  - apply holds_bind; [|intros; apply holds_bind; [apply frame_listen|intros; apply holds_ret]].
    destruct ev; cbn [App.handleServiceEvent]; try apply holds_ret.
    apply holds_bind; [apply frame_count|intros; apply holds_ret].
Qed.

Lemma frame_doSend id body : Chat.holds e frame (App.doSend text id body).
Proof.
  unfold App.doSend, Chat.ListGroups_sv. apply holds_bind; [apply holds_asks|intros r].
  case_match; (apply holds_bind; [apply holds_ignored|intros; apply holds_ret]).
  - by apply (frame_op e M d0 (Chat.OpSendGroup id body)).
  - by apply (frame_op e M d0 (Chat.OpSendDirect id body)).
Qed.

Lemma frame_step p p' : App.step text e p p' → frame (App.pg_svc p) → frame (App.pg_svc p').
Proof.
  assert (Hup : ∀ msg q rest q', App.update e msg q rest = Some q' → frame (App.pg_svc q) → frame (App.pg_svc q')).
  { intros msg q rest q' Hu Hq. pose proof (frame_Update msg (App.pg_app q) _ Hq) as Hf. unfold App.update in Hu.
    destruct (App.Update msg (App.pg_app q) e (App.pg_svc q)) as [[[m cmds]|] s]; [|done]. cbn in Hu. by injection Hu as <-. }
  intros Hs. destruct Hs as [msg q q' _ _ Hu|l1 msg l2 q q' _ Hu|l1 c l2 o s q _ Hr|l1 ch l2 q _ _|o q Ho]; intros Hq; try by eapply Hup.
  - cbn. destruct c as [m|ch|id body|]; cbn [App.run_cmd] in Hr.
    + by injection Hr as _ <-.
    + pose proof (proj2 (proj2 (proj2 (proj2 (holds_subs e M (same_groups d0))))) ch _ Hq) as Hf.
      destruct (Chat.receive ch e (App.pg_svc q)) as [[ev| |] s']; repeat case_match; by simplify_eq.
    + pose proof (frame_doSend id body _ Hq) as Hf. destruct (App.doSend text id body e (App.pg_svc q)). by injection Hr as _ <-.
    + by injection Hr as _ <-.
  - done.
  - cbn. apply frame_op; [by destruct o|done].
Qed.

End Session.

Lemma new_subs w m : Chat.wf_subs (Chat.NewP2PService w m).
Proof.
  split; cbn; [set_solver|constructor|unfold Chat.maxSubs; lia| |done]. intros i c. by rewrite lookup_empty.
Qed.

(** What [runTUI] hands to Bubble Tea: a fresh interface on a service whose
    groups are those of the tables. *)
Lemma runTUI_started `{PeerLib} `{Terminal} {HH E F K} `{!LibHost HH E} env e cfg opens sched dial (handler : F) listen addrs
    senv w n r p : Storage.no_fault (Chat.se_env senv) → Storage.wf_database (Storage.w_db w) →
  runTUI (HH:=HH) (E:=E) (K:=K) env e cfg opens sched dial handler listen addrs senv w = (n, r, Ok p) →
  App.started senv p ∧ abs (Chat.sv_groups (App.pg_svc p)) = Chat.stored_rosters (Storage.w_db w) ∧
  Storage.w_db (Chat.sv_world (App.pg_svc p)) = Storage.w_db w.
Proof.
  intros He Hw. unfold runTUI. destruct (Cli.buildNodeFromConfig env cfg listen) as [node|]; [|done].
  destruct (Cli.startNetworkServices _ _ _ _) as [bm [rt|]]; [|done].
  destruct (Cli.connectPeerTargets _ _) as [node' l]. destruct (negb _); [done|].
  destruct (LoadFromStore_calm (Chat.se_env senv) w NewManager He Hw) as (m & w' & Hl & Hdb & Ha). rewrite Hl.
  destruct (App.Init senv (Chat.NewP2PService w' m)) as [cmds s] eqn:Ei. intros Hp.
  assert (p = App.mkProgram App.New s cmds [] []) as -> by congruence. clear Hp.
  split; [exists (Chat.NewP2PService w' m); split; [apply new_subs|split; [reflexivity|by rewrite Ei]]|].
  cbn [App.pg_svc].
  assert (Hs : framed m (λ d, d = Storage.w_db w') s).
  { revert Ei. unfold App.Init, mbind, Chat.SV_bind.
    pose proof (proj1 (holds_subs senv m (λ d, d = Storage.w_db w')) (Chat.NewP2PService w' m)) as Hsub.
    unfold App.listenEvents, mbind, Chat.SV_bind. destruct (Chat.Subscribe senv _) as [ch s']. intros [= _ <-]. by apply Hsub. }
  destruct Hs as [Hg Hd]. rewrite Hg, Hd, Hdb, Ha. split; reflexivity.
Qed.

(** C7: when the driver refuses no statement, the groups outlive a session of the
    interface: from [runTUI] on a well-formed database, whatever keys, messages,
    sends and traffic come in any order, the service's groups are at every moment
    those that the tables held at the start, with their active members, and so are
    the tables' own: a restart finds what the session found.  The session is one of
    those [interface_safe] and [sixteen_events] speak of. *)
Theorem session_groups `{PeerLib} `{Terminal} {HH E F K} `{!LibHost HH E} text env e cfg opens sched dial (handler : F)
    listen addrs senv w n r p0 p : Storage.no_fault (Chat.se_env senv) → Storage.wf_database (Storage.w_db w) →
  runTUI (HH:=HH) (E:=E) (K:=K) env e cfg opens sched dial handler listen addrs senv w = (n, r, Ok p0) →
  rtc (App.step text senv) p0 p →
  abs (Chat.sv_groups (App.pg_svc p)) = Chat.stored_rosters (Storage.w_db w) ∧
  Chat.stored_rosters (Storage.w_db (Chat.sv_world (App.pg_svc p))) = Chat.stored_rosters (Storage.w_db w) ∧
  reachable (App.started senv) (App.step text senv) p.
Proof.
  intros He Hw Hrun Hsteps. destruct (runTUI_started _ _ _ _ _ _ _ _ _ _ _ _ _ _ He Hw Hrun) as (Hst & Ha & Hd).
  assert (Hf : framed (Chat.sv_groups (App.pg_svc p0)) (same_groups (Storage.w_db w)) (App.pg_svc p)).
  { assert (Hstart : framed (Chat.sv_groups (App.pg_svc p0)) (same_groups (Storage.w_db w)) (App.pg_svc p0)).
    { split; [done|]. rewrite Hd. by split. }
    clear Hst Ha Hd Hrun. revert Hstart. generalize (Chat.sv_groups (App.pg_svc p0)). intros M.
    induction Hsteps as [|x y z Hxy _ IH]; [done|]. intros Hx. apply IH. by eapply frame_step. }
  destruct Hf as (Hg & _ & Hgr & Hm). split; [by rewrite Hg|]. split; [by apply stored_ext|]. by exists p0.
Qed.

Import App.

(** A node on the text library, and a session with the stored group in which a
    message comes in and is shown. *)
Definition demo_run : option (Node.Node (string * list string * list string) nat) * option Cli.networkRuntime *
    result (tui_error (HH:=string * list string * list string) (E:=string)) program :=
  runTUI (Node.mkBuildEnv (Ok 1%nat) (λ _, Ok ("12D3me", @nil string, @nil string)) None None) demo_env
    (demo_config EmptyString "auto" []) (λ _, true) [] (λ _, (None, 0)) 7%nat EmptyString [] Chat.sample_env Storage.one_group.

Definition demo_actions : list action := [inbound; Run 0; Deliver 0; Run 2; Deliver 0].

(** A message has been handled and the group of the tables is there. *)
Definition demo_good (p : program) : bool :=
  heard 1 p && match abs (Chat.sv_groups (pg_svc p)) !! "room" with Some m => bool_decide ("bob" ∈ m) | None => false end.

Lemma session_groups_witness : ∃ p, demo_good p = true ∧
  abs (Chat.sv_groups (pg_svc p)) = Chat.stored_rosters (Storage.w_db Storage.one_group).
Proof.
  destruct demo_run as [[n r] [p0|]] eqn:Er; [|vm_compute in Er; discriminate Er].
  assert (Hc : match demo_run with
    | (_, _, Ok p0) => match acts demo_text Chat.sample_env demo_actions p0 with Some p => demo_good p | None => false end
    | _ => false end = true) by (vm_compute; reflexivity).
  rewrite Er in Hc. destruct (acts demo_text Chat.sample_env demo_actions p0) as [p|] eqn:Ea; [|discriminate Hc].
  exists p. split; [exact Hc|].
  exact (proj1 (session_groups demo_text _ _ _ _ _ _ _ _ _ Chat.sample_env Storage.one_group n r p0 p
    (λ _, eq_refl) wf_one_group Er (acts_steps _ _ _ _ _ Ea))).
Defined.
